(* ===== verification/_CoqProject ===== *)
-Q . S2P
Prelude.v
RaftUtil.v
RaftNode.v
RaftLog.v
RaftWf.v
RaftOps.v
RaftRepl.v
RaftProps.v
Cluster.v
LogTree.v
ElectionSafety.v
Protocol.v
LogMatching.v
Completeness.v
StateMachineSafety.v
SnapshotFlow.v
AppliedLog.v
RaftTest.v
RaftCheck.v
Progress.v
RaftWitness.v
KVSrv.v
Lock.v
Porcupine.v
KVTest.v
KVAppend.v
KVPuts.v
RSM.v
RSMServer.v
KVRaft.v
KVRaftProps.v
System.v
RSMTest.v
KVSystem.v
Labrpc.v
Group.v
Clnts.v
Config.v
Annotation.v
KVNet.v
ShardCfg.v
Utf8.v
Labgob.v
Coordinator.v
MRWorker.v
MRJob.v
MRApps.v
