(* ===== verification/Prelude.v ===== *)
(** * A verification of the MIT 6.5840 labs of this repository

    The program is a stack of distributed services in Go (src/src).  raft1 is the
    Raft consensus library; kvraft1/rsm replicates any service on top of it and
    kvraft1 is the key/value service so replicated, with its clerk; kvsrv1 is the
    single-server key/value store and kvsrv1/lock a lock built on its clerk;
    shardkv1/shardcfg computes shard assignments; mr is MapReduce and mrapps are
    its applications; labrpc is the simulated network they run on and labgob its
    encoding; tester1, kvtest1, raft1/server.go and raft1/test.go run and check
    them.  The rest is programs around these packages, and skeletons.

    ** Conventions

    A method that runs under its object's mutex is a function on a record with the
    fields of the struct; concurrency is the interleaving of such functions as
    events of a world, run by an executable [step].  A Go panic is [None] (of a
    step: [Panic]).  Go slices are lists, read and cut by [go_index], [go_store],
    [go_slice_from], [go_slice_to] below with their bound checks; maps are [gmap];
    int is [Z].  Code outside the repository is a class with its documented laws
    as fields: [Gob] (encoding/gob), [Json] (encoding/json), [SortByKey] (package
    sort), [Unicode] (the tables of package unicode).  Interfaces of the source are
    classes too: [StateMachine] and [RaftApi] (RSM.v), [KVService] (Lock.v); clients
    are proved against the class, implementations are instances.

    ** Files

    - Raft, src/src/raft1.  RaftUtil.v: QuickSelect of util.go, and sort.Search.
      RaftNode.v: every function of raft.go, persister.go and the messages, under
      the source's names.  RaftLog.v, RaftWf.v, RaftOps.v, RaftRepl.v: the
      invariant [raft_wf] of a peer, kept by every operation without a panic.
      RaftProps.v: the contract of each handler (AppendEntry, RequestVote, the
      commit rule, crash recovery, the applier) and two defects.  Cluster.v: peers,
      calls in flight, loss, delay, crash and restart.  LogTree.v: the tree of all
      entries ever appended, ghost state of the proofs.  ElectionSafety.v: no
      reachable panic, durable votes, one leader per term.  Protocol.v: the code's
      steps are steps of an abstract protocol with Raft's guards (an unused vote for
      an up-to-date candidate, a majority to lead and to commit), which alone give
      one leader per term, and on which LogMatching.v, Completeness.v and
      StateMachineSafety.v prove Raft's safety properties, with compaction and
      snapshot transfer.  SnapshotFlow.v: what a peer stores, sends
      and hands up are snapshots its service handed down.  AppliedLog.v: the log the
      appliers deliver, and that every reader of an applyCh finds next what is next
      in it, for any service above.  Progress.v: from every state a leader can be
      elected.  RaftWitness.v: runs.
    - The Raft tests, raft1/server.go and raft1/test.go.  RaftTest.v: the test
      servers on the cluster, with their snapshots, shutdown and restart, and the
      checkers; no check fails, whatever moment each server is read at, and the one
      call that panics is Snapshot on a peer shut down meanwhile.  RaftCheck.v:
      the checkers that wait, what they decide and how long they sleep.
    - kvraft1/rsm and kvraft1.  RSM.v: rsm.go, and that a replica fed by Raft
      executes the log, that Submit answers with an executed operation, that
      MakeRSM recovers.  RSMServer.v: rsm/server.go and runs.  KVRaft.v: server.go
      of kvraft1, exactly-once execution, refinement of the sequential model.
      KVRaftProps.v: agreement of replicas, the clerk, two defects.  System.v: the
      servers as a whole, each a Raft peer, its applyCh and the replica on top, with
      crashes and restarts: all replicas execute one log, answers take effect in
      real-time order, nothing panics, as long as the log holds only operations that
      the service answers (the hypothesis [log_ok]; a committed Dec stops the counter,
      see agreed_dec_stops).  KVSystem.v: System.v at the key/value service; runs whose
      requests are at most nine behind the newest of their client ([timely], from
      which [log_ok] follows) are linearizable with respect to models1/kv.go.  RSMTest.v:
      rsm/test.go, what goroutines that increment the replicated counter are told.
    - labrpc.  Labrpc.v: the simulated network, with all goroutines of a call; a
      request is handled at most once, an answered one exactly once, by a method of
      a server its end led to; calls return, deleted servers do not answer.  KVNet.v: kvsrv1 behind it is the sequential
      server of KVSrv.v.
    - labgob.  Utf8.v: runes and package unicode.  Labgob.v: labgob.go; the walk of
      concurrent goroutines over types complains once of each lower-case field, and
      what Decode does to a destination that is not zero or not exported.
    - tester1.  Group.v: group.go and srv.go, which start, stop and partition servers
      by the ends of labrpc.  Clnts.v: clnts.go, which servers a client reaches.
      Config.v: config.go, a whole test with its groups and clients; its ends are
      wired right and kept apart.  Annotation.v: annotation.go; the time line shows
      the faults that there were.
    - kvsrv1.  KVSrv.v: rpc.go, server.go, client.go and models1/kv.go; at-most-once
      Put, also when handlers outlive their calls, refinement of the model.  Lock.v: lock.go, mutual exclusion.
    - kvtest1.  Porcupine.v: porcupine.go, the recorded operations over any
      [KVService] with lost replies and late executions; what is recorded is
      linearizable.  KVTest.v: the clients that put concurrently, KVAppend.v: those that
      append to one list, KVPuts.v: those that put at least once, and that the checks of
      kvtest.go pass on every run of them.
    - shardkv1/shardcfg.  ShardCfg.v: shardcfg.go; Rebalance terminates, is valid,
      balanced and stable; Join and Leave.
    - mr.  Coordinator.v: coordinator.go, common.go, rpc.go; no task is lost, reduce
      tasks see all map outputs.  MRWorker.v: MapWork, ReduceWork and
      main/mrsequential.go; MRJob.v: the loop of the workers against the
      coordinator and the shared files; a job's output is the sequential one if no
      map task runs again over files it has created ([exclusive]).
      MRApps.v: wc, indexer, crash, nocrash and early_exit of mrapps, and what jobs
      that run them print.

    ** Bounds and fuel

    No run, cluster size, log or message is bounded.  Fuel appears only where a
    Go loop is not structural, and each such loop is shown to end before it runs
    out: QuickSelect and Search (the length of the range plus one), Rebalance
    (NShards * NShards + 1, its potential drops with every move), Itoa (one more
    than the binary logarithm), the loop of ReduceWork (the number of pairs),
    checkType (the number of types plus one), checkDefault1 (its own limit of three
    levels).  The clerks' retry loops run over a list of network attempts.  FNV and
    ihash wrap at 32 bits; versions, sequence numbers, ids and the counters of the
    tests at 64; terms and indexes of Raft are unbounded.

    ** Not modelled

    The time a test takes and its statistics; files with visualizations; jobcount,
    mtiming and rtiming of mrapps, which measure processes and the clock; the sockets
    and processes of mr and main; shardctrler, shardgrp and the shardkv clerk
    (skeletons without code of their own) and shardkv1/test.go, which tests them;
    SpreadPuts of kvtest.go and kvraft1/test.go; the random strings and seeds of
    tester1; String and FromString of shardcfg (encoding/json).  A critical section is
    one step, so a crash falls before or after it: one between the two persists of
    an election (the new term, then the vote) is not modelled; it would leave the
    peer in the new term with its old vote, so that it grants at most that one.  A handler behind Labrpc.v is one step, exact
    for those that hold their object's mutex throughout, and the variable a reply is
    decoded into starts as zero.  Cluster.v and KVSrv.v use the contract
    of labrpc that Labrpc.v proves, not its code.  Real time: a timer may fire
    whenever it is armed.

    ** Left to do

    The Raft cluster as server objects of Labrpc.v, as KVNet.v does for kvsrv1, in
    place of the contract. *)

From Stdlib Require Export Strings.Byte.
From stdpp Require Export gmap strings list_numbers sorting.
From stdpp Require Export prelude list.

(** ** Go slices

    A Go slice is a list.  Indexing, storing and re-slicing with a Go [int]
    panic when the bound check fails: the panic is [None] in the option monad,
    whose bind is written [x ← e; k]. *)

Declare Scope go_scope.
Delimit Scope go_scope with go.

Definition go_len {A} (l : list A) : Z := Z.of_nat (length l).

Definition go_index {A} (l : list A) (i : Z) : option A :=
  if (0 <=? i)%Z then l !! Z.to_nat i else None.

Definition go_store {A} (l : list A) (i : Z) (v : A) : option (list A) :=
  if ((0 <=? i) && (i <? go_len l))%Z then Some (<[Z.to_nat i := v]> l) else None.

Definition go_slice_from {A} (l : list A) (i : Z) : option (list A) :=
  if ((0 <=? i) && (i <=? go_len l))%Z then Some (drop (Z.to_nat i) l) else None.

Definition go_slice_to {A} (l : list A) (i : Z) : option (list A) :=
  if ((0 <=? i) && (i <=? go_len l))%Z then Some (take (Z.to_nat i) l) else None.

#[global] Arguments go_len : simpl never.
#[global] Arguments go_index : simpl never.
#[global] Arguments go_store : simpl never.
#[global] Arguments go_slice_from : simpl never.
#[global] Arguments go_slice_to : simpl never.

Notation "l .[ i ]" := (go_index l i) (at level 1, left associativity, format "l .[ i ]") : go_scope.
Notation "l .[ i :]" := (go_slice_from l i) (at level 1, left associativity) : go_scope.
Notation "l .[: i ]" := (go_slice_to l i) (at level 1, left associativity) : go_scope.

(** [for i := range n { s = f i s }], a panic of the body ends the loop. *)
Fixpoint for_range_from {S} (i : Z) (n : nat) (f : Z → S → option S) (s : S) : option S :=
  match n with
  | O => Some s
  | Datatypes.S n' => s' ← f i s; for_range_from (i + 1)%Z n' f s'
  end.

Definition for_range {S} (n : Z) (f : Z → S → option S) (s : S) : option S :=
  for_range_from 0%Z (Z.to_nat n) f s.

(** [for _, x := range l { s = f x s }] *)
Fixpoint for_each {A S} (f : A → S → option S) (l : list A) (s : S) : option S :=
  match l with
  | [] => Some s
  | x :: l => s' ← f x s; for_each f l s'
  end.

(** Go's fixed-width integers, kept in [Z] with the wrap-around written out. *)
Definition wrap_u64 (z : Z) : Z := (z mod 2 ^ 64)%Z.
Definition wrap_u32 (z : Z) : Z := (z mod 2 ^ 32)%Z.
Definition wrap_i64 (z : Z) : Z := ((z + 2 ^ 63) mod 2 ^ 64 - 2 ^ 63)%Z.
Definition wrap_i32 (z : Z) : Z := ((z + 2 ^ 31) mod 2 ^ 32 - 2 ^ 31)%Z.

(** ** strconv *)

Definition digit (d : Z) : Ascii.ascii := Ascii.ascii_of_nat (Z.to_nat (48 + d)%Z).

(** The decimal digits of [n] in front of [acc]. *)
Fixpoint itoa_loop (fuel : nat) (n : Z) (acc : string) : string :=
  match fuel with
  | O => acc
  | Datatypes.S fuel =>
      let acc := String (digit (n mod 10)%Z) acc in
      if (n <? 10)%Z then acc else itoa_loop fuel (n / 10)%Z acc
  end.

(** Itoa of a non-negative number; a number has at most log2 + 1 digits. *)
Definition Itoa (n : Z) : string := itoa_loop (Datatypes.S (Z.to_nat (Z.log2 n))) n "".

(** ** hash/fnv *)

(** hash/fnv's 32-bit FNV-1a over the bytes of a string. *)
Definition fnv32a_step (h : Z) (a : Ascii.ascii) : Z :=
  wrap_u32 (Z.lxor h (Z.of_N (Ascii.N_of_ascii a)) * 16777619)%Z.

Definition fnv32a (key : string) : Z :=
  foldl fnv32a_step 2166136261%Z (String.list_ascii_of_string key).

(** Run the binds of a Go function whose calls are known, and nothing else. *)
Ltac bind_simpl := cbn [mbind option_bind].

(** ** The labgob codec

    [labgob.NewEncoder(w).Encode(x)] and [labgob.NewDecoder(r).Decode(&x)] wrap
    Go's encoding/gob, which is not part of the repository: a component that
    stores or ships values takes a codec of this class.  The laws are the
    documented behaviour of gob on registered types: decoding what was encoded
    gives the value back, and an encoding is never empty. *)
Definition bytes : Type := list byte.

Class Gob (A : Type) := {
  gob_encode : A → bytes;
  gob_decode : bytes → option A;
  gob_decode_encode a : gob_decode (gob_encode a) = Some a;
  gob_encode_nonempty a : gob_encode a ≠ []
}.

(** A concrete codec for every countable type; the witnesses run on it. *)
Fixpoint pos_to_bytes (p : positive) : bytes :=
  match p with
  | xH => [x01]
  | xO p => x00 :: pos_to_bytes p
  | xI p => x02 :: pos_to_bytes p
  end.

Fixpoint bytes_to_pos (b : bytes) : option positive :=
  match b with
  | [] => None
  | [x01] => Some xH
  | x00 :: b => xO <$> bytes_to_pos b
  | x02 :: b => xI <$> bytes_to_pos b
  | _ => None
  end.

Lemma bytes_to_pos_to_bytes p : bytes_to_pos (pos_to_bytes p) = Some p.
Proof. induction p as [p IH|p IH|]; simpl; rewrite ?IH; done. Qed.

#[export] Instance byte_eq_dec : EqDecision byte := Byte.byte_eq_dec.

#[export] Instance byte_countable : Countable byte.
Proof. refine (inj_countable Byte.to_N Byte.of_N _). apply Byte.of_to_N. Defined.

Definition countable_gob (A : Type) `{Countable A} : Gob A.
Proof.
  refine {| gob_encode a := pos_to_bytes (encode a);
            gob_decode b := bytes_to_pos b ≫= decode |}.
  - intros a. rewrite bytes_to_pos_to_bytes. simpl. apply decode_encode.
  - intros a. by destruct (encode a).
Defined.

(** ** Lemmas on Go slices *)

Section go_slices.
Context {A : Type}.
Implicit Types (l : list A) (i j : Z) (x y : A).

Lemma go_index_Some_range l i x : go_index l i = Some x → (0 ≤ i < go_len l)%Z.
Proof.
  unfold go_index, go_len. destruct (Z.leb_spec 0 i) as [Hi|]; [|done].
  intros Hl%lookup_lt_Some. lia.
Qed.

Lemma go_index_lookup l i : (0 ≤ i)%Z → go_index l i = l !! Z.to_nat i.
Proof. intros Hi. unfold go_index. by destruct (Z.leb_spec 0 i); [|lia]. Qed.

Lemma go_index_nat l (n : nat) : go_index l (Z.of_nat n) = l !! n.
Proof. rewrite go_index_lookup by lia. by rewrite Nat2Z.id. Qed.

Lemma go_index_is_Some l i : (0 ≤ i < go_len l)%Z → ∃ x, go_index l i = Some x.
Proof.
  intros [Hi Hlt]. rewrite go_index_lookup by done.
  apply lookup_lt_is_Some_2. unfold go_len in Hlt. lia.
Qed.

Lemma go_index_None l i : (i < 0 ∨ go_len l ≤ i)%Z → go_index l i = None.
Proof.
  intros Hi. destruct (go_index l i) as [x|] eqn:E; [|done].
  apply go_index_Some_range in E. lia.
Qed.

Lemma go_store_Some l i y :
  (0 ≤ i < go_len l)%Z → go_store l i y = Some (<[Z.to_nat i := y]> l).
Proof.
  intros [H1 H2]. unfold go_store.
  by rewrite (proj2 (Z.leb_le _ _) H1), (proj2 (Z.ltb_lt _ _) H2).
Qed.

Lemma go_store_inv l i y l' :
  go_store l i y = Some l' → (0 ≤ i < go_len l)%Z ∧ l' = <[Z.to_nat i := y]> l.
Proof.
  unfold go_store.
  destruct (Z.leb_spec 0 i), (Z.ltb_spec i (go_len l)); simpl; intros [= <-]; done.
Qed.

Lemma go_len_store l i y l' : go_store l i y = Some l' → go_len l' = go_len l.
Proof. intros [_ ->]%go_store_inv. unfold go_len. by rewrite length_insert. Qed.

Lemma go_index_store l i j y l' :
  go_store l i y = Some l' →
  go_index l' j = if decide (i = j) then Some y else go_index l j.
Proof.
  intros [[Hi Hlt] ->]%go_store_inv. unfold go_index, go_len in *.
  case_decide as E; [subst j|]; destruct (Z.leb_spec 0 i); try lia.
  - apply list_lookup_insert_eq. lia.
  - destruct (Z.leb_spec 0 j); [|done].
    apply list_lookup_insert_ne. lia.
Qed.

Lemma go_index_insert l i j x y :
  go_index l i = Some x → go_index (<[Z.to_nat i := y]> l) j = if decide (i = j) then Some y else go_index l j.
Proof. intros Hi%go_index_Some_range. apply (go_index_store l i j y). by apply go_store_Some. Qed.

Lemma go_slice_from_Some l i :
  (0 ≤ i ≤ go_len l)%Z → go_slice_from l i = Some (drop (Z.to_nat i) l).
Proof.
  intros [H1 H2]. unfold go_slice_from.
  by rewrite (proj2 (Z.leb_le _ _) H1), (proj2 (Z.leb_le _ _) H2).
Qed.

Lemma go_slice_from_inv l i l' :
  go_slice_from l i = Some l' → (0 ≤ i ≤ go_len l)%Z ∧ l' = drop (Z.to_nat i) l.
Proof.
  unfold go_slice_from.
  destruct (Z.leb_spec 0 i), (Z.leb_spec i (go_len l)); simpl; intros [= <-]; done.
Qed.

Lemma go_slice_to_Some l i :
  (0 ≤ i ≤ go_len l)%Z → go_slice_to l i = Some (take (Z.to_nat i) l).
Proof.
  intros [H1 H2]. unfold go_slice_to.
  by rewrite (proj2 (Z.leb_le _ _) H1), (proj2 (Z.leb_le _ _) H2).
Qed.

Lemma go_slice_to_inv l i l' :
  go_slice_to l i = Some l' → (0 ≤ i ≤ go_len l)%Z ∧ l' = take (Z.to_nat i) l.
Proof.
  unfold go_slice_to.
  destruct (Z.leb_spec 0 i), (Z.leb_spec i (go_len l)); simpl; intros [= <-]; done.
Qed.

Lemma go_len_nonneg l : (0 ≤ go_len l)%Z.
Proof. unfold go_len. lia. Qed.

Lemma go_len_app l k : go_len (l ++ k) = (go_len l + go_len k)%Z.
Proof. unfold go_len. rewrite length_app. lia. Qed.

Lemma go_len_insert l n x : go_len (<[n := x]> l) = go_len l.
Proof. unfold go_len. by rewrite length_insert. Qed.

Lemma go_len_replicate n x : go_len (replicate n x) = Z.of_nat n.
Proof. unfold go_len. by rewrite length_replicate. Qed.
End go_slices.

(** [eauto with go] discharges the bound checks of slices; [autorewrite with go]
    computes lengths. *)
Create HintDb go.
#[export] Hint Resolve go_len_nonneg go_len_store go_store_Some go_slice_from_Some go_slice_to_Some : go.
#[export] Hint Rewrite @go_index_nat @go_len_app @go_len_insert @go_len_replicate : go.

(** Read [l] at an index that is in range, and go on with the value. *)
Ltac go_read l i x H := destruct (go_index_is_Some l i) as [x H]; [lia|rewrite H; bind_simpl].

(** 64-bit arithmetic. *)
Lemma wrap_i64_add x y : wrap_i64 (wrap_i64 x + y)%Z = wrap_i64 (x + y)%Z.
Proof.
  unfold wrap_i64. set (m := ((x + 2 ^ 63) mod 2 ^ 64)%Z). replace (m - 2 ^ 63 + y + 2 ^ 63)%Z with (m + y)%Z by lia.
  unfold m. rewrite Zplus_mod_idemp_l. do 2 f_equal. lia.
Qed.

Lemma wrap_i64_range z : (- 2 ^ 63 ≤ wrap_i64 z < 2 ^ 63)%Z.
Proof. unfold wrap_i64. pose proof (Z.mod_pos_bound (z + 2 ^ 63) (2 ^ 64)). lia. Qed.

Lemma wrap_i64_small z : (- 2 ^ 63 ≤ z < 2 ^ 63)%Z → wrap_i64 z = z.
Proof. intros Hz. unfold wrap_i64. rewrite Z.mod_small; lia. Qed.

(** Loop rule: an invariant of the body holds after the loop, and a body that
    never panics under the invariant gives a loop that never panics. *)
Lemma for_range_from_ind {S} (P : Z → S → Prop) (f : Z → S → option S) i n s :
  P i s →
  (∀ k s, (i ≤ k < i + Z.of_nat n)%Z → P k s → ∃ s', f k s = Some s' ∧ P (k + 1)%Z s') →
  ∃ s', for_range_from i n f s = Some s' ∧ P (i + Z.of_nat n)%Z s'.
Proof.
  revert i s. induction n as [|n IH]; intros i s HP Hf; simpl.
  - exists s. rewrite Z.add_0_r. done.
  - destruct (Hf i s) as (s1 & -> & H1); [lia|done|]. simpl.
    destruct (IH (i + 1)%Z s1) as (s2 & -> & H2); [done| |].
    + intros k s' Hk. apply Hf. lia.
    + exists s2. split; [done|].
      replace (i + Z.of_nat (Datatypes.S n))%Z with (i + 1 + Z.of_nat n)%Z by lia. done.
Qed.

Lemma for_range_ind {S} (P : Z → S → Prop) (f : Z → S → option S) n s :
  (0 ≤ n)%Z →
  P 0%Z s →
  (∀ k s, (0 ≤ k < n)%Z → P k s → ∃ s', f k s = Some s' ∧ P (k + 1)%Z s') →
  ∃ s', for_range n f s = Some s' ∧ P n s'.
Proof.
  intros Hn HP Hf. unfold for_range.
  destruct (for_range_from_ind P f 0 (Z.to_nat n) s) as (s' & E & H); [done| |].
  - intros k s0 Hk. apply Hf. lia.
  - exists s'. split; [done|]. replace (0 + Z.of_nat (Z.to_nat n))%Z with n in H by lia. done.
Qed.

(** The same rule for a loop over a slice, on the part already done. *)
Lemma for_each_ind {A S} (P : list A → S → Prop) (f : A → S → option S) l s :
  P [] s →
  (∀ l1 x l2 s, l = l1 ++ x :: l2 → P l1 s → ∃ s', f x s = Some s' ∧ P (l1 ++ [x]) s') →
  ∃ s', for_each f l s = Some s' ∧ P l s'.
Proof.
  intros HP Hf. cut (∀ l2 l1 s, l = l1 ++ l2 → P l1 s → ∃ s', for_each f l2 s = Some s' ∧ P l s').
  { intros H. by apply (H l []). }
  clear s HP. induction l2 as [|x l2 IH]; intros l1 s Hl HP; simpl.
  - exists s. by rewrite Hl, app_nil_r.
  - destruct (Hf l1 x l2 s Hl HP) as (s1 & -> & H1). simpl. apply (IH (l1 ++ [x])); [|done]. by rewrite <- app_assoc.
Qed.

Lemma for_each_keeps {A S} (P : S → Prop) (f : A → S → option S) l s s' :
  (∀ x s s', P s → f x s = Some s' → P s') → P s → for_each f l s = Some s' → P s'.
Proof.
  intros Hf. revert s. induction l as [|x l IH]; intros s HP; simpl; [by intros [= <-]|].
  destruct (f x s) as [s1|] eqn:E; simpl; [|done]. apply IH. by eapply Hf.
Qed.

Lemma for_each_app {A S} (f : A → S → option S) l1 l2 s : for_each f (l1 ++ l2) s = (s' ← for_each f l1 s; for_each f l2 s').
Proof. revert s. induction l1 as [|x l1 IH]; intros s; [done|]. simpl. destruct (f x s); simpl; [apply IH|done]. Qed.
Lemma for_each_fmap {A B S} (f : B → S → option S) (g : A → B) l s : for_each f (g <$> l) s = for_each (λ x, f (g x)) l s.
Proof. revert s. induction l as [|x l IH]; intros s; [done|]. simpl. destruct (f (g x) s); simpl; [apply IH|done]. Qed.

Lemma filter_Forall_id {A} (P : A → Prop) `{!∀ x, Decision (P x)} (l : list A) :
  Forall P l → filter P l = l.
Proof. induction 1 as [|x l Hx _ IH]; [done|]. rewrite filter_cons_True, IH by done. done. Qed.
