(* ===== verification/RaftUtil.v ===== *)
(** * raft1/util.go and sort.Search

    [QuickSelect] is the in-place selection loop the leader uses to find the
    highest index stored on a majority of servers; [Search] is Go's
    sort.Search, the binary search behind Raft's fast log back-up.  Both are
    executable and shown to be correct and to terminate. *)

From S2P Require Import Prelude.
Local Open Scope Z_scope.
Local Open Scope go_scope.

(** [array[i], array[j] = array[j], array[i]] *)
Definition swap (array : list Z) (i j : Z) : option (list Z) :=
  x ← array.[i];
  y ← array.[j];
  array' ← go_store array i y;
  go_store array' j x.

(** The loop [for j := left; j < right; j++] of QuickSelect: [n] is the number
    of iterations left, [right - j]. *)
Fixpoint partition_loop (n : nat) (array : list Z) (i j pivot : Z) : option (list Z * Z) :=
  match n with
  | O => Some (array, i)
  | S n' =>
      x ← array.[j];
      if x <? pivot
      then array' ← swap array i j; partition_loop n' array' (i + 1) (j + 1) pivot
      else partition_loop n' array i (j + 1) pivot
  end.

(** One round of the outer loop up to the [switch]: the middle element becomes
    the pivot and ends at its final position [i]. *)
Definition partition_round (array : list Z) (left right : Z) : option (list Z * Z) :=
  let idx := Z.shiftr (left + right) 1 in
  pivot ← array.[idx];
  array ← swap array idx right;
  r ← partition_loop (Z.to_nat (right - left)) array left left pivot;
  let '(array, i) := (r : list Z * Z) in
  array ← swap array i right;
  Some (array, i).

(** The outer [for] loop; each round shrinks [left, right], so the length of
    the array is enough fuel. *)
Fixpoint QuickSelect_loop (fuel : nat) (array : list Z) (left right k : Z) : option Z :=
  match fuel with
  | O => None
  | S fuel' =>
      if left =? right then array.[left]
      else
        r ← partition_round array left right;
        let '(array, i) := (r : list Z * Z) in
        if k =? i then array.[i]
        else if k <? i then QuickSelect_loop fuel' array left (i - 1) k
        else QuickSelect_loop fuel' array (i + 1) right k
  end.

Definition QuickSelect (array : list Z) (k : Z) : option Z :=
  QuickSelect_loop (length array) array 0 (go_len array - 1) k.

(** Go's sort.Search(n, f): the loop [for i < j]; [f] may panic. *)
Fixpoint Search_loop (fuel : nat) (f : Z → option bool) (i j : Z) : option Z :=
  match fuel with
  | O => None
  | S fuel' =>
      if i <? j
      then let h := Z.shiftr (i + j) 1 in
           b ← f h;
           if (b : bool) then Search_loop fuel' f i h else Search_loop fuel' f (h + 1) j
      else Some i
  end.

Definition Search (n : Z) (f : Z → option bool) : option Z :=
  Search_loop (S (Z.to_nat n)) f 0 n.

(** ** Correctness of sort.Search *)

Lemma shiftr1_mid i j : i < j → i ≤ Z.shiftr (i + j) 1 < j.
Proof. intros H. rewrite Z.shiftr_div_pow2 by lia. change (2 ^ 1) with 2.
  Z.to_euclidean_division_equations. lia. Qed.

(** [f] answers on the whole range, and once it says yes it keeps saying yes. *)
Definition search_monotone (n : Z) (f : Z → option bool) (g : Z → bool) : Prop :=
  (∀ i, 0 ≤ i < n → f i = Some (g i)) ∧
  (∀ i j, 0 ≤ i ≤ j → j < n → g i = true → g j = true).

Lemma Search_loop_spec fuel f g n i j :
  search_monotone n f g →
  0 ≤ i ≤ j → j ≤ n →
  (∀ k, 0 ≤ k < i → g k = false) →
  (∀ k, j ≤ k < n → g k = true) →
  (Z.to_nat (j - i) < fuel)%nat →
  ∃ r, Search_loop fuel f i j = Some r ∧ i ≤ r ≤ j ∧
    (∀ k, 0 ≤ k < r → g k = false) ∧ (∀ k, r ≤ k < n → g k = true).
Proof.
  intros [Hf Hm]. revert i j.
  induction fuel as [|fuel IH]; intros i j Hij Hjn Hlo Hhi Hfuel; [lia|]. simpl.
  destruct (Z.ltb_spec i j) as [Hlt|Hge].
  - pose proof (shiftr1_mid i j Hlt) as Hmid.
    set (h := Z.shiftr (i + j) 1) in *. rewrite Hf by lia. simpl.
    destruct (g h) eqn:Hg.
    + destruct (IH i h) as (r & -> & Hr & H1 & H2); try lia; [done| |].
      { intros k Hk. destruct (decide (k < n)); [|lia]. by apply (Hm h k); [lia..|]. }
      exists r. split; [done|]. split; [lia|done].
    + destruct (IH (h + 1) j) as (r & -> & Hr & H1 & H2); try lia; [|done|].
      { intros k Hk. destruct (g k) eqn:Hgk; [|done].
        rewrite <- Hg. symmetry. by apply (Hm k h); [lia..|]. }
      exists r. split; [done|]. split; [lia|done].
  - exists i. replace j with i in * by lia. auto with lia.
Qed.

(** Search returns the least index of [0, n) on which [f] answers yes, and [n]
    when there is none; a negative [n] is treated like [0]. *)
Lemma Search_spec n f g :
  0 ≤ n → search_monotone n f g →
  ∃ r, Search n f = Some r ∧ 0 ≤ r ≤ n ∧
    (∀ k, 0 ≤ k < r → g k = false) ∧ (∀ k, r ≤ k < n → g k = true).
Proof.
  intros Hn Hfg. unfold Search.
  destruct (Search_loop_spec (S (Z.to_nat n)) f g n 0 n) as (r & H); try lia; [done|].
  exists r. done.
Qed.

Lemma Search_nonpos n f : n ≤ 0 → Search n f = Some 0.
Proof. intros Hn. unfold Search. simpl. by destruct (Z.ltb_spec 0 n); [lia|]. Qed.

(** ** Correctness of QuickSelect *)

(** [v] is the element of rank [k] of [l] (0-based): [l] splits into [k]
    elements that are at most [v], [v] itself, and the rest, at least [v]. *)
Definition kth_smallest (l : list Z) (k : Z) (v : Z) : Prop :=
  ∃ lo hi, l ≡ₚ lo ++ v :: hi ∧ go_len lo = k ∧ Forall (λ x, x ≤ v) lo ∧ Forall (λ x, v ≤ x) hi.

(** [a'] is [a] with the cells of [left, right] permuted among themselves. *)
Record region_perm (left right : Z) (a a' : list Z) : Prop := {
  rp_perm : a' ≡ₚ a;
  rp_outside m : ¬ (left ≤ m ≤ right) → a'.[m] = a.[m];
  rp_inside m x : left ≤ m ≤ right → a'.[m] = Some x → ∃ m', left ≤ m' ≤ right ∧ a.[m'] = Some x
}.

Lemma region_perm_refl left right a : region_perm left right a a.
Proof. constructor; [done|done|eauto]. Qed.

Lemma region_perm_trans left right a b c :
  region_perm left right a b → region_perm left right b c → region_perm left right a c.
Proof.
  intros [p1 o1 i1] [p2 o2 i2]. constructor.
  - by rewrite p2, p1.
  - intros m Hm. by rewrite o2, o1.
  - intros m x Hm Hx. destruct (i2 m x Hm Hx) as (m' & Hm' & Hx'). eauto.
Qed.

Lemma region_perm_len left right a a' : region_perm left right a a' → go_len a' = go_len a.
Proof. intros [p _ _]. unfold go_len. by rewrite p. Qed.

Lemma swap_spec left right a i j :
  left ≤ i ≤ right → left ≤ j ≤ right → 0 ≤ left → right < go_len a →
  ∃ a', swap a i j = Some a' ∧ region_perm left right a a' ∧
    a'.[i] = a.[j] ∧ a'.[j] = a.[i] ∧ (∀ m, m ≠ i → m ≠ j → a'.[m] = a.[m]).
Proof.
  intros Hi Hj Hl Hr.
  unfold swap. go_read a i x Hx. go_read a j y Hy.
  assert (Hst : go_store a i y = Some (<[Z.to_nat i:=y]> a)) by (apply go_store_Some; lia).
  rewrite Hst; simpl.
  set (b := <[Z.to_nat i:=y]> a) in *.
  assert (Hlen : go_len b = go_len a) by (by apply (go_len_store a i y)).
  assert (Hst2 : go_store b j x = Some (<[Z.to_nat j:=x]> b)) by (apply go_store_Some; lia).
  assert (Hlook : ∀ m, go_index (<[Z.to_nat j:=x]> b) m =
     if decide (j = m) then Some x else if decide (i = m) then Some y else go_index a m).
  { intros m. rewrite (go_index_store _ _ _ _ _ Hst2).
    destruct (decide (j = m)); [done|]. by rewrite (go_index_store _ _ _ _ _ Hst). }
  exists (<[Z.to_nat j:=x]> b). split; [done|]. split; [|split_and!].
  - constructor.
    + rewrite !go_index_lookup in Hx, Hy by lia. by apply Permutation_insert_swap.
    + intros m Hm. rewrite Hlook. repeat case_decide; try lia; done.
    + intros m z Hm. rewrite Hlook. repeat case_decide; intros [= <-]; eauto.
  - rewrite Hlook. repeat case_decide; congruence.
  - rewrite Hlook. case_decide; congruence.
  - intros m H1 H2. rewrite Hlook. repeat case_decide; congruence.
Qed.

(** The partition loop puts the cells below the pivot first. *)
Lemma partition_loop_spec n a left right i j pivot :
  0 ≤ left → left ≤ i ≤ j → right < go_len a → Z.of_nat n = right - j → j ≤ right →
  (∀ m x, left ≤ m < i → a.[m] = Some x → x < pivot) →
  (∀ m x, i ≤ m < j → a.[m] = Some x → pivot ≤ x) →
  a.[right] = Some pivot →
  ∃ a' i', partition_loop n a i j pivot = Some (a', i') ∧
    region_perm left right a a' ∧ left ≤ i' ≤ right ∧ a'.[right] = Some pivot ∧
    (∀ m x, left ≤ m < i' → a'.[m] = Some x → x < pivot) ∧
    (∀ m x, i' ≤ m < right → a'.[m] = Some x → pivot ≤ x).
Proof.
  revert a i j. induction n as [|n IH]; intros a i j Hl Hij Hr Hn Hj Hlo Hhi Hp; simpl.
  { exists a, i. replace j with right in * by lia.
    split_and!; auto using region_perm_refl with lia. }
  go_read a j x Hx.
  destruct (Z.ltb_spec x pivot) as [Hlt|Hge].
  - destruct (swap_spec left right a i j) as (b & -> & Hb & Hbi & Hbj & Hbo); try lia. simpl.
    destruct (IH b (i + 1) (j + 1)) as (a' & i' & -> & Ha & H); try lia.
    + rewrite (region_perm_len _ _ _ _ Hb). lia.
    + intros m y Hm Hy. destruct (decide (m = i)) as [->|].
      * rewrite Hbi in Hy. congruence.
      * apply (Hlo m); [lia|]. by rewrite <- (Hbo m) by lia.
    + intros m y Hm Hy. destruct (decide (m = j)) as [->|].
      * rewrite Hbj in Hy. destruct (decide (i = j)) as [->|]; [lia|]. apply (Hhi i); [lia|done].
      * apply (Hhi m); [lia|]. by rewrite <- (Hbo m) by lia.
    + rewrite Hbo by lia. done.
    + exists a', i'. split; [done|]. split; [by eapply region_perm_trans|done].
  - apply (IH a i (j + 1)); try lia; [done| |done].
    intros m y Hm Hy. destruct (decide (m = j)) as [->|]; [congruence|]. apply (Hhi m); [lia|done].
Qed.

(** What every round keeps: cells left of [left] are at most, and cells right
    of [right] at least, the cells between. *)
Record select_inv (a : list Z) (left right k : Z) : Prop := {
  si_range : 0 ≤ left ≤ k ∧ k ≤ right < go_len a;
  si_left m m' x y : m < left ≤ m' → a.[m] = Some x → a.[m'] = Some y → x ≤ y;
  si_right m m' x y : m' ≤ right < m → a.[m] = Some x → a.[m'] = Some y → y ≤ x
}.

Lemma select_inv_perm a a' left right k :
  select_inv a left right k → region_perm left right a a' → select_inv a' left right k.
Proof.
  intros [Hr Hl Hh] Hp. pose proof (region_perm_len _ _ _ _ Hp) as Hlen. destruct Hp as [_ Ho Hi].
  assert (Hin : ∀ m x, a'.[m] = Some x → ∃ m', a.[m'] = Some x ∧
             (m < left → m' = m) ∧ (right < m → m' = m) ∧ (left ≤ m → left ≤ m') ∧ (m ≤ right → m' ≤ right)).
  { intros m x Hx. destruct (decide (left ≤ m ≤ right)) as [Hm|Hm].
    - destruct (Hi m x Hm Hx) as (m' & ? & ?). exists m'. split_and!; auto; lia.
    - exists m. rewrite <- (Ho m Hm). split_and!; auto; lia. }
  constructor; [lia| |].
  - intros m m' x y Hm (n & Hx & N1 & _)%Hin (n' & Hy & _ & _ & N3 & _)%Hin. apply (Hl n n'); auto. lia.
  - intros m m' x y Hm (n & Hx & _ & N2 & _)%Hin (n' & Hy & _ & _ & _ & N4)%Hin. apply (Hh n n'); auto. lia.
Qed.

Lemma kth_smallest_of_cell a k v :
  a.[k] = Some v →
  (∀ m x, m < k → a.[m] = Some x → x ≤ v) →
  (∀ m x, k < m → a.[m] = Some x → v ≤ x) →
  kth_smallest a k v.
Proof.
  intros Hk Hlo Hhi. pose proof (go_index_Some_range _ _ _ Hk) as Hr.
  rewrite go_index_lookup in Hk by lia. unfold go_len in Hr.
  exists (take (Z.to_nat k) a), (drop (S (Z.to_nat k)) a). split_and!.
  - by rewrite take_drop_middle.
  - unfold go_len. rewrite length_take. lia.
  - apply Forall_lookup. intros i x Hx. rewrite lookup_take_Some in Hx. destruct Hx as [Hx Hi].
    apply (Hlo (Z.of_nat i)); [lia|]. by rewrite go_index_nat.
  - apply Forall_lookup. intros i x Hx. rewrite lookup_drop in Hx.
    apply (Hhi (Z.of_nat (S (Z.to_nat k) + i))); [lia|]. by rewrite go_index_nat.
Qed.

Lemma kth_smallest_perm a a' k v : a ≡ₚ a' → kth_smallest a k v → kth_smallest a' k v.
Proof. intros Hp (lo & hi & H & ?). exists lo, hi. by rewrite <- Hp. Qed.

Lemma partition_round_spec a left right k :
  select_inv a left right k → left < right →
  ∃ d i pivot, partition_round a left right = Some (d, i) ∧
    d ≡ₚ a ∧ select_inv d left right k ∧ left ≤ i ≤ right ∧ d.[i] = Some pivot ∧
    (∀ m x, m < i → d.[m] = Some x → x ≤ pivot) ∧
    (∀ m x, i < m → d.[m] = Some x → pivot ≤ x).
Proof.
  intros Hinv Hne. pose proof (si_range _ _ _ _ Hinv) as Hr. unfold partition_round.
  pose proof (shiftr1_mid left right) as Hmid. set (idx := Z.shiftr (left + right) 1) in *.
  go_read a idx pivot Hpv.
  destruct (swap_spec left right a idx right) as (b & -> & Hb & Hbi & Hbr & Hbo); try lia. simpl.
  pose proof (region_perm_len _ _ _ _ Hb) as Hlb.
  destruct (partition_loop_spec (Z.to_nat (right - left)) b left right left left pivot)
    as (c & i & -> & Hc & Hi & Hcr & Hlow & Hhigh); try lia; [by rewrite Hbr|]. simpl.
  pose proof (region_perm_len _ _ _ _ Hc) as Hlc.
  destruct (swap_spec left right c i right) as (d & -> & Hd & Hdi & Hdr & Hdo); try lia. simpl.
  assert (Hp : region_perm left right a d) by (by do 2 (eapply region_perm_trans; [done|])).
  apply (select_inv_perm _ d) in Hinv; [|done]. destruct Hinv as [Hrd Hld Hhd].
  assert (Hpi : d.[i] = Some pivot) by congruence.
  exists d, i, pivot. split_and!; [done|apply Hp|done|lia|lia|done| |].
  - intros m x Hm Hx. destruct (decide (left ≤ m)) as [H|H].
    + enough (x < pivot) by lia. apply (Hlow m); [lia|]. by rewrite <- Hdo by lia.
    + by apply (Hld m i x pivot); [lia|..].
  - intros m x Hm Hx. destruct (decide (m ≤ right)) as [H|H].
    + destruct (decide (m = right)) as [->|].
      * rewrite Hdr in Hx. apply (Hhigh i); [lia|done].
      * apply (Hhigh m); [lia|]. by rewrite <- Hdo by lia.
    + by apply (Hhd m i x pivot); [lia|..].
Qed.

Lemma QuickSelect_loop_spec fuel a left right k :
  select_inv a left right k → (Z.to_nat (right - left) < fuel)%nat →
  ∃ v, QuickSelect_loop fuel a left right k = Some v ∧ kth_smallest a k v.
Proof.
  revert a left right. induction fuel as [|fuel IH]; intros a left right Hinv Hf; [lia|].
  pose proof (si_range _ _ _ _ Hinv) as Hr. cbn [QuickSelect_loop].
  destruct (Z.eqb_spec left right) as [E|Hne].
  { assert (left = k) by lia. assert (right = k) by lia. subst left right.
    destruct (go_index_is_Some a k) as [v Hv]; [lia|].
    exists v. split; [done|]. apply kth_smallest_of_cell; [done| |].
    - intros m x Hm Hx. by eapply (si_left _ _ _ _ Hinv m k); [lia|..].
    - intros m x Hm Hx. by eapply (si_right _ _ _ _ Hinv m k); [lia|..]. }
  destruct (partition_round_spec a left right k Hinv) as (d & i & pivot & -> & Hp & [Hrd Hld Hhd] & Hi & Hpi & Hlo & Hhi);
    [lia|]. simpl.
  destruct (Z.eqb_spec k i) as [->|Hki].
  { exists pivot. split; [done|]. apply (kth_smallest_perm d); [done|]. by apply kth_smallest_of_cell. }
  assert (Hcross : ∀ m m' x y, m ≤ i ≤ m' → d.[m] = Some x → d.[m'] = Some y → x ≤ y).
  { intros m m' x y Hm Hx Hy. trans pivot.
    - destruct (decide (m = i)) as [->|]; [by simplify_eq|]. apply (Hlo m); [lia|done].
    - destruct (decide (m' = i)) as [->|]; [by simplify_eq|]. apply (Hhi m'); [lia|done]. }
  destruct (Z.ltb_spec k i) as [Hk|Hk].
  - destruct (IH d left (i - 1)) as (v & -> & Hv); [|lia|].
    { constructor; [lia|done|]. intros m m' x y Hm Hx Hy. by apply (Hcross m' m); [lia|..]. }
    exists v. split; [done|]. by apply (kth_smallest_perm d).
  - destruct (IH d (i + 1) right) as (v & -> & Hv); [|lia|].
    { constructor; [lia| |done]. intros m m' x y Hm Hx Hy. by apply (Hcross m m'); [lia|..]. }
    exists v. split; [done|]. by apply (kth_smallest_perm d).
Qed.

Lemma QuickSelect_kth a k :
  0 ≤ k < go_len a → ∃ v, QuickSelect a k = Some v ∧ kth_smallest a k v.
Proof.
  intros Hk. apply QuickSelect_loop_spec; unfold go_len in *; [|lia].
  constructor; [unfold go_len; lia| |].
  - intros m m' x y Hm Hx%go_index_Some_range. lia.
  - intros m m' x y Hm Hx%go_index_Some_range. unfold go_len in *. lia.
Qed.

Lemma kth_smallest_merge_sort a k v :
  kth_smallest a k v → (merge_sort Z.le a).[k] = Some v.
Proof.
  intros (lo & hi & Hp & Hk & Hlo & Hhi).
  assert (merge_sort Z.le a = merge_sort Z.le lo ++ v :: merge_sort Z.le hi) as ->.
  { apply (StronglySorted_unique Z.le).
    - apply StronglySorted_merge_sort; apply _.
    - apply StronglySorted_app_2; [|apply StronglySorted_merge_sort; apply _|].
      + intros x y Hx Hy. rewrite merge_sort_Permutation in Hx.
        rewrite Forall_forall in Hlo. apply Hlo in Hx. apply elem_of_cons in Hy as [->|Hy]; [done|].
        rewrite merge_sort_Permutation in Hy. rewrite Forall_forall in Hhi. apply Hhi in Hy. lia.
      + constructor; [apply StronglySorted_merge_sort; apply _|].
        by rewrite merge_sort_Permutation.
    - by rewrite !merge_sort_Permutation. }
  subst k. rewrite go_index_lookup by (unfold go_len; lia).
  unfold go_len. rewrite Nat2Z.id, lookup_app_r; rewrite (Permutation_length (merge_sort_Permutation _ lo)); [|done].
  by rewrite Nat.sub_diag.
Qed.

(** At least [len - k] elements are at least the element of rank [k]. *)
Lemma kth_smallest_count a k v :
  kth_smallest a k v → go_len a - k ≤ go_len (filter (λ x, v ≤ x) a).
Proof.
  intros (lo & hi & Hp & Hk & _ & Hhi).
  assert (Hl : length a = (length lo + S (length hi))%nat) by (rewrite Hp, length_app; done).
  assert (filter (λ x, v ≤ x) a ≡ₚ filter (λ x, v ≤ x) lo ++ v :: hi) as Hf.
  { rewrite Hp, filter_app. f_equiv. rewrite filter_cons_True by done. f_equiv.
    by rewrite filter_Forall_id. }
  unfold go_len in *. rewrite Hf, length_app. simpl. lia.
Qed.
