(* ===== verification/RaftNode.v ===== *)
(** * raft1/raft.go: one Raft peer

    The state of a peer is the record [Raft] (the struct of the same name), and
    every method that runs under [rf.mu] is a function on it.  A Go panic (an
    index or a re-slice out of range) is [None].  RPC handlers return the new
    state and the reply; the bodies of the goroutines that wait for an RPC reply
    are functions from the arguments sent and the reply received.

    Two timers are kept as "armed" bits, the labgob encoding of the persistent
    state goes through a [Gob] codec, and terms and indexes are unbounded [Z]
    (a run would need 2^63 elections to overflow an [int]).  Condition variables
    carry no data: [applier] and [replicator] re-check their condition when they
    wake, so a [Signal] is not part of the state. *)

From S2P Require Import Prelude RaftUtil.
Local Open Scope Z_scope.
Local Open Scope go_scope.

(** ** tester1/persister.go *)

Record Persister := mkPersister {
  raftstate : bytes;
  snapshot : bytes
}.

Definition MakePersister : Persister := mkPersister [] [].

Definition ReadRaftState (ps : Persister) : bytes := raftstate ps.

Definition RaftStateSize (ps : Persister) : Z := go_len (raftstate ps).

Definition Save (raftstate snapshot : bytes) (ps : Persister) : Persister :=
  mkPersister raftstate snapshot.

Definition ReadSnapshot (ps : Persister) : bytes := snapshot ps.

Definition SnapshotSize (ps : Persister) : Z := go_len (snapshot ps).

(** ** Data of raft.go and raftapi.go *)

Inductive ServerState := Follower | Candidate | Leader.

#[export] Instance ServerState_eq_dec : EqDecision ServerState.
Proof. solve_decision. Defined.

Section raft.
Context {cmd : Type}.

(** [Command] is an [interface{}]: [None] is Go's nil. *)
Record LogEntry := mkLogEntry {
  Command : option cmd;
  Term : Z;
  Index : Z
}.

Inductive ApplyMsg :=
| CommandMsg (command : option cmd) (commandIndex : Z)
| SnapshotMsg (snapshot : bytes) (snapshotTerm snapshotIndex : Z).

Record Raft := mkRaft {
  me : Z;
  peers : Z;
  persister : Persister;
  dead : bool;
  currentTerm : Z;
  voteFor : Z;
  commitIndex : Z;
  lastApplied : Z;
  state : ServerState;
  nextIndex : list Z;
  matchIndex : list Z;
  electionTimer : bool;
  heartbeatTimer : bool;
  logs : list LogEntry;
  lastIncludedIndex : Z;
  lastIncludedTerm : Z;
  pendingSnapshot : option ApplyMsg
}.

(** What [persist] writes: currentTerm, voteFor, logs, lastIncludedIndex and
    lastIncludedTerm, in this order. *)
Definition PersistedState : Type := Z * Z * list LogEntry * Z * Z.

Record InstallSnapShotArgs := mkInstallSnapShotArgs {
  is_Term : Z;
  is_LeaderId : Z;
  is_LastIncludedIndex : Z;
  is_LastIncludedTerm : Z;
  is_Data : option bytes
}.

Record InstallSnapShotReply := mkInstallSnapShotReply { isr_Term : Z }.

Record RequestVoteArgs := mkRequestVoteArgs {
  rv_Term : Z;
  rv_CandidateId : Z;
  rv_LastLogIndex : Z;
  rv_LastLogTerm : Z
}.

Record RequestVoteReply := mkRequestVoteReply {
  rvr_Term : Z;
  rvr_VoteGranted : bool
}.

Record AppendEntryArgs := mkAppendEntryArgs {
  ae_Term : Z;
  ae_LeaderId : Z;
  ae_PrevLogIndex : Z;
  ae_PrevLogTerm : Z;
  ae_Entries : list LogEntry;
  ae_LeaderCommit : Z
}.

Record AppendEntryReply := mkAppendEntryReply {
  aer_Term : Z;
  aer_Success : bool;
  aer_ConflictIndex : Z;
  aer_ConflictTerm : Z
}.

Definition set_persister (v : Persister) (rf : Raft) : Raft :=
  mkRaft (me rf) (peers rf) v (dead rf) (currentTerm rf) (voteFor rf) (commitIndex rf) (lastApplied rf) (state rf) (nextIndex rf) (matchIndex rf) (electionTimer rf) (heartbeatTimer rf) (logs rf) (lastIncludedIndex rf) (lastIncludedTerm rf) (pendingSnapshot rf).
Definition set_dead (v : bool) (rf : Raft) : Raft :=
  mkRaft (me rf) (peers rf) (persister rf) v (currentTerm rf) (voteFor rf) (commitIndex rf) (lastApplied rf) (state rf) (nextIndex rf) (matchIndex rf) (electionTimer rf) (heartbeatTimer rf) (logs rf) (lastIncludedIndex rf) (lastIncludedTerm rf) (pendingSnapshot rf).
Definition set_currentTerm (v : Z) (rf : Raft) : Raft :=
  mkRaft (me rf) (peers rf) (persister rf) (dead rf) v (voteFor rf) (commitIndex rf) (lastApplied rf) (state rf) (nextIndex rf) (matchIndex rf) (electionTimer rf) (heartbeatTimer rf) (logs rf) (lastIncludedIndex rf) (lastIncludedTerm rf) (pendingSnapshot rf).
Definition set_voteFor (v : Z) (rf : Raft) : Raft :=
  mkRaft (me rf) (peers rf) (persister rf) (dead rf) (currentTerm rf) v (commitIndex rf) (lastApplied rf) (state rf) (nextIndex rf) (matchIndex rf) (electionTimer rf) (heartbeatTimer rf) (logs rf) (lastIncludedIndex rf) (lastIncludedTerm rf) (pendingSnapshot rf).
Definition set_commitIndex (v : Z) (rf : Raft) : Raft :=
  mkRaft (me rf) (peers rf) (persister rf) (dead rf) (currentTerm rf) (voteFor rf) v (lastApplied rf) (state rf) (nextIndex rf) (matchIndex rf) (electionTimer rf) (heartbeatTimer rf) (logs rf) (lastIncludedIndex rf) (lastIncludedTerm rf) (pendingSnapshot rf).
Definition set_lastApplied (v : Z) (rf : Raft) : Raft :=
  mkRaft (me rf) (peers rf) (persister rf) (dead rf) (currentTerm rf) (voteFor rf) (commitIndex rf) v (state rf) (nextIndex rf) (matchIndex rf) (electionTimer rf) (heartbeatTimer rf) (logs rf) (lastIncludedIndex rf) (lastIncludedTerm rf) (pendingSnapshot rf).
Definition set_state (v : ServerState) (rf : Raft) : Raft :=
  mkRaft (me rf) (peers rf) (persister rf) (dead rf) (currentTerm rf) (voteFor rf) (commitIndex rf) (lastApplied rf) v (nextIndex rf) (matchIndex rf) (electionTimer rf) (heartbeatTimer rf) (logs rf) (lastIncludedIndex rf) (lastIncludedTerm rf) (pendingSnapshot rf).
Definition set_nextIndex (v : list Z) (rf : Raft) : Raft :=
  mkRaft (me rf) (peers rf) (persister rf) (dead rf) (currentTerm rf) (voteFor rf) (commitIndex rf) (lastApplied rf) (state rf) v (matchIndex rf) (electionTimer rf) (heartbeatTimer rf) (logs rf) (lastIncludedIndex rf) (lastIncludedTerm rf) (pendingSnapshot rf).
Definition set_matchIndex (v : list Z) (rf : Raft) : Raft :=
  mkRaft (me rf) (peers rf) (persister rf) (dead rf) (currentTerm rf) (voteFor rf) (commitIndex rf) (lastApplied rf) (state rf) (nextIndex rf) v (electionTimer rf) (heartbeatTimer rf) (logs rf) (lastIncludedIndex rf) (lastIncludedTerm rf) (pendingSnapshot rf).
Definition set_electionTimer (v : bool) (rf : Raft) : Raft :=
  mkRaft (me rf) (peers rf) (persister rf) (dead rf) (currentTerm rf) (voteFor rf) (commitIndex rf) (lastApplied rf) (state rf) (nextIndex rf) (matchIndex rf) v (heartbeatTimer rf) (logs rf) (lastIncludedIndex rf) (lastIncludedTerm rf) (pendingSnapshot rf).
Definition set_heartbeatTimer (v : bool) (rf : Raft) : Raft :=
  mkRaft (me rf) (peers rf) (persister rf) (dead rf) (currentTerm rf) (voteFor rf) (commitIndex rf) (lastApplied rf) (state rf) (nextIndex rf) (matchIndex rf) (electionTimer rf) v (logs rf) (lastIncludedIndex rf) (lastIncludedTerm rf) (pendingSnapshot rf).
Definition set_logs (v : list LogEntry) (rf : Raft) : Raft :=
  mkRaft (me rf) (peers rf) (persister rf) (dead rf) (currentTerm rf) (voteFor rf) (commitIndex rf) (lastApplied rf) (state rf) (nextIndex rf) (matchIndex rf) (electionTimer rf) (heartbeatTimer rf) v (lastIncludedIndex rf) (lastIncludedTerm rf) (pendingSnapshot rf).
Definition set_lastIncludedIndex (v : Z) (rf : Raft) : Raft :=
  mkRaft (me rf) (peers rf) (persister rf) (dead rf) (currentTerm rf) (voteFor rf) (commitIndex rf) (lastApplied rf) (state rf) (nextIndex rf) (matchIndex rf) (electionTimer rf) (heartbeatTimer rf) (logs rf) v (lastIncludedTerm rf) (pendingSnapshot rf).
Definition set_lastIncludedTerm (v : Z) (rf : Raft) : Raft :=
  mkRaft (me rf) (peers rf) (persister rf) (dead rf) (currentTerm rf) (voteFor rf) (commitIndex rf) (lastApplied rf) (state rf) (nextIndex rf) (matchIndex rf) (electionTimer rf) (heartbeatTimer rf) (logs rf) (lastIncludedIndex rf) v (pendingSnapshot rf).
Definition set_pendingSnapshot (v : option ApplyMsg) (rf : Raft) : Raft :=
  mkRaft (me rf) (peers rf) (persister rf) (dead rf) (currentTerm rf) (voteFor rf) (commitIndex rf) (lastApplied rf) (state rf) (nextIndex rf) (matchIndex rf) (electionTimer rf) (heartbeatTimer rf) (logs rf) (lastIncludedIndex rf) (lastIncludedTerm rf) v.

Context `{!Gob PersistedState}.

(** ** Log accessors and small helpers *)

Definition getLatestLog (rf : Raft) : option LogEntry := (logs rf).[go_len (logs rf) - 1].

Definition getFirstLog (rf : Raft) : option LogEntry := (logs rf).[0].

Definition GetState (rf : Raft) : Z * bool := (currentTerm rf, bool_decide (state rf = Leader)).

Definition killed (rf : Raft) : bool := dead rf.

Definition Kill (rf : Raft) : Raft := set_dead true rf.

Definition isLogUpdateToDate (index term : Z) (rf : Raft) : option bool :=
  lastLog ← getLatestLog rf;
  Some ((Term lastLog <? term) || ((term =? Term lastLog) && (Index lastLog <=? index))).

Definition isValidLeader (term : Z) (rf : Raft) : bool :=
  bool_decide (state rf = Leader) && (currentTerm rf =? term).

Definition isValidCandidate (term : Z) (rf : Raft) : bool :=
  bool_decide (state rf = Candidate) && (currentTerm rf =? term).

Definition isValidLogIndex (index : Z) (rf : Raft) : option bool :=
  firstLog ← getFirstLog rf;
  let logArrayIndex := index - Index firstLog in
  Some ((0 <=? logArrayIndex) && (logArrayIndex <? go_len (logs rf))).

Definition isLogMatched (index term : Z) (rf : Raft) : option bool :=
  firstLog ← getFirstLog rf;
  lastLog ← getLatestLog rf;
  if (index <? Index firstLog) || (Index lastLog <? index) then Some false
  else
    valid ← isValidLogIndex index rf;
    if negb valid then Some false
    else
      e ← (logs rf).[index - Index firstLog];
      Some (term =? Term e).

Definition updateLogIndices (peer matchIdx : Z) (rf : Raft) : option Raft :=
  matchIndex' ← go_store (matchIndex rf) peer matchIdx;
  nextIndex' ← go_store (nextIndex rf) peer (matchIdx + 1);
  Some (set_nextIndex nextIndex' (set_matchIndex matchIndex' rf)).

Definition resetElectionTimer (rf : Raft) : Raft := set_electionTimer true rf.

(** Copies the slice when its capacity is more than twice its length; the
    contents do not change. *)
Definition truncateLogs (entries : list LogEntry) : list LogEntry := entries.

Definition generateSingleLog (lastIncludedIndex lastIncludedTerm : Z) : list LogEntry :=
  [mkLogEntry None lastIncludedTerm lastIncludedIndex].

(** ** Persistence *)

Definition persist (snapshot : option bytes) (rf : Raft) : Raft :=
  let raftstate := gob_encode (currentTerm rf, voteFor rf, logs rf,
                               lastIncludedIndex rf, lastIncludedTerm rf) in
  match snapshot with
  | Some s => set_persister (Save raftstate s (persister rf)) rf
  | None => set_persister (Save raftstate (ReadSnapshot (persister rf)) (persister rf)) rf
  end.

Definition persistState (rf : Raft) : Raft := persist None rf.

Definition readPersist (data : bytes) (rf : Raft) : option Raft :=
  if go_len data <? 1 then Some rf
  else
    match (gob_decode data : option PersistedState) with
    | None => Some rf
    | Some (currentTerm, voteFor, logs, lastIncludedIndex, lastIncludedTerm) =>
        let rf := set_logs logs (set_voteFor voteFor (set_currentTerm currentTerm rf)) in
        firstLog ← getFirstLog rf;
        let rf := set_commitIndex (Index firstLog) (set_lastApplied (Index firstLog) rf) in
        Some (set_lastIncludedTerm lastIncludedTerm (set_lastIncludedIndex lastIncludedIndex rf))
    end.

Definition PersistBytes (rf : Raft) : Z := RaftStateSize (persister rf).

(** ** Role changes *)

Definition ChangeState (newstate : ServerState) (rf : Raft) : option Raft :=
  if decide (state rf = newstate) then Some rf
  else
    let rf := set_state newstate rf in
    match newstate with
    | Follower => Some (set_heartbeatTimer false (resetElectionTimer rf))
    | Leader =>
        let rf := set_heartbeatTimer true (set_electionTimer false rf) in
        lastLog ← getLatestLog rf;
        let last := Index lastLog in
        rf ← for_range (peers rf)
               (λ i rf,
                  nextIndex' ← go_store (nextIndex rf) i (last + 1);
                  matchIndex' ← go_store (matchIndex rf) i 0;
                  Some (set_matchIndex matchIndex' (set_nextIndex nextIndex' rf))) rf;
        updateLogIndices (me rf) last rf
    | Candidate => Some rf
    end.

Definition updateTermAndStepDown (newTerm : Z) (rf : Raft) : option Raft :=
  if currentTerm rf <? newTerm
  then
    rf ← ChangeState Follower (set_voteFor (-1) (set_currentTerm newTerm rf));
    Some (persistState rf)
  else Some rf.

Definition rejectVote (rf : Raft) : RequestVoteReply := mkRequestVoteReply (currentTerm rf) false.

(** [rejectAppendEntry] fills Term and Success; the conflict fields keep Go's
    zero values unless the caller sets them. *)
Definition rejectAppendEntry (conflictIndex conflictTerm : Z) (rf : Raft) : AppendEntryReply :=
  mkAppendEntryReply (currentTerm rf) false conflictIndex conflictTerm.

(** ** RPC handlers *)

Definition RequestVote (args : RequestVoteArgs) (rf : Raft) : option (Raft * RequestVoteReply) :=
  if (rv_Term args <? currentTerm rf)
     || ((rv_Term args =? currentTerm rf) && negb (voteFor rf =? -1)
         && negb (voteFor rf =? rv_CandidateId args))
  then Some (rf, rejectVote rf)
  else
    rf ← updateTermAndStepDown (rv_Term args) rf;
    upToDate ← isLogUpdateToDate (rv_LastLogIndex args) (rv_LastLogTerm args) rf;
    if negb upToDate then Some (rf, rejectVote rf)
    else
      let rf := set_voteFor (rv_CandidateId args) rf in
      let rf := resetElectionTimer (persistState rf) in
      Some (rf, mkRequestVoteReply (currentTerm rf) true).

(** The loop [for index, entry := range args.Entries]: [entries] is
    [args.Entries[index:]]. *)
Fixpoint appendNewEntries (firstLogIdx : Z) (entries : list LogEntry) (rf : Raft) : option Raft :=
  match entries with
  | [] => Some rf
  | entry :: rest =>
      conflict ← (if go_len (logs rf) <=? Index entry - firstLogIdx then Some true
                  else e ← (logs rf).[Index entry - firstLogIdx];
                       Some (negb (Term e =? Term entry)));
      if (conflict : bool)
      then
        pre ← (logs rf).[: Index entry - firstLogIdx];
        Some (persistState (set_logs (pre ++ entries) rf))
      else appendNewEntries firstLogIdx rest rf
  end.

(** The reply to an AppendEntry whose PrevLog entry is not in the log. *)
Definition conflictReply (args : AppendEntryArgs) (rf : Raft) : option AppendEntryReply :=
  firstLog ← getFirstLog rf;
  lastLog ← getLatestLog rf;
  let firstLogIdx := Index firstLog in
  let lastLogIdx := Index lastLog in
  if lastLogIdx <? ae_PrevLogIndex args
  then Some (rejectAppendEntry (lastLogIdx + 1) (-1) rf)
  else
    valid ← isValidLogIndex (ae_PrevLogIndex args) rf;
    if negb valid then Some (rejectAppendEntry firstLogIdx (-1) rf)
    else
      e ← (logs rf).[ae_PrevLogIndex args - firstLogIdx];
      let conflictTerm := Term e in
      offset ← Search (ae_PrevLogIndex args - firstLogIdx + 1)
                 (λ index, if go_len (logs rf) <=? index then Some true
                           else x ← (logs rf).[index]; Some (conflictTerm <=? Term x));
      Some (rejectAppendEntry (firstLogIdx + offset) conflictTerm rf).

Definition AppendEntry (args : AppendEntryArgs) (rf : Raft) : option (Raft * AppendEntryReply) :=
  if ae_Term args <? currentTerm rf then Some (rf, rejectAppendEntry 0 0 rf)
  else
    rf ← updateTermAndStepDown (ae_Term args) rf;
    rf ← (if decide (state rf = Follower) then Some rf else ChangeState Follower rf);
    let rf := resetElectionTimer rf in
    firstLog ← getFirstLog rf;
    let firstLogIdx := Index firstLog in
    if ae_PrevLogIndex args <? firstLogIdx
    then Some (rf, rejectAppendEntry firstLogIdx (-1) rf)
    else
      matched ← isLogMatched (ae_PrevLogIndex args) (ae_PrevLogTerm args) rf;
      if negb matched
      then reply ← conflictReply args rf; Some (rf, reply)
      else
        rf ← appendNewEntries firstLogIdx (ae_Entries args) rf;
        lastLog ← getLatestLog rf;
        let newCommitIdx := Z.min (ae_LeaderCommit args) (Index lastLog) in
        let rf := if commitIndex rf <? newCommitIdx then set_commitIndex newCommitIdx rf else rf in
        Some (rf, mkAppendEntryReply (currentTerm rf) true 0 0).

(** The new log after an InstallSnapShot that is not stale. *)
Definition snapshotLogs (args : InstallSnapShotArgs) (rf : Raft) : option (list LogEntry) :=
  firstLog ← getFirstLog rf;
  lastLog ← getLatestLog rf;
  let firstLogIndex := Index firstLog in
  let single := generateSingleLog (is_LastIncludedIndex args) (is_LastIncludedTerm args) in
  if Index lastLog <=? is_LastIncludedIndex args then Some single
  else if firstLogIndex <=? is_LastIncludedIndex args then
    let logIndex := is_LastIncludedIndex args - firstLogIndex in
    conflict ← (if logIndex <? go_len (logs rf)
                then e ← (logs rf).[logIndex]; Some (negb (Term e =? is_LastIncludedTerm args))
                else Some false);
    if (conflict : bool) then Some single
    else
      let offset := logIndex + 1 in
      if offset <? go_len (logs rf)
      then tail ← (logs rf).[offset :]; Some (truncateLogs (single ++ tail))
      else Some single
  else Some (logs rf).

Definition InstallSnapShot (args : InstallSnapShotArgs) (rf : Raft)
    : option (Raft * InstallSnapShotReply) :=
  let reply := mkInstallSnapShotReply (currentTerm rf) in
  if is_Term args <? currentTerm rf then Some (rf, reply)
  else
    let rf := if currentTerm rf <? is_Term args
              then set_voteFor (-1) (set_currentTerm (is_Term args) rf) else rf in
    rf ← ChangeState Follower rf;
    let rf := resetElectionTimer rf in
    if is_LastIncludedIndex args <=? lastApplied rf then Some (rf, reply)
    else
      logs' ← snapshotLogs args rf;
      let rf := set_lastIncludedTerm (is_LastIncludedTerm args)
                  (set_lastIncludedIndex (is_LastIncludedIndex args) rf) in
      let rf := set_logs logs' rf in
      let rf := if commitIndex rf <? is_LastIncludedIndex args
                then set_commitIndex (is_LastIncludedIndex args) rf else rf in
      let rf := if lastApplied rf <? is_LastIncludedIndex args
                then set_lastApplied (is_LastIncludedIndex args) rf else rf in
      let rf := persist (is_Data args) rf in
      let snapshotCopy := default [] (is_Data args) in
      let rf := set_pendingSnapshot
                  (Some (SnapshotMsg snapshotCopy (is_LastIncludedTerm args)
                                     (is_LastIncludedIndex args))) rf in
      Some (rf, reply).

(** ** Calls from the service *)

Definition Start (command : option cmd) (rf : Raft) : option (Raft * (Z * Z * bool)) :=
  if decide (state rf = Leader) then
    lastLog ← getLatestLog rf;
    let newLatestLogIdx := Index lastLog + 1 in
    let newLogEntry := mkLogEntry command (currentTerm rf) newLatestLogIdx in
    let rf := persistState (set_logs (logs rf ++ [newLogEntry]) rf) in
    rf ← updateLogIndices (me rf) newLatestLogIdx rf;
    Some (rf, (newLatestLogIdx, currentTerm rf, true))
  else Some (rf, (-1, -1, false)).

Definition Snapshot (index : Z) (snapshot : option bytes) (rf : Raft) : option Raft :=
  if killed rf then Some rf
  else
    firstLog ← getFirstLog rf;
    lastLog ← getLatestLog rf;
    let firstLogIdx := Index firstLog in
    if (index <=? firstLogIdx) || (Index lastLog <? index) then Some rf
    else
      let newBeginEntry := index - firstLogIdx in
      e ← (logs rf).[newBeginEntry];
      let rf := set_lastIncludedTerm (Term e) (set_lastIncludedIndex (Index e) rf) in
      tail ← (logs rf).[newBeginEntry :];
      first ← (truncateLogs tail).[0];
      logs' ← go_store (truncateLogs tail) 0 (mkLogEntry None (Term first) (Index first));
      Some (persist snapshot (set_logs logs' rf)).

(** ** Elections *)

(** [LaunchElection] under the lock: the state after voting for itself and the
    arguments that every other peer is sent.  [grantedVotes] starts at 1. *)
Definition LaunchElection (rf : Raft) : option (Raft * RequestVoteArgs) :=
  let rf := persistState (set_voteFor (me rf) rf) in
  lastLog ← getLatestLog rf;
  Some (rf, mkRequestVoteArgs (currentTerm rf) (me rf) (Index lastLog) (Term lastLog)).

(** The body of the goroutine of [LaunchElection], run when the reply of one
    peer arrives; [grantedVotes] is the captured counter. *)
Definition handleVoteReply (voteArgs : RequestVoteArgs) (voteReply : RequestVoteReply)
    (grantedVotes : Z) (rf : Raft) : option (Raft * Z) :=
  if isValidCandidate (rv_Term voteArgs) rf then
    if rvr_VoteGranted voteReply then
      let grantedVotes := grantedVotes + 1 in
      if peers rf / 2 <? grantedVotes
      then rf ← ChangeState Leader rf; Some (rf, grantedVotes)
      else Some (rf, grantedVotes)
    else if currentTerm rf <? rvr_Term voteReply
    then rf ← updateTermAndStepDown (rvr_Term voteReply) rf; Some (rf, grantedVotes)
    else Some (rf, grantedVotes)
  else Some (rf, grantedVotes).

(** The two cases of the [select] of [ticker]; receiving from a timer's channel
    leaves the timer disarmed until it is reset. *)
Definition ticker_election (rf : Raft) : option (Raft * RequestVoteArgs) :=
  let rf := set_electionTimer false rf in
  rf ← ChangeState Candidate rf;
  let rf := set_currentTerm (currentTerm rf + 1) rf in
  let rf := persistState rf in
  r ← LaunchElection rf;
  let '(rf, voteArgs) := (r : Raft * RequestVoteArgs) in
  Some (resetElectionTimer rf, voteArgs).

(** The boolean says whether heartbeats are broadcast. *)
Definition ticker_heartbeat (rf : Raft) : Raft * bool :=
  let rf := set_heartbeatTimer false rf in
  if decide (state rf = Leader) then (set_heartbeatTimer true rf, true) else (rf, false).

(** ** Replication *)

Definition makeInstallSnapShotArgs (rf : Raft) : option InstallSnapShotArgs :=
  firstLog ← getFirstLog rf;
  Some (mkInstallSnapShotArgs (currentTerm rf) (me rf) (Index firstLog) (Term firstLog)
          (Some (ReadSnapshot (persister rf)))).

Definition genAppendEntryArgs (prevLogIndex : Z) (rf : Raft) : option AppendEntryArgs :=
  firstLog ← getFirstLog rf;
  lastLog ← getLatestLog rf;
  let firstLogIndex := Index firstLog in
  let lastLogIndex := Index lastLog in
  let prevLogIndex := if prevLogIndex <? firstLogIndex - 1 then firstLogIndex - 1 else prevLogIndex in
  let prevLogIndex := if lastLogIndex <? prevLogIndex then lastLogIndex else prevLogIndex in
  prevLogTerm ← (if (firstLogIndex <=? prevLogIndex)
                    && (prevLogIndex - firstLogIndex <? go_len (logs rf))
                 then e ← (logs rf).[prevLogIndex - firstLogIndex]; Some (Term e)
                 else Some 0);
  entries ← (logs rf).[prevLogIndex - firstLogIndex + 1 :];
  Some (mkAppendEntryArgs (currentTerm rf) (me rf) prevLogIndex prevLogTerm entries (commitIndex rf)).

Definition acceptNewLogEntries (peer : Z) (args : AppendEntryArgs) (rf : Raft) : option Raft :=
  let matchIdx := ae_PrevLogIndex args + go_len (ae_Entries args) in
  rf ← updateLogIndices peer matchIdx rf;
  let matchLen := go_len (matchIndex rf) in
  let k := matchLen - (matchLen / 2 + 1) in
  newCommitIdx ← QuickSelect (matchIndex rf) k;
  if commitIndex rf <? newCommitIdx
  then
    matched ← isLogMatched newCommitIdx (currentTerm rf) rf;
    if (matched : bool) then Some (set_commitIndex newCommitIdx rf) else Some rf
  else Some rf.

(** The index to fall back to, before it is clamped to the leader's log. *)
Definition conflictNextIndex (args : AppendEntryArgs) (reply : AppendEntryReply) (rf : Raft) : option Z :=
  if negb (aer_ConflictTerm reply =? -1)
  then
    firstLog ← getFirstLog rf;
    let first := Index firstLog in
    let size := ae_PrevLogIndex args - first in
    offset ← Search size (λ i, e ← (logs rf).[i]; Some (aer_ConflictTerm reply <=? Term e));
    let idx := first + offset in
    hit ← (if idx <=? ae_PrevLogIndex args
           then e ← (logs rf).[idx - first]; Some (Term e =? aer_ConflictTerm reply)
           else Some false);
    Some (if (hit : bool) then idx + 1 else aer_ConflictIndex reply)
  else Some (aer_ConflictIndex reply).

Definition rollBackToConflictTerm (peer : Z) (args : AppendEntryArgs) (reply : AppendEntryReply)
    (rf : Raft) : option Raft :=
  firstLog ← getFirstLog rf;
  lastLog ← getLatestLog rf;
  let firstLogIdx := Index firstLog in
  let lastLogIdx := Index lastLog + 1 in
  next ← conflictNextIndex args reply rf;
  let next := if next <? firstLogIdx then firstLogIdx else next in
  let next := if lastLogIdx <? next then lastLogIdx else next in
  nextIndex' ← go_store (nextIndex rf) peer next;
  Some (set_nextIndex nextIndex' rf).

(** [doSendAppendEntry] up to the RPC: nothing when not the leader, else the
    snapshot or the entries to send. *)
Inductive SendRequest :=
| SendNothing
| SendInstallSnapShot (args : InstallSnapShotArgs)
| SendAppendEntry (args : AppendEntryArgs).

Definition doSendAppendEntry (peer : Z) (rf : Raft) : option SendRequest :=
  if decide (state rf = Leader) then
    next ← (nextIndex rf).[peer];
    let prevLogIdx := next - 1 in
    firstLog ← getFirstLog rf;
    if prevLogIdx <? Index firstLog
    then args ← makeInstallSnapShotArgs rf; Some (SendInstallSnapShot args)
    else args ← genAppendEntryArgs prevLogIdx rf; Some (SendAppendEntry args)
  else Some SendNothing.

(** [doSendAppendEntry] after a successful InstallSnapShot call. *)
Definition handleSnapShotReply (peer : Z) (args : InstallSnapShotArgs) (reply : InstallSnapShotReply)
    (rf : Raft) : option Raft :=
  if isValidLeader (is_Term args) rf then
    if currentTerm rf <? isr_Term reply
    then updateTermAndStepDown (isr_Term reply) rf
    else updateLogIndices peer (is_LastIncludedIndex args) rf
  else Some rf.

(** [doSendAppendEntry] after a successful AppendEntry call. *)
Definition handleAppendReply (peer : Z) (args : AppendEntryArgs) (reply : AppendEntryReply)
    (rf : Raft) : option Raft :=
  if isValidLeader (ae_Term args) rf then
    if negb (aer_Success reply) then
      if currentTerm rf <? aer_Term reply
      then updateTermAndStepDown (aer_Term reply) rf
      else rollBackToConflictTerm peer args reply rf
    else acceptNewLogEntries peer args rf
  else Some rf.

Definition shouleReplicateLog (peer : Z) (rf : Raft) : option bool :=
  if decide (state rf = Leader) then
    m ← (matchIndex rf).[peer];
    lastLog ← getLatestLog rf;
    Some (m <? Index lastLog)
  else Some false.

(** ** The applier *)

Inductive ApplierAction :=
| ApplierWait
| ApplierExit
| ApplierContinue
| ApplierSend (msg : ApplyMsg).

(** One iteration of the loop of [applier], from taking the lock to releasing
    it: the new state and what the goroutine does next. *)
Definition applier (rf : Raft) : option (Raft * ApplierAction) :=
  if killed rf then Some (rf, ApplierExit)
  else if (commitIndex rf <=? lastApplied rf) && bool_decide (pendingSnapshot rf = None)
  then Some (rf, ApplierWait)
  else
    match pendingSnapshot rf with
    | Some msg => Some (set_pendingSnapshot None rf, ApplierSend msg)
    | None =>
        firstLog ← getFirstLog rf;
        let firstLogIdx := Index firstLog in
        if lastApplied rf <? firstLogIdx
        then Some (set_lastApplied firstLogIdx rf, ApplierContinue)
        else
          let nextIndex := lastApplied rf + 1 in
          if commitIndex rf <? nextIndex then Some (rf, ApplierContinue)
          else
            let logArrayIndex := nextIndex - firstLogIdx in
            if (logArrayIndex <? 0) || (go_len (logs rf) <=? logArrayIndex)
            then Some (set_lastApplied firstLogIdx rf, ApplierContinue)
            else
              entry ← (logs rf).[logArrayIndex];
              Some (set_lastApplied nextIndex rf, ApplierSend (CommandMsg (Command entry) (Index entry)))
    end.

(** ** Make *)

Definition Make (npeers me : Z) (persister : Persister) : option Raft :=
  let rf := mkRaft me npeers persister false 0 (-1) 0 0 Follower
              (replicate (Z.to_nat npeers) 0) (replicate (Z.to_nat npeers) 0)
              true true [mkLogEntry None 0 0] 0 0 None in
  rf ← for_range npeers
         (λ peer rf,
            rf ← updateLogIndices peer 0 rf;
            lastLog ← getLatestLog rf;
            nextIndex' ← go_store (nextIndex rf) peer (Index lastLog + 1);
            Some (set_nextIndex nextIndex' rf)) rf;
  readPersist (ReadRaftState persister) rf.

End raft.

Arguments LogEntry : clear implicits.
Arguments ApplyMsg : clear implicits.
Arguments Raft : clear implicits.
Arguments PersistedState : clear implicits.
Arguments AppendEntryArgs : clear implicits.
Arguments SendRequest : clear implicits.
Arguments ApplierAction : clear implicits.

#[export] Instance LogEntry_eq_dec {cmd} `{!EqDecision cmd} : EqDecision (LogEntry cmd).
Proof. solve_decision. Defined.

#[export] Instance LogEntry_countable {cmd} `{Countable cmd} : Countable (LogEntry cmd).
Proof.
  refine (inj_countable' (λ e, (Command e, Term e, Index e)) (λ '(c, t, i), mkLogEntry c t i) _).
  by intros [].
Defined.

(** The codec the executable examples use, for commands that are numbers. *)
Definition nat_codec : Gob (PersistedState nat) := countable_gob (PersistedState nat).
