(* ===== verification/RaftLog.v ===== *)
(** * Well-formed Raft logs

    The log of a peer is never empty: its first cell is the dummy entry that
    stands for everything already in the snapshot.  [log_wf] says that indexes
    are consecutive and terms never decrease; [log_at] reads a log by log index.
    The lemmas here give the accessors of raft.go on well-formed logs and how
    well-formedness survives appending, truncating and compacting. *)

From S2P Require Import Prelude RaftUtil RaftNode.
Local Open Scope Z_scope.
Local Open Scope go_scope.

Section raft_log.
Context {cmd : Type}.
Implicit Types (l : list (LogEntry cmd)) (e : LogEntry cmd) (rf : Raft cmd).

(** [l] continues a log whose last entry has index [idx] and term [term]. *)
Fixpoint log_seg (idx term : Z) l : Prop :=
  match l with
  | [] => True
  | e :: l' => Index e = idx + 1 ∧ term ≤ Term e ∧ log_seg (Index e) (Term e) l'
  end.

Definition log_wf l : Prop :=
  match l with
  | [] => False
  | e :: l' => 0 ≤ Index e ∧ 0 ≤ Term e ∧ log_seg (Index e) (Term e) l'
  end.

Definition first_index l : Z := default 0 (Index <$> head l).
Definition last_index l : Z := first_index l + go_len l - 1.
Definition log_at l (idx : Z) : option (LogEntry cmd) := l.[idx - first_index l].
Definition last_term l : Z := default 0 (Term <$> last l).

(** ** Segments *)

Lemma log_seg_lookup idx term l k e :
  log_seg idx term l → l !! k = Some e → Index e = idx + 1 + Z.of_nat k ∧ term ≤ Term e.
Proof.
  revert idx term k. induction l as [|x l IH]; intros idx term k; [done|].
  intros (Hi & Ht & Hs). destruct k as [|k]; simpl.
  - intros [= <-]. lia.
  - intros Hk. destruct (IH _ _ _ Hs Hk). lia.
Qed.

Lemma log_seg_terms idx term l j k e e' :
  log_seg idx term l → l !! j = Some e → l !! k = Some e' → (j ≤ k)%nat → Term e ≤ Term e'.
Proof.
  revert idx term j k. induction l as [|x l IH]; intros idx term j k; [done|].
  intros (Hi & Ht & Hs). destruct j as [|j], k as [|k]; simpl; intros Hj Hk Hle; simplify_eq; try lia.
  - by destruct (log_seg_lookup _ _ _ _ _ Hs Hk).
  - apply (IH _ _ j k Hs Hj Hk). lia.
Qed.

Lemma log_seg_app idx term l1 l2 :
  log_seg idx term (l1 ++ l2) ↔
  log_seg idx term l1 ∧
  log_seg (idx + go_len l1) (default term (Term <$> last l1)) l2.
Proof.
  revert idx term. induction l1 as [|x l1 IH]; intros idx term; simpl.
  - unfold go_len. simpl. rewrite Z.add_0_r. tauto.
  - rewrite IH. destruct l1 as [|y l1]; simpl.
    + unfold go_len. simpl. split.
      * intros (-> & ? & _ & ?). rewrite Z.add_0_r in *. tauto.
      * intros ((-> & ? & _) & ?). rewrite Z.add_0_r. tauto.
    + replace (idx + go_len (x :: y :: l1)) with (idx + 1 + go_len (y :: l1)) by (unfold go_len; simpl; lia).
      destruct (last (y :: l1)) as [z|] eqn:E; [simpl|by apply last_None in E].
      split; [intros (-> & ? & ? & ?)|intros ((-> & ? & ?) & ?)]; tauto.
Qed.

Lemma log_seg_take idx term l k : log_seg idx term l → log_seg idx term (take k l).
Proof. intros H. rewrite <- (take_drop k l) in H. by apply log_seg_app in H as [? _]. Qed.

Lemma log_seg_weaken idx term term' l : term' ≤ term → log_seg idx term l → log_seg idx term' l.
Proof. destruct l; simpl; intuition lia. Qed.

Lemma log_seg_drop idx term l k e :
  log_seg idx term l → l !! k = Some e → log_seg (Index e) (Term e) (drop (S k) l).
Proof.
  revert idx term k. induction l as [|x l IH]; intros idx term k; [done|].
  intros (_ & _ & Hs). destruct k as [|k]; simpl; [by intros [= <-]|apply IH with (1:=Hs)].
Qed.

(** ** Well-formed logs *)

Lemma log_wf_cons e l : log_wf (e :: l) ↔ 0 ≤ Index e ∧ 0 ≤ Term e ∧ log_seg (Index e) (Term e) l.
Proof. done. Qed.

Lemma log_wf_seg l : log_wf l → log_seg (first_index l - 1) 0 l.
Proof. destruct l as [|e l]; simpl; [done|]. unfold first_index; simpl. intuition lia. Qed.

Lemma log_wf_nonempty l : log_wf l → l ≠ [].
Proof. by destruct l. Qed.

Lemma log_wf_first_nonneg l : log_wf l → 0 ≤ first_index l.
Proof. destruct l; simpl; [done|]. unfold first_index; simpl. tauto. Qed.

Lemma log_wf_len l : log_wf l → 1 ≤ go_len l.
Proof. destruct l; [done|]. unfold go_len; simpl; lia. Qed.

Lemma log_wf_last_first l : log_wf l → first_index l ≤ last_index l.
Proof. intros H%log_wf_len. unfold last_index. lia. Qed.

Lemma log_at_Some l idx e :
  log_wf l → log_at l idx = Some e →
  Index e = idx ∧ 0 ≤ Term e ∧ first_index l ≤ idx ≤ last_index l.
Proof.
  intros Hwf He. unfold log_at in He.
  pose proof (go_index_Some_range _ _ _ He) as Hr. rewrite go_index_lookup in He by lia.
  destruct (log_seg_lookup _ _ _ _ _ (log_wf_seg _ Hwf) He). unfold last_index. lia.
Qed.

Lemma log_at_is_Some l idx :
  first_index l ≤ idx ≤ last_index l → ∃ e, log_at l idx = Some e.
Proof. intros H. apply go_index_is_Some. unfold last_index in H. lia. Qed.

Lemma log_at_None l idx : idx < first_index l ∨ last_index l < idx → log_at l idx = None.
Proof. intros H. apply go_index_None. unfold last_index in H. lia. Qed.

Lemma log_at_terms l i j e e' :
  log_wf l → log_at l i = Some e → log_at l j = Some e' → i ≤ j → Term e ≤ Term e'.
Proof.
  intros Hwf Hi Hj Hij. unfold log_at in *.
  pose proof (go_index_Some_range _ _ _ Hi). pose proof (go_index_Some_range _ _ _ Hj).
  rewrite go_index_lookup in Hi, Hj by lia.
  apply (log_seg_terms _ _ _ _ _ _ _ (log_wf_seg _ Hwf) Hi Hj). lia.
Qed.

Lemma getFirstLog_wf rf :
  log_wf (logs rf) → ∃ e, getFirstLog rf = Some e ∧ Index e = first_index (logs rf)
                          ∧ log_at (logs rf) (Index e) = Some e.
Proof.
  unfold getFirstLog, first_index, log_at. destruct (logs rf) as [|e l]; [done|]. intros _. simpl.
  exists e. split_and!; [done..|]. unfold first_index. simpl. by rewrite Z.sub_diag.
Qed.

Lemma getLatestLog_wf rf :
  log_wf (logs rf) → ∃ e, getLatestLog rf = Some e ∧ Index e = last_index (logs rf)
                          ∧ Term e = last_term (logs rf) ∧ log_at (logs rf) (Index e) = Some e.
Proof.
  intros Hwf. pose proof (log_wf_last_first _ Hwf) as Hl.
  destruct (log_at_is_Some (logs rf) (last_index (logs rf))) as [e He]; [lia|].
  destruct (log_at_Some _ _ _ Hwf He) as (Hi & _ & _).
  exists e. unfold getLatestLog, log_at, last_index in *.
  replace (first_index (logs rf) + go_len (logs rf) - 1 - first_index (logs rf))
    with (go_len (logs rf) - 1) in He by lia.
  split_and!; [done|done| |].
  - unfold last_term. rewrite last_lookup. rewrite go_index_lookup in He by lia.
    replace (pred (length (logs rf))) with (Z.to_nat (go_len (logs rf) - 1)) by (unfold go_len; lia).
    by rewrite He.
  - rewrite Hi. by replace (first_index (logs rf) + go_len (logs rf) - 1 - first_index (logs rf))
      with (go_len (logs rf) - 1) by lia.
Qed.

(** Appending a segment that continues the log. *)
Lemma log_wf_app l l2 :
  log_wf l → log_seg (last_index l) (last_term l) l2 → log_wf (l ++ l2).
Proof.
  destruct l as [|e l]; [done|]. rewrite <- app_comm_cons, !log_wf_cons.
  intros (? & ? & Hs) H2. split_and!; [done..|]. apply log_seg_app. split; [done|].
  unfold last_index, last_term, first_index, go_len in *. simpl in *.
  replace (Index e + Z.of_nat (length l)) with (Index e + Z.of_nat (S (length l)) - 1) by lia.
  rewrite last_cons in H2. by destruct (last l).
Qed.

(** Keeping the entries below [idx]. *)
Lemma log_wf_take l (k : nat) : log_wf l → (0 < k)%nat → log_wf (take k l).
Proof.
  destruct l as [|e l], k as [|k]; simpl; [done|lia|lia|].
  intros (? & ? & ?) _. auto using log_seg_take.
Qed.

Lemma first_index_take l k : (0 < k)%nat → first_index (take k l) = first_index l.
Proof. destruct l, k; unfold first_index; simpl; [done|lia|lia|done]. Qed.

Lemma first_index_app l l2 : l ≠ [] → first_index (l ++ l2) = first_index l.
Proof. by destruct l. Qed.

Lemma last_index_app l l2 : l ≠ [] → last_index (l ++ l2) = last_index l + go_len l2.
Proof. intros. unfold last_index. rewrite first_index_app, go_len_app by done. lia. Qed.

Lemma log_at_app l l2 idx :
  l ≠ [] → log_at (l ++ l2) idx =
    if decide (idx ≤ last_index l) then log_at l idx else l2.[idx - last_index l - 1].
Proof.
  intros Hl. unfold log_at, last_index. rewrite first_index_app by done.
  unfold go_index, go_len. destruct (Z.leb_spec 0 (idx - first_index l)) as [H|H].
  - case_decide as Hd.
    + apply lookup_app_l. lia.
    + rewrite lookup_app_r by lia. destruct (Z.leb_spec 0 (idx - (first_index l + Z.of_nat (length l) - 1) - 1)); [|lia].
      f_equal. lia.
  - case_decide; [done|]. destruct l; simpl in *; [done|]. lia.
Qed.

(** A log is the entries below [idx] followed by those from [idx] on. *)
Lemma log_at_take l (k : nat) idx :
  (0 < k)%nat → log_at (take k l) idx =
    if decide (idx < first_index l + Z.of_nat k) then log_at l idx else None.
Proof.
  intros Hk. unfold log_at. rewrite first_index_take by done. unfold go_index.
  destruct (Z.leb_spec 0 (idx - first_index l)); case_decide; try done.
  - apply lookup_take_lt. lia.
  - rewrite lookup_take_ge by lia. done.
Qed.

Lemma last_term_log_at l e :
  log_wf l → log_at l (last_index l) = Some e → Term e = last_term l.
Proof.
  intros Hwf He. unfold log_at, last_index in He. unfold last_term. rewrite last_lookup.
  pose proof (log_wf_len _ Hwf).
  rewrite go_index_lookup in He by lia.
  replace (pred (length l)) with (Z.to_nat (first_index l + go_len l - 1 - first_index l)) by (unfold go_len in *; lia).
  by rewrite He.
Qed.

Lemma log_wf_last_term_nonneg l : log_wf l → 0 ≤ last_term l.
Proof.
  intros Hwf. pose proof (log_wf_len _ Hwf). destruct (log_at_is_Some l (last_index l)) as [e He]; [unfold last_index; lia|].
  rewrite <- (last_term_log_at l e) by done. by apply log_at_Some in He as (_ & ? & _).
Qed.

(** Compaction: dropping everything before array position [k] and making the
    entry there the new dummy. *)
Lemma log_wf_compact l k e :
  log_wf l → l !! k = Some e → log_wf (mkLogEntry None (Term e) (Index e) :: drop (S k) l).
Proof.
  intros Hwf Hk. pose proof (log_wf_seg _ Hwf) as Hs.
  destruct (log_seg_lookup _ _ _ _ _ Hs Hk). pose proof (log_wf_first_nonneg _ Hwf).
  rewrite log_wf_cons. simpl. split_and!; [lia|lia|]. by eapply log_seg_drop.
Qed.

(** The log compacted at array position [k], where the entry has term [t]. *)
Definition compact_log l (k : nat) (t i : Z) : list (LogEntry cmd) :=
  mkLogEntry None t i :: drop (S k) l.

Lemma compact_log_wf l k e : log_wf l → l !! k = Some e → log_wf (compact_log l k (Term e) (Index e)).
Proof. apply log_wf_compact. Qed.

Lemma compact_log_first l k t i : first_index (compact_log l k t i) = i.
Proof. done. Qed.

Lemma lookup_Index l k e : log_wf l → l !! k = Some e → Index e = first_index l + Z.of_nat k.
Proof. intros Hwf Hk. destruct (log_seg_lookup _ _ _ _ _ (log_wf_seg _ Hwf) Hk). lia. Qed.

Lemma compact_log_last l k e :
  log_wf l → l !! k = Some e → last_index (compact_log l k (Term e) (Index e)) = last_index l.
Proof.
  intros Hwf Hk. pose proof (lookup_lt_Some _ _ _ Hk). pose proof (lookup_Index _ _ _ Hwf Hk).
  unfold last_index. rewrite compact_log_first. unfold compact_log, go_len. simpl.
  rewrite length_drop. lia.
Qed.

Lemma compact_log_last_term l k e :
  l !! k = Some e → last_term (compact_log l k (Term e) (Index e)) = last_term l.
Proof.
  intros Hk. unfold last_term, compact_log. rewrite last_cons.
  pose proof (lookup_lt_Some _ _ _ Hk). destruct (decide (S k < length l)%nat).
  - rewrite !last_lookup, lookup_drop, length_drop.
    replace (S k + pred (length l - S k))%nat with (pred (length l)) by lia.
    destruct (l !! pred (length l)) eqn:E; [done|]. apply lookup_ge_None in E. lia.
  - rewrite drop_ge by lia. rewrite (last_lookup l). replace (pred (length l)) with k by lia. by rewrite Hk.
Qed.

Lemma compact_log_at l k e idx :
  log_wf l → l !! k = Some e → Index e < idx →
  log_at (compact_log l k (Term e) (Index e)) idx = log_at l idx.
Proof.
  intros Hwf Hk Hidx. pose proof (lookup_Index _ _ _ Hwf Hk) as Hi. unfold log_at.
  rewrite compact_log_first. rewrite !go_index_lookup by lia. unfold compact_log.
  replace (Z.to_nat (idx - Index e)) with (S (Z.to_nat (idx - Index e - 1))) by lia. simpl.
  rewrite lookup_drop. f_equal. lia.
Qed.

Lemma log_at_lookup l idx e :
  log_at l idx = Some e → l !! Z.to_nat (idx - first_index l) = Some e.
Proof.
  unfold log_at. intros H. pose proof (go_index_Some_range _ _ _ H). by rewrite go_index_lookup in H by lia.
Qed.

End raft_log.
