(* ===== verification/RaftWf.v ===== *)
(** * The invariant of a Raft peer

    [raft_wf] is the well-formedness invariant of one peer: the shape of its
    arrays, a well-formed log, terms bounded by the current term, the applied
    and committed indexes in order, a timer that will fire, and a persisted copy
    of the state from which a restart can rebuild the peer.  This file shows for
    every operation of raft.go that on a well-formed peer it does not panic and
    gives a well-formed peer, and what it may do to the role, the term and the
    persisted vote ([quiet_step]). *)

From S2P Require Import Prelude RaftUtil RaftNode RaftLog.
Local Open Scope Z_scope.
Local Open Scope go_scope.

Section raft_wf.
Context {cmd : Type} `{!Gob (PersistedState cmd)}.
Implicit Types (rf : Raft cmd) (e : LogEntry cmd) (l : list (LogEntry cmd)) (n : Z).

(** What a restart would read: the decoded raft state, or the state [Make]
    starts from when nothing was ever saved. *)
Definition stable rf : option (PersistedState cmd) :=
  if go_len (raftstate (persister rf)) <? 1 then Some (0, -1, [mkLogEntry None 0 0], 0, 0)
  else gob_decode (raftstate (persister rf)).

Definition stable_term rf : Z := default 0 ((λ '(t, _, _, _, _), t) <$> stable rf).
Definition stable_vote rf : Z := default (-1) ((λ '(_, v, _, _, _), v) <$> stable rf).

Record raft_wf n rf : Prop := {
  wf_peers : peers rf = n;
  wf_me : 0 ≤ me rf < n;
  wf_next : go_len (nextIndex rf) = n;
  wf_match : go_len (matchIndex rf) = n;
  wf_log : log_wf (logs rf);
  wf_snap : ∃ c, head (logs rf) = Some (mkLogEntry c (lastIncludedTerm rf) (lastIncludedIndex rf));
  wf_applied : first_index (logs rf) ≤ lastApplied rf ≤ commitIndex rf;
  wf_timer : if decide (state rf = Leader) then heartbeatTimer rf = true else electionTimer rf = true;
  wf_stable : stable rf = Some (stable_term rf, stable_vote rf, logs rf,
                                lastIncludedIndex rf, lastIncludedTerm rf);
  wf_stable_term : last_term (logs rf) ≤ stable_term rf ≤ currentTerm rf;
  wf_stable_vote : stable_term rf = currentTerm rf → stable_vote rf = voteFor rf
}.

(** Nothing that was promised is lost: the persisted state is the current one. *)
Definition persisted rf : Prop :=
  stable rf = Some (currentTerm rf, voteFor rf, logs rf, lastIncludedIndex rf, lastIncludedTerm rf).

(** The log-related part of a peer, untouched by role and term changes. *)
Definition replica rf :=
  (logs rf, commitIndex rf, lastApplied rf, pendingSnapshot rf,
   lastIncludedIndex rf, lastIncludedTerm rf, ReadSnapshot (persister rf)).

(** A step that casts no vote: the peer keeps its role and term or becomes a
    follower, and the persisted vote changes only together with a newer term. *)
Record quiet_step rf rf' : Prop := {
  qs_me : me rf' = me rf;
  qs_peers : peers rf' = peers rf;
  qs_role : state rf' = Follower ∨ (state rf' = state rf ∧ currentTerm rf' = currentTerm rf);
  qs_term : currentTerm rf ≤ currentTerm rf';
  qs_stable : stable_term rf < stable_term rf' ∨
              (stable_term rf' = stable_term rf ∧ stable_vote rf' = stable_vote rf)
}.

#[global] Instance quiet_step_preorder : PreOrder quiet_step.
Proof.
  split.
  - intros rf. constructor; auto; lia.
  - intros r1 r2 r3 [m1 p1 s1 t1 v1] [m2 p2 s2 t2 v2]. constructor; try congruence; try lia.
    destruct s2 as [|[-> ->]]; [by left|]. destruct s1 as [|[-> ->]]; auto.
Qed.

(** ** Persistence *)

Lemma go_len_gob_encode (s : PersistedState cmd) : (go_len (gob_encode s) <? 1) = false.
Proof.
  apply Z.ltb_ge. pose proof (gob_encode_nonempty s) as H. unfold go_len.
  destruct (gob_encode s); simpl; [done|lia].
Qed.

Lemma stable_of_encode s rf : raftstate (persister rf) = gob_encode s → stable rf = Some s.
Proof. intros H. unfold stable. rewrite H, go_len_gob_encode. apply gob_decode_encode. Qed.

Lemma stable_persist s rf :
  stable (persist s rf) =
    Some (currentTerm rf, voteFor rf, logs rf, lastIncludedIndex rf, lastIncludedTerm rf).
Proof. apply stable_of_encode. by destruct s. Qed.

Lemma persist_persisted s rf : persisted (persist s rf).
Proof. unfold persisted. rewrite stable_persist. by destruct s. Qed.

Lemma stable_term_persist s rf : stable_term (persist s rf) = currentTerm rf.
Proof. unfold stable_term. by rewrite stable_persist. Qed.

Lemma stable_vote_persist s rf : stable_vote (persist s rf) = voteFor rf.
Proof. unfold stable_vote. by rewrite stable_persist. Qed.

Lemma persisted_stable rf :
  persisted rf → stable_term rf = currentTerm rf ∧ stable_vote rf = voteFor rf.
Proof. unfold persisted, stable_term, stable_vote. intros ->. done. Qed.

Lemma persist_step_quiet n s rf rf1 :
  raft_wf n rf → me rf1 = me rf → peers rf1 = peers rf → state rf1 = state rf →
  currentTerm rf1 = currentTerm rf → voteFor rf1 = voteFor rf →
  quiet_step rf (persist s rf1).
Proof.
  intros Hwf ?? Hs Ht Hv'. pose proof (wf_stable_term _ _ Hwf). pose proof (wf_stable_vote _ _ Hwf) as Hv.
  assert (Hct : currentTerm (persist s rf1) = currentTerm rf1) by (by destruct s).
  constructor; [by destruct s|by destruct s|right; split; [by destruct s|congruence]|lia|].
  rewrite stable_term_persist, stable_vote_persist, Ht, Hv'.
  destruct (decide (stable_term rf = currentTerm rf)) as [E|]; [right; split; [done|symmetry; auto]|left; lia].
Qed.

Lemma persist_quiet n s rf : raft_wf n rf → quiet_step rf (persist s rf).
Proof. intros Hwf. by apply (persist_step_quiet n). Qed.

(** Everything of [raft_wf] but the persisted copy, which [persist] re-creates. *)
Lemma persist_wf n s rf rf0 :
  raft_wf n rf0 →
  me rf = me rf0 → peers rf = peers rf0 →
  go_len (nextIndex rf) = n → go_len (matchIndex rf) = n →
  log_wf (logs rf) →
  (∃ c, head (logs rf) = Some (mkLogEntry c (lastIncludedTerm rf) (lastIncludedIndex rf))) →
  first_index (logs rf) ≤ lastApplied rf ≤ commitIndex rf →
  (if decide (state rf = Leader) then heartbeatTimer rf = true else electionTimer rf = true) →
  last_term (logs rf) ≤ currentTerm rf →
  raft_wf n (persist s rf).
Proof.
  intros Hwf Hm Hp H1 H2 H3 H4 H5 H6 H7.
  pose proof (wf_peers _ _ Hwf). pose proof (wf_me _ _ Hwf).
  assert (E : ∀ rf', rf' = persist s rf → raft_wf n rf').
  { intros rf' ->. constructor; try rewrite stable_term_persist; try rewrite stable_vote_persist;
    try rewrite stable_persist; destruct s; simpl; try done; try lia; try congruence. }
  by apply E.
Qed.

(** Changes that only touch volatile fields outside the log keep [raft_wf]. *)
Lemma raft_wf_volatile n rf rf' :
  raft_wf n rf →
  me rf' = me rf → peers rf' = peers rf → persister rf' = persister rf →
  replica rf' = replica rf →
  go_len (nextIndex rf') = n → go_len (matchIndex rf') = n →
  (if decide (state rf' = Leader) then heartbeatTimer rf' = true else electionTimer rf' = true) →
  currentTerm rf < currentTerm rf' ∨ (currentTerm rf' = currentTerm rf ∧ voteFor rf' = voteFor rf) →
  raft_wf n rf' ∧ stable rf' = stable rf.
Proof.
  intros Hwf Hme Hp Hps Hrep Hn Hm Ht Hterm. injection Hrep as El Ec Ea Ep Ei Et Ed.
  assert (Hst : stable rf' = stable rf) by (unfold stable; by rewrite Hps).
  assert (H1 : stable_term rf' = stable_term rf) by (unfold stable_term; by rewrite Hst).
  assert (H2 : stable_vote rf' = stable_vote rf) by (unfold stable_vote; by rewrite Hst).
  split; [|done]. destruct Hwf.
  constructor; rewrite ?H1, ?H2, ?Hst, ?El, ?Ei, ?Et; try done; try congruence; try lia.
Qed.

(** ** Role and term changes *)

(** The first five fields of a quiet, log-preserving step. *)
Record role_step rf rf' : Prop := {
  rs_quiet : quiet_step rf rf';
  rs_replica : replica rf' = replica rf
}.

Lemma quiet_volatile rf rf' :
  me rf' = me rf → peers rf' = peers rf → stable rf' = stable rf →
  state rf' = Follower ∨ (state rf' = state rf ∧ currentTerm rf' = currentTerm rf) →
  currentTerm rf ≤ currentTerm rf' →
  quiet_step rf rf'.
Proof.
  intros ?? Hst ??. constructor; auto. right. unfold stable_term, stable_vote. by rewrite Hst.
Qed.

Lemma ChangeState_Follower_eq rf :
  ChangeState Follower rf = Some (if decide (state rf = Follower) then rf
     else set_heartbeatTimer false (resetElectionTimer (set_state Follower rf))).
Proof. unfold ChangeState. by destruct (decide _). Qed.

Lemma ChangeState_Follower_wf n T rf :
  raft_wf n rf → currentTerm rf ≤ T →
  let rf1 := if currentTerm rf <? T then set_voteFor (-1) (set_currentTerm T rf) else rf in
  ∃ rf', ChangeState Follower rf1 = Some rf' ∧ raft_wf n rf' ∧ role_step rf rf' ∧
    state rf' = Follower ∧ currentTerm rf' = T ∧
    (voteFor rf' = if currentTerm rf <? T then -1 else voteFor rf) ∧ stable rf' = stable rf ∧
    nextIndex rf' = nextIndex rf ∧ matchIndex rf' = matchIndex rf.
Proof.
  intros Hwf HT rf1. rewrite ChangeState_Follower_eq. eexists. split; [done|].
  set (rf' := if decide _ then rf1 else _).
  assert (Hs : state rf' = Follower) by (unfold rf'; by destruct (decide _)).
  pose proof (wf_timer _ _ Hwf) as Htm.
  destruct (raft_wf_volatile n rf rf') as [H1 H2]; [done|..].
  1-6: unfold rf', rf1; destruct (currentTerm rf <? T), (decide _); simpl; try done; apply Hwf.
  - rewrite Hs. simpl. unfold rf', rf1 in *.
    destruct (currentTerm rf <? T); destruct (decide _) as [E|]; simpl in *; try done;
      rewrite E in Htm; by simpl in Htm.
  - unfold rf', rf1. destruct (Z.ltb_spec (currentTerm rf) T), (decide _); simpl; auto; lia.
  - assert (Hct : currentTerm rf' = T).
    { unfold rf', rf1. destruct (Z.ltb_spec (currentTerm rf) T), (decide _); simpl; lia. }
    split_and!; try done.
    + split; [apply quiet_volatile; try done|]; [..|lia|];
        unfold rf', rf1; destruct (currentTerm rf <? T), (decide _); auto.
    + unfold rf', rf1. by destruct (currentTerm rf <? T), (decide _).
    + unfold rf', rf1. by destruct (currentTerm rf <? T), (decide _).
    + unfold rf', rf1. by destruct (currentTerm rf <? T), (decide _).
Qed.

Lemma updateTermAndStepDown_wf n T rf :
  raft_wf n rf →
  ∃ rf', updateTermAndStepDown T rf = Some rf' ∧ raft_wf n rf' ∧ role_step rf rf' ∧
    currentTerm rf' = Z.max (currentTerm rf) T ∧
    (currentTerm rf < T → state rf' = Follower ∧ voteFor rf' = -1 ∧ persisted rf' ∧
       nextIndex rf' = nextIndex rf ∧ matchIndex rf' = matchIndex rf) ∧
    (T ≤ currentTerm rf → rf' = rf).
Proof.
  intros Hwf. unfold updateTermAndStepDown.
  destruct (Z.ltb_spec (currentTerm rf) T) as [Hlt|Hge].
  - destruct (ChangeState_Follower_wf n T rf) as (rf1 & E & Hwf1 & [Hq Hr] & Hs & Hct & Hv & Hst & Hn & Hm); [done|lia|].
    destruct (Z.ltb_spec (currentTerm rf) T) as [_|]; [|lia]. rewrite E. simpl.
    exists (persistState rf1). split; [done|].
    assert (Hwf2 : raft_wf n (persistState rf1)).
    { apply (persist_wf n _ rf1 rf1); try done; try apply Hwf1. pose proof (wf_stable_term _ _ Hwf1). lia. }
    split; [done|]. split.
    { split; [etrans; [done|by eapply persist_quiet]|]. by rewrite <- Hr. }
    simpl. split; [lia|]. split; [|lia]. intros _. split_and!; try done. apply persist_persisted.
  - exists rf. split_and!; try done; lia.
Qed.

Lemma resetElectionTimer_wf n rf :
  raft_wf n rf → raft_wf n (resetElectionTimer rf) ∧ role_step rf (resetElectionTimer rf).
Proof.
  intros Hwf. destruct (raft_wf_volatile n rf (resetElectionTimer rf)) as [H1 H2]; try done; try apply Hwf.
  - simpl. pose proof (wf_timer _ _ Hwf). by destruct (decide _).
  - by right.
  - split; [done|]. split; [|done]. by apply quiet_volatile; auto.
Qed.

(** ** RequestVote *)

(** §5.4.1: the candidate's log, by its last index and term, is at least as up
    to date as [l]. *)
Definition up_to_date (index term : Z) l : Prop :=
  last_term l < term ∨ (term = last_term l ∧ last_index l ≤ index).

Lemma isLogUpdateToDate_wf index term rf :
  log_wf (logs rf) → ∃ b, isLogUpdateToDate index term rf = Some b ∧ (b = true ↔ up_to_date index term (logs rf)).
Proof.
  intros Hwf. destruct (getLatestLog_wf rf Hwf) as (e & He & Hi & Ht & _).
  unfold isLogUpdateToDate, up_to_date. rewrite He. simpl. eexists. split; [done|]. lia.
Qed.

Lemma RequestVote_wf n args rf :
  raft_wf n rf →
  ∃ rf' reply, RequestVote args rf = Some (rf', reply) ∧ raft_wf n rf' ∧ replica rf' = replica rf ∧
    matchIndex rf' = matchIndex rf ∧
    (rvr_VoteGranted reply = false → quiet_step rf rf') ∧
    (rvr_VoteGranted reply = true →
       state rf' = (if currentTerm rf <? rv_Term args then Follower else state rf) ∧
       currentTerm rf' = rv_Term args ∧ voteFor rf' = rv_CandidateId args ∧ persisted rf' ∧
       me rf' = me rf ∧ peers rf' = peers rf ∧
       up_to_date (rv_LastLogIndex args) (rv_LastLogTerm args) (logs rf) ∧
       (currentTerm rf < rv_Term args ∨
        (rv_Term args = currentTerm rf ∧ (voteFor rf = -1 ∨ voteFor rf = rv_CandidateId args)))) ∧
    currentTerm rf' = rvr_Term reply ∧ currentTerm rf ≤ rvr_Term reply.
Proof.
  intros Hwf. unfold RequestVote.
  destruct (_ || _) eqn:Hrej.
  { exists rf, (rejectVote rf). split_and!; try done. }
  apply orb_false_iff in Hrej as [H1%Z.ltb_ge H2].
  destruct (updateTermAndStepDown_wf n (rv_Term args) rf Hwf) as (rf1 & -> & Hwf1 & [Hq Hr] & Hct & Hdown & Hsame).
  simpl. destruct (isLogUpdateToDate_wf (rv_LastLogIndex args) (rv_LastLogTerm args) rf1) as (b & -> & Hb); [apply Hwf1|].
  simpl. assert (Hlog : logs rf1 = logs rf) by (by injection Hr). rewrite Hlog in Hb.
  assert (Hmatch : matchIndex rf1 = matchIndex rf).
  { destruct (decide (currentTerm rf < rv_Term args)); [by apply Hdown|]. rewrite Hsame by lia. done. }
  destruct b; simpl; eexists _, _; (split; [done|]).
  - set (rf2 := set_voteFor _ rf1).
    assert (Hwf2 : raft_wf n (persistState rf2)).
    { apply (persist_wf n _ rf2 rf1); try done; try apply Hwf1. pose proof (wf_stable_term _ _ Hwf1). simpl. lia. }
    destruct (resetElectionTimer_wf n _ Hwf2) as [Hwf3 _].
    split; [done|]. split; [by rewrite <- Hr|]. split; [done|]. split; [done|]. split; [|simpl; lia]. intros _.
    assert (Hcase : currentTerm rf < rv_Term args ∨ (rv_Term args = currentTerm rf ∧ rf1 = rf)).
    { destruct (decide (currentTerm rf < rv_Term args)); [by left|right]. split; [lia|]. apply Hsame. lia. }
    split_and!; simpl; try done.
    + destruct (Z.ltb_spec (currentTerm rf) (rv_Term args)); [by apply Hdown|]. f_equal. apply Hsame. lia.
    + lia.
    + apply persist_persisted.
    + apply Hq.
    + apply Hq.
    + by apply Hb.
    + destruct Hcase as [|[E _]]; [by left|right]. split; [done|]. lia.
  - split_and!; try done. simpl. lia.
Qed.

(** ** AppendEntry *)

(** Well-formed AppendEntry arguments: the entries continue a log that ends at
    PrevLogIndex, and the leader's term is at least their terms. *)
Definition append_args_wf (args : AppendEntryArgs cmd) : Prop :=
  log_seg (ae_PrevLogIndex args) (ae_PrevLogTerm args) (ae_Entries args) ∧
  default (ae_PrevLogTerm args) (Term <$> last (ae_Entries args)) ≤ ae_Term args.

(** Replacing everything from the first entry of [es] on by [es]. *)
Lemma truncate_append_wf l pi p es :
  log_wf l → log_at l pi = Some p → log_seg pi (Term p) es →
  let l' := take (Z.to_nat (pi + 1 - first_index l)) l ++ es in
  log_wf l' ∧ first_index l' = first_index l ∧ last_index l' = pi + go_len es ∧
  last_term l' = default (Term p) (Term <$> last es) ∧ head l' = head l ∧
  (∀ idx, idx ≤ pi → log_at l' idx = log_at l idx) ∧
  (∀ idx, pi < idx → log_at l' idx = es.[idx - pi - 1]).
Proof.
  intros Hwf Hp Hes l'. destruct (log_at_Some _ _ _ Hwf Hp) as (Hpi & _ & Hr).
  set (k := Z.to_nat (pi + 1 - first_index l)) in *. set (pre := take k l) in *.
  assert (Hk : (0 < k)%nat) by lia.
  pose proof (log_wf_take _ _ Hwf Hk) as Hpre. pose proof (log_wf_nonempty _ Hpre) as Hne.
  assert (Hlen : go_len pre = pi + 1 - first_index l).
  { unfold pre, go_len. rewrite length_take. unfold last_index, go_len in Hr. lia. }
  assert (Hfi : first_index pre = first_index l) by (by apply first_index_take).
  assert (Hli : last_index pre = pi) by (unfold last_index; lia).
  assert (Hpt : log_at pre pi = Some p).
  { unfold pre. rewrite log_at_take by done. case_decide; [done|lia]. }
  assert (Hlt : last_term pre = Term p) by (symmetry; apply last_term_log_at; [done|congruence]).
  split_and!.
  - apply log_wf_app; [done|]. by rewrite Hli, Hlt.
  - unfold l'. by rewrite first_index_app.
  - unfold l'. rewrite last_index_app by done. lia.
  - unfold last_term, l' in *. rewrite last_app. destruct (last es); simpl; [done|]. done.
  - unfold l', pre, k. destruct l as [|x l]; [done|]. destruct (Z.to_nat _) eqn:E; [lia|done].
  - intros idx Hidx. unfold l'. rewrite log_at_app, Hli by done. case_decide; [|lia].
    unfold pre. rewrite log_at_take by done. case_decide; [done|lia].
  - intros idx Hidx. unfold l'. rewrite log_at_app, Hli by done. case_decide; [lia|done].
Qed.

(** [es] is already in the log [l], by index and term. *)
Definition entries_in l (es : list (LogEntry cmd)) : Prop :=
  ∀ e, e ∈ es → ∃ e', log_at l (Index e) = Some e' ∧ Term e' = Term e.

(** The append loop either finds every entry in the log, or replaces the log
    from the first entry that is missing or has another term. *)
Lemma appendNewEntries_spec es rf pi p :
  log_wf (logs rf) → log_at (logs rf) pi = Some p → log_seg pi (Term p) es →
  (appendNewEntries (first_index (logs rf)) es rf = Some rf ∧ entries_in (logs rf) es) ∨
  ∃ es1 e es2 qi q, es = es1 ++ e :: es2 ∧ entries_in (logs rf) es1 ∧
    pi ≤ qi ∧ qi = pi + go_len es1 ∧ log_at (logs rf) qi = Some q ∧ log_seg qi (Term q) (e :: es2) ∧
    (∀ e', log_at (logs rf) (Index e) = Some e' → Term e' ≠ Term e) ∧
    appendNewEntries (first_index (logs rf)) es rf =
      Some (persistState (set_logs (take (Z.to_nat (qi + 1 - first_index (logs rf))) (logs rf) ++ e :: es2) rf)).
Proof.
  intros Hwf. revert pi p. induction es as [|e es IH]; intros pi p Hp Hes; simpl.
  { left. split; [done|]. intros e He. by apply elem_of_nil in He. }
  destruct (log_at_Some _ _ _ Hwf Hp) as (Hpi & _ & Hr).
  destruct Hes as (Hie & Hte & Hes). unfold last_index in Hr.
  assert (Hconf : (∀ e', log_at (logs rf) (Index e) = Some e' → Term e' ≠ Term e) →
    ∃ es1 e0 es2 qi q, e :: es = es1 ++ e0 :: es2 ∧ entries_in (logs rf) es1 ∧
    pi ≤ qi ∧ qi = pi + go_len es1 ∧ log_at (logs rf) qi = Some q ∧ log_seg qi (Term q) (e0 :: es2) ∧
    (∀ e', log_at (logs rf) (Index e0) = Some e' → Term e' ≠ Term e0) ∧
     (pre ← (logs rf).[: Index e - first_index (logs rf)];
        Some (persistState (set_logs (pre ++ e :: es) rf))) =
     Some (persistState (set_logs (take (Z.to_nat (qi + 1 - first_index (logs rf))) (logs rf) ++ e0 :: es2) rf))).
  { intros Hc. exists [], e, es, pi, p. split_and!; try done; try lia.
    - intros x Hx. by apply elem_of_nil in Hx.
    - unfold go_len; simpl; lia.
    - rewrite go_slice_to_Some by lia. simpl. by rewrite Hie. }
  destruct (Z.leb_spec (go_len (logs rf)) (Index e - first_index (logs rf))) as [Hge|Hlt]; simpl.
  { right. apply Hconf. intros e' (_ & _ & ?)%log_at_Some; [|done]. unfold last_index in *. lia. }
  destruct (log_at_is_Some (logs rf) (Index e)) as [e' He']; [unfold last_index; lia|].
  assert (He'' := He'). unfold log_at in He''. rewrite He''; simpl.
  destruct (Z.eqb_spec (Term e') (Term e)) as [Eq|Ne]; simpl.
  - destruct (IH (Index e) e' He') as [[-> Hin]|(es1 & e0 & es2 & qi & q & -> & Hin & Hle & Hqi & Hq & Hseg & Hc & ->)];
      [by rewrite Eq| |].
    + left. split; [done|]. intros x [->|Hx]%elem_of_cons; eauto.
    + right. exists (e :: es1), e0, es2, qi, q. split_and!; try done; try lia; try apply Hseg.
      * intros x [->|Hx]%elem_of_cons; eauto.
      * unfold go_len in *; simpl; lia.
  - right. apply Hconf. intros x Hx. congruence.
Qed.

(** The log after the append loop: unchanged when the entries are all there,
    else cut after [qi], the last position that agrees, and extended. *)
Definition log_merge l (pi : Z) (es l' : list (LogEntry cmd)) : Prop :=
  (l' = l ∧ entries_in l es) ∨
  ∃ es1 e es2 qi q, es = es1 ++ e :: es2 ∧ entries_in l es1 ∧
    pi ≤ qi ∧ qi = pi + go_len es1 ∧ log_at l qi = Some q ∧ log_seg qi (Term q) (e :: es2) ∧
    (∀ e', log_at l (Index e) = Some e' → Term e' ≠ Term e) ∧
    l' = take (Z.to_nat (qi + 1 - first_index l)) l ++ e :: es2.

Lemma log_seg_elem idx term es e :
  log_seg idx term es → e ∈ es → ∃ k, es !! k = Some e ∧ Index e = idx + 1 + Z.of_nat k.
Proof.
  intros Hs [k Hk]%list_elem_of_lookup. exists k. split; [done|].
  by destruct (log_seg_lookup _ _ _ _ _ Hs Hk).
Qed.

Lemma entries_in_last l es pi pt :
  log_wf l → first_index l ≤ pi ≤ last_index l → log_seg pi pt es → entries_in l es →
  pi + go_len es ≤ last_index l.
Proof.
  intros Hwf Hpi Hs Hin. destruct (last es) as [e|] eqn:E.
  - rewrite last_lookup in E. destruct (log_seg_lookup _ _ _ _ _ Hs E) as [Hi _].
    destruct (Hin e) as (e' & He' & _); [by eapply list_elem_of_lookup_2|].
    destruct (log_at_Some _ _ _ Hwf He') as (_ & _ & ?).
    destruct es; [done|]. unfold go_len in *. simpl in *. lia.
  - apply last_None in E as ->. unfold go_len. simpl. lia.
Qed.

Lemma log_merge_spec l pi p es l' T :
  log_wf l → log_at l pi = Some p → log_seg pi (Term p) es → log_merge l pi es l' →
  last_term l ≤ T → default (Term p) (Term <$> last es) ≤ T →
  log_wf l' ∧ first_index l' = first_index l ∧ head l' = head l ∧ last_term l' ≤ T ∧
  pi + go_len es ≤ last_index l' ∧ entries_in l' es ∧
  (∀ idx, idx ≤ pi → log_at l' idx = log_at l idx).
Proof.
  intros Hwf Hp Hes [[-> Hin]|(es1 & e & es2 & qi & q & Ees & Hin & Hle & Hqi & Hq & Hseg & Hc & ->)] HT HeT.
  - destruct (log_at_Some _ _ _ Hwf Hp) as (_ & _ & Hr).
    split_and!; try done. by eapply entries_in_last.
  - destruct (truncate_append_wf l qi q (e :: es2)) as (H1 & H2 & H3 & H4 & H5 & H6 & H7); try done.
    split_and!; try done.
    + rewrite H4. rewrite Ees, last_app in HeT. by destruct (last (e :: es2)) eqn:E; [|apply last_None in E].
    + rewrite H3, Ees. unfold go_len in *. rewrite length_app. simpl. lia.
    + intros x. rewrite Ees, elem_of_app. intros [Hx|Hx].
      * destruct (Hin x Hx) as (x' & Hx' & Ht). exists x'. split; [|done]. rewrite H6; [done|].
        rewrite Ees, log_seg_app in Hes. destruct Hes as [Hes _].
        destruct (log_seg_elem _ _ _ _ Hes Hx) as (k & Hk%lookup_lt_Some & ->). unfold go_len in *. lia.
      * destruct (log_seg_elem _ _ _ _ Hseg Hx) as (k & Hk & Hi). exists x. split; [|done].
        rewrite H7 by lia. replace (Index x - qi - 1) with (Z.of_nat k) by lia. by rewrite go_index_nat.
    + intros idx Hidx. apply H6. lia.
Qed.

Lemma isValidLogIndex_wf idx rf :
  log_wf (logs rf) →
  isValidLogIndex idx rf = Some ((first_index (logs rf) <=? idx) && (idx <=? last_index (logs rf))).
Proof.
  intros Hwf. destruct (getFirstLog_wf rf Hwf) as (e & He & Hi & _).
  unfold isValidLogIndex. rewrite He. simpl. rewrite Hi. f_equal. unfold last_index. lia.
Qed.

Lemma isLogMatched_wf idx t rf :
  log_wf (logs rf) →
  ∃ b, isLogMatched idx t rf = Some b ∧ (b = true ↔ ∃ e, log_at (logs rf) idx = Some e ∧ Term e = t).
Proof.
  intros Hwf. unfold isLogMatched.
  destruct (getFirstLog_wf rf Hwf) as (f & Hf & Hif & _). destruct (getLatestLog_wf rf Hwf) as (g & Hg & Hig & _).
  rewrite Hf; simpl. rewrite Hg; simpl. rewrite isValidLogIndex_wf by done. rewrite Hif, Hig.
  assert (Hout : idx < first_index (logs rf) ∨ last_index (logs rf) < idx →
    false = true ↔ ∃ e, log_at (logs rf) idx = Some e ∧ Term e = t).
  { intros Ho. split; [done|]. rewrite log_at_None by done. by intros (? & ? & _). }
  destruct (_ || _) eqn:E1; [exists false; split; [done|]; apply Hout; lia|]. simpl.
  destruct (negb _) eqn:E2; [exists false; split; [done|]; apply Hout; lia|].
  destruct (log_at_is_Some (logs rf) idx) as [e He]; [lia|]. assert (He' := He).
  unfold log_at in He'. rewrite He'; simpl. exists (t =? Term e). split; [done|]. rewrite Z.eqb_eq. split.
  - intros ->. eauto.
  - intros (e' & ? & <-). congruence.
Qed.

(** The conflict information of a rejected AppendEntry: past the end of the log,
    or the first index of the run of entries with the conflicting term. *)
Lemma conflictReply_wf args rf :
  log_wf (logs rf) → first_index (logs rf) ≤ ae_PrevLogIndex args →
  ∃ reply, conflictReply args rf = Some reply ∧
    aer_Success reply = false ∧ aer_Term reply = currentTerm rf ∧
    ((last_index (logs rf) < ae_PrevLogIndex args ∧
      aer_ConflictIndex reply = last_index (logs rf) + 1 ∧ aer_ConflictTerm reply = -1) ∨
     ∃ e c, log_at (logs rf) (ae_PrevLogIndex args) = Some e ∧ aer_ConflictTerm reply = Term e ∧
       log_at (logs rf) (aer_ConflictIndex reply) = Some c ∧ Term c = Term e ∧
       (∀ idx x, idx < aer_ConflictIndex reply → log_at (logs rf) idx = Some x → Term x < Term e)).
Proof.
  intros Hwf Hge. unfold conflictReply.
  destruct (getFirstLog_wf rf Hwf) as (f & -> & Hif & _). destruct (getLatestLog_wf rf Hwf) as (g & -> & Hig & _).
  simpl. rewrite Hif, Hig. destruct (Z.ltb_spec (last_index (logs rf)) (ae_PrevLogIndex args)) as [Hlt|Hle].
  { eexists. split_and!; try done. by left. }
  rewrite isValidLogIndex_wf by done. simpl.
  rewrite (proj2 (Z.leb_le _ _) Hge), (proj2 (Z.leb_le _ _) Hle). simpl.
  destruct (log_at_is_Some (logs rf) (ae_PrevLogIndex args)) as [e He]; [lia|].
  assert (He' := He). unfold log_at in He'. rewrite He'; simpl.
  set (first := first_index (logs rf)) in *. set (prev := ae_PrevLogIndex args) in *.
  set (g' := λ i, default true ((λ x, Term e <=? Term x) <$> log_at (logs rf) (first + i))).
  assert (Hat : ∀ i, (logs rf).[i] = log_at (logs rf) (first + i)).
  { intros i. unfold log_at. fold first. f_equal. lia. }
  destruct (Search_spec (prev - first + 1)
     (λ i, if go_len (logs rf) <=? i then Some true else x ← (logs rf).[i]; Some (Term e <=? Term x)) g')
     as (r & -> & Hr & Hlo & Hhi); [lia| |].
  { split.
    - intros i Hi. unfold g'. unfold last_index in Hle. fold first in Hle.
      destruct (Z.leb_spec (go_len (logs rf)) i); [lia|]. rewrite Hat.
      destruct (log_at_is_Some (logs rf) (first + i)) as [x ->]; [fold first; unfold last_index; fold first; lia|done].
    - intros i j Hij Hj. unfold g'.
      destruct (log_at_is_Some (logs rf) (first + i)) as [x Hx]; [fold first; lia|].
      destruct (log_at_is_Some (logs rf) (first + j)) as [y Hy]; [fold first; lia|].
      rewrite Hx, Hy. simpl. pose proof (log_at_terms _ _ _ _ _ Hwf Hx Hy). lia. }
  simpl. eexists. split_and!; try done. right.
  assert (Hlast : g' (prev - first) = true).
  { unfold g'. replace (first + (prev - first)) with prev by lia. rewrite He. simpl. lia. }
  assert (Hrp : r ≤ prev - first).
  { destruct (decide (r ≤ prev - first)); [done|]. rewrite Hlo in Hlast by lia. done. }
  destruct (log_at_is_Some (logs rf) (first + r)) as [c Hc]; [fold first; lia|].
  exists e, c. split_and!; try done.
  - pose proof (log_at_terms _ _ _ _ _ Hwf Hc He ltac:(lia)).
    specialize (Hhi r ltac:(lia)). unfold g' in Hhi. rewrite Hc in Hhi. simpl in Hhi. lia.
  - simpl. intros idx x Hidx Hx. destruct (log_at_Some _ _ _ Hwf Hx) as (_ & _ & Hrx). fold first in Hrx.
    specialize (Hlo (idx - first) ltac:(lia)). unfold g' in Hlo.
    replace (first + (idx - first)) with idx in Hlo by lia. rewrite Hx in Hlo. simpl in Hlo. lia.
Qed.

End raft_wf.
