(* ===== verification/RaftOps.v ===== *)
(** * Every operation of a Raft peer keeps the invariant

    For each RPC handler, service call, timer event and reply handler of
    raft.go: on a well-formed peer it does not panic, the peer it gives is
    well-formed, and its effect on the log, the commit index and the role is the
    one stated. *)

From S2P Require Import Prelude RaftUtil RaftNode RaftLog RaftWf.
Local Open Scope Z_scope.
Local Open Scope go_scope.

Section raft_ops.
Context {cmd : Type} `{!Gob (PersistedState cmd)}.
Implicit Types (rf : Raft cmd) (e : LogEntry cmd) (l : list (LogEntry cmd)) (n : Z).

Lemma replica_logs rf rf' : replica rf' = replica rf → logs rf' = logs rf.
Proof. by injection 1. Qed.

(** ** AppendEntry *)

(** The PrevLog entry of [args] is in the log [l]. *)
Definition prev_matched (args : AppendEntryArgs cmd) l : Prop :=
  ∃ p, log_at l (ae_PrevLogIndex args) = Some p ∧ Term p = ae_PrevLogTerm args.

#[global] Instance prev_matched_dec args l : Decision (prev_matched args l).
Proof.
  destruct (log_at l (ae_PrevLogIndex args)) as [p|] eqn:E.
  - destruct (decide (Term p = ae_PrevLogTerm args)) as [Ht|Ht]; [left; by exists p|right].
    intros (q & Hq & Htq). congruence.
  - right. intros (q & Hq & _). congruence.
Defined.

Lemma appendNewEntries_wf n args rf p :
  raft_wf n rf → append_args_wf args → currentTerm rf = ae_Term args →
  log_at (logs rf) (ae_PrevLogIndex args) = Some p → Term p = ae_PrevLogTerm args →
  ∃ rf', appendNewEntries (first_index (logs rf)) (ae_Entries args) rf = Some rf' ∧
    raft_wf n rf' ∧ quiet_step rf rf' ∧ log_merge (logs rf) (ae_PrevLogIndex args) (ae_Entries args) (logs rf') ∧
    state rf' = state rf ∧ currentTerm rf' = currentTerm rf ∧ voteFor rf' = voteFor rf ∧
    commitIndex rf' = commitIndex rf ∧ lastApplied rf' = lastApplied rf ∧
    pendingSnapshot rf' = pendingSnapshot rf ∧ ReadSnapshot (persister rf') = ReadSnapshot (persister rf) ∧
    (rf' = rf ∨ persisted rf').
Proof.
  intros Hwf [Hseg HT] Hct Hp Htp. rewrite <- Htp in *.
  pose proof (wf_log _ _ Hwf) as Hlog. pose proof (wf_stable_term _ _ Hwf) as Hst.
  destruct (appendNewEntries_spec (ae_Entries args) rf (ae_PrevLogIndex args) p) as [[-> Hin]|H]; try done.
  { exists rf. split_and!; try done; [by left|by left]. }
  destruct H as (es1 & e & es2 & qi & q & H1 & H2 & H3 & H4 & H5 & H6 & H7 & ->).
  set (l' := take _ _ ++ _) in *. set (rf1 := set_logs l' rf).
  assert (Hm : log_merge (logs rf) (ae_PrevLogIndex args) (ae_Entries args) l').
  { right. by exists es1, e, es2, qi, q. }
  destruct (log_merge_spec (logs rf) (ae_PrevLogIndex args) p (ae_Entries args) l' (currentTerm rf))
    as (W1 & W2 & W3 & W4 & _); try done; [lia|lia|].
  exists (persistState rf1). split; [done|].
  assert (Hwf1 : raft_wf n (persistState rf1)).
  { apply (persist_wf n _ rf1 rf); try done; try apply Hwf; simpl.
    - rewrite W3. apply Hwf.
    - rewrite W2. apply Hwf. }
  split_and!; try done.
  - by apply (persist_step_quiet n).
  - right. apply persist_persisted.
Qed.

(** What AppendEntry does once the leader's term is accepted, on each branch. *)
Record append_post (args : AppendEntryArgs cmd) rf rf' (reply : AppendEntryReply) : Prop := {
  ap_quiet : quiet_step rf rf';
  ap_reply_term : aer_Term reply = currentTerm rf';
  ap_follower : state rf' = Follower;
  ap_term : currentTerm rf' = ae_Term args;
  ap_applied : lastApplied rf' = lastApplied rf;
  ap_pending : pendingSnapshot rf' = pendingSnapshot rf;
  ap_snapshot : ReadSnapshot (persister rf') = ReadSnapshot (persister rf);
  ap_saved : logs rf' = logs rf ∨ persisted rf';
  ap_mismatch : ¬ prev_matched args (logs rf) → replica rf' = replica rf ∧ aer_Success reply = false;
  ap_match : prev_matched args (logs rf) →
    aer_Success reply = true ∧
    log_merge (logs rf) (ae_PrevLogIndex args) (ae_Entries args) (logs rf') ∧
    commitIndex rf' = Z.max (commitIndex rf) (Z.min (ae_LeaderCommit args) (last_index (logs rf')))
}.

(** The prologue of AppendEntry: adopt the term, become a follower, restart the
    election timer. *)
Lemma AppendEntry_prologue n T rf :
  raft_wf n rf → currentTerm rf ≤ T →
  ∃ rf1 rf2, updateTermAndStepDown T rf = Some rf1 ∧
    (if decide (state rf1 = Follower) then Some rf1 else ChangeState Follower rf1) = Some rf2 ∧
    let rf3 := resetElectionTimer rf2 in
    raft_wf n rf3 ∧ quiet_step rf rf3 ∧ replica rf3 = replica rf ∧
    state rf3 = Follower ∧ currentTerm rf3 = T ∧ (persisted rf → persisted rf3).
Proof.
  intros Hwf HT.
  destruct (updateTermAndStepDown_wf n T rf Hwf) as (rf1 & E1 & Hwf1 & [Hq1 Hr1] & Hct1 & Hdown & Hsame).
  assert (Hp1 : persisted rf → persisted rf1).
  { destruct (decide (currentTerm rf < T)); [intros _; by apply Hdown|].
    by rewrite Hsame by lia. }
  assert (∃ rf2, (if decide (state rf1 = Follower) then Some rf1 else ChangeState Follower rf1) = Some rf2 ∧
     raft_wf n rf2 ∧ role_step rf1 rf2 ∧ state rf2 = Follower ∧ currentTerm rf2 = currentTerm rf1 ∧
     (persisted rf1 → persisted rf2))
    as (rf2 & E2 & Hwf2 & [Hq2 Hr2] & Hs2 & Hct2 & Hp2).
  { destruct (decide _); [by exists rf1; split_and!|].
    destruct (ChangeState_Follower_wf n (currentTerm rf1) rf1 Hwf1 ltac:(lia))
      as (rf2 & E & H1 & H2 & H3 & H4 & H5 & H6 & _).
    rewrite Z.ltb_irrefl in E, H5. exists rf2. split_and!; try done.
    unfold persisted. destruct H2 as [_ Hr]. injection Hr as R1 R2 R3 R4 R5 R6 R7. congruence. }
  destruct (resetElectionTimer_wf n rf2 Hwf2) as [Hwf3 [Hq3 Hr3]].
  exists rf1, rf2. split; [done|]. split; [done|]. simpl. split_and!; try done; try lia.
  - etrans; [done|]. by etrans.
  - congruence.
  - intros Hp. apply Hp2, Hp1, Hp.
Qed.

(** Every branch of AppendEntry. *)
Lemma AppendEntry_wf n args rf :
  raft_wf n rf → append_args_wf args →
  ∃ rf' reply, AppendEntry args rf = Some (rf', reply) ∧ raft_wf n rf' ∧ (persisted rf → persisted rf') ∧
    (ae_Term args < currentTerm rf → rf' = rf ∧ aer_Success reply = false ∧ aer_Term reply = currentTerm rf) ∧
    (currentTerm rf ≤ ae_Term args → append_post args rf rf' reply).
Proof.
  intros Hwf Hargs. unfold AppendEntry.
  destruct (Z.ltb_spec (ae_Term args) (currentTerm rf)) as [Hlt|Hge].
  { eexists _, _. split_and!; try done; lia. }
  destruct (AppendEntry_prologue n (ae_Term args) rf Hwf Hge) as (rf1 & rf2 & -> & H2 & Hpro).
  simpl. rewrite H2. simpl. clear H2 rf1. set (rf3 := resetElectionTimer rf2) in *. clearbody rf3. clear rf2.
  destruct Hpro as (Hwf3 & Hq & Hr & Hs3 & Hct3 & Hp3).
  pose proof (replica_logs _ _ Hr) as Hl. pose proof (wf_log _ _ Hwf3) as Hlog.
  destruct (getFirstLog_wf rf3 Hlog) as (f & -> & Hf & _). simpl. rewrite Hf.
  assert (Hfail : ∀ reply, aer_Success reply = false → aer_Term reply = currentTerm rf3 →
    ¬ prev_matched args (logs rf) → append_post args rf rf3 reply).
  { intros reply Hs Ht Hm. injection Hr as ? ? ? ? ? ? ?. constructor; try done.
    - by left.
    - intros _. split; [|done]. unfold replica. congruence. }
  destruct (Z.ltb_spec (ae_PrevLogIndex args) (first_index (logs rf3))) as [Hsnap|Hok].
  { eexists _, _. split_and!; try done; [lia|]. intros _. apply Hfail; [done..|].
    intros (p & Hp & _). rewrite <- Hl in Hp. destruct (log_at_Some _ _ _ Hlog Hp). lia. }
  destruct (isLogMatched_wf (ae_PrevLogIndex args) (ae_PrevLogTerm args) rf3 Hlog) as (b & -> & Hb). simpl.
  destruct b; simpl.
  - destruct (proj1 Hb eq_refl) as (p & Hp & Htp).
    destruct (appendNewEntries_wf n args rf3 p) as
      (rf4 & -> & Hwf4 & Hq4 & Hm & Hst4 & Hct4 & Hv4 & Hc4 & Ha4 & Hps4 & Hd4 & Hpers); try done. simpl.
    destruct (getLatestLog_wf rf4 (wf_log _ _ Hwf4)) as (g & -> & Hg & _). simpl. rewrite Hg.
    injection Hr as R1 R2 R3 R4 R5 R6 R7.
    set (c := Z.min _ _). set (rf5 := if commitIndex rf4 <? c then set_commitIndex c rf4 else rf4).
    assert (Hc5 : commitIndex rf5 = Z.max (commitIndex rf) c).
    { unfold rf5. destruct (Z.ltb_spec (commitIndex rf4) c); simpl; lia. }
    exists rf5, (mkAppendEntryReply (currentTerm rf5) true 0 0). split; [done|]. split; [|split; [|split; [lia|]]].
    + destruct Hwf4. unfold rf5. destruct (Z.ltb_spec (commitIndex rf4) c); constructor; simpl; try done. lia.
    + intros Hp0. unfold rf5. apply Hp3 in Hp0. destruct Hpers as [->|]; by destruct (_ <? _).
    + intros _. constructor; try (unfold rf5; destruct (_ <? _); simpl; congruence).
      * etrans; [done|]. etrans; [done|]. unfold rf5. destruct (_ <? _); [|done].
        apply quiet_volatile; simpl; auto; lia.
      * unfold rf5. destruct Hpers as [->|]; [left|right]; by destruct (_ <? _).
      * intros Hno. exfalso. apply Hno. exists p. by rewrite <- Hl.
      * intros _. split; [done|]. rewrite Hc5. unfold rf5. by destruct (_ <? _); simpl; rewrite <- Hl.
  - destruct (conflictReply_wf args rf3 Hlog Hok) as (reply & -> & Hs & Ht & _). simpl.
    eexists _, _. split_and!; try done; [lia|]. intros _. apply Hfail; [done..|].
    intros (p & Hp & Htp). rewrite <- Hl in Hp. enough (false = true) by done. apply Hb. eauto.
Qed.

(** ** Snapshots *)

(** The service compacts its log up to an index it has applied. *)
Lemma Snapshot_wf n index snap rf :
  raft_wf n rf → index ≤ lastApplied rf →
  ∃ rf', Snapshot index snap rf = Some rf' ∧ raft_wf n rf' ∧ quiet_step rf rf' ∧ (persisted rf → persisted rf') ∧
    state rf' = state rf ∧ currentTerm rf' = currentTerm rf ∧ commitIndex rf' = commitIndex rf ∧
    lastApplied rf' = lastApplied rf ∧ pendingSnapshot rf' = pendingSnapshot rf ∧
    matchIndex rf' = matchIndex rf ∧
    (rf' = rf ∨ ∃ e, log_at (logs rf) index = Some e ∧ first_index (logs rf) < index ∧ persisted rf' ∧
       ReadSnapshot (persister rf') = default (ReadSnapshot (persister rf)) snap ∧
       logs rf' = compact_log (logs rf) (Z.to_nat (index - first_index (logs rf))) (Term e) (Index e)).
Proof.
  intros Hwf Happ. pose proof (wf_log _ _ Hwf) as Hlog. unfold Snapshot.
  destruct (killed rf) eqn:Hdead; [exists rf; split_and!; auto; done|].
  destruct (getFirstLog_wf rf Hlog) as (f & -> & Hf & _).
  destruct (getLatestLog_wf rf Hlog) as (g & -> & Hg & _). simpl. rewrite Hf, Hg.
  destruct (_ || _) eqn:Hrej; [exists rf; split_and!; auto; done|].
  destruct (log_at_is_Some (logs rf) index) as [e He]; [lia|].
  pose proof (log_at_lookup _ _ _ He) as Hk. set (k := Z.to_nat (index - first_index (logs rf))) in *.
  destruct (log_at_Some _ _ _ Hlog He) as (Hie & _ & Hr). unfold log_at in He. assert (He' := He).
  rewrite He; simpl. unfold last_index in Hr. rewrite go_slice_from_Some by lia. simpl. fold k.
  unfold truncateLogs. rewrite (drop_S _ _ _ Hk). simpl.
  fold (compact_log (logs rf) k (Term e) (Index e)). set (rf1 := set_logs _ _).
  pose proof (wf_stable_term _ _ Hwf) as Hst.
  assert (Hwf1 : raft_wf n (persist snap rf1)).
  { apply (persist_wf n _ rf1 rf); try done; try apply Hwf; unfold rf1; simpl.
    - by apply compact_log_wf.
    - by eexists.
    - rewrite compact_log_first. pose proof (wf_applied _ _ Hwf). lia.
    - rewrite compact_log_last_term by done. lia. }
  exists (persist snap rf1). split; [done|]. split; [done|]. split.
  { by apply (persist_step_quiet n). }
  split_and!; try (by destruct snap); [intros _; apply persist_persisted|].
  right. exists e. split_and!; try done; [lia|apply persist_persisted|by destruct snap..].
Qed.

(** The log after installing a snapshot that ends at entry (i, t). *)
Definition snapshot_merge l (i t : Z) l' : Prop :=
  (l' = generateSingleLog i t ∧
     (last_index l ≤ i ∨ ∃ e, log_at l i = Some e ∧ Term e ≠ t)) ∨
  (∃ e, log_at l i = Some e ∧ Term e = t ∧ i < last_index l ∧
     l' = compact_log l (Z.to_nat (i - first_index l)) (Term e) (Index e)).

Lemma snapshotLogs_spec args rf :
  log_wf (logs rf) → first_index (logs rf) ≤ is_LastIncludedIndex args →
  ∃ l', snapshotLogs args rf = Some l' ∧
    snapshot_merge (logs rf) (is_LastIncludedIndex args) (is_LastIncludedTerm args) l'.
Proof.
  intros Hlog Hge. unfold snapshotLogs.
  destruct (getFirstLog_wf rf Hlog) as (f & -> & Hf & _).
  destruct (getLatestLog_wf rf Hlog) as (g & -> & Hg & _). simpl. rewrite Hf, Hg.
  set (i := is_LastIncludedIndex args) in *. set (t := is_LastIncludedTerm args).
  destruct (Z.leb_spec (last_index (logs rf)) i) as [Hle|Hlt].
  { eexists. split; [done|]. left. auto. }
  destruct (Z.leb_spec (first_index (logs rf)) i); [|lia].
  destruct (log_at_is_Some (logs rf) i) as [e He]; [lia|].
  unfold last_index in Hlt. destruct (Z.ltb_spec (i - first_index (logs rf)) (go_len (logs rf))); [|lia].
  assert (He' := He). unfold log_at in He'. rewrite He'. simpl.
  destruct (Z.eqb_spec (Term e) t) as [Ht|Ht]; simpl.
  - destruct (Z.ltb_spec (i - first_index (logs rf) + 1) (go_len (logs rf))); [|lia].
    rewrite go_slice_from_Some by lia. simpl. eexists. split; [done|]. right. exists e.
    destruct (log_at_Some _ _ _ Hlog He) as (Hie & _).
    split_and!; [done|done|unfold last_index; lia|]. rewrite Hie, Ht. unfold truncateLogs, compact_log.
    f_equal. f_equal. lia.
  - eexists. split; [done|]. left. eauto.
Qed.

Lemma snapshot_merge_spec l i t l' T :
  log_wf l → first_index l ≤ i → 0 ≤ t → snapshot_merge l i t l' → last_term l ≤ T → t ≤ T →
  log_wf l' ∧ head l' = Some (mkLogEntry None t i) ∧ first_index l' = i ∧ last_term l' ≤ T ∧
  (∀ idx x, i < idx → log_at l' idx = Some x → log_at l idx = Some x).
Proof.
  intros Hwf Hi Ht [[-> _]|(e & He & <- & Hlt & ->)] HT HtT.
  - pose proof (log_wf_first_nonneg _ Hwf). split_and!; try done; [simpl; lia|].
    intros idx x Hidx. rewrite log_at_None; [done|]. right. unfold last_index, go_len, first_index. simpl. lia.
  - pose proof (log_at_lookup _ _ _ He) as Hk. destruct (log_at_Some _ _ _ Hwf He) as (Hie & _).
    split_and!.
    + by apply compact_log_wf.
    + unfold compact_log. simpl. by rewrite Hie.
    + done.
    + by rewrite compact_log_last_term.
    + intros idx x Hidx. rewrite compact_log_at; [done|done|done|lia].
Qed.

(** What InstallSnapShot does to a peer that accepts the leader's term. *)
Record install_post (args : InstallSnapShotArgs) rf rf' : Prop := {
  ip_quiet : quiet_step rf rf';
  ip_follower : state rf' = Follower;
  ip_term : currentTerm rf' = is_Term args;
  ip_stale : is_LastIncludedIndex args ≤ lastApplied rf →
    replica rf' = replica rf ∧ stable rf' = stable rf;
  ip_fresh : lastApplied rf < is_LastIncludedIndex args →
    persisted rf' ∧
    snapshot_merge (logs rf) (is_LastIncludedIndex args) (is_LastIncludedTerm args) (logs rf') ∧
    lastApplied rf' = is_LastIncludedIndex args ∧
    ReadSnapshot (persister rf') = default (ReadSnapshot (persister rf)) (is_Data args) ∧
    commitIndex rf' = Z.max (commitIndex rf) (is_LastIncludedIndex args) ∧
    pendingSnapshot rf' = Some (SnapshotMsg (default [] (is_Data args)) (is_LastIncludedTerm args)
                                            (is_LastIncludedIndex args))
}.

Lemma InstallSnapShot_wf n args rf :
  raft_wf n rf → 0 ≤ is_LastIncludedTerm args ≤ is_Term args →
  ∃ rf', InstallSnapShot args rf = Some (rf', mkInstallSnapShotReply (currentTerm rf)) ∧ raft_wf n rf' ∧
    (is_Term args < currentTerm rf → rf' = rf) ∧
    (currentTerm rf ≤ is_Term args → install_post args rf rf').
Proof.
  intros Hwf Hargs. unfold InstallSnapShot.
  destruct (Z.ltb_spec (is_Term args) (currentTerm rf)) as [Hlt|Hge].
  { eexists. split_and!; try done; lia. }
  destruct (ChangeState_Follower_wf n (is_Term args) rf Hwf Hge)
    as (rf1 & -> & Hwf1 & [Hq1 Hr1] & Hs1 & Hct1 & _ & Hst1 & _). bind_simpl.
  destruct (resetElectionTimer_wf n rf1 Hwf1) as [Hwf2 [Hq2 Hr2]].
  assert (Hst2 : stable (resetElectionTimer rf1) = stable rf) by (by rewrite <- Hst1).
  set (rf2 := resetElectionTimer rf1) in *.
  assert (Hq : quiet_step rf rf2) by (by etrans).
  assert (Hr : replica rf2 = replica rf) by congruence.
  assert (Hct : currentTerm rf2 = is_Term args) by done. assert (Hs : state rf2 = Follower) by done.
  clearbody rf2. clear dependent rf1. injection Hr as R1 R2 R3 R4 R5 R6 R7.
  destruct (Z.leb_spec (is_LastIncludedIndex args) (lastApplied rf2)) as [Hstale|Hfresh].
  { exists rf2. split; [done|]. split; [done|]. split; [lia|]. intros _. constructor; try done; [|intros; lia].
    intros _. split; [|done]. unfold replica. congruence. }
  pose proof (wf_log _ _ Hwf2) as Hlog. pose proof (wf_applied _ _ Hwf2) as Happ.
  pose proof (wf_stable_term _ _ Hwf2) as Hstt.
  destruct (snapshotLogs_spec args rf2 Hlog) as (l' & -> & Hm); [lia|]. bind_simpl.
  destruct (snapshot_merge_spec (logs rf2) (is_LastIncludedIndex args) (is_LastIncludedTerm args) l' (is_Term args))
    as (L1 & L2 & L3 & L4 & _); try done; try lia.
  set (i := is_LastIncludedIndex args) in *.
  match goal with |- context [persist (is_Data args) ?r] => set (rf3 := r) end.
  assert (Hrf3 : rf3 = mkRaft (me rf2) (peers rf2) (persister rf2) (dead rf2) (currentTerm rf2) (voteFor rf2)
     (Z.max (commitIndex rf) i) i (state rf2) (nextIndex rf2) (matchIndex rf2) (electionTimer rf2)
     (heartbeatTimer rf2) l' i (is_LastIncludedTerm args) (pendingSnapshot rf2)).
  { unfold rf3. simpl. destruct (Z.ltb_spec (commitIndex rf2) i); simpl;
    (destruct (Z.ltb_spec (lastApplied rf2) i); [|lia]); simpl; unfold set_lastApplied; simpl; f_equal; lia. }
  clearbody rf3. subst rf3.
  set (rf3 := mkRaft _ _ _ _ _ _ _ _ _ _ _ _ _ _ _ _ _) in *.
  assert (Hwf3 : raft_wf n (persist (is_Data args) rf3)).
  { apply (persist_wf n _ rf3 rf2); try done; try apply Hwf2; simpl; [by eexists|lia|lia]. }
  pose proof (persist_step_quiet n (is_Data args) rf2 rf3 Hwf2) as Hq3.
  pose proof (persist_persisted (is_Data args) rf3) as Hp3.
  eexists. split; [done|]. split; [|split; [lia|]].
  - destruct Hwf3. by constructor.
  - intros _. constructor; try (by destruct (is_Data args)); try lia.
    + etrans; [done|]. destruct (Hq3 eq_refl eq_refl eq_refl eq_refl eq_refl). by constructor.
    + intros _. split_and!; try (by destruct (is_Data args)). rewrite <- R1. by destruct (is_Data args).
Qed.

(** ** Start *)

Lemma updateLogIndices_eq n peer m rf :
  raft_wf n rf → 0 ≤ peer < n →
  updateLogIndices peer m rf =
    Some (set_nextIndex (<[Z.to_nat peer := m + 1]> (nextIndex rf))
           (set_matchIndex (<[Z.to_nat peer := m]> (matchIndex rf)) rf)).
Proof.
  intros Hwf Hp. unfold updateLogIndices.
  rewrite !go_store_Some; [done| |]; rewrite ?(wf_next _ _ Hwf), ?(wf_match _ _ Hwf); done.
Qed.

Lemma updateLogIndices_wf n peer m rf :
  raft_wf n rf → 0 ≤ peer < n →
  ∃ rf', updateLogIndices peer m rf = Some rf' ∧ raft_wf n rf' ∧ role_step rf rf' ∧
    state rf' = state rf ∧ currentTerm rf' = currentTerm rf ∧ voteFor rf' = voteFor rf ∧ stable rf' = stable rf ∧
    nextIndex rf' = <[Z.to_nat peer := m + 1]> (nextIndex rf) ∧
    matchIndex rf' = <[Z.to_nat peer := m]> (matchIndex rf).
Proof.
  intros Hwf Hp. rewrite (updateLogIndices_eq n) by done. eexists. split; [done|].
  destruct Hwf. split; [constructor; simpl; try done|].
  - unfold go_len in *. by rewrite length_insert.
  - unfold go_len in *. by rewrite length_insert.
  - split_and!; try done. split; [|done]. apply quiet_volatile; simpl; auto; lia.
Qed.

Lemma log_seg_single (l : list (LogEntry cmd)) c t :
  log_wf l → last_term l ≤ t → log_wf (l ++ [mkLogEntry c t (last_index l + 1)]).
Proof. intros Hwf Ht. apply log_wf_app; [done|]. simpl. auto. Qed.

(** Start appends one entry on a leader and does nothing elsewhere. *)
Lemma Start_wf n command rf :
  raft_wf n rf →
  ∃ rf' r, Start command rf = Some (rf', r) ∧ raft_wf n rf' ∧ quiet_step rf rf' ∧ (persisted rf → persisted rf') ∧
    state rf' = state rf ∧ currentTerm rf' = currentTerm rf ∧ commitIndex rf' = commitIndex rf ∧
    lastApplied rf' = lastApplied rf ∧ pendingSnapshot rf' = pendingSnapshot rf ∧ ReadSnapshot (persister rf') = ReadSnapshot (persister rf) ∧
    (state rf ≠ Leader → rf' = rf ∧ r = (-1, -1, false)) ∧
    (state rf = Leader →
       r = (last_index (logs rf) + 1, currentTerm rf, true) ∧ persisted rf' ∧
       logs rf' = logs rf ++ [mkLogEntry command (currentTerm rf) (last_index (logs rf) + 1)] ∧
       nextIndex rf' = <[Z.to_nat (me rf) := last_index (logs rf) + 2]> (nextIndex rf) ∧
       matchIndex rf' = <[Z.to_nat (me rf) := last_index (logs rf) + 1]> (matchIndex rf)).
Proof.
  intros Hwf. unfold Start. destruct (decide (state rf = Leader)) as [Hl|Hl].
  - pose proof (wf_log _ _ Hwf) as Hlog. destruct (getLatestLog_wf rf Hlog) as (g & -> & Hg & _). simpl. rewrite Hg.
    set (entry := mkLogEntry command _ _). set (rf1 := set_logs _ rf).
    pose proof (wf_stable_term _ _ Hwf) as Hst. pose proof (log_wf_nonempty _ Hlog) as Hne.
    assert (Hwf1 : raft_wf n (persistState rf1)).
    { apply (persist_wf n _ rf1 rf); try done; try apply Hwf; simpl.
      - apply log_seg_single; [done|lia].
      - pose proof (wf_snap _ _ Hwf) as Hh. by destruct (logs rf).
      - rewrite first_index_app by done. apply Hwf.
      - unfold last_term. rewrite last_snoc. simpl. lia. }
    destruct (updateLogIndices_wf n (me rf) (last_index (logs rf) + 1) _ Hwf1)
      as (rf2 & E & Hwf2 & [Hq2 Hr2] & Hs2 & Hct2 & Hv2 & Hst2 & Hn2 & Hm2); [apply Hwf|].
    simpl in E. rewrite E. simpl. injection Hr2 as R1 R2 R3 R4 R5 R6 R7.
    assert (Hp2 : persisted rf2).
    { unfold persisted. rewrite Hst2, Hct2, Hv2, R1, R5, R6. apply persist_persisted. }
    eexists _, _. split; [done|]. split; [done|]. split; [etrans; [|done]; by apply (persist_step_quiet n)|].
    split_and!; try done. intros _. split_and!; try done.
    + by rewrite Hct2.
    + rewrite Hn2. simpl. f_equal. lia.
  - eexists _, _. split_and!; try done.
Qed.

(** ** Elections *)

(** A candidate that wins re-initialises the replication arrays: every follower
    starts at the end of the leader's log with nothing known to match. *)
Lemma ChangeState_Leader_wf n rf :
  raft_wf n rf → state rf ≠ Leader →
  ∃ rf', ChangeState Leader rf = Some rf' ∧ raft_wf n rf' ∧ replica rf' = replica rf ∧
    stable rf' = stable rf ∧ me rf' = me rf ∧ peers rf' = peers rf ∧
    state rf' = Leader ∧ currentTerm rf' = currentTerm rf ∧ voteFor rf' = voteFor rf ∧
    (∀ p, 0 ≤ p < n → (nextIndex rf').[p] = Some (last_index (logs rf) + 1) ∧
       (matchIndex rf').[p] = Some (if p =? me rf then last_index (logs rf) else 0)).
Proof.
  intros Hwf Hs. unfold ChangeState. destruct (decide _) as [|_]; [done|]. cbv zeta.
  set (rf1 := set_heartbeatTimer true _).
  assert (Hwf1 : raft_wf n rf1 ∧ stable rf1 = stable rf).
  { apply raft_wf_volatile; try done; try apply Hwf. by right. }
  destruct Hwf1 as [Hwf1 Hst1].
  destruct (getLatestLog_wf rf1 (wf_log _ _ Hwf1)) as (g & -> & Hg & _). bind_simpl. rewrite Hg.
  set (last := last_index (logs rf1)).
  edestruct (for_range_ind (λ i r, raft_wf n r ∧ r = set_matchIndex (matchIndex r) (set_nextIndex (nextIndex r) rf1) ∧
     ∀ p, 0 ≤ p < i → (nextIndex r).[p] = Some (last + 1) ∧ (matchIndex r).[p] = Some 0))
    as (rf2 & -> & Hwf2 & Hrf2 & Hall).
  4: bind_simpl; destruct (updateLogIndices_wf n (me rf2) last rf2 Hwf2)
      as (rf3 & -> & Hwf3 & [Hq3 Hr3] & Hs3 & Hct3 & Hv3 & Hst3 & Hn3 & Hm3); [apply Hwf2|].
  - rewrite (wf_peers _ _ Hwf1). pose proof (wf_me _ _ Hwf). lia.
  - split_and!; [done|by destruct rf1|lia].
  - intros k r Hk (Hwfr & Er & Hr). rewrite (wf_peers _ _ Hwf1) in Hk.
    destruct Hwfr. rewrite !go_store_Some by lia. bind_simpl. eexists. split; [done|]. split; [|split].
    + constructor; simpl; try done; unfold go_len in *; by rewrite length_insert.
    + rewrite Er. done.
    + intros p Hp. simpl. unfold go_len in *. rewrite !go_index_lookup by lia.
      destruct (decide (p = k)) as [->|]; [rewrite !list_lookup_insert_eq by lia; done|].
      rewrite !list_lookup_insert_ne by lia. rewrite <- !go_index_lookup by lia. apply Hr. lia.
  - rewrite Hrf2 in Hr3, Hs3, Hct3, Hv3, Hst3.
    exists rf3. split; [done|]. split_and!; try done.
    + destruct Hq3 as [-> _]. by rewrite Hrf2.
    + destruct Hq3 as [_ ->]. by rewrite Hrf2.
    + intros p Hp. rewrite (wf_peers _ _ Hwf1) in Hall. destruct (Hall p Hp) as [Hn Hm].
      pose proof (wf_next _ _ Hwf2) as L1. pose proof (wf_match _ _ Hwf2) as L2. unfold go_len in L1, L2.
      pose proof (wf_me _ _ Hwf).
      rewrite Hn3, Hm3. assert (Hme : me rf2 = me rf) by (by rewrite Hrf2). rewrite Hme.
      rewrite !go_index_lookup in * by lia. destruct (Z.eqb_spec p (me rf)) as [->|].
      * rewrite !list_lookup_insert_eq by lia. done.
      * rewrite !list_lookup_insert_ne by lia. done.
Qed.

(** Election timeout: a fresh term, a persisted vote for itself, and requests
    that describe its own log. *)
Lemma ticker_election_wf n rf :
  raft_wf n rf →
  ∃ rf', ticker_election rf =
      Some (rf', mkRequestVoteArgs (currentTerm rf + 1) (me rf) (last_index (logs rf)) (last_term (logs rf))) ∧
    raft_wf n rf' ∧ replica rf' = replica rf ∧ persisted rf' ∧ me rf' = me rf ∧ peers rf' = peers rf ∧
    state rf' = Candidate ∧ currentTerm rf' = currentTerm rf + 1 ∧ voteFor rf' = me rf ∧ dead rf' = dead rf.
Proof.
  intros Hwf. unfold ticker_election, ChangeState.
  set (rf1 := set_state Candidate (set_electionTimer false rf)).
  assert (E : (if decide (state (set_electionTimer false rf) = Candidate)
     then Some (set_electionTimer false rf) else Some rf1) = Some rf1).
  { destruct (decide _) as [E|]; [|done]. simpl in E. unfold rf1, set_state. simpl.
    by rewrite <- E. }
  cbv zeta. rewrite E. bind_simpl. clear E.
  set (rf2 := set_voteFor (me rf) (set_currentTerm (currentTerm rf + 1) rf1)).
  pose proof (wf_log _ _ Hwf) as Hlog.
  unfold LaunchElection. cbv zeta.
  destruct (getLatestLog_wf (persistState (set_voteFor (me (persistState (set_currentTerm (currentTerm rf1 + 1) rf1)))
     (persistState (set_currentTerm (currentTerm rf1 + 1) rf1)))) Hlog) as (g & -> & Hg & Ht & _).
  bind_simpl. rewrite Hg, Ht.
  set (rf3 := set_electionTimer true rf2).
  eexists (persist None (set_persister (persister (persistState (set_currentTerm (currentTerm rf1 + 1) rf1))) rf3)).
  split; [done|].
  pose proof (wf_stable_term _ _ Hwf).
  split; [|split_and!; try done; apply persist_persisted].
  apply (persist_wf n _ _ rf); try done; try apply Hwf; simpl. lia.
Qed.

(** A reply to RequestVote: the candidate counts a granted vote and becomes
    leader exactly when its count passes half of the peers. *)
Lemma handleVoteReply_wf n args reply granted rf :
  raft_wf n rf →
  ∃ rf' granted', handleVoteReply args reply granted rf = Some (rf', granted') ∧ raft_wf n rf' ∧
    replica rf' = replica rf ∧ (persisted rf → persisted rf') ∧
    ((quiet_step rf rf' ∧ matchIndex rf' = matchIndex rf ∧
      granted' = granted + (if isValidCandidate (rv_Term args) rf && rvr_VoteGranted reply then 1 else 0)) ∨
     (isValidCandidate (rv_Term args) rf = true ∧ rvr_VoteGranted reply = true ∧
      granted' = granted + 1 ∧ n / 2 < granted' ∧
      state rf' = Leader ∧ currentTerm rf' = currentTerm rf ∧ me rf' = me rf ∧ peers rf' = peers rf ∧
      stable rf' = stable rf ∧
      (∀ p, 0 ≤ p < n → (nextIndex rf').[p] = Some (last_index (logs rf) + 1) ∧
         (matchIndex rf').[p] = Some (if p =? me rf then last_index (logs rf) else 0)))).
Proof.
  intros Hwf. unfold handleVoteReply. destruct (isValidCandidate (rv_Term args) rf) eqn:Hv; simpl.
  2:{ exists rf, granted. split_and!; try done. left. split_and!; [done|done|lia]. }
  destruct (rvr_VoteGranted reply) eqn:Hg.
  - rewrite (wf_peers _ _ Hwf). destruct (Z.ltb_spec (n / 2) (granted + 1)) as [Hmaj|Hmin].
    + assert (Hs : state rf ≠ Leader).
      { unfold isValidCandidate in Hv. apply andb_true_iff in Hv as [Hv%bool_decide_eq_true _]. by rewrite Hv. }
      destruct (ChangeState_Leader_wf n rf Hwf Hs)
        as (rf' & -> & Hwf' & Hr & Hst & Hme & Hp & Hs' & Hct & Hvf & Harr). simpl.
      exists rf', (granted + 1). split_and!; try done.
      * unfold persisted. injection Hr as R1 R2 R3 R4 R5 R6 R7. congruence.
      * right. split_and!; try done. apply Hwf'.
    + exists rf, (granted + 1). split_and!; try done. by left.
  - destruct (Z.ltb_spec (currentTerm rf) (rvr_Term reply)) as [Hlt|Hge].
    + destruct (updateTermAndStepDown_wf n (rvr_Term reply) rf Hwf) as (rf' & -> & Hwf' & [Hq Hr] & _ & Hd & _).
      simpl. exists rf', granted. split_and!; try done; [intros _; by apply Hd|]. left. split_and!; [done|by apply Hd|lia].
    + exists rf, granted. split_and!; try done. left. split_and!; [done|done|lia].
Qed.

Lemma ticker_heartbeat_wf n rf :
  raft_wf n rf → let rf' := (ticker_heartbeat rf).1 in
  raft_wf n rf' ∧ role_step rf rf' ∧ matchIndex rf' = matchIndex rf ∧ stable rf' = stable rf ∧
  (persisted rf → persisted rf').
Proof.
  intros Hwf rf'. pose proof (wf_timer _ _ Hwf) as Ht.
  assert (Hrf' : rf' = set_heartbeatTimer (bool_decide (state rf = Leader)) rf).
  { unfold rf', ticker_heartbeat. simpl. case_decide as E; simpl; by rewrite ?bool_decide_true, ?bool_decide_false by done. }
  rewrite Hrf'. clear rf' Hrf'.
  destruct (raft_wf_volatile n rf (set_heartbeatTimer (bool_decide (state rf = Leader)) rf)) as [H1 H2];
    try done; try apply Hwf.
  - simpl. case_decide; [by rewrite bool_decide_true|done].
  - by right.
  - split_and!; try done. split; [|done]. apply quiet_volatile; simpl; auto; lia.
Qed.

End raft_ops.
