(* ===== verification/RaftRepl.v ===== *)
(** * Replication, commit, apply and restart

    The second half of the operations of raft.go: what a leader sends, how it
    handles the replies, when it commits, what the applier delivers, and what
    [Make] rebuilds from the persister. *)

From S2P Require Import Prelude RaftUtil RaftNode RaftLog RaftWf RaftOps.
Local Open Scope Z_scope.
Local Open Scope go_scope.

Section raft_repl.
Context {cmd : Type} `{!Gob (PersistedState cmd)}.
Implicit Types (rf : Raft cmd) (e : LogEntry cmd) (l : list (LogEntry cmd)) (n : Z).

Lemma first_term_le_last l e : log_wf l → head l = Some e → 0 ≤ Term e ≤ last_term l.
Proof.
  intros Hwf Hh. destruct l as [|x l]; [done|]. injection Hh as ->.
  destruct (log_at_is_Some (e :: l) (last_index (e :: l))) as [g Hg].
  { pose proof (log_wf_last_first _ Hwf). lia. }
  assert (Hf : log_at (e :: l) (Index e) = Some e) by (unfold log_at, first_index; simpl; by rewrite Z.sub_diag).
  pose proof (log_at_terms _ _ _ _ _ Hwf Hf Hg) as Ht.
  pose proof (last_term_log_at _ _ Hwf Hg). pose proof (log_wf_last_first _ Hwf) as Hl.
  unfold first_index in Hl. simpl in Hl. destruct Hwf as (_ & ? & _). lia.
Qed.

(** ** What a leader sends *)

(** AppendEntry arguments cut out of the log [l]: the entry at PrevLogIndex is in
    [l], and Entries is all of [l] behind it. *)
Record append_args_of l (args : AppendEntryArgs cmd) : Prop := {
  aa_prev : prev_matched args l;
  aa_entries : ae_Entries args = drop (Z.to_nat (ae_PrevLogIndex args + 1 - first_index l)) l
}.

Lemma append_args_of_wf l args :
  log_wf l → last_term l ≤ ae_Term args → append_args_of l args →
  append_args_wf args ∧ ae_PrevLogIndex args + go_len (ae_Entries args) = last_index l ∧
  first_index l ≤ ae_PrevLogIndex args ≤ last_index l.
Proof.
  intros Hwf HT [(p & Hp & Htp) Hes]. pose proof (log_at_lookup _ _ _ Hp) as Hk.
  destruct (log_at_Some _ _ _ Hwf Hp) as (Hpi & _ & Hr).
  set (k := Z.to_nat (ae_PrevLogIndex args - first_index l)) in *.
  replace (Z.to_nat (ae_PrevLogIndex args + 1 - first_index l)) with (S k) in Hes by lia.
  pose proof (log_seg_drop _ _ _ _ _ (log_wf_seg _ Hwf) Hk) as Hseg.
  assert (Hlen : ae_PrevLogIndex args + go_len (ae_Entries args) = last_index l).
  { rewrite Hes. unfold last_index, go_len in *. rewrite length_drop. lia. }
  split_and!; try done; try lia. split.
  - by rewrite Hes, <- Hpi, <- Htp.
  - pose proof (compact_log_last_term _ _ _ Hk) as Hlt. unfold last_term, compact_log in Hlt.
    rewrite last_cons in Hlt. rewrite Hes, <- Htp. fold (last_term l) in Hlt.
    destruct (last (drop (S k) l)); simpl in *; lia.
Qed.

Lemma genAppendEntryArgs_wf n prev rf :
  raft_wf n rf → first_index (logs rf) ≤ prev →
  ∃ args, genAppendEntryArgs prev rf = Some args ∧ append_args_of (logs rf) args ∧
    ae_Term args = currentTerm rf ∧ ae_LeaderId args = me rf ∧ ae_LeaderCommit args = commitIndex rf ∧
    ae_PrevLogIndex args = Z.min prev (last_index (logs rf)).
Proof.
  intros Hwf Hprev. pose proof (wf_log _ _ Hwf) as Hlog. unfold genAppendEntryArgs.
  destruct (getFirstLog_wf rf Hlog) as (f & -> & Hf & _).
  destruct (getLatestLog_wf rf Hlog) as (g & -> & Hg & _). bind_simpl. rewrite Hf, Hg.
  destruct (Z.ltb_spec prev (first_index (logs rf) - 1)); [lia|].
  replace (if last_index (logs rf) <? prev then last_index (logs rf) else prev)
    with (Z.min prev (last_index (logs rf))) by (destruct (Z.ltb_spec (last_index (logs rf)) prev); lia).
  pose proof (log_wf_last_first _ Hlog) as Hfl. set (q := Z.min prev _) in *.
  destruct (log_at_is_Some (logs rf) q) as [p Hp]; [lia|]. assert (Hp' := Hp). unfold log_at in Hp'.
  assert (Hr : 0 ≤ q - first_index (logs rf) < go_len (logs rf)) by (unfold last_index in *; lia).
  rewrite (proj2 (Z.leb_le (first_index (logs rf)) q)) by lia.
  rewrite (proj2 (Z.ltb_lt _ _) (proj2 Hr)). cbn [andb]. rewrite Hp'. bind_simpl.
  rewrite go_slice_from_Some by lia. bind_simpl. eexists. split; [done|]. split_and!; try done.
  constructor; simpl; [by exists p|]. f_equal. lia.
Qed.

Lemma doSendAppendEntry_wf n peer rf :
  raft_wf n rf → 0 ≤ peer < n →
  ∃ req, doSendAppendEntry peer rf = Some req ∧
    match req with
    | SendNothing => state rf ≠ Leader
    | SendInstallSnapShot args =>
        state rf = Leader ∧ is_Term args = currentTerm rf ∧ is_LeaderId args = me rf ∧
        is_LastIncludedIndex args = first_index (logs rf) ∧
        Term <$> head (logs rf) = Some (is_LastIncludedTerm args) ∧
        0 ≤ is_LastIncludedTerm args ≤ is_Term args ∧
        is_Data args = Some (ReadSnapshot (persister rf))
    | SendAppendEntry args =>
        state rf = Leader ∧ ae_Term args = currentTerm rf ∧ ae_LeaderId args = me rf ∧
        ae_LeaderCommit args = commitIndex rf ∧ append_args_of (logs rf) args
    end.
Proof.
  intros Hwf Hp. pose proof (wf_log _ _ Hwf) as Hlog. pose proof (wf_stable_term _ _ Hwf).
  unfold doSendAppendEntry. destruct (decide (state rf = Leader)) as [Hl|]; [|by exists SendNothing].
  destruct (go_index_is_Some (nextIndex rf) peer) as [next Hn]; [rewrite (wf_next _ _ Hwf); lia|].
  rewrite Hn. bind_simpl.
  destruct (getFirstLog_wf rf Hlog) as (f & Ef & Hf & _). rewrite Ef. bind_simpl. rewrite Hf.
  destruct (Z.ltb_spec (next - 1) (first_index (logs rf))) as [Hs|Hs].
  - unfold makeInstallSnapShotArgs. rewrite Ef. bind_simpl. eexists. split; [done|]. simpl.
    assert (Hh : head (logs rf) = Some f).
    { unfold getFirstLog in Ef. rewrite go_index_lookup in Ef by lia. by destruct (logs rf). }
    pose proof (first_term_le_last _ _ Hlog Hh). rewrite Hh. split_and!; try done; lia.
  - destruct (genAppendEntryArgs_wf n (next - 1) rf Hwf Hs) as (args & -> & H1 & H2 & H3 & H4 & _). bind_simpl.
    by eexists.
Qed.

(** ** Handling the replies *)

Lemma set_commitIndex_wf n c rf :
  raft_wf n rf → commitIndex rf ≤ c → raft_wf n (set_commitIndex c rf) ∧ quiet_step rf (set_commitIndex c rf).
Proof.
  intros Hwf Hc. split.
  - destruct Hwf. constructor; simpl; try done. lia.
  - apply quiet_volatile; simpl; auto; lia.
Qed.

(** The commit rule: the commit index moves only forward, only to an index that
    a majority of matchIndex covers, and only onto an entry of the current
    term. *)
Definition commit_rule rf rf' : Prop :=
  commitIndex rf' = commitIndex rf ∨
  (commitIndex rf < commitIndex rf' ∧
   peers rf / 2 < go_len (filter (λ m, commitIndex rf' ≤ m) (matchIndex rf')) ∧
   ∃ e, log_at (logs rf) (commitIndex rf') = Some e ∧ Term e = currentTerm rf).

Lemma acceptNewLogEntries_wf n peer args rf :
  raft_wf n rf → 0 ≤ peer < n →
  ∃ rf', acceptNewLogEntries peer args rf = Some rf' ∧ raft_wf n rf' ∧ quiet_step rf rf' ∧
    (persisted rf → persisted rf') ∧
    state rf' = state rf ∧ currentTerm rf' = currentTerm rf ∧ logs rf' = logs rf ∧
    lastApplied rf' = lastApplied rf ∧ pendingSnapshot rf' = pendingSnapshot rf ∧ ReadSnapshot (persister rf') = ReadSnapshot (persister rf) ∧
    matchIndex rf' = <[Z.to_nat peer := ae_PrevLogIndex args + go_len (ae_Entries args)]> (matchIndex rf) ∧
    commit_rule rf rf'.
Proof.
  intros Hwf Hp. unfold acceptNewLogEntries.
  destruct (updateLogIndices_wf n peer (ae_PrevLogIndex args + go_len (ae_Entries args)) rf Hwf Hp)
    as (rf1 & -> & Hwf1 & [Hq Hr] & Hs & Hct & Hv & Hst & Hn & Hm). bind_simpl.
  injection Hr as R1 R2 R3 R4 R5 R6 R7.
  assert (Hpers : persisted rf → persisted rf1) by (unfold persisted; congruence).
  pose proof (wf_match _ _ Hwf1) as Hlen. pose proof (wf_me _ _ Hwf). rewrite Hlen.
  destruct (QuickSelect_kth (matchIndex rf1) (n - (n / 2 + 1))) as (c & -> & Hc).
  { rewrite Hlen. Z.to_euclidean_division_equations. lia. }
  bind_simpl. destruct (Z.ltb_spec (commitIndex rf1) c) as [Hlt|Hge].
  - destruct (isLogMatched_wf c (currentTerm rf1) rf1 (wf_log _ _ Hwf1)) as (b & -> & Hb). bind_simpl.
    destruct b.
    + destruct (set_commitIndex_wf n c rf1 Hwf1 ltac:(lia)) as [Hwf2 Hq2].
      exists (set_commitIndex c rf1). split_and!; try done; [by etrans|].
      right. simpl. split_and!; [lia| |].
      * apply kth_smallest_count in Hc. rewrite (wf_peers _ _ Hwf). lia.
      * rewrite <- R1, <- Hct. by apply Hb.
    + exists rf1. split_and!; try done. by left.
  - exists rf1. split_and!; try done. by left.
Qed.

(** The back-up after a rejection keeps nextIndex inside the leader's log. *)
Lemma conflictNextIndex_wf args reply rf :
  log_wf (logs rf) → ae_PrevLogIndex args ≤ last_index (logs rf) →
  ∃ v, conflictNextIndex args reply rf = Some v ∧
    (v = aer_ConflictIndex reply ∨
     ∃ e, v - 1 ≤ ae_PrevLogIndex args ∧ log_at (logs rf) (v - 1) = Some e ∧ Term e = aer_ConflictTerm reply).
Proof.
  intros Hlog Hprev. unfold conflictNextIndex.
  destruct (Z.eqb_spec (aer_ConflictTerm reply) (-1)) as [|Hne]; simpl; [by eexists; split; [done|left]|].
  destruct (getFirstLog_wf rf Hlog) as (f & -> & Hf & _). bind_simpl. rewrite Hf.
  set (first := first_index (logs rf)) in *. set (prev := ae_PrevLogIndex args) in *.
  assert (Hat : ∀ i, (logs rf).[i] = log_at (logs rf) (first + i)).
  { intros i. unfold log_at. fold first. f_equal. lia. }
  assert (∃ r, Search (prev - first) (λ i, e ← (logs rf).[i]; Some (aer_ConflictTerm reply <=? Term e)) = Some r ∧
     0 ≤ r ∧ (r ≤ prev - first ∨ (prev < first ∧ r = 0))) as (r & -> & Hr0 & Hr).
  { destruct (decide (0 ≤ prev - first)) as [Hpos|]; [|exists 0; rewrite Search_nonpos by lia; split_and!; [done|lia|lia]].
    destruct (Search_spec (prev - first) (λ i, e ← (logs rf).[i]; Some (aer_ConflictTerm reply <=? Term e))
      (λ i, default true ((λ x, aer_ConflictTerm reply <=? Term x) <$> log_at (logs rf) (first + i)))) as (r & -> & ? & _);
      [done| |by exists r; split_and!; [done|lia|lia]].
    split.
    - intros i Hi. rewrite Hat. destruct (log_at_is_Some (logs rf) (first + i)) as [x ->]; [fold first; lia|done].
    - intros i j Hij Hj.
      destruct (log_at_is_Some (logs rf) (first + i)) as [x Hx]; [fold first; lia|].
      destruct (log_at_is_Some (logs rf) (first + j)) as [y Hy]; [fold first; lia|].
      rewrite Hx, Hy. simpl. pose proof (log_at_terms _ _ _ _ _ Hlog Hx Hy). lia. }
  bind_simpl. destruct (Z.leb_spec (first + r) prev) as [Hle|Hgt]; [|by eexists; split; [done|left]].
  replace (first + r - first) with r by lia. rewrite Hat.
  destruct (log_at_is_Some (logs rf) (first + r)) as [x Hx]; [fold first; lia|]. rewrite Hx. bind_simpl.
  destruct (Z.eqb_spec (Term x) (aer_ConflictTerm reply)) as [Ht|]; [|by eexists; split; [done|left]].
  eexists. split; [done|]. right. exists x. replace (first + r + 1 - 1) with (first + r) by lia. done.
Qed.

Lemma rollBackToConflictTerm_wf n peer args reply rf :
  raft_wf n rf → 0 ≤ peer < n → ae_PrevLogIndex args ≤ last_index (logs rf) →
  ∃ rf' v, rollBackToConflictTerm peer args reply rf = Some rf' ∧
    conflictNextIndex args reply rf = Some v ∧
    rf' = set_nextIndex (<[Z.to_nat peer :=
            Z.min (Z.max v (first_index (logs rf))) (last_index (logs rf) + 1)]> (nextIndex rf)) rf ∧
    raft_wf n rf' ∧ role_step rf rf' ∧ stable rf' = stable rf.
Proof.
  intros Hwf Hp Hprev. pose proof (wf_log _ _ Hwf) as Hlog. unfold rollBackToConflictTerm.
  destruct (getFirstLog_wf rf Hlog) as (f & -> & Hf & _).
  destruct (getLatestLog_wf rf Hlog) as (g & -> & Hg & _). bind_simpl. rewrite Hf, Hg.
  destruct (conflictNextIndex_wf args reply rf Hlog Hprev) as (v & -> & Hv). bind_simpl.
  set (w := if last_index (logs rf) + 1 <? _ then _ else _).
  assert (Hw : w = Z.min (Z.max v (first_index (logs rf))) (last_index (logs rf) + 1)).
  { unfold w. pose proof (log_wf_last_first _ Hlog).
    destruct (Z.ltb_spec v (first_index (logs rf))), (Z.ltb_spec (last_index (logs rf) + 1) v);
    destruct (Z.ltb_spec (last_index (logs rf) + 1) (first_index (logs rf))); lia. }
  rewrite go_store_Some by (rewrite (wf_next _ _ Hwf); lia). bind_simpl.
  eexists _, v. rewrite Hw. split_and!; try done.
  - destruct Hwf. constructor; simpl; try done. unfold go_len in *. by rewrite length_insert.
  - split; [|done]. apply quiet_volatile; simpl; auto; lia.
Qed.

Lemma handleSnapShotReply_wf n peer args reply rf :
  raft_wf n rf → 0 ≤ peer < n →
  ∃ rf', handleSnapShotReply peer args reply rf = Some rf' ∧ raft_wf n rf' ∧ role_step rf rf' ∧
    (persisted rf → persisted rf') ∧
    (state rf' = state rf → currentTerm rf' = currentTerm rf → matchIndex rf' = matchIndex rf ∨
     (isValidLeader (is_Term args) rf = true ∧
      matchIndex rf' = <[Z.to_nat peer := is_LastIncludedIndex args]> (matchIndex rf))).
Proof.
  intros Hwf Hp. unfold handleSnapShotReply. destruct (isValidLeader _ rf) eqn:Hv.
  - destruct (Z.ltb_spec (currentTerm rf) (isr_Term reply)) as [Hlt|Hge].
    + destruct (updateTermAndStepDown_wf n (isr_Term reply) rf Hwf) as (rf' & -> & Hwf' & Hq & Hct & Hd & _).
      exists rf'. split_and!; try done; [intros _; by apply Hd|]. lia.
    + destruct (updateLogIndices_wf n peer (is_LastIncludedIndex args) rf Hwf Hp)
        as (rf' & -> & Hwf' & Hq & Hs & Hct & Hvf & Hst & Hn & Hm).
      exists rf'. split_and!; try done; [|auto].
      destruct Hq as [_ Hr]. injection Hr as R1 R2 R3 R4 R5 R6 R7. unfold persisted. congruence.
  - exists rf. split_and!; try done; auto.
Qed.

Lemma handleAppendReply_wf n peer args reply rf :
  raft_wf n rf → 0 ≤ peer < n →
  (isValidLeader (ae_Term args) rf = true → ae_PrevLogIndex args ≤ last_index (logs rf)) →
  ∃ rf', handleAppendReply peer args reply rf = Some rf' ∧ raft_wf n rf' ∧ quiet_step rf rf' ∧
    (persisted rf → persisted rf') ∧ logs rf' = logs rf ∧
    lastApplied rf' = lastApplied rf ∧ pendingSnapshot rf' = pendingSnapshot rf ∧ ReadSnapshot (persister rf') = ReadSnapshot (persister rf) ∧
    (commitIndex rf' ≠ commitIndex rf →
       isValidLeader (ae_Term args) rf = true ∧ aer_Success reply = true ∧ commit_rule rf rf') ∧
    (matchIndex rf' = matchIndex rf ∨
       (isValidLeader (ae_Term args) rf = true ∧ aer_Success reply = true ∧
        matchIndex rf' = <[Z.to_nat peer := ae_PrevLogIndex args + go_len (ae_Entries args)]> (matchIndex rf))).
Proof.
  intros Hwf Hp Hprev. unfold handleAppendReply. destruct (isValidLeader _ rf) eqn:Hv.
  2:{ exists rf. split_and!; try done; auto. }
  destruct (aer_Success reply) eqn:Hs; simpl.
  - destruct (acceptNewLogEntries_wf n peer args rf Hwf Hp)
      as (rf' & -> & Hwf' & Hq & Hpers & Hst & Hct & Hl & Ha & Hps & Hd & Hm & Hc).
    exists rf'. split_and!; try done; auto.
  - destruct (Z.ltb_spec (currentTerm rf) (aer_Term reply)) as [Hlt|Hge].
    + destruct (updateTermAndStepDown_wf n (aer_Term reply) rf Hwf) as (rf' & -> & Hwf' & [Hq Hr] & Hct & Hd & _).
      injection Hr as R1 R2 R3 R4 R5 R6 R7. destruct (Hd Hlt) as (_ & _ & Hpers & _ & Hm).
      exists rf'. split_and!; try done; auto.
    + destruct (rollBackToConflictTerm_wf n peer args reply rf Hwf Hp (Hprev eq_refl))
        as (rf' & v & -> & _ & -> & Hwf' & [Hq Hr] & Hst).
      eexists. split_and!; try done; auto.
Qed.

(** Kill only marks the peer. *)
Lemma Kill_wf n rf :
  raft_wf n rf → raft_wf n (Kill rf) ∧ role_step rf (Kill rf) ∧ stable (Kill rf) = stable rf.
Proof.
  intros Hwf. split_and!; [by destruct Hwf; constructor| |done]. split; [|done]. apply quiet_volatile; simpl; auto; lia.
Qed.

(** ** The applier *)

(** One iteration of the applier. *)
Lemma applier_wf n rf :
  raft_wf n rf →
  ∃ rf' act, applier rf = Some (rf', act) ∧ raft_wf n rf' ∧ quiet_step rf rf' ∧ (persisted rf → persisted rf') ∧
    logs rf' = logs rf ∧ commitIndex rf' = commitIndex rf ∧ matchIndex rf' = matchIndex rf ∧
    ReadSnapshot (persister rf') = ReadSnapshot (persister rf) ∧
    match act with
    | ApplierExit => rf' = rf ∧ dead rf = true
    | ApplierWait => rf' = rf ∧ pendingSnapshot rf = None ∧ commitIndex rf = lastApplied rf
    | ApplierSend (SnapshotMsg s t i) =>
        pendingSnapshot rf = Some (SnapshotMsg s t i) ∧ pendingSnapshot rf' = None ∧ lastApplied rf' = lastApplied rf
    | ApplierSend (CommandMsg c i) =>
        pendingSnapshot rf = Some (CommandMsg c i) ∨
        (pendingSnapshot rf = None ∧ pendingSnapshot rf' = None ∧
         i = lastApplied rf + 1 ∧ i ≤ commitIndex rf ∧ lastApplied rf' = i ∧
         ∃ e, log_at (logs rf) i = Some e ∧ Command e = c)
    | ApplierContinue => pendingSnapshot rf = None ∧ last_index (logs rf) < commitIndex rf
    end.
Proof.
  intros Hwf. pose proof (wf_log _ _ Hwf) as Hlog. pose proof (wf_applied _ _ Hwf) as Happ. unfold applier.
  destruct (killed rf) eqn:Hd; [by exists rf, ApplierExit|].
  destruct (_ && _) eqn:Hw.
  { apply andb_true_iff in Hw as [H1 H2%bool_decide_eq_true]. exists rf, ApplierWait. split_and!; try done; lia. }
  assert (Hvol : ∀ p a, first_index (logs rf) ≤ a ≤ commitIndex rf →
    let r := set_pendingSnapshot p (set_lastApplied a rf) in
    raft_wf n r ∧ quiet_step rf r ∧ (persisted rf → persisted r)).
  { intros p a Ha r. destruct Hwf. split_and!; [by constructor| |done]. apply quiet_volatile; simpl; auto; lia. }
  destruct (pendingSnapshot rf) as [msg|] eqn:Hp.
  - destruct (Hvol None (lastApplied rf)) as (H1 & H2 & H3); [lia|].
    exists (set_pendingSnapshot None rf), (ApplierSend msg). split_and!; try done. destruct msg; auto.
  - destruct (getFirstLog_wf rf Hlog) as (f & -> & Hf & _). bind_simpl. rewrite Hf.
    destruct (Z.ltb_spec (lastApplied rf) (first_index (logs rf))); [lia|].
    rewrite bool_decide_true, andb_true_r in Hw by done. apply Z.leb_gt in Hw.
    destruct (Z.ltb_spec (commitIndex rf) (lastApplied rf + 1)); [lia|].
    destruct (_ || _) eqn:Hout.
    + destruct (Hvol None (first_index (logs rf))) as (H1 & H2 & H3); [lia|].
      exists (set_lastApplied (first_index (logs rf)) rf), ApplierContinue.
      replace (set_pendingSnapshot None (set_lastApplied (first_index (logs rf)) rf))
        with (set_lastApplied (first_index (logs rf)) rf) in * by (unfold set_lastApplied, set_pendingSnapshot; simpl; by rewrite Hp).
      split_and!; try done. unfold last_index. lia.
    + destruct (log_at_is_Some (logs rf) (lastApplied rf + 1)) as [x Hx]; [unfold last_index; lia|].
      destruct (log_at_Some _ _ _ Hlog Hx) as (Hix & _ & _). assert (Hx' := Hx). unfold log_at in Hx'.
      rewrite Hx'. bind_simpl.
      destruct (Hvol None (lastApplied rf + 1)) as (H1 & H2 & H3); [lia|].
      replace (set_pendingSnapshot None (set_lastApplied (lastApplied rf + 1) rf))
        with (set_lastApplied (lastApplied rf + 1) rf) in * by (unfold set_lastApplied, set_pendingSnapshot; simpl; by rewrite Hp).
      eexists _, _. split; [done|]. split_and!; try done. right. rewrite Hix. split_and!; try done; try lia. eauto.
Qed.

Lemma shouleReplicateLog_wf n peer rf :
  raft_wf n rf → 0 ≤ peer < n →
  ∃ b, shouleReplicateLog peer rf = Some b ∧
    (b = true ↔ state rf = Leader ∧ ∃ m, (matchIndex rf).[peer] = Some m ∧ m < last_index (logs rf)).
Proof.
  intros Hwf Hp. unfold shouleReplicateLog. case_decide as Hl.
  - destruct (go_index_is_Some (matchIndex rf) peer) as [m Hm]; [rewrite (wf_match _ _ Hwf); lia|].
    rewrite Hm. bind_simpl. destruct (getLatestLog_wf rf (wf_log _ _ Hwf)) as (g & -> & Hg & _). bind_simpl.
    rewrite Hg. eexists. split; [done|]. rewrite Z.ltb_lt. split; [eauto|].
    intros (_ & m' & Hm' & ?). by simplify_eq.
  - exists false. split; [done|]. split; [done|]. by intros [? _].
Qed.

(** ** Make *)

(** The peer before [readPersist]: a follower in term 0 with an empty log. *)
Definition fresh_raft (n i : Z) (ps : Persister) : Raft cmd :=
  mkRaft i n ps false 0 (-1) 0 0 Follower (replicate (Z.to_nat n) 1) (replicate (Z.to_nat n) 0)
    true true [mkLogEntry None 0 0] 0 0 None.

Lemma go_list_eq {A} (l1 l2 : list A) :
  go_len l1 = go_len l2 → (∀ i, 0 ≤ i < go_len l1 → l1.[i] = l2.[i]) → l1 = l2.
Proof.
  unfold go_len. intros Hlen H. apply list_eq_same_length with (length l2); [done|lia|].
  intros i x y Hi Hx Hy. specialize (H (Z.of_nat i)). rewrite !go_index_nat in H. rewrite Hx, Hy in H.
  assert (Some x = Some y) by (apply H; lia). by simplify_eq.
Qed.

Lemma Make_eq n i ps : 0 ≤ n → Make (cmd:=cmd) n i ps = readPersist (ReadRaftState ps) (fresh_raft n i ps).
Proof.
  intros Hn. unfold Make. set (rf0 := mkRaft _ _ _ _ _ _ _ _ _ _ _ _ _ _ _ _ _).
  destruct (for_range_ind (λ k r, r = set_matchIndex (replicate (Z.to_nat n) 0) (set_nextIndex (nextIndex r) rf0) ∧
     go_len (nextIndex r) = n ∧ (∀ p, 0 ≤ p < k → (nextIndex r).[p] = Some 1))
     (λ peer rf, rf ← updateLogIndices peer 0 rf;
            lastLog ← getLatestLog rf;
            nextIndex' ← go_store (nextIndex rf) peer (Index lastLog + 1);
            Some (set_nextIndex nextIndex' rf)) n rf0 Hn) as (rf' & -> & Hrf' & Hlen & Hall).
  - split_and!; [done|simpl; unfold go_len; rewrite length_replicate; lia|lia].
  - intros k r Hk (Er & Hl & Hr). unfold updateLogIndices.
    assert (Hm : matchIndex r = replicate (Z.to_nat n) 0) by (by rewrite Er).
    rewrite Hm. rewrite !go_store_Some by (rewrite ?Hl; autorewrite with go; lia). bind_simpl.
    assert (Hg : getLatestLog (set_nextIndex (<[Z.to_nat k := 0 + 1]> (nextIndex r))
        (set_matchIndex (<[Z.to_nat k := 0]> (replicate (Z.to_nat n) 0)) r)) = Some (mkLogEntry None 0 0)).
    { rewrite Er. done. }
    rewrite Hg. bind_simpl. simpl. rewrite go_store_Some by (autorewrite with go; lia).
    bind_simpl. eexists. split; [done|]. simpl.
    assert (Hrep : <[Z.to_nat k:=0]> (replicate (Z.to_nat n) 0) = replicate (Z.to_nat n) 0).
    { apply list_insert_id. apply lookup_replicate_2. lia. }
    rewrite Hrep. split_and!.
    + rewrite Er. done.
    + unfold go_len in *. by rewrite !length_insert.
    + intros p Hp. unfold go_len in *. rewrite list_insert_insert_eq, go_index_lookup by lia.
      destruct (decide (p = k)) as [->|]; [by rewrite list_lookup_insert_eq by lia|].
      rewrite list_lookup_insert_ne by lia. rewrite <- go_index_lookup by lia. apply Hr. lia.
  - bind_simpl. f_equal. rewrite Hrf'. unfold fresh_raft, rf0, set_matchIndex, set_nextIndex. simpl. f_equal.
    apply go_list_eq.
    + rewrite Hlen. unfold go_len. rewrite length_replicate. lia.
    + intros p Hp. rewrite Hlen in Hp. rewrite Hall by done. rewrite go_index_lookup by lia.
      symmetry. apply lookup_replicate_2. lia.
Qed.

(** A server that never ran: an empty persister gives the initial peer. *)
Lemma Make_init n i :
  0 ≤ i < n → Make (cmd:=cmd) n i MakePersister = Some (fresh_raft n i MakePersister) ∧
              raft_wf n (fresh_raft n i MakePersister) ∧ persisted (fresh_raft n i MakePersister).
Proof.
  intros Hi. rewrite Make_eq by lia. split; [done|]. split; [|done].
  constructor; simpl; try done; unfold go_len; rewrite ?length_replicate; try lia.
  by eexists.
Qed.

(** Crash and restart: the peer that [Make] builds from the persister of [rf] is
    a follower with the persisted term, vote and log, and everything up to the
    snapshot counts as applied. *)
Lemma Make_restart n rf :
  raft_wf n rf →
  ∃ rf', Make n (me rf) (persister rf) = Some rf' ∧ raft_wf n rf' ∧ persisted rf' ∧ stable rf' = stable rf ∧
    me rf' = me rf ∧ peers rf' = peers rf ∧ state rf' = Follower ∧ dead rf' = false ∧
    currentTerm rf' = stable_term rf ∧ voteFor rf' = stable_vote rf ∧ logs rf' = logs rf ∧
    commitIndex rf' = first_index (logs rf) ∧ lastApplied rf' = first_index (logs rf) ∧
    pendingSnapshot rf' = None ∧ persister rf' = persister rf.
Proof.
  intros Hwf. pose proof (wf_me _ _ Hwf) as Hme. pose proof (wf_stable _ _ Hwf) as Hst.
  pose proof (wf_log _ _ Hwf) as Hlog. pose proof (wf_stable_term _ _ Hwf) as Hstt.
  rewrite Make_eq by lia. set (rf0 := fresh_raft n (me rf) (persister rf)).
  set (rf' := set_lastIncludedTerm (lastIncludedTerm rf) (set_lastIncludedIndex (lastIncludedIndex rf)
     (set_commitIndex (first_index (logs rf)) (set_lastApplied (first_index (logs rf))
     (set_logs (logs rf) (set_voteFor (stable_vote rf) (set_currentTerm (stable_term rf) rf0))))))).
  assert (Hrd : readPersist (ReadRaftState (persister rf)) rf0 = Some rf').
  { unfold readPersist, ReadRaftState. unfold stable in Hst.
    destruct (go_len (raftstate (persister rf)) <? 1).
    - injection Hst as E1 E2 E3 E4 E5. unfold rf'. rewrite <- E1, <- E2, <- E3, <- E4, <- E5. done.
    - rewrite Hst. destruct (getFirstLog_wf rf Hlog) as (f & Ef & Hf & _).
      assert (Eg : getFirstLog (set_logs (logs rf) (set_voteFor (stable_vote rf) (set_currentTerm (stable_term rf) rf0)))
        = Some f) by done. rewrite Eg. bind_simpl. by rewrite Hf. }
  exists rf'. split; [done|].
  assert (Hs : stable rf' = stable rf) by done.
  assert (Hs1 : stable_term rf' = stable_term rf) by done. assert (Hs2 : stable_vote rf' = stable_vote rf) by done.
  split; [|split_and!; try done; symmetry; apply Hwf].
  constructor; rewrite ?Hs, ?Hs1, ?Hs2; simpl; try done; try apply Hwf; try lia;
    unfold go_len; rewrite length_replicate; lia.
Qed.

End raft_repl.
