(* ===== verification/RaftProps.v ===== *)
(** * Properties of a single Raft peer

    What each handler and goroutine of raft.go promises to its callers, stated
    on well-formed peers, and the behaviours that the code gets wrong. *)

From S2P Require Import Prelude RaftUtil RaftNode RaftLog RaftWf RaftOps RaftRepl.
Local Open Scope Z_scope.
Local Open Scope go_scope.

(** C38 (QuickSelect is selection).  For every rank in range the loop terminates,
    stays in bounds and returns what sorting the array would put there, whatever
    duplicates the array has. *)
Theorem QuickSelect_sorted_rank a k :
  0 ≤ k < go_len a → QuickSelect a k = (merge_sort Z.le a).[k] ∧ is_Some (QuickSelect a k).
Proof.
  intros Hk. destruct (QuickSelect_kth a k Hk) as (v & -> & Hv).
  rewrite (kth_smallest_merge_sort a k v Hv). eauto.
Qed.

Lemma QuickSelect_sorted_rank_witness :
  QuickSelect [5; 0; 7; 5; 2] 2 = Some 5 ∧ QuickSelect [5; 0; 7; 5; 2] 2 = (merge_sort Z.le [5; 0; 7; 5; 2]).[2].
Proof. split; [reflexivity|]. apply (QuickSelect_sorted_rank [5; 0; 7; 5; 2] 2). split; reflexivity || (vm_compute; congruence). Defined.

Section raft_props.
Context {cmd : Type} `{!Gob (PersistedState cmd)}.
Implicit Types (rf : Raft cmd) (e : LogEntry cmd) (n : Z).

(** (RequestVote).  A vote is granted only in the caller's term, only to a
    candidate whose log is at least as up to date, only if no other vote was
    given in that term, and it is on the persister before the reply is sent; a
    refused request never changes the log or the vote of the current term. *)
Theorem RequestVote_spec n args rf :
  raft_wf n rf →
  ∃ rf' reply, RequestVote args rf = Some (rf', reply) ∧ raft_wf n rf' ∧ logs rf' = logs rf ∧
    rvr_Term reply = currentTerm rf' ∧ currentTerm rf ≤ currentTerm rf' ∧
    (rvr_VoteGranted reply = true →
       currentTerm rf' = rv_Term args ∧ persisted rf' ∧ voteFor rf' = rv_CandidateId args ∧
       up_to_date (rv_LastLogIndex args) (rv_LastLogTerm args) (logs rf) ∧
       (rv_Term args = currentTerm rf → voteFor rf = -1 ∨ voteFor rf = rv_CandidateId args)) ∧
    (rvr_VoteGranted reply = false → stable_term rf' = stable_term rf → stable_vote rf' = stable_vote rf).
Proof.
  intros Hwf. destruct (RequestVote_wf n args rf Hwf) as (rf' & reply & -> & Hwf' & Hr & _ & Hno & Hyes & Ht & Hle).
  exists rf', reply. split_and!; try done; [by apply replica_logs|lia| |].
  - intros Hg. destruct (Hyes Hg) as (_ & H1 & H2 & H3 & _ & _ & H4 & H5). split_and!; try done. intros E. lia.
  - intros Hg Hst. destruct (qs_stable _ _ (Hno Hg)) as [|[_ ?]]; [lia|done].
Qed.

(** C34 (AppendEntry).  An AppendEntry of an old term changes nothing.  Otherwise
    the peer follows the caller's term and answers success exactly when its log
    has the PrevLog entry; then the log holds every entry sent, keeps everything
    up to PrevLogIndex, and the commit index is the larger of the old one and the
    leader's, capped by the log. *)
Theorem AppendEntry_spec n args rf :
  raft_wf n rf → append_args_wf args →
  ∃ rf' reply, AppendEntry args rf = Some (rf', reply) ∧ raft_wf n rf' ∧
    (ae_Term args < currentTerm rf → rf' = rf ∧ aer_Success reply = false) ∧
    (currentTerm rf ≤ ae_Term args →
       currentTerm rf' = ae_Term args ∧ state rf' = Follower ∧
       (aer_Success reply = true ↔ prev_matched args (logs rf)) ∧
       (aer_Success reply = false → logs rf' = logs rf ∧ commitIndex rf' = commitIndex rf) ∧
       (aer_Success reply = true →
          entries_in (logs rf') (ae_Entries args) ∧
          (∀ idx, idx ≤ ae_PrevLogIndex args → log_at (logs rf') idx = log_at (logs rf) idx) ∧
          commitIndex rf' = Z.max (commitIndex rf) (Z.min (ae_LeaderCommit args) (last_index (logs rf'))))).
Proof.
  intros Hwf Hargs. destruct (AppendEntry_wf n args rf Hwf Hargs) as (rf' & reply & -> & Hwf' & _ & Hold & Hnew).
  exists rf', reply. split_and!; [done|done|intros Hlt; by destruct (Hold Hlt) as (? & ? & _)|].
  intros Hge. destruct (Hnew Hge) as [_ _ Hf Ht _ _ _ _ Hmis Hmat]. split; [done|]. split; [done|].
  destruct (decide (prev_matched args (logs rf))) as [Hm|Hm].
  - destruct (Hmat Hm) as (-> & Hmerge & Hc). split; [done|]. split; [done|]. intros _.
    destruct Hm as (p & Hp & Htp). destruct Hargs as [Hs HT]. rewrite <- Htp in Hs, HT.
    pose proof (wf_stable_term _ _ Hwf) as Hst.
    destruct (log_merge_spec (logs rf) (ae_PrevLogIndex args) p (ae_Entries args) (logs rf') (ae_Term args))
      as (_ & _ & _ & _ & _ & Hin & Hkeep); try done; [apply Hwf|lia].
  - destruct (Hmis Hm) as [Hr ->]. injection Hr as R1 R2 _ _ _ _ _.
    split; [done|]. split; [done|]. done.
Qed.

(** (AppendEntry is idempotent).  A retransmitted AppendEntry that already
    succeeded succeeds again and leaves the log as it is. *)
Theorem AppendEntry_idempotent n args rf rf1 r1 :
  raft_wf n rf → append_args_wf args → currentTerm rf ≤ ae_Term args →
  AppendEntry args rf = Some (rf1, r1) → aer_Success r1 = true →
  ∃ rf2 r2, AppendEntry args rf1 = Some (rf2, r2) ∧ aer_Success r2 = true ∧ logs rf2 = logs rf1 ∧
    commitIndex rf2 = commitIndex rf1.
Proof.
  intros Hwf Hargs Hge E Hs.
  destruct (AppendEntry_wf n args rf Hwf Hargs) as (x & y & E' & Hwf1 & _ & _ & Hnew).
  rewrite E in E'. injection E' as <- <-. destruct (Hnew Hge) as [_ _ _ Ht _ _ _ _ Hmis Hmat].
  destruct (decide (prev_matched args (logs rf))) as [Hm|Hm]; [|destruct (Hmis Hm); congruence].
  destruct (Hmat Hm) as (_ & Hmerge & Hc). destruct Hm as (p & Hp & Htp).
  pose proof (wf_stable_term _ _ Hwf) as Hst.
  destruct (log_merge_spec (logs rf) (ae_PrevLogIndex args) p (ae_Entries args) (logs rf1) (ae_Term args))
    as (Hlw & _ & _ & _ & _ & Hin & Hkeep); try done; [apply Hwf|by rewrite Htp; apply Hargs|lia|by rewrite Htp; apply Hargs|].
  assert (Hm1 : prev_matched args (logs rf1)) by (exists p; by rewrite Hkeep).
  destruct (AppendEntry_wf n args rf1 Hwf1 Hargs) as (rf2 & r2 & -> & _ & _ & _ & Hnew2).
  destruct Hnew2 as [_ _ _ _ _ _ _ _ _ Hmat2]; [lia|]. destruct (Hmat2 Hm1) as (Hs2 & Hmerge2 & Hc2).
  assert (Hsame : logs rf2 = logs rf1).
  { destruct Hmerge2 as [[? _]|(es1 & x & es2 & qi & q & Ees & _ & _ & _ & _ & _ & Hconf & _)]; [done|exfalso].
    destruct (Hin x) as (x' & Hx' & Htx); [rewrite Ees; apply elem_of_app; right; by left|]. by apply (Hconf x'). }
  exists rf2, r2. split_and!; [done|done|done|]. rewrite Hc2, Hsame, Hc. lia.
Qed.

(** (Conflict information).  A rejected AppendEntry with a PrevLog inside or
    behind the log tells the leader where to continue: behind the end of a log
    that is too short, or at the first entry of the term that conflicts. *)
Theorem conflict_reply_accurate n args rf rf' reply :
  raft_wf n rf → append_args_wf args → currentTerm rf ≤ ae_Term args →
  first_index (logs rf) ≤ ae_PrevLogIndex args →
  AppendEntry args rf = Some (rf', reply) → aer_Success reply = false →
  (last_index (logs rf) < ae_PrevLogIndex args ∧
   aer_ConflictIndex reply = last_index (logs rf) + 1 ∧ aer_ConflictTerm reply = -1) ∨
  (∃ e c, log_at (logs rf) (ae_PrevLogIndex args) = Some e ∧ Term e ≠ ae_PrevLogTerm args ∧
     aer_ConflictTerm reply = Term e ∧ log_at (logs rf) (aer_ConflictIndex reply) = Some c ∧ Term c = Term e ∧
     (∀ idx x, idx < aer_ConflictIndex reply → log_at (logs rf) idx = Some x → Term x < Term e)).
Proof.
  intros Hwf Hargs Hge Hf E Hs.
  destruct (AppendEntry_wf n args rf Hwf Hargs) as (x & y & E' & _ & _ & _ & Hnew).
  rewrite E in E'. injection E' as <- <-. destruct (Hnew Hge) as [_ _ _ _ _ _ _ _ _ Hmat].
  assert (Hm : ¬ prev_matched args (logs rf)) by (intros Hm; destruct (Hmat Hm); congruence).
  unfold AppendEntry in E. destruct (Z.ltb_spec (ae_Term args) (currentTerm rf)); [lia|].
  destruct (AppendEntry_prologue n (ae_Term args) rf Hwf Hge) as (rf1 & rf2 & E1 & E2 & Hwf3 & _ & Hr & _).
  rewrite E1 in E. simpl in E. rewrite E2 in E. simpl in E.
  set (rf3 := resetElectionTimer rf2) in *. clearbody rf3. pose proof (replica_logs _ _ Hr) as Hl.
  pose proof (wf_log _ _ Hwf3) as Hlog.
  destruct (getFirstLog_wf rf3 Hlog) as (g & Eg & Hg & _). rewrite Eg in E. simpl in E. rewrite Hg, Hl in E.
  destruct (Z.ltb_spec (ae_PrevLogIndex args) (first_index (logs rf))); [lia|].
  destruct (isLogMatched_wf (ae_PrevLogIndex args) (ae_PrevLogTerm args) rf3 Hlog) as (b & Eb & Hb).
  rewrite Eb in E. simpl in E. rewrite Hl in Hb.
  destruct b; [destruct Hm; destruct (proj1 Hb eq_refl) as (p & Hp & Htp); by exists p|]. simpl in E.
  destruct (conflictReply_wf args rf3 Hlog) as (r & Er & _ & _ & Hcase); [by rewrite Hl|].
  rewrite Er in E. simpl in E. injection E as <- <-. rewrite Hl in Hcase.
  destruct Hcase as [|(e & c & He & H1 & H2 & H3 & H4)]; [by left|right].
  exists e, c. split_and!; try done. intros Ht. apply Hm. by exists e.
Qed.

(** C35 (Commit rule, §5.4.2).  A successful AppendEntry reply moves the leader's
    commit index only forward, only to an index that more than half of matchIndex
    has reached, and only onto an entry of the leader's own term. *)
Theorem leader_commit_rule n peer args reply rf :
  raft_wf n rf → 0 ≤ peer < n →
  (isValidLeader (ae_Term args) rf = true → ae_PrevLogIndex args ≤ last_index (logs rf)) →
  ∃ rf', handleAppendReply peer args reply rf = Some rf' ∧ raft_wf n rf' ∧ logs rf' = logs rf ∧
    (commitIndex rf' ≠ commitIndex rf →
       state rf = Leader ∧ currentTerm rf = ae_Term args ∧ aer_Success reply = true ∧
       commitIndex rf < commitIndex rf' ∧
       n / 2 < go_len (filter (λ m, commitIndex rf' ≤ m) (matchIndex rf')) ∧
       ∃ e, log_at (logs rf) (commitIndex rf') = Some e ∧ Term e = currentTerm rf).
Proof.
  intros Hwf Hp Hprev.
  destruct (handleAppendReply_wf n peer args reply rf Hwf Hp Hprev)
    as (rf' & -> & Hwf' & _ & _ & Hl & _ & _ & _ & Hc & _).
  exists rf'. split_and!; try done. intros Hne. destruct (Hc Hne) as (Hv & Hs & Hrule).
  apply andb_true_iff in Hv as [Hst%bool_decide_eq_true Ht%Z.eqb_eq].
  destruct Hrule as [|(Hlt & Hmaj & He)]; [done|]. rewrite (wf_peers _ _ Hwf) in Hmaj. split_and!; done.
Qed.

(** C36 (Crash recovery).  Restarting a well-formed peer from its persister gives
    a well-formed follower with the log, term and vote that were last persisted,
    that considers its snapshot applied and nothing behind it committed. *)
Theorem crash_recovery n rf :
  raft_wf n rf →
  ∃ rf', Make n (me rf) (persister rf) = Some rf' ∧ raft_wf n rf' ∧ persisted rf' ∧
    state rf' = Follower ∧ logs rf' = logs rf ∧ (persisted rf → currentTerm rf' = currentTerm rf ∧ voteFor rf' = voteFor rf) ∧
    commitIndex rf' = first_index (logs rf) ∧ lastApplied rf' = first_index (logs rf).
Proof.
  intros Hwf. destruct (Make_restart n rf Hwf)
    as (rf' & -> & Hwf' & Hp & _ & _ & _ & Hs & _ & Ht & Hv & Hl & Hc & Ha & _).
  exists rf'. split_and!; try done. intros Hpr. destruct (persisted_stable _ Hpr). split; congruence.
Qed.

(** ** The applier run to the end *)

(** The goroutine of [applier] until it waits. *)
Fixpoint run_applier (fuel : nat) (rf : Raft cmd) : option (Raft cmd * list (ApplyMsg cmd)) :=
  match fuel with
  | O => None
  | S fuel' =>
      r ← applier rf;
      match (r : Raft cmd * ApplierAction cmd) with
      | (rf, ApplierSend msg) =>
          r ← run_applier fuel' rf;
          let '(rf, msgs) := (r : Raft cmd * list (ApplyMsg cmd)) in Some (rf, msg :: msgs)
      | (rf, ApplierContinue) => run_applier fuel' rf
      | (rf, _) => Some (rf, [])
      end
  end.

Lemma applier_next n rf :
  raft_wf n rf → dead rf = false → pendingSnapshot rf = None → lastApplied rf < commitIndex rf →
  commitIndex rf ≤ last_index (logs rf) →
  ∃ e, log_at (logs rf) (lastApplied rf + 1) = Some e ∧
    applier rf = Some (set_lastApplied (lastApplied rf + 1) rf, ApplierSend (CommandMsg (Command e) (lastApplied rf + 1))).
Proof.
  intros Hwf Hd Hp Hlt Hle. pose proof (wf_log _ _ Hwf) as Hlog. pose proof (wf_applied _ _ Hwf) as Happ.
  destruct (log_at_is_Some (logs rf) (lastApplied rf + 1)) as [e He]; [lia|]. exists e. split; [done|].
  unfold applier, killed. rewrite Hd, Hp. destruct (Z.leb_spec (commitIndex rf) (lastApplied rf)); [lia|]. simpl.
  destruct (getFirstLog_wf rf Hlog) as (f & -> & Hf & _). bind_simpl. rewrite Hf.
  destruct (Z.ltb_spec (lastApplied rf) (first_index (logs rf))); [lia|].
  destruct (Z.ltb_spec (commitIndex rf) (lastApplied rf + 1)); [lia|].
  unfold last_index in Hle.
  destruct (Z.ltb_spec (lastApplied rf + 1 - first_index (logs rf)) 0), (Z.leb_spec (go_len (logs rf)) (lastApplied rf + 1 - first_index (logs rf))); try lia.
  simpl. destruct (log_at_Some _ _ _ Hlog He) as (Hie & _ & _). unfold log_at in He. rewrite He. bind_simpl. by rewrite Hie.
Qed.

(** C37 (The applier delivers everything, in order, once).  A running peer with
    entries committed and no pending snapshot delivers exactly the commands from
    lastApplied + 1 to commitIndex, in index order, and then waits. *)
Theorem applier_delivers_all n rf :
  raft_wf n rf → dead rf = false → pendingSnapshot rf = None → commitIndex rf ≤ last_index (logs rf) →
  ∃ rf' msgs, run_applier (S (Z.to_nat (commitIndex rf - lastApplied rf))) rf = Some (rf', msgs) ∧
    raft_wf n rf' ∧ lastApplied rf' = commitIndex rf ∧ commitIndex rf' = commitIndex rf ∧ logs rf' = logs rf ∧
    go_len msgs = commitIndex rf - lastApplied rf ∧
    ∀ k msg, msgs.[k] = Some msg → ∃ e, log_at (logs rf) (lastApplied rf + 1 + k) = Some e ∧
      msg = CommandMsg (Command e) (lastApplied rf + 1 + k).
Proof.
  remember (Z.to_nat (commitIndex rf - lastApplied rf)) as d eqn:Hd. revert rf Hd.
  induction d as [|d IH]; intros rf Hd Hwf Hdead Hp Hle; pose proof (wf_applied _ _ Hwf) as Happ.
  - exists rf, []. simpl. unfold applier, killed. rewrite Hdead, Hp.
    destruct (Z.leb_spec (commitIndex rf) (lastApplied rf)); [|lia]. simpl.
    split_and!; try done; [lia|unfold go_len; simpl; lia|]. intros k msg Hk%go_index_Some_range. unfold go_len in Hk. simpl in Hk. lia.
  - destruct (applier_next n rf) as (e & He & Ea); try done; [lia|].
    destruct (applier_wf n rf Hwf) as (x & act & E & Hwf' & _). rewrite Ea in E. injection E as <- <-.
    destruct (IH (set_lastApplied (lastApplied rf + 1) rf)) as (rf' & msgs & Er & Hw & Ha & Hc & Hl & Hlen & Hm);
      simpl in *; try done; [lia|].
    exists rf', (CommandMsg (Command e) (lastApplied rf + 1) :: msgs). rewrite Ea. bind_simpl. simpl in Er. rewrite Er. bind_simpl.
    split_and!; try done.
    + unfold go_len in *. simpl. lia.
    + intros k msg Hk. destruct (decide (k = 0)) as [->|Hk0].
      * rewrite go_index_lookup in Hk by lia. simpl in Hk. injection Hk as <-. exists e. rewrite Z.add_0_r. done.
      * pose proof (go_index_Some_range _ _ _ Hk) as Hr. unfold go_len in Hr. simpl in Hr.
        rewrite go_index_lookup in Hk by lia. replace (Z.to_nat k) with (S (Z.to_nat (k - 1))) in Hk by lia.
        simpl in Hk. destruct (Hm (k - 1) msg) as (e' & He' & ->); [by rewrite go_index_lookup by lia|].
        exists e'. by replace (lastApplied rf + 1 + k) with (lastApplied rf + 1 + 1 + (k - 1)) by lia.
Qed.

(** ** Behaviours that differ from what the code means to do *)

(** (InstallSnapShot forgets to persist the term).  A snapshot RPC of a newer
    term whose snapshot is already applied raises currentTerm in memory only: a
    crash right after the reply brings the old term back. *)
Theorem InstallSnapShot_term_not_durable n args rf :
  raft_wf n rf → 0 ≤ is_LastIncludedTerm args ≤ is_Term args → currentTerm rf < is_Term args →
  is_LastIncludedIndex args ≤ lastApplied rf →
  ∃ rf' rf2, InstallSnapShot args rf = Some (rf', mkInstallSnapShotReply (currentTerm rf)) ∧
    currentTerm rf' = is_Term args ∧ ¬ persisted rf' ∧
    Make n (me rf') (persister rf') = Some rf2 ∧ currentTerm rf2 < is_Term args.
Proof.
  intros Hwf Ht Hlt Hidx. destruct (InstallSnapShot_wf n args rf Hwf Ht) as (rf' & -> & Hwf' & _ & Hnew).
  destruct Hnew as [Hq _ Hct Hstale _]; [lia|]. destruct (Hstale Hidx) as [_ Hst].
  assert (Est : stable_term rf' = stable_term rf) by (unfold stable_term; by rewrite Hst).
  pose proof (wf_stable_term _ _ Hwf).
  destruct (Make_restart n rf' Hwf') as (rf2 & E2 & _ & _ & _ & _ & _ & _ & _ & Ht2 & _).
  exists rf', rf2. split_and!; try done; [|lia]. intros [E _]%persisted_stable. lia.
Qed.

(** The leader [ld] will retry entry [F] with [fl], which has compacted its log
    up to [F]. *)
Record stuck n (peer F : Z) (ld fl : Raft cmd) : Prop := {
  st_ld : raft_wf n ld;
  st_fl : raft_wf n fl;
  st_leader : state ld = Leader;
  st_term : currentTerm fl ≤ currentTerm ld;
  st_peer : 0 ≤ peer < n;
  st_next : (nextIndex ld).[peer] = Some F;
  st_compacted : first_index (logs fl) = F;
  st_held : first_index (logs ld) < F ≤ last_index (logs ld) + 1
}.

Lemma AppendEntry_below_snapshot n args rf :
  raft_wf n rf → currentTerm rf ≤ ae_Term args → ae_PrevLogIndex args < first_index (logs rf) →
  ∃ rf', AppendEntry args rf =
      Some (rf', mkAppendEntryReply (ae_Term args) false (first_index (logs rf)) (-1)) ∧
    raft_wf n rf' ∧ replica rf' = replica rf ∧ currentTerm rf' = ae_Term args.
Proof.
  intros Hwf Hge Hlt. unfold AppendEntry. destruct (Z.ltb_spec (ae_Term args) (currentTerm rf)); [lia|].
  destruct (AppendEntry_prologue n (ae_Term args) rf Hwf Hge) as (rf1 & rf2 & -> & E2 & Hwf3 & _ & Hr & _ & Ht & _).
  simpl. rewrite E2. simpl. set (rf3 := resetElectionTimer rf2) in *. clearbody rf3.
  destruct (getFirstLog_wf rf3 (wf_log _ _ Hwf3)) as (f & -> & Hf & _). simpl. rewrite Hf, (replica_logs _ _ Hr).
  destruct (Z.ltb_spec (ae_PrevLogIndex args) (first_index (logs rf))); [|lia].
  exists rf3. unfold rejectAppendEntry. by rewrite Ht.
Qed.

(** C39 (Back-off livelock).  A follower rejects an AppendEntry whose PrevLogIndex
    is below its snapshot and answers with the snapshot's index; the leader, whose
    log still has that entry, retries with PrevLogIndex one below it and is
    rejected again.  A full round of send, handle and reply leads back to the same
    situation, with nothing replicated. *)
Theorem backoff_livelock n peer F ld fl :
  stuck n peer F ld fl →
  ∃ args fl' reply ld', doSendAppendEntry peer ld = Some (SendAppendEntry args) ∧
    AppendEntry args fl = Some (fl', reply) ∧ handleAppendReply peer args reply ld = Some ld' ∧
    stuck n peer F ld' fl' ∧ aer_Success reply = false ∧ logs fl' = logs fl ∧ commitIndex fl' = commitIndex fl ∧
    logs ld' = logs ld ∧ commitIndex ld' = commitIndex ld.
Proof.
  intros [Hld Hfl Hl Ht Hp Hn Hc Hh]. unfold doSendAppendEntry. rewrite decide_True by done. rewrite Hn. bind_simpl.
  destruct (getFirstLog_wf ld (wf_log _ _ Hld)) as (f & -> & Hf & _). bind_simpl. rewrite Hf.
  destruct (Z.ltb_spec (F - 1) (first_index (logs ld))); [lia|].
  destruct (genAppendEntryArgs_wf n (F - 1) ld Hld) as (args & -> & _ & Hat & _ & _ & Hprev); [lia|]. bind_simpl.
  destruct (AppendEntry_below_snapshot n args fl Hfl) as (fl' & Ea & Hfl' & Hr & Ht'); [lia|lia|].
  destruct (rollBackToConflictTerm_wf n peer args
    (mkAppendEntryReply (ae_Term args) false (first_index (logs fl)) (-1)) ld Hld Hp)
    as (ld' & v & Er & Ev & Eld & Hld' & [Hq Hrl] & _); [lia|].
  exists args, fl', (mkAppendEntryReply (ae_Term args) false (first_index (logs fl)) (-1)), ld'.
  assert (Hv : v = F) by (unfold conflictNextIndex in Ev; simpl in Ev; injection Ev as <-; done).
  assert (Hh' : handleAppendReply peer args (mkAppendEntryReply (ae_Term args) false (first_index (logs fl)) (-1)) ld = Some ld').
  { unfold handleAppendReply, isValidLeader. rewrite bool_decide_true, Hat, Z.eqb_refl by done. simpl.
    rewrite Z.ltb_irrefl. rewrite <- Hat. done. }
  injection Hr as R1 R2 _ _ _ _ _. injection Hrl as L1 L2 _ _ _ _ _.
  split_and!; try done. constructor; try done; rewrite ?R1, ?L1, ?Ht', ?Hat; try done; subst ld'; simpl; try done; try lia.
  rewrite go_index_lookup by lia. pose proof (wf_next _ _ Hld) as Hlen. unfold go_len in Hlen.
  rewrite list_lookup_insert_eq by lia. f_equal. lia.
Qed.
End raft_props.
