(* ===== verification/Cluster.v ===== *)
(** * A cluster of Raft peers over labrpc

    [World] is a set of peers running the code of raft.go, the RPC calls in
    flight, the counters captured by the vote goroutines and what the appliers
    have delivered.  An [Event] is one atomic action: a timer that fires, a
    goroutine that sends, the network that delivers a request or a reply or
    loses either, a client or the service that calls in, the applier, a call of
    Kill, a crash followed by a restart.  [step] runs the event; [Panic] is a Go panic.

    Calls follow labrpc.go: a request is handled at most once, its reply is
    handed to the calling goroutine at most once, and any of the two may be lost
    or arbitrarily delayed.  The goroutines of a crashed peer never run again,
    but requests they sent may still arrive. *)

From S2P Require Import Prelude RaftUtil RaftNode RaftLog RaftWf RaftOps RaftRepl.
Local Open Scope Z_scope.
Local Open Scope go_scope.

(** ** Outcomes *)

Inductive outcome (A : Type) :=
| Next (a : A)
| Disabled
| Panic.
Arguments Next {A} a.
Arguments Disabled {A}.
Arguments Panic {A}.

Definition outcome_bind {A B} (m : outcome A) (f : A → outcome B) : outcome B :=
  match m with
  | Next a => f a
  | Disabled => Disabled
  | Panic => Panic
  end.

Notation "x <~ m ;; k" := (outcome_bind m (λ x, k))
  (at level 100, m at next level, right associativity) : go_scope.

(** A lookup that fails disables the event; a Go function that fails panics. *)
Definition enabled {A} (o : option A) : outcome A :=
  match o with Some a => Next a | None => Disabled end.
Definition run_go {A} (o : option A) : outcome A :=
  match o with Some a => Next a | None => Panic end.

Section cluster.
Context {cmd : Type} `{!Gob (PersistedState cmd)}.

Inductive Request :=
| ReqVote (args : RequestVoteArgs) (election : nat)
| ReqAppend (args : AppendEntryArgs cmd)
| ReqSnapshot (args : InstallSnapShotArgs).

Inductive Reply :=
| RepVote (reply : RequestVoteReply)
| RepAppend (reply : AppendEntryReply)
| RepSnapshot (reply : InstallSnapShotReply).

(** A goroutine blocked in ClientEnd.Call: who calls whom, with what, the reply
    once the handler ran, and whether the calling process is still running. *)
Record Call := mkCall {
  caller : Z;
  callee : Z;
  request : Request;
  reply : option Reply;
  live : bool
}.

(** A position of a log: an index and the term of the entry there. *)
Definition point : Type := Z * Z.

(** History of the run, an auxiliary variable that no code reads: campaigns with
    the end of the candidate's log, votes cast, elections won, entries appended
    by leaders (with the term of the entry before), and log positions that a
    peer confirmed to the leader of a term. *)
Inductive HistEvent :=
| HCampaign (node term : Z) (tip : point)
| HVote (voter term candidate : Z)
| HElected (node term : Z)
| HStart (node : Z) (entry : LogEntry cmd) (prevTerm : Z)
| HAck (node term : Z) (tip : point).

(** The position an AppendEntry brings the log to. *)
Definition append_tip (args : AppendEntryArgs cmd) : point :=
  (ae_PrevLogIndex args + go_len (ae_Entries args),
   default (ae_PrevLogTerm args) (Term <$> last (ae_Entries args))).

Record World := mkWorld {
  nodes : list (Raft cmd);
  calls : gmap nat Call;
  nextCall : nat;
  ballots : gmap nat Z;        (* grantedVotes of each election *)
  nextElection : nat;
  delivered : list (Z * ApplyMsg cmd);  (* newest first *)
  history : list HistEvent
}.

Definition set_nodes v w := mkWorld v (calls w) (nextCall w) (ballots w) (nextElection w) (delivered w) (history w).
Definition set_calls v w := mkWorld (nodes w) v (nextCall w) (ballots w) (nextElection w) (delivered w) (history w).
Definition set_ballots v w := mkWorld (nodes w) (calls w) (nextCall w) v (nextElection w) (delivered w) (history w).
Definition record h w := mkWorld (nodes w) (calls w) (nextCall w) (ballots w) (nextElection w) (delivered w) (h :: history w).
Definition deliver i msg w := mkWorld (nodes w) (calls w) (nextCall w) (ballots w) (nextElection w) ((i, msg) :: delivered w) (history w).

Definition set_node (i : Z) (rf : Raft cmd) (w : World) : World :=
  set_nodes (<[Z.to_nat i := rf]> (nodes w)) w.

(** [go func() { ... Call(...) ... }()]: a new goroutine with its request. *)
Definition add_call (c : Call) (w : World) : World :=
  mkWorld (nodes w) (<[nextCall w := c]> (calls w)) (S (nextCall w)) (ballots w) (nextElection w)
    (delivered w) (history w).

(** [for peer := range rf.peers { if peer == rf.me { continue }; go ... }] *)
Definition send_vote (i : Z) (args : RequestVoteArgs) (w : World) (peer : Z) : World :=
  if peer =? i then w else add_call (mkCall i peer (ReqVote args (nextElection w)) None true) w.

Definition broadcast_vote (i : Z) (args : RequestVoteArgs) (n : Z) (w : World) : World :=
  foldl (send_vote i args) w (seqZ 0 n).

Definition new_election (w : World) : World :=
  mkWorld (nodes w) (calls w) (nextCall w) (ballots w) (S (nextElection w)) (delivered w) (history w).

(** labgob omits zero values: an empty []byte arrives as nil. *)
Definition wire_data (d : option bytes) : option bytes :=
  match d with Some [] => None | _ => d end.

Definition wire_snapshot (a : InstallSnapShotArgs) : InstallSnapShotArgs :=
  mkInstallSnapShotArgs (is_Term a) (is_LeaderId a) (is_LastIncludedIndex a) (is_LastIncludedTerm a)
    (wire_data (is_Data a)).

Inductive Event :=
| EvElection (i : Z)
| EvHeartbeat (i : Z)
| EvSend (i peer : Z)
| EvHandle (id : nat)
| EvReturn (id : nat)
| EvDrop (id : nat)
| EvStart (i : Z) (command : option cmd)
| EvSnapshot (i index : Z) (snapshot : option bytes)
| EvApply (i : Z)
| EvKill (i : Z)
| EvCrash (i : Z).

(** The election timer of [i] fires. *)
Definition step_election (i : Z) (w : World) : outcome World :=
  rf <~ enabled (nodes w).[i];;
  r <~ run_go (ticker_election rf);;
  let '(rf', args) := r in
  let w := set_node i rf' w in
  let w := record (HVote i (rv_Term args) (rv_CandidateId args)) w in
  let w := record (HCampaign i (rv_Term args) (rv_LastLogIndex args, rv_LastLogTerm args)) w in
  let w := set_ballots (<[nextElection w := 1]> (ballots w)) w in
  Next (new_election (broadcast_vote i args (peers rf') w)).

(** A goroutine of [i] (a heartbeat or the replicator of [peer]) reaches
    [doSendAppendEntry]. *)
Definition step_send (i peer : Z) (w : World) : outcome World :=
  rf <~ enabled (nodes w).[i];;
  if (peer =? i) || (peer <? 0) || (peers rf <=? peer) then Disabled
  else
    req <~ run_go (doSendAppendEntry peer rf);;
    match req with
    | SendNothing => Next w
    | SendInstallSnapShot args => Next (add_call (mkCall i peer (ReqSnapshot (wire_snapshot args)) None true) w)
    | SendAppendEntry args => Next (add_call (mkCall i peer (ReqAppend args) None true) w)
    end.

(** The request of call [id] reaches its callee. *)
Definition step_handle (id : nat) (w : World) : outcome World :=
  c <~ enabled (calls w !! id);;
  rf <~ enabled (nodes w).[callee c];;
  match reply c with
  | Some _ => Disabled
  | None =>
      match request c with
      | ReqVote args el =>
          r <~ run_go (RequestVote args rf);;
          let '(rf', r) := r in
          let w := set_node (callee c) rf' w in
          let w := if rvr_VoteGranted r
                   then record (HVote (callee c) (rv_Term args) (rv_CandidateId args)) w else w in
          Next (set_calls (<[id := mkCall (caller c) (callee c) (request c) (Some (RepVote r)) (live c)]> (calls w)) w)
      | ReqAppend args =>
          r <~ run_go (AppendEntry args rf);;
          let '(rf', r) := r in
          let w := set_node (callee c) rf' w in
          let w := if aer_Success r then record (HAck (callee c) (ae_Term args) (append_tip args)) w else w in
          Next (set_calls (<[id := mkCall (caller c) (callee c) (request c) (Some (RepAppend r)) (live c)]> (calls w)) w)
      | ReqSnapshot args =>
          r <~ run_go (InstallSnapShot args rf);;
          let '(rf', r) := r in
          let w := set_node (callee c) rf' w in
          Next (set_calls (<[id := mkCall (caller c) (callee c) (request c) (Some (RepSnapshot r)) (live c)]> (calls w)) w)
      end
  end.

(** The reply of call [id] reaches the goroutine that made the call. *)
Definition step_return (id : nat) (w : World) : outcome World :=
  c <~ enabled (calls w !! id);;
  rf <~ enabled (nodes w).[caller c];;
  if negb (live c) then Disabled
  else
    let w := set_calls (delete id (calls w)) w in
    match request c, reply c with
    | ReqVote args el, Some (RepVote r) =>
        g <~ enabled (ballots w !! el);;
        r <~ run_go (handleVoteReply args r g rf);;
        let '(rf', g') := r in
        let w := set_ballots (<[el := g']> (ballots w)) (set_node (caller c) rf' w) in
        Next (if decide (state rf = Candidate ∧ state rf' = Leader)
              then record (HElected (caller c) (currentTerm rf')) w else w)
    | ReqAppend args, Some (RepAppend r) =>
        rf' <~ run_go (handleAppendReply (callee c) args r rf);;
        Next (set_node (caller c) rf' w)
    | ReqSnapshot args, Some (RepSnapshot r) =>
        rf' <~ run_go (handleSnapShotReply (callee c) args r rf);;
        Next (set_node (caller c) rf' w)
    | _, _ => Disabled
    end.

Definition step_start (i : Z) (command : option cmd) (w : World) : outcome World :=
  rf <~ enabled (nodes w).[i];;
  r <~ run_go (Start command rf);;
  let '(rf', r) := r in
  let w := set_node i rf' w in
  match r with
  | (index, term, true) =>
      let w := record (HStart i (mkLogEntry command term index) (last_term (logs rf))) w in
      Next (record (HAck i term (index, term)) w)
  | _ => Next w
  end.

(** The service snapshots only what it has applied. *)
Definition step_snapshot (i index : Z) (snapshot : option bytes) (w : World) : outcome World :=
  rf <~ enabled (nodes w).[i];;
  if lastApplied rf <? index then Disabled
  else rf' <~ run_go (Snapshot index snapshot rf);; Next (set_node i rf' w).

Definition step_apply (i : Z) (w : World) : outcome World :=
  rf <~ enabled (nodes w).[i];;
  r <~ run_go (applier rf);;
  let '(rf', act) := r in
  let w := set_node i rf' w in
  match act with
  | ApplierSend msg => Next (deliver i msg w)
  | _ => Next w
  end.

(** The process dies and is started again on the same persister. *)
Definition orphan (i : Z) (c : Call) : Call :=
  if caller c =? i then mkCall (caller c) (callee c) (request c) (reply c) false else c.

Definition step_crash (i : Z) (w : World) : outcome World :=
  rf <~ enabled (nodes w).[i];;
  rf' <~ run_go (Make (peers rf) (me rf) (persister rf));;
  Next (set_calls (orphan i <$> calls w) (set_node i rf' w)).

Definition step (ev : Event) (w : World) : outcome World :=
  match ev with
  | EvElection i => step_election i w
  | EvHeartbeat i => rf <~ enabled (nodes w).[i];; Next (set_node i (ticker_heartbeat rf).1 w)
  | EvSend i peer => step_send i peer w
  | EvHandle id => step_handle id w
  | EvReturn id => step_return id w
  | EvDrop id => Next (set_calls (delete id (calls w)) w)
  | EvStart i command => step_start i command w
  | EvSnapshot i index snapshot => step_snapshot i index snapshot w
  | EvApply i => step_apply i w
  | EvKill i => rf <~ enabled (nodes w).[i];; Next (set_node i (Kill rf) w)
  | EvCrash i => step_crash i w
  end.

Fixpoint run (evs : list Event) (w : World) : outcome World :=
  match evs with
  | [] => Next w
  | ev :: evs => w' <~ step ev w;; run evs w'
  end.

(** [n] servers with empty persisters. *)
Definition init_world (n : nat) : World :=
  mkWorld ((λ i, fresh_raft (Z.of_nat n) (Z.of_nat i) MakePersister) <$> seq 0 n) ∅ 0 ∅ 0 [] [].

Inductive reachable (n : nat) : World → Prop :=
| reachable_init : reachable n (init_world n)
| reachable_step w ev w' : reachable n w → step ev w = Next w' → reachable n w'.

End cluster.

Arguments World : clear implicits.
Arguments Call : clear implicits.
Arguments Request : clear implicits.
Arguments HistEvent : clear implicits.
Arguments Event : clear implicits.
