(* ===== verification/LogTree.v ===== *)
(** * The tree of log entries

    Every entry a leader ever appended hangs below the entry that was last in
    the leader's log at that time.  The entries of a run thus form a tree of
    positions (index, term) with root (0, 0), and every log of the cluster is a
    path of it.  [anc] is the ancestor order of the tree.  What makes it work is
    [tree_ok]: a position is created once, by the leader of its term, and the
    entries of a term form one chain that starts at the end of the log with
    which that leader was elected. *)

From S2P Require Import Prelude RaftUtil RaftNode RaftLog Cluster.
Local Open Scope Z_scope.
Local Open Scope go_scope.

Section log_tree.
Context {cmd : Type}.
Implicit Types (h : list (HistEvent cmd)) (e : LogEntry cmd) (a b c m : point).

(** A position of the tree: the root or an entry some leader appended. *)
Definition in_tree h m : Prop :=
  m = (0, 0) ∨ ∃ j e p, HStart j e p ∈ h ∧ m = (Index e, Term e).

Inductive anc h a : point → Prop :=
| anc_refl : anc h a a
| anc_step j e p : HStart j e p ∈ h → anc h a (Index e - 1, p) → anc h a (Index e, Term e).

Record tree_ok h : Prop := {
  tk_unique j e p j' e' p' : HStart j e p ∈ h → HStart j' e' p' ∈ h →
    Index e = Index e' → Term e = Term e' → e = e' ∧ p = p';
  tk_entry j e p : HStart j e p ∈ h → HElected j (Term e) ∈ h ∧ 1 ≤ Index e ∧ 0 ≤ p ≤ Term e;
  tk_parent j e p : HStart j e p ∈ h →
    HCampaign j (Term e) (Index e - 1, p) ∈ h ∨
    (p = Term e ∧ ∃ e' p', HStart j e' p' ∈ h ∧ Index e' = Index e - 1 ∧ Term e' = Term e);
  tk_campaign j t c c' : HCampaign j t c ∈ h → HCampaign j t c' ∈ h → c = c';
  tk_campaign_tip j t c : HCampaign j t c ∈ h → in_tree h c ∧ c.2 < t;
  tk_leader j j' t : HElected j t ∈ h → HElected j' t ∈ h → j = j';
  tk_elected j t : HElected j t ∈ h → ∃ c, HCampaign j t c ∈ h
}.

(** The log with which the leader of term [t] was elected ends at [c]. *)
Definition leader_tip h (t : Z) c : Prop := ∃ j, HElected j t ∈ h ∧ HCampaign j t c ∈ h.

(** [m] is on the log of the leader of term [t]: below its end at the election,
    or appended by this leader. *)
Definition on_leader h (t : Z) m : Prop :=
  ∃ c, leader_tip h t c ∧ (anc h m c ∨ (m.2 = t ∧ in_tree h m)).

(** ** Ancestors *)

Lemma anc_trans h a b c : anc h a b → anc h b c → anc h a c.
Proof. intros Hab. induction 1; [done|]. by eapply anc_step. Qed.

Lemma anc_mono h h' a b : h ⊆ h' → anc h a b → anc h' a b.
Proof. intros Hsub. induction 1; [constructor|]. eapply anc_step; [by apply Hsub|done]. Qed.

Lemma anc_inv h a b :
  anc h a b → a = b ∨ ∃ j e p, HStart j e p ∈ h ∧ b = (Index e, Term e) ∧ anc h a (Index e - 1, p).
Proof. intros [|j e p Hin Hanc]; [by left|right]. by exists j, e, p. Qed.

Lemma in_tree_mono h h' m : h ⊆ h' → in_tree h m → in_tree h' m.
Proof. intros Hsub [->|(j & e & p & Hin & ->)]; [by left|right]. exists j, e, p. auto. Qed.

#[global] Instance anc_preorder h : PreOrder (anc h).
Proof. split; [intros a; constructor|intros a b c; apply anc_trans]. Qed.

Section tree.
Context h (Hh : tree_ok h).

Lemma anc_le a b : anc h a b → a.1 ≤ b.1 ∧ a.2 ≤ b.2.
Proof.
  induction 1 as [|j e p Hin Hanc IH]; [done|]. destruct (tk_entry _ Hh _ _ _ Hin). simpl in *. lia.
Qed.

Lemma anc_same_index a b : anc h a b → a.1 = b.1 → a = b.
Proof.
  intros [->|(j & e & p & Hin & -> & Hanc)]%anc_inv; [done|]. apply anc_le in Hanc. simpl in *. lia.
Qed.

(** Two ancestors of one position are ordered by their indexes. *)
Lemma anc_linear a b c : anc h a c → anc h b c → a.1 ≤ b.1 → anc h a b.
Proof.
  intros Hac Hbc Hle. induction Hbc as [|j e p Hin Hbc IH]; [done|].
  apply IH. apply anc_inv in Hac as [->|(j' & e' & p' & Hin' & E & Hac')].
  - apply anc_le in Hbc. simpl in *. lia.
  - injection E as E1 E2. symmetry in E1, E2. by destruct (tk_unique _ Hh _ _ _ _ _ _ Hin' Hin E1 E2) as [-> ->].
Qed.

Lemma anc_antisym a b : anc h a b → anc h b a → a = b.
Proof. intros Hab Hba. apply anc_same_index; [done|]. apply anc_le in Hab, Hba. lia. Qed.

Lemma in_tree_entry j e p : HStart j e p ∈ h → in_tree h (Index e, Term e).
Proof. intros Hin. right. by exists j, e, p. Qed.

Lemma in_tree_parent j e p : HStart j e p ∈ h → in_tree h (Index e - 1, p).
Proof.
  intros Hin. destruct (tk_parent _ Hh _ _ _ Hin) as [Hc|(-> & e' & p' & Hin' & <- & <-)].
  - by destruct (tk_campaign_tip _ Hh _ _ _ Hc).
  - by eapply in_tree_entry.
Qed.

Lemma in_tree_anc a b : anc h a b → in_tree h b → in_tree h a.
Proof.
  induction 1 as [|j e p Hin Hanc IH]; [done|]. intros _. apply IH. by eapply in_tree_parent.
Qed.

Lemma in_tree_bounds m : in_tree h m → 0 ≤ m.1 ∧ 0 ≤ m.2.
Proof. intros [->|(j & e & p & Hin & ->)]; [done|]. destruct (tk_entry _ Hh _ _ _ Hin). simpl. lia. Qed.

(** ** The chain of a term *)

Lemma leader_tip_unique t c c' : leader_tip h t c → leader_tip h t c' → c = c'.
Proof.
  intros (j & He & Hc) (j' & He' & Hc'). destruct (tk_leader _ Hh _ _ _ He He').
  by eapply (tk_campaign _ Hh).
Qed.

Lemma leader_tip_term t c : leader_tip h t c → in_tree h c ∧ c.2 < t.
Proof. intros (j & _ & Hc). by eapply (tk_campaign_tip _ Hh). Qed.

Lemma entry_leader j e p : HStart j e p ∈ h → ∃ c, leader_tip h (Term e) c.
Proof.
  intros Hin. destruct (tk_entry _ Hh _ _ _ Hin) as [He _]. destruct (tk_elected _ Hh _ _ He) as [c Hc].
  by exists c, j.
Qed.

(** Everything a leader appends is behind the log it was elected with. *)
Lemma tip_before_entry j e p c :
  HStart j e p ∈ h → leader_tip h (Term e) c → anc h c (Index e, Term e) ∧ c.1 < Index e.
Proof.
  intros Hin Htip. remember (Z.to_nat (Index e)) as k eqn:Hk. revert e p Hin Htip Hk.
  induction (lt_wf k) as [k _ IH]; intros e p Hin Htip ->.
  destruct (tk_entry _ Hh _ _ _ Hin) as (He & Hi & _).
  destruct (tk_parent _ Hh _ _ _ Hin) as [Hc|(-> & e' & p' & Hin' & Hi' & Ht')].
  - rewrite (leader_tip_unique _ c (Index e - 1, p) Htip); [|by exists j].
    split; [|simpl; lia]. eapply anc_step; [done|constructor].
  - destruct (IH (Z.to_nat (Index e'))) with (e := e') (p := p') as [Ha Hlt]; try done.
    + destruct (tk_entry _ Hh _ _ _ Hin') as (_ & ? & _). lia.
    + by rewrite Ht'.
    + split; [|lia]. eapply anc_step; [done|]. by rewrite <- Hi', <- Ht'.
Qed.

(** Above an entry of a term: entries of this term, then the leader's old log. *)
Lemma entry_anc j e p c a :
  HStart j e p ∈ h → leader_tip h (Term e) c → anc h a (Index e, Term e) →
  anc h a c ∨ (a.2 = Term e ∧ in_tree h a).
Proof.
  intros Hin Htip Ha. remember (Z.to_nat (Index e)) as k eqn:Hk. revert e p Hin Htip Ha Hk.
  induction (lt_wf k) as [k _ IH]; intros e p Hin Htip Ha ->.
  apply anc_inv in Ha as [->|(j' & e' & p' & Hin' & E & Ha)]; [right; split; [done|by eapply in_tree_entry]|].
  injection E as E1 E2. symmetry in E1, E2. destruct (tk_unique _ Hh _ _ _ _ _ _ Hin' Hin E1 E2) as [-> ->].
  destruct (tk_parent _ Hh _ _ _ Hin) as [Hc|(-> & e1 & p1 & Hin1 & Hi1 & Ht1)].
  - left. destruct (tk_entry _ Hh _ _ _ Hin) as [He _].
    rewrite (leader_tip_unique _ c (Index e - 1, p) Htip); [done|by exists j].
  - destruct (tk_entry _ Hh _ _ _ Hin1) as (_ & ? & _). rewrite <- Ht1 in *.
    apply (IH (Z.to_nat (Index e1))) with (p := p1); try done; [lia|]. by rewrite Hi1.
Qed.

(** The entries of a term are ordered by their indexes. *)
Lemma term_chain j e p j' e' p' :
  HStart j e p ∈ h → HStart j' e' p' ∈ h → Term e = Term e' → Index e ≤ Index e' →
  anc h (Index e, Term e) (Index e', Term e').
Proof.
  intros Hin Hin' Ht Hle. remember (Z.to_nat (Index e' - Index e)) as k eqn:Hk. revert e' p' Hin' Ht Hle Hk.
  induction k as [|k IH]; intros e' p' Hin' Ht Hle Hk.
  - replace (Index e') with (Index e) by lia. rewrite Ht. constructor.
  - destruct (entry_leader _ _ _ Hin) as [c Hc]. destruct (tip_before_entry _ _ _ _ Hin Hc) as [_ Hlt].
    destruct (tk_entry _ Hh _ _ _ Hin') as (He' & _).
    destruct (tk_parent _ Hh _ _ _ Hin') as [Hc'|(-> & e1 & p1 & Hin1 & Hi1 & Ht1)].
    + assert (leader_tip h (Term e) (Index e' - 1, p')) as Htip by (rewrite Ht; by exists j').
      rewrite (leader_tip_unique _ _ _ Hc Htip) in Hlt. simpl in Hlt. lia.
    + eapply anc_step; [done|]. rewrite <- Hi1, <- Ht1. apply (IH e1 p1); [done|congruence|lia|lia].
Qed.

(** The log of a leader is a path. *)
Lemma on_leader_linear t a b : on_leader h t a → on_leader h t b → a.1 ≤ b.1 → anc h a b.
Proof.
  intros (c & Hc & Ha) (c' & Hc' & Hb) Hle. rewrite (leader_tip_unique _ _ _ Hc' Hc) in Hb.
  destruct (leader_tip_term _ _ Hc) as [_ Hct]. destruct (in_tree_bounds c) as [_ Hc0]; [by apply leader_tip_term in Hc as [? _]|].
  destruct Ha as [Ha|[Hat [->|(j & e & p & Hin & ->)]]], Hb as [Hb|[Hbt [->|(j' & e' & p' & Hin' & ->)]]];
    simpl in *; try lia.
  - by eapply anc_linear.
  - etrans; [done|]. subst t. by eapply tip_before_entry.
  - subst t. destruct (tip_before_entry _ _ _ _ Hin Hc) as [_ Hlt]. apply anc_le in Hb. simpl in *. lia.
  - eapply term_chain; [done|done|congruence|done].
Qed.

Lemma on_leader_anc t a b : on_leader h t b → anc h a b → on_leader h t a.
Proof.
  intros (c & Hc & Hb) Hab. exists c. split; [done|]. destruct Hb as [Hb|[Ht Hb]]; [left; by etrans|].
  destruct (leader_tip_term _ _ Hc) as [Hin Hct]. destruct (in_tree_bounds _ Hin) as [_ Hc0].
  destruct Hb as [->|(j & e & p & Hin' & ->)]; simpl in Ht; [lia|]. subst t. by eapply entry_anc.
Qed.
End tree.

(** ** Growing the history *)

(** New entries do not change the ancestors of the positions already there. *)
Lemma anc_stable h h' a b :
  tree_ok h → tree_ok h' → h ⊆ h' → in_tree h b → anc h' a b → anc h a b.
Proof.
  intros Hh Hh' Hsub Hb Hanc. induction Hanc as [|j e p Hin Hanc IH]; [constructor|].
  destruct Hb as [E|(j0 & e0 & p0 & Hin0 & E)]; injection E as E1 E2.
  - destruct (tk_entry _ Hh' _ _ _ Hin). lia.
  - destruct (tk_unique _ Hh' _ _ _ _ _ _ Hin (Hsub _ Hin0) E1 E2) as [-> ->].
    eapply anc_step; [done|]. apply IH. by eapply in_tree_parent.
Qed.

Lemma leader_tip_mono h h' t c : h ⊆ h' → leader_tip h t c → leader_tip h' t c.
Proof. intros Hsub (j & He & Hc). exists j. auto. Qed.

Lemma on_leader_mono h h' t m : h ⊆ h' → on_leader h t m → on_leader h' t m.
Proof.
  intros Hsub (c & Hc & Hm). exists c. split; [by eapply leader_tip_mono|].
  destruct Hm as [Hm|[Ht Hm]]; [left; by eapply anc_mono|right]. split; [done|]. by eapply in_tree_mono.
Qed.

(** ** Logs as paths of the tree *)

(** The entries [es] hang one below the other, the first below a position of
    term [t]. *)
Fixpoint seg_path h (t : Z) (es : list (LogEntry cmd)) : Prop :=
  match es with
  | [] => True
  | e :: es' => (∃ j, HStart j e t ∈ h) ∧ seg_path h (Term e) es'
  end.

Definition log_path h (l : list (LogEntry cmd)) : Prop :=
  match l with
  | [] => False
  | e :: l' => in_tree h (Index e, Term e) ∧ seg_path h (Term e) l'
  end.

(** The position where a log ends. *)
Definition log_tip (l : list (LogEntry cmd)) : point := (last_index l, last_term l).

Lemma seg_path_mono h h' t es : h ⊆ h' → seg_path h t es → seg_path h' t es.
Proof.
  intros Hsub. revert t. induction es as [|e es IH]; intros t; simpl; [done|].
  intros [[j Hj] Hes]. split; [exists j; auto|auto].
Qed.

Lemma log_path_mono h h' l : h ⊆ h' → log_path h l → log_path h' l.
Proof.
  destruct l as [|e l]; simpl; [done|]. intros Hsub [He Hl].
  split; [by eapply in_tree_mono|by eapply seg_path_mono].
Qed.

(** The position where a segment behind (i, t) ends. *)
Definition seg_tip (i t : Z) (es : list (LogEntry cmd)) : point :=
  (i + go_len es, default t (Term <$> last es)).

Lemma last_term_cons t e (es : list (LogEntry cmd)) :
  default t (Term <$> last (e :: es)) = default (Term e) (Term <$> last es).
Proof. destruct es as [|e' es]; [done|]. change (last (e :: e' :: es)) with (last (e' :: es)).
  by destruct (last (e' :: es)) eqn:E; [|apply last_None in E]. Qed.

Lemma seg_tip_cons i t e es : Index e = i + 1 → seg_tip i t (e :: es) = seg_tip (Index e) (Term e) es.
Proof. intros Hi. unfold seg_tip, go_len. rewrite last_term_cons. f_equal. simpl. lia. Qed.

Lemma seg_path_app h t es1 es2 :
  seg_path h t (es1 ++ es2) ↔ seg_path h t es1 ∧ seg_path h (default t (Term <$> last es1)) es2.
Proof.
  revert t. induction es1 as [|e es1 IH]; intros t; [simpl; tauto|].
  rewrite last_term_cons. simpl. rewrite IH. tauto.
Qed.

Lemma seg_path_whole h i t es : log_seg i t es → seg_path h t es → anc h (i, t) (seg_tip i t es).
Proof.
  revert i t. induction es as [|e es IH]; intros i t Hs Hp.
  - unfold seg_tip, go_len. simpl. rewrite Z.add_0_r. constructor.
  - destruct Hs as (Hi & Ht & Hs), Hp as [[j Hj] Hp]. rewrite seg_tip_cons by done.
    etrans; [|by apply IH]. eapply anc_step; [done|]. replace (Index e - 1) with i by lia. constructor.
Qed.

Lemma seg_path_anc h i t es k e :
  log_seg i t es → seg_path h t es → es !! k = Some e →
  anc h (i, t) (Index e, Term e) ∧ anc h (Index e, Term e) (seg_tip i t es).
Proof.
  revert i t k. induction es as [|x es IH]; intros i t k Hs Hp Hk; [done|].
  destruct Hs as (Hi & Ht & Hs), Hp as [[j Hj] Hp]. rewrite seg_tip_cons by done.
  assert (Hstep : anc h (i, t) (Index x, Term x)).
  { eapply anc_step; [done|]. replace (Index x - 1) with i by lia. constructor. }
  destruct k as [|k]; [injection Hk as <-; split; [done|by apply seg_path_whole]|].
  destruct (IH (Index x) (Term x) k Hs Hp Hk) as [H1 H2]. split; [by etrans|done].
Qed.

Lemma seg_path_entry h t es k e :
  seg_path h t es → es !! k = Some e → ∃ j p, HStart j e p ∈ h.
Proof.
  revert t k. induction es as [|x es IH]; intros t k Hp Hk; [done|]. destruct Hp as [[j Hj] Hp].
  destruct k as [|k]; [injection Hk as <-; by exists j, t|]. by eapply IH.
Qed.

(** ** Reading a log against the tree *)

Lemma log_tip_cons e l : log_tip (e :: l) = seg_tip (Index e) (Term e) l.
Proof.
  unfold log_tip, seg_tip, last_index, first_index, last_term, go_len. rewrite last_term_cons. f_equal. simpl. lia.
Qed.

(** What a log holds is above its end. *)
Lemma log_path_anc h l idx e :
  log_wf l → log_path h l → log_at l idx = Some e → anc h (idx, Term e) (log_tip l).
Proof.
  intros Hwf Hp He. destruct (log_at_Some _ _ _ Hwf He) as (<- & _ & _).
  apply log_at_lookup in He. destruct l as [|x l]; [done|].
  destruct Hp as [_ Hp]. apply log_wf_cons in Hwf as (_ & _ & Hs). rewrite log_tip_cons.
  destruct (Z.to_nat _) as [|k]; [injection He as <-; by apply seg_path_whole|].
  by eapply seg_path_anc.
Qed.

(** Behind the dummy entry, a log holds entries of the tree. *)
Lemma log_path_entry h l idx e :
  log_wf l → log_path h l → log_at l idx = Some e → first_index l < idx → ∃ j p, HStart j e p ∈ h.
Proof.
  intros Hwf Hp He Hlt. apply log_at_lookup in He. destruct l as [|x l]; [done|]. destruct Hp as [_ Hp].
  destruct (Z.to_nat _) as [|k] eqn:Ek; [lia|]. by eapply seg_path_entry.
Qed.

Lemma log_tip_in_tree h l : log_wf l → log_path h l → in_tree h (log_tip l).
Proof.
  intros Hwf Hp. destruct (log_at_is_Some l (last_index l)) as [e He]; [pose proof (log_wf_last_first _ Hwf); lia|].
  pose proof (last_term_log_at _ _ Hwf He) as Ht. unfold log_tip. rewrite <- Ht.
  destruct (log_at_Some _ _ _ Hwf He) as (Hi & _ & Hr).
  destruct (decide (first_index l < last_index l)) as [Hlt|Hge].
  - destruct (log_path_entry _ _ _ _ Hwf Hp He Hlt) as (j & p & Hin). right. exists j, e, p. by rewrite Hi.
  - assert (E : last_index l = first_index l) by lia. rewrite E in *. apply log_at_lookup in He.
    rewrite Z.sub_diag in He. destruct l as [|x l]; [done|]. injection He as ->. destruct Hp as [Hp _].
    by unfold first_index; simpl.
Qed.

(** Conversely, what is above the end of a log and not compacted is in it. *)
Lemma anc_log_at h l idx t :
  tree_ok h → log_wf l → log_path h l → anc h (idx, t) (log_tip l) → first_index l ≤ idx →
  ∃ e, log_at l idx = Some e ∧ Term e = t.
Proof.
  intros Hh Hwf Hp Hanc Hle. destruct (anc_le _ Hh _ _ Hanc) as [Hle' _]. simpl in Hle'.
  destruct (log_at_is_Some l idx) as [e He]; [lia|]. exists e. split; [done|].
  pose proof (log_path_anc _ _ _ _ Hwf Hp He) as Hanc'.
  assert (E : (idx, Term e) = (idx, t)).
  { apply (anc_same_index _ Hh); [|done]. by eapply anc_linear. }
  by injection E.
Qed.
End log_tree.
