(* ===== verification/ElectionSafety.v ===== *)
(** * Election safety and absence of panics in a cluster

    [cluster_inv] is the inductive invariant of the runs of Cluster.v: every
    peer is well formed, every vote ever cast is still backed by the persisted
    state of its voter, every leader was elected by a majority, every call in
    flight carries arguments its handler accepts, and the vote counter of every
    election counts distinct voters.  It survives message loss, reordering and
    crashes.  From it: no reachable step panics, and a term has one leader. *)

From S2P Require Import Prelude RaftUtil RaftNode RaftLog RaftWf RaftOps RaftRepl Cluster.
Local Open Scope Z_scope.
Local Open Scope go_scope.

Section election_safety.
Context {cmd : Type} `{!Gob (PersistedState cmd)}.
Implicit Types (rf : Raft cmd) (w : World cmd) (ns : list (Raft cmd)) (h : list (HistEvent cmd)).
Implicit Types (c : Call cmd) (cs : gmap nat (Call cmd)) (bs : gmap nat Z).

(** ** The invariant *)

Definition nodes_ok n ns : Prop :=
  go_len ns = n ∧ ∀ i rf, ns.[i] = Some rf → raft_wf n rf ∧ me rf = i.

(** A vote of the history is remembered by the persister of its voter. *)
Definition votes_ok n ns h : Prop :=
  (∀ v t k, HVote v t k ∈ h →
     0 ≤ k < n ∧ ∃ rf, ns.[v] = Some rf ∧ t ≤ stable_term rf ∧ (t = stable_term rf → stable_vote rf = k)) ∧
  (∀ v t k k', HVote v t k ∈ h → HVote v t k' ∈ h → k = k').

Definition roles_ok ns h : Prop :=
  ∀ i rf, ns.[i] = Some rf →
    match state rf with
    | Follower => True
    | Candidate => HVote i (currentTerm rf) i ∈ h ∧ HElected i (currentTerm rf) ∉ h
    | Leader => HElected i (currentTerm rf) ∈ h
    end.

(** [Q] is a majority of the [n] peers. *)
Definition majority n (Q : list Z) : Prop :=
  NoDup Q ∧ n / 2 < go_len Q ∧ ∀ q, q ∈ Q → 0 ≤ q < n.

Definition elected_ok n h : Prop :=
  ∀ i t, HElected i t ∈ h → HVote i t i ∈ h ∧ ∃ Q, majority n Q ∧ ∀ q, q ∈ Q → HVote q t i ∈ h.

Definition call_ok n ne ns h c : Prop :=
  0 ≤ caller c < n ∧ 0 ≤ callee c < n ∧ caller c ≠ callee c ∧
  match request c with
  | ReqVote args el =>
      rv_CandidateId args = caller c ∧ (el < ne)%nat ∧
      match reply c with
      | None => True
      | Some (RepVote r) => rvr_VoteGranted r = true → HVote (callee c) (rv_Term args) (caller c) ∈ h
      | _ => False
      end
  | ReqAppend args =>
      append_args_wf args ∧
      (live c = true → HElected (caller c) (ae_Term args) ∈ h ∧
        ∀ rf, ns.[caller c] = Some rf → isValidLeader (ae_Term args) rf = true →
          ae_PrevLogIndex args ≤ last_index (logs rf)) ∧
      match reply c with None | Some (RepAppend _) => True | _ => False end
  | ReqSnapshot args =>
      0 ≤ is_LastIncludedTerm args ≤ is_Term args ∧
      match reply c with None | Some (RepSnapshot _) => True | _ => False end
  end.

Definition calls_ok n nc ne ns h cs : Prop :=
  ∀ id c, cs !! id = Some c → (id < nc)%nat ∧ call_ok n ne ns h c.

(** The counter [g] of election [el]: [ks] are the peers whose votes were
    counted; a vote call still in flight is to a peer not counted yet. *)
Definition ballot_ok n cs h el g : Prop :=
  ∃ i t ks, g = 1 + go_len ks ∧ NoDup (i :: ks) ∧ HVote i t i ∈ h ∧
    (∀ q, q ∈ i :: ks → 0 ≤ q < n ∧ HVote q t i ∈ h) ∧
    (∀ id c args, cs !! id = Some c → request c = ReqVote args el →
       caller c = i ∧ rv_Term args = t ∧ callee c ∉ i :: ks) ∧
    (∀ id id' c c' args args', cs !! id = Some c → cs !! id' = Some c' →
       request c = ReqVote args el → request c' = ReqVote args' el → callee c = callee c' → id = id').

Definition ballots_ok n ne cs h bs : Prop :=
  ∀ el g, bs !! el = Some g → (el < ne)%nat ∧ ballot_ok n cs h el g.

Record cluster_inv n w : Prop := {
  ci_nodes : nodes_ok n (nodes w);
  ci_votes : votes_ok n (nodes w) (history w);
  ci_roles : roles_ok (nodes w) (history w);
  ci_elected : elected_ok n (history w);
  ci_calls : calls_ok n (nextCall w) (nextElection w) (nodes w) (history w) (calls w);
  ci_ballots : ballots_ok n (nextElection w) (calls w) (history w) (ballots w)
}.

Lemma node_wf n w i rf : cluster_inv n w → (nodes w).[i] = Some rf → raft_wf n rf.
Proof. intros H Hi. by apply (proj2 (ci_nodes _ _ H) i). Qed.

Lemma node_log_wf n w i rf : cluster_inv n w → (nodes w).[i] = Some rf → log_wf (logs rf).
Proof. intros H Hi. by eapply wf_log, node_wf. Qed.

(** ** Majorities intersect *)

Lemma majority_intersect n Q1 Q2 : 0 ≤ n → majority n Q1 → majority n Q2 → ∃ q, q ∈ Q1 ∧ q ∈ Q2.
Proof.
  intros Hn (Hnd1 & Hl1 & Hr1) (Hnd2 & Hl2 & Hr2).
  destruct (decide (Exists (λ q, q ∈ Q2) Q1)) as [(q & ? & ?)%Exists_exists|Hno%not_Exists_Forall]; [by exists q|exfalso|apply _].
  assert (Hnd : NoDup (Q1 ++ Q2)).
  { apply NoDup_app. split_and!; try done. intros x Hx. rewrite Forall_forall in Hno. by apply Hno. }
  assert (Hsub : Q1 ++ Q2 ⊆+ seqZ 0 n).
  { apply NoDup_submseteq; [done|]. intros x Hx%elem_of_app.
    apply elem_of_seqZ. destruct Hx as [Hx|Hx]; [apply Hr1 in Hx|apply Hr2 in Hx]; lia. }
  apply submseteq_length in Hsub. rewrite length_app, length_seqZ in Hsub.
  unfold go_len in *. Z.to_euclidean_division_equations; lia.
Qed.

(** Two elected nodes of a term are the same node. *)
Lemma elected_unique n w i j t :
  cluster_inv n w → HElected i t ∈ history w → HElected j t ∈ history w → i = j.
Proof.
  intros Hinv Hi Hj.
  destruct (ci_elected _ _ Hinv _ _ Hi) as (_ & Q1 & Hm1 & HQ1).
  destruct (ci_elected _ _ Hinv _ _ Hj) as (_ & Q2 & Hm2 & HQ2).
  destruct (majority_intersect n Q1 Q2) as (q & Hq1 & Hq2); [|done..|].
  { destruct (ci_nodes _ _ Hinv) as [<- _]. auto with go. }
  eapply (ci_votes _ _ Hinv); [by apply HQ1|by apply HQ2].
Qed.

(** ** Reading a node after one was replaced *)

Lemma nodes_insert ns i rf rf' j :
  ns.[i] = Some rf → (<[Z.to_nat i := rf']> ns).[j] = if decide (i = j) then Some rf' else ns.[j].
Proof. apply go_index_insert. Qed.

Lemma nodes_ok_insert n ns i rf rf' :
  nodes_ok n ns → ns.[i] = Some rf → raft_wf n rf' → me rf' = me rf →
  nodes_ok n (<[Z.to_nat i := rf']> ns).
Proof.
  intros [Hlen Hns] Hi Hwf Hme. split; [unfold go_len in *; by rewrite length_insert|].
  intros j x. rewrite (nodes_insert _ _ rf) by done. case_decide as E; [subst j; intros [= <-]|apply Hns].
  split; [done|]. rewrite Hme. by apply Hns.
Qed.

(** Replacing a node whose persisted vote moves forward. *)
Lemma votes_ok_insert n ns h i rf rf' :
  votes_ok n ns h → ns.[i] = Some rf →
  stable_term rf < stable_term rf' ∨ (stable_term rf' = stable_term rf ∧ stable_vote rf' = stable_vote rf) →
  votes_ok n (<[Z.to_nat i := rf']> ns) h.
Proof.
  intros [Hv Hu] Hi Hst. split; [|done]. intros v t k Hin.
  destruct (Hv v t k Hin) as (Hk & x & Hx & Hle & Heq). split; [done|].
  rewrite (nodes_insert _ _ rf) by done. case_decide as E; [subst v|by eauto].
  rewrite Hi in Hx. injection Hx as <-. exists rf'. split; [done|].
  destruct Hst as [|[-> ->]]; [split; lia|done].
Qed.

Lemma roles_ok_insert ns h i rf rf' :
  roles_ok ns h → ns.[i] = Some rf →
  (state rf' = Follower ∨ (state rf' = state rf ∧ currentTerm rf' = currentTerm rf)) →
  roles_ok (<[Z.to_nat i := rf']> ns) h.
Proof.
  intros Hr Hi Hs j x. rewrite (nodes_insert _ _ rf) by done. case_decide as E; [subst j; intros [= <-]|apply Hr].
  destruct Hs as [->|[-> ->]]; [done|by apply Hr].
Qed.

Lemma call_ok_insert n ne ns h c i rf rf' :
  call_ok n ne ns h c → ns.[i] = Some rf →
  (state rf' = Leader → HElected i (currentTerm rf') ∈ h →
     state rf = Leader ∧ currentTerm rf' = currentTerm rf ∧ last_index (logs rf) ≤ last_index (logs rf')) →
  call_ok n ne (<[Z.to_nat i := rf']> ns) h c.
Proof.
  intros (H1 & H2 & H3 & H4) Hi Hl. do 3 (split; [done|]).
  destruct (request c) as [|args|]; [done| |done].
  destruct H4 as (Ha & Hlive & Hrep). split; [done|]. split; [|done]. intros Hlv. destruct (Hlive Hlv) as [He Hp].
  split; [done|]. intros x. rewrite (nodes_insert _ _ rf) by done. case_decide as E; [|by apply Hp].
  intros [= <-] [Hs%bool_decide_eq_true Ht%Z.eqb_eq]%andb_true_iff.
  destruct Hl as (Hs' & Ht' & Hle); [done|rewrite E, Ht; done|].
  etrans; [apply (Hp rf); [congruence|]|done].
  apply andb_true_iff. split; [by apply bool_decide_eq_true|apply Z.eqb_eq; congruence].
Qed.

(** ** Growing the history, dropping calls *)

Lemma call_ok_mono n ne ne' ns h h' c :
  (ne ≤ ne')%nat → h ⊆ h' → call_ok n ne ns h c → call_ok n ne' ns h' c.
Proof.
  intros Hne Hh (H1 & H2 & H3 & H4). do 3 (split; [done|]).
  destruct (request c); [| |done].
  - destruct H4 as (Hc & He & Hr). split_and!; [done|lia|]. destruct (reply c) as [[]|]; [|done..]. auto.
  - destruct H4 as (Ha & Hl & Hr). split; [done|]. split; [|done]. intros Hlv. destruct (Hl Hlv). auto.
Qed.

Lemma elected_ok_mono n h h' :
  h ⊆ h' → (∀ i t, HElected i t ∈ h' → HElected i t ∈ h) → elected_ok n h → elected_ok n h'.
Proof.
  intros Hh Hno He i t Hin. destruct (He i t) as (Hv & Q & Hm & HQ); [auto|].
  split; [auto|]. exists Q. split; [done|]. auto.
Qed.

(** Same callers, callees and requests, for the calls that remain. *)
Definition calls_le cs' cs : Prop :=
  ∀ id c', cs' !! id = Some c' →
    ∃ c, cs !! id = Some c ∧ caller c' = caller c ∧ callee c' = callee c ∧ request c' = request c.

Lemma calls_le_refl cs : calls_le cs cs.
Proof. intros id c Hc. by exists c. Qed.

Lemma calls_le_delete cs id : calls_le (delete id cs) cs.
Proof. intros id' c [_ Hc]%lookup_delete_Some. by exists c. Qed.

Lemma calls_le_reply cs id c r :
  cs !! id = Some c → calls_le (<[id := mkCall (caller c) (callee c) (request c) r (live c)]> cs) cs.
Proof. intros Hc id' c' [[<- <-]|[_ Hc']]%lookup_insert_Some; eauto. Qed.

Lemma calls_le_orphan cs i : calls_le (orphan i <$> cs) cs.
Proof.
  intros id c'. rewrite lookup_fmap. destruct (cs !! id) as [c|] eqn:E; [|done].
  intros [= <-]. exists c. split; [done|]. unfold orphan. by destruct (caller c =? i).
Qed.

(** No new vote calls of election [el]. *)
Definition vote_calls_le el cs' cs : Prop :=
  ∀ id c' args, cs' !! id = Some c' → request c' = ReqVote args el →
    ∃ c, cs !! id = Some c ∧ caller c' = caller c ∧ callee c' = callee c ∧ request c' = request c.

Lemma calls_le_vote el cs' cs : calls_le cs' cs → vote_calls_le el cs' cs.
Proof. intros H id c args Hc _. eauto. Qed.

Lemma ballot_ok_mono n cs cs' h h' el g :
  vote_calls_le el cs' cs → h ⊆ h' → ballot_ok n cs h el g → ballot_ok n cs' h' el g.
Proof.
  intros Hcs Hh (i & t & ks & Hg & Hnd & Hi & Hks & Hcall & Huniq).
  exists i, t, ks. split_and!; try done; [auto| | |].
  - intros q Hq. destruct (Hks q Hq). auto.
  - intros id c args Hc Hr. destruct (Hcs id c args Hc Hr) as (c0 & Hc0 & E1 & E2 & E3).
    rewrite E1, E2. eapply Hcall; [done|]. by rewrite <- E3.
  - intros id id' c c' args args' Hc Hc' Hr Hr' Hcc.
    destruct (Hcs id c args Hc Hr) as (c0 & Hc0 & E1 & E2 & E3).
    destruct (Hcs id' c' args' Hc' Hr') as (c0' & Hc0' & E1' & E2' & E3').
    eapply Huniq; [done|done|by rewrite <- E3|by rewrite <- E3'|by rewrite <- E2, <- E2'].
Qed.

Lemma ballots_ok_mono n ne ne' cs cs' h h' bs :
  (ne ≤ ne')%nat → (∀ el, (el < ne)%nat → vote_calls_le el cs' cs) → h ⊆ h' → ballots_ok n ne cs h bs → ballots_ok n ne' cs' h' bs.
Proof.
  intros Hne Hcs Hh Hb el g Hg. destruct (Hb el g Hg) as [Hlt Hok].
  split; [lia|]. eapply ballot_ok_mono; eauto.
Qed.

(** ** Local steps *)

(** A peer changes without casting a vote and without becoming leader; as long
    as it leads, its log does not shrink. *)
Lemma inv_node n w i rf rf' :
  cluster_inv n w → (nodes w).[i] = Some rf → raft_wf n rf' → me rf' = me rf →
  state rf' = Follower ∨ (state rf' = state rf ∧ currentTerm rf' = currentTerm rf) →
  stable_term rf < stable_term rf' ∨ (stable_term rf' = stable_term rf ∧ stable_vote rf' = stable_vote rf) →
  (state rf' = Leader → last_index (logs rf) ≤ last_index (logs rf')) →
  cluster_inv n (set_node i rf' w).
Proof.
  intros [Hn Hv Hr He Hc Hb] Hi Hwf Hme Hs Hst Hlast.
  constructor; simpl; try done.
  - by eapply nodes_ok_insert.
  - by eapply votes_ok_insert.
  - by eapply roles_ok_insert.
  - intros id c Hid. destruct (Hc id c Hid) as [Hlt Hok]. split; [done|].
    eapply call_ok_insert; [done..|]. intros Hl _. destruct Hs as [Hf|[Hs Ht']]; [congruence|].
    split; [congruence|]. auto.
Qed.

Lemma inv_quiet n w i rf rf' :
  cluster_inv n w → (nodes w).[i] = Some rf → raft_wf n rf' → quiet_step rf rf' →
  (state rf' = Leader → last_index (logs rf) ≤ last_index (logs rf')) →
  cluster_inv n (set_node i rf' w).
Proof. intros Hinv Hi Hwf [] Hl. by eapply inv_node. Qed.

(** The call of a goroutine gets its reply, or is dropped. *)
Lemma inv_set_calls n w cs' :
  cluster_inv n w → calls_le cs' (calls w) →
  (∀ id c, cs' !! id = Some c → calls w !! id = Some c ∨ call_ok n (nextElection w) (nodes w) (history w) c) →
  cluster_inv n (set_calls cs' w).
Proof.
  intros [Hn Hv Hr He Hc Hb] Hle Hok. constructor; simpl; try done.
  - intros id c Hid. destruct (Hle id c Hid) as (c0 & Hc0 & _). destruct (Hc id c0 Hc0) as [Hlt _].
    split; [done|]. destruct (Hok id c Hid) as [Hc1|]; [by eapply Hc|done].
  - eapply ballots_ok_mono; [done| |done|done]. intros el _. by apply calls_le_vote.
Qed.

Lemma inv_drop n w id : cluster_inv n w → cluster_inv n (set_calls (delete id (calls w)) w).
Proof.
  intros H. apply inv_set_calls; [done|apply calls_le_delete|].
  intros id' c [_ Hc]%lookup_delete_Some. by left.
Qed.

Lemma inv_reply n w id c r :
  cluster_inv n w → calls w !! id = Some c →
  call_ok n (nextElection w) (nodes w) (history w) (mkCall (caller c) (callee c) (request c) (Some r) (live c)) →
  cluster_inv n (set_calls (<[id := mkCall (caller c) (callee c) (request c) (Some r) (live c)]> (calls w)) w).
Proof.
  intros H Hc Hok. apply inv_set_calls; [done|by apply calls_le_reply|].
  intros id' c' [[<- <-]|[_ Hc']]%lookup_insert_Some; auto.
Qed.

(** A goroutine sends an AppendEntry or an InstallSnapShot. *)
Lemma inv_add_call n w c :
  cluster_inv n w → call_ok n (nextElection w) (nodes w) (history w) c →
  (∀ args el, request c ≠ ReqVote args el) → cluster_inv n (add_call c w).
Proof.
  intros [Hn Hv Hr He Hc Hb] Hok Hnv. constructor; simpl; try done.
  - intros id c' [[<- <-]|[_ Hid]]%lookup_insert_Some; [split; [lia|done]|].
    destruct (Hc id c' Hid). split; [lia|done].
  - eapply ballots_ok_mono; [done| |done|done]. intros el _ id c' args [[<- <-]|[_ Hid]]%lookup_insert_Some Hreq.
    + by destruct (Hnv args el).
    + by exists c'.
Qed.

(** ** Casting a vote *)

Lemma votes_ok_cast n ns h i rf rf' t k :
  votes_ok n ns h → raft_wf n rf → ns.[i] = Some rf → 0 ≤ k < n →
  persisted rf' → currentTerm rf' = t → voteFor rf' = k →
  currentTerm rf < t ∨ (t = currentTerm rf ∧ (voteFor rf = -1 ∨ voteFor rf = k)) →
  votes_ok n (<[Z.to_nat i := rf']> ns) (HVote i t k :: h).
Proof.
  intros [Hv Hu] Hwf Hi Hk Hp Ht Hvf Hcase. destruct (persisted_stable _ Hp) as [Est Esv].
  pose proof (wf_stable_term _ _ Hwf) as Hle. pose proof (wf_stable_vote _ _ Hwf) as Hsv.
  assert (Hold : ∀ t' k', HVote i t' k' ∈ h → t' ≤ t ∧ (t' = t → k' = k)).
  { intros t' k' Hin. destruct (Hv i t' k' Hin) as (Hk' & x & Hx & Hle' & Heq).
    rewrite Hi in Hx. injection Hx as <-. split; [lia|]. intros ->. lia. }
  split.
  - intros v t' k' [[= -> -> ->]|Hin]%elem_of_cons; rewrite (nodes_insert _ _ rf) by done.
    + split; [done|]. rewrite decide_True by done. exists rf'. split; [done|]. lia.
    + destruct (Hv v t' k' Hin) as (Hk' & Hx). split; [done|]. case_decide as E; [subst v|done].
      exists rf'. destruct (Hold _ _ Hin). split; [done|]. lia.
  - intros v t' k1 k2 [E1|H1]%elem_of_cons [E2|H2]%elem_of_cons; [congruence| | |eauto].
    + injection E1 as -> -> ->. symmetry. by apply (Hold t k2).
    + injection E2 as -> -> ->. by apply (Hold t k1).
Qed.

(** A RequestVote that is granted. *)
Lemma inv_vote n w i rf rf' t k :
  cluster_inv n w → (nodes w).[i] = Some rf → raft_wf n rf' → me rf' = me rf → logs rf' = logs rf →
  0 ≤ k < n → persisted rf' → currentTerm rf' = t → voteFor rf' = k →
  state rf' = (if currentTerm rf <? t then Follower else state rf) →
  currentTerm rf < t ∨ (t = currentTerm rf ∧ (voteFor rf = -1 ∨ voteFor rf = k)) →
  cluster_inv n (record (HVote i t k) (set_node i rf' w)).
Proof.
  intros [Hn Hv Hr He Hc Hb] Hi Hwf Hme Hlog Hk Hp Ht Hvf Hs Hcase.
  assert (Hrole : state rf' = Follower ∨ (state rf' = state rf ∧ currentTerm rf' = currentTerm rf)).
  { rewrite Hs. destruct (Z.ltb_spec (currentTerm rf) t); [by left|right]. split; [done|lia]. }
  constructor; simpl.
  - by eapply nodes_ok_insert.
  - apply (votes_ok_cast n _ _ i rf); try done. by apply (proj2 Hn i).
  - intros j x Hx. pose proof (roles_ok_insert _ _ _ _ _ Hr Hi Hrole j x Hx) as Hj.
    destruct (state x); [done| |by right]. destruct Hj. split; [by right|]. by intros [|]%elem_of_cons.
  - eapply elected_ok_mono; [| |done]; [by right|]. by intros ?? [|]%elem_of_cons.
  - intros id c Hid. destruct (Hc id c Hid) as [Hlt Hok]. split; [done|].
    eapply call_ok_mono; [done| |eapply call_ok_insert; [done..|]]; [by right|].
    intros Hl _. destruct Hrole as [|[? ?]]; [congruence|]. rewrite Hlog. split_and!; [congruence|done|lia].
  - eapply ballots_ok_mono; [done| | |done]; [|by right]. intros el _. apply calls_le_vote, calls_le_refl.
Qed.

(** ** Events of the history that elections do not depend on *)

Definition election_event (e : HistEvent cmd) : bool :=
  match e with HVote _ _ _ | HElected _ _ => true | _ => false end.

Lemma inv_record n w e : election_event e = false → cluster_inv n w → cluster_inv n (record e w).
Proof.
  intros Hev [Hn Hv Hr He Hc Hb].
  assert (Hin : ∀ x, election_event x = true → x ∈ e :: history w → x ∈ history w).
  { intros x Hx [->|]%elem_of_cons; [congruence|done]. }
  constructor; simpl; try done.
  - destruct Hv as [Hv Hu]. split.
    + intros v t' k H%Hin; [|done]. by apply Hv.
    + intros v t' k k' H1%Hin H2%Hin; [|done..]. by eapply Hu.
  - intros j x Hx. specialize (Hr j x Hx). destruct (state x); [done| |by right].
    destruct Hr. split; [by right|]. by intros Hx'%Hin.
  - eapply elected_ok_mono; [| |done]; [by right|]. intros i t H. by apply Hin.
  - intros id c Hid. destruct (Hc id c Hid) as [Hlt Hok]. split; [done|].
    eapply call_ok_mono; [done| |done]. by right.
  - eapply ballots_ok_mono; [done| | |done]; [|by right]. intros el _. apply calls_le_vote, calls_le_refl.
Qed.

(** ** Launching an election *)

(** [w'] is [w] with one new vote call of [i] to every peer of [ps] but [i]. *)
Record broadcast_post i args (ps : list Z) w w' : Prop := {
  bp_world : nodes w' = nodes w ∧ ballots w' = ballots w ∧ nextElection w' = nextElection w ∧
             delivered w' = delivered w ∧ history w' = history w;
  bp_next : (nextCall w ≤ nextCall w')%nat;
  bp_calls id c : calls w' !! id = Some c → calls w !! id = Some c ∨
    (nextCall w ≤ id < nextCall w')%nat ∧
    ∃ p, p ∈ ps ∧ p ≠ i ∧ c = mkCall i p (ReqVote args (nextElection w)) None true;
  bp_unique id id' c c' : (nextCall w ≤ id)%nat → (nextCall w ≤ id')%nat →
    calls w' !! id = Some c → calls w' !! id' = Some c' → callee c = callee c' → id = id'
}.

Lemma broadcast_spec i args ps w :
  NoDup ps → (∀ id c, calls w !! id = Some c → (id < nextCall w)%nat) →
  broadcast_post i args ps w (foldl (send_vote i args) w ps).
Proof.
  intros Hnd. revert w. induction Hnd as [|p ps Hp Hnd IH]; intros w Hfresh; simpl.
  - constructor; [done|done|by left|]. intros id id' c c' Hid _ Hc%Hfresh. lia.
  - unfold send_vote at 2. destruct (Z.eqb_spec p i) as [->|Hne].
    + destruct (IH w Hfresh) as [H1 H2 H3 H4]. constructor; try done.
      intros id c [?|(? & q & ? & ? & ?)]%H3; [by left|right]. split; [done|]. exists q. by split; [right|].
    + set (w1 := add_call _ w). destruct (IH w1) as [H1 H2 H3 H4].
      { simpl. intros id c [[<- _]|[_ Hc%Hfresh]]%lookup_insert_Some; lia. }
      assert (Hnew : ∀ id c, (nextCall w ≤ id)%nat → calls w1 !! id = Some c →
        id = nextCall w ∧ c = mkCall i p (ReqVote args (nextElection w)) None true).
      { simpl. intros id c Hid [[<- <-]|[_ Hc%Hfresh]]%lookup_insert_Some; [done|lia]. }
      assert (Hlater : ∀ id c, (nextCall w ≤ id)%nat → calls (foldl (send_vote i args) w1 ps) !! id = Some c →
        (id = nextCall w ∧ callee c = p) ∨ ((S (nextCall w) ≤ id)%nat ∧ callee c ∈ ps)).
      { intros id c Hid [Hc|(Hr & q & Hq & _ & ->)]%H3; [left|right; simpl in Hr; split; [lia|done]].
        by destruct (Hnew _ _ Hid Hc) as [-> ->]. }
      constructor; [done|simpl in H2; lia| |].
      * intros id c [Hc|(Hr & q & Hq & Hqi & ->)]%H3.
        -- simpl in Hc. apply lookup_insert_Some in Hc as [[<- <-]|[_ Hc]]; [right|by left].
           split; [simpl in H2; lia|]. exists p. split; [by left|done].
        -- right. simpl in Hr. split; [lia|]. exists q. split; [by right|done].
      * intros id id' c c' Hid Hid' Hc Hc' Hcc.
        destruct (Hlater _ _ Hid Hc) as [[E1 E2]|[E1 E2]], (Hlater _ _ Hid' Hc') as [[F1 F2]|[F1 F2]];
          [congruence|congruence|congruence|by eapply H4].
Qed.

(** The candidate's new state and its vote for itself. *)
Lemma inv_campaign n w i rf rf' :
  cluster_inv n w → (nodes w).[i] = Some rf → raft_wf n rf' → me rf' = i → persisted rf' →
  state rf' = Candidate → currentTerm rf' = currentTerm rf + 1 → voteFor rf' = i →
  cluster_inv n (record (HVote i (currentTerm rf + 1) i) (set_node i rf' w)).
Proof.
  intros [Hn Hv Hr He Hc Hb] Hi Hwf Hme Hp Hs Ht Hvf.
  destruct (proj2 Hn i rf Hi) as [Hwf0 Hme0]. pose proof (wf_me _ _ Hwf) as Hrange.
  pose proof (wf_stable_term _ _ Hwf0) as Hst.
  assert (Hnew : HElected i (currentTerm rf + 1) ∉ history w).
  { intros [Hself _]%He. destruct (proj1 Hv _ _ _ Hself) as (_ & x & Hx & Hle & _).
    rewrite Hi in Hx. injection Hx as <-. lia. }
  constructor; simpl.
  - eapply nodes_ok_insert; [done..|]. congruence.
  - apply (votes_ok_cast n _ _ i rf); try done; [lia|]. left. lia.
  - intros j x. rewrite (nodes_insert _ _ rf) by done. case_decide as E; [subst j; intros [= <-]|].
    + rewrite Hs, Ht. split; [by left|]. by intros [|]%elem_of_cons.
    + intros Hx. specialize (Hr j x Hx). destruct (state x); [done| |by right].
      destruct Hr. split; [by right|]. by intros [|]%elem_of_cons.
  - eapply elected_ok_mono; [| |done]; [by right|]. by intros ?? [|]%elem_of_cons.
  - intros id c Hid. destruct (Hc id c Hid) as [Hlt Hok]. split; [lia|].
    eapply call_ok_mono; [done| |eapply call_ok_insert; [done..|]]; [by right|congruence].
  - eapply ballots_ok_mono; [done| | |done]; [|by right]. intros el _. apply calls_le_vote, calls_le_refl.
Qed.

(** The vote requests of a new election, with a counter that starts at 1. *)
Lemma inv_broadcast n w i args :
  cluster_inv n w → 0 ≤ i < n → HVote i (rv_Term args) i ∈ history w → rv_CandidateId args = i →
  cluster_inv n (new_election (broadcast_vote i args n (set_ballots (<[nextElection w := 1]> (ballots w)) w))).
Proof.
  intros [Hn Hv Hr He Hc Hb] Hrange Hself Hcand. set (w2 := set_ballots _ w). unfold broadcast_vote.
  destruct (broadcast_spec i args (seqZ 0 n) w2) as [(E1 & E2 & E3 & _ & E5) Hnext Hcalls Huniq].
  { apply NoDup_seqZ. } { intros id c Hid. by apply (Hc id c). }
  set (w3 := foldl _ w2 _) in *. simpl in E1, E2, E3, E5, Hnext.
  assert (Hmine : ∀ id c a, calls w3 !! id = Some c → request c = ReqVote a (nextElection w) →
    (nextCall w ≤ id)%nat ∧ caller c = i ∧ rv_Term a = rv_Term args ∧ callee c ≠ i).
  { intros id c a [Hid|(Hid & p & _ & Hpi & ->)]%Hcalls Hreq; cycle 1.
    { injection Hreq as <-. simpl in *. split_and!; [lia|done..]. }
    destruct (Hc id c Hid) as (_ & _ & _ & _ & Hok). rewrite Hreq in Hok. lia. }
  constructor; simpl; rewrite ?E1, ?E2, ?E3, ?E5; try done.
  - intros id c [Hid|(Hid & p & Hp' & Hpi & ->)]%Hcalls.
    + destruct (Hc id c Hid) as [Hlt Hok]. split; [lia|]. eapply call_ok_mono; [|done|done]. lia.
    + split; [lia|]. apply elem_of_seqZ in Hp'. do 3 (split; [simpl; lia|]). simpl. auto.
  - intros el g [[<- <-]|[Hne Hg]]%lookup_insert_Some.
    + split; [lia|]. exists i, (rv_Term args), [].
      split_and!; [done|apply NoDup_singleton|done| | |].
      * by intros q ->%list_elem_of_singleton.
      * intros id c a Hid Hreq. destruct (Hmine id c a Hid Hreq) as (_ & ? & ? & ?).
        split_and!; try done. by intros ?%list_elem_of_singleton.
      * intros id id' c c' a a' Hid Hid' R R' Hcc.
        destruct (Hmine id c a Hid R), (Hmine id' c' a' Hid' R'). by eapply Huniq.
    + destruct (Hb el g Hg) as [Hlt Hok]. split; [lia|]. eapply ballot_ok_mono; [|done|done].
      intros id c a [Hid|(Hid & p & _ & Hpi & ->)]%Hcalls Hreq; [by exists c|].
      injection Hreq as _ E. simpl in E. lia.
Qed.

(** ** Counting votes *)

(** The reply of call [id] is a vote: it joins the counted ones. *)
Lemma ballot_count n cs h el g id c args :
  ballot_ok n cs h el g → cs !! id = Some c → request c = ReqVote args el → 0 ≤ callee c < n →
  HVote (callee c) (rv_Term args) (caller c) ∈ h →
  ballot_ok n (delete id cs) h el (g + 1) ∧
  (n / 2 < g + 1 → ∃ Q, majority n Q ∧ ∀ q, q ∈ Q → HVote q (rv_Term args) (caller c) ∈ h).
Proof.
  intros (i & t & ks & -> & Hnd & Hi & Hks & Hcall & Huniq) Hid Hreq Hr Hvote.
  destruct (Hcall id c args Hid Hreq) as (<- & <- & Hnin).
  apply not_elem_of_cons in Hnin as [Hne Hnin]. apply NoDup_cons in Hnd as [Hni Hnd].
  assert (Hnd' : NoDup (caller c :: callee c :: ks)).
  { apply NoDup_cons. split; [|by apply NoDup_cons]. apply not_elem_of_cons. auto. }
  assert (Hall : ∀ q, q ∈ caller c :: callee c :: ks → 0 ≤ q < n ∧ HVote q (rv_Term args) (caller c) ∈ h).
  { intros q [->|[->|Hq]%elem_of_cons]%elem_of_cons; [apply Hks; by left|done|apply Hks; by right]. }
  split.
  - exists (caller c), (rv_Term args), (callee c :: ks). split_and!; try done.
    + unfold go_len. simpl. lia.
    + intros id' c' args' [Hne' Hc']%lookup_delete_Some Hreq'.
      destruct (Hcall id' c' args' Hc' Hreq') as (? & ? & [? Hnin']%not_elem_of_cons). split_and!; try done.
      apply not_elem_of_cons. split; [done|]. apply not_elem_of_cons. split; [|done].
      intros E. apply Hne'. by eapply Huniq.
    + intros id1 id2 c1 c2 a1 a2 [_ H1]%lookup_delete_Some [_ H2]%lookup_delete_Some. by apply Huniq.
  - intros Hmaj. exists (caller c :: callee c :: ks). split; [|intros q Hq; by apply Hall].
    split_and!; [done|unfold go_len in *; simpl; lia|intros q Hq; by apply Hall].
Qed.

Lemma inv_set_ballot n w el g g' :
  cluster_inv n w → ballots w !! el = Some g → ballot_ok n (calls w) (history w) el g' →
  cluster_inv n (set_ballots (<[el := g']> (ballots w)) w).
Proof.
  intros [Hn Hv Hr He Hc Hb] Hg Hok. constructor; simpl; try done.
  intros el' g0 [[<- <-]|[_ Hg0]]%lookup_insert_Some; [|by apply Hb].
  split; [by apply (Hb el g)|done].
Qed.

(** A candidate that has a majority becomes leader. *)
Lemma inv_elected n w i rf rf' Q :
  cluster_inv n w → (nodes w).[i] = Some rf → raft_wf n rf' → me rf' = me rf → stable rf' = stable rf →
  state rf = Candidate → state rf' = Leader → currentTerm rf' = currentTerm rf →
  majority n Q → (∀ q, q ∈ Q → HVote q (currentTerm rf) i ∈ history w) →
  cluster_inv n (record (HElected i (currentTerm rf')) (set_node i rf' w)).
Proof.
  intros [Hn Hv Hr He Hc Hb] Hi Hwf Hme Hst Hs Hs' Ht Hm HQ. rewrite Ht.
  pose proof (Hr i rf Hi) as Hcand. rewrite Hs in Hcand. destruct Hcand as [Hself Hnot].
  constructor; simpl.
  - by eapply nodes_ok_insert.
  - destruct (votes_ok_insert n (nodes w) (history w) i rf rf') as [H1 H2]; try done.
    { right. unfold stable_term, stable_vote. by rewrite Hst. }
    split.
    + intros v t k [|Hin]%elem_of_cons; [done|]. by apply H1.
    + intros v t k k' [|Hin]%elem_of_cons [|Hin']%elem_of_cons; try done. by eapply H2.
  - intros j x. rewrite (nodes_insert _ _ rf) by done. case_decide as E; [subst j; intros [= <-]|intros Hx].
    + rewrite Hs', Ht. by left.
    + specialize (Hr j x Hx). destruct (state x); [done| |by right]. destruct Hr. split; [by right|].
      intros [[= <- _]|]%elem_of_cons; done.
  - intros j t [[= -> ->]|Hin]%elem_of_cons.
    + split; [by right|]. exists Q. split; [done|]. intros q Hq. right. by apply HQ.
    + destruct (He j t Hin) as (Hv1 & Q1 & Hm1 & HQ1). split; [by right|]. exists Q1. split; [done|].
      intros q Hq. right. by apply HQ1.
  - intros id c Hid. destruct (Hc id c Hid) as [Hlt Hok]. split; [done|].
    eapply call_ok_mono; [done| |eapply call_ok_insert; [done..|]]; [by right|].
    intros _ Hin. by rewrite Ht in Hin.
  - eapply ballots_ok_mono; [done| | |done]; [|by right]. intros el _. apply calls_le_vote, calls_le_refl.
Qed.

(** ** Crash and restart *)

Lemma inv_crash n w i rf rf' :
  cluster_inv n w → (nodes w).[i] = Some rf → raft_wf n rf' → me rf' = me rf → stable rf' = stable rf →
  state rf' = Follower →
  cluster_inv n (set_calls (orphan i <$> calls w) (set_node i rf' w)).
Proof.
  intros Hinv Hi Hwf Hme Hst Hs.
  assert (H1 : cluster_inv n (set_node i rf' w)).
  { eapply inv_node; [done..|by left| |congruence].
    right. unfold stable_term, stable_vote. by rewrite Hst. }
  apply (inv_set_calls n _ _ H1); [apply calls_le_orphan|].
  intros id c. rewrite lookup_fmap. destruct (calls w !! id) as [c0|] eqn:E; [|done]. intros [= <-].
  unfold orphan. destruct (caller c0 =? i); [right|left; exact E].
  destruct (ci_calls _ _ H1 id c0 E) as (_ & H2 & H3 & H4 & H5).
  do 3 (split; [done|]). simpl in *. destruct (request c0); [done| |done].
  destruct H5 as (? & _ & ?). split; [done|]. by split.
Qed.

End election_safety.

(** Look up peer [i] of the cluster and recall that it is well formed. *)
Ltac step_node w i rf Hi Hwf Hme :=
  destruct (go_index (nodes w) i) as [rf|] eqn:Hi; [|done];
  match goal with H : cluster_inv _ _ |- _ => destruct (proj2 (ci_nodes _ _ H) i rf Hi) as [Hwf Hme] end.

Section election_steps.
Context {cmd : Type} `{!Gob (PersistedState cmd)}.
Implicit Types (rf : Raft cmd) (w : World cmd) (c : Call cmd).

(** ** Every step of the cluster keeps the invariant *)

(** The outcome of a step from a good state: disabled or good, never a panic. *)
Definition good_outcome n (o : outcome (World cmd)) : Prop :=
  match o with Next w => cluster_inv n w | Disabled => True | Panic => False end.

Lemma step_election_inv n w i : cluster_inv n w → good_outcome n (step_election i w).
Proof.
  intros Hinv. unfold step_election, enabled. step_node w i rf Hi Hwf Hme. simpl.
  destruct (ticker_election_wf n rf Hwf) as (rf' & -> & Hwf' & _ & Hp & Hme' & Hpe & Hs & Ht & Hv & _).
  simpl. rewrite (wf_peers _ _ Hwf'), Hme.
  set (w1 := record (HCampaign _ _ _) _).
  apply (inv_broadcast n w1); [|pose proof (wf_me _ _ Hwf); lia| |done]; [|right; by left].
  apply inv_record; [done|]. apply inv_campaign; try done; congruence.
Qed.

Lemma step_send_inv n w i peer : cluster_inv n w → good_outcome n (step_send i peer w).
Proof.
  intros Hinv. unfold step_send, enabled. step_node w i rf Hi Hwf Hme. simpl.
  destruct (Z.eqb_spec peer i), (Z.ltb_spec peer 0), (Z.leb_spec (peers rf) peer); try done. simpl.
  pose proof (wf_peers _ _ Hwf) as Hpe. pose proof (wf_me _ _ Hwf) as Hrange.
  pose proof (wf_stable_term _ _ Hwf) as Hst. pose proof (ci_roles _ _ Hinv i rf Hi) as Hrole.
  destruct (doSendAppendEntry_wf n peer rf) as (req & -> & Hreq); [done|lia|]. simpl.
  destruct req as [|args|args]; simpl; [done|apply inv_add_call; [done| |done]..].
  - destruct Hreq as (_ & _ & _ & _ & _ & Hterm & _).
    do 3 (split; [simpl; lia|]). simpl. by split.
  - destruct Hreq as (Hl & Ht & _ & _ & Haa). rewrite Hl in Hrole.
    destruct (append_args_of_wf (logs rf) args) as (Ha & _ & Hr); [apply Hwf|lia|done|].
    do 3 (split; [simpl; lia|]). simpl. split; [done|]. split; [|done]. intros _.
    split; [by rewrite Ht|]. intros x Hx _. rewrite Hi in Hx. injection Hx as <-. lia.
Qed.

Lemma step_handle_inv n w id : cluster_inv n w → good_outcome n (step_handle id w).
Proof.
  intros Hinv. unfold step_handle, enabled. destruct (calls w !! id) as [c|] eqn:Hc; [|done]. simpl.
  destruct (ci_calls _ _ Hinv id c Hc) as (Hlt & H1 & H2 & H3 & H4).
  step_node w (callee c) rf Hi Hwf Hme. simpl. destruct (reply c) eqn:Hrep; [done|].
  destruct (request c) as [args el|args|args] eqn:Hreq; rewrite <- Hreq.
  - destruct H4 as (Hcand & Hel & _).
    destruct (RequestVote_wf n args rf Hwf) as (rf' & r & -> & Hwf' & Hrepl & _ & Hno & Hyes & _). simpl.
    destruct (rvr_VoteGranted r) eqn:Hg.
    + destruct Hyes as (Hs & Ht & Hv & Hp & Hme' & Hpe & _ & Hcase); [done|].
      apply inv_reply; [|done|].
      * apply (inv_vote n w (callee c) rf rf'); try done; [by apply replica_logs|congruence].
      * do 3 (split; [done|]). simpl. rewrite Hreq. split_and!; [done|done|]. intros _. rewrite Hcand. by left.
    + apply inv_reply; [|done|].
      * apply (inv_quiet n w _ rf); try done; [auto|]. by rewrite (replica_logs _ _ Hrepl).
      * do 3 (split; [done|]). simpl. rewrite Hreq. split_and!; [done|done|]. congruence.
  - destruct H4 as (Ha & Hlive & _).
    destruct (AppendEntry_wf n args rf Hwf Ha) as (rf' & r & -> & Hwf' & _ & Hold & Hnew). simpl.
    assert (Hn : cluster_inv n (set_node (callee c) rf' w)).
    { destruct (decide (ae_Term args < currentTerm rf)) as [Hold'|Hge].
      - destruct (Hold Hold') as [-> _]. by apply (inv_quiet n w _ rf).
      - destruct Hnew; [lia|]. apply (inv_quiet n w _ rf); try done. congruence. }
    set (w1 := if aer_Success r then _ else _).
    assert (Hw1 : cluster_inv n w1 ∧ calls w1 = calls w).
    { unfold w1. destruct (aer_Success r); [|done]. split; [by apply inv_record|done]. }
    destruct Hw1 as [Hn1 Hcalls1]. rewrite <- Hcalls1 in Hc.
    apply (inv_reply n w1); [done|done|]. destruct (ci_calls _ _ Hn1 id c Hc) as (_ & Hok).
    unfold call_ok in *. simpl in *. by rewrite Hreq, Hrep in *.
  - destruct H4 as (Ha & _).
    destruct (InstallSnapShot_wf n args rf Hwf Ha) as (rf' & -> & Hwf' & Hold & Hnew). simpl.
    assert (Hn : cluster_inv n (set_node (callee c) rf' w)).
    { destruct (decide (is_Term args < currentTerm rf)) as [Hold'|Hge].
      - rewrite (Hold Hold'). by apply (inv_quiet n w _ rf).
      - destruct Hnew; [lia|]. apply (inv_quiet n w _ rf); try done. congruence. }
    apply (inv_reply n (set_node (callee c) rf' w)); [done|done|]. destruct (ci_calls _ _ Hn id c Hc) as (_ & Hok).
    unfold call_ok in *. simpl in *. by rewrite Hreq, Hrep in *.
Qed.

Lemma isValidCandidate_true t rf : isValidCandidate t rf = true → state rf = Candidate ∧ currentTerm rf = t.
Proof. by intros [?%bool_decide_eq_true ?%Z.eqb_eq]%andb_true_iff. Qed.

(** The goroutine of an election gets the reply of one peer. *)
Lemma return_vote_inv n w id c args el r :
  cluster_inv n w → calls w !! id = Some c → request c = ReqVote args el → reply c = Some (RepVote r) →
  live c = true → good_outcome n (step_return id w).
Proof.
  intros Hinv Hc Hreq Hrep Hlive. unfold step_return, enabled. rewrite Hc. simpl.
  destruct (ci_calls _ _ Hinv id c Hc) as (Hlt & H1 & H2 & H3 & H4).
  step_node w (caller c) rf Hi Hwf Hme. simpl. rewrite Hreq, Hrep, Hlive in *. simpl.
  destruct H4 as (Hcand & Hel & Hvote).
  destruct (ballots w !! el) as [g|] eqn:Hg; [|done]. simpl.
  destruct (ci_ballots _ _ Hinv el g Hg) as [_ Hbal].
  pose proof (inv_drop n w id Hinv) as Hdrop.
  assert (Hkeep : ballot_ok n (delete id (calls w)) (history w) el g).
  { eapply ballot_ok_mono; [|done|done]. apply calls_le_vote, calls_le_delete. }
  destruct (handleVoteReply_wf n args r g rf Hwf) as (rf' & g' & -> & Hwf' & Hrepl & _ & Hcase). simpl.
  destruct Hcase as [(Hq & _ & ->)|(Hvalid & Hgr & -> & Hmaj & Hs & Ht & Hme' & Hpe & Hst & _)].
  - rewrite decide_False by (intros [? ?]; destruct Hq as [_ _ [|[? _]]]; congruence).
    apply (inv_set_ballot n (set_node (caller c) rf' (set_calls (delete id (calls w)) w)) el g); [|done|].
    + apply (inv_quiet n _ _ rf); try done. by rewrite (replica_logs _ _ Hrepl).
    + destruct (isValidCandidate (rv_Term args) rf && rvr_VoteGranted r) eqn:E; [|by rewrite Z.add_0_r].
      apply andb_true_iff in E as [_ Hgr]. by eapply ballot_count; eauto.
  - apply isValidCandidate_true in Hvalid as [Hs0 Ht0].
    destruct (ballot_count n (calls w) (history w) el g id c args) as [Hb' HQ]; [done..|by apply Hvote|].
    rewrite decide_True by done. destruct (HQ Hmaj) as (Q & HmQ & HvQ).
    apply (inv_set_ballot n (record (HElected (caller c) (currentTerm rf'))
             (set_node (caller c) rf' (set_calls (delete id (calls w)) w))) el g); [|done|].
    + apply (inv_elected n _ _ rf rf' Q); try done. intros q Hq. rewrite Ht0. by apply HvQ.
    + eapply ballot_ok_mono; [| |exact Hb']; [apply calls_le_vote, calls_le_refl|by right].
Qed.

Lemma step_return_inv n w id : cluster_inv n w → good_outcome n (step_return id w).
Proof.
  intros Hinv. destruct (calls w !! id) as [c|] eqn:Hc; [|unfold step_return; by rewrite Hc].
  destruct (live c) eqn:Hlive; cycle 1.
  { unfold step_return, enabled. rewrite Hc. simpl. destruct ((nodes w).[caller c]); [|done]. simpl. by rewrite Hlive. }
  destruct (ci_calls _ _ Hinv id c Hc) as (Hlt & H1 & H2 & H3 & H4).
  pose proof (inv_drop n w id Hinv) as Hdrop.
  destruct (request c) as [args el|args|args] eqn:Hreq, (reply c) as [[r|r|r]|] eqn:Hrep;
    try (by eapply return_vote_inv);
    try (unfold step_return, enabled; rewrite Hc; simpl; destruct ((nodes w).[caller c]); [|done]; simpl;
         by rewrite Hlive, Hreq, Hrep).
  - unfold step_return, enabled. rewrite Hc. simpl. step_node w (caller c) rf Hi Hwf Hme. simpl.
    rewrite Hlive, Hreq, Hrep in *. simpl. destruct H4 as (_ & Hl & _). destruct (Hl eq_refl) as [_ Hprev].
    destruct (handleAppendReply_wf n (callee c) args r rf) as (rf' & -> & Hwf' & Hq & _ & Hlog & _); [done..|by apply Hprev|].
    simpl. apply (inv_quiet n _ _ rf); try done. by rewrite Hlog.
  - unfold step_return, enabled. rewrite Hc. simpl. step_node w (caller c) rf Hi Hwf Hme. simpl.
    rewrite Hlive, Hreq, Hrep in *. simpl.
    destruct (handleSnapShotReply_wf n (callee c) args r rf) as (rf' & -> & Hwf' & [Hq Hr] & _); [done..|].
    simpl. apply (inv_quiet n _ _ rf); try done. by rewrite (replica_logs _ _ Hr).
Qed.

Lemma step_start_inv n w i command : cluster_inv n w → good_outcome n (step_start i command w).
Proof.
  intros Hinv. unfold step_start, enabled. step_node w i rf Hi Hwf Hme. simpl.
  destruct (Start_wf n command rf Hwf) as (rf' & r & -> & Hwf' & Hq & _ & Hs & Ht & _ & _ & _ & _ & Hno & Hyes).
  simpl. destruct (decide (state rf = Leader)) as [Hl|Hnl].
  - destruct (Hyes Hl) as (-> & _ & Hlog & _). do 2 (apply inv_record; [done|]). apply (inv_quiet n _ _ rf); try done.
    intros _. rewrite Hlog, last_index_app by (by apply log_wf_nonempty, Hwf). unfold go_len. simpl. lia.
  - destruct (Hno Hnl) as [-> ->]. by apply (inv_quiet n _ _ rf).
Qed.

Lemma step_snapshot_inv n w i index snap : cluster_inv n w → good_outcome n (step_snapshot i index snap w).
Proof.
  intros Hinv. unfold step_snapshot, enabled. step_node w i rf Hi Hwf Hme. simpl.
  destruct (Z.ltb_spec (lastApplied rf) index); [done|].
  destruct (Snapshot_wf n index snap rf) as (rf' & -> & Hwf' & Hq & _ & Hs & Ht & _ & _ & _ & _ & Hlog); [done..|].
  simpl. apply (inv_quiet n _ _ rf); try done. intros _.
  destruct Hlog as [->|(e & He & _ & _ & _ & ->)]; [done|]. apply log_at_lookup in He.
  rewrite (compact_log_last _ _ e); [done|apply Hwf|done].
Qed.

Lemma step_apply_inv n w i : cluster_inv n w → good_outcome n (step_apply i w).
Proof.
  intros Hinv. unfold step_apply, enabled. step_node w i rf Hi Hwf Hme. simpl.
  destruct (applier_wf n rf Hwf) as (rf' & act & -> & Hwf' & Hq & _ & Hlog & _). simpl.
  assert (H : cluster_inv n (set_node i rf' w)) by (apply (inv_quiet n _ _ rf); [..|by rewrite Hlog]; done).
  destruct act; try done. by destruct H.
Qed.

Lemma step_crash_inv n w i : cluster_inv n w → good_outcome n (step_crash i w).
Proof.
  intros Hinv. unfold step_crash, enabled. step_node w i rf Hi Hwf Hme. simpl.
  rewrite (wf_peers _ _ Hwf).
  destruct (Make_restart n rf Hwf) as (rf' & -> & Hwf' & _ & Hst & Hme' & _ & Hs & _). simpl.
  by apply (inv_crash n w i rf rf').
Qed.

Lemma step_inv n w ev : cluster_inv n w → good_outcome n (step ev w).
Proof.
  intros Hinv. destruct ev as [i|i|i peer|id|id|id|i command|i index snap|i|i|i]; simpl;
    [by apply step_election_inv| |by apply step_send_inv|by apply step_handle_inv|by apply step_return_inv
    |by apply inv_drop|by apply step_start_inv|by apply step_snapshot_inv|by apply step_apply_inv
    | |by apply step_crash_inv]; unfold enabled; step_node w i rf Hi Hwf Hme; simpl.
  - destruct (ticker_heartbeat_wf n rf Hwf) as (Hwf' & [Hq Hr] & _).
    apply (inv_quiet n _ _ rf); try done. by rewrite (replica_logs _ _ Hr).
  - destruct (Kill_wf n rf Hwf) as (Hwf' & [Hq Hr] & _). by apply (inv_quiet n _ _ rf).
Qed.

(** ** Reachable states *)

Lemma init_node n i rf :
  (nodes (init_world (cmd:=cmd) n)).[i] = Some rf →
  0 ≤ i < Z.of_nat n ∧ rf = fresh_raft (Z.of_nat n) i MakePersister.
Proof.
  intros Hi. pose proof (go_index_Some_range _ _ _ Hi) as Hr. rewrite go_index_lookup in Hi by lia.
  simpl in Hi. apply list_lookup_fmap_Some in Hi as (k & -> & Hk%lookup_seq). split; [lia|]. f_equal. lia.
Qed.

Lemma init_inv n : cluster_inv (Z.of_nat n) (init_world n).
Proof.
  constructor; simpl.
  - split; [unfold go_len; by rewrite length_fmap, length_seq|]. intros i rf [Hr ->]%init_node.
    split; [|done]. by apply Make_init.
  - split; [intros v t k Hin|intros v t k k' Hin _]; by apply elem_of_nil in Hin.
  - by intros i rf [_ ->]%init_node.
  - intros i t Hin. by apply elem_of_nil in Hin.
  - intros id c Hc. by rewrite lookup_empty in Hc.
  - intros el g Hg. by rewrite lookup_empty in Hg.
Qed.

Lemma reachable_inv n w : reachable n w → cluster_inv (Z.of_nat n) w.
Proof.
  induction 1 as [|w ev w' _ IH Hstep]; [apply init_inv|].
  pose proof (step_inv _ _ ev IH) as H. by rewrite Hstep in H.
Qed.

Lemma run_reachable n evs w w' : reachable n w → run evs w = Next w' → reachable n w'.
Proof.
  revert w. induction evs as [|ev evs IH]; intros w Hr; simpl; [by intros [= <-]|].
  destruct (step ev w) as [w1| |] eqn:E; simpl; try done. apply IH. by eapply reachable_step.
Qed.

(** ** Properties *)

(** C8 (No panics).  No event makes any peer of a reachable cluster panic: every
    index and re-slice of raft.go is in range, whatever was lost, reordered or
    restarted before. *)
Theorem cluster_never_panics n w ev : reachable n w → step ev w ≠ Panic.
Proof.
  intros Hr E. pose proof (step_inv _ _ ev (reachable_inv _ _ Hr)) as H. by rewrite E in H.
Qed.

(** C4 (Election Safety).  At most one peer is leader in a term, also over time:
    a leader of a term and any peer that ever won an election of that term are
    the same. *)
Theorem election_safety n w i rf j :
  reachable n w → (nodes w).[i] = Some rf → state rf = Leader →
  HElected j (currentTerm rf) ∈ history w ∨
    (∃ rf', (nodes w).[j] = Some rf' ∧ state rf' = Leader ∧ currentTerm rf' = currentTerm rf) →
  i = j.
Proof.
  intros Hr Hi Hl Hj. pose proof (reachable_inv _ _ Hr) as Hinv.
  pose proof (ci_roles _ _ Hinv i rf Hi) as Hri. rewrite Hl in Hri.
  apply (elected_unique _ w i j (currentTerm rf) Hinv Hri).
  destruct Hj as [|(rf' & Hj & Hl' & <-)]; [done|].
  pose proof (ci_roles _ _ Hinv j rf' Hj) as Hrj. by rewrite Hl' in Hrj.
Qed.

(** C9 (Votes survive crashes).  A peer votes at most once per term over the
    whole run, and whatever it voted is on its persister: a restart from there
    comes back in a later term, or in the same term with the same vote. *)
Theorem votes_are_durable n w v t k :
  reachable n w → HVote v t k ∈ history w →
  (∀ k', HVote v t k' ∈ history w → k' = k) ∧
  ∃ rf rf', (nodes w).[v] = Some rf ∧ Make (peers rf) (me rf) (persister rf) = Some rf' ∧
    t ≤ currentTerm rf' ∧ (t = currentTerm rf' → voteFor rf' = k).
Proof.
  intros Hr Hv. pose proof (reachable_inv _ _ Hr) as Hinv. destruct (ci_votes _ _ Hinv) as [Hd Hu].
  split; [intros k' Hk'; by eapply Hu|]. destruct (Hd v t k Hv) as (_ & rf & Hi & Hle & Heq).
  pose proof (node_wf _ _ _ _ Hinv Hi) as Hwf. exists rf. rewrite (wf_peers _ _ Hwf).
  destruct (Make_restart _ rf Hwf) as (rf' & -> & _ & _ & _ & _ & _ & _ & _ & Ht & Hvf & _).
  exists rf'. by rewrite Ht, Hvf.
Qed.

(** (Leaders have a quorum).  The leader of a term was voted for in that term
    by a majority of the peers. *)
Theorem leader_has_quorum n w i rf :
  reachable n w → (nodes w).[i] = Some rf → state rf = Leader →
  ∃ Q, NoDup Q ∧ Z.of_nat n / 2 < go_len Q ∧
    ∀ q, q ∈ Q → 0 ≤ q < Z.of_nat n ∧ HVote q (currentTerm rf) i ∈ history w.
Proof.
  intros Hr Hi Hl. pose proof (reachable_inv _ _ Hr) as Hinv.
  pose proof (ci_roles _ _ Hinv i rf Hi) as Hri. rewrite Hl in Hri.
  destruct (ci_elected _ _ Hinv _ _ Hri) as (_ & Q & (Hnd & Hlen & Hrange) & HQ). exists Q. auto.
Qed.
End election_steps.

(** ** A run with an election, a commit, a crash and a second election *)

Definition demo_events : list (Event nat) :=
  [EvElection 0; EvHandle 0; EvReturn 0; EvStart 0 (Some 7%nat); EvSend 0 1; EvHandle 2; EvReturn 2;
   EvSend 0 2; EvHandle 3; EvReturn 3; EvApply 0; EvSend 0 1; EvHandle 4; EvReturn 4; EvApply 1;
   EvSend 0 2; EvHandle 5; EvCrash 0; EvElection 1; EvHandle 6; EvReturn 6].

Definition demo_world : World nat :=
  match run (Gob0 := nat_codec) demo_events (init_world 3) with Next w => w | _ => init_world 3 end.

Lemma demo_reachable : reachable (Gob0 := nat_codec) 3 demo_world.
Proof.
  apply (run_reachable (Gob0 := nat_codec) 3 demo_events (init_world 3)); [constructor|].
  vm_compute. reflexivity.
Qed.

Lemma cluster_never_panics_witness : step (Gob0 := nat_codec) (EvHandle 7) demo_world ≠ Panic.
Proof. exact (cluster_never_panics (Gob0 := nat_codec) 3 demo_world (EvHandle 7) demo_reachable). Defined.

Lemma election_safety_witness : ∃ rf, (nodes demo_world).[1] = Some rf ∧ state rf = Leader ∧ 1 = 1.
Proof.
  eexists. split; [vm_compute; reflexivity|]. split; [reflexivity|].
  eapply (election_safety (Gob0 := nat_codec) 3 demo_world 1 _ 1 demo_reachable);
    [vm_compute; reflexivity|reflexivity|]. left. vm_compute. left.
Defined.

Lemma votes_are_durable_witness :
  ∃ rf rf', (nodes demo_world).[0] = Some rf ∧ Make (Gob0 := nat_codec) (peers rf) (me rf) (persister rf) = Some rf' ∧
    2 ≤ currentTerm rf' ∧ (2 = currentTerm rf' → voteFor rf' = 1).
Proof.
  apply (votes_are_durable (Gob0 := nat_codec) 3 demo_world 0 2 1 demo_reachable). vm_compute. right. left.
Defined.

Lemma leader_has_quorum_witness :
  ∃ rf Q, (nodes demo_world).[1] = Some rf ∧ NoDup Q ∧ 1 < go_len Q ∧
    ∀ q, q ∈ Q → 0 ≤ q < 3 ∧ HVote q (currentTerm rf) 1 ∈ history demo_world.
Proof.
  eexists. edestruct (leader_has_quorum (Gob0 := nat_codec) 3 demo_world 1) as (Q & H);
    [exact demo_reachable|vm_compute; reflexivity|reflexivity|]. exists Q. split; [vm_compute; reflexivity|exact H].
Defined.
