(* ===== verification/Protocol.v ===== *)
(** * The protocol the cluster runs

    [protocol_step] states what one event may do to the cluster in the terms of
    the Raft protocol: a campaign, a vote, an election, an append, a snapshot, a
    commit, a delivery, a crash.  [step_refines] shows that every event of
    Cluster.v, which runs the code of raft.go, is such a step; the safety proofs
    argue about [protocol_step] only. *)

From S2P Require Import Prelude RaftUtil RaftNode RaftLog RaftWf RaftOps RaftRepl Cluster ElectionSafety.
Local Open Scope Z_scope.
Local Open Scope go_scope.

Section protocol.
Context {cmd : Type} `{!Gob (PersistedState cmd)}.
Implicit Types (rf : Raft cmd) (w : World cmd) (c : Call cmd) (cs : gmap nat (Call cmd)).

(** [c'] is a call of [cs], possibly orphaned meanwhile. *)
Definition call_from cs c' : Prop :=
  ∃ id c, cs !! id = Some c ∧ caller c' = caller c ∧ callee c' = callee c ∧ request c' = request c ∧
    reply c' = reply c ∧ (live c' = true → live c = true).

(** Every call in flight was there before, or is [new]. *)
Definition calls_step cs' cs (new : Call cmd → Prop) : Prop :=
  ∀ id c', cs' !! id = Some c' → call_from cs c' ∨ new c'.

(** Call [id] is handled: its request was [req], it now has the reply [r]. *)
Definition replied w (callee_ : Z) (req : Request cmd) (r : Reply) c' : Prop :=
  ∃ c, call_from (calls w) c ∧ callee c = callee_ ∧ request c = req ∧ reply c = None ∧
    c' = mkCall (caller c) (callee c) (request c) (Some r) (live c).

(** Peer [i] moves from [rf] to [rf'], events [evs] are recorded. *)
Record moves w w' (i : Z) rf rf' (new : Call cmd → Prop) (evs : list (HistEvent cmd)) : Prop := {
  mv_before : (nodes w).[i] = Some rf;
  mv_nodes : nodes w' = <[Z.to_nat i := rf']> (nodes w);
  mv_calls : calls_step (calls w') (calls w) new;
  mv_history : history w' = evs ++ history w
}.

Definition no_call c : Prop := False.

Inductive protocol_step (n : Z) (ev : Event cmd) w w' : Prop :=
| PS_drop :
    nodes w' = nodes w → calls_step (calls w') (calls w) no_call → history w' = history w →
    delivered w' = delivered w →
    protocol_step n ev w w'
| PS_local i rf rf' :
    moves w w' i rf rf' no_call [] → delivered w' = delivered w →
    quiet_step rf rf' → replica rf' = replica rf → raft_wf n rf' →
    (state rf' = Leader → matchIndex rf' = matchIndex rf) →
    protocol_step n ev w w'
| PS_campaign i rf rf' args el :
    moves w w' i rf rf' (λ c, caller c = i ∧ request c = ReqVote args el ∧ reply c = None)
      [HCampaign i (currentTerm rf + 1) (last_index (logs rf), last_term (logs rf)); HVote i (currentTerm rf + 1) i] →
    delivered w' = delivered w →
    args = mkRequestVoteArgs (currentTerm rf + 1) i (last_index (logs rf)) (last_term (logs rf)) →
    replica rf' = replica rf → raft_wf n rf' → state rf' = Candidate → currentTerm rf' = currentTerm rf + 1 →
    persisted rf' → voteFor rf' = i → (∀ k, HVote i (currentTerm rf + 1) k ∉ history w) →
    protocol_step n ev w w'
| PS_vote id c args el rf rf' r :
    calls w !! id = Some c → request c = ReqVote args el →
    moves w w' (callee c) rf rf' (replied w (callee c) (request c) (RepVote r))
      [HVote (callee c) (rv_Term args) (caller c)] →
    delivered w' = delivered w →
    replica rf' = replica rf → raft_wf n rf' → persisted rf' → currentTerm rf' = rv_Term args →
    currentTerm rf ≤ rv_Term args →
    state rf' = Follower ∨ (state rf' = state rf ∧ currentTerm rf' = currentTerm rf ∧ matchIndex rf' = matchIndex rf) →
    up_to_date (rv_LastLogIndex args) (rv_LastLogTerm args) (logs rf) →
    rvr_VoteGranted r = true → voteFor rf' = caller c →
    (rv_Term args = currentTerm rf → voteFor rf = -1 ∨ voteFor rf = caller c) →
    (∀ k, HVote (callee c) (rv_Term args) k ∈ history w → k = caller c) →
    protocol_step n ev w w'
| PS_vote_rejected id c rf rf' r :
    calls w !! id = Some c → rvr_VoteGranted r = false →
    moves w w' (callee c) rf rf' (replied w (callee c) (request c) (RepVote r)) [] →
    delivered w' = delivered w → quiet_step rf rf' → replica rf' = replica rf → raft_wf n rf' →
    matchIndex rf' = matchIndex rf →
    protocol_step n ev w w'
| PS_elected i rf rf' :
    moves w w' i rf rf' no_call [HElected i (currentTerm rf)] → delivered w' = delivered w →
    replica rf' = replica rf → raft_wf n rf' → stable rf' = stable rf →
    state rf = Candidate → state rf' = Leader → currentTerm rf' = currentTerm rf →
    (∀ p, 0 ≤ p < n → (matchIndex rf').[p] = Some (if p =? i then last_index (logs rf) else 0)) →
    (∃ id c, calls w !! id = Some c ∧ caller c = i) →
    (∃ Q, majority n Q ∧ ∀ q, q ∈ Q → HVote q (currentTerm rf) i ∈ history w) →
    protocol_step n ev w w'
| PS_start i rf rf' command :
    let e := mkLogEntry command (currentTerm rf) (last_index (logs rf) + 1) in
    moves w w' i rf rf' no_call [HAck i (Term e) (Index e, Term e); HStart i e (last_term (logs rf))] →
    delivered w' = delivered w → raft_wf n rf' → quiet_step rf rf' → persisted rf' → state rf = Leader →
    state rf' = state rf → currentTerm rf' = currentTerm rf → logs rf' = logs rf ++ [e] →
    commitIndex rf' = commitIndex rf → lastApplied rf' = lastApplied rf → pendingSnapshot rf' = pendingSnapshot rf →
    matchIndex rf' = <[Z.to_nat i := last_index (logs rf) + 1]> (matchIndex rf) →
    ReadSnapshot (persister rf') = ReadSnapshot (persister rf) → ev = EvStart i command →
    protocol_step n ev w w'
| PS_send_append i rf peer args :
    moves w w' i rf rf (λ c, c = mkCall i peer (ReqAppend args) None true) [] → delivered w' = delivered w →
    state rf = Leader → ae_Term args = currentTerm rf → ae_LeaderCommit args = commitIndex rf →
    append_args_of (logs rf) args →
    protocol_step n ev w w'
| PS_send_snapshot i rf peer args :
    moves w w' i rf rf (λ c, c = mkCall i peer (ReqSnapshot args) None true) [] → delivered w' = delivered w →
    state rf = Leader → is_Term args = currentTerm rf → is_LastIncludedIndex args = first_index (logs rf) →
    Term <$> head (logs rf) = Some (is_LastIncludedTerm args) →
    is_Data args = wire_data (Some (ReadSnapshot (persister rf))) →
    protocol_step n ev w w'
| PS_append id c args rf rf' r :
    calls w !! id = Some c → request c = ReqAppend args →
    moves w w' (callee c) rf rf' (replied w (callee c) (request c) (RepAppend r))
      (if aer_Success r then [HAck (callee c) (ae_Term args) (append_tip args)] else []) →
    delivered w' = delivered w → raft_wf n rf' → currentTerm rf ≤ ae_Term args → append_post args rf rf' r →
    protocol_step n ev w w'
| PS_stale id c rf r :
    calls w !! id = Some c →
    match r with RepVote _ => False | RepAppend r => aer_Success r = false | RepSnapshot _ => True end →
    moves w w' (callee c) rf rf (replied w (callee c) (request c) r) [] → delivered w' = delivered w →
    protocol_step n ev w w'
| PS_install id c args rf rf' r :
    calls w !! id = Some c → request c = ReqSnapshot args →
    moves w w' (callee c) rf rf' (replied w (callee c) (request c) (RepSnapshot r)) [] →
    delivered w' = delivered w → raft_wf n rf' → currentTerm rf ≤ is_Term args → install_post args rf rf' →
    protocol_step n ev w w'
| PS_append_reply id c args r rf rf' :
    calls w !! id = Some c → request c = ReqAppend args → reply c = Some (RepAppend r) → live c = true →
    moves w w' (caller c) rf rf' no_call [] → delivered w' = delivered w →
    quiet_step rf rf' → raft_wf n rf' →
    logs rf' = logs rf → lastApplied rf' = lastApplied rf → pendingSnapshot rf' = pendingSnapshot rf →
    ReadSnapshot (persister rf') = ReadSnapshot (persister rf) →
    (commitIndex rf' ≠ commitIndex rf →
       isValidLeader (ae_Term args) rf = true ∧ aer_Success r = true ∧ commit_rule rf rf') →
    (matchIndex rf' = matchIndex rf ∨
       (isValidLeader (ae_Term args) rf = true ∧ aer_Success r = true ∧
        matchIndex rf' = <[Z.to_nat (callee c) := (append_tip args).1]> (matchIndex rf))) →
    protocol_step n ev w w'
| PS_snapshot_reply id c args rf rf' :
    calls w !! id = Some c → request c = ReqSnapshot args → live c = true →
    moves w w' (caller c) rf rf' no_call [] → delivered w' = delivered w →
    quiet_step rf rf' → replica rf' = replica rf → raft_wf n rf' →
    (state rf' = Leader → matchIndex rf' = matchIndex rf ∨
      (isValidLeader (is_Term args) rf = true ∧
       matchIndex rf' = <[Z.to_nat (callee c) := is_LastIncludedIndex args]> (matchIndex rf))) →
    protocol_step n ev w w'
| PS_compact i rf rf' index snap e :
    moves w w' i rf rf' no_call [] → delivered w' = delivered w →
    quiet_step rf rf' → raft_wf n rf' → persisted rf' → first_index (logs rf) < index ≤ lastApplied rf →
    state rf' = state rf → currentTerm rf' = currentTerm rf → commitIndex rf' = commitIndex rf →
    lastApplied rf' = lastApplied rf → pendingSnapshot rf' = pendingSnapshot rf → matchIndex rf' = matchIndex rf →
    ReadSnapshot (persister rf') = default (ReadSnapshot (persister rf)) snap → ev = EvSnapshot i index snap →
    log_at (logs rf) index = Some e →
    logs rf' = compact_log (logs rf) (Z.to_nat (index - first_index (logs rf))) (Term e) (Index e) →
    protocol_step n ev w w'
| PS_deliver i rf rf' msg :
    moves w w' i rf rf' no_call [] → delivered w' = (i, msg) :: delivered w →
    quiet_step rf rf' → raft_wf n rf' → logs rf' = logs rf → commitIndex rf' = commitIndex rf →
    matchIndex rf' = matchIndex rf → ReadSnapshot (persister rf') = ReadSnapshot (persister rf) → ev = EvApply i →
    match msg with
    | SnapshotMsg s t k =>
        pendingSnapshot rf = Some msg ∧ pendingSnapshot rf' = None ∧ lastApplied rf' = lastApplied rf
    | CommandMsg command k =>
        pendingSnapshot rf = Some msg ∨
        (pendingSnapshot rf = None ∧ pendingSnapshot rf' = None ∧
         k = lastApplied rf + 1 ∧ k ≤ commitIndex rf ∧ lastApplied rf' = k ∧
         ∃ e, log_at (logs rf) k = Some e ∧ Command e = command)
    end →
    protocol_step n ev w w'
| PS_skip_applied i rf rf' :
    moves w w' i rf rf' no_call [] → delivered w' = delivered w → quiet_step rf rf' → raft_wf n rf' →
    logs rf' = logs rf → last_index (logs rf) < commitIndex rf → ReadSnapshot (persister rf') = ReadSnapshot (persister rf) →
    protocol_step n ev w w'
| PS_crash i rf rf' :
    moves w w' i rf rf' no_call [] → delivered w' = delivered w → raft_wf n rf' → persisted rf' →
    stable rf' = stable rf → state rf' = Follower → logs rf' = logs rf →
    commitIndex rf' = first_index (logs rf) → lastApplied rf' = first_index (logs rf) → pendingSnapshot rf' = None →
    persister rf' = persister rf → ev = EvCrash i →
    protocol_step n ev w w'.

(** ** Calls in flight *)

Lemma call_from_lookup cs id c : cs !! id = Some c → call_from cs c.
Proof. intros Hc. exists id, c. by split_and!. Qed.

Lemma calls_step_refl cs new : calls_step cs cs new.
Proof. intros id c Hc. left. by eapply call_from_lookup. Qed.

Lemma calls_step_delete cs id new : calls_step (delete id cs) cs new.
Proof. intros id' c [_ Hc]%lookup_delete_Some. left. by eapply call_from_lookup. Qed.

Lemma calls_step_add cs k c : calls_step (<[k := c]> cs) cs (λ x, x = c).
Proof. intros id c' [[_ <-]|[_ Hc]]%lookup_insert_Some; [by right|left]. by eapply call_from_lookup. Qed.

Lemma calls_step_orphan cs i new : calls_step (orphan i <$> cs) cs new.
Proof.
  intros id c'. rewrite lookup_fmap. destruct (cs !! id) as [c|] eqn:E; [|done]. intros [= <-].
  left. exists id, c. unfold orphan. by destruct (caller c =? i).
Qed.

Lemma replied_intro w id c r :
  calls w !! id = Some c → reply c = None →
  replied w (callee c) (request c) r (mkCall (caller c) (callee c) (request c) (Some r) (live c)).
Proof. intros Hc Hr. exists c. split_and!; try done. by eapply call_from_lookup. Qed.

Lemma calls_step_reply w id c r :
  calls w !! id = Some c → reply c = None →
  calls_step (<[id := mkCall (caller c) (callee c) (request c) (Some r) (live c)]> (calls w)) (calls w)
    (replied w (callee c) (request c) r).
Proof.
  intros Hc Hr id' c' [[_ <-]|[_ Hc']]%lookup_insert_Some; [right; by apply (replied_intro w id)|left].
  by eapply call_from_lookup.
Qed.

(** ** Votes in the history *)

(** A peer that may grant its vote has given it to nobody else in that term. *)
Lemma vote_unused n w v rf t cand k :
  cluster_inv n w → (nodes w).[v] = Some rf →
  currentTerm rf < t ∨ (t = currentTerm rf ∧ (voteFor rf = -1 ∨ voteFor rf = cand)) →
  HVote v t k ∈ history w → k = cand.
Proof.
  intros Hinv Hi Hcase Hk. destruct (proj1 (ci_votes _ _ Hinv) v t k Hk) as (Hr & x & Hx & Hle & Hv). simplify_eq.
  pose proof (node_wf _ _ _ _ Hinv Hi) as Hwf. pose proof (wf_stable_term _ _ Hwf). pose proof (wf_stable_vote _ _ Hwf).
  destruct Hcase as [|[-> Hvote]]; [lia|]. assert (E : currentTerm rf = stable_term rf) by lia. specialize (Hv E). lia.
Qed.

Lemma new_term_no_vote n w i rf :
  cluster_inv n w → (nodes w).[i] = Some rf → ∀ k, HVote i (currentTerm rf + 1) k ∉ history w.
Proof.
  intros Hinv Hi k Hk.
  assert (E : ∀ cand, k = cand) by (intros cand; eapply vote_unused; [done|done| |exact Hk]; left; lia).
  pose proof (E 0). pose proof (E 1). lia.
Qed.

(** ** Every event is a protocol step *)

Lemma step_election_refines n w i w' :
  cluster_inv n w → step_election i w = Next w' → protocol_step n (EvElection i) w w'.
Proof.
  intros Hinv. unfold step_election, enabled. step_node w i rf Hi Hwf Hme. simpl.
  destruct (ticker_election_wf n rf Hwf) as (rf' & -> & Hwf' & Hr & Hp & Hme' & Hpe & Hs & Ht & Hv & _).
  simpl. set (args := mkRequestVoteArgs _ _ _ _). unfold broadcast_vote. set (w1 := set_ballots _ _).
  destruct (broadcast_spec i args (seqZ 0 (peers rf')) w1) as [(E1 & _ & _ & E4 & E5) _ Hcalls _].
  { apply NoDup_seqZ. } { intros id c Hc. by apply (ci_calls _ _ Hinv id c). }
  intros [= <-]. apply (PS_campaign n _ w _ i rf rf' args (nextElection w)); simpl; try done.
  - split; simpl; rewrite ?E1, ?E5; [done|done| |unfold w1, args; simpl; by rewrite Hme].
    intros id c [Hc|(_ & p & _ & _ & ->)]%Hcalls; [left; by eapply call_from_lookup|right; done].
  - unfold args. by rewrite Hme.
  - congruence.
  - by apply (new_term_no_vote n w i rf).
Qed.

Lemma step_send_refines n w i peer w' :
  cluster_inv n w → step_send i peer w = Next w' → protocol_step n (EvSend i peer) w w'.
Proof.
  intros Hinv. unfold step_send, enabled. step_node w i rf Hi Hwf Hme. simpl.
  destruct (Z.eqb_spec peer i), (Z.ltb_spec peer 0), (Z.leb_spec (peers rf) peer); try done. simpl.
  pose proof (wf_peers _ _ Hwf) as Hpe.
  assert (Hsame : <[Z.to_nat i:=rf]> (nodes w) = nodes w).
  { apply list_insert_id. rewrite <- go_index_lookup; [done|]. apply go_index_Some_range in Hi. lia. }
  destruct (doSendAppendEntry_wf n peer rf) as (req & -> & Hreq); [done|lia|]. simpl.
  destruct req as [|args|args]; simpl; intros [= <-].
  - apply (PS_local n _ w w i rf rf); try done. split; try done. apply calls_step_refl.
  - destruct Hreq as (Hl & Ht & _ & Hli & Hlt & _ & Hdata).
    apply (PS_send_snapshot n _ w _ i rf peer (wire_snapshot args)); try done; [|simpl; by rewrite Hdata].
    split; try done. apply calls_step_add.
  - destruct Hreq as (Hl & Ht & _ & Hc & Haa).
    apply (PS_send_append n _ w _ i rf peer args); try done. split; try done. apply calls_step_add.
Qed.

Lemma handle_vote_refines n w id c args el w' :
  cluster_inv n w → calls w !! id = Some c → request c = ReqVote args el → reply c = None →
  step_handle id w = Next w' → protocol_step n (EvHandle id) w w'.
Proof.
  intros Hinv Hc Hreq Hrep. unfold step_handle, enabled. rewrite Hc. simpl.
  destruct (ci_calls _ _ Hinv id c Hc) as (Hlt & H1 & H2 & H3 & H4).
  step_node w (callee c) rf Hi Hwf Hme. simpl. rewrite Hrep, Hreq in *. destruct H4 as (Hcand & _ & _).
  destruct (RequestVote_wf n args rf Hwf) as (rf' & r & -> & Hwf' & Hrepl & Hm & Hno & Hyes & _). simpl.
  destruct (rvr_VoteGranted r) eqn:Hg; simpl; intros [= <-]; rewrite <- Hreq.
  - destruct Hyes as (Hs & Ht & Hv & Hp & Hme' & Hpe & Hup & Hcase); [done|].
    apply (PS_vote n _ w _ id c args el rf rf' r); try done.
    + split; [done|done|by apply calls_step_reply|simpl]. by rewrite Hcand.
    + lia.
    + rewrite Hs. destruct (Z.ltb_spec (currentTerm rf) (rv_Term args)); [by left|right].
      split_and!; [done|lia|done].
    + congruence.
    + intros Et. destruct Hcase as [|[_ ?]]; [lia|]. by rewrite <- Hcand.
    + intros k Hk. rewrite <- Hcand. by eapply vote_unused.
  - (* a rejected vote changes at most the term *)
    apply (PS_vote_rejected n _ w _ id c rf rf' r); auto.
    split; [done|done|by apply calls_step_reply|done].
Qed.

Lemma handle_append_refines n w id c args w' :
  cluster_inv n w → calls w !! id = Some c → request c = ReqAppend args → reply c = None →
  step_handle id w = Next w' → protocol_step n (EvHandle id) w w'.
Proof.
  intros Hinv Hc Hreq Hrep. unfold step_handle, enabled. rewrite Hc. simpl.
  destruct (ci_calls _ _ Hinv id c Hc) as (Hlt & H1 & H2 & H3 & H4).
  step_node w (callee c) rf Hi Hwf Hme. simpl. rewrite Hrep, Hreq in *. destruct H4 as (Ha & _ & _).
  destruct (AppendEntry_wf n args rf Hwf Ha) as (rf' & r & -> & Hwf' & _ & Hold & Hnew). simpl.
  intros [= <-]. rewrite <- Hreq. destruct (decide (ae_Term args < currentTerm rf)) as [Hstale|Hge].
  - destruct (Hold Hstale) as (-> & Hs & _). apply (PS_stale n _ w _ id c rf (RepAppend r)); try done.
    + rewrite Hs. split; [done|done|simpl; by apply calls_step_reply|done].
    + by rewrite Hs.
  - apply (PS_append n _ w _ id c args rf rf' r); try done; [|by destruct (aer_Success r)|lia|apply Hnew; lia].
    split; [done| | |]; destruct (aer_Success r); try done; simpl; by apply calls_step_reply.
Qed.

Lemma handle_install_refines n w id c args w' :
  cluster_inv n w → calls w !! id = Some c → request c = ReqSnapshot args → reply c = None →
  step_handle id w = Next w' → protocol_step n (EvHandle id) w w'.
Proof.
  intros Hinv Hc Hreq Hrep. unfold step_handle, enabled. rewrite Hc. simpl.
  destruct (ci_calls _ _ Hinv id c Hc) as (Hlt & H1 & H2 & H3 & H4).
  step_node w (callee c) rf Hi Hwf Hme. simpl. rewrite Hrep, Hreq in *. destruct H4 as (Ha & _).
  destruct (InstallSnapShot_wf n args rf Hwf Ha) as (rf' & -> & Hwf' & Hold & Hnew). simpl.
  intros [= <-]. rewrite <- Hreq. destruct (decide (is_Term args < currentTerm rf)) as [Hstale|Hge].
  - rewrite (Hold Hstale). eapply (PS_stale n _ w _ id c rf (RepSnapshot _)); try done.
    split; [done|done|by apply calls_step_reply|done].
  - eapply (PS_install n _ w _ id c args rf rf'); try done; [|lia|apply Hnew; lia].
    split; [done|done|by apply calls_step_reply|done].
Qed.

Lemma step_handle_refines n w id w' :
  cluster_inv n w → step_handle id w = Next w' → protocol_step n (EvHandle id) w w'.
Proof.
  intros Hinv Hs. destruct (calls w !! id) as [c|] eqn:Hc; [|unfold step_handle in Hs; by rewrite Hc in Hs].
  assert (Hrep : reply c = None).
  { unfold step_handle, enabled in Hs. rewrite Hc in Hs. simpl in Hs.
    destruct ((nodes w).[callee c]); [|done]. simpl in Hs. by destruct (reply c). }
  destruct (request c) eqn:Hreq;
    [by eapply handle_vote_refines|by eapply handle_append_refines|by eapply handle_install_refines].
Qed.

Lemma return_vote_refines n w id c args el w' :
  cluster_inv n w → calls w !! id = Some c → request c = ReqVote args el → live c = true →
  step_return id w = Next w' → protocol_step n (EvReturn id) w w'.
Proof.
  intros Hinv Hc Hreq Hlive. unfold step_return, enabled. rewrite Hc. simpl.
  step_node w (caller c) rf Hi Hwf Hme. simpl. rewrite Hreq, Hlive. simpl.
  destruct (ci_calls _ _ Hinv id c Hc) as (_ & _ & Hce & _ & Hcall). rewrite Hreq in Hcall.
  destruct (reply c) as [[r|r|r]|]; try done. destruct (ballots w !! el) as [g|] eqn:Hg; [|done]. simpl.
  destruct (handleVoteReply_wf n args r g rf Hwf) as (rf' & g' & -> & Hwf' & Hrepl & _ & Hcase). simpl.
  destruct Hcase as [(Hq & Hm & ->)|(Hvalid & Hgr & -> & Hmaj & Hs & Ht & Hme' & Hpe & Hst & Harr)].
  - rewrite decide_False by (intros [? ?]; destruct Hq as [_ _ [|[? _]]]; congruence). intros [= <-].
    apply (PS_local n _ w _ (caller c) rf rf'); try done. split; try done. apply calls_step_delete.
  - apply isValidCandidate_true in Hvalid as [Hs0 Ht0]. rewrite decide_True by done. intros [= <-].
    apply (PS_elected n _ w _ (caller c) rf rf'); try done.
    + split; try done; [apply calls_step_delete|]. simpl. by rewrite Ht.
    + intros p Hp. rewrite <- Hme. by apply Harr.
    + by exists id, c.
    + rewrite Ht0. eapply ballot_count; [by apply (ci_ballots _ _ Hinv el g Hg)|done..| |done]. by apply Hcall.
Qed.

Lemma step_return_refines n w id w' :
  cluster_inv n w → step_return id w = Next w' → protocol_step n (EvReturn id) w w'.
Proof.
  intros Hinv Hstep. destruct (calls w !! id) as [c|] eqn:Hc; [|unfold step_return in Hstep; by rewrite Hc in Hstep].
  destruct (live c) eqn:Hlive; cycle 1.
  { unfold step_return, enabled in Hstep. rewrite Hc in Hstep. simpl in Hstep.
    destruct ((nodes w).[caller c]); [|done]. simpl in Hstep. by rewrite Hlive in Hstep. }
  destruct (ci_calls _ _ Hinv id c Hc) as (Hlt & H1 & H2 & H3 & H4).
  destruct (request c) as [args el|args|args] eqn:Hreq; [by eapply return_vote_refines|..];
    revert Hstep; unfold step_return, enabled; rewrite Hc; simpl; step_node w (caller c) rf Hi Hwf Hme; simpl;
    rewrite Hlive, Hreq; simpl; destruct (reply c) as [[r|r|r]|] eqn:Hrep; try done.
  - destruct H4 as (_ & Hl & _). destruct (Hl Hlive) as [_ Hprev].
    destruct (handleAppendReply_wf n (callee c) args r rf)
      as (rf' & -> & Hwf' & Hq & _ & Hlog & Ha & Hps & Hsn & Hcom & Hm); [done..|by apply Hprev|].
    simpl. intros [= <-]. apply (PS_append_reply n _ w _ id c args r rf rf'); try done.
    split; try done. apply calls_step_delete.
  - destruct (handleSnapShotReply_wf n (callee c) args r rf) as (rf' & -> & Hwf' & [Hq Hr] & _ & Hm); [done..|].
    simpl. intros [= <-]. apply (PS_snapshot_reply n _ w _ id c args rf rf'); try done.
    + split; try done. apply calls_step_delete.
    + intros Hs. destruct (qs_role _ _ Hq) as [|[Hs' Ht']]; [congruence|]. auto.
Qed.

Lemma step_start_refines n w i command w' :
  cluster_inv n w → step_start i command w = Next w' → protocol_step n (EvStart i command) w w'.
Proof.
  intros Hinv. unfold step_start, enabled. step_node w i rf Hi Hwf Hme. simpl.
  destruct (Start_wf n command rf Hwf) as (rf' & r & -> & Hwf' & Hq & _ & Hs & Ht & Hc & Ha & Hps & Hsn & Hno & Hyes).
  simpl. destruct (decide (state rf = Leader)) as [Hl|Hnl].
  - destruct (Hyes Hl) as (-> & Hp & Hlog & _ & Hm). intros [= <-]. rewrite Hme in Hm.
    apply (PS_start n _ w _ i rf rf' command); try done. split; try done. apply calls_step_refl.
  - destruct (Hno Hnl) as [-> ->]. intros [= <-].
    apply (PS_local n _ w _ i rf rf); try done. split; try done. apply calls_step_refl.
Qed.

Lemma step_snapshot_refines n w i index snap w' :
  cluster_inv n w → step_snapshot i index snap w = Next w' → protocol_step n (EvSnapshot i index snap) w w'.
Proof.
  intros Hinv. unfold step_snapshot, enabled. step_node w i rf Hi Hwf Hme. simpl.
  destruct (Z.ltb_spec (lastApplied rf) index) as [|Hle]; [done|].
  destruct (Snapshot_wf n index snap rf)
    as (rf' & -> & Hwf' & Hq & _ & Hs & Ht & Hc & Ha & Hps & Hm & Hlog); [done..|].
  simpl. intros [= <-]. destruct Hlog as [->|(e & He & Hlt & Hp & Hsn & Hlog)].
  - apply (PS_local n _ w _ i rf rf); try done. split; try done. apply calls_step_refl.
  - apply (PS_compact n _ w _ i rf rf' index snap e); try done. split; try done. apply calls_step_refl.
Qed.

Lemma step_apply_refines n w i w' :
  cluster_inv n w → step_apply i w = Next w' → protocol_step n (EvApply i) w w'.
Proof.
  intros Hinv. unfold step_apply, enabled. step_node w i rf Hi Hwf Hme. simpl.
  destruct (applier_wf n rf Hwf) as (rf' & act & -> & Hwf' & Hq & _ & Hlog & Hc & Hm & Hsn & Hact). simpl.
  assert (Hmv : moves w (set_node i rf' w) i rf rf' no_call []) by (split; try done; apply calls_step_refl).
  destruct act as [| | |msg]; intros [= <-].
  - destruct Hact as [-> _]. by apply (PS_local n _ w _ i rf rf).
  - destruct Hact as [-> _]. by apply (PS_local n _ w _ i rf rf).
  - destruct Hact as [_ Hlt]. by apply (PS_skip_applied n _ w _ i rf rf').
  - apply (PS_deliver n _ w _ i rf rf' msg); try done; [by destruct Hmv|]. by destruct msg.
Qed.

Lemma step_crash_refines n w i w' :
  cluster_inv n w → step_crash i w = Next w' → protocol_step n (EvCrash i) w w'.
Proof.
  intros Hinv. unfold step_crash, enabled. step_node w i rf Hi Hwf Hme. simpl. rewrite (wf_peers _ _ Hwf).
  destruct (Make_restart n rf Hwf)
    as (rf' & -> & Hwf' & Hp & Hst & Hme' & _ & Hs & _ & _ & _ & Hlog & Hc & Ha & Hps & Hper). simpl.
  intros [= <-]. apply (PS_crash n _ w _ i rf rf'); try done. split; try done. apply calls_step_orphan.
Qed.

(** The code refines the protocol. *)
Lemma step_refines n w ev w' : cluster_inv n w → step ev w = Next w' → protocol_step n ev w w'.
Proof.
  intros Hinv. destruct ev as [i|i|i peer|id|id|id|i command|i index snap|i|i|i]; simpl;
    [by apply step_election_refines| |by apply step_send_refines|by apply step_handle_refines
    |by apply step_return_refines| |by apply step_start_refines|by apply step_snapshot_refines
    |by apply step_apply_refines| |by apply step_crash_refines].
  - unfold enabled. step_node w i rf Hi Hwf Hme. simpl. intros [= <-].
    destruct (ticker_heartbeat_wf n rf Hwf) as (Hwf' & [Hq Hr] & Hm & _).
    apply (PS_local n _ w _ i rf (ticker_heartbeat rf).1); try done. split; try done. apply calls_step_refl.
  - intros [= <-]. apply PS_drop; try done. apply calls_step_delete.
  - unfold enabled. step_node w i rf Hi Hwf Hme. simpl. intros [= <-]. destruct (Kill_wf n rf Hwf) as (Hwf' & [Hq Hr] & _).
    apply (PS_local n _ w _ i rf (Kill rf)); try done. split; try done. apply calls_step_refl.
Qed.

(** C7 (The code refines the protocol).  Every step that the handlers, timers,
    goroutines and crashes of a reachable cluster make is a step of the Raft
    protocol as [protocol_step] states it, with its guards: a vote goes to a
    candidate whose log is up to date and only if nobody else has the vote of that
    peer in that term, a candidate leads only with the votes of a majority, only a
    leader appends to its log and sends entries, it commits only entries of its term
    that a majority holds, a snapshot covers only what was applied. *)
Theorem code_refines_protocol n w ev w' :
  reachable n w → step ev w = Next w' → protocol_step (Z.of_nat n) ev w w'.
Proof. intros Hr Hs. eapply step_refines; [by apply reachable_inv|done]. Qed.

(** ** What the protocol gives by itself *)

(** Runs of the protocol, whatever code makes its steps. *)
Inductive protocol_run (n : Z) w0 : World cmd → Prop :=
| PR_refl : protocol_run n w0 w0
| PR_next ev w w' : protocol_run n w0 w → protocol_step n ev w w' → protocol_run n w0 w'.

Definition votes_once (h : list (HistEvent cmd)) : Prop := ∀ v t k k', HVote v t k ∈ h → HVote v t k' ∈ h → k = k'.
Definition by_majority n (h : list (HistEvent cmd)) : Prop :=
  ∀ i t, HElected i t ∈ h → ∃ Q, majority n Q ∧ ∀ q, q ∈ Q → HVote q t i ∈ h.

(** What a step adds to the history: no vote and no election, a vote nobody else
    has, or an election by a majority. *)
Lemma protocol_step_history n ev w w' :
  protocol_step n ev w w' →
  ∃ evs, history w' = evs ++ history w ∧
    ((∀ e, e ∈ evs → election_event e = false) ∨
     (∃ v t k, (∀ e, e ∈ evs → election_event e = true → e = HVote v t k) ∧ ∀ k', HVote v t k' ∈ history w → k' = k) ∨
     (∃ i t, evs = [HElected i t] ∧ ∃ Q, majority n Q ∧ ∀ q, q ∈ Q → HVote q t i ∈ history w)).
Proof.
  intros Hstep. inversion Hstep;
    match goal with H : moves _ _ _ _ _ _ _ |- _ => destruct H as [_ _ _ H]; eexists; split; [exact H|] | |- _ => idtac end.
  all: try (left; intros ? []%not_elem_of_nil).
  all: try (left; intros e' He; repeat (apply elem_of_cons in He as [->|He]; [done|]); by apply not_elem_of_nil in He).
  - exists []. split; [done|]. left. intros ? []%not_elem_of_nil.
  - right; left. eexists i, _, i. split; [|intros k' Hk; match goal with Hno : ∀ k, HVote _ _ k ∉ _ |- _ => by destruct (Hno k') end].
    intros e He Hel. apply elem_of_cons in He as [->|He]; [done|]. by apply list_elem_of_singleton in He.
  - right; left. eexists _, _, _. split; [|eassumption]. intros e He _. by apply list_elem_of_singleton in He.
  - right; right. eauto.
  - left. intros e He. destruct (aer_Success r); [apply list_elem_of_singleton in He as ->; done|by apply not_elem_of_nil in He].
Qed.

(** (The protocol elects one leader per term).  The steps of [protocol_step] alone,
    from a history without votes and elections, give no second vote of a peer in
    a term and no second leader of a term. *)
Theorem protocol_elects_one n w0 w i j t :
  0 ≤ n → history w0 = [] → protocol_run n w0 w → HElected i t ∈ history w → HElected j t ∈ history w → i = j.
Proof.
  intros Hn H0 Hrun. assert (H : votes_once (history w) ∧ by_majority n (history w)).
  { induction Hrun as [|ev w w' _ [IHv IHm] Hs].
    - rewrite H0. split; [intros v t' k k' []%not_elem_of_nil|intros i' t' []%not_elem_of_nil].
    - destruct (protocol_step_history n ev w w' Hs) as (evs & -> & Hevs).
      assert (Hkeep : ∀ i t, HElected i t ∈ history w → ∃ Q, majority n Q ∧ ∀ q, q ∈ Q → HVote q t i ∈ evs ++ history w).
      { intros i' t' (Q & HQ & Hin)%IHm. exists Q. split; [done|]. intros q Hq. apply elem_of_app. right. by apply Hin. }
      destruct Hevs as [Hno|[(v & t' & k & Hone & Hold)|(i' & t' & -> & Q & HQ & Hin)]].
      + split; [intros v t' k k' [Hv|Hv]%elem_of_app [Hv'|Hv']%elem_of_app|intros i' t' [He|He]%elem_of_app; [|by apply Hkeep]];
          try (by apply Hno in Hv); try (by apply Hno in Hv'); [by eapply IHv|by apply Hno in He].
      + split; [|intros i' t2 [He|He]%elem_of_app; [by apply Hone in He|by apply Hkeep]].
        intros v' t2 k1 k2 [H1|H1]%elem_of_app [H2|H2]%elem_of_app; try apply Hone in H1; try apply Hone in H2; try done; simplify_eq; auto.
        * symmetry. by apply Hold.
        * by eapply IHv.
      + split.
        * intros v t2 k1 k2 [[=]|H1]%elem_of_cons [[=]|H2]%elem_of_cons. by eapply IHv.
        * intros i2 t2 [[= -> ->]|He]%elem_of_cons; [|by apply Hkeep]. exists Q. split; [done|]. intros q Hq. right. by apply Hin. }
  destruct H as [Hv Hm]. intros (Q & HQ & HvQ)%Hm (Q' & HQ' & HvQ')%Hm.
  destruct (majority_intersect n Q Q') as (q & Hq & Hq'); [done..|]. by eapply Hv; [apply HvQ|apply HvQ'].
Qed.

(** A peer that leads after a step led before it, or got a reply to a call. *)
Lemma leader_step n ev w w' i rf' :
  protocol_step n ev w w' → (nodes w').[i] = Some rf' → state rf' = Leader →
  (∃ rf, (nodes w).[i] = Some rf ∧ state rf = Leader) ∨ ∃ id c, calls w !! id = Some c.
Proof.
  intros Hstep Hi' Hl.
  assert (Hmove : ∀ j x x' new evs, moves w w' j x x' new evs →
    (state x' = Leader → state x = Leader ∨ ∃ id c, calls w !! id = Some c) →
    (∃ rf, (nodes w).[i] = Some rf ∧ state rf = Leader) ∨ ∃ id c, calls w !! id = Some c).
  { intros j x x' new evs [Hj Hn _ _] Hx. rewrite Hn, (nodes_insert _ _ x) in Hi' by done.
    case_decide as E; [subst j; injection Hi' as <-|left; eauto]. destruct (Hx Hl) as [|]; [left; eauto|by right]. }
  assert (Hq : ∀ x x' : Raft cmd, quiet_step x x' → state x' = Leader → state x = Leader ∨ ∃ id c, calls w !! id = Some c).
  { intros x x' [_ _ [Hf|[Hs _]] _ _] Hx; [congruence|left; congruence]. }
  destruct Hstep as
    [Hn _ _ _|j x x' Hmv _ Hqx _ _ _|j x x' args el Hmv _ _ _ _ Hs _ _
    |id c args el x x' r _ _ Hmv _ _ _ _ _ _ Hs _|id c x x' r _ _ Hmv _ Hqx _ _ _
    |j x x' Hmv _ _ _ _ _ _ _ _ (id & c & Hc & _)|j x x' command e Hmv _ _ Hqx _ _ _ _ _ _ _ _ _ _ _
    |j x peer args Hmv _ _ _ _ _|j x peer args Hmv _ _ _ _ _ _
    |id c args x x' r _ _ Hmv _ _ _ Hpost|id c x r _ _ Hmv _
    |id c args x x' r _ _ Hmv _ _ _ Hpost|id c args r x x' _ _ _ _ Hmv _ Hqx _ _ _ _ _ _ _
    |id c args x x' _ _ _ Hmv _ Hqx _ _ _|j x x' index snap e Hmv _ Hqx _ _ _ _ _ _ _ _ _ _ _ _ _
    |j x x' msg Hmv _ Hqx _ _ _ _ _ _ _|j x x' Hmv _ Hqx _ _ _ _|j x x' Hmv _ _ _ _ Hs _ _ _ _ _ _];
    try (by eapply Hmove; [exact Hmv|apply Hq]); try (by eapply Hmove; [exact Hmv|left; congruence]);
    try (by eapply Hmove; [exact Hmv|rewrite Hs]).
  - left. rewrite <- Hn. eauto.
  - eapply Hmove; [exact Hmv|]. intros Hx. destruct Hs as [|(? & _)]; [congruence|left; congruence].
  - right. eauto.
  - eapply Hmove; [exact Hmv|]. by rewrite (ap_follower _ _ _ _ Hpost).
  - eapply Hmove; [exact Hmv|]. by rewrite (ip_follower _ _ _ Hpost).
Qed.

(** (A single server never leads).  Votes are only counted when a reply from
    another peer arrives, so a cluster of one server, which has its own vote and
    thus a majority, never elects a leader. *)
Theorem single_server_never_leads w i rf :
  reachable 1 w → (nodes w).[i] = Some rf → state rf ≠ Leader.
Proof.
  intros Hr. revert i rf. induction Hr as [|w ev w' Hr IH Hstep]; intros i rf Hi Hl.
  - by apply init_node in Hi as [_ ->].
  - pose proof (reachable_inv _ _ Hr) as Hinv.
    destruct (leader_step 1 ev w w' i rf) as [(x & Hx & Hlx)|(id & c & Hc)]; [by apply (step_refines _ w ev)|done..| |].
    + by eapply IH.
    + destruct (ci_calls _ _ Hinv id c Hc) as (_ & ? & ? & ? & _). lia.
Qed.
End protocol.

Lemma code_refines_protocol_witness :
  ∃ w', step (Gob0 := nat_codec) (EvSend 1 2) demo_world = Next w' ∧ protocol_step (Gob0 := nat_codec) 3 (EvSend 1 2) demo_world w'.
Proof.
  eexists. split; [vm_compute; reflexivity|].
  apply (code_refines_protocol (Gob0 := nat_codec) 3 demo_world (EvSend 1 2)); [exact demo_reachable|].
  vm_compute. reflexivity.
Defined.

Definition lone_events : list (Event nat) := [EvElection 0; EvElection 0].

Definition lone_world : World nat :=
  match run (Gob0 := nat_codec) lone_events (init_world 1) with Next w => w | _ => init_world 1 end.

Lemma single_server_never_leads_witness :
  ∃ rf, (nodes lone_world).[0] = Some rf ∧ currentTerm rf = 2 ∧ state rf ≠ Leader.
Proof.
  eexists. split; [vm_compute; reflexivity|]. split; [reflexivity|].
  apply (single_server_never_leads (Gob0 := nat_codec) lone_world 0); [|vm_compute; reflexivity].
  apply (run_reachable (Gob0 := nat_codec) 1 lone_events (init_world 1)); [constructor|].
  vm_compute. reflexivity.
Defined.
