(* ===== verification/LogMatching.v ===== *)
(** * Log matching

    Every log of the cluster, and every log suffix in an AppendEntry in flight,
    is a path of the tree of LogTree.v.  Two logs that agree on the term at some
    index therefore agree on everything before it: the Log Matching property. *)

From S2P Require Import Prelude RaftUtil RaftNode RaftLog RaftWf RaftOps RaftRepl Cluster LogTree ElectionSafety Protocol.
Local Open Scope Z_scope.
Local Open Scope go_scope.

(** ** Operations on logs that are paths *)

Section paths.
Context {cmd : Type} `{!Gob (PersistedState cmd)}.
Implicit Types (h : list (HistEvent cmd)) (l es : list (LogEntry cmd)) (e : LogEntry cmd).

Lemma log_path_app h l es : log_path h l → seg_path h (last_term l) es → log_path h (l ++ es).
Proof.
  destruct l as [|e l]; [done|]. simpl. intros [He Hl] Hes. split; [done|].
  apply seg_path_app. split; [done|]. unfold last_term in Hes. by rewrite last_term_cons in Hes.
Qed.

Lemma log_path_take h l k : (0 < k)%nat → log_path h l → log_path h (take k l).
Proof.
  intros Hk. destruct l as [|e l]; [done|]. destruct k as [|k]; [lia|]. intros [He Hl]. split; [done|].
  rewrite <- (take_drop k l) in Hl. by apply seg_path_app in Hl as [? _].
Qed.

Lemma seg_path_drop h t es k e : seg_path h t es → es !! k = Some e → seg_path h (Term e) (drop (S k) es).
Proof.
  revert t k. induction es as [|x es IH]; intros t k Hp Hk; [done|]. destruct Hp as [Hx Hes].
  destruct k as [|k]; [by injection Hk as <-|]. by apply (IH (Term x)).
Qed.

Lemma log_path_drop h l k e : log_path h l → l !! k = Some e → seg_path h (Term e) (drop (S k) l).
Proof.
  destruct l as [|x l]; [done|]. intros [_ Hl] Hk. destruct k as [|k]; [by injection Hk as <-|].
  by apply (seg_path_drop h (Term x) l k).
Qed.

(** Compaction keeps the path and its end. *)
Lemma compact_path h l k e :
  tree_ok h → log_wf l → log_path h l → l !! k = Some e →
  log_path h (compact_log l k (Term e) (Index e)) ∧ log_tip (compact_log l k (Term e) (Index e)) = log_tip l.
Proof.
  intros Hh Hwf Hp Hk. split.
  - split; [|by apply (log_path_drop h l k e)]. apply (in_tree_anc _ Hh _ (log_tip l)); [|by apply log_tip_in_tree].
    change (anc h (Index e, Term e) (log_tip l)).
    apply log_path_anc; [done|done|]. unfold log_at. rewrite (lookup_Index _ _ _ Hwf Hk).
    replace (first_index l + Z.of_nat k - first_index l) with (Z.of_nat k) by lia. by rewrite go_index_nat.
  - unfold log_tip. by rewrite compact_log_last, compact_log_last_term.
Qed.

(** The append loop of AppendEntry leaves a log that already holds the entries,
    or makes the log end where they end. *)
Lemma merge_path h l pi p es l' :
  tree_ok h → log_wf l → log_path h l → log_at l pi = Some p → log_seg pi (Term p) es →
  seg_path h (Term p) es → log_merge l pi es l' →
  log_path h l' ∧
  ((l' = l ∧ anc h (seg_tip pi (Term p) es) (log_tip l)) ∨
   (log_tip l' = seg_tip pi (Term p) es ∧ ¬ anc h (seg_tip pi (Term p) es) (log_tip l))).
Proof.
  intros Hh Hwf Hp Hpi Hs Hes Hm. destruct (log_at_Some _ _ _ Hwf Hpi) as (Hi & _ & Hr).
  (* the term where the entries [es'] that the log already holds end *)
  assert (Hend : ∀ es', entries_in l es' → log_seg pi (Term p) es' →
    ∃ q, log_at l (pi + go_len es') = Some q ∧ Term q = default (Term p) (Term <$> last es')).
  { intros es' Hin Hs'. destruct (last es') as [x|] eqn:E; simpl; cycle 1.
    { apply last_None in E as ->. exists p. unfold go_len. by rewrite Z.add_0_r. }
    rewrite last_lookup in E. pose proof (list_elem_of_lookup_2 _ _ _ E) as Hx.
    destruct (Hin x Hx) as (q & Hq & Ht). destruct (log_seg_lookup _ _ _ _ _ Hs' E) as [Hix _].
    exists q. split; [|done]. rewrite <- Hq. f_equal. destruct es'; [done|]. unfold go_len. simpl in *. lia. }
  destruct Hm as [[-> Hin]|(es1 & e & es2 & qi & q & -> & Hin & Hle & Hqi & Hq & Hseg & Hconf & ->)].
  - split; [done|left]. split; [done|]. destruct (Hend es Hin Hs) as (q & Hq & Ht).
    unfold seg_tip. rewrite <- Ht. by apply log_path_anc.
  - destruct (proj1 (log_seg_app _ _ _ _) Hs) as [Hs1 _]. apply seg_path_app in Hes as Hes12.
    destruct Hes12 as [Hes1 Hes2]. destruct (Hend es1 Hin Hs1) as (q' & Hq' & Ht). rewrite <- Hqi, Hq in Hq'.
    injection Hq' as <-. rewrite <- Ht in Hes2.
    destruct (truncate_append_wf l qi q (e :: es2)) as (W1 & W2 & W3 & W4 & _ & W6 & _); try done.
    destruct (log_at_Some _ _ _ Hwf Hq) as (_ & _ & Hrq).
    set (l1 := take _ l) in *.
    assert (Hl1 : last_term l1 = Term q).
    { destruct (truncate_append_wf l qi q []) as (_ & _ & _ & E & _); try done. by rewrite app_nil_r in E. }
    assert (Htip : log_tip (l1 ++ e :: es2) = seg_tip pi (Term p) (es1 ++ e :: es2)).
    { unfold log_tip, seg_tip. rewrite W3, W4. rewrite last_app.
      destruct (last (e :: es2)) eqn:E; [|by apply last_None in E]. simpl. f_equal.
      unfold go_len in *. rewrite length_app. lia. }
    split; [apply log_path_app; [apply log_path_take; [lia|done]|by rewrite Hl1]|right]. split; [done|].
    intros Hanc. destruct (seg_path_anc h pi (Term p) (es1 ++ e :: es2) (length es1) e) as [_ He]; try done.
    { by rewrite list_lookup_middle. }
    destruct Hseg as (Hie & _ & _).
    destruct (anc_log_at h l (Index e) (Term e)) as (x & Hx & Htx); try done; [by etrans|lia|].
    by destruct (Hconf x Hx).
Qed.

(** Installing a snapshot that ends at (i, t), likewise. *)
Lemma snapshot_path h l i t l' :
  tree_ok h → log_wf l → log_path h l → first_index l ≤ i → in_tree h (i, t) → snapshot_merge l i t l' →
  log_path h l' ∧
  ((log_tip l' = log_tip l ∧ anc h (i, t) (log_tip l)) ∨
   (log_tip l' = (i, t) ∧ ¬ anc h (i, t) (log_tip l))).
Proof.
  intros Hh Hwf Hp Hf Hin Hm. destruct Hm as [[-> Hc]|(e & He & <- & Hlt & ->)].
  - split; [done|]. assert (Htip : log_tip (generateSingleLog (cmd:=cmd) i t) = (i, t)).
    { unfold log_tip, last_index, last_term, first_index, go_len. simpl. f_equal. lia. }
    rewrite Htip. destruct Hc as [Hc|(e & He & Hne)].
    + destruct (decide ((i, t) = log_tip l)) as [E|Hne].
      { left. rewrite E. split; [done|constructor]. }
      right. split; [done|]. intros Hanc. apply Hne. apply (anc_same_index _ Hh); [done|].
      apply (anc_le _ Hh) in Hanc. simpl in *. lia.
    + right. split; [done|]. intros Hanc. destruct (anc_log_at h l i t) as (x & Hx & Ht); try done. congruence.
  - destruct (compact_path h l (Z.to_nat (i - first_index l)) e) as [H1 H2]; try done; [by apply log_at_lookup|].
    split; [done|left]. split; [done|]. by apply log_path_anc.
Qed.
End paths.

(** ** The invariant *)

Section tree_inv.
Context {cmd : Type} `{!Gob (PersistedState cmd)}.
Implicit Types (h : list (HistEvent cmd)) (rf : Raft cmd) (w : World cmd) (c : Call cmd).

(** A candidate campaigns with its log; the log of a leader ends where it was
    elected or with entries of its own term, and holds all of these. *)
Definition role_path h (i : Z) rf : Prop :=
  match state rf with
  | Follower => True
  | Candidate => HCampaign i (currentTerm rf) (log_tip (logs rf)) ∈ h
  | Leader =>
      (HCampaign i (currentTerm rf) (log_tip (logs rf)) ∈ h ∨ last_term (logs rf) = currentTerm rf) ∧
      (∀ e p, HStart i e p ∈ h → Term e = currentTerm rf → Index e ≤ last_index (logs rf))
  end.

Definition request_path h c : Prop :=
  match request c with
  | ReqVote args _ => HCampaign (caller c) (rv_Term args) (rv_LastLogIndex args, rv_LastLogTerm args) ∈ h
  | ReqAppend args =>
      in_tree h (ae_PrevLogIndex args, ae_PrevLogTerm args) ∧
      seg_path h (ae_PrevLogTerm args) (ae_Entries args) ∧ on_leader h (ae_Term args) (append_tip args)
  | ReqSnapshot args => on_leader h (is_Term args) (is_LastIncludedIndex args, is_LastIncludedTerm args)
  end.

Record tree_inv w : Prop := {
  ti_tree : tree_ok (history w);
  ti_logs i rf : (nodes w).[i] = Some rf → log_path (history w) (logs rf);
  ti_roles i rf : (nodes w).[i] = Some rf → role_path (history w) i rf;
  ti_campaigns i t tip : HCampaign i t tip ∈ history w → HVote i t i ∈ history w;
  ti_calls id c : calls w !! id = Some c → request_path (history w) c
}.

Lemma request_path_mono h h' c : h ⊆ h' → request_path h c → request_path h' c.
Proof.
  intros Hsub. unfold request_path. destruct (request c); [auto| |by apply on_leader_mono].
  intros (H1 & H2 & H3).
  split_and!; [by eapply in_tree_mono|by eapply seg_path_mono|by eapply on_leader_mono].
Qed.

Lemma request_path_from w c : tree_inv w → call_from (calls w) c → request_path (history w) c.
Proof.
  intros Hinv (id & c0 & Hc0 & E1 & E2 & E3 & _). pose proof (ti_calls _ Hinv id c0 Hc0) as H.
  unfold request_path in *. by rewrite E3, E1.
Qed.

Lemma request_path_replied w j req r c : tree_inv w → replied w j req r c → request_path (history w) c.
Proof.
  intros Hinv (c0 & Hc0 & _ & _ & _ & ->). pose proof (request_path_from w c0 Hinv Hc0) as H. exact H.
Qed.

(** Moving one peer. *)
Lemma tree_frame w w' i rf rf' new evs :
  tree_inv w → moves w w' i rf rf' new evs →
  tree_ok (history w') → log_path (history w') (logs rf') → role_path (history w') i rf' →
  (∀ j e p, HStart j e p ∈ evs → j = i) → (∀ j t tip, HCampaign j t tip ∈ evs → HVote j t j ∈ evs) →
  (∀ c, new c → request_path (history w') c) → tree_inv w'.
Proof.
  intros Hinv [Hi Hn Hc Hh] Htree Hlog Hrole Hstart Hcamp Hnew.
  assert (Hsub : history w ⊆ history w') by (rewrite Hh; intros x Hx; apply elem_of_app; auto).
  constructor; [done|..].
  - intros j x. rewrite Hn, (nodes_insert _ _ rf) by done. case_decide; [by intros [= <-]|].
    intros Hx. eapply log_path_mono; [done|]. by eapply (ti_logs _ Hinv).
  - intros j x. rewrite Hn, (nodes_insert _ _ rf) by done. case_decide as E; [subst j; by intros [= <-]|].
    intros Hx. pose proof (ti_roles _ Hinv j x Hx) as Hr. unfold role_path in *.
    destruct (state x); [done|auto|]. destruct Hr as [Hr1 Hr2]. split; [destruct Hr1; auto|].
    intros e p. rewrite Hh, elem_of_app. intros [Hin%Hstart|Hin]; [congruence|eauto].
  - intros j t c. rewrite Hh, !elem_of_app. intros [?%Hcamp|?%(ti_campaigns _ Hinv)]; auto.
  - intros id c [Hfrom|?]%Hc; [|auto]. eapply request_path_mono; [done|]. by apply request_path_from.
Qed.

(** ** Histories *)

Definition tree_event (e : HistEvent cmd) : bool :=
  match e with HVote _ _ _ | HAck _ _ _ => false | _ => true end.

Lemma tree_ok_inert evs h :
  tree_ok h → (∀ e, e ∈ evs → tree_event e = false) → tree_ok (evs ++ h).
Proof.
  intros [T1 T2 T3 T4 T5 T6 T7] Hev.
  assert (Hin : ∀ x, tree_event x = true → x ∈ evs ++ h → x ∈ h).
  { intros x Hx [Hx'%Hev|]%elem_of_app; [congruence|done]. }
  assert (Hsub : h ⊆ evs ++ h) by (intros x Hx; apply elem_of_app; auto).
  constructor.
  - intros j e p j' e' p' H1%Hin H2%Hin; [|done..]. eauto.
  - intros j e p H1%Hin; [|done]. destruct (T2 _ _ _ H1). auto.
  - intros j e p H1%Hin; [|done]. destruct (T3 _ _ _ H1) as [|(? & e' & p' & H2 & H3)]; [auto|right].
    split; [done|]. exists e', p'. auto.
  - intros j t c c' H1%Hin H2%Hin; [|done..]. eauto.
  - intros j t c H1%Hin; [|done]. destruct (T5 _ _ _ H1). split; [by eapply in_tree_mono|done].
  - intros j j' t H1%Hin H2%Hin; [|done..]. eauto.
  - intros j t H1%Hin; [|done]. destruct (T7 _ _ H1) as [c Hc]. eauto.
Qed.

Lemma tree_ok_campaign h i t (c : point) :
  tree_ok h → (∀ tip, HCampaign i t tip ∉ h) → in_tree h c → c.2 < t → tree_ok (HCampaign i t c :: h).
Proof.
  intros [T1 T2 T3 T4 T5 T6 T7] Hnew Hc Hlt.
  assert (Hsub : h ⊆ HCampaign i t c :: h) by (by right). constructor.
  - intros j e p j' e' p' [|H1]%elem_of_cons [|H2]%elem_of_cons; try done. eauto.
  - intros j e p [|H1]%elem_of_cons; [done|]. destruct (T2 _ _ _ H1). auto.
  - intros j e p [|H1]%elem_of_cons; [done|].
    destruct (T3 _ _ _ H1) as [|(? & e' & p' & H2 & H3)]; [auto|right]. split; [done|]. exists e', p'. auto.
  - intros j t' c1 c2 [E1|H1]%elem_of_cons [E2|H2]%elem_of_cons; [congruence| | |eauto].
    + injection E1 as -> -> ->. by destruct (Hnew c2).
    + injection E2 as -> -> ->. by destruct (Hnew c1).
  - intros j t' c' [[= -> -> ->]|H1]%elem_of_cons; [by split; [eapply in_tree_mono|]|].
    destruct (T5 _ _ _ H1). split; [by eapply in_tree_mono|done].
  - intros j j' t' [|H1]%elem_of_cons [|H2]%elem_of_cons; try done. eauto.
  - intros j t' [|H1]%elem_of_cons; [done|]. destruct (T7 _ _ H1) as [c' Hc']. eauto.
Qed.

Lemma tree_ok_elected h i t (c : point) :
  tree_ok h → (∀ j, HElected j t ∈ h → j = i) → HCampaign i t c ∈ h → tree_ok (HElected i t :: h).
Proof.
  intros [T1 T2 T3 T4 T5 T6 T7] Hnew Hc.
  assert (Hsub : h ⊆ HElected i t :: h) by (by right). constructor.
  - intros j e p j' e' p' [|H1]%elem_of_cons [|H2]%elem_of_cons; try done. eauto.
  - intros j e p [|H1]%elem_of_cons; [done|]. destruct (T2 _ _ _ H1). auto.
  - intros j e p [|H1]%elem_of_cons; [done|].
    destruct (T3 _ _ _ H1) as [|(? & e' & p' & H2 & H3)]; [auto|right]. split; [done|]. exists e', p'. auto.
  - intros j t' c1 c2 [|H1]%elem_of_cons [|H2]%elem_of_cons; try done. eauto.
  - intros j t' c' [|H1]%elem_of_cons; [done|]. destruct (T5 _ _ _ H1). split; [by eapply in_tree_mono|done].
  - intros j j' t' [E1|H1]%elem_of_cons [E2|H2]%elem_of_cons; [congruence| | |eauto].
    + injection E1 as -> ->. symmetry. auto.
    + injection E2 as -> ->. auto.
  - intros j t' [[= -> ->]|H1]%elem_of_cons; [eauto|]. destruct (T7 _ _ H1) as [c' Hc']. eauto.
Qed.

Lemma tree_ok_start h i e p :
  tree_ok h → HElected i (Term e) ∈ h → 1 ≤ Index e → 0 ≤ p ≤ Term e →
  (∀ j e' p', HStart j e' p' ∈ h → Index e' = Index e → Term e' ≠ Term e) →
  HCampaign i (Term e) (Index e - 1, p) ∈ h ∨
    (p = Term e ∧ ∃ e' p', HStart i e' p' ∈ h ∧ Index e' = Index e - 1 ∧ Term e' = Term e) →
  tree_ok (HStart i e p :: h).
Proof.
  intros [T1 T2 T3 T4 T5 T6 T7] He Hidx Hp Hnew Hpar.
  assert (Hsub : h ⊆ HStart i e p :: h) by (by right). constructor.
  - intros j e1 p1 j' e2 p2 [E1|H1]%elem_of_cons [E2|H2]%elem_of_cons Ei Et; [|exfalso..|eauto].
    + injection E1 as -> -> ->. by injection E2 as -> -> ->.
    + injection E1 as -> -> ->. by apply (Hnew _ _ _ H2).
    + injection E2 as -> -> ->. by apply (Hnew _ _ _ H1).
  - intros j e1 p1 [[= -> -> ->]|H1]%elem_of_cons; [auto|]. destruct (T2 _ _ _ H1). auto.
  - intros j e1 p1 [[= -> -> ->]|H1]%elem_of_cons; [|apply T3 in H1 as Hpar'; clear Hpar; rename Hpar' into Hpar].
    all: destruct Hpar as [|(? & e' & p' & H2 & H3)]; [auto|right]; split; [done|]; exists e', p'; auto.
  - intros j t' c1 c2 [|H1]%elem_of_cons [|H2]%elem_of_cons; try done. eauto.
  - intros j t' c' [|H1]%elem_of_cons; [done|]. destruct (T5 _ _ _ H1). split; [by eapply in_tree_mono|done].
  - intros j j' t' [|H1]%elem_of_cons [|H2]%elem_of_cons; try done. eauto.
  - intros j t' [|H1]%elem_of_cons; [done|]. destruct (T7 _ _ H1) as [c' Hc']. eauto.
Qed.

(** ** Every protocol step keeps the invariant *)

Lemma tree_keep w w' i rf rf' new evs :
  tree_inv w → moves w w' i rf rf' new evs → (∀ e, e ∈ evs → tree_event e = false) →
  log_path (history w) (logs rf') →
  state rf' = Follower ∨
    (state rf' = state rf ∧ currentTerm rf' = currentTerm rf ∧ log_tip (logs rf') = log_tip (logs rf)) →
  (∀ c, new c → request_path (history w) c) → tree_inv w'.
Proof.
  intros Hinv Hmv Hev Hlog Hrole Hnew. pose proof Hmv as [Hi Hn Hc Hh].
  assert (Hsub : history w ⊆ history w') by (rewrite Hh; intros x Hx; apply elem_of_app; auto).
  eapply tree_frame; [done|done|..].
  - rewrite Hh. apply tree_ok_inert; [apply Hinv|done].
  - by eapply log_path_mono.
  - destruct Hrole as [Hf|(Hs & Ht & Htip)]; unfold role_path; [by rewrite Hf|].
    pose proof (ti_roles _ Hinv i rf Hi) as Hr. unfold role_path in Hr. rewrite Hs, Ht, Htip.
    injection Htip as -> ->. destruct (state rf); [done|auto|]. destruct Hr as [Hr1 Hr2].
    split; [destruct Hr1; auto|]. intros e p. rewrite Hh, elem_of_app. intros [Hin%Hev|Hin]; [done|eauto].
  - by intros j e p Hin%Hev.
  - by intros j t tip Hin%Hev.
  - intros c Hc'. eapply request_path_mono; [done|auto].
Qed.

(** Leader and candidate of a term are on the chain of the term. *)
Lemma leader_on_chain n w i rf :
  cluster_inv n w → tree_inv w → (nodes w).[i] = Some rf → state rf = Leader →
  on_leader (history w) (currentTerm rf) (log_tip (logs rf)).
Proof.
  intros Hci Hinv Hi Hl. pose proof (ti_roles _ Hinv i rf Hi) as Hr. pose proof (ci_roles _ _ Hci i rf Hi) as He.
  unfold role_path in Hr. rewrite Hl in Hr, He. destruct Hr as [Hr _].
  destruct (tk_elected _ (ti_tree _ Hinv) _ _ He) as [c Hc]. exists c. split; [by exists i|].
  destruct Hr as [Hr|Hr]; [left|right].
  - rewrite (tk_campaign _ (ti_tree _ Hinv) _ _ _ _ Hr Hc). constructor.
  - split; [done|]. apply log_tip_in_tree; [|by eapply (ti_logs _ Hinv)]. by eapply node_log_wf.
Qed.

Lemma tree_start n w w' i rf rf' command :
  let e := mkLogEntry command (currentTerm rf) (last_index (logs rf) + 1) in
  cluster_inv n w → tree_inv w →
  moves w w' i rf rf' no_call [HAck i (Term e) (Index e, Term e); HStart i e (last_term (logs rf))] →
  state rf = Leader → state rf' = state rf → currentTerm rf' = currentTerm rf → logs rf' = logs rf ++ [e] →
  tree_inv w'.
Proof.
  intros e Hci Hinv Hmv Hl Hs Ht Hlog. pose proof Hmv as [Hi Hn Hc Hh].
  destruct (proj2 (ci_nodes _ _ Hci) i rf Hi) as [Hwf _]. pose proof (wf_log _ _ Hwf) as Hlwf.
  pose proof (ti_roles _ Hinv i rf Hi) as Hr. unfold role_path in Hr. rewrite Hl in Hr. destruct Hr as [Hr1 Hr2].
  pose proof (ci_roles _ _ Hci i rf Hi) as He. rewrite Hl in He.
  pose proof (ti_logs _ Hinv i rf Hi) as Hpath. pose proof (wf_stable_term _ _ Hwf) as Hst.
  destruct (in_tree_bounds _ (ti_tree _ Hinv) (log_tip (logs rf))) as [Hb1 Hb2]; [by apply log_tip_in_tree|].
  simpl in Hb1, Hb2.
  assert (Hmine : ∀ j e' p', HStart j e' p' ∈ history w → Term e' = currentTerm rf → j = i).
  { intros j e' p' Hin E. destruct (tk_entry _ (ti_tree _ Hinv) _ _ _ Hin) as [He' _]. rewrite E in He'.
    by eapply (elected_unique n w). }
  assert (Htree : tree_ok (HStart i e (last_term (logs rf)) :: history w)).
  { apply tree_ok_start; simpl; try done; [apply Hinv|lia|lia| |].
    - intros j e' p' Hin E1 E2. rewrite (Hmine _ _ _ Hin E2) in Hin. specialize (Hr2 _ _ Hin E2). lia.
    - replace (last_index (logs rf) + 1 - 1) with (last_index (logs rf)) by lia.
      destruct Hr1 as [Hr1|Hr1]; [by left|]. assert (Hin := log_tip_in_tree _ _ Hlwf Hpath).
      destruct Hin as [E|(j & e' & p' & Hin & E)]; injection E as E1 E2.
      + (* an empty log in term 0 has no leader *)
        left. destruct (tk_elected _ (ti_tree _ Hinv) _ _ He) as [c Hc'].
        destruct (tk_campaign_tip _ (ti_tree _ Hinv) _ _ _ Hc') as [Hct Hlt].
        destruct (in_tree_bounds _ (ti_tree _ Hinv) _ Hct). lia.
      + right. split; [done|]. exists e', p'. rewrite (Hmine _ _ _ Hin) in Hin by congruence.
        split_and!; [done|congruence|congruence]. }
  eapply tree_frame; [done|done|..].
  - rewrite Hh. apply (tree_ok_inert [HAck _ _ _]); [done|]. by intros x ->%list_elem_of_singleton.
  - rewrite Hlog, Hh. apply log_path_app.
    + eapply log_path_mono; [|done]. intros x Hx. apply elem_of_app. auto.
    + split; [|done]. exists i. right. by left.
  - unfold role_path. rewrite Hs, Hl, Ht, Hlog. split.
    + right. unfold last_term. by rewrite last_snoc.
    + intros e' p'. rewrite Hh. intros [|[[= -> ->]|Hin]%elem_of_cons]%elem_of_cons; try done.
      * rewrite last_index_app by (by apply log_wf_nonempty). unfold go_len. simpl. lia.
      * intros E. specialize (Hr2 _ _ Hin E). rewrite last_index_app by (by apply log_wf_nonempty).
        unfold go_len. simpl. lia.
  - intros j e' p' [|[[= -> -> ->]|[]%elem_of_nil]%elem_of_cons]%elem_of_cons; done.
  - by intros j t tip [|[|[]%elem_of_nil]%elem_of_cons]%elem_of_cons.
  - done.
Qed.

Lemma tree_campaign n w w' i rf rf' args el :
  cluster_inv n w → tree_inv w →
  moves w w' i rf rf' (λ c, caller c = i ∧ request c = ReqVote args el ∧ reply c = None)
    [HCampaign i (currentTerm rf + 1) (last_index (logs rf), last_term (logs rf)); HVote i (currentTerm rf + 1) i] →
  args = mkRequestVoteArgs (currentTerm rf + 1) i (last_index (logs rf)) (last_term (logs rf)) →
  logs rf' = logs rf → state rf' = Candidate → currentTerm rf' = currentTerm rf + 1 → tree_inv w'.
Proof.
  intros Hci Hinv Hmv Hargs Hlog Hs Ht. pose proof Hmv as [Hi Hn Hc Hh].
  pose proof (node_wf _ _ _ _ Hci Hi) as Hwf. pose proof (wf_stable_term _ _ Hwf) as Hst.
  pose proof (ti_logs _ Hinv i rf Hi) as Hpath.
  eapply tree_frame; [done|done|..]; rewrite ?Hh.
  - apply tree_ok_campaign.
    + apply (tree_ok_inert [HVote _ _ _]); [apply Hinv|]. by intros x ->%list_elem_of_singleton.
    + intros tip [|Hin%(ti_campaigns _ Hinv)]%elem_of_cons; [done|].
      destruct (proj1 (ci_votes _ _ Hci) _ _ _ Hin) as (_ & x & Hx & Hle & _).
      rewrite Hi in Hx. injection Hx as <-. lia.
    + eapply in_tree_mono; [|apply log_tip_in_tree; [apply Hwf|done]]. by right.
    + simpl. lia.
  - rewrite Hlog. eapply log_path_mono; [|done]. intros x Hx. apply elem_of_app. by right.
  - unfold role_path. rewrite Hs, Ht, Hlog. by left.
  - by intros j e p [|[|[]%elem_of_nil]%elem_of_cons]%elem_of_cons.
  - intros j t tip [[= -> -> _]|[|[]%elem_of_nil]%elem_of_cons]%elem_of_cons; [|done]. right. by left.
  - intros c (Hca & Hr & _). unfold request_path. rewrite Hr, Hca, Hargs. by left.
Qed.

Lemma tree_elected n w w' i rf rf' :
  cluster_inv n w → cluster_inv n w' → tree_inv w →
  moves w w' i rf rf' no_call [HElected i (currentTerm rf)] →
  logs rf' = logs rf → state rf = Candidate → state rf' = Leader → currentTerm rf' = currentTerm rf → tree_inv w'.
Proof.
  intros Hci Hci' Hinv Hmv Hlog Hs Hs' Ht. pose proof Hmv as [Hi Hn Hc Hh].
  pose proof (ti_roles _ Hinv i rf Hi) as Hr. unfold role_path in Hr. rewrite Hs in Hr.
  pose proof (ci_roles _ _ Hci i rf Hi) as Hcand. rewrite Hs in Hcand. destruct Hcand as [_ Hnot].
  eapply tree_frame; [done|done|..].
  - rewrite Hh. eapply tree_ok_elected; [apply Hinv| |done].
    intros j Hj. eapply (elected_unique n w'); [done| |]; rewrite Hh; [by right|by left].
  - rewrite Hlog. eapply log_path_mono; [|by eapply (ti_logs _ Hinv)]. rewrite Hh. by right.
  - unfold role_path. rewrite Hs', Ht, Hlog, Hh. split; [left; by right|].
    intros e p [|Hin]%elem_of_cons E; [done|]. destruct (tk_entry _ (ti_tree _ Hinv) _ _ _ Hin) as [He _].
    by rewrite E in He.
  - by intros j e p [|[]%elem_of_nil]%elem_of_cons.
  - by intros j t tip [|[]%elem_of_nil]%elem_of_cons.
  - done.
Qed.

(** What an AppendEntry in flight does to the log of the peer that accepts it. *)
Lemma append_path n w c args rf rf' r i :
  cluster_inv n w → tree_inv w → call_from (calls w) c → request c = ReqAppend args → append_args_wf args →
  (nodes w).[i] = Some rf → append_post args rf rf' r →
  log_path (history w) (logs rf') ∧
  (if aer_Success r then
     (logs rf' = logs rf ∧ anc (history w) (append_tip args) (log_tip (logs rf))) ∨
     (log_tip (logs rf') = append_tip args ∧ ¬ anc (history w) (append_tip args) (log_tip (logs rf)))
   else logs rf' = logs rf).
Proof.
  intros Hci Hinv Hc Hreq [Hs _] Hi Hpost. pose proof (request_path_from w c Hinv Hc) as Hr.
  unfold request_path in Hr. rewrite Hreq in Hr. destruct Hr as (_ & Hseg & _).
  pose proof (ti_logs _ Hinv i rf Hi) as Hpath. pose proof (node_log_wf _ _ _ _ Hci Hi) as Hwf.
  destruct (decide (prev_matched args (logs rf))) as [Hm|Hm].
  - destruct (ap_match _ _ _ _ Hpost Hm) as (-> & Hmerge & _). destruct Hm as (p & Hp & Ht).
    rewrite <- Ht in Hs, Hseg.
    destruct (merge_path (history w) (logs rf) (ae_PrevLogIndex args) p (ae_Entries args) (logs rf'))
      as [H1 H2]; try done; [apply Hinv|]. split; [done|]. unfold append_tip. by rewrite <- Ht.
  - destruct (ap_mismatch _ _ _ _ Hpost Hm) as [E%replica_logs ->]. by rewrite E.
Qed.

Lemma install_path n w c args rf rf' i :
  cluster_inv n w → tree_inv w → call_from (calls w) c → request c = ReqSnapshot args →
  (nodes w).[i] = Some rf → install_post args rf rf' →
  let m := (is_LastIncludedIndex args, is_LastIncludedTerm args) in
  log_path (history w) (logs rf') ∧
  (log_tip (logs rf') = log_tip (logs rf) ∨
   (log_tip (logs rf') = m ∧ persisted rf' ∧ ¬ anc (history w) m (log_tip (logs rf)))).
Proof.
  intros Hci Hinv Hc Hreq Hi Hpost m. pose proof (request_path_from w c Hinv Hc) as Hr.
  unfold request_path in Hr. rewrite Hreq in Hr. pose proof (node_wf _ _ _ _ Hci Hi) as Hwf.
  pose proof (ti_logs _ Hinv i rf Hi) as Hpath.
  destruct (decide (is_LastIncludedIndex args ≤ lastApplied rf)) as [Hle|Hgt].
  - destruct (ip_stale _ _ _ Hpost Hle) as [E%replica_logs _]. rewrite E. auto.
  - destruct (ip_fresh _ _ _ Hpost) as (Hp & Hmerge & _); [lia|].
    pose proof (wf_applied _ _ Hwf) as Happ.
    destruct (snapshot_path (history w) (logs rf) (is_LastIncludedIndex args) (is_LastIncludedTerm args) (logs rf'))
      as [H1 H2]; try done; [apply Hinv|apply Hwf|lia| |].
    + destruct Hr as (tip & Htip & [Ha|[_ Ha]]); [|done].
      eapply (in_tree_anc _ (ti_tree _ Hinv)); [done|]. by apply leader_tip_term in Htip as [? _]; [|apply Hinv].
    + split; [done|]. destruct H2 as [[? _]|[? ?]]; auto.
Qed.

Lemma send_append_path n w i rf args :
  cluster_inv n w → tree_inv w → (nodes w).[i] = Some rf → state rf = Leader → ae_Term args = currentTerm rf →
  append_args_of (logs rf) args →
  append_tip args = log_tip (logs rf) ∧
  ∀ peer, request_path (history w) (mkCall i peer (ReqAppend args) None true).
Proof.
  intros Hci Hinv Hi Hl Ht Haa. pose proof (node_wf _ _ _ _ Hci Hi) as Hwf.
  pose proof (wf_log _ _ Hwf) as Hlwf. pose proof (ti_logs _ Hinv i rf Hi) as Hpath.
  pose proof (wf_stable_term _ _ Hwf) as Hst.
  destruct (append_args_of_wf (logs rf) args) as ([Hs _] & Hlast & Hr); [done|lia|done|].
  destruct Haa as [(p & Hp & Htp) Hent]. pose proof (log_at_lookup _ _ _ Hp) as Hk.
  set (k := Z.to_nat (ae_PrevLogIndex args - first_index (logs rf))) in *.
  assert (Hent' : ae_Entries args = drop (S k) (logs rf)) by (rewrite Hent; f_equal; lia).
  assert (Hanc := log_path_anc _ _ _ _ Hlwf Hpath Hp).
  assert (Hseg : seg_path (history w) (Term p) (ae_Entries args)) by (rewrite Hent'; by apply log_path_drop with (l := logs rf)).
  assert (Htip : append_tip args = log_tip (logs rf)).
  { unfold append_tip, log_tip. f_equal; [done|]. rewrite <- Htp, Hent'. unfold last_term.
    rewrite <- (take_drop (S k) (logs rf)) at 2. rewrite last_app, (take_S_r _ _ p), last_snoc by done.
    by destruct (last (drop (S k) (logs rf))). }
  split; [done|]. intros peer. split_and!; simpl.
  - rewrite <- Htp. apply (in_tree_anc _ (ti_tree _ Hinv) _ (log_tip (logs rf))); [done|by apply log_tip_in_tree].
  - by rewrite <- Htp.
  - rewrite Htip, Ht. by eapply leader_on_chain.
Qed.

Lemma tree_step n ev w w' :
  cluster_inv n w → cluster_inv n w' → tree_inv w → protocol_step n ev w w' → tree_inv w'.
Proof.
  intros Hci Hci' Hinv Hstep.
  assert (Hsame : ∀ i rf rf', (nodes w).[i] = Some rf → logs rf' = logs rf → log_path (history w) (logs rf')).
  { intros i rf rf' Hi ->. by eapply (ti_logs _ Hinv). }
  assert (Hquiet : ∀ rf rf', quiet_step rf rf' → log_tip (logs rf') = log_tip (logs rf) → state rf' = Follower ∨
    (state rf' = state rf ∧ currentTerm rf' = currentTerm rf ∧ log_tip (logs rf') = log_tip (logs rf))).
  { intros rf rf' [_ _ [|[? ?]] _ _] Ht; auto. }
  assert (Hnil : ∀ e : HistEvent cmd, e ∈ [] → tree_event e = false) by (by intros e []%elem_of_nil).
  assert (Hone : ∀ x e : HistEvent cmd, tree_event x = false → e ∈ [x] → tree_event e = false).
  { by intros x e Hx ->%list_elem_of_singleton. }
  assert (Hno : ∀ c : Call cmd, no_call c → request_path (history w) c) by done.
  pose proof (λ j req r c, request_path_replied w j req r c Hinv) as Hrep.
  destruct Hstep as
    [Hn Hc Hh _|i rf rf' Hmv _ Hq Hr _ _|i rf rf' args el Hmv _ Ha Hr _ Hs Ht _
    |id c args el rf rf' r Hc Hreq Hmv _ Hr _ _ Ht _ Hs _|id c rf rf' r Hc _ Hmv _ Hq Hr _ _
    |i rf rf' Hmv _ Hr _ _ Hs Hs' Ht _ _|i rf rf' command e Hmv _ _ _ _ Hl Hs Ht Hlog _ _ _ _ _ _
    |i rf peer args Hmv _ Hl Ht _ Haa|i rf peer args Hmv _ Hl Ht Hi0 Ht0 _
    |id c args rf rf' r Hc Hreq Hmv _ _ _ Hpost|id c rf r Hc _ Hmv _
    |id c args rf rf' r Hc Hreq Hmv _ _ _ Hpost|id c args r rf rf' Hc _ _ _ Hmv _ Hq _ Hlog _ _ _ _ _
    |id c args rf rf' Hc _ _ Hmv _ Hq Hr _ _|i rf rf' index snap e Hmv _ Hq _ _ _ Hs Ht _ _ _ _ _ _ He Hlog
    |i rf rf' msg Hmv _ Hq _ Hlog _ _ _ _ _|i rf rf' Hmv _ Hq _ Hlog _ _|i rf rf' Hmv _ _ _ _ Hs Hlog _ _ _ _ _];
    try (pose proof (mv_before _ _ _ _ _ _ _ Hmv) as Hi).
  - constructor; rewrite ?Hn, ?Hh; try apply Hinv. intros id c [Hfrom|[]]%Hc. by apply request_path_from.
  - apply replica_logs in Hr. eapply tree_keep; eauto. apply Hquiet; [done|by rewrite Hr].
  - apply replica_logs in Hr. by apply (tree_campaign n w w' i rf rf' args el).
  - apply replica_logs in Hr. eapply tree_keep; [done|done|by intros x Hx; eapply Hone in Hx|eauto| |eauto].
    destruct Hs as [|(? & ? & _)]; [by left|right]. by rewrite Hr.
  - apply replica_logs in Hr. eapply tree_keep; eauto. apply Hquiet; [done|by rewrite Hr].
  - apply replica_logs in Hr. by apply (tree_elected n w w' i rf rf').
  - by apply (tree_start n w w' i rf rf' command).
  - eapply tree_keep; eauto. intros c ->. by apply (send_append_path n w i rf args).
  - eapply tree_keep; eauto. intros c ->. unfold request_path. simpl. rewrite Ht, Hi0.
    eapply (on_leader_anc _ (ti_tree _ Hinv)); [by eapply leader_on_chain|].
    pose proof (node_log_wf _ _ _ _ Hci Hi) as Hwf.
    destruct (logs rf) as [|x l] eqn:El; [done|]. injection Ht0 as <-. rewrite <- El in *.
    apply log_path_anc; [done|by eapply (ti_logs _ Hinv)|]. unfold log_at. rewrite Z.sub_diag, El. done.
  - destruct (ci_calls _ _ Hci id c Hc) as (_ & _ & _ & _ & Hok). rewrite Hreq in Hok. destruct Hok as (Hawf & _).
    destruct (append_path n w c args rf rf' r (callee c)) as [Hp _]; try done; [by eapply call_from_lookup|].
    eapply tree_keep; eauto; [|left; by destruct Hpost]. destruct (aer_Success r); [|done]. by intros x ->%list_elem_of_singleton.
  - eapply tree_keep; eauto.
  - destruct (install_path n w c args rf rf' (callee c)) as [Hp _]; try done; [by eapply call_from_lookup|].
    eapply tree_keep; eauto. left. by destruct Hpost.
  - eapply tree_keep; eauto. apply Hquiet; [done|by rewrite Hlog].
  - apply replica_logs in Hr. eapply tree_keep; eauto. apply Hquiet; [done|by rewrite Hr].
  - destruct (compact_path (history w) (logs rf) (Z.to_nat (index - first_index (logs rf))) e) as [H1 H2];
      [apply Hinv|by apply (node_log_wf n w i)|by apply (ti_logs _ Hinv i)|by apply log_at_lookup|].
    rewrite <- Hlog in H1, H2. eapply tree_keep; eauto.
  - eapply tree_keep; eauto. apply Hquiet; [done|by rewrite Hlog].
  - eapply tree_keep; eauto. apply Hquiet; [done|by rewrite Hlog].
  - eapply tree_keep; eauto.
Qed.

Lemma init_tree n : tree_inv (init_world n).
Proof.
  constructor; simpl.
  - constructor; intros *; intros Hin; by apply elem_of_nil in Hin.
  - intros i rf [_ ->]%init_node. split; [by left|exact I].
  - by intros i rf [_ ->]%init_node.
  - intros i t tip Hin. by apply elem_of_nil in Hin.
  - intros id c Hc. by rewrite lookup_empty in Hc.
Qed.

Lemma reachable_tree n w : reachable n w → tree_inv w.
Proof.
  induction 1 as [|w ev w' Hr IH Hstep]; [apply init_tree|].
  pose proof (reachable_inv _ _ Hr) as Hci.
  pose proof (reachable_inv _ _ (reachable_step _ _ _ _ Hr Hstep)) as Hci'.
  apply (tree_step (Z.of_nat n) ev w w'); [done|done|done|]. by apply (step_refines _ w ev).
Qed.

(** ** Two logs that are paths *)

(** Paths that meet at an index agree before it; a compacted entry keeps its
    term only. *)
Lemma paths_agree h (l1 l2 : list (LogEntry cmd)) idx e1 e2 :
  tree_ok h → log_wf l1 → log_wf l2 → log_path h l1 → log_path h l2 →
  log_at l1 idx = Some e1 → log_at l2 idx = Some e2 → Term e1 = Term e2 →
  ∀ k x1 x2, k ≤ idx → log_at l1 k = Some x1 → log_at l2 k = Some x2 →
    Term x1 = Term x2 ∧ (first_index l1 < k → first_index l2 < k → x1 = x2).
Proof.
  intros Hh Hwf1 Hwf2 Hp1 Hp2 He1 He2 Ht k x1 x2 Hk Hx1 Hx2.
  pose proof (log_path_anc _ _ _ _ Hwf1 Hp1 He1) as A1. pose proof (log_path_anc _ _ _ _ Hwf2 Hp2 He2) as A2.
  assert (B1 : anc h (k, Term x1) (idx, Term e1)).
  { apply (anc_linear _ Hh _ _ (log_tip l1)); [by apply log_path_anc|done|done]. }
  assert (B2 : anc h (k, Term x2) (idx, Term e1)).
  { rewrite Ht. apply (anc_linear _ Hh _ _ (log_tip l2)); [by apply log_path_anc|done|done]. }
  assert (Hterm : Term x1 = Term x2).
  { assert (E : (k, Term x1) = (k, Term x2)); [|by injection E].
    apply (anc_same_index _ Hh); [|done]. by eapply anc_linear. }
  split; [done|]. intros Hf1 Hf2.
  destruct (log_path_entry _ _ _ _ Hwf1 Hp1 Hx1 Hf1) as (j1 & p1 & Hin1).
  destruct (log_path_entry _ _ _ _ Hwf2 Hp2 Hx2 Hf2) as (j2 & p2 & Hin2).
  destruct (log_at_Some _ _ _ Hwf1 Hx1) as [E1 _]. destruct (log_at_Some _ _ _ Hwf2 Hx2) as [E2 _].
  eapply (tk_unique _ Hh); [done|done|congruence|done].
Qed.

(** C5 (Log Matching).  If the logs of two peers have entries with the same
    index and term, then at every smaller index that both still hold they have
    the same term, and the same entry unless one of them is the dummy entry left
    by a compaction. *)
Theorem log_matching n w i j rf rf' idx e e' :
  reachable n w → (nodes w).[i] = Some rf → (nodes w).[j] = Some rf' →
  log_at (logs rf) idx = Some e → log_at (logs rf') idx = Some e' → Term e = Term e' →
  ∀ k x x', k ≤ idx → log_at (logs rf) k = Some x → log_at (logs rf') k = Some x' →
    Term x = Term x' ∧ (first_index (logs rf) < k → first_index (logs rf') < k → x = x').
Proof.
  intros Hr Hi Hj He He' Ht. pose proof (reachable_inv _ _ Hr) as Hci. pose proof (reachable_tree _ _ Hr) as Hti.
  apply (paths_agree (history w) (logs rf) (logs rf') idx e e'); try done;
    [apply Hti|by eapply node_log_wf|by eapply node_log_wf|by apply (ti_logs _ Hti i)|by apply (ti_logs _ Hti j)].
Qed.
End tree_inv.

Lemma log_matching_witness :
  ∃ rf rf' x x', (nodes demo_world).[0] = Some rf ∧ (nodes demo_world).[2] = Some rf' ∧
    log_at (logs rf) 1 = Some x ∧ log_at (logs rf') 1 = Some x' ∧ x = x'.
Proof.
  eexists _, _, _, _. do 4 (split; [vm_compute; reflexivity|]).
  eapply (log_matching (Gob0 := nat_codec) 3 demo_world 0 2 _ _ 1 _ _) with (k := 1);
    [exact demo_reachable|..]; vm_compute; first [reflexivity|congruence].
Defined.
