(* ===== verification/Completeness.v ===== *)
(** * Leader completeness

    A log position is committed once a majority acknowledged it to the leader
    of its own term.  [ack_inv] relates acknowledgements, votes and elections;
    from it follows that the log with which a later leader is elected holds
    every committed position (Leader Completeness, Raft paper §5.4.3).  The
    argument covers log compaction, snapshots, and peers that restart with an
    older term than the one they last saw. *)

From S2P Require Import Prelude RaftUtil RaftNode RaftLog RaftWf RaftOps RaftRepl Cluster LogTree ElectionSafety Protocol LogMatching.
Local Open Scope Z_scope.
Local Open Scope go_scope.

Section completeness.
Context {cmd : Type} `{!Gob (PersistedState cmd)}.
Implicit Types (h : list (HistEvent cmd)) (rf : Raft cmd) (w : World cmd) (m tip : point).

(** Peer [q] acknowledged [m] to the leader of the term of [m]. *)
Definition acked h (q : Z) m : Prop := ∃ m', HAck q m.2 m' ∈ h ∧ anc h m m'.

Definition committed n h m : Prop := ∃ Q, majority n Q ∧ ∀ q, q ∈ Q → acked h q m.

(** The leaders of the terms between [lo] and [hi], both excluded, were elected
    with [m] in their logs. *)
Definition kept h (lo hi : Z) m : Prop :=
  ∀ t c, lo < t < hi → leader_tip h t c → anc h m c.

Record ack_inv n w : Prop := {
  ai_ack q t m : HAck q t m ∈ history w →
    on_leader (history w) t m ∧ ∃ rf, (nodes w).[q] = Some rf ∧ m.2 ≤ stable_term rf;
  ai_log q rf m : (nodes w).[q] = Some rf → acked (history w) q m →
    kept (history w) m.2 (stable_term rf + 1) m → anc (history w) m (log_tip (logs rf));
  ai_vote q t k tip m : HVote q t k ∈ history w → HCampaign k t tip ∈ history w →
    acked (history w) q m → m.2 < t → kept (history w) m.2 (t + 1) m → anc (history w) m tip;
  ai_campaign q t k : HVote q t k ∈ history w → ∃ tip, HCampaign k t tip ∈ history w;
  ai_elected t tip : leader_tip (history w) t tip → ∃ Q, majority n Q ∧
    ∀ q, q ∈ Q → (∃ k, HVote q t k ∈ history w) ∧
      ∀ m, acked (history w) q m → m.2 < t → kept (history w) m.2 t m → anc (history w) m tip
}.

(** ** Leader completeness *)

Lemma leader_completeness n w m t tip :
  cluster_inv n w → ack_inv n w → committed n (history w) m →
  leader_tip (history w) t tip → m.2 < t → anc (history w) m tip.
Proof.
  intros Hci Hai (Q & HQ & Hack). remember (Z.to_nat (t - m.2)) as k eqn:Hk. revert t tip Hk.
  induction (lt_wf k) as [k _ IH]; intros t tip -> Htip Hlt.
  destruct (ai_elected _ _ Hai t tip Htip) as (Q' & HQ' & Hel).
  destruct (majority_intersect n Q Q') as (q & Hq & Hq'); [|done..|].
  { destruct (ci_nodes _ _ Hci) as [<- _]. auto with go. }
  apply (Hel q Hq'); [by apply Hack|done|]. intros t' c Ht' Hc. eapply IH; [|done|done|]; lia.
Qed.

(** ** Terms of acknowledged positions *)

Lemma on_leader_term h t m : tree_ok h → on_leader h t m → m.2 ≤ t ∧ 1 ≤ t.
Proof.
  intros Hh (c & Hc & Hm). destruct (leader_tip_term _ Hh _ _ Hc) as [Hin Hlt].
  destruct (in_tree_bounds _ Hh _ Hin). destruct Hm as [Ha|[? _]]; [|lia].
  apply (anc_le _ Hh) in Ha. lia.
Qed.

Lemma on_leader_in_tree h t m : tree_ok h → on_leader h t m → in_tree h m.
Proof.
  intros Hh (c & Hc & [Ha|[_ Ha]]); [|done]. eapply (in_tree_anc _ Hh); [done|].
  by apply (leader_tip_term _ Hh) in Hc as [? _].
Qed.

(** An entry of term [t] that hangs above a later position is an entry. *)
Lemma in_tree_term h m : in_tree h m → 1 ≤ m.2 → ∃ j e p, HStart j e p ∈ h ∧ m = (Index e, Term e).
Proof. intros [->|Hin]; [simpl; lia|done]. Qed.

(** §5.4.1 on the tree: a candidate whose log, ending at [tip], is as up to date
    as a log ending at [v] has every position above [v] that the leaders since
    have. *)
Lemma up_to_date_anc h m v tip hi :
  tree_ok h → in_tree h m → in_tree h v → in_tree h tip → 1 ≤ m.2 → anc h m v → kept h m.2 hi m →
  tip.2 < hi → v.2 < tip.2 ∨ (tip.2 = v.2 ∧ v.1 ≤ tip.1) → anc h m tip.
Proof.
  intros Hh Hm Hv Htip Hpos Hmv Hkept Hhi Hup. destruct (anc_le _ Hh _ _ Hmv) as [Hi Ht].
  destruct (in_tree_term h tip Htip) as (j & e & p & Hin & ->); [lia|]. simpl in *.
  destruct (decide (m.2 < Term e)) as [Hlt|Hge].
  - destruct (entry_leader _ Hh _ _ _ Hin) as [c Hc]. etrans; [by eapply Hkept; [|done]; lia|].
    by eapply (tip_before_entry _ Hh).
  - destruct (in_tree_term h m Hm Hpos) as (j' & e' & p' & Hin' & ->). simpl in *.
    eapply (term_chain _ Hh); [done|done|lia|lia].
Qed.

(** ** Growing the history *)

Lemma kept_weaken h lo hi hi' m : hi ≤ hi' → kept h lo hi' m → kept h lo hi m.
Proof. intros Hle Hk t c Ht. apply Hk. lia. Qed.

Lemma kept_shrink h h' lo hi m :
  tree_ok h → tree_ok h' → h ⊆ h' → kept h' lo hi m → kept h lo hi m.
Proof.
  intros Hh Hh' Hsub Hk t c Ht Hc. apply (anc_stable h h'); try done.
  - by apply (leader_tip_term _ Hh) in Hc as [? _].
  - eapply Hk; [done|]. by eapply leader_tip_mono.
Qed.

(** ** What a step does to logs, acknowledgements, votes and elections *)

Definition same_events (sel : HistEvent cmd → bool) h h' : Prop := ∀ e, sel e = true → e ∈ h' → e ∈ h.

Definition is_ack (e : HistEvent cmd) : bool := match e with HAck _ _ _ => true | _ => false end.
Definition is_vote (e : HistEvent cmd) : bool :=
  match e with HVote _ _ _ | HCampaign _ _ _ => true | _ => false end.

Record log_move w w' (i : Z) rf rf' : Prop := {
  lm_node : (nodes w).[i] = Some rf;
  lm_nodes : nodes w' = <[Z.to_nat i := rf']> (nodes w);
  lm_sub : history w ⊆ history w';
  lm_stable : stable_term rf ≤ stable_term rf';
  lm_tip : anc (history w') (log_tip (logs rf)) (log_tip (logs rf')) ∨
    ∃ t, ¬ anc (history w) (log_tip (logs rf')) (log_tip (logs rf)) ∧
      on_leader (history w) t (log_tip (logs rf')) ∧ currentTerm rf ≤ t ∧ stable_term rf' = t;
  lm_ack q t m : HAck q t m ∈ history w' → HAck q t m ∈ history w ∨
    (q = i ∧ currentTerm rf ≤ t ∧ on_leader (history w') t m ∧ anc (history w') m (log_tip (logs rf')));
  lm_vote q t k : HVote q t k ∈ history w' → HVote q t k ∈ history w ∨
    (q = i ∧ currentTerm rf ≤ t ∧ same_events is_ack (history w) (history w') ∧
     ∃ tip, HCampaign k t tip ∈ history w' ∧ up_to_date tip.1 tip.2 (logs rf));
  lm_elected k t : HElected k t ∈ history w' → HElected k t ∈ history w ∨
    ((∀ j, HElected j t ∉ history w) ∧ same_events is_ack (history w) (history w') ∧
     same_events is_vote (history w) (history w'))
}.

Section ack_step.
Context n w w' (i : Z) rf rf' (Hci : cluster_inv n w) (Hci' : cluster_inv n w').
Context (Hti : tree_inv w) (Hti' : tree_inv w') (Hai : ack_inv n w) (Hmv : log_move w w' i rf rf').

Let Hh : tree_ok (history w) := ti_tree _ Hti.
Let Hh' : tree_ok (history w') := ti_tree _ Hti'.

Lemma acked_term q m x : acked (history w) q m → (nodes w).[q] = Some x → m.2 ≤ stable_term x.
Proof.
  intros (m' & Hin & Hanc) Hx. destruct (ai_ack _ _ Hai _ _ _ Hin) as (_ & y & Hy & Hle).
  rewrite Hx in Hy. injection Hy as <-. apply (anc_le _ Hh) in Hanc. lia.
Qed.

Lemma acked_on_leader q m : acked (history w) q m → on_leader (history w) m.2 m.
Proof.
  intros (m' & Hin & Hanc). destruct (ai_ack _ _ Hai _ _ _ Hin) as (Hol & _).
  by eapply (on_leader_anc _ Hh).
Qed.

Lemma stable_current : stable_term rf ≤ currentTerm rf.
Proof. pose proof (wf_stable_term _ _ (node_wf _ _ _ _ Hci (lm_node _ _ _ _ _ Hmv))). lia. Qed.

(** An acknowledgement is old, or one this peer gives in its current term. *)
Lemma acked_cases q m : acked (history w') q m → acked (history w) q m ∨
  (q = i ∧ currentTerm rf ≤ m.2 ∧ anc (history w') m (log_tip (logs rf'))).
Proof.
  intros (m' & Hin & Hanc). destruct (lm_ack _ _ _ _ _ Hmv _ _ _ Hin) as [Hold|(-> & Hle & Hol & Htip)].
  - left. exists m'. split; [done|]. apply (anc_stable (history w) (history w')); try done; [apply Hmv|].
    eapply (on_leader_in_tree _ _ _ Hh). by apply (ai_ack _ _ Hai q).
  - right. split_and!; [done|done|by etrans].
Qed.

Lemma acked_old q m : same_events is_ack (history w) (history w') → acked (history w') q m → acked (history w) q m.
Proof.
  intros Hsame (m' & Hin%Hsame & Hanc); [|done]. exists m'. split; [done|].
  apply (anc_stable (history w) (history w')); try done; [apply Hmv|].
  eapply (on_leader_in_tree _ _ _ Hh). by apply (ai_ack _ _ Hai q).
Qed.

(** Nobody acknowledges to a leader older than its last vote. *)
Lemma acked_before_vote q m t k :
  acked (history w') q m → HVote q t k ∈ history w → m.2 < t → acked (history w) q m.
Proof.
  intros Hack Hv Hlt. destruct (acked_cases _ _ Hack) as [|(-> & Hle & _)]; [done|].
  destruct (proj1 (ci_votes _ _ Hci) _ _ _ Hv) as (_ & x & Hx & Ht & _).
  rewrite (lm_node _ _ _ _ _ Hmv) in Hx. injection Hx as <-. pose proof stable_current. lia.
Qed.

Lemma kept_before lo hi hi' m : hi ≤ hi' → kept (history w') lo hi' m → kept (history w) lo hi m.
Proof.
  intros Hle Hk. eapply kept_weaken; [done|]. eapply kept_shrink; [done|done|apply Hmv|done].
Qed.

(** The log of the peer that moves still holds what the leaders kept. *)
Lemma ack_step_log m :
  acked (history w') i m → kept (history w') m.2 (stable_term rf' + 1) m →
  anc (history w') m (log_tip (logs rf')).
Proof.
  intros Hack Hkept. destruct (acked_cases _ _ Hack) as [Hold|(_ & _ & Hanc)]; [|done].
  pose proof (lm_node _ _ _ _ _ Hmv) as Hi. pose proof (lm_stable _ _ _ _ _ Hmv) as Hst.
  pose proof (acked_term _ _ _ Hold Hi) as Hm. pose proof stable_current as Hsc.
  assert (Htip : anc (history w) m (log_tip (logs rf))).
  { apply (ai_log _ _ Hai i); try done. eapply kept_before; [|done]. lia. }
  destruct (lm_tip _ _ _ _ _ Hmv) as [Hext|(t & Hno & Hol & Hct & Est)].
  { etrans; [|done]. eapply anc_mono; [apply Hmv|done]. }
  assert (Hol' : on_leader (history w) t m).
  { destruct (decide (m.2 = t)) as [<-|Hne]; [by eapply acked_on_leader|].
    destruct Hol as (c & Hc & _). exists c. split; [done|left].
    eapply (kept_before m.2 (stable_term rf' + 1)); [done|done| |done]. lia. }
  eapply anc_mono; [apply Hmv|]. apply (on_leader_linear _ Hh t); [done|done|].
  destruct (decide (m.1 ≤ (log_tip (logs rf')).1)) as [|Hgt]; [done|exfalso]. apply Hno.
  etrans; [|done]. apply (on_leader_linear _ Hh t); [done|done|]. lia.
Qed.

Lemma ack_step_vote q t k tip m :
  HVote q t k ∈ history w' → HCampaign k t tip ∈ history w' → acked (history w') q m → m.2 < t →
  kept (history w') m.2 (t + 1) m → anc (history w') m tip.
Proof.
  intros Hv Hc Hack Hlt Hkept. destruct (lm_vote _ _ _ _ _ Hmv _ _ _ Hv) as [Hold|(-> & Hle & Hsame & Hnew)].
  - destruct (ai_campaign _ _ Hai _ _ _ Hold) as [tip0 Hc0].
    assert (E : tip = tip0) by (eapply (tk_campaign _ Hh'); [done|by apply (lm_sub _ _ _ _ _ Hmv)]). subst tip0.
    eapply anc_mono; [apply Hmv|]. eapply (ai_vote _ _ Hai); try done; [by eapply acked_before_vote|].
    by eapply kept_before.
  - destruct Hnew as (tip0 & Hc0 & Hup). rewrite <- (tk_campaign _ Hh' _ _ _ _ Hc Hc0) in Hup.
    apply acked_old in Hack; [|done]. pose proof (lm_node _ _ _ _ _ Hmv) as Hi. pose proof stable_current as Hsc.
    pose proof (acked_on_leader _ _ Hack) as Hol. destruct (on_leader_term _ _ _ Hh Hol) as [_ Hpos].
    assert (Htip : anc (history w) m (log_tip (logs rf))).
    { apply (ai_log _ _ Hai i); try done. eapply kept_before; [|done]. lia. }
    destruct (tk_campaign_tip _ Hh' _ _ _ Hc) as [Hin Hlt'].
    assert (Hsub := lm_sub _ _ _ _ _ Hmv).
    apply (up_to_date_anc (history w') m (log_tip (logs rf)) tip (t + 1)); try done; [..|lia].
    + eapply in_tree_mono; [done|]. by eapply (on_leader_in_tree _ _ _ Hh).
    + eapply in_tree_mono; [done|]. apply log_tip_in_tree; [by apply (node_log_wf n w i)|by apply (ti_logs _ Hti i)].
    + by eapply anc_mono.
Qed.

Lemma ack_step_elected t tip :
  leader_tip (history w') t tip → ∃ Q, majority n Q ∧
    ∀ q, q ∈ Q → (∃ k, HVote q t k ∈ history w') ∧
      ∀ m, acked (history w') q m → m.2 < t → kept (history w') m.2 t m → anc (history w') m tip.
Proof.
  intros (j & He & Hc). assert (Hsub := lm_sub _ _ _ _ _ Hmv).
  destruct (lm_elected _ _ _ _ _ Hmv _ _ He) as [Hold|(Hfirst & Hsa & Hsv)].
  - destruct (tk_elected _ Hh _ _ Hold) as [tip0 Hc0].
    rewrite (tk_campaign _ Hh' _ _ _ _ Hc (Hsub _ Hc0)).
    destruct (ai_elected _ _ Hai t tip0) as (Q & HQ & Hel); [by exists j|]. exists Q. split; [done|].
    intros q Hq. destruct (Hel q Hq) as [[k Hk] Hm]. split; [exists k; auto|].
    intros m Hack Hlt Hkept. eapply anc_mono; [done|]. apply Hm; [by eapply acked_before_vote|done|].
    by eapply kept_before.
  - destruct (ci_elected _ _ Hci' _ _ He) as (_ & Q & HQ & Hvote). exists Q. split; [done|].
    intros q Hq. specialize (Hvote q Hq). split; [by exists j|]. intros m Hack Hlt Hkept.
    eapply anc_mono; [done|]. eapply (ai_vote _ _ Hai q t j); [by apply Hsv|by apply Hsv|by apply acked_old|done|].
    intros t' c Ht' Hc'. destruct (decide (t' = t)) as [->|Hne].
    + destruct Hc' as (j' & He' & _). by destruct (Hfirst j').
    + eapply (kept_before m.2 t t m); [done|done| |done]. lia.
Qed.

Lemma ack_step : ack_inv n w'.
Proof.
  assert (Hsub := lm_sub _ _ _ _ _ Hmv). pose proof (lm_node _ _ _ _ _ Hmv) as Hi.
  pose proof (lm_nodes _ _ _ _ _ Hmv) as Hns.
  constructor; [..|apply ack_step_elected].
  - intros q t m [Hold|(-> & Hle & Hol & Htip)]%(lm_ack _ _ _ _ _ Hmv).
    + destruct (ai_ack _ _ Hai _ _ _ Hold) as (Hol & x & Hx & Hm). split; [by eapply on_leader_mono|].
      rewrite Hns, (nodes_insert _ _ rf) by done. case_decide as E; [subst q|by eauto].
      rewrite Hi in Hx. injection Hx as <-. exists rf'. split; [done|]. pose proof (lm_stable _ _ _ _ _ Hmv). lia.
    + split; [done|]. exists rf'. rewrite Hns, (nodes_insert _ _ rf), decide_True by done. split; [done|].
      assert (Hwf' : raft_wf n rf').
      { apply (node_wf n w' i); [done|]. by rewrite Hns, (nodes_insert _ _ rf), decide_True. }
      pose proof (wf_stable_term _ _ Hwf'). apply (anc_le _ Hh') in Htip. simpl in Htip. lia.
  - intros q x m. rewrite Hns, (nodes_insert _ _ rf) by done. case_decide as E.
    + subst q. intros [= <-]. by apply ack_step_log.
    + intros Hx Hack Hkept. destruct (acked_cases _ _ Hack) as [Hold|(-> & _)]; [|done].
      eapply anc_mono; [done|]. eapply (ai_log _ _ Hai); [done|done|]. by eapply kept_before.
  - apply ack_step_vote.
  - intros q t k [Hold|(_ & _ & _ & tip & Hc & _)]%(lm_vote _ _ _ _ _ Hmv); [|by exists tip].
    destruct (ai_campaign _ _ Hai _ _ _ Hold) as [tip Hc]. exists tip. auto.
Qed.
End ack_step.

(** ** Protocol steps *)

Lemma quiet_stable rf rf' : quiet_step rf rf' → stable_term rf ≤ stable_term rf'.
Proof. intros [_ _ _ _ [|[-> _]]]; lia. Qed.

Lemma stable_eq_term rf rf' : stable rf' = stable rf → stable_term rf' = stable_term rf.
Proof. unfold stable_term. by intros ->. Qed.

Lemma persisted_term rf : persisted rf → stable_term rf = currentTerm rf.
Proof. intros Hp. by destruct (persisted_stable rf Hp). Qed.

Lemma moves_sub w w' i rf rf' new evs : moves w w' i rf rf' new evs → history w ⊆ history w'.
Proof. intros [_ _ _ ->] x Hx. apply elem_of_app. auto. Qed.

(** A peer whose log keeps its end, and no events but acknowledgements. *)
Lemma log_move_quiet w w' i rf rf' new evs :
  moves w w' i rf rf' new evs → stable_term rf ≤ stable_term rf' →
  anc (history w') (log_tip (logs rf)) (log_tip (logs rf')) →
  (∀ e, e ∈ evs → (∃ j x p, e = HStart j x p) ∨
     ∃ t m, e = HAck i t m ∧ currentTerm rf ≤ t ∧ on_leader (history w') t m ∧
       anc (history w') m (log_tip (logs rf'))) →
  log_move w w' i rf rf'.
Proof.
  intros Hmv Hst Htip Hev. pose proof (moves_sub _ _ _ _ _ _ _ Hmv) as Hsub. destruct Hmv as [Hi Hn Hc Hh].
  constructor; try done; [by left|..].
  - intros q t m. rewrite Hh at 1. intros [Hin|]%elem_of_app; [right|by left].
    destruct (Hev _ Hin) as [(? & ? & ? & ?)|(t' & m' & [= -> -> ->] & H)]; [done|]. by split.
  - intros q t k. rewrite Hh at 1. intros [Hin|]%elem_of_app; [|by left].
    by destruct (Hev _ Hin) as [(? & ? & ? & E)|(t' & m' & E & _)].
  - intros k t. rewrite Hh at 1. intros [Hin|]%elem_of_app; [|by left].
    by destruct (Hev _ Hin) as [(? & ? & ? & E)|(t' & m' & E & _)].
Qed.

Lemma log_move_nil w w' i rf rf' new :
  moves w w' i rf rf' new [] → stable_term rf ≤ stable_term rf' →
  log_tip (logs rf') = log_tip (logs rf) → log_move w w' i rf rf'.
Proof.
  intros Hmv Hst Htip. eapply log_move_quiet; [done|done|rewrite Htip; constructor|].
  intros e []%elem_of_nil.
Qed.

(** The log is cut back to, or replaced by, what the leader of a term sent. *)
Lemma log_move_replace w w' i rf rf' new evs t :
  moves w w' i rf rf' new evs → stable_term rf ≤ stable_term rf' →
  ¬ anc (history w) (log_tip (logs rf')) (log_tip (logs rf)) →
  on_leader (history w) t (log_tip (logs rf')) → currentTerm rf ≤ t → stable_term rf' = t →
  (∀ e, e ∈ evs → e = HAck i t (log_tip (logs rf'))) →
  log_move w w' i rf rf'.
Proof.
  intros Hmv Hst Hno Hol Hct Hst' Hev. pose proof (moves_sub _ _ _ _ _ _ _ Hmv) as Hsub.
  destruct Hmv as [Hi Hn Hc Hh]. constructor; try done; [right; by exists t|..].
  - intros q t' m. rewrite Hh at 1. intros [Hin%Hev|]%elem_of_app; [right|by left].
    injection Hin as -> -> ->. split_and!; [done|done|by eapply on_leader_mono|constructor].
  - intros q t' k. rewrite Hh at 1. intros [Hin%Hev|]%elem_of_app; [done|by left].
  - intros k t'. rewrite Hh at 1. intros [Hin%Hev|]%elem_of_app; [done|by left].
Qed.

Lemma up_to_date_refl (l : list (LogEntry cmd)) : up_to_date (last_index l) (last_term l) l.
Proof. right. split; [done|lia]. Qed.

(** New votes, the candidate's own included. *)
Lemma log_move_vote w w' i rf rf' new evs t k tip :
  moves w w' i rf rf' new evs → stable_term rf ≤ stable_term rf' → logs rf' = logs rf →
  currentTerm rf ≤ t → HCampaign k t tip ∈ history w' → up_to_date tip.1 tip.2 (logs rf) →
  (∀ e, e ∈ evs → e = HVote i t k ∨ e = HCampaign i t tip) →
  log_move w w' i rf rf'.
Proof.
  intros Hmv Hst Hlog Hct Hcamp Hup Hev. pose proof (moves_sub _ _ _ _ _ _ _ Hmv) as Hsub.
  destruct Hmv as [Hi Hn Hc Hh].
  assert (Hsame : same_events is_ack (history w) (history w')).
  { intros e He. rewrite Hh at 1. intros [[->| ->]%Hev|]%elem_of_app; done. }
  constructor; try done; [left; rewrite Hlog; constructor|..].
  - intros q t' m Hin%Hsame; [by left|done].
  - intros q t' k'. rewrite Hh at 1. intros [Hin%Hev|]%elem_of_app; [right|by left].
    destruct Hin as [[= -> -> ->]|]; [|done]. split_and!; try done. by exists tip.
  - intros k' t'. rewrite Hh at 1. intros [Hin%Hev|]%elem_of_app; [|by left]. by destruct Hin.
Qed.

Lemma log_move_elected n w w' i rf rf' new :
  cluster_inv n w → cluster_inv n w' → state rf = Candidate →
  moves w w' i rf rf' new [HElected i (currentTerm rf)] → stable rf' = stable rf → logs rf' = logs rf →
  log_move w w' i rf rf'.
Proof.
  intros Hci Hci' Hs Hmv Hst Hlog. pose proof (moves_sub _ _ _ _ _ _ _ Hmv) as Hsub.
  destruct Hmv as [Hi Hn Hc Hh]. pose proof (ci_roles _ _ Hci i rf Hi) as Hr. rewrite Hs in Hr.
  assert (Hsame : ∀ e, (∀ k t, e ≠ HElected k t) → e ∈ history w' → e ∈ history w).
  { intros e He. rewrite Hh at 1. intros [->|]%elem_of_cons; [by destruct (He i (currentTerm rf))|done]. }
  constructor; try done.
  - by rewrite (stable_eq_term _ _ Hst).
  - left. rewrite Hlog. constructor.
  - intros q t m Hin. left. by apply Hsame.
  - intros q t k Hin. left. by apply Hsame.
  - intros k t. rewrite Hh at 1. intros [[= -> ->]|]%elem_of_cons; [right|by left]. split.
    + intros j Hj. destruct Hr as [_ Hr]. assert (j = i) as ->; [|done].
      apply (elected_unique n w' j i (currentTerm rf)); [done|auto|]. rewrite Hh. by left.
    + split; intros e He; apply Hsame; by intros k t ->.
Qed.

(** The log of a leader before and after Start. *)
Lemma start_tip n w w' i rf rf' new command evs :
  let e := mkLogEntry command (currentTerm rf) (last_index (logs rf) + 1) in
  cluster_inv n w → moves w w' i rf rf' new evs → HStart i e (last_term (logs rf)) ∈ evs →
  logs rf' = logs rf ++ [e] →
  log_tip (logs rf') = (Index e, Term e) ∧ anc (history w') (log_tip (logs rf)) (log_tip (logs rf')).
Proof.
  intros e Hci [Hi _ _ Hh] Hin Hlog. pose proof (node_log_wf _ _ _ _ Hci Hi) as Hwf.
  assert (Htip : log_tip (logs rf') = (Index e, Term e)).
  { unfold log_tip. rewrite Hlog, last_index_app by (by apply log_wf_nonempty).
    unfold last_term. by rewrite last_snoc. }
  split; [done|]. rewrite Htip. eapply anc_step; [rewrite Hh; apply elem_of_app; by left|]. simpl.
  replace (last_index (logs rf) + 1 - 1) with (last_index (logs rf)) by lia. constructor.
Qed.

Lemma log_move_start n w w' i rf rf' new command :
  let e := mkLogEntry command (currentTerm rf) (last_index (logs rf) + 1) in
  cluster_inv n w → tree_inv w' →
  moves w w' i rf rf' new [HAck i (Term e) (Index e, Term e); HStart i e (last_term (logs rf))] →
  stable_term rf ≤ stable_term rf' → logs rf' = logs rf ++ [e] → log_move w w' i rf rf'.
Proof.
  intros e Hci Hti' Hmv Hst Hlog.
  destruct (start_tip n w w' i rf rf' new command _ Hci Hmv) as [Htip Hanc]; [right; by left|done|].
  eapply log_move_quiet; [done|done|done|].
  intros x [->|[->|[]%elem_of_nil]%elem_of_cons]%elem_of_cons; [right|left; by eexists _, _, _].
  exists (Term e), (Index e, Term e). rewrite Htip. split_and!; [done|done| |constructor].
  assert (Hin : HStart i e (last_term (logs rf)) ∈ history w').
  { rewrite (mv_history _ _ _ _ _ _ _ Hmv). right. by left. }
  destruct (entry_leader _ (ti_tree _ Hti') _ _ _ Hin) as [c Hc']. exists c. split; [done|right].
  split; [done|]. by eapply in_tree_entry.
Qed.

Lemma log_move_append n w w' id c args rf rf' r :
  cluster_inv n w → tree_inv w → calls w !! id = Some c → request c = ReqAppend args →
  moves w w' (callee c) rf rf' (replied w (callee c) (request c) (RepAppend r))
    (if aer_Success r then [HAck (callee c) (ae_Term args) (append_tip args)] else []) →
  currentTerm rf ≤ ae_Term args → append_post args rf rf' r → log_move w w' (callee c) rf rf'.
Proof.
  intros Hci Hti Hc Hreq Hmv Hle Hpost. pose proof (moves_sub _ _ _ _ _ _ _ Hmv) as Hsub.
  pose proof (mv_before _ _ _ _ _ _ _ Hmv) as Hi. pose proof (quiet_stable _ _ (ap_quiet _ _ _ _ Hpost)) as Hst.
  destruct (ci_calls _ _ Hci id c Hc) as (_ & _ & _ & _ & Hok). rewrite Hreq in Hok. destruct Hok as (Hawf & _).
  pose proof (ti_calls _ Hti id c Hc) as Hreqp. unfold request_path in Hreqp. rewrite Hreq in Hreqp.
  destruct Hreqp as (_ & _ & Hol).
  destruct (append_path n w c args rf rf' r (callee c)) as [_ Hcase]; try done; [by eapply call_from_lookup|].
  destruct (aer_Success r); [destruct Hcase as [[Hlog Hanc]|[Htip Hno]]|].
  - eapply log_move_quiet; [done|done|rewrite Hlog; constructor|]. intros x ->%list_elem_of_singleton. right.
    eexists _, _. split_and!; [done|done|by eapply on_leader_mono|]. rewrite Hlog. by eapply anc_mono.
  - assert (Hp : persisted rf').
    { destruct (ap_saved _ _ _ _ Hpost) as [E|]; [|done]. destruct Hno. rewrite <- Htip, E. constructor. }
    rewrite <- Htip in *. eapply (log_move_replace _ _ _ _ _ _ _ (ae_Term args)); try done.
    + rewrite (persisted_term _ Hp). apply Hpost.
    + by intros x ->%list_elem_of_singleton.
  - eapply log_move_nil; [done|done|]. by rewrite Hcase.
Qed.

Lemma log_move_install n w w' id c args rf rf' r :
  cluster_inv n w → tree_inv w → calls w !! id = Some c → request c = ReqSnapshot args →
  moves w w' (callee c) rf rf' (replied w (callee c) (request c) (RepSnapshot r)) [] →
  currentTerm rf ≤ is_Term args → install_post args rf rf' → log_move w w' (callee c) rf rf'.
Proof.
  intros Hci Hti Hc Hreq Hmv Hle Hpost. pose proof (mv_before _ _ _ _ _ _ _ Hmv) as Hi.
  pose proof (quiet_stable _ _ (ip_quiet _ _ _ Hpost)) as Hst.
  pose proof (ti_calls _ Hti id c Hc) as Hol. unfold request_path in Hol. rewrite Hreq in Hol.
  destruct (install_path n w c args rf rf' (callee c)) as [_ [Htip|(Htip & Hp & Hno)]]; try done;
    [by eapply call_from_lookup|by eapply log_move_nil|].
  rewrite <- Htip in *. eapply (log_move_replace _ _ _ _ _ _ _ (is_Term args)); try done.
  - rewrite (persisted_term _ Hp). apply Hpost.
  - intros e []%elem_of_nil.
Qed.

Lemma protocol_log_move n ev w w' :
  cluster_inv n w → cluster_inv n w' → tree_inv w → tree_inv w' → protocol_step n ev w w' →
  (nodes w' = nodes w ∧ history w' = history w) ∨ ∃ i rf rf', log_move w w' i rf rf'.
Proof.
  intros Hci Hci' Hti Hti' Hstep.
  destruct Hstep as
    [Hn Hc Hh _|i rf rf' Hmv _ Hq Hr _ _|i rf rf' args el Hmv _ Ha Hr _ Hs Ht Hp
    |id c args el rf rf' r Hc Hreq Hmv _ Hr _ Hp Ht Hle Hs Hup|id c rf rf' r Hc _ Hmv _ Hq Hr _ _
    |i rf rf' Hmv _ Hr _ Hst Hs Hs' Ht _ _|i rf rf' command e Hmv _ _ Hq _ Hl Hs Ht Hlog _ _ _ _ _ _
    |i rf peer args Hmv _ Hl Ht _ Haa|i rf peer args Hmv _ Hl Ht Hi0 Ht0 _
    |id c args rf rf' r Hc Hreq Hmv _ _ Hle Hpost|id c rf r Hc _ Hmv _
    |id c args rf rf' r Hc Hreq Hmv _ _ Hle Hpost|id c args r rf rf' Hc _ _ _ Hmv _ Hq _ Hlog _ _ _ _ _
    |id c args rf rf' Hc _ _ Hmv _ Hq Hr _ _|i rf rf' index snap e Hmv _ Hq _ _ _ Hs Ht _ _ _ _ _ _ He Hlog
    |i rf rf' msg Hmv _ Hq _ Hlog _ _ _ _ _|i rf rf' Hmv _ Hq _ Hlog _ _|i rf rf' Hmv _ _ _ Hst Hs Hlog _ _ _ _ _];
    [by left|right..]; pose proof (mv_before _ _ _ _ _ _ _ Hmv) as Hi;
    pose proof (wf_stable_term _ _ (node_wf _ _ _ _ Hci Hi)) as Hsc;
    eexists _, _, _; try (apply replica_logs in Hr);
    try (eapply log_move_nil; [exact Hmv|first [by apply quiet_stable|done|by rewrite (stable_eq_term _ _ Hst)]|by rewrite ?Hr, ?Hlog]).
  - eapply (log_move_vote _ _ _ _ _ _ _ (currentTerm rf + 1) i (log_tip (logs rf))); try done.
    + rewrite (persisted_term _ Hp). lia.
    + lia.
    + rewrite (mv_history _ _ _ _ _ _ _ Hmv). by left.
    + apply up_to_date_refl.
    + intros x [->|[->|[]%elem_of_nil]%elem_of_cons]%elem_of_cons; auto.
  - pose proof (ti_calls _ Hti id c Hc) as Hreqp. unfold request_path in Hreqp. rewrite Hreq in Hreqp.
    eapply (log_move_vote _ _ _ _ _ _ _ (rv_Term args) (caller c) (_, _)); try done.
    + rewrite (persisted_term _ Hp). lia.
    + by apply (moves_sub _ _ _ _ _ _ _ Hmv).
    + intros x ->%list_elem_of_singleton. auto.
  - by eapply log_move_elected.
  - eapply (log_move_start n w w'); try done. by apply quiet_stable.
  - by eapply log_move_append.
  - by eapply log_move_install.
  - eapply log_move_nil; [exact Hmv|by apply quiet_stable|].
    destruct (compact_path (history w) (logs rf) (Z.to_nat (index - first_index (logs rf))) e) as [_ E];
      [apply Hti|by apply (node_log_wf n w i)|by apply (ti_logs _ Hti i)|by apply log_at_lookup|]. by rewrite Hlog.
Qed.

Lemma init_ack n : ack_inv (Z.of_nat n) (init_world n).
Proof.
  assert (Hnil : ∀ e : HistEvent cmd, e ∉ history (init_world n)) by (intros e []%elem_of_nil).
  constructor.
  - intros q t m []%Hnil.
  - intros q rf m _ (m' & []%Hnil & _).
  - intros q t k tip m []%Hnil.
  - intros q t k []%Hnil.
  - intros t tip (j & []%Hnil & _).
Qed.

Lemma reachable_ack n w : reachable n w → ack_inv (Z.of_nat n) w.
Proof.
  induction 1 as [|w ev w' Hr IH Hstep]; [apply init_ack|].
  pose proof (reachable_inv _ _ Hr) as Hci. pose proof (reachable_tree _ _ Hr) as Hti.
  assert (Hr' : reachable n w') by (by eapply reachable_step).
  pose proof (reachable_inv _ _ Hr') as Hci'. pose proof (reachable_tree _ _ Hr') as Hti'.
  destruct (protocol_log_move (Z.of_nat n) ev w w') as [[En Eh]|(i & rf & rf' & Hmv)]; try done.
  - by apply (step_refines _ w ev).
  - destruct IH. by constructor; rewrite ?En, ?Eh.
  - by apply (ack_step _ w w' i rf rf').
Qed.

(** C3 (Leader Completeness).  A log position that a majority acknowledged to the
    leader of its own term is on the log of every leader of a later term: the log
    holds it, unless it was compacted away below the first index. *)
Theorem leader_completeness_reachable n w m i rf :
  reachable n w → committed (Z.of_nat n) (history w) m → (nodes w).[i] = Some rf → state rf = Leader →
  m.2 < currentTerm rf →
  anc (history w) m (log_tip (logs rf)) ∧
  (first_index (logs rf) ≤ m.1 → ∃ e, log_at (logs rf) m.1 = Some e ∧ Term e = m.2).
Proof.
  intros Hr Hcom Hi Hl Hlt. pose proof (reachable_inv _ _ Hr) as Hci. pose proof (reachable_tree _ _ Hr) as Hti.
  pose proof (reachable_ack _ _ Hr) as Hai. pose proof (leader_on_chain _ w i rf Hci Hti Hi Hl) as Hol.
  assert (Hanc : anc (history w) m (log_tip (logs rf))).
  { pose proof (ti_roles _ Hti i rf Hi) as Hrole. unfold role_path in Hrole. rewrite Hl in Hrole.
    pose proof (ci_roles _ _ Hci i rf Hi) as He. rewrite Hl in He. destruct Hrole as [Hrole _].
    destruct (tk_elected _ (ti_tree _ Hti) _ _ He) as [c Hc].
    assert (Hc' : anc (history w) m c) by (eapply leader_completeness; [done..|by exists i|done]).
    etrans; [done|]. destruct Hrole as [Hrole|Hrole].
    { rewrite (tk_campaign _ (ti_tree _ Hti) _ _ _ _ Hrole Hc). constructor. }
    assert (Hin := log_tip_in_tree _ _ (node_log_wf _ _ _ _ Hci Hi) (ti_logs _ Hti i rf Hi)).
    destruct (on_leader_term _ _ _ (ti_tree _ Hti) Hol) as [_ Hpos].
    destruct (in_tree_term _ _ Hin) as (j & e & p & Hstart & E); [simpl; lia|].
    rewrite E. injection E as _ E2. eapply (tip_before_entry _ (ti_tree _ Hti)); [done|].
    rewrite <- E2, Hrole. by exists i. }
  split; [done|]. intros Hf. destruct m as [k t]. apply (anc_log_at (history w)); try done;
    [apply Hti|by eapply node_log_wf|by apply (ti_logs _ Hti i)].
Qed.
End completeness.

Lemma leader_completeness_witness :
  ∃ rf, (nodes demo_world).[1] = Some rf ∧ state rf = Leader ∧ currentTerm rf = 2 ∧
    ∃ e, log_at (logs rf) 1 = Some e ∧ Term e = 1.
Proof.
  eexists. do 2 (split; [vm_compute; reflexivity|]). split; [reflexivity|].
  eapply (leader_completeness_reachable (Gob0 := nat_codec) 3 demo_world (1, 1) 1);
    [exact demo_reachable| |vm_compute; reflexivity|reflexivity|reflexivity|vm_compute; congruence].
  exists [0; 1]. split.
  - split_and!; [|reflexivity|].
    + apply NoDup_cons. split; [|apply NoDup_singleton]. intros H%list_elem_of_singleton. discriminate.
    + intros q [->| ->%list_elem_of_singleton]%elem_of_cons; lia.
  - intros q [->| ->%list_elem_of_singleton]%elem_of_cons; exists (1, 1); (split; [|apply anc_refl]);
      vm_compute; repeat (first [left; fail|right]).
Defined.
