(* ===== verification/StateMachineSafety.v ===== *)
(** * State machine safety

    A position is [safe] once it is above a committed one.  Every commit index
    of the cluster, and everything the appliers delivered, is safe; and two safe
    positions with the same index are the same.  So no two peers ever apply
    different commands at the same index, across crashes, snapshots and leader
    changes. *)

From S2P Require Import Prelude RaftUtil RaftNode RaftLog RaftWf RaftOps RaftRepl Cluster LogTree ElectionSafety Protocol LogMatching Completeness.
Local Open Scope Z_scope.
Local Open Scope go_scope.

(** ** Positions of a list that satisfy a predicate *)

Definition positions (P : Z → bool) (l : list Z) : list Z :=
  filter (λ p, match l.[p] with Some x => P x | None => false end = true) (seqZ 0 (go_len l)).

Lemma filter_ext_in {A} (P Q : A → Prop) `{!∀ x, Decision (P x), !∀ x, Decision (Q x)} (l : list A) :
  (∀ x, x ∈ l → P x ↔ Q x) → filter P l = filter Q l.
Proof.
  induction l as [|x l IH]; intros Heq; [done|]. rewrite !filter_cons, IH by (intros y Hy; apply Heq; by right).
  pose proof (Heq x (list_elem_of_here _ _)). repeat case_decide; tauto.
Qed.

Lemma positions_length P l : length (positions P l) = length (filter (λ x, P x = true) l).
Proof.
  induction l as [|x l IH] using rev_ind; [done|]. unfold positions in *.
  replace (go_len (l ++ [x])) with (go_len l + 1) by (unfold go_len; rewrite length_app; simpl; lia).
  rewrite seqZ_app by (unfold go_len; lia). rewrite !filter_app, !length_app, <- IH. f_equal.
  - f_equal. apply filter_ext_in. intros p Hp%elem_of_seqZ. rewrite !go_index_lookup by lia.
    rewrite lookup_app_l; [done|]. unfold go_len in Hp. lia.
  - change (seqZ (0 + go_len l) 1) with [0 + go_len l]. rewrite !filter_cons, !filter_nil.
    replace ((l ++ [x]).[0 + go_len l]) with (Some x); [by repeat case_decide|].
    rewrite go_index_lookup by (unfold go_len; lia). unfold go_len. rewrite Z.add_0_l, Nat2Z.id.
    by rewrite list_lookup_middle.
Qed.

Lemma positions_elem P l p : p ∈ positions P l → ∃ x, l.[p] = Some x ∧ P x = true.
Proof. unfold positions. rewrite list_elem_of_filter. destruct (l.[p]) as [x|]; intros [H _]; [by exists x|done]. Qed.

Lemma positions_majority n P l :
  go_len l = n → n / 2 < go_len (filter (λ x, P x = true) l) → majority n (positions P l).
Proof.
  intros Hl Hm. split_and!.
  - apply NoDup_filter, NoDup_seqZ.
  - unfold go_len in *. by rewrite positions_length.
  - intros q (x & Hx & _)%positions_elem. apply go_index_Some_range in Hx. lia.
Qed.

Section commit.
Context {cmd : Type} `{!Gob (PersistedState cmd)}.
Implicit Types (h : list (HistEvent cmd)) (rf : Raft cmd) (w : World cmd) (m : point) (c : Call cmd).

(** ** Safe positions *)

(** [m] is the root, or above a position committed in a term up to [b]. *)
Definition safe n h (b : Z) m : Prop :=
  m = (0, 0) ∨ ∃ m', committed n h m' ∧ m'.2 ≤ b ∧ anc h m m'.

Lemma committed_mono n h h' m : h ⊆ h' → committed n h m → committed n h' m.
Proof.
  intros Hsub (Q & HQ & Hack). exists Q. split; [done|]. intros q Hq.
  destruct (Hack q Hq) as (m' & Hin & Hanc). exists m'. split; [auto|by eapply anc_mono].
Qed.

Lemma safe_mono n h h' b b' m : h ⊆ h' → b ≤ b' → safe n h b m → safe n h' b' m.
Proof.
  intros Hsub Hb [->|(m' & Hc & Hle & Hanc)]; [by left|right]. exists m'.
  split_and!; [by eapply committed_mono|lia|by eapply anc_mono].
Qed.

Lemma safe_anc n h b m m1 : tree_ok h → anc h m m1 → safe n h b m1 → safe n h b m.
Proof.
  intros Hh Hanc [->|(m' & Hc & Hle & Hanc')].
  - left. apply anc_inv in Hanc as [->|(j & e & p & Hin & E & _)]; [done|].
    destruct (tk_entry _ Hh _ _ _ Hin). injection E as E1 E2. lia.
  - right. exists m'. split_and!; [done|done|by etrans].
Qed.

Lemma root_anc h m : tree_ok h → in_tree h m → anc h (0, 0) m.
Proof.
  intros Hh. remember (Z.to_nat m.1) as k eqn:Hk. revert m Hk.
  induction (lt_wf k) as [k _ IH]; intros m -> [->|(j & e & p & Hin & ->)]; [constructor|].
  destruct (tk_entry _ Hh _ _ _ Hin) as (_ & Hi & _). eapply anc_step; [done|].
  eapply IH; [|done|by eapply in_tree_parent]. simpl. lia.
Qed.

Section safe_facts.
Context n w (Hci : cluster_inv n w) (Hti : tree_inv w) (Hai : ack_inv n w).
Let h := history w.

Lemma committed_acked m : committed n h m → ∃ q, acked h q m.
Proof.
  intros (Q & (_ & Hlen & _) & Hack). assert (Hn : 0 ≤ n).
  { destruct (ci_nodes _ _ Hci) as [<- _]. auto with go. }
  destruct Q as [|q Q]; [|exists q; apply Hack; by left].
  unfold go_len in Hlen. simpl in Hlen. Z.to_euclidean_division_equations; lia.
Qed.

(** What is safe up to the term of a leader is on the log of that leader. *)
Lemma safe_on_leader b t (c : point) m : safe n h b m → b ≤ t → leader_tip h t c → on_leader h t m.
Proof.
  intros Hs Hb Hc. destruct (leader_tip_term _ (ti_tree _ Hti) _ _ Hc) as [Hin _].
  destruct Hs as [->|(m' & Hcom & Hle & Hanc)].
  { exists c. split; [done|left]. by apply root_anc; [apply Hti|]. }
  eapply (on_leader_anc _ (ti_tree _ Hti)); [|done].
  destruct (decide (m'.2 = t)) as [<-|Hne].
  - destruct (committed_acked m' Hcom) as [q Hq]. by eapply acked_on_leader.
  - exists c. split; [done|left]. eapply leader_completeness; [done..|lia].
Qed.

Lemma committed_leader m : committed n h m → ∃ tip, leader_tip h m.2 tip.
Proof.
  intros [q Hq]%committed_acked. destruct (acked_on_leader n w Hti Hai q m Hq) as (c & Hc & _). by exists c.
Qed.

Lemma safe_in_tree b m : safe n h b m → in_tree h m.
Proof.
  intros [->|(m' & Hcom & _ & Hanc)]; [by left|]. eapply (in_tree_anc _ (ti_tree _ Hti)); [done|].
  destruct (committed_acked m' Hcom) as [q Hq]. eapply on_leader_in_tree; [apply Hti|]. by eapply acked_on_leader.
Qed.

(** Safe positions are on one path. *)
Lemma safe_linear b b' m m' : safe n h b m → safe n h b' m' → m.1 ≤ m'.1 → anc h m m'.
Proof.
  intros Hs Hs' Hle. pose proof (safe_in_tree _ _ Hs) as Hin. pose proof (safe_in_tree _ _ Hs') as Hin'.
  destruct Hs as [->|(m1 & Hc1 & Hb1 & Ha1)]; [by apply root_anc; [apply Hti|]|].
  destruct Hs' as [->|(m2 & Hc2 & Hb2 & Ha2)].
  { destruct Hin as [->|(j & e & p & Hin & ->)]; [constructor|].
    destruct (tk_entry _ (ti_tree _ Hti) _ _ _ Hin). simpl in Hle. lia. }
  assert (S1 : ∀ t, m1.2 ≤ t → safe n h t m) by (intros t Ht; right; by exists m1).
  assert (S2 : ∀ t, m2.2 ≤ t → safe n h t m') by (intros t Ht; right; by exists m2).
  destruct (decide (m1.2 ≤ m2.2)) as [Ht|Ht].
  - destruct (committed_leader m2 Hc2) as [c Hc].
    apply (on_leader_linear _ (ti_tree _ Hti) m2.2); [| |done];
      (eapply safe_on_leader; [first [apply (S1 m2.2); lia|apply (S2 m2.2); lia]|lia|done]).
  - destruct (committed_leader m1 Hc1) as [c Hc].
    apply (on_leader_linear _ (ti_tree _ Hti) m1.2); [| |done];
      (eapply safe_on_leader; [first [apply (S1 m1.2); lia|apply (S2 m1.2); lia]|lia|done]).
Qed.

Lemma safe_unique b b' m m' : safe n h b m → safe n h b' m' → m.1 = m'.1 → m = m'.
Proof.
  intros Hs Hs' E. apply (anc_same_index _ (ti_tree _ Hti)); [|done]. eapply safe_linear; [done|done|lia].
Qed.
End safe_facts.

(** ** The invariant *)

Record node_commit n h rf : Prop := {
  nc_commit : ∃ t, anc h (commitIndex rf, t) (log_tip (logs rf)) ∧ safe n h (currentTerm rf) (commitIndex rf, t);
  nc_first : ∃ e, head (logs rf) = Some e ∧ safe n h (stable_term rf) (Index e, Term e);
  nc_pending msg : pendingSnapshot rf = Some msg →
    ∃ s t k b, msg = SnapshotMsg s t k ∧ safe n h b (k, t)
}.

(** What a leader counts: positions it had committed before, or positions the
    peer acknowledged to it. *)
Definition leader_match h (i : Z) rf : Prop :=
  state rf = Leader → ∀ p k, p ≠ i → (matchIndex rf).[p] = Some k →
    k ≤ commitIndex rf ∨ ∃ m, HAck p (currentTerm rf) m ∈ h ∧ m.1 = k.

Definition call_commit n h (ns : list (Raft cmd)) c : Prop :=
  match request c with
  | ReqVote _ _ => True
  | ReqAppend args =>
      (∃ t, anc h (ae_LeaderCommit args, t) (append_tip args) ∧ safe n h (ae_Term args) (ae_LeaderCommit args, t)) ∧
      (∀ r, reply c = Some (RepAppend r) → aer_Success r = true →
         HAck (callee c) (ae_Term args) (append_tip args) ∈ h)
  | ReqSnapshot args =>
      safe n h (is_Term args) (is_LastIncludedIndex args, is_LastIncludedTerm args) ∧
      (live c = true → HElected (caller c) (is_Term args) ∈ h ∧
         ∀ rf, ns.[caller c] = Some rf → isValidLeader (is_Term args) rf = true →
           is_LastIncludedIndex args ≤ commitIndex rf)
  end.

Definition msg_safe n h (msg : ApplyMsg cmd) : Prop :=
  match msg with
  | CommandMsg command k =>
      ∃ j e p b, HStart j e p ∈ h ∧ Index e = k ∧ Command e = command ∧ safe n h b (k, Term e)
  | SnapshotMsg s t k => ∃ b, safe n h b (k, t)
  end.

Record commit_inv n w : Prop := {
  cm_node i rf : (nodes w).[i] = Some rf → node_commit n (history w) rf;
  cm_match i rf : (nodes w).[i] = Some rf → leader_match (history w) i rf;
  cm_calls id c : calls w !! id = Some c → call_commit n (history w) (nodes w) c;
  cm_delivered i msg : (i, msg) ∈ delivered w → msg_safe n (history w) msg;
  cm_start j e p : HStart j e p ∈ history w → HAck j (Term e) (Index e, Term e) ∈ history w
}.

(** ** Frame *)

Lemma node_commit_mono n h h' rf : h ⊆ h' → node_commit n h rf → node_commit n h' rf.
Proof.
  intros Hsub [(t & Ha & Hs) (e & He & Hf) Hp]. constructor.
  - exists t. split; [by eapply anc_mono|by eapply safe_mono].
  - exists e. split; [done|by eapply safe_mono].
  - intros msg Hm. destruct (Hp msg Hm) as (s & t' & k & b & -> & Hs'). exists s, t', k, b.
    split; [done|by eapply safe_mono].
Qed.

Lemma msg_safe_mono n h h' msg : h ⊆ h' → msg_safe n h msg → msg_safe n h' msg.
Proof.
  intros Hsub. destruct msg as [command k|s t k]; simpl.
  - intros (j & e & p & b & Hin & Hi & Hc & Hs). exists j, e, p, b. split_and!; try done; [auto|by eapply safe_mono].
  - intros (b & Hs). exists b. by eapply safe_mono.
Qed.

(** A call in flight, when peer [i] moves from [rf] to [rf']. *)
Lemma call_commit_frame n w w' i rf rf' new evs c :
  moves w w' i rf rf' new evs → call_from (calls w) c → commit_inv n w →
  (state rf' = Leader → HElected i (currentTerm rf') ∈ history w →
     state rf = Leader ∧ currentTerm rf' = currentTerm rf ∧ commitIndex rf ≤ commitIndex rf') →
  call_commit n (history w') (nodes w') c.
Proof.
  intros Hmv (id & c0 & Hc0 & E1 & E2 & E3 & E4 & E5) Hcm Hlead.
  pose proof (moves_sub _ _ _ _ _ _ _ Hmv) as Hsub. destruct Hmv as [Hi Hn _ _].
  pose proof (cm_calls _ _ Hcm id c0 Hc0) as Hc. unfold call_commit in *. rewrite E1, E2, E3, E4.
  destruct (request c0) as [|args|args]; [done| |].
  - destruct Hc as [(t & Ha & Hs) Hr]. split; [|intros r Hrep Hsucc; apply Hsub; by eapply Hr]. exists t. split; [by eapply anc_mono|by eapply safe_mono].
  - destruct Hc as [Hs Hl]. split; [by eapply safe_mono|]. intros Hlv. destruct (Hl (E5 Hlv)) as [He Hb].
    split; [auto|]. intros x. rewrite Hn, (nodes_insert _ _ rf) by done. case_decide as E; [|apply Hb].
    intros [= <-] [Hst%bool_decide_eq_true Ht%Z.eqb_eq]%andb_true_iff.
    destruct Hlead as (Hl0 & Ht0 & Hle); [done|by rewrite E, Ht|]. etrans; [|done]. apply Hb; [by rewrite <- E|].
    apply andb_true_iff. split; [by apply bool_decide_eq_true|apply Z.eqb_eq; congruence].
Qed.

Lemma commit_frame n w w' i rf rf' new evs :
  commit_inv n w → moves w w' i rf rf' new evs →
  node_commit n (history w') rf' → leader_match (history w') i rf' →
  (state rf' = Leader → HElected i (currentTerm rf') ∈ history w →
     state rf = Leader ∧ currentTerm rf' = currentTerm rf ∧ commitIndex rf ≤ commitIndex rf') →
  (∀ c, new c → call_commit n (history w') (nodes w') c) →
  (∀ j msg, (j, msg) ∈ delivered w' → (j, msg) ∈ delivered w ∨ msg_safe n (history w') msg) →
  (∀ j e p, HStart j e p ∈ evs → HAck j (Term e) (Index e, Term e) ∈ evs) →
  commit_inv n w'.
Proof.
  intros Hcm Hmv Hnode Hmatch Hlead Hnew Hdel Hstart. pose proof (moves_sub _ _ _ _ _ _ _ Hmv) as Hsub.
  pose proof Hmv as [Hi Hn Hc Hh]. constructor.
  - intros j x. rewrite Hn, (nodes_insert _ _ rf) by done. case_decide; [by intros [= <-]|].
    intros Hx. eapply node_commit_mono; [done|]. by eapply (cm_node _ _ Hcm).
  - intros j x. rewrite Hn, (nodes_insert _ _ rf) by done. case_decide as E; [subst j; by intros [= <-]|].
    intros Hx Hl p k Hp Hk. destruct (cm_match _ _ Hcm j x Hx Hl p k Hp Hk) as [|(m & Hm & Ek)]; [by left|right].
    exists m. auto.
  - intros id c [Hfrom|Hc']%Hc; [|auto]. by eapply call_commit_frame.
  - intros j msg [Hold|]%Hdel; [|done]. eapply msg_safe_mono; [done|]. by eapply (cm_delivered _ _ Hcm).
  - intros j e p. rewrite Hh, !elem_of_app. intros [?%Hstart|?%(cm_start _ _ Hcm)]; auto.
Qed.

(** ** Peers whose log and commit index stay *)

Lemma node_commit_keep n h h' rf rf' :
  h ⊆ h' → node_commit n h rf → logs rf' = logs rf → commitIndex rf' = commitIndex rf →
  currentTerm rf ≤ currentTerm rf' → stable_term rf ≤ stable_term rf' →
  (∀ msg, pendingSnapshot rf' = Some msg → pendingSnapshot rf = Some msg) →
  node_commit n h' rf'.
Proof.
  intros Hsub [(t & Ha & Hs) (e & He & Hf) Hp] Hlog Hc Ht Hst Hpend. constructor; rewrite ?Hlog, ?Hc.
  - exists t. split; [by eapply anc_mono|by eapply safe_mono].
  - exists e. split; [done|by eapply safe_mono].
  - intros msg Hm. destruct (Hp msg (Hpend _ Hm)) as (s & t' & k & b & -> & Hs'). exists s, t', k, b.
    split; [done|by eapply safe_mono].
Qed.

Lemma leader_match_keep w i rf rf' h' :
  history w ⊆ h' → leader_match (history w) i rf → commitIndex rf ≤ commitIndex rf' →
  state rf' = Follower ∨ (state rf' = state rf ∧ currentTerm rf' = currentTerm rf) →
  (state rf' = Leader → ∀ p, p ≠ i → (matchIndex rf').[p] = (matchIndex rf).[p]) →
  leader_match h' i rf'.
Proof.
  intros Hsub Hm Hc Hs Heq Hl p k Hp Hk. destruct Hs as [|[Hs Ht]]; [congruence|].
  rewrite Heq in Hk by done. destruct (Hm (eq_trans (eq_sym Hs) Hl) p k Hp Hk) as [|(m & Hin & Ek)]; [left; lia|right].
  exists m. rewrite Ht. auto.
Qed.

Lemma call_commit_replied n w w' i rf rf' new evs callee_ req r c :
  moves w w' i rf rf' new evs → commit_inv n w → replied w callee_ req r c →
  (state rf' = Leader → HElected i (currentTerm rf') ∈ history w →
     state rf = Leader ∧ currentTerm rf' = currentTerm rf ∧ commitIndex rf ≤ commitIndex rf') →
  (∀ args r', req = ReqAppend args → r = RepAppend r' → aer_Success r' = true →
     HAck callee_ (ae_Term args) (append_tip args) ∈ history w') →
  call_commit n (history w') (nodes w') c.
Proof.
  intros Hmv Hcm (c0 & Hfrom & <- & <- & Hrep & ->) Hlead Hack.
  pose proof (call_commit_frame n w w' i rf rf' new evs c0 Hmv Hfrom Hcm Hlead) as Hc.
  unfold call_commit in *. simpl. destruct (request c0) as [|args|args]; [done| |done].
  destruct Hc as [Hc _]. split; [done|]. intros r' [= ->] Hs. by apply (Hack args r').
Qed.

(** The hypothesis of the frame lemmas on a peer that keeps its role. *)
Lemma role_lead rf rf' (P : Prop) :
  state rf' = Follower ∨ (state rf' = state rf ∧ currentTerm rf' = currentTerm rf) →
  commitIndex rf ≤ commitIndex rf' →
  state rf' = Leader → P → state rf = Leader ∧ currentTerm rf' = currentTerm rf ∧ commitIndex rf ≤ commitIndex rf'.
Proof. intros [|[Hs Ht]] Hc Hl _; [congruence|]. split_and!; [congruence|done|done]. Qed.

Lemma commit_quiet n w w' i rf rf' new evs :
  commit_inv n w → moves w w' i rf rf' new evs →
  logs rf' = logs rf → commitIndex rf' = commitIndex rf → currentTerm rf ≤ currentTerm rf' →
  stable_term rf ≤ stable_term rf' →
  (∀ msg, pendingSnapshot rf' = Some msg → pendingSnapshot rf = Some msg) →
  state rf' = Follower ∨ (state rf' = state rf ∧ currentTerm rf' = currentTerm rf) →
  (state rf' = Leader → matchIndex rf' = matchIndex rf) →
  (∀ c, new c → call_commit n (history w') (nodes w') c) →
  (∀ j msg, (j, msg) ∈ delivered w' → (j, msg) ∈ delivered w ∨ msg_safe n (history w') msg) →
  (∀ j e p, HStart j e p ∉ evs) →
  commit_inv n w'.
Proof.
  intros Hcm Hmv Hlog Hc Ht Hst Hp Hs Hm Hnew Hdel Hev. pose proof (mv_before _ _ _ _ _ _ _ Hmv) as Hi.
  pose proof (moves_sub _ _ _ _ _ _ _ Hmv) as Hsub. eapply commit_frame; [done|done|..]; try done.
  - apply (node_commit_keep n (history w) _ rf); try done. by apply (cm_node _ _ Hcm i).
  - apply (leader_match_keep w i rf); try done; [by apply (cm_match _ _ Hcm i)|lia|]. intros Hl p _. by rewrite Hm.
  - apply role_lead; [done|lia].
  - intros j e p Hin. by destruct (Hev j e p).
Qed.

Section commit_steps.
Context n w w' (Hci : cluster_inv n w) (Hti : tree_inv w) (Hai : ack_inv n w) (Hcm : commit_inv n w).
Context (Hti' : tree_inv w') (Hci' : cluster_inv n w').
Hypothesis Hdel : delivered w' = delivered w.

Lemma same_delivered j msg : (j, msg) ∈ delivered w' → (j, msg) ∈ delivered w ∨ msg_safe n (history w') msg.
Proof. rewrite Hdel. by left. Qed.

Lemma commit_elected i rf rf' :
  moves w w' i rf rf' no_call [HElected i (currentTerm rf)] → replica rf' = replica rf → stable rf' = stable rf →
  state rf = Candidate → currentTerm rf' = currentTerm rf →
  (∀ p, 0 ≤ p < n → (matchIndex rf').[p] = Some (if p =? i then last_index (logs rf) else 0)) →
  go_len (matchIndex rf') = n → commit_inv n w'.
Proof.
  intros Hmv Hr Hst Hs Ht Hm Hlen. pose proof Hmv as [Hi Hn _ _]. injection Hr as R1 R2 R3 R4 R5 R6 R7.
  pose proof (node_wf _ _ _ _ Hci Hi) as Hwf.
  pose proof (ci_roles _ _ Hci i rf Hi) as Hcand. rewrite Hs in Hcand.
  eapply commit_frame; [done|done|..]; try done; [| | |apply same_delivered|].
  - apply (node_commit_keep n (history w) _ rf); try done;
      [by eapply moves_sub|by apply (cm_node _ _ Hcm i)|lia| |by intros msg; rewrite R4].
    by rewrite (stable_eq_term _ _ Hst).
  - intros _ p k Hp Hk. pose proof (go_index_Some_range _ _ _ Hk) as Hrange. rewrite Hm in Hk by lia.
    destruct (Z.eqb_spec p i); [done|]. injection Hk as <-. left. rewrite R2.
    pose proof (wf_applied _ _ Hwf). pose proof (log_wf_first_nonneg _ (wf_log _ _ Hwf)). lia.
  - intros _ Hin. rewrite Ht in Hin. by destruct Hcand.
  - by intros j e p [|[]%elem_of_nil]%elem_of_cons.
Qed.

Lemma commit_start i rf rf' command :
  let e := mkLogEntry command (currentTerm rf) (last_index (logs rf) + 1) in
  moves w w' i rf rf' no_call [HAck i (Term e) (Index e, Term e); HStart i e (last_term (logs rf))] →
  stable_term rf ≤ stable_term rf' → state rf' = state rf → currentTerm rf' = currentTerm rf →
  logs rf' = logs rf ++ [e] → commitIndex rf' = commitIndex rf → pendingSnapshot rf' = pendingSnapshot rf →
  matchIndex rf' = <[Z.to_nat i := last_index (logs rf) + 1]> (matchIndex rf) →
  commit_inv n w'.
Proof.
  intros e Hmv Hst Hs Ht Hlog Hc Hp Hm. pose proof Hmv as [Hi Hn _ Hh].
  pose proof (moves_sub _ _ _ _ _ _ _ Hmv) as Hsub. pose proof (node_wf _ _ _ _ Hci Hi) as Hwf.
  pose proof (cm_node _ _ Hcm i rf Hi) as [(t & Ha & Hsafe) (f & Hf & Hfs) Hpend].
  assert (Hrange := go_index_Some_range _ _ _ Hi). rewrite (proj1 (ci_nodes _ _ Hci)) in Hrange.
  eapply commit_frame; [done|done|..]; try done; [| | |apply same_delivered|].
  - constructor; rewrite ?Hc, ?Ht.
    + exists t. split; [|by eapply safe_mono]. etrans; [by eapply anc_mono|].
      eapply (start_tip n w w' i rf rf' _ command); try done. right. by left.
    + exists f. rewrite Hlog. split; [by destruct (logs rf)|]. by eapply safe_mono.
    + rewrite Hp. intros msg (s & t' & k & b & -> & Hs')%Hpend. exists s, t', k, b. split; [done|by eapply safe_mono].
  - apply (leader_match_keep w i rf); try done; [by apply (cm_match _ _ Hcm i)|lia|by right|].
    intros _ p Hpi. rewrite Hm. unfold go_index. destruct (Z.leb_spec 0 p); [|done].
    apply list_lookup_insert_ne. lia.
  - apply role_lead; [by right|lia].
  - intros j x p [|[[= -> -> ->]|[]%elem_of_nil]%elem_of_cons]%elem_of_cons; [done|]. by left.
Qed.

Lemma commit_send_append i rf peer args :
  moves w w' i rf rf (λ c, c = mkCall i peer (ReqAppend args) None true) [] →
  state rf = Leader → ae_Term args = currentTerm rf → ae_LeaderCommit args = commitIndex rf →
  append_args_of (logs rf) args → commit_inv n w'.
Proof.
  intros Hmv Hl Ht Hc Haa. pose proof Hmv as [Hi Hn _ Hh].
  eapply commit_quiet; try done; [by right| |apply same_delivered|intros j e p []%elem_of_nil].
  intros c ->. split; [|done]. rewrite Hh. destruct (send_append_path n w i rf args) as [-> _]; try done.
  rewrite Hc, Ht. apply (cm_node _ _ Hcm i rf Hi).
Qed.

Lemma commit_send_snapshot i rf peer args :
  moves w w' i rf rf (λ c, c = mkCall i peer (ReqSnapshot args) None true) [] →
  state rf = Leader → is_Term args = currentTerm rf → is_LastIncludedIndex args = first_index (logs rf) →
  Term <$> head (logs rf) = Some (is_LastIncludedTerm args) → commit_inv n w'.
Proof.
  intros Hmv Hl Ht Hidx Hterm. pose proof Hmv as [Hi Hn _ Hh]. pose proof (node_wf _ _ _ _ Hci Hi) as Hwf.
  pose proof (ci_roles _ _ Hci i rf Hi) as He. rewrite Hl in He.
  eapply commit_quiet; try done; [by right| |apply same_delivered|intros j e p []%elem_of_nil].
  intros c ->. unfold call_commit. simpl. rewrite Hh, Hidx, Ht. split.
  - destruct (nc_first _ _ _ (cm_node _ _ Hcm i rf Hi)) as (e & Hhd & Hs). unfold first_index. rewrite Hhd in *.
    simpl in *. injection Hterm as <-. eapply safe_mono; [done| |done]. pose proof (wf_stable_term _ _ Hwf). lia.
  - intros _. split; [done|]. intros x. rewrite Hn, (nodes_insert _ _ rf), decide_True by done. intros [= <-] _.
    pose proof (wf_applied _ _ Hwf). lia.
Qed.

(** A committed position survives whatever the leader of a term as recent as the
    peer's sends. *)
Lemma commit_point_kept rf t m1 :
  node_commit n (history w) rf → currentTerm rf ≤ t → on_leader (history w) t m1 →
  ¬ anc (history w) m1 (log_tip (logs rf)) →
  ∃ t', anc (history w) (commitIndex rf, t') m1 ∧ safe n (history w) t (commitIndex rf, t').
Proof.
  intros [(t' & Ha & Hs) _ _] Hle Hol Hno. pose proof Hol as (c & Hc & _).
  assert (Hol' : on_leader (history w) t (commitIndex rf, t')) by (by eapply safe_on_leader).
  exists t'. split; [|by eapply safe_mono].
  destruct (decide (commitIndex rf ≤ m1.1)) as [Hle'|Hgt]; [by eapply (on_leader_linear _ (ti_tree _ Hti) t)|].
  destruct Hno. etrans; [|done]. apply (on_leader_linear _ (ti_tree _ Hti) t); [done|done|]. simpl. lia.
Qed.

Lemma append_node_commit id c args rf rf' r :
  calls w !! id = Some c → request c = ReqAppend args → (nodes w).[callee c] = Some rf →
  currentTerm rf ≤ ae_Term args → append_post args rf rf' r → node_commit n (history w) rf'.
Proof.
  intros Hc Hreq Hi Hle Hpost. pose proof (cm_node _ _ Hcm _ rf Hi) as Hnc.
  pose proof (quiet_stable _ _ (ap_quiet _ _ _ _ Hpost)) as Hst.
  destruct (ci_calls _ _ Hci id c Hc) as (_ & _ & _ & _ & Hok). rewrite Hreq in Hok. destruct Hok as (Hawf & _).
  pose proof (ti_calls _ Hti id c Hc) as Hreqp. unfold request_path in Hreqp. rewrite Hreq in Hreqp.
  destruct Hreqp as (_ & _ & Hol).
  pose proof (cm_calls _ _ Hcm id c Hc) as Hcc. unfold call_commit in Hcc. rewrite Hreq in Hcc.
  destruct Hcc as [(tl & Hal & Hsl) _].
  destruct (append_path n w c args rf rf' r (callee c)) as [_ Hcase]; try done; [by eapply call_from_lookup|].
  destruct (decide (prev_matched args (logs rf))) as [Hm|Hm]; cycle 1.
  { destruct (ap_mismatch _ _ _ _ Hpost Hm) as [Hr _]. injection Hr as R1 R2 R3 R4 R5 R6 R7.
    apply (node_commit_keep n (history w) _ rf); try done; [|by rewrite R4]. rewrite (ap_term _ _ _ _ Hpost). lia. }
  destruct (ap_match _ _ _ _ Hpost Hm) as (Hsucc & Hmerge & Hcom). rewrite Hsucc in Hcase.
  pose proof (node_wf _ _ _ _ Hci Hi) as Hwf. pose proof (wf_stable_term _ _ Hwf) as Hsc.
  assert (Hpt : anc (history w) (append_tip args) (log_tip (logs rf')) ∧
    ∃ t, anc (history w) (commitIndex rf, t) (log_tip (logs rf')) ∧ safe n (history w) (ae_Term args) (commitIndex rf, t)).
  { destruct Hcase as [[-> Ha]|[Htip Hno]].
    - split; [done|]. destruct (nc_commit _ _ _ Hnc) as (t & Ht & Hs). exists t. split; [done|by eapply safe_mono].
    - rewrite Htip. split; [constructor|]. by apply commit_point_kept. }
  destruct Hpt as (Htip & t & Hat & Hs).
  constructor.
  - destruct (anc_le _ (ti_tree _ Hti) _ _ Hal) as [Hl1 _]. destruct (anc_le _ (ti_tree _ Hti) _ _ Htip) as [Hl2 _].
    simpl in Hl1, Hl2. rewrite (ap_term _ _ _ _ Hpost), Hcom.
    destruct (decide (ae_LeaderCommit args ≤ commitIndex rf)) as [Hlc|Hlc].
    + replace (Z.max _ _) with (commitIndex rf) by lia. by exists t.
    + replace (Z.max _ _) with (ae_LeaderCommit args) by lia. exists tl. split; [by etrans|done].
  - destruct (nc_first _ _ _ Hnc) as (e & Hhd & Hfs). exists e. split; [|by eapply safe_mono].
    destruct Hm as (p & Hp & Htp). destruct Hawf as [Hseg HT]. rewrite <- Htp in Hseg, HT.
    destruct (log_merge_spec (logs rf) (ae_PrevLogIndex args) p (ae_Entries args) (logs rf') (ae_Term args))
      as (_ & _ & Hh & _); try done; [apply Hwf|lia|]. by rewrite Hh.
  - intros msg. rewrite (ap_pending _ _ _ _ Hpost). apply Hnc.
Qed.

Lemma commit_append id c args rf rf' r :
  calls w !! id = Some c → request c = ReqAppend args →
  moves w w' (callee c) rf rf' (replied w (callee c) (request c) (RepAppend r))
    (if aer_Success r then [HAck (callee c) (ae_Term args) (append_tip args)] else []) →
  currentTerm rf ≤ ae_Term args → append_post args rf rf' r → commit_inv n w'.
Proof.
  intros Hc Hreq Hmv Hle Hpost. pose proof Hmv as [Hi Hn _ Hh]. pose proof (ap_follower _ _ _ _ Hpost) as Hf.
  eapply commit_frame; [done|done|..].
  - eapply node_commit_mono; [by eapply moves_sub|by eapply append_node_commit].
  - intros Hl. congruence.
  - congruence.
  - intros c' Hc'. eapply call_commit_replied; [done|done|done|congruence|].
    rewrite Hreq. intros a r' [= <-] [= <-] Hs. rewrite Hh, Hs. by left.
  - apply same_delivered.
  - intros j e p. destruct (aer_Success r); [by intros ?%list_elem_of_singleton|by intros []%elem_of_nil].
Qed.

Lemma install_node_commit id c args rf rf' :
  calls w !! id = Some c → request c = ReqSnapshot args → (nodes w).[callee c] = Some rf →
  currentTerm rf ≤ is_Term args → install_post args rf rf' → node_commit n (history w) rf'.
Proof.
  intros Hc Hreq Hi Hle Hpost. pose proof (cm_node _ _ Hcm _ rf Hi) as Hnc.
  pose proof (quiet_stable _ _ (ip_quiet _ _ _ Hpost)) as Hst. pose proof (node_wf _ _ _ _ Hci Hi) as Hwf.
  pose proof (ti_calls _ Hti id c Hc) as Hol. unfold request_path in Hol. rewrite Hreq in Hol.
  pose proof (cm_calls _ _ Hcm id c Hc) as Hcc. unfold call_commit in Hcc. rewrite Hreq in Hcc.
  destruct Hcc as [Hsm _]. set (m1 := (is_LastIncludedIndex args, is_LastIncludedTerm args)) in *.
  destruct (decide (is_LastIncludedIndex args ≤ lastApplied rf)) as [Hold|Hnew].
  { destruct (ip_stale _ _ _ Hpost Hold) as [Hr _]. injection Hr as R1 R2 R3 R4 R5 R6 R7.
    apply (node_commit_keep n (history w) _ rf); try done; [|by rewrite R4]. rewrite (ip_term _ _ _ Hpost). lia. }
  destruct (ip_fresh _ _ _ Hpost) as (Hp & Hmerge & Happ & _ & Hcom & Hpend); [lia|].
  pose proof (wf_applied _ _ Hwf) as Hwa. pose proof (persisted_term _ Hp) as Hst'.
  rewrite (ip_term _ _ _ Hpost) in Hst'.
  pose proof (on_leader_in_tree _ _ _ (ti_tree _ Hti) Hol) as Hin.
  destruct (snapshot_path (history w) (logs rf) (is_LastIncludedIndex args) (is_LastIncludedTerm args) (logs rf'))
    as [_ Hcase]; try done; [apply Hti|apply Hwf|by apply (ti_logs _ Hti (callee c))|lia|].
  fold m1 in Hcase.
  assert (Hpt : anc (history w) m1 (log_tip (logs rf')) ∧
    ∃ t, anc (history w) (commitIndex rf, t) (log_tip (logs rf')) ∧ safe n (history w) (is_Term args) (commitIndex rf, t)).
  { destruct Hcase as [[Htip Ha]|[Htip Hno]]; rewrite Htip.
    - split; [done|]. destruct (nc_commit _ _ _ Hnc) as (t & Ht & Hs). exists t. split; [done|by eapply safe_mono].
    - split; [constructor|]. by apply commit_point_kept. }
  destruct Hpt as (Htip & t & Hat & Hs). constructor.
  - rewrite (ip_term _ _ _ Hpost), Hcom.
    destruct (decide (is_LastIncludedIndex args ≤ commitIndex rf)) as [Hlc|Hlc].
    + replace (Z.max _ _) with (commitIndex rf) by lia. by exists t.
    + replace (Z.max _ _) with (is_LastIncludedIndex args) by lia. by exists (is_LastIncludedTerm args).
  - destruct (in_tree_bounds _ (ti_tree _ Hti) _ Hin) as [_ Hpos]. simpl in Hpos.
    pose proof (wf_stable_term _ _ Hwf) as Hsc. destruct (on_leader_term _ _ _ (ti_tree _ Hti) Hol) as [Hle' _].
    destruct (snapshot_merge_spec (logs rf) (is_LastIncludedIndex args) (is_LastIncludedTerm args) (logs rf') (is_Term args))
      as (_ & Hhd & _); try done; [apply Hwf|lia|lia|].
    eexists. split; [done|]. simpl. by rewrite Hst'.
  - rewrite Hpend. intros msg [= <-]. by eexists _, _, _, _.
Qed.

Lemma commit_install id c args rf rf' r :
  calls w !! id = Some c → request c = ReqSnapshot args →
  moves w w' (callee c) rf rf' (replied w (callee c) (request c) (RepSnapshot r)) [] →
  currentTerm rf ≤ is_Term args → install_post args rf rf' → commit_inv n w'.
Proof.
  intros Hc Hreq Hmv Hle Hpost. pose proof Hmv as [Hi Hn _ Hh]. pose proof (ip_follower _ _ _ Hpost) as Hf.
  eapply commit_frame; [done|done|..].
  - eapply node_commit_mono; [by eapply moves_sub|by eapply install_node_commit].
  - intros Hl. congruence.
  - congruence.
  - intros c' Hc'. eapply call_commit_replied; [done|done|done|congruence|]. by rewrite Hreq.
  - apply same_delivered.
  - by intros j e p []%elem_of_nil.
Qed.

Lemma isValidLeader_true t rf : isValidLeader t rf = true → state rf = Leader ∧ currentTerm rf = t.
Proof. by intros [?%bool_decide_eq_true ?%Z.eqb_eq]%andb_true_iff. Qed.

(** The commit rule only commits what a majority acknowledged. *)
Lemma commit_rule_committed i rf rf' :
  (nodes w).[i] = Some rf → state rf = Leader → commit_rule rf rf' → commitIndex rf < commitIndex rf' →
  go_len (matchIndex rf') = n → peers rf = n →
  (∀ p k, p ≠ i → (matchIndex rf').[p] = Some k →
     k ≤ commitIndex rf ∨ ∃ m, HAck p (currentTerm rf) m ∈ history w ∧ m.1 = k) →
  anc (history w) (commitIndex rf', currentTerm rf) (log_tip (logs rf)) ∧
  committed n (history w) (commitIndex rf', currentTerm rf).
Proof.
  intros Hi Hl Hrule Hlt Hlen Hpe Hmatch. destruct Hrule as [|(_ & Hmaj & e & He & Hte)]; [lia|].
  pose proof (node_wf _ _ _ _ Hci Hi) as Hwf. pose proof (ti_logs _ Hti i rf Hi) as Hpath.
  assert (Hanc : anc (history w) (commitIndex rf', currentTerm rf) (log_tip (logs rf))).
  { rewrite <- Hte. apply log_path_anc; [apply Hwf|done|done]. }
  split; [done|].
  pose proof (leader_on_chain n w i rf Hci Hti Hi Hl) as Hol.
  assert (Hol' := on_leader_anc _ (ti_tree _ Hti) _ _ _ Hol Hanc).
  exists (positions (λ x, commitIndex rf' <=? x) (matchIndex rf')). split.
  - apply positions_majority; [done|]. rewrite <- Hpe.
    replace (filter (λ x, (commitIndex rf' <=? x) = true) (matchIndex rf'))
      with (filter (λ x, commitIndex rf' ≤ x) (matchIndex rf')); [done|].
    apply filter_ext_in. intros x _. by rewrite Z.leb_le.
  - intros p (k & Hk & Hle%Z.leb_le)%positions_elem. unfold acked. simpl.
    destruct (decide (p = i)) as [->|Hne].
    + destruct (log_path_entry _ _ _ _ (wf_log _ _ Hwf) Hpath He) as (j & q & Hin).
      { pose proof (wf_applied _ _ Hwf). lia. }
      destruct (log_at_Some _ _ _ (wf_log _ _ Hwf) He) as [Hie _].
      destruct (tk_entry _ (ti_tree _ Hti) _ _ _ Hin) as [Hel _].
      pose proof (ci_roles _ _ Hci i rf Hi) as Hel'. rewrite Hl in Hel'. rewrite Hte in Hel.
      rewrite (elected_unique n w j i _ Hci Hel Hel') in Hin.
      exists (commitIndex rf', currentTerm rf). split; [|constructor].
      pose proof (cm_start _ _ Hcm _ _ _ Hin) as Hack. by rewrite Hie, Hte in Hack.
    + destruct (Hmatch p k Hne Hk) as [|(m & Hm & Hmk)]; [lia|]. exists m. split; [done|].
      apply (on_leader_linear _ (ti_tree _ Hti) (currentTerm rf)); [done| |simpl; lia].
      by apply (ai_ack _ _ Hai p).
Qed.

Lemma insert_other (l : list Z) q x p : p ≠ q → 0 ≤ q → (<[Z.to_nat q := x]> l).[p] = l.[p].
Proof.
  intros Hne Hq. unfold go_index. destruct (Z.leb_spec 0 p); [|done]. apply list_lookup_insert_ne. lia.
Qed.

Lemma insert_same (l : list Z) q x k : 0 ≤ q → (<[Z.to_nat q := x]> l).[q] = Some k → k = x.
Proof.
  intros Hq Hk. pose proof (go_index_Some_range _ _ _ Hk) as Hr. rewrite go_index_lookup in Hk by lia.
  unfold go_len in Hr. rewrite length_insert in Hr. rewrite list_lookup_insert_eq in Hk by lia. congruence.
Qed.

Lemma commit_append_reply id c args r rf rf' :
  calls w !! id = Some c → request c = ReqAppend args → reply c = Some (RepAppend r) →
  moves w w' (caller c) rf rf' no_call [] → quiet_step rf rf' → raft_wf n rf' →
  logs rf' = logs rf → pendingSnapshot rf' = pendingSnapshot rf →
  (commitIndex rf' ≠ commitIndex rf →
     isValidLeader (ae_Term args) rf = true ∧ aer_Success r = true ∧ commit_rule rf rf') →
  (matchIndex rf' = matchIndex rf ∨
     (isValidLeader (ae_Term args) rf = true ∧ aer_Success r = true ∧
      matchIndex rf' = <[Z.to_nat (callee c) := (append_tip args).1]> (matchIndex rf))) →
  commit_inv n w'.
Proof.
  intros Hc Hreq Hrep Hmv Hq Hwf' Hlog Hp Hcom Hm. pose proof Hmv as [Hi Hn _ Hh]. simpl in Hh.
  destruct (ci_calls _ _ Hci id c Hc) as (_ & _ & Hcallee & _).
  pose proof (cm_calls _ _ Hcm id c Hc) as Hcc. unfold call_commit in Hcc. rewrite Hreq in Hcc.
  destruct Hcc as [_ Hack]. pose proof (node_wf _ _ _ _ Hci Hi) as Hwf.
  assert (Hmatch : state rf = Leader → ∀ p k, p ≠ caller c → (matchIndex rf').[p] = Some k →
     k ≤ commitIndex rf ∨ ∃ m, HAck p (currentTerm rf) m ∈ history w ∧ m.1 = k).
  { intros Hl p k Hpc Hk. destruct Hm as [Hm|(Hvl & Hs & Hm)]; rewrite Hm in Hk.
    { by apply (cm_match _ _ Hcm _ rf Hi Hl p k). }
    destruct (decide (p = callee c)) as [->|Hne].
    - right. exists (append_tip args). apply isValidLeader_true in Hvl as [_ ->].
      split; [by eapply Hack|]. symmetry. apply (insert_same (matchIndex rf) (callee c)); [lia|done].
    - rewrite insert_other in Hk by (done || lia). by apply (cm_match _ _ Hcm _ rf Hi Hl p k). }
  assert (Hmono : commitIndex rf ≤ commitIndex rf').
  { destruct (decide (commitIndex rf' = commitIndex rf)) as [->|Hne]; [done|].
    destruct (Hcom Hne) as (_ & _ & [|[? _]]); lia. }
  eapply commit_frame; [done|done|..]; try done; [| | |apply same_delivered|intros j e p []%elem_of_nil].
  - rewrite Hh. pose proof (quiet_stable _ _ Hq) as Hst. pose proof (cm_node _ _ Hcm _ rf Hi) as Hnc.
    destruct (decide (commitIndex rf' = commitIndex rf)) as [E|Hne].
    { apply (node_commit_keep n (history w) _ rf); try done; [apply Hq|by rewrite Hp]. }
    destruct (Hcom Hne) as (Hvl & _ & Hrule). apply isValidLeader_true in Hvl as [Hl _].
    destruct (commit_rule_committed (caller c) rf rf') as [Ha Hcmt]; try done;
      [lia|apply Hwf'|apply Hwf|by apply Hmatch|].
    constructor.
    + exists (currentTerm rf). rewrite Hlog. split; [done|]. right. eexists. split_and!; [done| |constructor].
      apply Hq.
    + rewrite Hlog. destruct (nc_first _ _ _ Hnc) as (e & He & Hs). exists e. split; [done|by eapply safe_mono].
    + rewrite Hp. apply Hnc.
  - intros Hl p k Hpc Hk. rewrite Hh. destruct (qs_role _ _ Hq) as [|[Hs Ht]]; [congruence|].
    destruct (Hmatch (eq_trans (eq_sym Hs) Hl) p k Hpc Hk) as [|H]; [left; lia|right]. by rewrite Ht.
  - apply role_lead; [apply Hq|done].
Qed.

Lemma commit_snapshot_reply id c args rf rf' :
  calls w !! id = Some c → request c = ReqSnapshot args → live c = true →
  moves w w' (caller c) rf rf' no_call [] → quiet_step rf rf' → replica rf' = replica rf →
  (state rf' = Leader → matchIndex rf' = matchIndex rf ∨
    (isValidLeader (is_Term args) rf = true ∧
     matchIndex rf' = <[Z.to_nat (callee c) := is_LastIncludedIndex args]> (matchIndex rf))) →
  commit_inv n w'.
Proof.
  intros Hc Hreq Hlive Hmv Hq Hr Hm. pose proof Hmv as [Hi Hn _ Hh]. injection Hr as R1 R2 R3 R4 R5 R6 R7.
  destruct (ci_calls _ _ Hci id c Hc) as (_ & _ & Hcallee & _).
  pose proof (cm_calls _ _ Hcm id c Hc) as Hcc. unfold call_commit in Hcc. rewrite Hreq in Hcc.
  destruct Hcc as [_ Hl]. destruct (Hl Hlive) as [_ Hle].
  eapply commit_frame; [done|done|..]; try done; [| | |apply same_delivered|intros j e p []%elem_of_nil].
  - rewrite Hh. apply (node_commit_keep n (history w) _ rf); try done;
      [by apply (cm_node _ _ Hcm (caller c))|apply Hq|by apply quiet_stable|by rewrite R4].
  - intros Hl' p k Hpc Hk. rewrite Hh, R2. destruct (qs_role _ _ Hq) as [|[Hs Ht]]; [congruence|]. rewrite Ht.
    assert (Hl0 : state rf = Leader) by congruence.
    destruct (Hm Hl') as [Em|[Hvl Em]]; rewrite Em in Hk; [by apply (cm_match _ _ Hcm _ rf Hi Hl0)|].
    destruct (decide (p = callee c)) as [->|Hne].
    + left. rewrite (insert_same (matchIndex rf) (callee c) (is_LastIncludedIndex args) k); [by apply Hle|lia|done].
    + rewrite insert_other in Hk by (done || lia). by apply (cm_match _ _ Hcm _ rf Hi Hl0).
  - apply role_lead; [apply Hq|lia].
Qed.

Lemma commit_compact i rf rf' index e :
  moves w w' i rf rf' no_call [] → quiet_step rf rf' → persisted rf' → index ≤ lastApplied rf →
  state rf' = state rf → currentTerm rf' = currentTerm rf → commitIndex rf' = commitIndex rf →
  pendingSnapshot rf' = pendingSnapshot rf → matchIndex rf' = matchIndex rf →
  log_at (logs rf) index = Some e →
  logs rf' = compact_log (logs rf) (Z.to_nat (index - first_index (logs rf))) (Term e) (Index e) →
  commit_inv n w'.
Proof.
  intros Hmv Hq Hp Hidx Hs Ht Hc Hpend Hm He Hlog. pose proof Hmv as [Hi Hn _ Hh]. simpl in Hh.
  pose proof (node_wf _ _ _ _ Hci Hi) as Hwf. pose proof (ti_logs _ Hti i rf Hi) as Hpath.
  destruct (compact_path (history w) (logs rf) (Z.to_nat (index - first_index (logs rf))) e) as [_ Htip];
    [apply Hti|apply Hwf|done|by apply log_at_lookup|]. rewrite <- Hlog in Htip.
  pose proof (cm_node _ _ Hcm i rf Hi) as [(t & Ha & Hsafe) _ Hpd]. rewrite <- Hpend in Hpd.
  eapply commit_frame; [done|done|..]; try done; [| | |apply same_delivered|intros j x p []%elem_of_nil].
  - rewrite Hh. constructor; rewrite ?Hc, ?Htip, ?Ht; [by exists t| |done].
    rewrite Hlog. eexists. split; [done|]. simpl. rewrite (persisted_term _ Hp), Ht.
    destruct (log_at_Some _ _ _ (wf_log _ _ Hwf) He) as [-> _].
    apply (safe_anc n (history w) _ _ (commitIndex rf, t)); [apply Hti| |done].
    apply (anc_linear _ (ti_tree _ Hti) _ _ (log_tip (logs rf))); [apply log_path_anc; [apply Hwf|done|done]|done|].
    pose proof (wf_applied _ _ Hwf). simpl. lia.
  - rewrite Hh. apply (leader_match_keep w i rf); try done; [by apply (cm_match _ _ Hcm i)|lia|by right|].
    intros _ p _. by rewrite Hm.
  - apply role_lead; [by right|lia].
Qed.

Lemma commit_crash i rf rf' :
  moves w w' i rf rf' no_call [] → persisted rf' → stable rf' = stable rf → state rf' = Follower →
  logs rf' = logs rf → commitIndex rf' = first_index (logs rf) → pendingSnapshot rf' = None →
  commit_inv n w'.
Proof.
  intros Hmv Hp Hst Hs Hlog Hc Hpend. pose proof Hmv as [Hi Hn _ Hh]. simpl in Hh.
  pose proof (node_log_wf _ _ _ _ Hci Hi) as Hwf. pose proof (stable_eq_term _ _ Hst) as Hst'.
  destruct (nc_first _ _ _ (cm_node _ _ Hcm i rf Hi)) as (e & He & Hsafe). rewrite <- Hst' in Hsafe.
  assert (Hi0 : first_index (logs rf) = Index e) by (unfold first_index; by rewrite He).
  eapply commit_frame; [done|done|..]; try done; [| | |apply same_delivered|intros j x p []%elem_of_nil].
  - rewrite Hh. constructor; rewrite ?Hlog, ?Hc, ?Hpend; [|by exists e|done].
    exists (Term e). rewrite <- (persisted_term _ Hp), Hi0. split; [|done].
    apply log_path_anc; [done|by apply (ti_logs _ Hti i)|]. unfold log_at. rewrite Hi0, Z.sub_diag.
    by destruct (logs rf); [|injection He as ->].
  - intros Hl. congruence.
  - congruence.
Qed.
End commit_steps.

(** A peer never commits past the end of its log. *)
Lemma commit_in_log n w i rf :
  tree_inv w → commit_inv n w → (nodes w).[i] = Some rf → commitIndex rf ≤ last_index (logs rf).
Proof.
  intros Hti Hcm Hi. destruct (nc_commit _ _ _ (cm_node _ _ Hcm i rf Hi)) as (t & Ha & _).
  apply (anc_le _ (ti_tree _ Hti)) in Ha. simpl in Ha. lia.
Qed.

Lemma deliver_safe n w i rf rf' msg :
  cluster_inv n w → tree_inv w → commit_inv n w → (nodes w).[i] = Some rf →
  match msg with
  | SnapshotMsg s t k =>
      pendingSnapshot rf = Some msg ∧ pendingSnapshot rf' = None ∧ lastApplied rf' = lastApplied rf
  | CommandMsg command k =>
      pendingSnapshot rf = Some msg ∨
      (pendingSnapshot rf = None ∧ pendingSnapshot rf' = None ∧
       k = lastApplied rf + 1 ∧ k ≤ commitIndex rf ∧ lastApplied rf' = k ∧
       ∃ e, log_at (logs rf) k = Some e ∧ Command e = command)
  end →
  pendingSnapshot rf' = None ∧ msg_safe n (history w) msg.
Proof.
  intros Hci Hti Hcm Hi Hmsg. pose proof (node_wf _ _ _ _ Hci Hi) as Hwf.
  pose proof (cm_node _ _ Hcm i rf Hi) as [(t & Ha & Hs) _ Hpend].
  destruct msg as [command k|s t' k].
  - destruct Hmsg as [Hp|(_ & Hp' & Hk & Hle & _ & e & He & Hce)].
    { by destruct (Hpend _ Hp) as (? & ? & ? & ? & ? & _). }
    split; [done|]. destruct (log_path_entry _ _ _ _ (wf_log _ _ Hwf) (ti_logs _ Hti i rf Hi) He) as (j & p & Hin).
    { pose proof (wf_applied _ _ Hwf). lia. }
    exists j, e, p, (currentTerm rf). destruct (log_at_Some _ _ _ (wf_log _ _ Hwf) He) as [Hie _].
    split_and!; try done. apply (safe_anc n (history w) _ _ (commitIndex rf, t)); [apply Hti| |done].
    apply (anc_linear _ (ti_tree _ Hti) _ _ (log_tip (logs rf))); [|done|done].
    apply log_path_anc; [apply Hwf|by apply (ti_logs _ Hti i)|done].
  - destruct Hmsg as (Hp & Hp' & _). split; [done|].
    destruct (Hpend _ Hp) as (s1 & t1 & k1 & b & E & Hs1). injection E as -> -> ->. by exists b.
Qed.

Lemma commit_step n ev w w' :
  cluster_inv n w → cluster_inv n w' → tree_inv w → tree_inv w' → ack_inv n w → commit_inv n w →
  protocol_step n ev w w' → commit_inv n w'.
Proof.
  intros Hci Hci' Hti Hti' Hai Hcm Hstep.
  assert (Hnone : ∀ j e p, HStart (cmd:=cmd) j e p ∉ []) by (intros j e p []%elem_of_nil).
  destruct Hstep as
    [Hn Hc Hh Hd|i rf rf' Hmv Hd Hq Hr _ Hm|i rf rf' args el Hmv Hd Ha Hr _ Hs Ht Hp
    |id c args el rf rf' r Hc Hreq Hmv Hd Hr _ Hp Ht Hle Hs Hup|id c rf rf' r Hc _ Hmv Hd Hq Hr _ Hm
    |i rf rf' Hmv Hd Hr Hwf' Hst Hs Hs' Ht Hm _|i rf rf' command e Hmv Hd _ Hq _ Hl Hs Ht Hlog Hco _ Hpe Hm _ _
    |i rf peer args Hmv Hd Hl Ht Hco Haa|i rf peer args Hmv Hd Hl Ht Hi0 Ht0 _
    |id c args rf rf' r Hc Hreq Hmv Hd _ Hle Hpost|id c rf r Hc Hrep Hmv Hd
    |id c args rf rf' r Hc Hreq Hmv Hd _ Hle Hpost|id c args r rf rf' Hc Hreq Hrep _ Hmv Hd Hq Hwf' Hlog _ Hpe _ Hco Hm
    |id c args rf rf' Hc Hreq Hlv Hmv Hd Hq Hr _ Hm|i rf rf' index snap e Hmv Hd Hq _ Hp Hidx Hs Ht Hco _ Hpe Hm _ _ He Hlog
    |i rf rf' msg Hmv Hd Hq _ Hlog Hco Hm _ _ Hmsg|i rf rf' Hmv Hd Hq _ Hlog Hlt _|i rf rf' Hmv Hd _ Hp Hst Hs Hlog Hco _ Hpe _ _];
    try (pose proof (mv_before _ _ _ _ _ _ _ Hmv) as Hi;
         pose proof (wf_stable_term _ _ (node_wf _ _ _ _ Hci Hi)) as Hsc);
    try (injection Hr as R1 R2 R3 R4 R5 R6 R7).
  - constructor; rewrite ?Hn, ?Hh, ?Hd; try apply Hcm. intros id c [(id' & c0 & Hc0 & E1 & E2 & E3 & E4 & E5)|[]]%Hc.
    pose proof (cm_calls _ _ Hcm id' c0 Hc0) as H. unfold call_commit in *. rewrite E1, E2, E3, E4.
    destruct (request c0); [done|done|]. destruct H as [H1 H2]. split; [done|]. auto.
  - eapply commit_quiet; try done; [apply Hq|by apply quiet_stable|by rewrite R4|apply Hq|rewrite Hd; auto].
  - eapply commit_frame; [done|done|..].
    + apply (node_commit_keep n (history w) _ rf); try done;
        [by eapply moves_sub|by apply (cm_node _ _ Hcm i)|lia|rewrite (persisted_term _ Hp); lia|by rewrite R4].
    + intros Hl. congruence.
    + congruence.
    + intros c (_ & Hreq & _). unfold call_commit. by rewrite Hreq.
    + rewrite Hd. auto.
    + by intros j e p [|[|[]%elem_of_nil]%elem_of_cons]%elem_of_cons.
  - assert (Hrole : state rf' = Follower ∨ (state rf' = state rf ∧ currentTerm rf' = currentTerm rf)) by tauto.
    eapply commit_quiet; try done; [lia|rewrite (persisted_term _ Hp); lia|by rewrite R4| | |rewrite Hd; auto|].
    + intros Hl. destruct Hs as [|(_ & _ & ?)]; [congruence|done].
    + intros c' Hc'. eapply call_commit_replied; [done|done|done|apply role_lead; [done|lia]|]. by rewrite Hreq.
    + by intros j e p [|[]%elem_of_nil]%elem_of_cons.
  - eapply commit_quiet; try done; [apply Hq|by apply quiet_stable|by rewrite R4|apply Hq| |rewrite Hd; auto].
    intros c' Hc'. eapply call_commit_replied; [done|done|done|apply role_lead; [apply Hq|lia]|done].
  - apply commit_elected with (w := w) (i := i) (rf := rf) (rf' := rf'); try done; [|apply Hwf']. unfold replica. congruence.
  - apply commit_start with (w := w) (i := i) (rf := rf) (rf' := rf') (command := command); try done.
    by apply quiet_stable.
  - by apply commit_send_append with (w := w) (i := i) (rf := rf) (peer := peer) (args := args).
  - by apply commit_send_snapshot with (w := w) (i := i) (rf := rf) (peer := peer) (args := args).
  - by apply commit_append with (w := w) (id := id) (c := c) (args := args) (rf := rf) (rf' := rf') (r := r).
  - eapply commit_quiet; try done; [by right| |rewrite Hd; auto].
    intros c' Hc'. eapply call_commit_replied; [done|done|done|apply role_lead; [by right|lia]|].
    intros a r' _ -> Hs. congruence.
  - by apply commit_install with (w := w) (id := id) (c := c) (args := args) (rf := rf) (rf' := rf') (r := r).
  - by apply commit_append_reply with (w := w) (id := id) (c := c) (args := args) (r := r) (rf := rf) (rf' := rf').
  - apply commit_snapshot_reply with (w := w) (id := id) (c := c) (args := args) (rf := rf) (rf' := rf'); try done. unfold replica. congruence.
  - apply commit_compact with (w := w) (i := i) (rf := rf) (rf' := rf') (index := index) (e := e); try done. lia.
  - destruct (deliver_safe n w i rf rf' msg) as [Hpn Hsafe]; try done.
    eapply commit_quiet; try done; [apply Hq|by apply quiet_stable|by rewrite Hpn|apply Hq|].
    rewrite Hd. intros j msg' [[= -> ->]|]%elem_of_cons; [right|by left].
    eapply msg_safe_mono; [|done]. by eapply moves_sub.
  - pose proof (commit_in_log n w i rf Hti Hcm Hi). lia.
  - by apply commit_crash with (w := w) (i := i) (rf := rf) (rf' := rf').
Qed.

Lemma init_commit n : commit_inv (Z.of_nat n) (init_world n).
Proof.
  constructor; simpl.
  - intros i rf [_ ->]%init_node. constructor; simpl; [| |done].
    + exists 0. split; [constructor|by left].
    + eexists. split; [done|by left].
  - by intros i rf [_ ->]%init_node.
  - intros id c Hc. by rewrite lookup_empty in Hc.
  - intros i msg []%elem_of_nil.
  - intros j e p []%elem_of_nil.
Qed.

Lemma reachable_commit n w : reachable n w → commit_inv (Z.of_nat n) w.
Proof.
  induction 1 as [|w ev w' Hr IH Hstep]; [apply init_commit|].
  assert (Hr' : reachable n w') by (by eapply reachable_step).
  pose proof (reachable_inv _ _ Hr) as Hci.
  apply (commit_step (Z.of_nat n) ev w w'); try done;
    [by apply reachable_inv|by eapply reachable_tree|by eapply reachable_tree|by apply reachable_ack|].
  by apply (step_refines _ w ev).
Qed.

(** ** Properties *)

(** The safe entry at an index is unique. *)
Lemma safe_entry_unique n w j1 e1 p1 b1 j2 e2 p2 b2 :
  reachable n w → HStart j1 e1 p1 ∈ history w → HStart j2 e2 p2 ∈ history w → Index e1 = Index e2 →
  safe (Z.of_nat n) (history w) b1 (Index e1, Term e1) → safe (Z.of_nat n) (history w) b2 (Index e2, Term e2) → e1 = e2.
Proof.
  intros Hr H1 H2 Ei S1 S2. pose proof (reachable_inv _ _ Hr) as Hci. pose proof (reachable_tree _ _ Hr) as Hti.
  pose proof (reachable_ack _ _ Hr) as Hai.
  assert (E : (Index e1, Term e1) = (Index e2, Term e2)) by (by eapply safe_unique). injection E as _ Et.
  by destruct (tk_unique _ (ti_tree _ Hti) _ _ _ _ _ _ H1 H2).
Qed.

(** C1 (State Machine Safety).  In any run of the cluster, with message loss,
    reordering, crashes with restart from the persister, log compaction and
    snapshot transfer, two CommandMsg values that any appliers delivered for the
    same index carry the same command. *)
Theorem state_machine_safety n w i j command1 command2 k :
  reachable n w → (i, CommandMsg command1 k) ∈ delivered w → (j, CommandMsg command2 k) ∈ delivered w →
  command1 = command2.
Proof.
  intros Hr H1 H2. pose proof (reachable_commit _ _ Hr) as Hcm.
  apply (cm_delivered _ _ Hcm) in H1 as (j1 & e1 & p1 & b1 & Hin1 & <- & <- & Hs1).
  apply (cm_delivered _ _ Hcm) in H2 as (j2 & e2 & p2 & b2 & Hin2 & Hi2 & <- & Hs2). rewrite <- Hi2 in Hs2.
  by rewrite (safe_entry_unique n w j1 e1 p1 b1 j2 e2 p2 b2).
Qed.

(** C6 (Commit safety).  The commit index of every peer lies within its log: it is
    not below the snapshot and not beyond the last entry, and the log holds every
    entry in between.  Two peers that have both committed an index hold, where
    neither has compacted it away, the same entry there. *)
Theorem committed_entries_agree n w :
  reachable n w →
  (∀ i rf, (nodes w).[i] = Some rf →
     first_index (logs rf) ≤ commitIndex rf ≤ last_index (logs rf) ∧
     ∀ k, first_index (logs rf) < k ≤ commitIndex rf → ∃ e, log_at (logs rf) k = Some e ∧ Index e = k) ∧
  (∀ i j rf rf' k e e', (nodes w).[i] = Some rf → (nodes w).[j] = Some rf' →
     first_index (logs rf) < k ≤ commitIndex rf → first_index (logs rf') < k ≤ commitIndex rf' →
     log_at (logs rf) k = Some e → log_at (logs rf') k = Some e' → e = e').
Proof.
  intros Hr. pose proof (reachable_commit _ _ Hr) as Hcm.
  pose proof (reachable_inv _ _ Hr) as Hci. pose proof (reachable_tree _ _ Hr) as Hti. split.
  { intros i rf Hi. pose proof (node_wf _ _ _ _ Hci Hi) as Hwf. pose proof (wf_applied _ _ Hwf).
    pose proof (commit_in_log _ w i rf Hti Hcm Hi). split; [lia|]. intros k Hk.
    destruct (log_at_is_Some (logs rf) k) as [e He]; [lia|]. exists e. split; [done|]. by apply (log_at_Some _ _ _ (wf_log _ _ Hwf) He). }
  intros i j rf rf' k e e' Hi Hj [Hf Hk] [Hf' Hk'] He He'.
  assert (Hsafe : ∀ i rf e, (nodes w).[i] = Some rf → k ≤ commitIndex rf → first_index (logs rf) < k →
    log_at (logs rf) k = Some e → ∃ b, safe (Z.of_nat n) (history w) b (k, Term e)).
  { intros q x f Hq Hkq _ Hx. destruct (nc_commit _ _ _ (cm_node _ _ Hcm q x Hq)) as (t & Ha & Hs).
    exists (currentTerm x). apply (safe_anc _ (history w) _ _ (commitIndex x, t)); [apply Hti| |done].
    apply (anc_linear _ (ti_tree _ Hti) _ _ (log_tip (logs x))); [|done|done].
    apply log_path_anc; [by eapply node_log_wf|by apply (ti_logs _ Hti q)|done]. }
  destruct (Hsafe i rf e) as [b Hs]; try done. destruct (Hsafe j rf' e') as [b' Hs']; try done.
  pose proof (reachable_ack _ _ Hr) as Hai.
  assert (E : (k, Term e) = (k, Term e')) by (by eapply safe_unique). injection E as E.
  eapply (paths_agree (history w) (logs rf) (logs rf') k e e'); try done;
    [apply Hti|by eapply node_log_wf|by eapply node_log_wf|by apply (ti_logs _ Hti i)|by apply (ti_logs _ Hti j)].
Qed.
End commit.

(** ** Witnesses *)

Lemma state_machine_safety_witness :
  (0, CommandMsg (Some 7%nat) 1) ∈ delivered demo_world ∧ (1, CommandMsg (Some 7%nat) 1) ∈ delivered demo_world ∧
  Some 7%nat = Some 7%nat.
Proof.
  assert (H0 : (0, CommandMsg (Some 7%nat) 1) ∈ delivered demo_world) by (vm_compute; right; left).
  assert (H1 : (1, CommandMsg (Some 7%nat) 1) ∈ delivered demo_world) by (vm_compute; left).
  split; [exact H0|]. split; [exact H1|].
  exact (state_machine_safety (Gob0 := nat_codec) 3 demo_world 0 1 _ _ 1 demo_reachable H0 H1).
Defined.

Lemma committed_entries_agree_witness :
  ∃ rf rf' e e', (nodes demo_world).[1] = Some rf ∧ (nodes demo_world).[2] = Some rf' ∧
    log_at (logs rf) 1 = Some e ∧ log_at (logs rf') 1 = Some e' ∧ commitIndex rf ≤ last_index (logs rf) ∧ e = e'.
Proof.
  destruct (committed_entries_agree (Gob0 := nat_codec) 3 demo_world demo_reachable) as [Hin Hsame].
  eexists _, _, _, _. split; [vm_compute; reflexivity|]. split; [vm_compute; reflexivity|].
  split; [vm_compute; reflexivity|]. split; [vm_compute; reflexivity|]. split.
  - eapply (Hin 1). vm_compute. reflexivity.
  - eapply (Hsame 1 2 _ _ 1); vm_compute; first [reflexivity|split; congruence].
Defined.
