(* ===== verification/SnapshotFlow.v ===== *)
(** * Snapshots between the service and its peers

    A snapshot is opaque to Raft: the service hands it in for an index
    ([Snapshot]), a peer stores it, sends it to a peer that is behind, and that
    peer stores it and delivers it to its own service.  [flow_inv] says, for any
    property [good] that the snapshots handed in have for their index, that every
    snapshot stored, in flight, staged for the applier or delivered has it for
    the index it is labelled with.  The second half states what the service sees of a
    step of the cluster. *)

From S2P Require Import Prelude RaftUtil RaftNode RaftLog RaftWf RaftOps RaftRepl Cluster LogTree ElectionSafety Protocol LogMatching Completeness StateMachineSafety.
Local Open Scope Z_scope.
Local Open Scope go_scope.

Section flow.
Context {cmd : Type} `{!Gob (PersistedState cmd)}.
Implicit Types (rf : Raft cmd) (w : World cmd) (c : Call cmd) (good : bytes → Z → Prop).

(** [b] is what belongs to a log that starts at [k]. *)
Definition stored good (b : bytes) (k : Z) : Prop := (k = 0 ∧ b = []) ∨ (0 < k ∧ good b k).

Record node_flow good rf : Prop := {
  nf_stored : stored good (ReadSnapshot (persister rf)) (first_index (logs rf));
  nf_pending msg : pendingSnapshot rf = Some msg →
    ∃ b t, msg = SnapshotMsg b t (lastApplied rf) ∧ good b (lastApplied rf)
}.

Definition call_flow good c : Prop :=
  match request c with
  | ReqSnapshot args => stored good (default [] (is_Data args)) (is_LastIncludedIndex args)
  | _ => True
  end.

Record flow_inv good w : Prop := {
  fl_node i rf : (nodes w).[i] = Some rf → node_flow good rf;
  fl_call id c : calls w !! id = Some c → call_flow good c;
  fl_delivered i b t k : (i, SnapshotMsg b t k) ∈ delivered w → good b k
}.

(** What the services hand in is good. *)
Definition hands_good good (ev : Event cmd) : Prop :=
  match ev with
  | EvSnapshot _ index snap => ∃ b, snap = Some b ∧ good b index
  | _ => True
  end.

Lemma flow_mono good good' w : (∀ b k, good b k → good' b k) → flow_inv good w → flow_inv good' w.
Proof.
  intros Hg. assert (Hs : ∀ b k, stored good b k → stored good' b k) by (intros b k [?|[]]; [left|right]; auto).
  intros [Hn Hc Hd]. constructor.
  - intros i rf Hi. destruct (Hn i rf Hi) as [H1 H2]. constructor; [auto|]. intros msg Hm.
    destruct (H2 msg Hm) as (b & t & -> & H). eauto.
  - intros id c Hid. specialize (Hc id c Hid). unfold call_flow in *. destruct (request c); auto.
  - intros i b t k Hin. eauto.
Qed.

Lemma log_merge_first l pi (es l' : list (LogEntry cmd)) p :
  log_wf l → log_at l pi = Some p → log_merge l pi es l' → first_index l' = first_index l.
Proof.
  intros Hwf Hp [[-> _]|(es1 & e & es2 & qi & q & _ & _ & _ & _ & Hq & _ & _ & ->)]; [done|].
  apply log_at_Some in Hq as (_ & _ & Hr); [|done]. pose proof (log_wf_nonempty _ Hwf) as Hne.
  rewrite first_index_app; [apply first_index_take; lia|]. destruct l; [done|]. by destruct (Z.to_nat _) eqn:E; [lia|].
Qed.

(** A peer whose log-related part did not change. *)
Lemma node_flow_replica good rf rf' : replica rf' = replica rf → node_flow good rf → node_flow good rf'.
Proof. intros [= E1 E2 E3 E4 E5 E6 E7] [H1 H2]. constructor; rewrite ?E1, ?E3, ?E4, ?E7; done. Qed.

Lemma node_flow_keep good rf rf' :
  first_index (logs rf') = first_index (logs rf) → ReadSnapshot (persister rf') = ReadSnapshot (persister rf) →
  lastApplied rf' = lastApplied rf → pendingSnapshot rf' = pendingSnapshot rf → node_flow good rf → node_flow good rf'.
Proof. intros E1 E2 E3 E4 [H1 H2]. constructor; rewrite ?E1, ?E2, ?E3, ?E4; done. Qed.

Section step.
Context (good : bytes → Z → Prop) (Hne : ∀ b k, good b k → b ≠ []).

Lemma install_flow n args rf rf' :
  raft_wf n rf → install_post args rf rf' → 0 ≤ is_LastIncludedTerm args ≤ is_Term args →
  stored good (default [] (is_Data args)) (is_LastIncludedIndex args) → node_flow good rf → node_flow good rf'.
Proof.
  intros Hwf Hpost Ht Hs Hf. pose proof (wf_applied _ _ Hwf) as Ha. pose proof (log_wf_first_nonneg _ (wf_log _ _ Hwf)) as H0.
  destruct (decide (is_LastIncludedIndex args ≤ lastApplied rf)) as [Hle|Hgt].
  { destruct (ip_stale _ _ _ Hpost Hle) as [Hr _]. by apply (node_flow_replica _ rf). }
  destruct (ip_fresh _ _ _ Hpost) as (_ & Hm & Hla & Hsn & _ & Hpend); [lia|].
  destruct Hs as [[? _]|[Hpos Hg]]; [lia|]. destruct (is_Data args) as [b|]; [|by destruct (Hne _ _ Hg)]. simpl in *.
  assert (Ef : first_index (logs rf') = is_LastIncludedIndex args).
  { by destruct Hm as [[-> _]|(e & He & _ & _ & ->)]; [|apply log_at_Some in He as [-> _]; [|apply Hwf]]. }
  constructor; rewrite ?Ef, ?Hla, ?Hsn, ?Hpend; [by right|]. intros msg [= <-]. eauto.
Qed.

Lemma flow_frame w w' i rf rf' new evs :
  flow_inv good w → moves w w' i rf rf' new evs → node_flow good rf' → (∀ c, new c → call_flow good c) →
  (∀ j b t k, (j, SnapshotMsg b t k) ∈ delivered w' → (j, SnapshotMsg b t k) ∈ delivered w ∨ good b k) →
  flow_inv good w'.
Proof.
  intros [Hn Hc Hd] [Hi En Ec _] Hf Hnew Hdel. constructor.
  - intros j x. rewrite En, (nodes_insert _ _ rf) by done. case_decide; [by intros [= <-]|apply Hn].
  - intros id c [(id' & c0 & Hc0 & _ & _ & Er & _)|H]%Ec; [|by apply Hnew]. unfold call_flow. rewrite Er. by apply (Hc id').
  - intros j b t k [Hin|]%Hdel; [by eapply Hd|done].
Qed.

(** An answered call carries the request it carried. *)
Lemma replied_flow w j req r c : flow_inv good w → replied w j req r c → call_flow good c.
Proof.
  intros [_ Hc _] (c0 & (id & c1 & H1 & _ & _ & Er & _) & _ & _ & _ & ->). unfold call_flow. simpl.
  rewrite Er. by apply (Hc id).
Qed.

Lemma flow_step n ev w w' :
  cluster_inv n w → (∀ i rf, (nodes w).[i] = Some rf → commitIndex rf ≤ last_index (logs rf)) →
  hands_good good ev → flow_inv good w → protocol_step n ev w w' → flow_inv good w'.
Proof.
  intros Hci Hcom Hev Hfl Hstep.
  assert (Hrep : ∀ j req r c, replied w j req r c → call_flow good c) by (intros *; by apply replied_flow).
  assert (Hsame : delivered w' = delivered w → ∀ j b t k, (j, SnapshotMsg b t k) ∈ delivered w' →
    (j, SnapshotMsg b t k) ∈ delivered w ∨ good b k) by (intros ->; auto).
  destruct Hstep as
    [Hn Hc _ Hd|i rf rf' Hmv Hd _ Hr _ _|i rf rf' args el Hmv Hd _ Hr _ _ _ _
    |id c args el rf rf' r _ _ Hmv Hd Hr _ _ _ _ _ _|id c rf rf' r _ _ Hmv Hd _ Hr _ _
    |i rf rf' Hmv Hd Hr _ _ _ _ _ _ _|i rf rf' command e Hmv Hd _ _ _ _ _ _ Hlog _ Ha Hp _ Hsn _
    |i rf peer args Hmv Hd _ _ _ _|i rf peer args Hmv Hd _ _ Hi0 _ Hdata
    |id c args rf rf' r _ _ Hmv Hd _ _ Hpost|id c rf r _ _ Hmv Hd
    |id c args rf rf' r Hc Hreq Hmv Hd _ _ Hpost|id c args r rf rf' _ _ _ _ Hmv Hd _ _ Hlog Ha Hp Hsn _ _
    |id c args rf rf' _ _ _ Hmv Hd _ Hr _ _|i rf rf' index snap e Hmv Hd _ _ _ Hidx _ _ _ Ha Hp _ Hsn Eev He Hlog
    |i rf rf' msg Hmv Hd _ _ Hlog _ _ Hsn _ Hmsg|i rf rf' Hmv _ _ _ _ Hlt _|i rf rf' Hmv Hd _ _ _ _ Hlog _ _ Hp Hper _];
    try (pose proof (mv_before _ _ _ _ _ _ _ Hmv) as Hi; pose proof (fl_node _ _ Hfl _ _ Hi) as Hf);
    try (by eapply flow_frame; [done|exact Hmv|by apply (node_flow_replica _ rf)|try done; by eauto|auto]).
  - destruct Hfl as [H1 H2 H3]. constructor; rewrite ?Hn, ?Hd; try done.
    intros id c [(id' & c0 & Hc0 & _ & _ & Er & _)|[]]%Hc. unfold call_flow. rewrite Er. by apply (H2 id').
  - eapply flow_frame; [done|exact Hmv|by apply (node_flow_replica _ rf)| |auto].
    intros c (_ & Hreq & _). unfold call_flow. by rewrite Hreq.
  - eapply flow_frame; [done|exact Hmv| |done|auto]. apply (node_flow_keep _ rf); try done.
    rewrite Hlog. apply first_index_app. by eapply log_wf_nonempty, node_log_wf.
  - eapply flow_frame; [done|exact Hmv|done|by intros c ->|auto].
  - eapply flow_frame; [done|exact Hmv|done| |auto]. intros c ->. unfold call_flow. simpl. rewrite Hi0, Hdata.
    destruct Hf as [H _]. by destruct (ReadSnapshot (persister rf)).
  - eapply flow_frame; [done|exact Hmv| |by eauto|auto]. destruct (decide (prev_matched args (logs rf))) as [Hm|Hm].
    + destruct (ap_match _ _ _ _ Hpost Hm) as (_ & Hmerge & _). destruct Hm as (p & Hp & _).
      apply (node_flow_keep _ rf); try done; [|apply Hpost..]. eapply log_merge_first; [by eapply node_log_wf|done|done].
    + apply (node_flow_replica _ rf); [|done]. by apply (ap_mismatch _ _ _ _ Hpost).
  - eapply flow_frame; [done|exact Hmv| |by eauto|auto]. pose proof (fl_call _ _ Hfl id c Hc) as Hcf.
    destruct (ci_calls _ _ Hci id c Hc) as (_ & _ & _ & _ & Hok). unfold call_flow in Hcf. rewrite Hreq in Hok, Hcf.
    destruct Hok as [Ht _]. eapply install_flow; [by eapply node_wf|done..].
  - eapply flow_frame; [done|exact Hmv| |done|auto]. apply (node_flow_keep _ rf); try done. by rewrite Hlog.
  - eapply flow_frame; [done|exact Hmv| |done|auto]. subst ev. destruct Hev as (b & -> & Hg).
    pose proof (log_wf_first_nonneg _ (node_log_wf _ _ _ _ Hci Hi)) as H0.
    apply log_at_Some in He as [Ei _]; [|by eapply node_log_wf].
    constructor; [|rewrite Hp, Ha; apply Hf]. rewrite Hlog, compact_log_first, Hsn, Ei. right. split; [lia|done].
  - eapply flow_frame; [done|exact Hmv| |done|].
    + assert (Hno : pendingSnapshot rf' = None).
      { destruct msg as [c k|b t k]; [destruct Hmsg as [Hm|(_ & H & _)]; [|done]|apply Hmsg].
        by destruct (nf_pending _ _ Hf _ Hm) as (b & t & [=] & _). }
      constructor; [rewrite Hlog, Hsn; apply Hf|by rewrite Hno].
    + rewrite Hd. intros j b t k [[= -> <-]|Hin]%elem_of_cons; [right|by left]. destruct Hmsg as (Hm & _).
      by destruct (nf_pending _ _ Hf _ Hm) as (b' & t' & [= -> -> ->] & H).
  - specialize (Hcom _ _ Hi). lia.
  - eapply flow_frame; [done|exact Hmv| |done|auto]. constructor; [rewrite Hlog, Hper; apply Hf|by rewrite Hp].
Qed.
End step.

Lemma init_flow good n : flow_inv good (init_world n).
Proof.
  constructor; simpl.
  - intros i rf [_ ->]%init_node. constructor; [by left|done].
  - intros id c Hc. by rewrite lookup_empty in Hc.
  - intros i b t k []%elem_of_nil.
Qed.

Lemma reachable_commit_in_log n w i rf :
  reachable n w → (nodes w).[i] = Some rf → commitIndex rf ≤ last_index (logs rf).
Proof. intros Hr. eapply commit_in_log; [by eapply reachable_tree|by apply reachable_commit]. Qed.

(** ** What the service sees of a step *)

(** Only the applier takes from a peer's committed entries; every other step
    leaves [lastApplied] alone or stages a snapshot that overtakes it. *)
Definition applied_move (ev : Event cmd) (i : Z) rf rf' : Prop :=
  (lastApplied rf' = lastApplied rf ∧ pendingSnapshot rf' = pendingSnapshot rf) ∨
  (lastApplied rf < lastApplied rf' ∧ is_Some (pendingSnapshot rf')) ∨ ev = EvApply i ∨ ev = EvCrash i.

Lemma moves_applied w w' i rf rf' new evs ev j x' :
  moves w w' i rf rf' new evs → applied_move ev i rf rf' → (nodes w').[j] = Some x' →
  ∃ x, (nodes w).[j] = Some x ∧ applied_move ev j x x'.
Proof.
  intros [Hi En _ _] Ha. rewrite En, (nodes_insert _ _ rf) by done. case_decide as E; [subst j; intros [= <-]; eauto|].
  intros Hj. exists x'. split; [done|]. by left.
Qed.

Lemma protocol_applied n ev w w' j x' :
  cluster_inv n w → (∀ i rf, (nodes w).[i] = Some rf → commitIndex rf ≤ last_index (logs rf)) →
  protocol_step n ev w w' → (nodes w').[j] = Some x' → ∃ x, (nodes w).[j] = Some x ∧ applied_move ev j x x'.
Proof.
  intros Hci Hcom Hstep Hj.
  assert (Hrepl : ∀ i rf rf', replica rf' = replica rf → applied_move ev i rf rf') by (intros i rf rf' [= ? ? ? ? ? ? ?]; by left).
  destruct Hstep as
    [Hn _ _ _|i rf rf' Hmv _ _ Hr _ _|i rf rf' args el Hmv _ _ Hr _ _ _ _
    |id c args el rf rf' r _ _ Hmv _ Hr _ _ _ _ _ _|id c rf rf' r _ _ Hmv _ _ Hr _ _
    |i rf rf' Hmv _ Hr _ _ _ _ _ _ _|i rf rf' command e Hmv _ _ _ _ _ _ _ _ _ Ha Hp _ _ _
    |i rf peer args Hmv _ _ _ _ _|i rf peer args Hmv _ _ _ _ _ _
    |id c args rf rf' r _ _ Hmv _ _ _ Hpost|id c rf r _ _ Hmv _
    |id c args rf rf' r _ _ Hmv _ _ _ Hpost|id c args r rf rf' _ _ _ _ Hmv _ _ _ _ Ha Hp _ _ _
    |id c args rf rf' _ _ _ Hmv _ _ Hr _ _|i rf rf' index snap e Hmv _ _ _ _ _ _ _ _ Ha Hp _ _ _ _ _
    |i rf rf' msg Hmv _ _ _ _ _ _ _ Eev _|i rf rf' Hmv _ _ _ _ Hlt _|i rf rf' Hmv _ _ _ _ _ _ _ _ _ _ Eev];
    try (by eapply moves_applied; [exact Hmv|auto|done]); try (by eapply moves_applied; [exact Hmv|by left|done]).
  - rewrite Hn in Hj. exists x'. split; [done|by left].
  - eapply moves_applied; [exact Hmv| |done]. left. split; apply Hpost.
  - eapply moves_applied; [exact Hmv| |done]. destruct (decide (is_LastIncludedIndex args ≤ lastApplied rf)) as [Hle|].
    + apply Hrepl. by apply (ip_stale _ _ _ Hpost).
    + right; left. destruct (ip_fresh _ _ _ Hpost) as (_ & _ & -> & _ & _ & ->); [lia|]. split; [lia|done].
  - eapply moves_applied; [exact Hmv| |done]. by right; right; left.
  - specialize (Hcom _ _ (mv_before _ _ _ _ _ _ _ Hmv)). lia.
  - eapply moves_applied; [exact Hmv| |done]. by right; right; right.
Qed.

Lemma protocol_delivered n ev w w' :
  protocol_step n ev w w' → (∀ i, ev ≠ EvApply i) → (∀ i rf, (nodes w).[i] = Some rf → commitIndex rf ≤ last_index (logs rf)) →
  delivered w' = delivered w.
Proof. intros [] Hev Hcom; try done. by destruct (Hev i). Qed.

(** Entries enter the log through Start only. *)
Lemma protocol_starts n ev w w' j e p :
  protocol_step n ev w w' → HStart j e p ∈ history w' → HStart j e p ∈ history w ∨ ev = EvStart j (Command e).
Proof.
  intros Hstep. destruct Hstep;
    try (match goal with H : moves _ _ _ _ _ _ _ |- _ => rewrite (mv_history _ _ _ _ _ _ _ H) end);
    try (match goal with H : history _ = history _ |- _ => rewrite H end);
    try destruct (aer_Success r); simpl; rewrite ?elem_of_cons; intros Hin; destruct_or?; simplify_eq; auto.
Qed.
End flow.
