(* ===== verification/AppliedLog.v ===== *)
(** * The log a cluster agreed on, as the readers of applyCh see it

    A service above Raft (the replicas of rsm, the test server of raft1) reads
    the messages that the applier of its peer sends on [applyCh].  [log_of] reads
    off the deliveries of a run the one sequence of commands they carry; [chain]
    says that a queue of messages takes a reader that stands at one index of that
    sequence to another.  [feed_inv] is the invariant of a cluster whose services
    start commands and hand in snapshots that describe a prefix of the log, by any
    description with the laws of [SnapshotSpec]: it holds in every run, and with it
    every reader finds in its queue what comes next in the log. *)

From S2P Require Import Prelude RaftUtil RaftNode RaftLog RaftWf RaftOps RaftRepl Cluster LogTree ElectionSafety Protocol LogMatching Completeness StateMachineSafety SnapshotFlow.
Local Open Scope Z_scope.
Local Open Scope go_scope.

(** Every index is first delivered by some applier; [delivered] is newest first. *)
Definition extend_log {cmd} (L : list cmd) (msg : ApplyMsg cmd) : list cmd :=
  match msg with
  | CommandMsg (Some op) k => if k =? go_len L + 1 then L ++ [op] else L
  | _ => L
  end.

Definition log_of {cmd} (d : list (Z * ApplyMsg cmd)) : list cmd :=
  foldr (λ x L, extend_log L x.2) [] d.

(** Timers, goroutines and the network act on the cluster alone. *)
Definition network_event {cmd} (ev : Event cmd) : bool :=
  match ev with
  | EvElection _ | EvHeartbeat _ | EvSend _ _ | EvHandle _ | EvReturn _ | EvDrop _ => true
  | EvStart _ _ | EvSnapshot _ _ _ | EvApply _ | EvKill _ | EvCrash _ => false
  end.

(** What the applier puts on applyCh. *)
Definition sent {cmd} (act : ApplierAction cmd) : list (ApplyMsg cmd) :=
  match act with ApplierSend msg => [msg] | _ => [] end.

(** [snap L b k]: the snapshot [b] describes the first [k] commands of [L]. *)
Class SnapshotSpec {cmd : Type} (snap : list cmd → bytes → Z → Prop) : Prop := {
  snap_prefix L L' b k : L `prefix_of` L' → snap L b k → snap L' b k;
  snap_range L b k : snap L b k → 0 ≤ k ≤ go_len L;
  snap_nonempty L b k : snap L b k → b ≠ []
}.

Section prefix.
Context {cmd : Type}.
Implicit Types L : list cmd.

Lemma take_prefix L L' (i : Z) : L `prefix_of` L' → i ≤ go_len L → take (Z.to_nat i) L' = take (Z.to_nat i) L.
Proof. intros [x ->] Hi. apply take_app_le. unfold go_len in Hi. lia. Qed.

Lemma lookup_prefix L L' (i : nat) op : L `prefix_of` L' → L !! i = Some op → L' !! i = Some op.
Proof. intros [x ->] H. by apply lookup_app_l_Some. Qed.
End prefix.

Section applied_log.
Context {cmd : Type} `{!Gob (PersistedState cmd)}.
Context (snap : list cmd → bytes → Z → Prop) `{!SnapshotSpec snap}.
Implicit Types (L : list cmd) (rf : Raft cmd).

(** ** The log only grows *)

Lemma log_of_app (d d' : list (Z * ApplyMsg cmd)) : log_of d `prefix_of` log_of (d' ++ d).
Proof.
  induction d' as [|[i msg] d' IH]; simpl; [done|]. etrans; [exact IH|]. unfold log_of at 2. simpl.
  destruct msg as [[op|] k|]; simpl; try done. destruct (_ =? _); [by apply prefix_app_r|done].
Qed.

Lemma step_log n ev (c c' : World cmd) :
  reachable n c → step ev c = Next c' → reachable n c' ∧ log_of (delivered c) `prefix_of` log_of (delivered c').
Proof.
  intros Hr Hs. split; [by eapply reachable_step|]. assert (Hd : ∃ d, delivered c' = d ++ delivered c).
  { destruct (step_refines _ _ _ _ (reachable_inv _ _ Hr) Hs); try (exists []; done). by exists [(i, msg)]. }
  destruct Hd as [d ->]. apply log_of_app.
Qed.

Lemma step_history n ev (c c' : World cmd) : reachable n c → step ev c = Next c' → history c ⊆ history c'.
Proof.
  intros Hr Hs. destruct (step_refines _ _ _ _ (reachable_inv _ _ Hr) Hs);
    try (by eapply moves_sub); match goal with H : history _ = history _ |- _ => by rewrite H end.
Qed.

(** [L] is the sequence of the commands delivered so far. *)
Definition is_log (d : list (Z * ApplyMsg cmd)) L : Prop :=
  (∀ k op, L !! k = Some op → ∃ j, (j, CommandMsg (Some op) (Z.of_nat k + 1)) ∈ d) ∧
  (∀ j c k, (j, CommandMsg c k) ∈ d → ∃ op, c = Some op ∧ 1 ≤ k ∧ L !! Z.to_nat (k - 1) = Some op).

(** ** The queue between applier and reader *)

(** A reader that has applied up to [k] and works off [q] arrives at [e]. *)
Fixpoint chain L (k : Z) (q : list (ApplyMsg cmd)) (e : Z) : Prop :=
  match q with
  | [] => k = e
  | CommandMsg c i :: q => i = k + 1 ∧ (∃ op, c = Some op ∧ L !! Z.to_nat (i - 1) = Some op) ∧ chain L i q e
  | SnapshotMsg b _ i :: q => k ≤ i ∧ snap L b i ∧ chain L i q e
  end.

Lemma chain_le L k q e : chain L k q e → k ≤ e.
Proof.
  revert k. induction q as [|[c i|b t i] q IH]; intros k; simpl; [lia|..]; intros (Hi & _ & H%IH); lia.
Qed.

Lemma chain_snoc L k q e msg e' : chain L k q e → chain L e [msg] e' → chain L k (q ++ [msg]) e'.
Proof.
  revert k. induction q as [|[c i|b t i] q IH]; intros k; simpl; [by intros ->|..]; intros (Hi & Ho & H) Hm;
    (split; [done|]); (split; [done|]); by apply IH.
Qed.

Lemma chain_mono L L' k q e : L `prefix_of` L' → chain L k q e → chain L' k q e.
Proof.
  intros Hp. revert k. induction q as [|[c i|b t i] q IH]; intros k; simpl; [done|..]; intros (Hi & Ho & H).
  - split_and!; [done| |by apply IH]. destruct Ho as (op & -> & Ho). exists op. split; [done|by eapply lookup_prefix].
  - split_and!; [done|by eapply snap_prefix|by apply IH].
Qed.

(** The queue [q] of a reader that has applied up to [k] leads to where its peer is,
    or to where the snapshot staged there goes on. *)
Definition queue_ok L (k : Z) (q : list (ApplyMsg cmd)) rf : Prop :=
  ∃ e, chain L k q e ∧ e ≤ lastApplied rf ∧ (pendingSnapshot rf = None → e = lastApplied rf).

(** ** A step of the cluster *)

(** What a step of the cluster, or none, does for the system. *)
Record cluster_move n (ev : Event cmd) (c c' : World cmd) : Prop := {
  cv_reach : reachable n c';
  cv_applied j x' : (nodes c').[j] = Some x' → ∃ x, (nodes c).[j] = Some x ∧ applied_move ev j x x';
  cv_delivered : (∀ i, ev ≠ EvApply i) → delivered c' = delivered c;
  cv_starts j e p : HStart j e p ∈ history c' → HStart j e p ∈ history c ∨ ev = EvStart j (Command e);
  cv_flow good : (∀ b k, good b k → b ≠ []) → hands_good good ev → flow_inv good c → flow_inv good c'
}.

Lemma cluster_move_refl n ev c : reachable n c → cluster_move n ev c c.
Proof. intros Hr. constructor; auto. intros j x Hj. exists x. split; [done|by left]. Qed.

Lemma cluster_move_step n ev c c' : reachable n c → step ev c = Next c' → cluster_move n ev c c'.
Proof.
  intros Hr Hstep. pose proof (reachable_inv _ _ Hr) as Hci. pose proof (step_refines _ _ _ _ Hci Hstep) as Hp.
  pose proof (λ i rf, reachable_commit_in_log n c i rf Hr) as Hcom. constructor.
  - by eapply reachable_step.
  - intros j x'. by eapply protocol_applied.
  - intros Hev. by eapply protocol_delivered.
  - intros j e p. by eapply protocol_starts.
  - intros good Hne Hg Hf. by eapply flow_step.
Qed.

(** How [applied_move] treats the queue. *)
Lemma queue_sync L ev i k q rf rf' :
  queue_ok L k q rf → applied_move ev i rf rf' → ev ≠ EvApply i → ev ≠ EvCrash i → queue_ok L k q rf'.
Proof.
  intros (e & He & Hle & Heq) Hmv Ha Hc. exists e. split; [done|].
  destruct Hmv as [[-> ->]|[[Hlt [m Hm]]|[|]]]; try done. split; [lia|congruence].
Qed.

(** Two deliveries for one index carry the same operation. *)
Lemma delivered_same n c j1 c1 j2 c2 k :
  reachable n c → (j1, CommandMsg c1 k) ∈ delivered c → (j2, CommandMsg c2 k) ∈ delivered c → c1 = c2.
Proof.
  intros Hr H1 H2. pose proof (reachable_commit _ _ Hr) as Hcm.
  apply (cm_delivered _ _ Hcm) in H1 as (i1 & e1 & p1 & b1 & Hin1 & <- & <- & S1).
  apply (cm_delivered _ _ Hcm) in H2 as (i2 & e2 & p2 & b2 & Hin2 & Ei & <- & S2). rewrite <- Ei in S2.
  by rewrite (safe_entry_unique n c i1 e1 p1 b1 i2 e2 p2 b2).
Qed.

(** Delivering an operation extends the log or repeats it. *)
Lemma log_deliver n c d i op k L :
  reachable n c → delivered c = (i, CommandMsg (Some op) k) :: d → is_log d L → 1 ≤ k ≤ go_len L + 1 →
  let L' := extend_log L (CommandMsg (Some op) k) in
  L `prefix_of` L' ∧ is_log (delivered c) L' ∧ L' !! Z.to_nat (k - 1) = Some op ∧ k ≤ go_len L'.
Proof.
  intros Hr Hd [H1 H2] Hk. simpl. destruct (Z.eqb_spec k (go_len L + 1)) as [Ek|Hne].
  - assert (Hn : Z.to_nat (k - 1) = length L) by (unfold go_len in *; lia).
    assert (Hnew : (L ++ [op]) !! Z.to_nat (k - 1) = Some op) by (by rewrite Hn, lookup_app_r, Nat.sub_diag by lia).
    split_and!; [by apply prefix_app_r| |done|rewrite go_len_app; unfold go_len in *; simpl; lia]. rewrite Hd. split.
    + intros k0 op0 [Hl|[Hlen Hl]]%lookup_app_Some; [destruct (H1 k0 op0 Hl) as [j Hj]; exists j; by right|].
      apply list_lookup_singleton_Some in Hl as [E <-]. exists i. apply elem_of_cons. left.
      do 2 f_equal. unfold go_len in *. lia.
    + intros j c0 k0 [[= -> -> ->]|Hin]%elem_of_cons; [exists op; split_and!; try done; lia|].
      destruct (H2 j c0 k0 Hin) as (op0 & -> & Hk0 & Hl). exists op0. split_and!; try done. by apply lookup_app_l_Some.
  - destruct (lookup_lt_is_Some_2 L (Z.to_nat (k - 1))) as [op' Hl]; [unfold go_len in *; lia|].
    destruct (H1 _ _ Hl) as [j Hj]. replace (Z.of_nat (Z.to_nat (k - 1)) + 1) with k in Hj by lia.
    assert (Some op' = Some op) as [= ->].
    { apply (delivered_same n c j _ i _ k); [done|rewrite Hd; by right|rewrite Hd; by left]. }
    split_and!; [done| |done|lia]. rewrite Hd. split.
    + intros k0 op0 Hl0. destruct (H1 k0 op0 Hl0) as [j0 Hj0]. exists j0. by right.
    + intros j0 c0 k0 [[= -> -> ->]|Hin]%elem_of_cons; [exists op; split_and!; try done; lia|by apply (H2 j0)].
Qed.

Lemma is_log_snapshot d L i b t k : is_log d L → is_log ((i, SnapshotMsg b t k) :: d) L.
Proof.
  intros [H1 H2]. split.
  - intros k0 op Hl. destruct (H1 k0 op Hl) as [j Hj]. exists j. by right.
  - intros j c k0 [|Hin]%elem_of_cons; [done|by apply (H2 j)].
Qed.

(** ** The invariant of a cluster that feeds its services *)

Record feed_inv n (c : World cmd) : Prop := {
  fd_reach : reachable n c;
  fd_starts j e p : HStart j e p ∈ history c → is_Some (Command e);
  fd_log : is_log (delivered c) (log_of (delivered c));
  fd_flow : flow_inv (snap (log_of (delivered c))) c;
  fd_bound i rf : (nodes c).[i] = Some rf → lastApplied rf ≤ go_len (log_of (delivered c))
}.

(** The services start commands, not nil. *)
Definition starts_command (ev : Event cmd) : Prop :=
  match ev with EvStart _ command => is_Some command | _ => True end.

Lemma feed_init n : feed_inv n (init_world n).
Proof.
  constructor; simpl.
  - constructor.
  - intros j e p []%elem_of_nil.
  - split; [by intros [|k] op|]. intros j c k []%elem_of_nil.
  - apply init_flow.
  - intros i rf [_ ->]%init_node. done.
Qed.

Lemma feed_wf n c i rf : feed_inv n c → (nodes c).[i] = Some rf → raft_wf (Z.of_nat n) rf.
Proof. intros Hf. apply node_wf, reachable_inv, Hf. Qed.

(** A crashed peer starts again where its log starts. *)
Lemma crash_node n c c' i j rf' :
  reachable n c → step (EvCrash i) c = Next c' → (nodes c').[j] = Some rf' →
  ∃ rf, (nodes c).[j] = Some rf ∧ (j = i → lastApplied rf' = first_index (logs rf) ∧ pendingSnapshot rf' = None ∧
    Make (peers rf) (me rf) (persister rf) = Some rf') ∧ (j ≠ i → rf' = rf).
Proof.
  intros Hr. simpl. unfold step_crash. destruct ((nodes c).[i]) as [rf|] eqn:Hi; simpl; [|done].
  pose proof (node_wf _ _ _ _ (reachable_inv _ _ Hr) Hi) as Hwf.
  destruct (Make_restart _ rf Hwf) as (x & Em & _ & _ & _ & _ & _ & _ & _ & _ & _ & _ & _ & Ha & Hp & _).
  rewrite (wf_peers _ _ Hwf), Em. simpl. intros [= <-]. simpl. rewrite (nodes_insert _ _ rf) by done. case_decide as E.
  - intros [= <-]. subst. exists rf. split_and!; [done| |done]. rewrite (wf_peers _ _ Hwf). done.
  - intros Hj. exists rf'. split_and!; [done|congruence|done].
Qed.

(** Every event but a delivery keeps the log. *)
Lemma feed_step n ev c c' :
  feed_inv n c → (∀ i, ev ≠ EvApply i) → starts_command ev → hands_good (snap (log_of (delivered c))) ev →
  step ev c = Next c' → feed_inv n c' ∧ delivered c' = delivered c.
Proof.
  intros [Hr Hst Hl Hfl Hb] Hna Hev Hg Hstep. pose proof (cluster_move_step n ev c c' Hr Hstep) as Hcv.
  assert (Hd : delivered c' = delivered c) by (by apply Hcv). split; [|done].
  assert (Hfl' : flow_inv (snap (log_of (delivered c))) c').
  { apply (cv_flow _ _ _ _ Hcv); try done. intros b k. apply snap_nonempty. }
  constructor; rewrite ?Hd; try done; [apply Hcv| |].
  - intros j e p [|Hin]%(cv_starts _ _ _ _ Hcv); [by eapply Hst|]. by subst ev.
  - intros j rf' Hj. destruct (cv_applied _ _ _ _ Hcv j rf' Hj) as (rf & Hrf & [[-> _]|[[_ [msg Hm]]|[Ha|Hc]]]).
    + by apply (Hb j).
    + destruct (nf_pending _ _ (fl_node _ _ Hfl' j rf' Hj) msg Hm) as (b & t & _ & Hs). by apply (snap_range _ b).
    + by destruct (Hna j).
    + subst ev. destruct (crash_node n c c' j j rf' Hr Hstep Hj) as (x & Hx & E & _). destruct (E eq_refl) as [-> _].
      pose proof (wf_applied _ _ (node_wf _ _ _ _ (reachable_inv _ _ Hr) Hx)). specialize (Hb j x Hx). lia.
Qed.

(** The applier of [i] sends what comes next in the log. *)
Lemma feed_apply n i c c' rf rf' act :
  feed_inv n c → (nodes c).[i] = Some rf → applier rf = Some (rf', act) → step (EvApply i) c = Next c' →
  feed_inv n c' ∧ log_of (delivered c) `prefix_of` log_of (delivered c') ∧
  nodes c' = <[Z.to_nat i := rf']> (nodes c) ∧ lastApplied rf ≤ lastApplied rf' ∧
  ∀ k q, queue_ok (log_of (delivered c)) k q rf → queue_ok (log_of (delivered c')) k (q ++ sent act) rf'.
Proof.
  intros [Hr Hst Hl Hfl Hb] Hrf Ea Hstep. pose proof (cluster_move_step n _ c c' Hr Hstep) as Hcv.
  pose proof (node_wf _ _ _ _ (reachable_inv _ _ Hr) Hrf) as Hwf. pose proof (fl_node _ _ Hfl i rf Hrf) as Hnf.
  destruct (applier_wf _ rf Hwf) as (x & y & Ex & _ & _ & _ & _ & _ & _ & _ & Hact).
  rewrite Ea in Ex. injection Ex as <- <-. specialize (Hb i rf Hrf) as Hbi.
  simpl in Hstep. unfold step_apply in Hstep. rewrite Hrf in Hstep. simpl in Hstep. rewrite Ea in Hstep. simpl in Hstep.
  assert (Hfeed : log_of (delivered c) `prefix_of` log_of (delivered c') → is_log (delivered c') (log_of (delivered c')) →
    nodes c' = <[Z.to_nat i := rf']> (nodes c) → lastApplied rf' ≤ go_len (log_of (delivered c')) → feed_inv n c').
  { intros Hpre Hl' Hn Hb'. constructor; try done; [apply Hcv| | |].
    - intros j e p [|[=]]%(cv_starts _ _ _ _ Hcv). by eapply Hst.
    - apply (cv_flow _ _ _ _ Hcv); [intros b k; apply snap_nonempty|done|].
      eapply flow_mono; [|done]. intros b k. by apply snap_prefix.
    - intros j x. rewrite Hn, (nodes_insert _ _ rf) by done. case_decide; [by intros [= <-]|]. intros Hj.
      specialize (Hb j x Hj). apply prefix_length in Hpre. unfold go_len in *. lia. }
  destruct act as [| | |msg]; injection Hstep as <-; simpl in *.
  - destruct Hact as [-> _]. split; [by apply Hfeed|]. split_and!; try done. intros k q. by rewrite app_nil_r.
  - destruct Hact as [-> _]. split; [by apply Hfeed|]. split_and!; try done. intros k q. by rewrite app_nil_r.
  - pose proof (reachable_commit_in_log n _ i rf Hr Hrf). lia.
  - destruct msg as [cm k|b t k].
    + destruct Hact as [Hc|(Hp0 & Hp1 & -> & Hk & Ek & _)].
      { by destruct (nf_pending _ _ Hnf _ Hc) as (b & t & [=] & _). }
      pose proof (cm_delivered _ _ (reachable_commit _ _ (cv_reach _ _ _ _ Hcv)) i _ ltac:(by left)) as (j & e & p & _ & Hin & _ & Ec & _).
      destruct (Hst j e p Hin) as [op Eop]. rewrite Eop in Ec. subst cm.
      pose proof (wf_applied _ _ Hwf). pose proof (log_wf_first_nonneg _ (wf_log _ _ Hwf)).
      destruct (log_deliver n _ (delivered c) i op (lastApplied rf + 1) _ (cv_reach _ _ _ _ Hcv) eq_refl Hl) as (Hpre & Hl' & Hlook & Hlen); [lia|].
      split; [apply Hfeed; try done; by rewrite Ek|]. split_and!; try done; [lia|]. intros k q (e0 & He & Hle & Heq).
      exists (lastApplied rf'). split_and!; [|lia|done]. eapply chain_snoc; [by eapply chain_mono|].
      rewrite (Heq Hp0). simpl. rewrite Ek. split_and!; [done| |done]. by exists op.
    + destruct Hact as (Hp0 & Hp1 & Ela). destruct (nf_pending _ _ Hnf _ Hp0) as (b' & t' & [= -> -> ->] & Hs).
      split; [apply Hfeed; try done; [by apply is_log_snapshot|rewrite Ela; exact Hbi]|]. split_and!; try done; [lia|].
      intros k q (e0 & He & Hle & Heq). exists (lastApplied rf). split_and!; [|lia|congruence]. by eapply chain_snoc.
Qed.
End applied_log.
