(* ===== verification/RaftTest.v ===== *)
(** * The test server of raft1 and the checks of its tester

    server.go of raft1 is the service the Raft tests run: every server reads its
    applyCh, keeps a copy of the committed commands in [rs_logs] and compares it
    with the copies of the other servers ([checkLogs]), and in the snapshot tests
    calls Snapshot on every tenth index ([applierSnap]) and restores from what its
    peer hands up ([ingestSnap]).  test.go holds the checkers: [nCommitted],
    [checkOneLeader_round], and [one], which starts a command and waits for agreement.

    [TestWorld] puts the servers on the cluster of Cluster.v.  An event is one
    critical section: a step of the network, a reader that handles one message, its
    call of Snapshot, a server that is shut down and one that is started again on
    its persister, a step of a call of [one].  A peer that is shut down takes no
    steps and gets no messages (group.go disconnects it before it kills it) until
    it is started again; by then its reader has handled what its applier sent.

    [Panic] is a Go panic, or the tester stopping because it saw an unsafe
    behaviour (log.Fatalf, and Fatal of package testing).  What [one] reports
    when agreement takes too long is [OneFailed]. *)

From S2P Require Import Prelude RaftUtil RaftNode RaftLog RaftWf RaftOps RaftRepl Cluster LogTree ElectionSafety Protocol LogMatching Completeness StateMachineSafety SnapshotFlow AppliedLog.
Local Open Scope Z_scope.
Local Open Scope go_scope.

Definition SnapShotInterval : Z := 10.

(** The error strings; no error is [None]. *)
Inductive ApplyError :=
| CommitMismatch (index server other : Z)
| ApplyOutOfOrder (server index : Z)
| ApplyUnexpected (server expected index : Z)
| SnapshotMismatch (server : Z).

Section tester.
Context {cmd : Type} `{!EqDecision cmd}.
Context `{!Gob (PersistedState cmd)} `{!Gob (Z * list (option cmd))}.

(** [raft] is the peer the server holds, nil ([None]) once it was killed. *)
Record rfsrv := mkRfsrv {
  rs_me : Z;
  applyErr : option ApplyError;
  rs_lastApplied : Z;
  raft : option Z;
  rs_logs : gmap Z (option cmd)
}.

Record Test := mkTest {
  srvs : list rfsrv;
  maxIndex : Z;
  ts_snapshot : bool
}.

Definition set_logs v rs := mkRfsrv (rs_me rs) (applyErr rs) (rs_lastApplied rs) (raft rs) v.
Definition set_lastApplied v rs := mkRfsrv (rs_me rs) (applyErr rs) v (raft rs) (rs_logs rs).
Definition set_raft v rs := mkRfsrv (rs_me rs) (applyErr rs) (rs_lastApplied rs) v (rs_logs rs).
Definition put_srv (i : Z) rs ts := mkTest (<[Z.to_nat i := rs]> (srvs ts)) (maxIndex ts) (ts_snapshot ts).

(** ** server.go and checkLogs *)

Definition Logs (i : Z) (rs : rfsrv) : option (option cmd) := rs_logs rs !! i.

(** [for j, rs := range ts.srvs { if old, oldok := rs.Logs(index); oldok && old != v ... }] *)
Fixpoint find_clash (i index : Z) (v : option cmd) (j : Z) (l : list rfsrv) (err : option ApplyError) : option ApplyError :=
  match l with
  | [] => err
  | rs :: l =>
      find_clash i index v (j + 1) l
        (match Logs index rs with
         | Some old => if decide (old = v) then err else Some (CommitMismatch index i j)
         | None => err
         end)
  end.

Definition checkLogs (i index : Z) (v : option cmd) (ts : Test) : option (Test * (option ApplyError * bool)) :=
  me ← (srvs ts).[i];
  let err_msg := find_clash i index v 0 (srvs ts) None in
  let prevok := bool_decide (is_Some (rs_logs me !! (index - 1))) in
  let ts := put_srv i (set_logs (<[index := v]> (rs_logs me)) me) ts in
  Some (mkTest (srvs ts) (if maxIndex ts <? index then index else maxIndex ts) (ts_snapshot ts), (err_msg, prevok)).

(** [checkLogs] and the test of its second result. *)
Definition checkApply (i index : Z) (v : option cmd) (ts : Test) : option (Test * option ApplyError) :=
  '(ts, (err_msg, prevok)) ← checkLogs i index v ts;
  Some (ts, if (1 <? index) && negb prevok then Some (ApplyOutOfOrder i index) else err_msg).

(** The body of the loop of [applier], for server [i]. *)
Definition rfsrv_applier (i : Z) (m : ApplyMsg cmd) (ts : Test) : option Test :=
  match m with
  | SnapshotMsg _ _ _ => Some ts
  | CommandMsg v index =>
      '(ts, err_msg) ← checkApply i index v ts;
      if decide (err_msg = None :> option ApplyError) then Some ts else None
  end.

Definition ingestSnap (snapshot : option bytes) (index : Z) (rs : rfsrv) : option (rfsrv * option ApplyError) :=
  b ← snapshot;
  '(lastIncludedIndex, xlog) ← gob_decode (A := Z * list (option cmd)) b;
  if negb (index =? -1) && negb (index =? lastIncludedIndex) then Some (rs, Some (SnapshotMismatch (rs_me rs)))
  else Some (set_lastApplied lastIncludedIndex (set_logs (map_seqZ 0 xlog) rs), None).

(** [for j := 0; j <= index; j++ { xlog = append(xlog, rs.logs[j]) }] *)
Definition make_xlog (index : Z) (rs : rfsrv) : list (option cmd) :=
  (λ j, default None (rs_logs rs !! j)) <$> seqZ 0 (index + 1).

(** The body of the loop of [applierSnap] up to the call of Snapshot: the
    arguments of the call, if one is due, and the error to stop with. *)
Definition applierSnap (i : Z) (m : ApplyMsg cmd) (ts : Test) : option (Test * option (Z * bytes) * option ApplyError) :=
  rs ← (srvs ts).[i];
  match m with
  | SnapshotMsg b _ index =>
      '(rs, err_msg) ← ingestSnap (Some b) index rs;
      Some (put_srv i rs ts, None, err_msg)
  | CommandMsg v index =>
      '(ts, err_msg) ←
        (if negb (index =? rs_lastApplied rs + 1) then Some (ts, Some (ApplyUnexpected i (rs_lastApplied rs + 1) index))
         else checkApply i index v ts);
      rs ← (srvs ts).[i];
      let rs := set_lastApplied index rs in
      Some (put_srv i rs ts,
            if Z.rem (index + 1) SnapShotInterval =? 0 then Some (index, gob_encode (index, make_xlog index rs)) else None,
            err_msg)
  end.

(** The part of newRfsrv after [Make]. *)
Definition newRfsrv (srv : Z) (persister : Persister) (snapshot : bool) : option rfsrv :=
  let s := mkRfsrv srv None 0 (Some srv) ∅ in
  if snapshot && (0 <? go_len (ReadSnapshot persister)) then
    '(s, err) ← ingestSnap (Some (ReadSnapshot persister)) (-1) s;
    if decide (err = None :> option ApplyError) then Some s else None
  else Some s.

(** [Kill] also saves what its persister holds, which changes nothing. *)
Definition rfsrv_Kill (rs : rfsrv) : rfsrv := set_raft None rs.

(** ** test.go *)

Fixpoint nCommitted_loop (index : Z) (l : list rfsrv) (count : Z) (cmd0 : option cmd) : option (Z * option cmd) :=
  match l with
  | [] => Some (count, cmd0)
  | rs :: l =>
      match applyErr rs with
      | Some _ => None
      | None =>
          match Logs index rs with
          | Some cmd1 =>
              if (0 <? count) && negb (bool_decide (cmd0 = cmd1)) then None
              else nCommitted_loop index l (count + 1) cmd1
          | None => nCommitted_loop index l count cmd0
          end
      end
  end.

Definition nCommitted (index : Z) (l : list rfsrv) : option (Z * option cmd) := nCommitted_loop index l 0 None.

(** One round of checkOneLeader: what [GetState] answered on the connected
    servers, the leaders by term, and the verdict: [None] stops the test with more
    than one leader in a term, [Some None] is no leader. *)
Definition leaders_of (views : list (Z * option (Z * bool))) : gmap Z (list Z) :=
  foldl (λ leaders '(i, view),
    match view with
    | Some (term, true) => <[term := default [] (leaders !! term) ++ [i]]> leaders
    | _ => leaders
    end) ∅ views.

Definition checkOneLeader_round (views : list (Z * option (Z * bool))) : option (option Z) :=
  let leaders := leaders_of views in
  if existsb (λ x, 1 <? go_len x.2) (map_to_list leaders) then None
  else
    let lastTermWithLeader := foldl (λ last x, if last <? x.1 then x.1 else last) (-1) (map_to_list leaders) in
    if decide (leaders = ∅) then Some None
    else l ← leaders !! lastTermWithLeader; x ← l.[0]; Some (Some x).

(** ** Calls of one *)

Inductive OnePc :=
| OneTry (k : nat)             (* servers left to try; at 0, the head of the loop *)
| OneWait (index : Z)          (* waiting for agreement *)
| OneDone (index : Z)
| OneFailed.                   (* agreement took too long *)

Record One := mkOne {
  o_cmd : cmd;
  expectedServers : Z;
  retry : bool;
  starts : Z;
  o_pc : OnePc
}.

Definition set_pc pc o := mkOne (o_cmd o) (expectedServers o) (retry o) (starts o) pc.
Definition set_starts v o := mkOne (o_cmd o) (expectedServers o) (retry o) v (o_pc o).

(** ** The servers on the cluster *)

(** The reader goroutine of a server: its applyCh, and the call of Snapshot it is
    about to make with the error it will stop with. *)
Record Reader := mkReader {
  ch : list (ApplyMsg cmd);
  todo : option (Z * bytes * option ApplyError)
}.

Record TestWorld := mkTestWorld {
  tcluster : World cmd;
  test : Test;
  readers : list Reader;
  connected : list bool;
  ones : gmap nat One
}.

Inductive TestEvent :=
| TsRaft (ev : Event cmd)
| TsStart (i : Z) (c : cmd)            (* a test calls Start *)
| TsApply (i : Z)                      (* the applier of the peer sends *)
| TsRead (i : Z)                       (* the reader handles a message *)
| TsSnapshot (i : Z)                   (* the reader calls Snapshot *)
| TsShutdown (i : Z)
| TsRestart (i : Z)
| TsConnect (i : Z) (b : bool)
| TsOne (t : nat) (c : cmd) (expected : Z) (rt : bool)
| TsOneTry (t : nat)
| TsOnePoll (t : nat)
| TsOneTimeout (t : nat).

(** The peer that takes a step of the network. *)
Definition actor (ev : Event cmd) (c : World cmd) : option Z :=
  match ev with
  | EvElection i | EvHeartbeat i | EvSend i _ => Some i
  | EvHandle id => callee <$> calls c !! id
  | EvReturn id => caller <$> calls c !! id
  | _ => None
  end.

Definition is_up (i : Z) (w : TestWorld) : bool :=
  match (srvs (test w)).[i] with Some rs => bool_decide (is_Some (raft rs)) | None => false end.

Definition set_cluster c w := mkTestWorld c (test w) (readers w) (connected w) (ones w).
Definition set_test ts w := mkTestWorld (tcluster w) ts (readers w) (connected w) (ones w).
Definition set_reader i r w := mkTestWorld (tcluster w) (test w) (<[Z.to_nat i := r]> (readers w)) (connected w) (ones w).
Definition set_connected i b w := mkTestWorld (tcluster w) (test w) (readers w) (<[Z.to_nat i := b]> (connected w)) (ones w).
Definition set_one t o w := mkTestWorld (tcluster w) (test w) (readers w) (connected w) (<[t := o]> (ones w)).

Definition fatal {A} (err : option ApplyError) (a : A) : outcome A :=
  match err with None => Next a | Some _ => Panic end.

(** The reader of [i] takes [m], with [rest] left in its channel. *)
Definition read (i : Z) (m : ApplyMsg cmd) (rest : list (ApplyMsg cmd)) (w : TestWorld) : outcome TestWorld :=
  if ts_snapshot (test w) then
    x <~ run_go (applierSnap i m (test w)) ;;
    let '(ts, due, err) := x in
    match due with
    | Some (index, b) => Next (set_reader i (mkReader rest (Some (index, b, err))) (set_test ts w))
    | None => fatal err (set_reader i (mkReader rest None) (set_test ts w))
    end
  else
    ts <~ run_go (rfsrv_applier i m (test w)) ;;
    Next (set_reader i (mkReader rest None) (set_test ts w)).

(** Trying the next server: [Start] on its peer if it is connected and has one. *)
Definition try_start (t : nat) (k : nat) (o : One) (w : TestWorld) : outcome TestWorld :=
  let starts := Z.rem (starts o + 1) (go_len (srvs (test w))) in
  let o := set_starts starts o in
  con <~ run_go (connected w).[starts] ;;
  rs <~ run_go (srvs (test w)).[starts] ;;
  match (if con then raft rs else None) with
  | None => Next (set_one t (set_pc (OneTry k) o) w)
  | Some p =>
      rf <~ enabled (nodes (tcluster w)).[p] ;;
      x <~ run_go (Start (Some (o_cmd o)) rf) ;;
      c <~ step (EvStart p (Some (o_cmd o))) (tcluster w) ;;
      let '(index1, _, ok) := x.2 in
      Next (set_one t (set_pc (if ok then OneWait index1 else OneTry k) o) (set_cluster c w))
  end.

Definition one_step (t : nat) (ev : TestEvent) (o : One) (w : TestWorld) : outcome TestWorld :=
  match ev, o_pc o with
  | TsOneTry _, OneTry (S k) => try_start t k o w
  | TsOneTry _, OneTry 0 => Next (set_one t (set_pc (OneTry (length (srvs (test w)))) o) w)
  | TsOnePoll _, OneWait index =>
      x <~ run_go (nCommitted index (srvs (test w))) ;;
      let '(nd, cmd1) := x in
      if (0 <? nd) && (expectedServers o <=? nd) && bool_decide (cmd1 = Some (o_cmd o))
      then Next (set_one t (set_pc (OneDone index) o) w) else Next w
  | TsOneTimeout _, OneWait _ =>
      Next (set_one t (set_pc (if retry o then OneTry 0 else OneFailed) o) w)
  | TsOneTimeout _, OneTry 0 => Next (set_one t (set_pc OneFailed o) w)
  | _, _ => Disabled
  end.

(** A server that runs is disconnected and its services are killed; the saved
    persister is a copy, and nothing is persisted to it until it is started. *)
Definition ShutdownServer (i : Z) (w : TestWorld) : outcome TestWorld :=
  rs <~ enabled (srvs (test w)).[i] ;;
  p <~ enabled (raft rs) ;;
  c <~ step (EvKill p) (tcluster w) ;;
  Next (set_connected i false (set_test (put_srv i (rfsrv_Kill rs) (test w)) (set_cluster c w))).

(** A server that is down is made anew on its persister. *)
Definition StartServer (i : Z) (w : TestWorld) : outcome TestWorld :=
  rs <~ enabled (srvs (test w)).[i] ;;
  r <~ enabled (readers w).[i] ;;
  rf <~ enabled (nodes (tcluster w)).[i] ;;
  match raft rs, ch r, todo r with
  | None, [], None =>
      c <~ step (EvCrash i) (tcluster w) ;;
      rs <~ run_go (newRfsrv i (persister rf) (ts_snapshot (test w))) ;;
      Next (set_test (put_srv i rs (test w)) (set_cluster c w))
  | _, _, _ => Disabled
  end.

Definition test_step (ev : TestEvent) (w : TestWorld) : outcome TestWorld :=
  match ev with
  | TsRaft ev =>
      if network_event ev && match actor ev (tcluster w) with Some i => is_up i w | None => true end then
        c <~ step ev (tcluster w) ;; Next (set_cluster c w)
      else Disabled
  | TsStart i c =>
      rs <~ enabled (srvs (test w)).[i] ;;
      p <~ enabled (raft rs) ;;
      c <~ step (EvStart p (Some c)) (tcluster w) ;; Next (set_cluster c w)
  | TsApply i =>
      r <~ enabled (readers w).[i] ;;
      rf <~ enabled (nodes (tcluster w)).[i] ;;
      if is_up i w then
        x <~ run_go (applier rf) ;;
        c <~ step (EvApply i) (tcluster w) ;;
        Next (set_reader i (mkReader (ch r ++ sent x.2) (todo r)) (set_cluster c w))
      else Disabled
  | TsRead i =>
      r <~ enabled (readers w).[i] ;;
      match ch r, todo r with
      | m :: rest, None => read i m rest w
      | _, _ => Disabled
      end
  | TsSnapshot i =>
      r <~ enabled (readers w).[i] ;;
      rs <~ enabled (srvs (test w)).[i] ;;
      match todo r with
      | Some (index, b, err) =>
          p <~ run_go (raft rs) ;;
          c <~ step (EvSnapshot p index (Some b)) (tcluster w) ;;
          fatal err (set_reader i (mkReader (ch r) None) (set_cluster c w))
      | None => Disabled
      end
  | TsShutdown i => ShutdownServer i w
  | TsRestart i => StartServer i w
  | TsConnect i b => _ <~ enabled (connected w).[i] ;; Next (set_connected i b w)
  | TsOne t c expected rt =>
      match ones w !! t with
      | Some _ => Disabled
      | None => Next (set_one t (mkOne c expected rt 0 (OneTry 0)) w)
      end
  | TsOneTry t | TsOnePoll t | TsOneTimeout t => o <~ enabled (ones w !! t) ;; one_step t ev o w
  end.

Fixpoint test_run (evs : list TestEvent) (w : TestWorld) : outcome TestWorld :=
  match evs with [] => Next w | ev :: evs => w <~ test_step ev w ;; test_run evs w end.

(** [makeTest]: [n] servers started on empty persisters and connected. *)
Definition makeTest (n : nat) (snapshot : bool) : TestWorld :=
  mkTestWorld (init_world n)
    (mkTest ((λ i, mkRfsrv (Z.of_nat i) None 0 (Some (Z.of_nat i)) ∅) <$> seq 0 n) 0 snapshot)
    (replicate n (mkReader [] None)) (replicate n true) ∅.

(** What [GetState] of server [i] answers; nil once it is shut down. *)
Definition rfsrv_GetState (i : Z) (w : TestWorld) : option (Z * bool) :=
  rs ← (srvs (test w)).[i]; p ← raft rs; rf ← (nodes (tcluster w)).[p]; Some (GetState rf).

Definition test_log (w : TestWorld) : list cmd := log_of (delivered (tcluster w)).

(** ** What a server holds *)

#[local] Arguments ingestSnap : simpl never.

Implicit Types (L : list cmd) (rs : rfsrv) (rd : Reader) (rf : Raft cmd) (w : TestWorld) (ts : Test).

(** [v] is what the log [L] holds at index [k]; index 0 holds nil. *)
Definition log_entry L (k : Z) (v : option cmd) : Prop :=
  (k = 0 ∧ v = None) ∨ (1 ≤ k ∧ ∃ c, v = Some c ∧ L !! Z.to_nat (k - 1) = Some c).

Lemma log_entry_unique L k v v' : log_entry L k v → log_entry L k v' → v = v'.
Proof. intros [[-> ->]|(H & c & -> & Hc)] [[E ->]|(H' & c' & -> & Hc')]; (done || lia || congruence). Qed.

Lemma log_entry_mono L L' k v : L `prefix_of` L' → log_entry L k v → log_entry L' k v.
Proof. intros Hp [|(H & c & -> & Hc)]; [by left|right]. eauto using lookup_prefix. Qed.

Definition agrees L rs : Prop := ∀ k v, Logs k rs = Some v → log_entry L k v.

Lemma agrees_mono L L' rs : L `prefix_of` L' → agrees L rs → agrees L' rs.
Proof. intros Hp H k v Hv. eauto using log_entry_mono. Qed.

Lemma find_clash_none i index v j l err :
  (∀ rs old, rs ∈ l → Logs index rs = Some old → old = v) → find_clash i index v j l err = err.
Proof.
  revert j err. induction l as [|rs l IH]; intros j err H; simpl; [done|].
  rewrite IH by (intros; eapply H; [by right|done]). destruct (Logs index rs) as [old|] eqn:E; [|done].
  rewrite decide_True; [done|]. eapply H; [by left|done].
Qed.

(** A command that is next in the log passes the checks. *)
Lemma checkApply_ok L i rs ts index v :
  (srvs ts).[i] = Some rs → (∀ rs', rs' ∈ srvs ts → agrees L rs') → log_entry L index v →
  (1 < index → is_Some (Logs (index - 1) rs)) →
  checkApply i index v ts = Some (mkTest (<[Z.to_nat i := set_logs (<[index := v]> (rs_logs rs)) rs]> (srvs ts))
    (Z.max (maxIndex ts) index) (ts_snapshot ts), None).
Proof.
  intros Hi Hag Hv Hprev. unfold checkApply, checkLogs. rewrite Hi. simpl. rewrite find_clash_none.
  - assert (E : (1 <? index) && negb (bool_decide (is_Some (rs_logs rs !! (index - 1)))) = false).
    { apply andb_false_iff. destruct (Z.ltb_spec 1 index); [right|by left]. by rewrite bool_decide_eq_true_2 by auto. }
    rewrite E. do 3 f_equal. destruct (Z.ltb_spec (maxIndex ts) index); lia.
  - intros rs' old Hin Hold. eapply log_entry_unique; [by eapply Hag|done].
Qed.

(** The copy holds every index up to [k]. *)
Definition holds_upto (k : Z) rs : Prop := ∀ j, 1 ≤ j ≤ k → is_Some (Logs j rs).

Lemma agrees_insert L rs index v :
  agrees L rs → log_entry L index v → agrees L (set_logs (<[index := v]> (rs_logs rs)) rs).
Proof.
  intros H Hv k u. unfold Logs. simpl. destruct (decide (index = k)) as [->|].
  - rewrite lookup_insert_eq. by intros [= <-].
  - rewrite lookup_insert_ne by done. apply H.
Qed.

Lemma holds_insert rs k v : holds_upto k rs → holds_upto (k + 1) (set_logs (<[k + 1 := v]> (rs_logs rs)) rs).
Proof.
  intros H j Hj. unfold Logs. simpl. destruct (decide (k + 1 = j)) as [->|]; [by rewrite lookup_insert_eq|].
  rewrite lookup_insert_ne by done. apply H. lia.
Qed.

(** ** The snapshots of the test servers *)

(** The copy of the first [k] commands, with nil at index 0. *)
Definition xlog_of L (k : Z) : list (option cmd) := None :: (Some <$> take (Z.to_nat k) L).

Lemma make_xlog_of L rs k :
  agrees L rs → holds_upto k rs → 0 ≤ k ≤ go_len L → make_xlog k rs = xlog_of L k.
Proof.
  intros Ha Hh Hk. unfold make_xlog, xlog_of. rewrite seqZ_cons by lia. simpl. f_equal.
  { destruct (rs_logs rs !! 0) as [v|] eqn:E; [|done]. by destruct (Ha 0 v E) as [[_ ->]|[? _]]; [|lia]. }
  apply list_eq. intros j. rewrite !list_lookup_fmap. replace (Z.succ 0) with 1 by lia. replace (Z.pred (k + 1)) with k by lia.
  destruct (decide (Z.of_nat j < k)) as [Hj|Hj].
  - rewrite lookup_seqZ_lt by lia. simpl. rewrite lookup_take_lt by lia.
    destruct (Hh (1 + Z.of_nat j)) as [v Hv]; [lia|]. unfold Logs in Hv. rewrite Hv. simpl.
    destruct (Ha _ _ Hv) as [[? _]|(_ & c & -> & Hc)]; [lia|]. replace (Z.to_nat (1 + Z.of_nat j - 1)) with j in Hc by lia.
    by rewrite Hc.
  - rewrite lookup_seqZ_ge by lia. by rewrite lookup_take_ge by lia.
Qed.

Lemma xlog_lookup L k j v :
  map_seqZ (M := gmap Z (option cmd)) 0 (xlog_of L k) !! j = Some v → log_entry L j v.
Proof.
  rewrite lookup_map_seqZ_Some. intros [Hj Hv]. destruct (decide (j = 0)) as [->|]; [left; simpl in Hv; split; congruence|].
  right. split; [lia|]. replace (Z.to_nat (j - 0)) with (S (Z.to_nat (j - 1))) in Hv by lia. simpl in Hv.
  apply list_lookup_fmap_Some in Hv as (c & -> & Hc). apply lookup_take_Some in Hc as [Hc _]. eauto.
Qed.

Lemma xlog_holds L k j :
  0 ≤ k ≤ go_len L → 1 ≤ j ≤ k → is_Some (map_seqZ (M := gmap Z (option cmd)) 0 (xlog_of L k) !! j).
Proof.
  intros Hk Hj. rewrite lookup_map_seqZ_0 by lia. apply lookup_lt_is_Some. unfold xlog_of, go_len in *. simpl.
  rewrite length_fmap, length_take. lia.
Qed.

(** ** The checkers *)

(** On copies that agree with one log, [nCommitted] counts the servers that hold
    the index and returns what the log holds there. *)
Lemma nCommitted_loop_ok L index l count cmd0 :
  (∀ rs, rs ∈ l → applyErr rs = None ∧ agrees L rs) → 0 ≤ count → (0 < count → log_entry L index cmd0) →
  ∃ c, nCommitted_loop index l count cmd0 = Some (count + go_len (filter (λ rs, is_Some (Logs index rs)) l), c) ∧
    (0 < count + go_len (filter (λ rs, is_Some (Logs index rs)) l) → log_entry L index c).
Proof.
  revert count cmd0. induction l as [|rs l IH]; intros count cmd0 Hl Hc Hcmd; simpl; rewrite ?filter_nil, ?filter_cons.
  { exists cmd0. by rewrite Z.add_0_r. }
  destruct (Hl rs) as [He Ha]; [by left|]. rewrite He. destruct (Logs index rs) as [v|] eqn:E.
  - rewrite decide_True by (by eexists). assert (Hv : log_entry L index v) by (by apply Ha).
    assert (Et : (0 <? count) && negb (bool_decide (cmd0 = v)) = false).
    { destruct (Z.ltb_spec 0 count); [|done]. rewrite bool_decide_eq_true_2; [done|]. eapply log_entry_unique; eauto. }
    rewrite Et. destruct (IH (count + 1) v) as (c & Ec & Hcl); [by intros ??; apply Hl; right|lia|done|].
    exists c. unfold go_len in *. simpl. rewrite Ec. split; [do 2 f_equal; lia|]. intros _. apply Hcl. lia.
  - rewrite decide_False by (by intros [? ?]). apply IH; try done. by intros ??; apply Hl; right.
Qed.

Lemma nCommitted_ok L index l :
  (∀ rs, rs ∈ l → applyErr rs = None ∧ agrees L rs) →
  ∃ nd c, nCommitted index l = Some (nd, c) ∧ nd = go_len (filter (λ rs, is_Some (Logs index rs)) l) ∧
    (0 < nd → log_entry L index c).
Proof.
  intros Hl. destruct (nCommitted_loop_ok L index l 0 None Hl) as (c & E & Hc); [done|done|]. eauto.
Qed.

Lemma leaders_of_ok (views : list (Z * option (Z * bool))) :
  NoDup views.*1 → (∀ t l, leaders_of views !! t = Some l → NoDup l ∧ l ≠ []) ∧
  ∀ t i, (∃ l, leaders_of views !! t = Some l ∧ i ∈ l) ↔ (i, Some (t, true)) ∈ views.
Proof.
  induction views as [|[i v] views IH] using rev_ind; intros Hnd.
  { unfold leaders_of. simpl. split; [intros t l Hl; by rewrite lookup_empty in Hl|]. intros t i. split; [intros (l & Hl & _); by rewrite lookup_empty in Hl|].
    by intros ?%elem_of_nil. }
  rewrite fmap_app in Hnd. apply NoDup_app in Hnd as (Hnd & Hni & _). destruct (IH Hnd) as [IH1 IH2]. unfold leaders_of in *.
  rewrite foldl_snoc. set (m := foldl _ ∅ views) in *.
  assert (Hfresh : ∀ t l, m !! t = Some l → i ∉ l).
  { intros t l Hl Hin. apply (Hni i); [|by left]. destruct (IH2 t i) as [H _].
    apply list_elem_of_fmap. exists (i, Some (t, true)). split; [done|]. apply H. eauto. }
  assert (Hsnoc : ∀ t j, (j, Some (t, true)) ∈ views ++ [(i, v)] ↔ (j, Some (t, true)) ∈ views ∨ (j = i ∧ v = Some (t, true))).
  { intros t j. rewrite elem_of_app, list_elem_of_singleton. split; intros [|H]; auto; right; [by injection H as -> ->|].
    by destruct H as [-> ->]. }
  destruct v as [[term [|]]|]; simpl.
  - split.
    + intros t l. destruct (decide (term = t)) as [->|]; [|rewrite lookup_insert_ne by done; apply IH1].
      rewrite lookup_insert_eq. intros [= <-]. destruct (m !! t) as [l0|] eqn:E; simpl; [|split; [apply NoDup_singleton|done]].
      split; [|by destruct l0]. apply NoDup_app. split_and!; [by apply (IH1 t l0)| |apply NoDup_singleton].
      intros x Hx ->%list_elem_of_singleton. by apply (Hfresh t l0).
    + intros t j. rewrite Hsnoc, <- IH2. destruct (decide (term = t)) as [->|Hne].
      * rewrite lookup_insert_eq. split.
        -- intros (l & [= <-] & [Hj|Hj]%elem_of_app); [|apply list_elem_of_singleton in Hj as ->; by right].
           left. destruct (m !! t) as [l0|] eqn:E; [|by apply elem_of_nil in Hj]. eauto.
        -- intros [(l & Hl & Hj)|[-> _]]; eexists; (split; [done|]); apply elem_of_app; [left; by rewrite Hl|right; by left].
      * rewrite lookup_insert_ne by done. split; [by left|]. intros [|[_ [= <-]]]; done.
  - split; [done|]. intros t j. rewrite Hsnoc, <- IH2. split; [by left|by intros [|[_ [=]]]].
  - split; [done|]. intros t j. rewrite Hsnoc, <- IH2. split; [by left|by intros [|[_ [=]]]].
Qed.

Lemma last_term_max (l : list (Z * list Z)) a :
  let r := foldl (λ last x, if last <? x.1 then x.1 else last) a l in
  a ≤ r ∧ (∀ x, x ∈ l → x.1 ≤ r) ∧ (r = a ∨ ∃ x, x ∈ l ∧ x.1 = r).
Proof.
  induction l as [|x l IH] using rev_ind; simpl; [split_and!; [done| |by left]; by intros x ?%elem_of_nil|].
  rewrite foldl_snoc. simpl in IH. set (r := foldl _ a l) in *. destruct IH as (H1 & H2 & H3).
  assert (Hx : ∀ y, y ∈ l ++ [x] → y ∈ l ∨ y = x) by (intros y [|?%list_elem_of_singleton]%elem_of_app; auto).
  destruct (Z.ltb_spec r x.1).
  - split_and!; [lia| |right; exists x; split; [apply elem_of_app; right; by left|done]].
    intros y [Hy| ->]%Hx; [|lia]. specialize (H2 y Hy). lia.
  - split_and!; [lia| |destruct H3 as [|(y & Hy & E)]; [by left|right; exists y; split; [apply elem_of_app; by left|done]]].
    intros y [Hy| ->]%Hx; [by apply H2|lia].
Qed.

(** With one leader per term, [checkOneLeader_round] names the leader of the last term
    that has one. *)
Lemma checkOneLeader_round_ok (views : list (Z * option (Z * bool))) :
  NoDup views.*1 → (∀ i t b, (i, Some (t, b)) ∈ views → 0 ≤ t) →
  (∀ i j t, (i, Some (t, true)) ∈ views → (j, Some (t, true)) ∈ views → i = j) →
  match checkOneLeader_round views with
  | None => False
  | Some None => ∀ i t, (i, Some (t, true)) ∉ views
  | Some (Some i) => ∃ t, (i, Some (t, true)) ∈ views ∧ ∀ j t', (j, Some (t', true)) ∈ views → t' ≤ t
  end.
Proof.
  intros Hnd Hpos Huniq. destruct (leaders_of_ok views Hnd) as [H1 H2]. unfold checkOneLeader_round. set (m := leaders_of views) in *.
  assert (Hone : existsb (λ x, 1 <? go_len x.2) (map_to_list m) = false).
  { apply not_true_is_false. intros ([t l] & Hin & Hlen%Z.ltb_lt)%existsb_exists. simpl in Hlen.
    assert (Hl : m !! t = Some l) by (by apply elem_of_map_to_list, list_elem_of_In).
    destruct (H1 t l Hl) as [Hnl _]. destruct l as [|i [|j l]]; [unfold go_len in Hlen; simpl in Hlen; lia..|].
    apply NoDup_cons in Hnl as [Hij _]. apply Hij. rewrite (Huniq i j t); [by left|apply H2; exists (i :: j :: l); split; [done|]..].
    - by left.
    - by right; left. }
  rewrite Hone. case_decide as Em.
  - intros i t Hin%H2. destruct Hin as (l & Hl & _). rewrite Em, lookup_empty in Hl. done.
  - destruct (last_term_max (map_to_list m) (-1)) as (_ & R2 & R3). set (r := foldl _ _ _) in *.
    destruct (map_choose m Em) as (t0 & l0 & Hl0). destruct (H1 t0 l0 Hl0) as [_ Hne0].
    assert (Ht0 : 0 ≤ t0).
    { destruct l0 as [|i0 l0]; [done|]. apply (Hpos i0 t0 true), H2. exists (i0 :: l0). split; [done|by left]. }
    specialize (R2 (t0, l0) (proj2 (elem_of_map_to_list m t0 l0) Hl0)) as Hr. simpl in Hr.
    destruct R3 as [->|([t l] & Hin%elem_of_map_to_list & <-)]; [lia|]. simpl in *. rewrite Hin. simpl.
    destruct (H1 t l Hin) as [_ Hne]. destruct l as [|i l]; [done|]. simpl. exists t. split.
    + apply H2. exists (i :: l). split; [done|by left].
    + intros j t' Hj%H2. destruct Hj as (l' & Hl' & _). by apply (R2 (t', l')), elem_of_map_to_list.
Qed.

(** ** The invariant *)

Section mode.
(** Whether the servers take snapshots. *)
Variable sn : bool.

Definition test_snap L (b : bytes) (k : Z) : Prop :=
  sn = true ∧ 0 ≤ k ≤ go_len L ∧ b = gob_encode (k, xlog_of L k).

#[local] Instance test_snap_spec : SnapshotSpec test_snap.
Proof.
  constructor.
  - intros L L' b k Hp (Hs & Hk & ->). split; [done|]. unfold xlog_of. rewrite (take_prefix L L') by (done || lia).
    split; [|done]. apply prefix_length in Hp. unfold go_len in *. lia.
  - by intros L b k (_ & ? & _).
  - intros L b k (_ & _ & ->). apply gob_encode_nonempty.
Qed.

(** Server [i]: its copy agrees with the log and is complete up to where its
    reader is, which finds next in its channel what comes next in the log. *)
Record srv_ok L (i : Z) rs rd rf : Prop := {
  sk_err : applyErr rs = None;
  sk_logs : agrees L rs;
  sk_at : ∃ k, 0 ≤ k ∧ holds_upto k rs ∧ queue_ok test_snap L k (ch rd) rf ∧ (sn = true → rs_lastApplied rs = k);
  sk_todo index b err : todo rd = Some (index, b, err) →
    err = None ∧ test_snap L b index ∧ index = rs_lastApplied rs;
  sk_raft p : raft rs = Some p → p = i
}.

(** A call of [one]: it tries servers there are, and returns an index at which the
    log holds its command. *)
Record one_ok (n : nat) L o : Prop := {
  ok_starts : 0 ≤ starts o;
  ok_try k : o_pc o = OneTry (S k) → (0 < n)%nat;
  ok_done index : o_pc o = OneDone index → log_entry L index (Some (o_cmd o))
}.

Record test_inv (n : nat) w : Prop := {
  ti_feed : feed_inv test_snap n (tcluster w);
  ti_mode : ts_snapshot (test w) = sn;
  ti_srvs : length (srvs (test w)) = n;
  ti_readers : length (readers w) = n;
  ti_connected : length (connected w) = n;
  ti_srv i rs rd rf : (srvs (test w)).[i] = Some rs → (readers w).[i] = Some rd → (nodes (tcluster w)).[i] = Some rf →
    srv_ok (test_log w) i rs rd rf;
  ti_max : 0 ≤ maxIndex (test w) ≤ go_len (test_log w);
  ti_one t o : ones w !! t = Some o → one_ok n (test_log w) o
}.

Lemma queue_mono L L' k q rf : L `prefix_of` L' → queue_ok test_snap L k q rf → queue_ok test_snap L' k q rf.
Proof. intros Hp (e & Hc & He). exists e. split; [by apply (chain_mono _ L)|done]. Qed.

Lemma srv_mono L L' i rs rd rf : L `prefix_of` L' → srv_ok L i rs rd rf → srv_ok L' i rs rd rf.
Proof.
  intros Hp [H1 H2 (k & Hk & Hh & Hq & Ha) H4 H6]. constructor; try done.
  - by apply (agrees_mono L).
  - exists k. split_and!; try done. by apply (queue_mono L).
  - intros index b err Ht. destruct (H4 index b err Ht) as (-> & Hs & ->). split_and!; try done; by eapply snap_prefix.
Qed.

(** A server whose peer took a step. *)
Lemma srv_move L i rs rd ev rf rf' :
  srv_ok L i rs rd rf → applied_move ev i rf rf' → ev ≠ EvApply i → ev ≠ EvCrash i → srv_ok L i rs rd rf'.
Proof.
  intros [H1 H2 (k & Hk & Hh & Hq & Ha) H4 H6] Hm Hna Hnc. constructor; try done.
  exists k. split_and!; try done. by eapply queue_sync.
Qed.

Lemma in_range n w i :
  test_inv n w → 0 ≤ i < Z.of_nat n → ∃ rs rd rf,
    (srvs (test w)).[i] = Some rs ∧ (readers w).[i] = Some rd ∧ (nodes (tcluster w)).[i] = Some rf.
Proof.
  intros Hinv Hi. destruct (ci_nodes _ _ (reachable_inv _ _ (fd_reach _ _ _ (ti_feed _ _ Hinv)))) as [Hn _].
  pose proof (ti_srvs _ _ Hinv). pose proof (ti_readers _ _ Hinv).
  destruct (go_index_is_Some (srvs (test w)) i) as [rs Hrs]; [unfold go_len; lia|].
  destruct (go_index_is_Some (readers w) i) as [rd Hrd]; [unfold go_len; lia|].
  destruct (go_index_is_Some (nodes (tcluster w)) i) as [rf Hrf]; [unfold go_len in *; lia|]. eauto 10.
Qed.

Lemma srv_range n w i rs : test_inv n w → (srvs (test w)).[i] = Some rs → ∃ rd rf,
  (readers w).[i] = Some rd ∧ (nodes (tcluster w)).[i] = Some rf ∧ srv_ok (test_log w) i rs rd rf.
Proof.
  intros Hinv Hi. destruct (in_range n w i Hinv) as (rs' & rd & rf & Hrs & Hrd & Hrf).
  { apply go_index_Some_range in Hi. pose proof (ti_srvs _ _ Hinv). unfold go_len in *. lia. }
  exists rd, rf. split_and!; try done. by apply (ti_srv _ _ Hinv).
Qed.

Lemma all_agree n w rs : test_inv n w → rs ∈ srvs (test w) → applyErr rs = None ∧ agrees (test_log w) rs.
Proof.
  intros Hinv [i Hi]%list_elem_of_lookup. destruct (srv_range n w (Z.of_nat i) rs Hinv) as (rd & rf & _ & _ & Hok).
  - rewrite go_index_lookup by lia. by rewrite Nat2Z.id.
  - split; apply Hok.
Qed.

(** A step of which only server [i] and the peers take part. *)
Lemma test_build n w ev c' i ts' rds' con' ones' :
  let w' := mkTestWorld c' ts' rds' con' ones' in
  test_inv n w → feed_inv test_snap n c' → cluster_move n ev (tcluster w) c' →
  test_log w `prefix_of` test_log w' →
  (∀ j, j ≠ i → (srvs ts').[j] = (srvs (test w)).[j] ∧ rds'.[j] = (readers w).[j] ∧ ev ≠ EvApply j ∧ ev ≠ EvCrash j) →
  (∀ rs rd rf, (srvs ts').[i] = Some rs → rds'.[i] = Some rd → (nodes c').[i] = Some rf → srv_ok (test_log w') i rs rd rf) →
  ts_snapshot ts' = sn → length (srvs ts') = n → length rds' = n → length con' = n →
  0 ≤ maxIndex ts' ≤ go_len (test_log w') →
  (∀ t o, ones' !! t = Some o → one_ok n (test_log w') o) → test_inv n w'.
Proof.
  intros w' Hinv Hfeed Hcv Hpre Hoth Hi Hmode Hl1 Hl2 Hl3 Hmax Hones. constructor; try done.
  intros j rs rd rf Hrs Hrd Hrf. simpl in *. destruct (decide (j = i)) as [->|Hne]; [by apply Hi|].
  destruct (Hoth j Hne) as (Es & Er & Hna & Hnc). rewrite Es in Hrs. rewrite Er in Hrd.
  destruct (cv_applied _ _ _ _ Hcv j rf Hrf) as (rf0 & Hrf0 & Hmv). eapply srv_move; [|done..].
  eapply srv_mono; [done|]. by apply (ti_srv _ _ Hinv).
Qed.

Lemma ones_mono n w L' t o :
  test_inv n w → test_log w `prefix_of` L' → ones w !! t = Some o → one_ok n L' o.
Proof.
  intros Hinv Hp Ho. destruct (ti_one _ _ Hinv t o Ho) as [H1 H2 H3]. constructor; try done.
  intros index E. eauto using log_entry_mono.
Qed.

(** A step of the cluster that delivers nothing and restarts nobody. *)
Lemma cluster_inv_step n w ev c' :
  test_inv n w → (∀ i, ev ≠ EvApply i) → (∀ i, ev ≠ EvCrash i) → starts_command ev →
  hands_good (test_snap (test_log w)) ev → step ev (tcluster w) = Next c' → test_inv n (set_cluster c' w).
Proof.
  intros Hinv Hna Hnc Hst Hg Hstep.
  destruct (feed_step test_snap n ev (tcluster w) c') as [Hfeed Hd]; try done; [apply Hinv|].
  assert (El : log_of (delivered c') = test_log w) by (by rewrite Hd).
  apply (test_build n w ev c' (-1)); try done; try apply Hinv; unfold test_log; simpl; rewrite ?El; try done; try apply Hinv.
  apply cluster_move_step; [apply Hinv|done].
Qed.

(** ** The steps *)

(** A step never stops the test and keeps the invariant. *)
Definition safe n (o : outcome TestWorld) : Prop :=
  match o with Next w => test_inv n w | Disabled => True | Panic => False end.

Lemma cluster_safe n w ev (f : World cmd → TestWorld) :
  test_inv n w → (∀ c', step ev (tcluster w) = Next c' → test_inv n (f c')) →
  safe n (c <~ step ev (tcluster w) ;; Next (f c)).
Proof.
  intros Hinv H. pose proof (step_inv _ _ ev (reachable_inv _ _ (fd_reach _ _ _ (ti_feed _ _ Hinv)))) as Hp.
  destruct (step ev (tcluster w)) as [c'| |]; simpl; [by apply H|done|done].
Qed.

Lemma apply_safe n w i : test_inv n w → safe n (test_step (TsApply i) w).
Proof.
  intros Hinv. cbn [test_step]. destruct ((readers w).[i]) as [rd|] eqn:Hrd; cbn [enabled outcome_bind]; [|done].
  destruct ((nodes (tcluster w)).[i]) as [rf|] eqn:Hrf; cbn [enabled outcome_bind]; [|done].
  destruct (is_up i w) eqn:Hup; [|done].
  destruct (applier_wf _ rf (feed_wf _ _ _ _ _ (ti_feed _ _ Hinv) Hrf)) as (rf' & act & Ea & _). rewrite Ea.
  cbn [run_go outcome_bind]. apply cluster_safe; [done|]. intros c' Hs. simpl.
  destruct (feed_apply test_snap n i _ _ rf rf' act (ti_feed _ _ Hinv) Hrf Ea Hs) as (Hfeed & Hpre & Hn & _ & Hq).
  apply (test_build n w (EvApply i) c' i); try done; try apply Hinv.
  - apply cluster_move_step; [apply Hinv|done].
  - intros j Hj. split_and!; try done; [|congruence]. by rewrite (go_index_insert _ _ _ rd), decide_False.
  - intros rs rd' x Hrs. rewrite (go_index_insert _ _ _ rd), decide_True by done. intros [= <-].
    rewrite Hn, (nodes_insert _ _ rf), decide_True by done. intros [= <-].
    pose proof (ti_srv _ _ Hinv i rs rd rf Hrs Hrd Hrf) as Hok.
    destruct (srv_mono _ _ i rs rd rf Hpre Hok) as [H1 H2 _ H4 H6].
    destruct (sk_at _ _ _ _ _ Hok) as (k & Hk & Hh & Hqu & Ha). constructor; try done.
    exists k. split_and!; try done. by apply Hq.
  - rewrite length_insert. apply Hinv.
  - pose proof (ti_max _ _ Hinv). apply prefix_length in Hpre. unfold test_log, go_len in *. simpl. lia.
  - intros t o. by apply (ones_mono n w).
Qed.

(** Server [i] changes and the cluster does not. *)
Lemma put_safe n w i rs rd rf rs' rd' ts' :
  test_inv n w → (srvs (test w)).[i] = Some rs → (readers w).[i] = Some rd → (nodes (tcluster w)).[i] = Some rf →
  srvs ts' = <[Z.to_nat i := rs']> (srvs (test w)) → ts_snapshot ts' = sn → 0 ≤ maxIndex ts' ≤ go_len (test_log w) →
  srv_ok (test_log w) i rs' rd' rf → test_inv n (set_reader i rd' (set_test ts' w)).
Proof.
  intros Hinv Hrs Hrd Hrf Es Hm Hmax Hok. apply (test_build n w (EvDrop 0) (tcluster w) i); try done; try apply Hinv; simpl.
  - apply cluster_move_refl, Hinv.
  - intros j Hj. rewrite Es, (go_index_insert _ _ _ rs), (go_index_insert _ _ _ rd), !decide_False by done. done.
  - intros rs1 rd1 rf1. rewrite Es, (go_index_insert _ _ _ rs), (go_index_insert _ _ _ rd), !decide_True by done.
    intros [= <-] [= <-] Hrf1. simpl in Hrf1. by assert (rf1 = rf) as -> by congruence.
  - rewrite Es, length_insert. apply Hinv.
  - rewrite length_insert. apply Hinv.
Qed.

(** A command in front of the channel is the next one of the log. *)
Lemma head_command L i rs rd rf v index rest :
  srv_ok L i rs rd rf → ch rd = CommandMsg v index :: rest →
  ∃ k, 0 ≤ k ∧ index = k + 1 ∧ holds_upto k rs ∧ (sn = true → rs_lastApplied rs = k) ∧
    log_entry L index v ∧ index ≤ go_len L ∧ queue_ok test_snap L index rest rf.
Proof.
  intros Hok Eq. destruct (sk_at _ _ _ _ _ Hok) as (k & Hk & Hh & (e & Hc & He) & Ha). rewrite Eq in Hc. simpl in Hc.
  destruct Hc as (-> & (c & -> & Hc) & Hch). exists k. split_and!; try done.
  - right. split; [lia|]. by exists c.
  - apply lookup_lt_Some in Hc. unfold go_len. lia.
  - by exists e.
Qed.

(** A server that has checked the command and moved on. *)
Lemma srv_command L i rs rd rf v k rest a td :
  srv_ok L i rs rd rf → 0 ≤ k → holds_upto k rs → log_entry L (k + 1) v → queue_ok test_snap L (k + 1) rest rf →
  (sn = true → a = k + 1) →
  (∀ index b err, td = Some (index, b, err) → err = None ∧ test_snap L b index ∧ index = a) →
  srv_ok L i (set_lastApplied a (set_logs (<[k + 1 := v]> (rs_logs rs)) rs)) (mkReader rest td) rf.
Proof.
  intros [H1 H2 _ _ H6] Hk Hh Hv Hq Ha Ht. constructor; try done; [by apply agrees_insert|].
  exists (k + 1). split_and!; try done; [lia|by apply holds_insert].
Qed.

Lemma read_plain_safe n w i m rest rs rd rf :
  test_inv n w → sn = false → (srvs (test w)).[i] = Some rs → (readers w).[i] = Some rd → (nodes (tcluster w)).[i] = Some rf →
  ch rd = m :: rest → safe n (read i m rest w).
Proof.
  intros Hinv Hsn Hrs Hrd Hrf Eq. pose proof (ti_srv _ _ Hinv i rs rd rf Hrs Hrd Hrf) as Hok.
  unfold read. rewrite (ti_mode _ _ Hinv), Hsn. destruct m as [v index|b t index].
  - destruct (head_command _ _ _ _ _ _ _ _ Hok Eq) as (k & Hk & -> & Hh & Ha & Hv & Hlen & Hq). simpl.
    rewrite (checkApply_ok (test_log w) i rs) by (done || (intros; apply Hh; lia) || (intros; by eapply all_agree)). simpl.
    pose proof (ti_max _ _ Hinv). eapply put_safe; try done; simpl; [by rewrite (ti_mode _ _ Hinv)|lia|].
    replace (set_logs _ rs) with (set_lastApplied (rs_lastApplied rs) (set_logs (<[k + 1 := v]> (rs_logs rs)) rs)) by (by destruct rs).
    eapply srv_command; try done. congruence.
  - destruct (sk_at _ _ _ _ _ Hok) as (k & _ & _ & (e & Hc & _) & _). rewrite Eq in Hc.
    destruct Hc as (_ & (E & _) & _). congruence.
Qed.

(** A snapshot of the log passes [ingestSnap]. *)
Lemma ingestSnap_ok L b index i rs :
  test_snap L b index → i = -1 ∨ i = index → ingestSnap (Some b) i rs =
    Some (set_lastApplied index (set_logs (map_seqZ 0 (xlog_of L index)) rs), None).
Proof.
  intros (_ & _ & ->) Hi. unfold ingestSnap. simpl. rewrite gob_decode_encode. simpl.
  destruct (Z.eqb_spec i (-1)), (Z.eqb_spec i index); (done || lia).
Qed.

Lemma srv_ingested L i index rs rf q b :
  test_snap L b index → applyErr rs = None → (∀ p, raft rs = Some p → p = i) → queue_ok test_snap L index q rf →
  srv_ok L i (set_lastApplied index (set_logs (map_seqZ 0 (xlog_of L index)) rs)) (mkReader q None) rf.
Proof.
  intros (_ & Hk & _) He Hr Hq. constructor; try done.
  - intros k v. apply xlog_lookup.
  - exists index. split_and!; try done; [lia|]. intros j Hj. by apply xlog_holds.
Qed.

Lemma read_snap_safe n w i m rest rs rd rf :
  test_inv n w → sn = true → (srvs (test w)).[i] = Some rs → (readers w).[i] = Some rd → (nodes (tcluster w)).[i] = Some rf →
  ch rd = m :: rest → safe n (read i m rest w).
Proof.
  intros Hinv Hsn Hrs Hrd Hrf Eq. pose proof (ti_srv _ _ Hinv i rs rd rf Hrs Hrd Hrf) as Hok.
  pose proof (ti_max _ _ Hinv) as Hmax. unfold read. rewrite (ti_mode _ _ Hinv), Hsn. destruct m as [v index|b t index].
  - destruct (head_command _ _ _ _ _ _ _ _ Hok Eq) as (k & Hk & -> & Hh & Ha & Hv & Hlen & Hq).
    unfold applierSnap. rewrite Hrs. cbn [mbind option_bind]. rewrite (Ha Hsn), Z.eqb_refl. cbn [negb].
    rewrite (checkApply_ok (test_log w) i rs) by (done || (intros; apply Hh; lia) || (intros; by eapply all_agree)). simpl.
    rewrite (go_index_insert _ _ _ rs), decide_True by done. simpl.
    set (rs' := set_lastApplied (k + 1) _).
    assert (Hnew : ∀ td, (∀ index b err, td = Some (index, b, err) → err = None ∧ test_snap (test_log w) b index ∧ index = k + 1) →
      srv_ok (test_log w) i rs' (mkReader rest td) rf) by (intros td Htd; by eapply srv_command).
    assert (Hput : ∀ td, srv_ok (test_log w) i rs' (mkReader rest td) rf → test_inv n (set_reader i (mkReader rest td)
      (set_test (put_srv i rs' (mkTest (<[Z.to_nat i := set_logs (<[k + 1 := v]> (rs_logs rs)) rs]> (srvs (test w)))
        (Z.max (maxIndex (test w)) (k + 1)) (ts_snapshot (test w)))) w))).
    { intros td Htd. eapply put_safe; try done; simpl; [by rewrite list_insert_insert_eq|by rewrite (ti_mode _ _ Hinv)|lia]. }
    destruct (Z.rem _ _ =? 0); simpl; apply Hput, Hnew; [|done]. intros index b err [= <- <- <-]. split_and!; try done.
    split; [done|]. split; [lia|]. rewrite (make_xlog_of (test_log w)); [done| | |lia].
    + apply (Hnew None). done.
    + intros j Hj. destruct (holds_insert rs k v Hh j Hj) as [u Hu]. by exists u.
  - destruct (sk_at _ _ _ _ _ Hok) as (k & _ & _ & (e & Hc & He) & _). rewrite Eq in Hc. simpl in Hc.
    destruct Hc as (_ & Hs & Hch). unfold applierSnap. rewrite Hrs. simpl.
    rewrite (ingestSnap_ok (test_log w) b index) by (done || by right). simpl.
    eapply put_safe; try done; simpl; [by rewrite (ti_mode _ _ Hinv)|].
    eapply srv_ingested; [done|apply Hok|apply Hok|]. by exists e.
Qed.

Lemma read_safe n w i : test_inv n w → safe n (test_step (TsRead i) w).
Proof.
  intros Hinv. cbn [test_step]. destruct ((readers w).[i]) as [rd|] eqn:Hrd; cbn [enabled outcome_bind]; [|done].
  destruct (ch rd) as [|m rest] eqn:Eq; [done|]. destruct (todo rd) eqn:Et; [done|].
  destruct (in_range n w i Hinv) as (rs & rd' & rf & Hrs & Hrd' & Hrf).
  { apply go_index_Some_range in Hrd. pose proof (ti_readers _ _ Hinv). unfold go_len in *. lia. }
  destruct (decide (sn = true)) as [Hsn|Hsn%not_true_is_false].
  - by apply (read_snap_safe n w i m rest rs rd rf).
  - by apply (read_plain_safe n w i m rest rs rd rf).
Qed.

(** Its peer has applied what a server asks it to compact. *)
Lemma todo_applied L i rs rd rf index b err :
  srv_ok L i rs rd rf → todo rd = Some (index, b, err) → index ≤ lastApplied rf.
Proof.
  intros Hok Ht. destruct (sk_todo _ _ _ _ _ Hok _ _ _ Ht) as (_ & (Hsn & _) & ->).
  destruct (sk_at _ _ _ _ _ Hok) as (k & _ & _ & (e & Hc%chain_le & He & _) & Ha). specialize (Ha Hsn). lia.
Qed.

Lemma snapshot_accepted n w i rs rd index b err :
  test_inv n w → (srvs (test w)).[i] = Some rs → is_Some (raft rs) → (readers w).[i] = Some rd →
  todo rd = Some (index, b, err) → ∃ w', test_step (TsSnapshot i) w = Next w'.
Proof.
  intros Hinv Hrs [p Hp] Hrd Et. cbn [test_step]. rewrite Hrd, Hrs. cbn [enabled outcome_bind]. rewrite Et.
  destruct (srv_range n w i rs Hinv Hrs) as (rd' & rf & Hrd' & Hrf & Hok). assert (rd' = rd) as -> by congruence.
  destruct (sk_todo _ _ _ _ _ Hok _ _ _ Et) as (-> & Hs & Ei). pose proof (todo_applied _ _ _ _ _ _ _ _ Hok Et) as Hla.
  rewrite Hp. cbn [run_go outcome_bind].
  rewrite (sk_raft _ _ _ _ _ Hok p Hp). simpl. unfold step_snapshot. rewrite Hrf. simpl.
  destruct (Z.ltb_spec (lastApplied rf) index); [lia|].
  destruct (Snapshot_wf _ index (Some b) rf (feed_wf _ _ _ _ _ (ti_feed _ _ Hinv) Hrf)) as (rf' & -> & _); [lia|].
  simpl. by eexists.
Qed.

(** The reader of a server that was shut down calls Snapshot on nil. *)
Definition nil_snapshot ev w : bool :=
  match ev with
  | TsSnapshot i =>
      match (srvs (test w)).[i], (readers w).[i] with
      | Some rs, Some rd => bool_decide (raft rs = None) && bool_decide (is_Some (todo rd))
      | _, _ => false
      end
  | _ => false
  end.

Lemma snapshot_safe n w i : test_inv n w → nil_snapshot (TsSnapshot i) w = false → safe n (test_step (TsSnapshot i) w).
Proof.
  intros Hinv Hnil. cbn [test_step]. destruct ((readers w).[i]) as [rd|] eqn:Hrd; cbn [enabled outcome_bind]; [|done].
  destruct ((srvs (test w)).[i]) as [rs|] eqn:Hrs; cbn [enabled outcome_bind]; [|done].
  destruct (todo rd) as [[[index b] err]|] eqn:Et; [|done].
  destruct (srv_range n w i rs Hinv Hrs) as (rd' & rf & Hrd' & Hrf & Hok). assert (rd' = rd) as -> by congruence.
  destruct (sk_todo _ _ _ _ _ Hok _ _ _ Et) as (-> & Hs & Ei).
  destruct (raft rs) as [p|] eqn:Hp; [|simpl in Hnil; by rewrite Hrs, Hrd, Hp, Et in Hnil]. cbn [run_go outcome_bind].
  rewrite (sk_raft _ _ _ _ _ Hok p Hp). cbn [fatal]. apply cluster_safe; [done|]. intros c' Hstep.
  assert (Hg : hands_good (test_snap (test_log w)) (EvSnapshot (cmd := cmd) i index (Some b))) by (by exists b).
  assert (Hinv' : test_inv n (set_cluster c' w)) by (by apply (cluster_inv_step n w (EvSnapshot i index (Some b)))).
  destruct (srv_range n _ i rs Hinv' Hrs) as (rd' & rf' & Hrd'' & Hrf' & Hok').
  simpl in Hrd''. assert (rd' = rd) as -> by congruence.
  apply (test_build n (set_cluster c' w) (EvDrop 0) c' i); try done; try apply Hinv'.
  - apply cluster_move_refl, Hinv'.
  - intros j Hj. by rewrite (go_index_insert _ _ _ rd), decide_False.
  - simpl. intros rs1 rd1 rf1 Hrs1. rewrite (go_index_insert _ _ _ rd), decide_True by done. intros [= <-] Hrf1.
    assert (rf1 = rf') as -> by (simpl in *; congruence). assert (rs1 = rs) as -> by congruence.
    destruct Hok' as [H1 H2 H3 H4 H6]. by constructor.
  - simpl. rewrite length_insert. apply Hinv.
Qed.

Lemma shutdown_safe n w i : test_inv n w → safe n (test_step (TsShutdown i) w).
Proof.
  intros Hinv. cbn [test_step]. unfold ShutdownServer. destruct ((srvs (test w)).[i]) as [rs|] eqn:Hrs; cbn [enabled outcome_bind]; [|done].
  destruct (raft rs) as [p|] eqn:Hp; cbn [enabled outcome_bind]; [|done].
  apply cluster_safe; [done|]. intros c' Hstep.
  assert (Hinv' : test_inv n (set_cluster c' w)) by (by apply (cluster_inv_step n w (EvKill p))).
  destruct (srv_range n _ i rs Hinv' Hrs) as (rd & rf & Hrd & Hrf & Hok).
  apply (test_build n (set_cluster c' w) (EvDrop 0) c' i); try done; try apply Hinv'; simpl.
  - apply cluster_move_refl, Hinv'.
  - intros j Hj. by rewrite (go_index_insert _ _ _ rs), decide_False.
  - intros rs1 rd1 rf1. rewrite (go_index_insert _ _ _ rs), decide_True by done. intros [= <-] Hrd1 Hrf1.
    assert (rf1 = rf) as -> by (simpl in *; congruence). assert (rd1 = rd) as -> by (simpl in *; congruence).
    destruct Hok as [H1 H2 H3 H4 H6]. by constructor.
  - rewrite length_insert. apply Hinv.
  - rewrite length_insert. apply Hinv.
Qed.

(** A server that starts again stands where the log of its peer starts. *)
Lemma newRfsrv_ok L i rf rf' :
  stored (test_snap L) (ReadSnapshot (persister rf)) (first_index (logs rf)) →
  lastApplied rf' = first_index (logs rf) → pendingSnapshot rf' = None →
  ∃ rs, newRfsrv i (persister rf) sn = Some rs ∧ srv_ok L i rs (mkReader [] None) rf'.
Proof.
  intros Hst Ha Hp. unfold newRfsrv. set (b := ReadSnapshot (persister rf)) in *. set (k := first_index (logs rf)) in *.
  assert (Hq : queue_ok test_snap L k [] rf') by (exists k; simpl; split_and!; (done || lia)).
  destruct Hst as [[Ek Eb]|[Hk Hs]].
  - rewrite Eb. assert (E : sn && (0 <? go_len (@nil Byte.byte)) = false) by apply andb_false_r. rewrite E. eexists. split; [done|].
    rewrite Ek in Hq. constructor; simpl; try done; [|by intros p [= <-]]. exists 0. split_and!; try done. intros j Hj. lia.
  - pose proof (snap_nonempty _ _ _ Hs) as Hne. destruct Hs as (Hsn & Hr & Eb). rewrite Hsn.
    assert (E : (0 <? go_len b) = true) by (apply Z.ltb_lt; destruct b; [done|unfold go_len; simpl; lia]). rewrite E. simpl.
    rewrite (ingestSnap_ok L b k) by (done || by left). simpl. eexists. split; [done|].
    eapply (srv_ingested L i k _ rf' [] b); try done. by intros p [= <-].
Qed.

Lemma restart_safe n w i : test_inv n w → safe n (test_step (TsRestart i) w).
Proof.
  intros Hinv. cbn [test_step]. unfold StartServer. destruct ((srvs (test w)).[i]) as [rs|] eqn:Hrs; cbn [enabled outcome_bind]; [|done].
  destruct (srv_range n w i rs Hinv Hrs) as (rd & rf & Hrd & Hrf & Hok). rewrite Hrd, Hrf. cbn [enabled outcome_bind].
  destruct (raft rs) eqn:Hp; [done|]. destruct rd as [[|] [|]]; try done. cbn [ch todo].
  pose proof (fd_flow _ _ _ (ti_feed _ _ Hinv)) as Hfl. pose proof (nf_stored _ _ (fl_node _ _ Hfl i rf Hrf)) as Hst.
  assert (Hnew : ∃ rs', newRfsrv i (persister rf) (ts_snapshot (test w)) = Some rs').
  { rewrite (ti_mode _ _ Hinv). set (rf' := set_pendingSnapshot None (RaftNode.set_lastApplied (first_index (logs rf)) rf)).
    by destruct (newRfsrv_ok (test_log w) i rf rf' Hst) as (rs' & E & _); [..|exists rs']. }
  destruct Hnew as [rs' Enew]. rewrite Enew. cbn [run_go outcome_bind]. apply cluster_safe; [done|]. intros c' Hstep.
  destruct (feed_step test_snap n (EvCrash i) (tcluster w) c') as [Hfeed Hd]; [apply Hinv|done..|].
  assert (El : log_of (delivered c') = test_log w) by (by rewrite Hd).
  apply (test_build n w (EvCrash i) c' i); try done; try apply Hinv; unfold test_log; simpl; rewrite ?El; try done; try apply Hinv.
  - apply cluster_move_step; [apply Hinv|done].
  - intros j Hj. rewrite (go_index_insert _ _ _ rs), decide_False by done. split_and!; try done. congruence.
  - intros rs1 rd1 rf'. rewrite (go_index_insert _ _ _ rs), decide_True by done. intros [= <-] Hrd1 Hrf'.
    assert (rd1 = mkReader [] None) as -> by congruence.
    destruct (crash_node n _ c' i i rf' (fd_reach _ _ _ (ti_feed _ _ Hinv)) Hstep Hrf') as (x & Hx & E & _).
    assert (x = rf) as -> by congruence. destruct (E eq_refl) as (Ha & Hpd & _).
    destruct (newRfsrv_ok (test_log w) i rf rf' Hst Ha Hpd) as (y & Ey & Hy).
    rewrite (ti_mode _ _ Hinv) in Enew. by assert (y = rs') as -> by congruence.
  - rewrite length_insert. apply Hinv.
Qed.

(** A call of [one] changes and nothing else. *)
Lemma set_one_inv n w t o : test_inv n w → one_ok n (test_log w) o → test_inv n (set_one t o w).
Proof.
  intros Hinv Ho. destruct Hinv as [I1 I2 I3 I4 I5 I6 I7 I8]. constructor; try done. simpl. intros u o'.
  destruct (decide (t = u)) as [<-|]; [rewrite lookup_insert_eq; by intros [= <-]|].
  rewrite lookup_insert_ne by done. apply I8.
Qed.

Lemma try_start_safe n w t k o :
  test_inv n w → ones w !! t = Some o → o_pc o = OneTry (S k) → safe n (try_start t k o w).
Proof.
  intros Hinv Ho Epc. destruct (ti_one _ _ Hinv t o Ho) as [O1 O2 O3]. specialize (O2 k Epc) as Hn. unfold try_start.
  set (st := Z.rem (starts o + 1) (go_len (srvs (test w)))).
  assert (Hst : 0 ≤ st < Z.of_nat n).
  { unfold st, go_len. rewrite (ti_srvs _ _ Hinv). apply Z.rem_bound_pos; lia. }
  destruct (go_index_is_Some (connected w) st) as [con ->]; [unfold go_len; rewrite (ti_connected _ _ Hinv); lia|].
  destruct (in_range n w st Hinv Hst) as (rs & rd & rf & Hrs & Hrd & Hrf). rewrite Hrs. cbn [run_go outcome_bind].
  pose proof (ti_srv _ _ Hinv st rs rd rf Hrs Hrd Hrf) as Hok.
  assert (Hone : ∀ L pc, (∀ index, pc ≠ OneDone index) → one_ok n L (set_pc pc (set_starts st o))).
  { intros L pc Hpc. constructor; simpl; [lia|done|]. by intros index ?%Hpc. }
  destruct (if con then raft rs else None) as [p|] eqn:Ep; [|by apply set_one_inv, Hone].
  assert (Hp : raft rs = Some p) by (by destruct con). rewrite (sk_raft _ _ _ _ _ Hok p Hp), Hrf. cbn [enabled outcome_bind o_cmd set_starts].
  destruct (Start_wf _ (Some (o_cmd o)) rf (feed_wf _ _ _ _ _ (ti_feed _ _ Hinv) Hrf)) as (rf' & [[i1 term] ok] & -> & _).
  cbn [run_go outcome_bind]. simpl snd. apply cluster_safe; [done|]. intros c' Hstep.
  assert (Hinv' : test_inv n (set_cluster c' w)).
  { apply (cluster_inv_step n w (EvStart st (Some (o_cmd o)))); try done. by eexists. }
  apply set_one_inv; [done|]. apply Hone. by destruct ok.
Qed.

Lemma one_safe n w t o ev : test_inv n w → ones w !! t = Some o → safe n (one_step t ev o w).
Proof.
  intros Hinv Ho. pose proof (ti_one _ _ Hinv t o Ho) as [O1 O2 O3]. unfold one_step.
  destruct ev; try done; destruct (o_pc o) as [[|k]|index|index|] eqn:Epc; try done.
  - apply set_one_inv; [done|]. constructor; simpl; try done. intros k [= E]. pose proof (ti_srvs _ _ Hinv). lia.
  - by apply try_start_safe.
  - destruct (nCommitted_ok (test_log w) index (srvs (test w))) as (nd & c & -> & _ & Hc); [intros rs; by apply (all_agree n)|].
    cbn [run_go outcome_bind]. destruct (_ && _) eqn:E; [|done].
    apply andb_true_iff in E as [[H1%Z.ltb_lt _]%andb_true_iff H2%bool_decide_eq_true].
    apply set_one_inv; [done|]. constructor; simpl; try done. intros i [= <-]. rewrite <- H2. by apply Hc.
  - apply set_one_inv; [done|]. by constructor.
  - apply set_one_inv; [done|]. by destruct (retry o); constructor.
Qed.

Lemma test_step_safe n w ev : test_inv n w → nil_snapshot ev w = false → safe n (test_step ev w).
Proof.
  intros Hinv Hnil. destruct ev as [ev|i c|i|i|i|i|i|i b|t c ex rt|t|t|t].
  - cbn [test_step]. destruct (network_event ev) eqn:Hev; [|done]. destruct (actor ev _) as [i|]; [destruct (is_up i w); [|done]|];
      simpl; (apply cluster_safe; [done|]; intros c'; apply cluster_inv_step; try done; by destruct ev).
  - cbn [test_step]. destruct ((srvs (test w)).[i]) as [rs|]; cbn [enabled outcome_bind]; [|done].
    destruct (raft rs) as [p|]; cbn [enabled outcome_bind]; [|done].
    apply cluster_safe; [done|]. intros c'. apply cluster_inv_step; try done. by eexists.
  - by apply apply_safe.
  - by apply read_safe.
  - by apply snapshot_safe.
  - by apply shutdown_safe.
  - by apply restart_safe.
  - cbn [test_step]. destruct ((connected w).[i]); cbn [enabled outcome_bind]; [|done].
    destruct Hinv as [I1 I2 I3 I4 I5 I6 I7 I8]. constructor; try done. simpl. by rewrite length_insert.
  - cbn [test_step]. destruct (ones w !! t); [done|]. apply set_one_inv; [done|]. by constructor.
  - cbn [test_step]. destruct (ones w !! t) eqn:Ho; cbn [enabled outcome_bind]; [|done]. by apply one_safe.
  - cbn [test_step]. destruct (ones w !! t) eqn:Ho; cbn [enabled outcome_bind]; [|done]. by apply one_safe.
  - cbn [test_step]. destruct (ones w !! t) eqn:Ho; cbn [enabled outcome_bind]; [|done]. by apply one_safe.
Qed.

(** A step that is made was not of that kind. *)
Lemma nil_snapshot_panics ev w : nil_snapshot ev w = true → test_step ev w = Panic.
Proof.
  destruct ev as [| | | |i| | | | | | |]; try done. simpl. destruct ((srvs (test w)).[i]) as [rs|]; [|done].
  destruct ((readers w).[i]) as [rd|]; [|done]. cbn [enabled outcome_bind].
  intros [->%bool_decide_eq_true [[[index b] err] ->]%bool_decide_eq_true]%andb_true_iff. done.
Qed.

Lemma test_step_next n ev w w' : test_inv n w → test_step ev w = Next w' → test_inv n w'.
Proof.
  intros Hinv Hs. pose proof (test_step_safe n w ev Hinv) as H. rewrite Hs in H. apply H.
  apply not_true_is_false. intros Hnil%nil_snapshot_panics. congruence.
Qed.

Lemma makeTest_inv n : test_inv n (makeTest n sn).
Proof.
  constructor; simpl; try done.
  - apply feed_init.
  - by rewrite length_fmap, length_seq.
  - by rewrite length_replicate.
  - by rewrite length_replicate.
  - intros i rs rd rf Hrs Hrd [Hr ->]%init_node. rewrite go_index_lookup in Hrs by lia. rewrite go_index_lookup in Hrd by lia.
    apply list_lookup_fmap_Some in Hrs as (k & -> & Hk%lookup_seq). apply lookup_replicate in Hrd as [-> _].
    constructor; simpl; try done.
    + exists 0. split_and!; try done; [intros j Hj; lia|]. by exists 0.
    + intros p [= <-]. lia.
Qed.

(** Runs of the tester. *)
Inductive test_reaches w0 : TestWorld → Prop :=
| test_refl : test_reaches w0 w0
| test_next ev w w' : test_reaches w0 w → test_step ev w = Next w' → test_reaches w0 w'.

Definition test_reachable (n : nat) w : Prop := test_reaches (makeTest n sn) w.

Lemma test_reaches_inv n w0 w : test_inv n w0 → test_reaches w0 w → test_inv n w.
Proof.
  intros H0. induction 1 as [|ev w w' _ IH Hs]; [done|]. eapply test_step_next; [exact IH|exact Hs].
Qed.

Lemma test_reachable_inv n w : test_reachable n w → test_inv n w.
Proof. apply test_reaches_inv, makeTest_inv. Qed.

Lemma test_run_reaches evs w0 w w' : test_reaches w0 w → test_run evs w = Next w' → test_reaches w0 w'.
Proof.
  revert w. induction evs as [|ev evs IH]; intros w Hr; simpl; [by intros [= <-]|].
  destruct (test_step ev w) as [w1| |] eqn:Hs; try done. simpl. apply IH. by eapply test_next.
Qed.

(** ** What is read at different moments *)

(** An event of the tester is at most one of the cluster. *)
Lemma test_step_cluster ev w w' :
  test_step ev w = Next w' → tcluster w' = tcluster w ∨ ∃ e, step e (tcluster w) = Next (tcluster w').
Proof.
  destruct ev as [ev|i c|i|i|i|i|i|i b|t c ex rt|t|t|t]; cbn [test_step]; unfold one_step, try_start, read, fatal, ShutdownServer, StartServer; intros H;
    repeat (match goal with
      | H : Disabled = Next _ |- _ => discriminate H
      | H : Panic = Next _ |- _ => discriminate H
      | H : Next _ = Next _ |- _ => injection H as <-
      | H : outcome_bind ?m _ = Next _ |- _ => destruct m eqn:?; cbn [outcome_bind] in H
      | H : match ?x with _ => _ end = Next _ |- _ => destruct x eqn:?
      end); simpl; eauto.
Qed.

Lemma test_reaches_later n w0 w :
  test_inv n w0 → test_reaches w0 w →
  test_log w0 `prefix_of` test_log w ∧ history (tcluster w0) ⊆ history (tcluster w).
Proof.
  intros H0 Hr. induction Hr as [|ev w w' Hr IH Hs]; [done|]. destruct IH as [IH1 IH2].
  pose proof (fd_reach _ _ _ (ti_feed _ _ (test_reaches_inv n w0 w H0 Hr))) as Hreach. unfold test_log in *.
  destruct (test_step_cluster ev w w' Hs) as [->|[e He]]; [done|]. split.
  - etrans; [exact IH1|]. by eapply step_log.
  - etrans; [exact IH2|]. by eapply step_history.
Qed.

(** A server that answered GetState as leader of a term was elected in it. *)
Lemma GetState_elected n w i t :
  test_inv n w → rfsrv_GetState i w = Some (t, true) → HElected i t ∈ history (tcluster w).
Proof.
  intros Hinv. unfold rfsrv_GetState. destruct ((srvs (test w)).[i]) as [rs|] eqn:Hrs; simpl; [|done].
  destruct (raft rs) as [p|] eqn:Hp; simpl; [|done].
  destruct (srv_range n w i rs Hinv Hrs) as (rd & rf & _ & Hrf & Hok). rewrite (sk_raft _ _ _ _ _ Hok p Hp), Hrf. simpl.
  intros [= <- Hl%bool_decide_eq_true].
  pose proof (ci_roles _ _ (reachable_inv _ _ (fd_reach _ _ _ (ti_feed _ _ Hinv))) i rf Hrf) as Hr. by rewrite Hl in Hr.
Qed.

Lemma GetState_term n w i t b : test_inv n w → rfsrv_GetState i w = Some (t, b) → 0 ≤ t.
Proof.
  intros Hinv. unfold rfsrv_GetState. destruct ((srvs (test w)).[i]) as [rs|] eqn:Hrs; simpl; [|done].
  destruct (raft rs) as [p|] eqn:Hp; simpl; [|done]. destruct ((nodes (tcluster w)).[p]) as [rf|] eqn:Hrf; simpl; [|done].
  intros [= <- _]. pose proof (feed_wf _ _ _ _ _ (ti_feed _ _ Hinv) Hrf) as Hwf. pose proof (wf_stable_term _ _ Hwf).
  pose proof (log_wf_last_term_nonneg _ (wf_log _ _ Hwf)). lia.
Qed.

(** [w0] is a moment of a run that has come to [w]. *)
Definition moment n w0 w : Prop := test_reachable n w0 ∧ test_reaches w0 w.

Lemma moment_later n w0 w :
  moment n w0 w → test_inv n w0 ∧ test_log w0 `prefix_of` test_log w ∧ history (tcluster w0) ⊆ history (tcluster w).
Proof. intros [H0%test_reachable_inv Hr]. split; [done|]. by eapply test_reaches_later. Qed.

(** A server that was read at a moment has no error and holds part of today's log. *)
Lemma moment_srv n w0 w i rs : moment n w0 w → (srvs (test w0)).[i] = Some rs → applyErr rs = None ∧ agrees (test_log w) rs.
Proof.
  intros (Hinv & Hp & _)%moment_later Hi. destruct (srv_range n w0 i rs Hinv Hi) as (rd & rf & _ & _ & Hok).
  split; [apply Hok|]. eapply agrees_mono; [done|apply Hok].
Qed.

(** Two servers that answered as leaders of a term, each at its moment, are one. *)
Lemma moment_leader n w w1 w2 i j t :
  test_inv n w → moment n w1 w → moment n w2 w →
  rfsrv_GetState i w1 = Some (t, true) → rfsrv_GetState j w2 = Some (t, true) → i = j.
Proof.
  intros Hinv (I1 & _ & S1)%moment_later (I2 & _ & S2)%moment_later H1 H2.
  eapply elected_unique; [apply reachable_inv, (fd_reach _ _ _ (ti_feed _ _ Hinv))|apply S1|apply S2]; by eapply GetState_elected.
Qed.

(** C13 (The checks of the Raft tests).  Whatever the tests do (start commands,
    disconnect servers, shut servers down at any time and start them again when
    their readers have finished) and whatever the network does, with and without
    snapshots: no check that the test servers make of what is applied fails, and
    nothing panics but one call, that of Snapshot by a server that was shut down
    between applying an index and calling it ([nil_snapshot]); the call of Snapshot
    that a server which is up is about to make is accepted; [nCommitted], reading
    each server's copy at a moment of its own, finds no two different commands, and
    what it returns is the agreed one; [checkOneLeader_round], asking each server at
    a moment of its own, never finds two leaders of a term, and names a leader of the
    last term that has one; and when [one] returns an index, its command is agreed at
    that index.  That [one] and checkOneLeader give up after their time is not a
    failure in this sense. *)
Theorem raft_tests_pass n w :
  test_reachable n w →
  (∀ ev, test_step ev w = Panic ↔ nil_snapshot ev w = true) ∧
  (∀ i rs rd, (srvs (test w)).[i] = Some rs → is_Some (raft rs) → (readers w).[i] = Some rd → is_Some (todo rd) →
     ∃ w', test_step (TsSnapshot i) w = Next w') ∧
  (∀ index l, (∀ rs, rs ∈ l → ∃ w0 i, moment n w0 w ∧ (srvs (test w0)).[i] = Some rs) →
     ∃ nd c, nCommitted index l = Some (nd, c) ∧ nd = go_len (filter (λ rs, is_Some (Logs index rs)) l) ∧
       (0 < nd → log_entry (test_log w) index c)) ∧
  (∀ views, NoDup views.*1 → (∀ i v, (i, Some v) ∈ views → ∃ w0, moment n w0 w ∧ rfsrv_GetState i w0 = Some v) →
     match checkOneLeader_round views with
     | None => False
     | Some None => ∀ i t, (i, Some (t, true)) ∉ views
     | Some (Some i) => ∃ t, (i, Some (t, true)) ∈ views ∧ ∀ j t', (j, Some (t', true)) ∈ views → t' ≤ t
     end) ∧
  (∀ t o index, ones w !! t = Some o → o_pc o = OneDone index →
     1 ≤ index ∧ test_log w !! Z.to_nat (index - 1) = Some (o_cmd o)).
Proof.
  intros Hinv%test_reachable_inv.
  split_and!.
  - intros ev. split; [|apply nil_snapshot_panics]. intros E. destruct (nil_snapshot ev w) eqn:Hnil; [done|].
    pose proof (test_step_safe n w ev Hinv Hnil) as H. by rewrite E in H.
  - intros i rs rd Hrs Hup Hrd [[[index b] err] Ht]. by eapply snapshot_accepted.
  - intros index l Hl. apply nCommitted_ok. intros rs Hin. destruct (Hl rs Hin) as (w0 & i & Hm & Hi). by eapply moment_srv.
  - intros views Hnd Hv. apply checkOneLeader_round_ok; [done| |].
    + intros i t b (w0 & Hm & Hg)%Hv. eapply GetState_term; [by apply (moment_later n w0 w)|done].
    + intros i j t (w1 & Hm1 & Hg1)%Hv (w2 & Hm2 & Hg2)%Hv. exact (moment_leader n w w1 w2 i j t Hinv Hm1 Hm2 Hg1 Hg2).
  - intros t o index Ho Hpc. destruct (ok_done _ _ _ (ti_one _ _ Hinv t o Ho) index Hpc) as [[_ [=]]|(Hi & c & [= <-] & Hc)]. done.
Qed.

End mode.
End tester.

(** ** A run *)

#[local] Instance test_raft_codec : Gob (PersistedState Z) := countable_gob (PersistedState Z).
#[local] Instance test_snap_codec : Gob (Z * list (option Z)) := countable_gob (Z * list (option Z)).

(** Server 0 is elected and starts nine commands, which server 1 acknowledges;
    the applier of server 0 sends them and its reader handles them, but for the
    call of Snapshot that index 9 makes due. *)
Definition nine_commands : list (TestEvent (cmd := Z)) :=
  [TsRaft (EvElection 0); TsRaft (EvHandle 0); TsRaft (EvReturn 0)] ++
  [TsOne 7 100 1 false; TsOneTry 7; TsOneTry 7; TsOneTry 7; TsOneTry 7] ++ (TsStart 0 <$> seqZ 101 8) ++
  [TsRaft (EvSend 0 1); TsRaft (EvHandle 2); TsRaft (EvReturn 2)] ++
  replicate 9 (TsApply 0) ++ replicate 9 (TsRead 0).

(** It takes the snapshot, is shut down, and starts again from it. *)
Definition nine_restart : list (TestEvent (cmd := Z)) :=
  nine_commands ++ [TsSnapshot 0; TsOnePoll 7; TsShutdown 0; TsRestart 0; TsConnect 0 true].

Definition test_after (evs : list (TestEvent (cmd := Z))) : TestWorld (cmd := Z) :=
  match test_run evs (makeTest 3 true) with Next w => w | _ => makeTest 3 true end.

Definition at_nine := test_after nine_commands.
Definition restarted := test_after nine_restart.

Lemma at_nine_reachable : test_reachable true 3 at_nine.
Proof. apply (test_run_reaches nine_commands _ (makeTest 3 true)); [constructor|vm_compute; reflexivity]. Qed.

Lemma restarted_reachable : test_reachable true 3 restarted.
Proof. apply (test_run_reaches nine_restart _ (makeTest 3 true)); [constructor|vm_compute; reflexivity]. Qed.

(** The snapshot is due; after the restart the copy of server 0 is what it was,
    and the call of [one] has returned index 1. *)
Lemma raft_tests_pass_witness :
  (∃ w', test_step (TsSnapshot 0) at_nine = Next w') ∧
  (∃ c, nCommitted 9 (srvs (test restarted)) = Some (1, c) ∧ log_entry (test_log restarted) 9 c) ∧
  test_log restarted !! 0%nat = Some 100.
Proof.
  destruct (raft_tests_pass true 3 at_nine at_nine_reachable) as (_ & Hsnap & _).
  destruct (raft_tests_pass true 3 restarted restarted_reachable) as (_ & _ & Hn & _ & Hone). split_and!.
  - assert (E : match (srvs (test at_nine)).[0], (readers at_nine).[0] with Some rs, Some rd => bool_decide (is_Some (raft rs)) && bool_decide (is_Some (todo rd)) | _, _ => false end = true)
      by (vm_compute; reflexivity).
    destruct ((srvs (test at_nine)).[0]) as [rs|] eqn:Hrs; [|done]. destruct ((readers at_nine).[0]) as [rd|] eqn:Hrd; [|done].
    apply andb_true_iff in E as [Eu Et]. exact (Hsnap 0 rs rd Hrs (bool_decide_eq_true_1 _ Eu) Hrd (bool_decide_eq_true_1 _ Et)).
  - destruct (Hn 9 (srvs (test restarted))) as (nd & c & E & _ & Hc).
    + intros rs [i Hi]%list_elem_of_lookup. exists restarted, (Z.of_nat i). split; [|rewrite go_index_nat; exact Hi].
      split; [exact restarted_reachable|constructor].
    + exists c. assert (Ed : fst <$> nCommitted 9 (srvs (test restarted)) = Some 1) by (vm_compute; reflexivity).
      rewrite E in Ed. injection Ed as ->. split; [exact E|]. apply Hc. lia.
  - assert (E : (λ o, (o_cmd o, o_pc o)) <$> ones restarted !! 7%nat = Some (100, OneDone 1)) by (vm_compute; reflexivity).
    destruct (ones restarted !! 7%nat) as [o|] eqn:Ho; [|done]. injection E as Ec Ep.
    destruct (Hone 7%nat o 1 Ho Ep) as [_ H]. rewrite <- Ec. exact H.
Defined.

(** (A server killed before it calls Snapshot).  applierSnap reads rs.raft without
    the lock that Kill holds when it sets it to nil: a server shut down between
    applying index 9 and calling Snapshot dereferences nil. *)
Theorem kill_before_snapshot_panics :
  test_reachable true 3 at_nine ∧
  ∃ w, test_step (TsShutdown 0) at_nine = Next w ∧ test_step (TsSnapshot 0) w = Panic.
Proof.
  split; [exact at_nine_reachable|].
  assert (H : match test_step (TsShutdown 0) at_nine with
              | Next w => match test_step (TsSnapshot 0) w with Panic => true | _ => false end
              | _ => false
              end = true) by (vm_compute; reflexivity).
  destruct (test_step (TsShutdown 0) at_nine) as [w| |]; [|done..]. exists w. split; [done|].
  by destruct (test_step (TsSnapshot 0) w).
Qed.
