(* ===== verification/RaftCheck.v ===== *)
(** * The checkers of raft1/test.go that wait

    RaftTest.v models one round of [checkOneLeader], [nCommitted] and [one].  Here
    are the checkers built on them: all rounds of [checkOneLeader], [checkTerms],
    [checkNoLeader], [checkNoAgreement] and [wait], with the time they sleep.

    What a checker reads while the cluster runs on is an argument: [views] is what
    GetState answered on each server, [None] on one that is not connected, and a
    list of servers is what [nCommitted] read.  The checkers that read again and
    again take a function from the number of the round.  The theorems ask of each
    read that it was made at some [moment] of the run, so every interleaving of a
    checker with the servers is one they speak of.  Times are milliseconds. *)

From S2P Require Import Prelude RaftUtil RaftNode RaftLog RaftWf RaftOps RaftRepl Cluster LogTree ElectionSafety Protocol LogMatching Completeness StateMachineSafety SnapshotFlow AppliedLog RaftTest.
Local Open Scope Z_scope.
Local Open Scope go_scope.

(** Why a checker stops the test. *)
Inductive CheckFailure :=
| MultipleLeaders
| NoLeader
| TermDisagreed (prev term i xterm : Z)   (* the two nodes it names, with their terms *)
| UnexpectedLeader (i : Z)
| UnexpectedAgreement (n : Z)
| FewCommitted (nd : Z)
| Unmatched                    (* nCommitted stopped the test *)
| NilRaft.                     (* GetState of a server without a peer *)

Inductive Verdict A :=
| Pass (a : A)
| Fatalf (why : CheckFailure).
#[global] Arguments Pass {_} _.
#[global] Arguments Fatalf {_} _.

(** ** checkOneLeader, checkTerms and checkNoLeader *)

Section rounds.
(** What the servers answered in a round, and what rand.Int63 gave. *)
Variable views : nat → list (Z * option (Z * bool)).
Variable Int63 : nat → Z.

Fixpoint checkOneLeader_loop (fuel iters : nat) (slept : Z) : Z * Verdict Z :=
  match fuel with
  | O => (slept, Fatalf NoLeader)
  | S fuel =>
      let ms := 450 + Z.rem (Int63 iters) 100 in
      let slept := slept + ms in
      match checkOneLeader_round (views iters) with
      | None => (slept, Fatalf MultipleLeaders)
      | Some (Some i) => (slept, Pass i)
      | Some None => checkOneLeader_loop fuel (S iters) slept
      end
  end.

Definition checkOneLeader : Z * Verdict Z := checkOneLeader_loop 10 0 0.
End rounds.

Fixpoint checkTerms_loop (views : list (Z * option (Z * bool))) (term : Z) : Verdict Z :=
  match views with
  | [] => Pass term
  | (i, Some (xterm, _)) :: views =>
      if term =? -1 then checkTerms_loop views xterm
      else if negb (term =? xterm) then Fatalf (TermDisagreed (i - 1) term i xterm)
      else checkTerms_loop views term
  | (i, None) :: views => checkTerms_loop views term
  end.

Definition checkTerms (views : list (Z * option (Z * bool))) : Verdict Z := checkTerms_loop views (-1).

Fixpoint checkNoLeader (views : list (Z * option (Z * bool))) : Verdict () :=
  match views with
  | [] => Pass ()
  | (i, Some (_, true)) :: views => Fatalf (UnexpectedLeader i)
  | _ :: views => checkNoLeader views
  end.

(** ** checkNoAgreement and wait *)

Section committed.
Context {cmd : Type} `{!EqDecision cmd}.
Implicit Types l : list (rfsrv (cmd := cmd)).

Definition checkNoAgreement (index : Z) l : Verdict () :=
  match nCommitted index l with
  | None => Fatalf Unmatched
  | Some (n, _) => if 0 <? n then Fatalf (UnexpectedAgreement n) else Pass ()
  end.

(** One round of [wait]: what nCommitted read, and what GetState of each peer
    answered, [None] for a server that holds none. *)
Record Round := mkRound {
  copies : list (rfsrv (cmd := cmd));
  terms : list (option Z)
}.

(** Its result, -1 being [MovedOn]. *)
Inductive Waited :=
| Committed (c : option cmd)
| MovedOn.

(** [for _, rs := range ts.srvs { if t, _ := rs.raft.GetState(); t > startTerm { return -1 } }] *)
Fixpoint moved_on (startTerm : Z) (terms : list (option Z)) : option bool :=
  match terms with
  | [] => Some false
  | None :: _ => None
  | Some t :: terms => if startTerm <? t then Some true else moved_on startTerm terms
  end.

(** [to *= 2] while it is below a second. *)
Definition next_to (to : Z) : Z := if to <? 1000 then to * 2 else to.

Section wait.
Variables (index n startTerm : Z) (rounds : nat → Round).

(** The loop, which leaves with [None] to read once more. *)
Fixpoint wait_loop (fuel iters : nat) (to slept : Z) : Z * option (Verdict Waited) :=
  match fuel with
  | O => (slept, None)
  | S fuel =>
      match nCommitted index (copies (rounds iters)) with
      | None => (slept, Some (Fatalf Unmatched))
      | Some (nd, _) =>
          if n <=? nd then (slept, None)
          else
            let slept := slept + to in
            let to := next_to to in
            match (if -1 <? startTerm then moved_on startTerm (terms (rounds iters)) else Some false) with
            | None => (slept, Some (Fatalf NilRaft))
            | Some true => (slept, Some (Pass MovedOn))
            | Some false => wait_loop fuel (S iters) to slept
            end
      end
  end.

Definition wait (last : list (rfsrv (cmd := cmd))) : Z * Verdict Waited :=
  match wait_loop 30 0 10 0 with
  | (slept, Some v) => (slept, v)
  | (slept, None) =>
      (slept,
       match nCommitted index last with
       | None => Fatalf Unmatched
       | Some (nd, cmd) => if nd <? n then Fatalf (FewCommitted nd) else Pass (Committed cmd)
       end)
  end.
End wait.
End committed.

(** ** What the checkers decide *)

Lemma checkOneLeader_loop_spec views Int63 fuel iters slept :
  (∀ k, 0 ≤ Int63 k) →
  let '(slept', v) := checkOneLeader_loop views Int63 fuel iters slept in
  slept' ≤ slept + 549 * Z.of_nat fuel ∧
  match v with
  | Pass i => ∃ k, (iters ≤ k < iters + fuel)%nat ∧ checkOneLeader_round (views k) = Some (Some i) ∧
                ∀ j, (iters ≤ j < k)%nat → checkOneLeader_round (views j) = Some None
  | Fatalf NoLeader => slept + 450 * Z.of_nat fuel ≤ slept' ∧
                ∀ j, (iters ≤ j < iters + fuel)%nat → checkOneLeader_round (views j) = Some None
  | Fatalf MultipleLeaders => ∃ k, (iters ≤ k < iters + fuel)%nat ∧ checkOneLeader_round (views k) = None
  | _ => False
  end.
Proof.
  intros Hr. revert iters slept. induction fuel as [|fuel IH]; intros iters slept; [simpl; split_and!; try lia; intros; lia|].
  cbn [checkOneLeader_loop]. pose proof (Z.rem_bound_pos (Int63 iters) 100 (Hr iters) ltac:(lia)) as Hms.
  destruct (checkOneLeader_round (views iters)) as [[i|]|] eqn:E.
  - split; [lia|]. exists iters. split_and!; [lia|lia|done|]. intros; lia.
  - specialize (IH (S iters) (slept + (450 + Z.rem (Int63 iters) 100))).
    destruct (checkOneLeader_loop _ _ _ _ _) as [slept' v]. destruct IH as [IH1 IH2]. split; [lia|]. destruct v as [i|[]]; try done.
    + destruct IH2 as (k & Hk & Ek & Hb). exists k. split_and!; [lia|lia|done|]. intros j Hj.
      destruct (decide (j = iters)) as [->|]; [done|]. apply Hb. lia.
    + destruct IH2 as (k & Hk & Ek). exists k. split; [lia|done].
    + destruct IH2 as [Hs Hb]. split; [lia|]. intros j Hj. destruct (decide (j = iters)) as [->|]; [done|]. apply Hb. lia.
  - split; [lia|]. exists iters. split; [lia|done].
Qed.

(** From a term that was read ([0 ≤ term]) on, every server must have it. *)
Lemma checkTerms_loop_spec views term :
  0 ≤ term →
  match checkTerms_loop views term with
  | Pass t => t = term ∧ ∀ i x b, (i, Some (x, b)) ∈ views → x = term
  | Fatalf (TermDisagreed _ t i x) => t = term ∧ t ≠ x ∧ ∃ b, (i, Some (x, b)) ∈ views
  | Fatalf _ => False
  end.
Proof.
  intros Hp. induction views as [|[i [[x b]|]] views IH]; simpl.
  - split; [done|]. intros i x b []%not_elem_of_nil.
  - replace (term =? -1) with false by lia. destruct (Z.eqb_spec term x) as [<-|Hne]; simpl.
    + destruct (checkTerms_loop views term) as [t|[]]; try done.
      * destruct IH as [-> IH]. split; [done|]. intros j x c [[= _ -> _]|H]%elem_of_cons; [done|by eapply IH].
      * destruct IH as (-> & Hne & c & Hin). split_and!; [done|done|]. exists c. by right.
    + split_and!; [done|done|]. exists b. by left.
  - destruct (checkTerms_loop views term) as [t|[]]; try done.
    + destruct IH as [-> IH]. split; [done|]. intros j x c [[=]|H]%elem_of_cons. by eapply IH.
    + destruct IH as (-> & Hne & c & Hin). split_and!; [done|done|]. exists c. by right.
Qed.

(** checkTerms returns the term of all connected servers, or -1 if there are none,
    and stops the test exactly when two of them have different ones. *)
Lemma checkTerms_spec views :
  (∀ i x b, (i, Some (x, b)) ∈ views → 0 ≤ x) →
  match checkTerms views with
  | Pass t => (∀ i x b, (i, Some (x, b)) ∈ views → x = t) ∧ ((∃ i b, (i, Some (t, b)) ∈ views) ∨ t = -1 ∧ ∀ i v, (i, Some v) ∉ views)
  | Fatalf (TermDisagreed _ t i x) => t ≠ x ∧ (∃ b, (i, Some (x, b)) ∈ views) ∧ ∃ j b, (j, Some (t, b)) ∈ views
  | Fatalf _ => False
  end.
Proof.
  unfold checkTerms. induction views as [|[i [[x b]|]] views IH]; intros Hp; simpl.
  - split; [intros i x b []%not_elem_of_nil|]. right. split; [done|]. intros i v []%not_elem_of_nil.
  - assert (H0 : 0 ≤ x) by (eapply (Hp i x b); by left). pose proof (checkTerms_loop_spec views x H0) as H.
    destruct (checkTerms_loop views x) as [t|[]]; try done.
    + destruct H as [-> H]. split; [|left; exists i, b; by left]. intros j y c [[= _ -> _]|Hin]%elem_of_cons; [done|by eapply H].
    + destruct H as (-> & Hne & c & Hin). split_and!; [done|exists c; by right|]. exists i, b. by left.
  - destruct (checkTerms_loop views (-1)) as [t|[]]; simpl in IH; (specialize (IH ltac:(intros; eapply Hp; by right)); try done).
    + destruct IH as [IH1 IH2]. split; [intros j x b [[=]|H]%elem_of_cons; by eapply IH1|].
      destruct IH2 as [(j & b & Hin)|[-> Hno]]; [left; exists j, b; by right|]. right. split; [done|].
      intros j v [[=]|H]%elem_of_cons. by eapply Hno.
    + destruct IH as (Hne & [b Hin] & j & c & Hin'). split_and!; [done|exists b; by right|]. exists j, c. by right.
Qed.

Lemma checkNoLeader_spec views :
  match checkNoLeader views with
  | Pass _ => ∀ i t, (i, Some (t, true)) ∉ views
  | Fatalf (UnexpectedLeader i) => ∃ t, (i, Some (t, true)) ∈ views
  | Fatalf _ => False
  end.
Proof.
  induction views as [|[i [[x []]|]] views IH]; simpl; [by intros i t []%not_elem_of_nil|exists x; by left|..].
  all: destruct (checkNoLeader views) as [|[]]; try done.
  1, 3: intros j t [[=]|H]%elem_of_cons; by eapply IH.
  all: destruct IH as [t H]; exists t; by right.
Qed.

Lemma moved_on_spec startTerm terms :
  match moved_on startTerm terms with
  | None => None ∈ terms
  | Some true => ∃ t, Some t ∈ terms ∧ startTerm < t
  | Some false => ∀ t, t ∈ terms → ∃ x, t = Some x ∧ x ≤ startTerm
  end.
Proof.
  induction terms as [|[t|] terms IH]; simpl; [by intros t []%not_elem_of_nil| |by left].
  destruct (Z.ltb_spec startTerm t) as [Hlt|Hge]; [exists t; split; [by left|done]|].
  destruct (moved_on startTerm terms) as [[]|].
  - destruct IH as (x & Hin & Hx). exists x. split; [by right|done].
  - intros x [->|Hin]%elem_of_cons; [by exists t|by apply IH].
  - by right.
Qed.

(** What [wait] sleeps when it goes through all its rounds. *)
Fixpoint sleeps (fuel : nat) (to : Z) : Z :=
  match fuel with O => 0 | S fuel => to + sleeps fuel (next_to to) end.

Lemma next_to_nonneg to : 0 ≤ to → 0 ≤ next_to to.
Proof. unfold next_to. destruct (to <? 1000); lia. Qed.

Lemma sleeps_nonneg fuel to : 0 ≤ to → 0 ≤ sleeps fuel to.
Proof. revert to. induction fuel as [|fuel IH]; intros to Ht; simpl; [lia|]. specialize (IH _ (next_to_nonneg to Ht)). lia. Qed.

Section wait_spec.
Context {cmd : Type} `{!EqDecision cmd}.
Variables (index n startTerm : Z) (rounds : nat → Round (cmd := cmd)) (L : list cmd).

(** The servers whose copies hold the index. *)
Definition holders (l : list (rfsrv (cmd := cmd))) : Z := go_len (filter (λ rs, is_Some (Logs index rs)) l).

(** Copies as nCommitted wants them: of one log, and without an error. *)
Definition sound (l : list (rfsrv (cmd := cmd))) : Prop := ∀ rs, rs ∈ l → applyErr rs = None ∧ agrees L rs.

Lemma wait_loop_spec fuel iters to slept :
  (∀ k, sound (copies (rounds k))) → 0 ≤ to →
  let '(slept', v) := wait_loop index n startTerm rounds fuel iters to slept in
  slept ≤ slept' ≤ slept + sleeps fuel to ∧
  match v with
  | None => slept' = slept + sleeps fuel to ∨ ∃ k, (iters ≤ k < iters + fuel)%nat ∧ n ≤ holders (copies (rounds k))
  | Some (Pass MovedOn) => -1 < startTerm ∧ ∃ k t, (iters ≤ k < iters + fuel)%nat ∧ Some t ∈ terms (rounds k) ∧ startTerm < t
  | Some (Fatalf NilRaft) => -1 < startTerm ∧ ∃ k, (iters ≤ k < iters + fuel)%nat ∧ None ∈ terms (rounds k)
  | Some _ => False
  end.
Proof.
  intros Hs. revert iters to slept. induction fuel as [|fuel IH]; intros iters to slept Ht; cbn [wait_loop sleeps]; [split; [lia|left; lia]|].
  destruct (nCommitted_ok L index _ (Hs iters)) as (nd & c & -> & Hnd & _). fold (holders (copies (rounds iters))) in Hnd.
  pose proof (next_to_nonneg to Ht) as Ht'. pose proof (sleeps_nonneg fuel _ Ht').
  destruct (Z.leb_spec n nd); [split; [lia|]; right; exists iters; split; lia|].
  pose proof (moved_on_spec startTerm (terms (rounds iters))) as Hm.
  specialize (IH (S iters) (next_to to) (slept + to) Ht').
  destruct (wait_loop _ _ _ _ _ _ _ _) as [slept' v].
  assert (Hgo : slept ≤ slept' ≤ slept + (to + sleeps fuel (next_to to)) ∧
    match v with
    | None => slept' = slept + (to + sleeps fuel (next_to to)) ∨ ∃ k, (iters ≤ k < iters + S fuel)%nat ∧ n ≤ holders (copies (rounds k))
    | Some (Pass MovedOn) => -1 < startTerm ∧ ∃ k t, (iters ≤ k < iters + S fuel)%nat ∧ Some t ∈ terms (rounds k) ∧ startTerm < t
    | Some (Fatalf NilRaft) => -1 < startTerm ∧ ∃ k, (iters ≤ k < iters + S fuel)%nat ∧ None ∈ terms (rounds k)
    | Some _ => False
    end).
  { destruct IH as [IH1 IH2]. split; [lia|]. destruct v as [[[]|[]]|]; try done.
    - destruct IH2 as (Hst & k & t & Hk & Hin). split; [done|]. exists k, t. split; [lia|done].
    - destruct IH2 as (Hst & k & Hk & Hin). split; [done|]. exists k. split; [lia|done].
    - destruct IH2 as [->|(k & Hk & Hn)]; [left; lia|]. right. exists k. split; [lia|done]. }
  destruct (Z.ltb_spec (-1) startTerm); [|exact Hgo]. destruct (moved_on _ _) as [[]|]; [|exact Hgo|].
  - split; [lia|]. split; [done|]. destruct Hm as (t & Hin & Ht2). exists iters, t. split; [lia|done].
  - split; [lia|]. split; [done|]. exists iters. split; [lia|done].
Qed.
End wait_spec.

(** ** The checkers on the servers *)

Section on_cluster.
Context {cmd : Type} `{!EqDecision cmd}.
Context `{!Gob (PersistedState cmd)} `{!Gob (Z * list (option cmd))}.
Variables (sn : bool) (n : nat).
Implicit Types w : TestWorld (cmd := cmd).

(** Each server was read at a moment of its own. *)
Definition read_servers w (l : list (rfsrv (cmd := cmd))) : Prop :=
  ∀ rs, rs ∈ l → ∃ w0 i, moment sn n w0 w ∧ (srvs (test w0)).[i] = Some rs.

Definition read_views w (views : list (Z * option (Z * bool))) : Prop :=
  NoDup views.*1 ∧ ∀ i v, (i, Some v) ∈ views → ∃ w0, moment sn n w0 w ∧ rfsrv_GetState i w0 = Some v.

Lemma read_sound w l : read_servers w l → sound (test_log w) l.
Proof. intros Hl rs (w0 & i & Hm & Hi)%Hl. by eapply moment_srv. Qed.

Lemma read_terms w views i x b : read_views w views → (i, Some (x, b)) ∈ views → 0 ≤ x.
Proof. intros [_ Hv] (w0 & Hm & Hg)%Hv. eapply GetState_term; [by apply (moment_later sn n w0 w)|done]. Qed.

Lemma read_leader w views i j t :
  test_inv sn n w → read_views w views → (i, Some (t, true)) ∈ views → (j, Some (t, true)) ∈ views → i = j.
Proof. intros Hinv [_ Hv] (w1 & H1 & G1)%Hv (w2 & H2 & G2)%Hv. exact (moment_leader sn n w w1 w2 i j t Hinv H1 H2 G1 G2). Qed.

Lemma read_round w views :
  test_inv sn n w → read_views w views →
  match checkOneLeader_round views with
  | None => False
  | Some None => ∀ i t, (i, Some (t, true)) ∉ views
  | Some (Some i) => ∃ t, (i, Some (t, true)) ∈ views ∧ ∀ j t', (j, Some (t', true)) ∈ views → t' ≤ t
  end.
Proof.
  intros Hinv Hv. apply checkOneLeader_round_ok; [apply Hv| |].
  - intros i t b. by apply (read_terms w).
  - intros i j t. by apply (read_leader w).
Qed.

(** (checkOneLeader).  Over every interleaving of its ten rounds with the servers,
    checkOneLeader never sees two leaders of a term.  It returns a leader of the
    last term that has one, from the first round in which anybody was leader, and
    stops the test only after 4.5 seconds in which nobody was. *)
Theorem checkOneLeader_names_leader w views Int63 :
  test_reachable sn n w → (∀ k, read_views w (views k)) → (∀ k, 0 ≤ Int63 k) →
  let '(slept, v) := checkOneLeader views Int63 in
  slept ≤ 5490 ∧
  match v with
  | Pass i => ∃ k t, (k < 10)%nat ∧ (i, Some (t, true)) ∈ views k ∧
                (∀ j t', (j, Some (t', true)) ∈ views k → t' ≤ t ∧ (t' = t → j = i)) ∧
                ∀ k' j t', (k' < k)%nat → (j, Some (t', true)) ∉ views k'
  | Fatalf NoLeader => 4500 ≤ slept ∧ ∀ k j t, (k < 10)%nat → (j, Some (t, true)) ∉ views k
  | Fatalf _ => False
  end.
Proof.
  intros Hinv%test_reachable_inv Hv Hr. pose proof (checkOneLeader_loop_spec views Int63 10 0 0 Hr) as H.
  assert (Hround := λ k, read_round w (views k) Hinv (Hv k)).
  fold (checkOneLeader views Int63) in H. destruct (checkOneLeader views Int63) as [slept v]. destruct H as [Hs H]. split; [lia|].
  destruct v as [i|[]]; try done.
  - destruct H as (k & Hk & E & Hb). pose proof (Hround k) as Hik. rewrite E in Hik. destruct Hik as (t & Hin & Hmax).
    exists k, t. split_and!; [lia|done| |].
    + intros j t' Hj. split; [by eapply Hmax|]. intros ->. by eapply (read_leader w).
    + intros k' j t' Hk'. pose proof (Hround k') as H. rewrite Hb in H by lia. apply H.
  - destruct H as (k & _ & E). pose proof (Hround k) as H. by rewrite E in H.
  - destruct H as [Hs' Hb]. split; [lia|]. intros k j t Hk. pose proof (Hround k) as H. rewrite Hb in H by lia. apply H.
Qed.

(** (checkTerms).  When checkTerms passes, it returns the term of every connected
    server, and at most one of them believes it is leader. *)
Theorem checkTerms_one_leader w views t :
  test_reachable sn n w → read_views w views → checkTerms views = Pass t →
  (∀ i x b, (i, Some (x, b)) ∈ views → x = t) ∧
  ∀ i j x y, (i, Some (x, true)) ∈ views → (j, Some (y, true)) ∈ views → i = j.
Proof.
  intros Hinv%test_reachable_inv Hv E. pose proof (checkTerms_spec views (λ i x b, read_terms w views i x b Hv)) as H.
  rewrite E in H. destruct H as [H _]. split; [exact H|]. intros i j x y Hi Hj.
  rewrite (H _ _ _ Hi) in Hi. rewrite (H _ _ _ Hj) in Hj. by apply (read_leader w views i j t).
Qed.

(** (checkNoAgreement).  It passes exactly when no copy holds the index; so it
    passes on every index that is not agreed yet. *)
Theorem checkNoAgreement_spec w index l :
  test_reachable sn n w → read_servers w l →
  checkNoAgreement index l = (if 0 <? holders index l then Fatalf (UnexpectedAgreement (holders index l)) else Pass ()) ∧
  (go_len (test_log w) < index → checkNoAgreement index l = Pass ()).
Proof.
  intros Hinv%test_reachable_inv Hl%read_sound. unfold checkNoAgreement.
  destruct (nCommitted_ok (test_log w) index l Hl) as (nd & c & -> & Hnd & Hc). unfold holders. rewrite <- Hnd. split; [done|].
  intros Hi. destruct (Z.ltb_spec 0 nd) as [H|]; [|done]. exfalso. unfold go_len in Hi.
  destruct (Hc H) as [[? _]|(? & x & _ & Hx%lookup_lt_Some)]; lia.
Qed.

(** (wait).  Over every interleaving of its rounds with the servers, wait sleeps at
    most 30.71 seconds and never sees different commands.  The command it returns
    is the agreed one and at least as many copies as asked for hold it; it returns
    -1 only if some server has a later term; it stops the test only if the
    last read shows too few copies, after the whole time or when a round before
    had shown enough, or if GetState is called on a server without a peer. *)
Theorem wait_returns_agreed w index need startTerm rounds last :
  test_reachable sn n w → (∀ k, read_servers w (copies (rounds k))) → read_servers w last → 1 ≤ need →
  let '(slept, v) := wait index need startTerm rounds last in
  0 ≤ slept ≤ 30710 ∧
  match v with
  | Pass (Committed c) => need ≤ holders index last ∧ log_entry (test_log w) index c
  | Pass MovedOn => -1 < startTerm ∧ ∃ k t, (k < 30)%nat ∧ Some t ∈ terms (rounds k) ∧ startTerm < t
  | Fatalf (FewCommitted nd) => nd = holders index last ∧ nd < need ∧
      (slept = 30710 ∨ ∃ k, (k < 30)%nat ∧ need ≤ holders index (copies (rounds k)))
  | Fatalf NilRaft => -1 < startTerm ∧ ∃ k, (k < 30)%nat ∧ None ∈ terms (rounds k)
  | Fatalf _ => False
  end.
Proof.
  intros Hinv%test_reachable_inv Hr Hl Hneed.
  pose proof (wait_loop_spec index need startTerm rounds (test_log w) 30 0 10 0 (λ k, read_sound w _ (Hr k)) ltac:(lia)) as H.
  replace (sleeps 30 10) with 30710 in H by reflexivity. unfold wait.
  destruct (wait_loop _ _ _ _ _ _ _ _) as [slept v]. destruct H as [Hs H]. destruct v as [[[c|]|[]]|]; try done.
  - split; [lia|]. destruct H as (Hst & k & t & Hk & Hin). split; [done|]. exists k, t. split; [lia|done].
  - split; [lia|]. destruct H as (Hst & k & Hk & Hin). split; [done|]. exists k. split; [lia|done].
  - split; [lia|]. destruct (nCommitted_ok (test_log w) index last (read_sound w _ Hl)) as (nd & c & -> & Hnd & Hc).
    fold (holders index last) in Hnd. destruct (Z.ltb_spec nd need); [|split; [lia|apply Hc; lia]].
    split_and!; [done|done|]. destruct H as [->|(k & Hk & Hn)]; [left; lia|]. right. exists k. split; [lia|done].
Qed.
End on_cluster.

(** ** A run *)

#[local] Instance check_raft_codec : Gob (PersistedState Z) := countable_gob (PersistedState Z).
#[local] Instance check_snap_codec : Gob (Z * list (option Z)) := countable_gob (Z * list (option Z)).

Definition seen_views (w : TestWorld (cmd := Z)) : list (Z * option (Z * bool)) := (λ i, (i, rfsrv_GetState i w)) <$> seqZ 0 3.
Definition seen_round (w : TestWorld (cmd := Z)) : Round := mkRound (srvs (test w)) ((λ i, fst <$> rfsrv_GetState i w) <$> seqZ 0 3).

Lemma seen_servers w : test_reachable true 3 w → read_servers true 3 w (srvs (test w)).
Proof.
  intros Hw rs [i Hi]%list_elem_of_lookup. exists w, (Z.of_nat i). split; [split; [done|constructor]|].
  by rewrite go_index_nat.
Qed.

(** Nine commands are agreed, which server 0 alone has applied: wait for one copy
    of index 9 returns at once, wait for two gives up after all its rounds, or with
    -1 when started in term 0; nothing is agreed at index 10; server 0 leads. *)
Example checkers_at_nine :
  (let r := λ _, seen_round at_nine in let l := srvs (test at_nine) in
   wait 9 1 (-1) r l = (0, Pass (Committed (Some 108))) ∧
   wait 9 2 (-1) r l = (30710, Fatalf (FewCommitted 1)) ∧
   wait 9 2 0 r l = (10, Pass MovedOn) ∧
   checkNoAgreement 10 l = Pass ()) ∧
  checkOneLeader (λ _, seen_views at_nine) (λ _, 49) = (499, Pass 0) ∧
  checkNoLeader (seen_views at_nine) = Fatalf (UnexpectedLeader 0).
Proof. vm_compute. split_and!; reflexivity. Qed.

(** The first of these by the theorem. *)
Example wait_at_nine : log_entry (test_log at_nine) 9 (Some 108).
Proof.
  pose proof (wait_returns_agreed true 3 at_nine 9 1 (-1) (λ _, seen_round at_nine) (srvs (test at_nine)) at_nine_reachable
    (λ _, seen_servers _ at_nine_reachable) (seen_servers _ at_nine_reachable) ltac:(lia)) as H.
  destruct (proj1 checkers_at_nine) as [E _]. cbv zeta in E. rewrite E in H. apply H.
Qed.

(** checkTerms blames the node before the one that differs, which it may not have
    asked: servers 0 and 2 are connected, and it reports the term of server 0 as
    that of server 1. *)
Example checkTerms_blames_unread :
  checkTerms [(0, Some (3, true)); (1, None); (2, Some (4, false))] = Fatalf (TermDisagreed 1 3 2 4).
Proof. reflexivity. Qed.

(** A server that is shut down while wait runs makes it dereference nil: it asks
    rs.raft for its term without the check for nil that [one] has. *)
Example wait_nil :
  ∃ w, test_step (TsShutdown 1) at_nine = Next w ∧
  (wait 9 2 5 (λ _, seen_round w) (srvs (test w))).2 = Fatalf NilRaft.
Proof.
  assert (H : match test_step (TsShutdown 1) at_nine with
              | Next w => match (wait 9 2 5 (λ _, seen_round w) (srvs (test w))).2 with Fatalf NilRaft => true | _ => false end
              | _ => false
              end = true) by (vm_compute; reflexivity).
  destruct (test_step (TsShutdown 1) at_nine) as [w| |]; [|done..]. exists w. split; [done|].
  by destruct (wait _ _ _ _ _).2 as [|[]].
Qed.
