(* ===== verification/Progress.v ===== *)
(** * Elections can always succeed

    Raft does not promise that a leader is elected by a given time; it must not get
    into a state from which none can be.  From every reachable state of a cluster of
    two or more peers there is a schedule, with timers that fire only when they are
    armed, that elects a leader: the peer with the most advanced log restarts,
    campaigns until its term is above every other, and collects the votes. *)

From S2P Require Import Prelude RaftUtil RaftNode RaftLog RaftWf RaftOps RaftRepl Cluster LogTree ElectionSafety.
Local Open Scope Z_scope.
Local Open Scope go_scope.

Section progress.
Context {cmd : Type} `{!Gob (PersistedState cmd)}.
Implicit Types (w : World cmd) (rf : Raft cmd) (ev : Event cmd).

(** The ticker of a peer that has not been killed receives from an armed timer. *)
Definition timely ev w : bool :=
  match ev with
  | EvElection i => match (nodes w).[i] with Some rf => electionTimer rf && negb (killed rf) | None => false end
  | _ => true
  end.

Fixpoint timely_run (evs : list (Event cmd)) w : outcome (World cmd) :=
  match evs with
  | [] => Next w
  | ev :: evs => if timely ev w then w' <~ step ev w;; timely_run evs w' else Disabled
  end.

Lemma timely_run_app evs evs' w w1 w2 :
  timely_run evs w = Next w1 → timely_run evs' w1 = Next w2 → timely_run (evs ++ evs') w = Next w2.
Proof.
  revert w. induction evs as [|ev evs IH]; intros w; simpl; [by intros [= ->]|].
  destruct (timely ev w); [|done]. destruct (step ev w) as [w'| |]; simpl; try done. apply IH.
Qed.

Lemma timely_run_reachable n evs w w' : reachable n w → timely_run evs w = Next w' → reachable n w'.
Proof.
  revert w. induction evs as [|ev evs IH]; intros w Hr; simpl; [by intros [= <-]|].
  destruct (timely ev w); [|done]. destruct (step ev w) as [w1| |] eqn:Es; simpl; try done. apply IH. by eapply reachable_step.
Qed.

(** [w'] can be reached from [w] by such a schedule. *)
Definition leads w w' : Prop := ∃ evs, timely_run evs w = Next w'.

Lemma leads_trans w1 w2 w3 : leads w1 w2 → leads w2 w3 → leads w1 w3.
Proof. intros [e1 H1] [e2 H2]. exists (e1 ++ e2). by eapply timely_run_app. Qed.

Lemma leads_step ev w w' : timely ev w = true → step ev w = Next w' → leads w w'.
Proof. intros Ht Hs. exists [ev]. simpl. by rewrite Ht, Hs. Qed.

Lemma leads_reachable n w w' : reachable n w → leads w w' → reachable n w'.
Proof. intros Hr [evs Hrun]. by eapply timely_run_reachable. Qed.

(** ** Campaigns *)

(** Peer [i] is up, and its next campaign is about to start. *)
Record contender n (i : Z) (l : list (LogEntry cmd)) (T : Z) w rf : Prop := {
  ct_reach : reachable n w;
  ct_node : (nodes w).[i] = Some rf;
  ct_log : logs rf = l;
  ct_up : dead rf = false;
  ct_role : state rf ≠ Leader;
  ct_others j x : (nodes w).[j] = Some x → j ≠ i → currentTerm x ≤ T ∧ up_to_date (last_index l) (last_term l) (logs x)
}.

Lemma send_vote_all i args ps w (el := nextElection w) :
  (∀ id c, calls w !! id = Some c → (id < nextCall w)%nat) →
  let w' := foldl (send_vote i args) w ps in
  nodes w' = nodes w ∧ ballots w' = ballots w ∧ nextElection w' = el ∧
  (∀ id c, calls w !! id = Some c → calls w' !! id = Some c) ∧
  ∀ p, p ∈ ps → p ≠ i → ∃ id, calls w' !! id = Some (mkCall i p (ReqVote args el) None true).
Proof.
  unfold el. clear el. revert w. induction ps as [|p ps IH]; intros w Hf; simpl; [split_and!; try done; by intros p ?%elem_of_nil|].
  unfold send_vote at 2 4 6 8 10. destruct (Z.eqb_spec p i) as [->|Hne].
  - destruct (IH w Hf) as (H1 & H2 & H3 & H4 & H5). split_and!; try done. intros q [->|Hq]%elem_of_cons; [done|by apply H5].
  - set (w1 := add_call _ w). destruct (IH w1) as (H1 & H2 & H3 & H4 & H5).
    { intros id c. simpl. intros [[<- _]|[_ Hc%Hf]]%lookup_insert_Some; lia. }
    split_and!; try done.
    + intros id c Hc. apply H4. simpl. rewrite lookup_insert_ne; [done|]. apply Hf in Hc. lia.
    + intros q [->|Hq]%elem_of_cons Hqi; [|by apply H5]. exists (nextCall w). apply H4. simpl. apply lookup_insert_eq.
Qed.

(** One campaign of a contender: its term goes up by one, its request for votes is
    on the way to everyone, and it can campaign again. *)
Lemma campaign (n : nat) i l T w rf :
  contender n i l T w rf → ∃ w' rf',
    leads w w' ∧ contender n i l T w' rf' ∧ state rf' = Candidate ∧ currentTerm rf' = currentTerm rf + 1 ∧
    nodes w' = <[Z.to_nat i := rf']> (nodes w) ∧
    ∃ el, ballots w' !! el = Some 1 ∧
      ∀ p, 0 ≤ p < Z.of_nat n → p ≠ i → ∃ id, calls w' !! id =
        Some (mkCall i p (ReqVote (mkRequestVoteArgs (currentTerm rf') i (last_index l) (last_term l)) el) None true).
Proof.
  intros [Hr Hi Hl Hup Hrole Hoth]. pose proof (reachable_inv _ _ Hr) as Hinv. destruct (ci_nodes _ _ Hinv) as [_ Hns].
  destruct (Hns i rf Hi) as [Hwf Hme].
  destruct (ticker_election_wf _ rf Hwf) as (rf' & Et & Hwf' & Hrep & _ & Hme' & Hp' & Hs' & Hct & _ & Hd).
  injection Hrep as Hlogs _ _ _ _ _ _.
  set (args := mkRequestVoteArgs (currentTerm rf + 1) (me rf) (last_index (logs rf)) (last_term (logs rf))) in *.
  set (w0 := set_ballots (<[nextElection w := 1]> (ballots w)) (record (HCampaign i (rv_Term args) (rv_LastLogIndex args, rv_LastLogTerm args))
    (record (HVote i (rv_Term args) (rv_CandidateId args)) (set_node i rf' w)))).
  destruct (send_vote_all i args (seqZ 0 (peers rf')) w0) as (H1 & H2 & H3 & H4 & H5).
  { intros id c Hc. by apply (ci_calls _ _ Hinv) in Hc as [? _]. }
  set (w' := new_election (broadcast_vote i args (peers rf') w0)).
  assert (Hs : step (EvElection i) w = Next w') by (simpl; unfold step_election; rewrite Hi; simpl; by rewrite Et).
  assert (Hlead : leads w w').
  { apply (leads_step (EvElection i)); [|done]. simpl. rewrite Hi. unfold killed. rewrite Hup.
    pose proof (wf_timer _ _ Hwf) as Ht. rewrite decide_False in Ht by done. by rewrite Ht. }
  assert (Hnodes : nodes w' = <[Z.to_nat i := rf']> (nodes w)) by (simpl; unfold broadcast_vote; by rewrite H1).
  exists w', rf'. split_and!; try done.
  - constructor; try congruence; [by eapply leads_reachable|..].
    + rewrite Hnodes. by rewrite (nodes_insert _ _ rf), decide_True.
    + rewrite Hnodes. intros j x. rewrite (nodes_insert _ _ rf) by done. destruct (decide (i = j)); [congruence|]. apply Hoth.
  - exists (nextElection w). split; [simpl; unfold broadcast_vote; rewrite H2; simpl; apply lookup_insert_eq|].
    intros p Hp Hne. destruct (H5 p) as [id Hid]; [apply elem_of_seqZ; rewrite (wf_peers _ _ Hwf'); lia|done|].
    exists id. simpl. unfold broadcast_vote. rewrite Hid. unfold args. rewrite Hme, Hl, Hct. done.
Qed.

(** Campaigning lifts the term above [T]. *)
Lemma campaign_above (n : nat) i l T w rf :
  contender n i l T w rf → ∃ w' rf', leads w w' ∧ contender n i l T w' rf' ∧ T ≤ currentTerm rf'.
Proof.
  intros Hc. remember (Z.to_nat (T - currentTerm rf)) as k eqn:Ek. revert w rf Hc Ek.
  induction k as [|k IH]; intros w rf Hc Ek.
  { exists w, rf. split_and!; [by exists []|done|lia]. }
  destruct (campaign n i l T w rf Hc) as (w1 & rf1 & Hl1 & Hc1 & _ & Ht1 & _).
  destruct (IH w1 rf1 Hc1) as (w2 & rf2 & Hl2 & Hc2 & Ht2); [lia|]. exists w2, rf2. split_and!; try done. by eapply leads_trans.
Qed.

(** ** Votes *)

(** A peer behind in term with a log that is not ahead grants its vote. *)
Lemma RequestVote_grants n args rf :
  raft_wf n rf → currentTerm rf < rv_Term args → up_to_date (rv_LastLogIndex args) (rv_LastLogTerm args) (logs rf) →
  ∃ rf' r, RequestVote args rf = Some (rf', r) ∧ rvr_VoteGranted r = true.
Proof.
  intros Hwf Hlt Hup. unfold RequestVote. rewrite (proj2 (Z.ltb_ge _ _)), (proj2 (Z.eqb_neq _ _)) by lia. simpl.
  destruct (updateTermAndStepDown_wf n (rv_Term args) rf Hwf) as (rf1 & -> & Hwf1 & [_ Hr] & _). simpl. injection Hr as Hlog _ _ _ _ _ _.
  destruct (isLogUpdateToDate_wf (rv_LastLogIndex args) (rv_LastLogTerm args) rf1) as (b & -> & Hb); [apply Hwf1|].
  rewrite Hlog in Hb. simpl. rewrite (proj2 Hb Hup). simpl. by eexists _, _.
Qed.

(** The candidate [i] still needs votes and the peers [ps] have yet to give theirs,
    or it leads already. *)
Record collecting (n : nat) (i : Z) (args : RequestVoteArgs) (el : nat) (ps : list Z) w : Prop := {
  cl_reach : reachable n w;
  cl_peers : NoDup ps ∧ i ∉ ps;
  cl_self : ∃ rf g, (nodes w).[i] = Some rf ∧ ballots w !! el = Some g ∧
    (state rf = Leader ∨
     (state rf = Candidate ∧ currentTerm rf = rv_Term args ∧ g ≤ Z.of_nat n / 2 < g + go_len ps));
  cl_calls p : p ∈ ps → ∃ id, calls w !! id = Some (mkCall i p (ReqVote args el) None true);
  cl_voters p : p ∈ ps → ∃ x, (nodes w).[p] = Some x ∧ currentTerm x < rv_Term args ∧
    up_to_date (rv_LastLogIndex args) (rv_LastLogTerm args) (logs x)
}.

(** A granted vote is counted. *)
Lemma vote_counted n args r g rf :
  raft_wf n rf → rvr_VoteGranted r = true →
  ∃ rf' g', handleVoteReply args r g rf = Some (rf', g') ∧
    (state rf = Leader → rf' = rf) ∧
    (state rf = Candidate → currentTerm rf = rv_Term args →
       g' = g + 1 ∧ ((n / 2 < g + 1 ∧ state rf' = Leader) ∨ (g + 1 ≤ n / 2 ∧ rf' = rf))).
Proof.
  intros Hwf Hr. unfold handleVoteReply, isValidCandidate. rewrite Hr, (wf_peers _ _ Hwf).
  destruct (decide (state rf = Candidate)) as [Hs|Hs].
  - rewrite bool_decide_true by done. simpl. destruct (Z.eqb_spec (currentTerm rf) (rv_Term args)).
    + destruct (Z.ltb_spec (n / 2) (g + 1)).
      * destruct (ChangeState_Leader_wf n rf Hwf) as (rf' & -> & _ & _ & _ & _ & _ & Hs' & _); [by rewrite Hs|]. simpl.
        eexists _, _. split; [done|]. split; [by rewrite Hs|]. intros _ _. split; [done|by left].
      * eexists _, _. split; [done|]. split; [done|]. intros _ _. split; [done|by right].
    + eexists _, _. by split.
  - rewrite bool_decide_false by done. simpl. eexists _, _. by split.
Qed.

Lemma collect_step (n : nat) i args el p ps w :
  collecting n i args el (p :: ps) w → ∃ w', leads w w' ∧ collecting n i args el ps w'.
Proof.
  intros [Hr [Hnd Hni] (rf & g & Hi & Hg & Hself) Hcalls Hvoters].
  apply NoDup_cons in Hnd as [Hnp Hnd]. apply not_elem_of_cons in Hni as [Hip Hni].
  destruct (Hcalls p) as [id Hid]; [by left|]. destruct (Hvoters p) as (x & Hx & Hterm & Hupd); [by left|].
  pose proof (λ j y, node_wf _ _ j y (reachable_inv _ _ Hr)) as Hwf.
  destruct (RequestVote_grants _ args x (Hwf _ _ Hx) Hterm Hupd) as (x' & r & Ev & Hgr).
  destruct (vote_counted _ args r g rf (Hwf _ _ Hi) Hgr) as (rf' & g' & Eh & Hlead & Hcand).
  set (w1 := set_calls (<[id := mkCall i p (ReqVote args el) (Some (RepVote r)) true]> (calls w))
    (record (HVote p (rv_Term args) (rv_CandidateId args)) (set_node p x' w))).
  assert (Hs1 : step (EvHandle id) w = Next w1).
  { simpl. unfold step_handle. rewrite Hid. simpl. rewrite Hx. simpl. rewrite Ev. simpl. by rewrite Hgr. }
  assert (Hi1 : (nodes w1).[i] = Some rf) by (simpl; rewrite (nodes_insert _ _ x), decide_False by done; done).
  assert (Hs2 : ∃ w2, step (EvReturn id) w1 = Next w2 ∧ nodes w2 = <[Z.to_nat i := rf']> (nodes w1) ∧
    calls w2 = delete id (calls w1) ∧ ballots w2 = <[el := g']> (ballots w)).
  { simpl. unfold step_return. simpl. rewrite lookup_insert_eq. cbn [enabled outcome_bind caller]. simpl in Hi1. rewrite Hi1.
    cbn [enabled outcome_bind live negb request reply]. simpl. rewrite Hg. simpl. rewrite Eh. simpl. destruct (decide _); by eexists. }
  destruct Hs2 as (w2 & Hs2 & Hn2 & Hc2 & Hb2).
  assert (Hl : leads w w2) by (apply (leads_trans _ w1); [by apply (leads_step (EvHandle id))|by apply (leads_step (EvReturn id))]).
  exists w2. split; [done|]. constructor; [by eapply leads_reachable|done|..].
  - exists rf', g'. rewrite Hn2, (nodes_insert _ _ rf), decide_True, Hb2, lookup_insert_eq by done. split_and!; try done.
    destruct Hself as [Hs|(Hs & Ht & Hgn)]; [left; by rewrite (Hlead Hs)|].
    destruct (Hcand Hs Ht) as [-> [[_ Hs']|[Hle ->]]]; [by left|]. right. split_and!; try done.
    unfold go_len in *. simpl in Hgn. lia.
  - intros q Hq. destruct (Hcalls q) as [idq Hidq]; [by right|]. exists idq. rewrite Hc2. simpl.
    assert (id ≠ idq) by (intros ->; rewrite Hid in Hidq; injection Hidq as <-; done).
    by rewrite lookup_delete_ne, lookup_insert_ne.
  - intros q Hq. destruct (Hvoters q) as (y & Hy & Hyt); [by right|]. exists y. split; [|done].
    rewrite Hn2, (nodes_insert _ _ rf), decide_False by (done || by intros ->). simpl. by rewrite (nodes_insert _ _ x), decide_False by (done || by intros ->).
Qed.

Lemma collect_all (n : nat) i args el ps w :
  collecting n i args el ps w → ∃ w' rf, leads w w' ∧ reachable n w' ∧ (nodes w').[i] = Some rf ∧ state rf = Leader.
Proof.
  revert w. induction ps as [|p ps IH]; intros w Hc.
  - destruct (cl_self _ _ _ _ _ _ Hc) as (rf & g & Hi & _ & [Hs|(_ & _ & Hg)]); [|unfold go_len in Hg; simpl in Hg; lia].
    exists w, rf. split_and!; try done; [by exists []|apply Hc].
  - destruct (collect_step _ _ _ _ _ _ _ Hc) as (w1 & Hl1 & Hc1). destruct (IH w1 Hc1) as (w2 & rf & Hl2 & H).
    exists w2, rf. split; [by eapply leads_trans|done].
Qed.

(** ** The most advanced log *)

Lemma most_advanced (ns : list (Raft cmd)) :
  ns ≠ [] → ∃ k rf, ns !! k = Some rf ∧
    ∀ j x, ns !! j = Some x → up_to_date (last_index (logs rf)) (last_term (logs rf)) (logs x).
Proof.
  induction ns as [|y ns IH]; [done|]. intros _. destruct (decide (ns = [])) as [->|Hne].
  { exists 0%nat, y. split; [done|]. intros [|j] x; simpl; [|done]. intros [= <-]. right. lia. }
  destruct (IH Hne) as (k & rf & Hk & Hmax).
  destruct (decide (last_term (logs rf) < last_term (logs y) ∨ (last_term (logs y) = last_term (logs rf) ∧ last_index (logs rf) ≤ last_index (logs y)))) as [Hy|Hy].
  - exists 0%nat, y. split; [done|]. intros [|j] x; simpl; [intros [= <-]; right; lia|]. intros Hx%Hmax. unfold up_to_date in *. lia.
  - exists (S k), rf. split; [done|]. intros [|j] x; simpl; [intros [= <-]; unfold up_to_date; lia|]. by intros Hx%Hmax.
Qed.

Lemma highest_term (ns : list (Raft cmd)) : ∃ T, ∀ (j : nat) x, ns !! j = Some x → currentTerm x ≤ T.
Proof.
  induction ns as [|y ns [T IH]]; [by exists 0|]. exists (Z.max (currentTerm y) T).
  intros [|j] x; simpl; [intros [= <-]; lia|]. intros Hx%IH. lia.
Qed.

(** Restarting the peer with the most advanced log makes it a contender. *)
Lemma contender_exists (n : nat) w :
  (1 ≤ n)%nat → reachable n w → ∃ w' i l T rf, leads w w' ∧ contender n i l T w' rf.
Proof.
  intros Hn Hr. destruct (ci_nodes _ _ (reachable_inv _ _ Hr)) as [Hlen Hns].
  destruct (most_advanced (nodes w)) as (k & rf & Hk & Hmax); [intros E; rewrite E in Hlen; unfold go_len in Hlen; simpl in Hlen; lia|].
  destruct (highest_term (nodes w)) as [T HT]. set (i := Z.of_nat k).
  assert (Hi : (nodes w).[i] = Some rf) by (rewrite go_index_lookup by lia; unfold i; by rewrite Nat2Z.id).
  destruct (Hns i rf Hi) as [Hwf Hme].
  destruct (Make_restart _ rf Hwf) as (rf' & Em & _ & _ & _ & _ & _ & Hs & Hd & _ & _ & Hl & _).
  set (w' := set_calls (orphan i <$> calls w) (set_node i rf' w)).
  assert (Hlead : leads w w').
  { apply (leads_step (EvCrash i)); [done|]. simpl. unfold step_crash. rewrite Hi. simpl. by rewrite (wf_peers _ _ Hwf), Em. }
  exists w', i, (logs rf), T, rf'. split; [done|]. constructor; try done; [by eapply leads_reachable| |by rewrite Hs|].
  - simpl. by rewrite (nodes_insert _ _ rf), decide_True.
  - intros j x. simpl. rewrite (nodes_insert _ _ rf) by done. intros Hj Hne. rewrite decide_False in Hj by done.
    pose proof (go_index_Some_range _ _ _ Hj). rewrite go_index_lookup in Hj by lia. split; [by eapply HT|by eapply Hmax].
Qed.

(** C14 (A leader can always be elected).  From every reachable state of a cluster of
    at least two peers, whatever crashes, partitions and elections led to it, there
    is a schedule in which timers fire only when they are armed and on peers that
    are up, and after which some peer is leader. *)
Theorem leader_can_be_elected (n : nat) w :
  (2 ≤ n)%nat → reachable n w →
  ∃ evs w' i rf, timely_run evs w = Next w' ∧ (nodes w').[i] = Some rf ∧ state rf = Leader.
Proof.
  intros Hn Hr. destruct (contender_exists n w) as (w1 & i & l & T & rf1 & L1 & C1); [lia|done|].
  destruct (campaign_above n i l T w1 rf1 C1) as (w2 & rf2 & L2 & C2 & Ht2).
  destruct (campaign n i l T w2 rf2 C2) as (w3 & rf3 & L3 & C3 & Hs3 & Ht3 & _ & el & Hb & Hcalls).
  destruct (ci_nodes _ _ (reachable_inv _ _ (ct_reach _ _ _ _ _ _ C3))) as [Hlen Hns].
  pose proof (go_index_Some_range _ _ _ (ct_node _ _ _ _ _ _ C3)) as Hrange.
  set (ps := seqZ 0 i ++ seqZ (i + 1) (Z.of_nat n - i - 1)).
  assert (Hps : ∀ p, p ∈ ps ↔ p ≠ i ∧ 0 ≤ p < Z.of_nat n).
  { intros p. unfold ps. rewrite elem_of_app, !elem_of_seqZ. lia. }
  destruct (collect_all n i (mkRequestVoteArgs (currentTerm rf3) i (last_index l) (last_term l)) el ps w3)
    as (w4 & rf4 & [evs4 L4] & _ & Hi4 & Hs4).
  - constructor; [apply C3|..].
    + split; [|by intros [? _]%Hps]. apply NoDup_app. split_and!; [apply NoDup_seqZ| |apply NoDup_seqZ].
      intros p. rewrite !elem_of_seqZ. lia.
    + exists rf3, 1. split_and!; [apply C3|done|]. right. split_and!; try done; [apply Z.div_le_lower_bound; lia|].
      unfold ps, go_len. rewrite length_app, !length_seqZ. pose proof (Z.div_lt (Z.of_nat n) 2). lia.
    + intros p [Hne Hp]%Hps. by apply Hcalls.
    + intros p [Hne Hp]%Hps. destruct (go_index_is_Some (nodes w3) p) as [x Hx]; [lia|]. exists x. split; [done|].
      destruct (ct_others _ _ _ _ _ _ C3 p x Hx Hne). simpl. split; [lia|done].
  - destruct (leads_trans _ _ _ L1 (leads_trans _ _ _ L2 L3)) as [evs L]. exists (evs ++ evs4), w4, i, rf4.
    split_and!; try done. by eapply timely_run_app.
Qed.
End progress.

(** ** A cluster of three *)

#[local] Existing Instance nat_codec.

Lemma leader_can_be_elected_witness :
  ∃ evs w' i rf, timely_run evs (init_world (cmd := nat) 3) = Next w' ∧ (nodes w').[i] = Some rf ∧ state rf = Leader.
Proof. apply (leader_can_be_elected 3 (init_world 3)); [lia|constructor]. Defined.
