(* ===== verification/RaftWitness.v ===== *)
(** * Concrete runs for the properties of RaftProps.v

    The peers come out of runs of the cluster, so that every hypothesis of the
    properties is met by a state the code reaches. *)

From S2P Require Import Prelude RaftUtil RaftNode RaftLog RaftWf RaftOps RaftRepl RaftProps Cluster ElectionSafety.
Local Open Scope Z_scope.
Local Open Scope go_scope.

#[local] Existing Instance nat_codec.

Definition world_of (evs : list (Event nat)) : World nat :=
  match run evs (init_world 3) with Next w => w | _ => init_world 3 end.

Definition peer_of (evs : list (Event nat)) (i : Z) : Raft nat :=
  default (fresh_raft 3 i MakePersister) (nodes (world_of evs)).[i].

Lemma world_of_reachable evs : reachable 3 (world_of evs).
Proof.
  unfold world_of. destruct (run evs (init_world 3)) as [w| |] eqn:E; [|constructor..].
  by apply (run_reachable 3 evs (init_world 3)); [constructor|].
Qed.

Lemma peer_of_wf evs i : 0 ≤ i < 3 → raft_wf 3 (peer_of evs i).
Proof.
  intros Hi. unfold peer_of. pose proof (reachable_inv _ _ (world_of_reachable evs)) as Hinv.
  destruct (nodes (world_of evs)).[i] as [rf|] eqn:E; simpl; [|by apply Make_init]. by eapply node_wf.
Qed.

(** A peer with two committed commands that it has not applied yet, and an
    uncommitted third one. *)
Definition busy_events : list (Event nat) :=
  [EvElection 0; EvHandle 0; EvReturn 0; EvStart 0 (Some 1%nat); EvStart 0 (Some 2%nat);
   EvSend 0 1; EvHandle 2; EvReturn 2; EvStart 0 (Some 3%nat)].

Definition busy : Raft nat := peer_of busy_events 0.

(** The leader's AppendEntry to a fresh peer. *)
Definition busy_args : AppendEntryArgs nat :=
  mkAppendEntryArgs 1 0 0 0 [mkLogEntry (Some 1%nat) 1 1; mkLogEntry (Some 2%nat) 1 2] 1.

Definition blank : Raft nat := peer_of [] 1.

Lemma busy_args_wf : append_args_wf busy_args.
Proof. split; [|vm_compute; congruence]. simpl. repeat split; vm_compute; congruence. Qed.

Lemma RequestVote_spec_witness :
  ∃ rf' reply, RequestVote (mkRequestVoteArgs 7 2 3 1) busy = Some (rf', reply) ∧ rvr_VoteGranted reply = true ∧
    voteFor rf' = 2.
Proof.
  destruct (RequestVote_spec 3 (mkRequestVoteArgs 7 2 3 1) busy) as (rf' & reply & E & _ & _ & _ & _ & Hg & _);
    [apply peer_of_wf; lia|].
  exists rf', reply. split; [exact E|].
  assert (Hgr : rvr_VoteGranted reply = true).
  { revert E. vm_compute. intros E. injection E as _ <-. reflexivity. }
  split; [exact Hgr|]. apply Hg. exact Hgr.
Defined.

Lemma AppendEntry_spec_witness :
  ∃ rf' reply, AppendEntry busy_args blank = Some (rf', reply) ∧ aer_Success reply = true ∧
    entries_in (logs rf') (ae_Entries busy_args) ∧ commitIndex rf' = 1.
Proof.
  destruct (AppendEntry_spec 3 busy_args blank) as (rf' & reply & E & _ & _ & Hok);
    [apply peer_of_wf; lia|exact busy_args_wf|].
  destruct Hok as (_ & _ & Hiff & _ & Hs); [vm_compute; congruence|].
  assert (Hsucc : aer_Success reply = true).
  { apply Hiff. eexists. split; vm_compute; reflexivity. }
  exists rf', reply. split; [exact E|]. split; [exact Hsucc|]. split; [apply Hs; exact Hsucc|].
  revert E. vm_compute. intros E. injection E as <- _. reflexivity.
Defined.

Lemma AppendEntry_idempotent_witness :
  ∃ rf1 r1 rf2 r2, AppendEntry busy_args blank = Some (rf1, r1) ∧ AppendEntry busy_args rf1 = Some (rf2, r2) ∧
    logs rf2 = logs rf1.
Proof.
  eexists _, _.
  edestruct (AppendEntry_idempotent 3 busy_args blank) as (rf2 & r2 & E & _ & Hl & _);
    [apply peer_of_wf; lia|exact busy_args_wf|vm_compute; congruence|vm_compute; reflexivity|reflexivity|].
  exists rf2, r2. split; [vm_compute; reflexivity|]. split; [exact E|exact Hl].
Defined.

Lemma conflict_reply_accurate_witness :
  ∃ rf' reply, AppendEntry (mkAppendEntryArgs 2 1 3 2 [] 0) busy = Some (rf', reply) ∧
    aer_ConflictTerm reply = 1 ∧ aer_ConflictIndex reply = 1.
Proof.
  eexists _, _. split; [vm_compute; reflexivity|].
  edestruct (conflict_reply_accurate 3 (mkAppendEntryArgs 2 1 3 2 [] 0) busy) as [(H & _)|(e & c & _ & _ & H & _)];
    [apply peer_of_wf; lia|split; [exact I|vm_compute; congruence]|vm_compute; congruence..
    |vm_compute; reflexivity|reflexivity| |].
  - revert H. vm_compute. congruence.
  - split; reflexivity.
Defined.

Lemma leader_commit_rule_witness :
  ∃ rf', handleAppendReply 2 (mkAppendEntryArgs 1 0 0 0 (drop 1 (logs busy)) 2) (mkAppendEntryReply 1 true 0 0) busy = Some rf' ∧
    commitIndex busy < commitIndex rf' ∧ ∃ e, log_at (logs busy) (commitIndex rf') = Some e ∧ Term e = currentTerm busy.
Proof.
  destruct (leader_commit_rule 3 2 (mkAppendEntryArgs 1 0 0 0 (drop 1 (logs busy)) 2) (mkAppendEntryReply 1 true 0 0) busy)
    as (rf' & E & _ & _ & Hc); [apply peer_of_wf; lia|lia|intros _; vm_compute; congruence|].
  exists rf'. split; [exact E|]. destruct Hc as (_ & _ & _ & H1 & _ & H2); [|split; [exact H1|exact H2]].
  revert E. vm_compute. intros E. injection E as <-. vm_compute. congruence.
Defined.

Lemma crash_recovery_witness :
  ∃ rf', Make 3 (me busy) (persister busy) = Some rf' ∧ state rf' = Follower ∧ logs rf' = logs busy ∧ currentTerm rf' = 1.
Proof.
  destruct (crash_recovery 3 busy) as (rf' & E & _ & _ & Hs & Hl & Ht & _); [apply peer_of_wf; lia|].
  exists rf'. split; [exact E|]. split; [exact Hs|]. split; [exact Hl|]. apply Ht. vm_compute. reflexivity.
Defined.

Lemma applier_delivers_all_witness :
  ∃ rf' msgs, run_applier 3 busy = Some (rf', msgs) ∧ msgs = [CommandMsg (Some 1%nat) 1; CommandMsg (Some 2%nat) 2] ∧
    lastApplied rf' = 2.
Proof.
  destruct (applier_delivers_all 3 busy) as (rf' & msgs & E & _ & Ha & _);
    [apply peer_of_wf; lia|vm_compute; reflexivity|vm_compute; reflexivity|vm_compute; congruence|].
  exists rf', msgs. split; [exact E|]. split; [|exact Ha].
  revert E. vm_compute. intros E. injection E as _ <-. reflexivity.
Defined.

Lemma InstallSnapShot_term_not_durable_witness :
  ∃ rf' rf2, InstallSnapShot (mkInstallSnapShotArgs 9 1 0 0 None) busy = Some (rf', mkInstallSnapShotReply 1) ∧
    currentTerm rf' = 9 ∧ Make 3 (me rf') (persister rf') = Some rf2 ∧ currentTerm rf2 < 9.
Proof.
  destruct (InstallSnapShot_term_not_durable 3 (mkInstallSnapShotArgs 9 1 0 0 None) busy)
    as (rf' & rf2 & E & Ht & _ & E2 & Hlt);
    [apply peer_of_wf; lia|vm_compute; split; congruence|vm_compute; reflexivity|vm_compute; congruence|].
  exists rf', rf2. split; [exact E|]. split; [exact Ht|]. split; [exact E2|exact Hlt].
Defined.

(** A run that ends in the livelock: peer 0 led term 1, compacted what it had
    committed and then lost its leadership with an unreplicated entry; peer 1
    leads term 3 and backs off below peer 0's snapshot. *)
Definition livelock_events : list (Event nat) :=
  [EvElection 0; EvHandle 0; EvReturn 0; EvStart 0 (Some 1%nat); EvStart 0 (Some 2%nat);
   EvSend 0 1; EvHandle 2; EvReturn 2; EvSend 0 2; EvHandle 3; EvReturn 3; EvApply 0; EvApply 0;
   EvSnapshot 0 2 (Some [x00]); EvStart 0 (Some 3%nat);
   EvElection 2; EvHandle 5; EvReturn 5; EvStart 2 (Some 4%nat); EvSend 2 1; EvHandle 6;
   EvElection 1; EvHandle 8; EvReturn 8; EvSend 1 0; EvHandle 9; EvReturn 9].

Lemma livelock_stuck : stuck 3 0 2 (peer_of livelock_events 1) (peer_of livelock_events 0).
Proof.
  constructor; [apply peer_of_wf; lia|apply peer_of_wf; lia|vm_compute; first [reflexivity|congruence|split; congruence]..].
Qed.

Lemma backoff_livelock_witness :
  ∃ args fl' reply ld', doSendAppendEntry 0 (peer_of livelock_events 1) = Some (SendAppendEntry args) ∧
    AppendEntry args (peer_of livelock_events 0) = Some (fl', reply) ∧
    handleAppendReply 0 args reply (peer_of livelock_events 1) = Some ld' ∧ stuck 3 0 2 ld' fl'.
Proof.
  destruct (backoff_livelock 3 0 2 (peer_of livelock_events 1) (peer_of livelock_events 0) livelock_stuck)
    as (args & fl' & reply & ld' & H1 & H2 & H3 & H4 & _).
  exists args, fl', reply, ld'. split; [exact H1|]. split; [exact H2|]. split; [exact H3|exact H4].
Defined.
