(* ===== verification/KVSrv.v ===== *)
(** * kvsrv1: the single key/value server and its clerk

    rpc.go, server.go and client.go of src/src/kvsrv1, and the sequential model
    of models1/kv.go against which the tests check histories.  A handler is a
    function from the arguments and the server to the new server and the reply;
    it runs under the server's mutex, so a run of the server is a list of
    requests.  The clerk retries over a network that may lose the request or the
    reply of every attempt while other requests are served; a handler that outlives
    the attempt it belongs to is one of these (KVNet.v has the network itself). *)

From stdpp Require Import sorting.
From S2P Require Import Prelude.
Local Open Scope Z_scope.

(** ** rpc.go *)

(** [Err] is a string; [ErrNone] is its zero value. *)
Inductive Err := ErrNone | OK | ErrNoKey | ErrVersion | ErrMaybe | ErrWrongLeader | ErrWrongGroup.

#[export] Instance Err_eq_dec : EqDecision Err.
Proof. solve_decision. Defined.

#[export] Instance Err_countable : Countable Err.
Proof.
  refine (inj_countable' (λ e, match e with ErrNone => 0%nat | OK => 1%nat | ErrNoKey => 2%nat | ErrVersion => 3%nat
                               | ErrMaybe => 4%nat | ErrWrongLeader => 5%nat | ErrWrongGroup => 6%nat end)
    (λ n, match n with 0%nat => ErrNone | 1%nat => OK | 2%nat => ErrNoKey | 3%nat => ErrVersion
          | 4%nat => ErrMaybe | 5%nat => ErrWrongLeader | _ => ErrWrongGroup end) _). by intros [].
Defined.

(** A Tversion is a uint64. *)
Definition Tversion := Z.

Record PutArgs := mkPutArgs {
  pa_Key : string; pa_Value : string; pa_Version : Tversion; pa_ClientId : Z; pa_SeqNum : Z
}.
Record PutReply := mkPutReply { pr_Err : Err }.
Record GetArgs := mkGetArgs { ga_Key : string; ga_ClientId : Z; ga_SeqNum : Z }.
Record GetReply := mkGetReply { gr_Value : string; gr_Version : Tversion; gr_Err : Err }.

#[export] Instance PutArgs_eq_dec : EqDecision PutArgs.
Proof. solve_decision. Defined.

#[export] Instance PutReply_eq_dec : EqDecision PutReply.
Proof. solve_decision. Defined.

#[export] Instance GetReply_eq_dec : EqDecision GetReply.
Proof. solve_decision. Defined.

(** ** server.go *)

Record KVPair := mkKVPair { value : string; version : Tversion }.

Record dupTab := mkDupTab {
  lastSeqNum : Z;
  lastGetReply : option GetReply;
  lastPutReply : option PutReply
}.

Record KVServer := mkKVServer {
  cache : gmap string KVPair;
  clientMap : gmap Z dupTab
}.

Definition MakeKVServer : KVServer := mkKVServer ∅ ∅.

Definition GetExec (args : GetArgs) (kv : KVServer) : KVServer * GetReply :=
  let reply := match cache kv !! ga_Key args with
               | Some kvp => mkGetReply (value kvp) (version kvp) OK
               | None => mkGetReply "" 0 ErrNoKey
               end in
  (mkKVServer (cache kv) (<[ga_ClientId args := mkDupTab (ga_SeqNum args) (Some reply) None]> (clientMap kv)), reply).

Definition Get (args : GetArgs) (kv : KVServer) : KVServer * GetReply :=
  match clientMap kv !! ga_ClientId args with
  | Some dup =>
      match lastGetReply dup with
      | Some r => if ga_SeqNum args =? lastSeqNum dup then (kv, r) else GetExec args kv
      | None => GetExec args kv
      end
  | None => GetExec args kv
  end.

(** The part of [Put] behind the duplicate check. *)
Definition PutExec (args : PutArgs) (kv : KVServer) : KVServer * PutReply :=
  let install kvp :=
    (mkKVServer (<[pa_Key args := kvp]> (cache kv))
       (<[pa_ClientId args := mkDupTab (pa_SeqNum args) None (Some (mkPutReply OK))]> (clientMap kv)),
     mkPutReply OK) in
  match cache kv !! pa_Key args with
  | Some kvp =>
      if pa_Version args =? version kvp
      then install (mkKVPair (pa_Value args) (wrap_u64 (version kvp + 1)))
      else (kv, mkPutReply ErrVersion)
  | None =>
      if pa_Version args =? 0
      then install (mkKVPair (pa_Value args) 1)
      else (kv, mkPutReply ErrNoKey)
  end.

(** The duplicate check of [Put]: the cached reply it answers with, if any. *)
Definition PutDup (args : PutArgs) (kv : KVServer) : option PutReply :=
  dup ← clientMap kv !! pa_ClientId args;
  r ← lastPutReply dup;
  if (pa_SeqNum args =? lastSeqNum dup) && bool_decide (pr_Err r = OK)
  then match cache kv !! pa_Key args with
       | Some kvp => if pa_Version args =? version kvp then Some r else None
       | None => if pa_Version args =? 0 then Some r else None
       end
  else None.

Definition Put (args : PutArgs) (kv : KVServer) : KVServer * PutReply :=
  match PutDup args kv with
  | Some r => (kv, r)
  | None => PutExec args kv
  end.

(** ** Runs of the server *)

Inductive Req := RGet (args : GetArgs) | RPut (args : PutArgs).

#[export] Instance GetArgs_eq_dec : EqDecision GetArgs.
Proof. solve_decision. Defined.

#[export] Instance Req_eq_dec : EqDecision Req.
Proof. solve_decision. Defined.

Definition serve (r : Req) (kv : KVServer) : KVServer :=
  match r with RGet a => (Get a kv).1 | RPut a => (Put a kv).1 end.

Definition serve_all (rs : list Req) (kv : KVServer) : KVServer := foldl (λ kv r, serve r kv) kv rs.

(** ** client.go *)

Record Clerk := mkClerk { clientId : Z; seqNum : Z }.

(** [atomic.AddInt64(&globalClientId, 1)] *)
Definition MakeClerk (globalClientId : Z) : Z * Clerk :=
  let id := wrap_i64 (globalClientId + 1) in (id, mkClerk id 0).

(** What happens to one attempt of a call: the requests the server handles before
    it, those of other clerks and those of the same call that were given up on, and
    the network.  After [DropRequest] the server has not handled the request; it may
    do so later. *)
Inductive Net := DropRequest | DropReply | Deliver.
Definition Attempt : Type := list Req * Net.

Definition Call {A R} (handler : A → KVServer → KVServer * R) (zero : R) (args : A) (att : Attempt) (kv : KVServer)
    : KVServer * R * bool :=
  let kv := serve_all att.1 kv in
  match att.2 with
  | DropRequest => (kv, zero, false)
  | DropReply => ((handler args kv).1, zero, false)
  | Deliver => let '(kv, r) := handler args kv in (kv, r, true)
  end.

(** The loops end when an attempt is delivered; [None]: still trying. *)
Fixpoint GetLoop (args : GetArgs) (atts : list Attempt) (kv : KVServer) : option (KVServer * GetReply) :=
  match atts with
  | [] => None
  | att :: atts =>
      let '(kv, r, ok) := Call Get (mkGetReply "" 0 ErrNone) args att kv in
      if (ok : bool) then Some (kv, r) else GetLoop args atts kv
  end.

(** What [Put] makes of the error of one attempt. *)
Definition put_err (firstAttempt : bool) (e : Err) : Err :=
  if decide (e = ErrVersion) then (if firstAttempt then ErrVersion else ErrMaybe) else e.

Fixpoint PutLoop (args : PutArgs) (firstAttempt : bool) (atts : list Attempt) (kv : KVServer)
    : option (KVServer * Err) :=
  match atts with
  | [] => None
  | att :: atts =>
      let '(kv, r, ok) := Call Put (mkPutReply ErrNone) args att kv in
      if (ok : bool) then Some (kv, put_err firstAttempt (pr_Err r)) else PutLoop args false atts kv
  end.

Definition ClerkGet (key : string) (atts : list Attempt) (ck : Clerk) (kv : KVServer)
    : Clerk * option (KVServer * (string * Tversion * Err)) :=
  let ck := mkClerk (clientId ck) (wrap_i64 (seqNum ck + 1)) in
  let args := mkGetArgs key (clientId ck) (seqNum ck) in
  (ck, '(kv, r) ← GetLoop args atts kv; Some (kv, (gr_Value r, gr_Version r, gr_Err r))).

Definition ClerkPut (key value : string) (version : Tversion) (atts : list Attempt) (ck : Clerk) (kv : KVServer)
    : Clerk * option (KVServer * Err) :=
  let ck := mkClerk (clientId ck) (wrap_i64 (seqNum ck + 1)) in
  let args := mkPutArgs key value version (clientId ck) (seqNum ck) in
  (ck, PutLoop args true atts kv).

(** ** models1/kv.go *)

Record KvInput := mkKvInput { in_Op : Z; in_Key : string; in_Value : string; in_Version : Z }.
Record KvOutput := mkKvOutput { out_Value : string; out_Version : Z; out_Err : Err }.
Record KvState := mkKvState { st_Value : string; st_Version : Z }.

Definition KvInit : KvState := mkKvState "" 0.

(** [None] is the invalid state of the [default] case. *)
Definition KvStep (st : KvState) (inp : KvInput) (out : KvOutput) : bool * option KvState :=
  if in_Op inp =? 0 then (bool_decide (out_Value out = st_Value st), Some st)
  else if in_Op inp =? 1 then
    if st_Version st =? in_Version inp
    then (bool_decide (out_Err out = OK) || bool_decide (out_Err out = ErrMaybe),
          Some (mkKvState (in_Value inp) (wrap_u64 (st_Version st + 1))))
    else (bool_decide (out_Err out = ErrVersion) || bool_decide (out_Err out = ErrMaybe), Some st)
  else (false, None).

(** Operations carry their input and output, and whatever else the one who recorded
    them noted. *)
Class KvOp (A : Type) := { op_input : A → KvInput; op_output : A → KvOutput }.

Definition KvOperation : Type := KvInput * KvOutput.

#[export] Instance KvOperation_op : KvOp KvOperation := {| op_input := fst; op_output := snd |}.

Section history.
Context {A : Type} `{!KvOp A}.
Implicit Types (history ops : list A).

Definition group_by_key history : gmap string (list A) :=
  foldl (λ m (v : A), <[in_Key (op_input v) := default [] (m !! in_Key (op_input v)) ++ [v]]> m) ∅ history.

Definition Partition history : list (list A) :=
  let m := group_by_key history in
  (λ k, default [] (m !! k)) <$> merge_sort String.le (map_to_list m).*1.

(** The model over a sequence of operations: [None] when [KvStep] rejects one. *)
Fixpoint model_run (st : KvState) ops : option KvState :=
  match ops with
  | [] => Some st
  | v :: ops => match KvStep st (op_input v) (op_output v) with (true, Some st) => model_run st ops | _ => None end
  end.

Definition on_key (k : string) history : list A := filter (λ v : A, in_Key (op_input v) = k) history.

Lemma on_key_snoc k history v :
  on_key k (history ++ [v]) = on_key k history ++ (if decide (in_Key (op_input v) = k) then [v] else []).
Proof. unfold on_key. rewrite filter_app, filter_cons. by case_decide. Qed.

Lemma group_by_key_lookup history k :
  group_by_key history !! k = match on_key k history with [] => None | ops => Some ops end.
Proof.
  induction history as [|v history IH] using rev_ind; [done|]. unfold group_by_key in *.
  rewrite foldl_app, on_key_snoc. simpl. case_decide as E.
  - subst k. rewrite lookup_insert_eq, IH. by destruct (on_key _ history).
  - by rewrite lookup_insert_ne, IH, app_nil_r.
Qed.

(** A partition is the part of the history of one key, in its order. *)
Lemma elem_of_Partition history ops :
  ops ∈ Partition history ↔ ops ≠ [] ∧ ∃ k, ops = on_key k history.
Proof.
  unfold Partition. rewrite list_elem_of_fmap. setoid_rewrite merge_sort_Permutation. split.
  - intros (k & -> & [[k' ops'] [-> Hk%elem_of_map_to_list]]%list_elem_of_fmap). simpl. rewrite Hk. simpl.
    rewrite group_by_key_lookup in Hk. destruct (on_key k' history) eqn:E; [done|]. injection Hk as <-. eauto.
  - intros [Hne [k ->]]. exists k. assert (E : group_by_key history !! k = Some (on_key k history)).
    { rewrite group_by_key_lookup. by destruct (on_key k history). }
    rewrite E. split; [done|]. apply list_elem_of_fmap. exists (k, on_key k history). by rewrite elem_of_map_to_list.
Qed.

Lemma model_run_app st ops ops' : model_run st (ops ++ ops') = (st ← model_run st ops; model_run st ops').
Proof.
  revert st. induction ops as [|v ops IH]; intros st; simpl; [done|].
  destruct (KvStep st _ _) as [[] [st'|]]; try done.
Qed.
End history.

(** ** Versions only grow *)

(** Every version can still be incremented [m] times without wrapping. *)
Definition room (m : Z) (kv : KVServer) : Prop :=
  m + 1 < 2 ^ 64 ∧ ∀ k p, cache kv !! k = Some p → 1 ≤ version p ∧ version p + m < 2 ^ 64.

(** Key [k] has moved past version [v]. *)
Definition past (k : string) (v : Tversion) (kv : KVServer) : Prop :=
  ∃ p, cache kv !! k = Some p ∧ v < version p.

Lemma Get_cache args kv : cache (Get args kv).1 = cache kv.
Proof. unfold Get. repeat case_match; done. Qed.

(** The four outcomes of the part of [Put] behind the duplicate check. *)
Lemma PutExec_cases args kv :
  room 1 kv →
  (∃ p, PutExec args kv = (mkKVServer (<[pa_Key args := p]> (cache kv))
       (<[pa_ClientId args := mkDupTab (pa_SeqNum args) None (Some (mkPutReply OK))]> (clientMap kv)), mkPutReply OK) ∧
     p = mkKVPair (pa_Value args) (pa_Version args + 1) ∧
     pa_Version args = default 0 (version <$> cache kv !! pa_Key args)) ∨
  (∃ e, PutExec args kv = (kv, mkPutReply e) ∧
     pa_Version args ≠ default 0 (version <$> cache kv !! pa_Key args) ∧
     ((e = ErrVersion ∧ is_Some (cache kv !! pa_Key args)) ∨ (e = ErrNoKey ∧ cache kv !! pa_Key args = None))).
Proof.
  intros [_ Hroom]. unfold PutExec. destruct (cache kv !! pa_Key args) as [p|] eqn:E; simpl.
  - destruct (Hroom _ _ E) as [H1 H2]. destruct (Z.eqb_spec (pa_Version args) (version p)) as [Ev|Hne].
    + left. eexists. split; [done|]. unfold wrap_u64. rewrite Z.mod_small by lia. by rewrite Ev.
    + right. eexists. split; [done|]. split; [done|left; eauto].
  - destruct (Z.eqb_spec (pa_Version args) 0) as [Ev|Hne].
    + left. eexists. split; [done|]. by rewrite Ev.
    + right. eexists. split; [done|]. split; [done|by right].
Qed.

Lemma Put_cases args kv : Put args kv = PutExec args kv ∨ (Put args kv).1 = kv.
Proof. unfold Put. destruct (PutDup args kv); auto. Qed.

Lemma room_weaken m m' kv : m' ≤ m → room m kv → room m' kv.
Proof. intros Hle [Hm H]. split; [lia|]. intros k p Hp. destruct (H k p Hp). lia. Qed.

Lemma serve_room m r kv : 0 ≤ m → room (m + 1) kv → room m (serve r kv).
Proof.
  intros Hm Hroom. assert (H0 : room m kv) by (apply (room_weaken (m + 1)); [lia|done]).
  assert (H1 : room 1 kv) by (apply (room_weaken (m + 1)); [lia|done]).
  destruct r as [args|args]; simpl; [split; [apply H0|]; intros k p; rewrite Get_cache; apply H0|].
  destruct (Put_cases args kv) as [->| ->]; [|done].
  destruct (PutExec_cases args kv H1) as [(p & -> & -> & Hv)|(e & -> & _)]; [|done].
  split; [apply H0|]. intros k q. simpl. rewrite lookup_insert_Some. intros [[<- <-]|[_ Hq]]; [|by apply (proj2 H0 k)].
  simpl. destruct Hroom as [Hb Hroom].
  destruct (cache kv !! pa_Key args) as [p|] eqn:E; simpl in Hv; [destruct (Hroom _ _ E)|]; lia.
Qed.

Lemma serve_past r k v kv : room 1 kv → past k v kv → past k v (serve r kv).
Proof.
  intros Hroom (p & Hp & Hv). destruct r as [args|args]; simpl; [exists p; by rewrite Get_cache|].
  destruct (Put_cases args kv) as [->| ->]; [|by exists p].
  destruct (PutExec_cases args kv Hroom) as [(q & -> & -> & E)|(e & -> & _)]; [|by exists p]. simpl.
  destruct (decide (pa_Key args = k)) as [<-|Hne].
  - rewrite Hp in E. simpl in E. eexists. simpl. rewrite lookup_insert_eq. split; [done|]. simpl. lia.
  - exists p. simpl. by rewrite lookup_insert_ne.
Qed.

Lemma serve_all_room m rs kv : 0 ≤ m → room (m + Z.of_nat (length rs)) kv → room m (serve_all rs kv).
Proof.
  revert kv. induction rs as [|r rs IH]; intros kv Hm H; simpl; [eapply room_weaken; [|done]; simpl; lia|].
  apply IH; [done|]. apply serve_room; [lia|]. eapply room_weaken; [|done]. simpl. lia.
Qed.

Lemma serve_all_past rs k v kv :
  room (Z.of_nat (length rs)) kv → past k v kv → past k v (serve_all rs kv).
Proof.
  revert kv. induction rs as [|r rs IH]; intros kv H Hp; simpl in *; [done|]. apply IH.
  - apply serve_room; [lia|]. eapply room_weaken; [|done]. lia.
  - apply serve_past; [|done]. eapply room_weaken; [|done]. lia.
Qed.

Lemma serve_all_app rs1 rs2 kv : serve_all (rs1 ++ rs2) kv = serve_all rs2 (serve_all rs1 kv).
Proof. apply foldl_app. Qed.

Lemma init_room m : m + 1 < 2 ^ 64 → room m MakeKVServer.
Proof. intros Hm. split; [done|]. intros k p Hp. simpl in Hp. by rewrite lookup_empty in Hp. Qed.

Lemma Put_errs args kv : pr_Err (Put args kv).2 = OK ∨ pr_Err (Put args kv).2 = ErrVersion ∨ pr_Err (Put args kv).2 = ErrNoKey.
Proof.
  unfold Put, PutDup, PutExec. destruct (clientMap kv !! pa_ClientId args) as [d|]; simpl; [|repeat case_match; simpl; auto].
  destruct (lastPutReply d) as [r|]; simpl; [|repeat case_match; simpl; auto].
  destruct (_ && _) eqn:E; [apply andb_true_iff in E as [_ Hr%bool_decide_eq_true]|]; repeat case_match; simplify_eq/=; auto.
Qed.

(** A Put behind its key's version is refused, whatever the duplicate table
    says. *)
Lemma Put_past args kv :
  past (pa_Key args) (pa_Version args) kv → Put args kv = (kv, mkPutReply ErrVersion).
Proof.
  intros (p & Hp & Hv). unfold Put, PutDup, PutExec. rewrite Hp.
  destruct (Z.eqb_spec (pa_Version args) (version p)); [lia|].
  destruct (clientMap kv !! pa_ClientId args) as [d|]; simpl; [|done].
  destruct (lastPutReply d) as [r|]; simpl; [|done]. by destruct (_ && _).
Qed.

(** ** The duplicate table *)

(** Clerks number their requests: an id stands for one request. *)
Definition traffic_ok (rs : list Req) : Prop :=
  ∀ a a', RPut a ∈ rs → RPut a' ∈ rs → pa_ClientId a = pa_ClientId a' → pa_SeqNum a = pa_SeqNum a' → a = a'.

Lemma traffic_ok_sub rs rs' : rs ⊆ rs' → traffic_ok rs' → traffic_ok rs.
Proof. intros Hsub Ht a a' Ha Ha'. apply Ht; by apply Hsub. Qed.

(** A cached Put reply belongs to a request of [rs] whose version is past. *)
Definition dup_ok (rs : list Req) (kv : KVServer) : Prop :=
  ∀ c d r, clientMap kv !! c = Some d → lastPutReply d = Some r →
    ∃ a, RPut a ∈ rs ∧ pa_ClientId a = c ∧ pa_SeqNum a = lastSeqNum d ∧ past (pa_Key a) (pa_Version a) kv.

Lemma dup_ok_PutDup rs a kv : traffic_ok rs → dup_ok rs kv → RPut a ∈ rs → PutDup a kv = None.
Proof.
  intros Ht Hd Ha. unfold PutDup. destruct (clientMap kv !! pa_ClientId a) as [d|] eqn:E; simpl; [|done].
  destruct (lastPutReply d) as [r|] eqn:Er; simpl; [|done].
  destruct (Z.eqb_spec (pa_SeqNum a) (lastSeqNum d)) as [Es|]; simpl; [|done].
  destruct (bool_decide _); [|done]. destruct (Hd _ _ _ E Er) as (a' & Ha' & Hc & Hs & p & Hp & Hv).
  assert (a' = a) as -> by (apply Ht; [done|done|done|congruence]). rewrite Hp.
  by destruct (Z.eqb_spec (pa_Version a) (version p)); [lia|].
Qed.

Lemma serve_dup_ok rs r kv :
  traffic_ok rs → r ∈ rs → room 1 kv → dup_ok rs kv → dup_ok rs (serve r kv).
Proof.
  intros Ht Hr Hroom Hd.
  assert (Hkeep : ∀ c d x, clientMap kv !! c = Some d → lastPutReply d = Some x →
    ∃ a, RPut a ∈ rs ∧ pa_ClientId a = c ∧ pa_SeqNum a = lastSeqNum d ∧ past (pa_Key a) (pa_Version a) (serve r kv)).
  { intros c d x Hc Hx. destruct (Hd c d x Hc Hx) as (a & H1 & H2 & H3 & H4). exists a. split_and!; try done.
    by apply serve_past. }
  intros c d x. destruct r as [args|args]; simpl in *.
  - unfold Get, GetExec in *. repeat case_match; simpl in *; try apply Hkeep;
      (rewrite lookup_insert_Some; intros [[<- <-]|[_ Hc]]; [done|by apply Hkeep]).
  - revert Hkeep. unfold Put. rewrite (dup_ok_PutDup rs) by done. intros Hkeep.
    destruct (PutExec_cases args kv Hroom) as [(p & E & -> & Hv)|(e & E & _)]; rewrite E in *; simpl in *; [|apply Hkeep].
    rewrite lookup_insert_Some. intros [[<- <-]|[_ Hc]]; [intros [= <-]|by apply Hkeep].
    exists args. split_and!; try done. eexists. simpl. rewrite lookup_insert_eq. split; [done|]. simpl. lia.
Qed.

Lemma serve_all_dup_ok all rs kv :
  traffic_ok all → rs ⊆ all → room (Z.of_nat (length rs)) kv → dup_ok all kv → dup_ok all (serve_all rs kv).
Proof.
  intros Ht. revert kv. induction rs as [|r rs IH]; intros kv Hsub Hroom Hd; simpl in *; [done|]. apply IH.
  - intros x Hx. apply Hsub. by right.
  - apply serve_room; [lia|]. eapply room_weaken; [|done]. lia.
  - apply serve_dup_ok; try done; [apply Hsub; by left|]. eapply room_weaken; [|done]. lia.
Qed.

Lemma init_dup_ok rs : dup_ok rs MakeKVServer.
Proof. intros c d r Hc. simpl in Hc. by rewrite lookup_empty in Hc. Qed.

(** ** Properties *)

(** The server after serving [rs]. *)
Definition server_after (rs : list Req) : KVServer := serve_all rs MakeKVServer.

Lemma server_after_put rs a :
  traffic_ok (rs ++ [RPut a]) → Z.of_nat (length rs) + 2 < 2 ^ 64 →
  Put a (server_after rs) = PutExec a (server_after rs) ∧ room 1 (server_after rs).
Proof.
  intros Ht Hlen. split.
  - unfold Put. rewrite (dup_ok_PutDup (rs ++ [RPut a])); [done|done| |apply elem_of_app; right; by left].
    apply serve_all_dup_ok; [done|intros x Hx; apply elem_of_app; by left|apply init_room; lia|apply init_dup_ok].
  - apply serve_all_room; [lia|apply init_room]. lia.
Qed.

(** (The duplicate table of Put is dead code).  As long as clerks number their
    requests and versions do not wrap, [Put] answers every request as the plain
    conditional put would: the cached reply is never used. *)
Theorem Put_never_answers_from_cache rs a :
  traffic_ok (rs ++ [RPut a]) → Z.of_nat (length rs) + 2 < 2 ^ 64 →
  PutDup a (server_after rs) = None ∧ Put a (server_after rs) = PutExec a (server_after rs).
Proof.
  intros Ht Hlen. split; [|by apply server_after_put].
  eapply (dup_ok_PutDup (rs ++ [RPut a])); [done| |apply elem_of_app; right; by left].
  apply serve_all_dup_ok; [done|intros x Hx; apply elem_of_app; by left|apply init_room; lia|apply init_dup_ok].
Qed.

(** (A version is written once).  Of all the puts of a run that name the same
    key and version, retransmissions included, at most one is answered OK. *)
Theorem put_version_once rs1 rs2 a a' :
  traffic_ok (rs1 ++ RPut a :: rs2 ++ [RPut a']) → Z.of_nat (length (rs1 ++ RPut a :: rs2)) + 2 < 2 ^ 64 →
  pa_Key a = pa_Key a' → pa_Version a = pa_Version a' →
  pr_Err (Put a (server_after rs1)).2 = OK →
  Put a' (server_after (rs1 ++ RPut a :: rs2)) = (server_after (rs1 ++ RPut a :: rs2), mkPutReply ErrVersion).
Proof.
  intros Ht Hlen Hk Hv Hok. rewrite length_app in Hlen. simpl in Hlen. apply Put_past. rewrite <- Hk, <- Hv.
  assert (Ht1 : traffic_ok (rs1 ++ [RPut a])).
  { eapply traffic_ok_sub; [|done]. intros x. rewrite !elem_of_app, elem_of_cons. set_unfold. tauto. }
  destruct (server_after_put rs1 a Ht1) as [E Hroom]; [lia|]. rewrite E in Hok.
  unfold server_after. rewrite serve_all_app. simpl. fold (server_after rs1).
  assert (Hr : room (Z.of_nat (length rs2) + 1) (server_after rs1)).
  { apply serve_all_room; [lia|apply init_room]. lia. }
  apply serve_all_past; [apply (serve_room _ (RPut a)); [lia|done]|]. rewrite E.
  destruct (PutExec_cases a (server_after rs1) Hroom) as [(p & Ep & -> & _)|(e & Ee & _ & [[-> _]|[-> _]])].
  - rewrite Ep. eexists. simpl. rewrite lookup_insert_eq. split; [done|]. simpl. lia.
  - by rewrite Ee in Hok.
  - by rewrite Ee in Hok.
Qed.

(** ** The clerk *)

(** The requests the server handles during the attempts of a Put. *)
Fixpoint PutTraffic (args : PutArgs) (atts : list Attempt) : list Req :=
  match atts with
  | [] => []
  | (others, DropRequest) :: atts => others ++ PutTraffic args atts
  | (others, DropReply) :: atts => others ++ RPut args :: PutTraffic args atts
  | (others, Deliver) :: _ => others ++ [RPut args]
  end.

(** A request whose Call has returned false may be handled later still, while the
    server handles those of others; [strays] counts such handlers. *)
Definition strays (args : PutArgs) (rs : list Req) : nat := length (filter (λ r, r = RPut args) rs).

(** The handlers of the call that have not run when it returns, of [p] before;
    [None] when more strays run than requests were given up. *)
Fixpoint pending (args : PutArgs) (atts : list Attempt) (p : nat) : option nat :=
  match atts with
  | [] => Some p
  | (others, net) :: atts =>
      if (strays args others <=? p)%nat then
        let p := (p - strays args others)%nat in
        match net with
        | DropRequest => pending args atts (S p)
        | DropReply => pending args atts p
        | Deliver => Some p
        end
      else None
  end.

(** The [k]-th request of [rs] performs the put. *)
Definition performs (args : PutArgs) (rs : list Req) (k : nat) : Prop :=
  rs !! k = Some (RPut args) ∧ pr_Err (Put args (server_after (take k rs))).2 = OK.

(** The loop ends with the reply to a request that was delivered; only the first
    request reports ErrVersion. *)
Lemma PutLoop_result args b atts rs kv' e :
  PutLoop args b atts (server_after rs) = Some (kv', e) →
  ∃ pre, PutTraffic args atts = pre ++ [RPut args] ∧ kv' = server_after (rs ++ pre ++ [RPut args]) ∧
    let r := pr_Err (Put args (server_after (rs ++ pre))).2 in
    (e = r ∧ (r = ErrVersion → b = true ∧ ∃ rest, atts = (pre, Deliver) :: rest)) ∨ (r = ErrVersion ∧ e = ErrMaybe).
Proof.
  revert b rs. induction atts as [|[others net] atts IH]; intros b rs; [done|].
  assert (E : serve_all others (server_after rs) = server_after (rs ++ others)) by (unfold server_after; by rewrite serve_all_app).
  destruct net; cbn -[put_err serve_all server_after Put]; rewrite ?E.
  - intros H. destruct (IH false _ H) as (pre & Et & Ek & Hr). exists (others ++ pre). rewrite Et, app_assoc.
    rewrite <- !app_assoc in *. split_and!; try done. destruct Hr as [[He Hv]|?]; [left|by right]. split; [done|]. by intros []%Hv.
  - assert (E1 : (Put args (server_after (rs ++ others))).1 = server_after (rs ++ others ++ [RPut args])).
    { unfold server_after. by rewrite app_assoc, (serve_all_app (rs ++ others)). }
    rewrite E1. intros H. destruct (IH false _ H) as (pre & Et & Ek & Hr). exists (others ++ RPut args :: pre).
    rewrite Et. rewrite <- !app_assoc in *. simpl in *. split_and!; try done.
    destruct Hr as [[He Hv]|?]; [left|by right]. split; [done|]. by intros []%Hv.
  - destruct (Put args (server_after (rs ++ others))) as [kv1 r1] eqn:Ep. simpl. intros [= <- <-]. exists others. split_and!; [done| |].
    + unfold server_after. rewrite app_assoc, serve_all_app. simpl. fold (server_after (rs ++ others)). by rewrite Ep.
    + rewrite Ep. simpl. unfold put_err. destruct (decide (pr_Err r1 = ErrVersion)) as [Ev|Hne]; [destruct b|]; [left|by right|left].
      * split; [done|]. intros _. split; [done|]. by eexists.
      * split; [done|]. intros ?. congruence.
Qed.

Lemma performs_unique args rs k k' :
  traffic_ok rs → Z.of_nat (length rs) + 2 < 2 ^ 64 → performs args rs k → rs !! k' = Some (RPut args) → (k < k')%nat →
  pr_Err (Put args (server_after (take k' rs))).2 = ErrVersion.
Proof.
  intros Ht Hlen [Hk Hok] Hk' Hlt. pose proof (lookup_lt_Some _ _ _ Hk') as Hb.
  assert (E : take k' rs = take k rs ++ RPut args :: take (k' - S k) (drop (S k) rs)).
  { replace (take k' rs) with (take (S k) rs ++ take (k' - S k) (drop (S k) rs)) by (rewrite take_take_drop; f_equal; lia).
    by rewrite (take_S_r _ _ _ Hk), <- app_assoc. }
  rewrite E. rewrite (put_version_once (take k rs) (take (k' - S k) (drop (S k) rs)) args args); try done.
  - eapply traffic_ok_sub; [|exact Ht]. rewrite app_comm_cons, app_assoc, <- E, <- (take_S_r _ _ _ Hk').
    intros x Hx. by apply elem_of_take in Hx as (i & Hi & _); eapply list_elem_of_lookup_2.
  - rewrite <- E, length_take. lia.
Qed.

Lemma strays_none args rs : strays args rs = O → RPut args ∉ rs.
Proof.
  unfold strays. intros Hn%nil_length_inv Hin. assert (H : RPut args ∈ filter (λ r, r = RPut args) rs) by (by apply list_elem_of_filter).
  rewrite Hn in H. by apply elem_of_nil in H.
Qed.

(** C22 (Clerk.Put: at most once, and what its results mean).  Let a clerk call Put
    on a server that has handled [rs], over any losses of requests and replies and
    any traffic of other clerks, where the handler of a request that Call gave up
    on may run at any time later, also when Put has returned and the server handles
    [later].  Clerks give each Put an id of its own ([traffic_ok]), and there are
    fewer than 2^64 requests.  Over the whole run the server performs the put at most
    once.  OK means that the attempt that was answered performed it.  ErrVersion
    means that it is never performed.  ErrNoKey means that it was not performed when Put
    returned; a handler that was given up on may still perform it.  ErrMaybe says
    nothing, and is returned only when an attempt was given up on. *)
Theorem clerk_put_at_most_once rs ck key value version atts kv' e p later :
  let args := mkPutArgs key value version (clientId ck) (wrap_i64 (seqNum ck + 1)) in
  let during := rs ++ PutTraffic args atts in
  let run := during ++ later in
  (ClerkPut key value version atts ck (server_after rs)).2 = Some (kv', e) →
  RPut args ∉ rs → pending args atts 0 = Some p → (strays args later ≤ p)%nat →
  traffic_ok run → Z.of_nat (length run) + 2 < 2 ^ 64 →
  kv' = server_after during ∧
  (∀ k k', performs args run k → performs args run k' → k = k') ∧
  (e = OK → performs args run (pred (length during))) ∧
  (e = ErrVersion → ∀ k, ¬ performs args run k) ∧
  (e = ErrNoKey → ∀ k, (k < length during)%nat → ¬ performs args run k) ∧
  (e = ErrMaybe → ∃ others net rest, atts = (others, net) :: rest ∧ net ≠ Deliver).
Proof.
  intros args during run Hput Hnew Hp Hl Ht Hlen. simpl in Hput. fold args in Hput.
  destruct (PutLoop_result _ _ _ _ _ _ Hput) as (pre & Et & Ek & Hcase).
  assert (Ed : during = (rs ++ pre) ++ [RPut args]) by (unfold during; by rewrite Et, app_assoc).
  assert (En : pred (length during) = length (rs ++ pre)) by (rewrite Ed, length_app; simpl; lia).
  assert (Er : run = (rs ++ pre) ++ RPut args :: later) by (unfold run; by rewrite Ed, <- app_assoc).
  assert (Hat : run !! length (rs ++ pre) = Some (RPut args) ∧ take (length (rs ++ pre)) run = rs ++ pre).
  { rewrite Er. split; [by apply list_lookup_middle|apply take_app_length]. }
  destruct Hat as [Hat Htake]. split_and!.
  - by rewrite Ek, Ed, <- app_assoc.
  - assert (Hlt : ∀ k k', performs args run k → performs args run k' → ¬ (k < k')%nat).
    { intros k k' H1 [H2 H3] Hlt. pose proof (performs_unique args run k k' Ht Hlen H1 H2 Hlt). congruence. }
    intros k k' H1 H2. pose proof (Hlt k k' H1 H2). pose proof (Hlt k' k H2 H1). lia.
  - intros ->. rewrite En. split; [done|]. rewrite Htake. destruct Hcase as [[<- _]|[_ ?]]; done.
  - intros -> k [Hk Hok]. destruct Hcase as [[Hr Hv]|[_ ?]]; [|done]. destruct (Hv (eq_sym Hr)) as (_ & rest & ->). simpl in Hp.
    destruct (strays args pre <=? 0)%nat eqn:Es; [|done]. apply Nat.leb_le in Es. injection Hp as <-.
    assert (Hk' : k = length (rs ++ pre)).
    { rewrite Er in Hk. destruct (decide (k < length (rs ++ pre))%nat) as [Hlt|Hge].
      - rewrite lookup_app_l in Hk by done. apply list_elem_of_lookup_2, elem_of_app in Hk as [|Hk]; [done|].
        destruct (strays_none args pre); [lia|done].
      - destruct (decide (k = length (rs ++ pre))) as [|Hne]; [done|]. rewrite lookup_app_r in Hk by lia.
        destruct (k - length (rs ++ pre))%nat as [|i] eqn:Ei; [lia|]. simpl in Hk. apply list_elem_of_lookup_2 in Hk.
        destruct (strays_none args later); [lia|done]. }
    subst k. rewrite Htake in Hok. congruence.
  - intros -> k Hk [H1 H2]. destruct Hcase as [[Hr _]|[_ ?]]; [|done].
    destruct (decide (k = length (rs ++ pre))) as [->|Hne]; [rewrite Htake in H2; congruence|].
    assert (Hlt : (k < length (rs ++ pre))%nat) by lia.
    pose proof (performs_unique args run k _ Ht Hlen (conj H1 H2) Hat Hlt) as H. rewrite Htake in H. congruence.
  - intros ->. destruct atts as [|[others net] rest]; [done|]. exists others, net, rest. split; [done|]. intros ->.
    cbn -[put_err serve_all Put] in Hput. pose proof (Put_errs args (serve_all others (server_after rs))) as He.
    destruct (Put args _) as [kv1 [r]]. cbn -[put_err] in Hput, He. injection Hput as _ Hr. revert Hr. unfold put_err.
    case_decide; [done|]. destruct He as [-> |[-> | ->]]; done.
Qed.

(** ** Clerk.Get *)

(** The requests the server serves during the attempts of a Get. *)
Fixpoint GetTraffic (args : GetArgs) (atts : list Attempt) : list Req :=
  match atts with
  | [] => []
  | (others, DropRequest) :: atts => others ++ GetTraffic args atts
  | (others, DropReply) :: atts => others ++ RGet args :: GetTraffic args atts
  | (others, Deliver) :: _ => others ++ [RGet args]
  end.

(** What a Get of [k] sees in a server state. *)
Definition read (k : string) (kv : KVServer) : GetReply :=
  match cache kv !! k with
  | Some p => mkGetReply (value p) (version p) OK
  | None => mkGetReply "" 0 ErrNoKey
  end.

Definition req_client (r : Req) : Z :=
  match r with RGet a => ga_ClientId a | RPut a => pa_ClientId a end.

Lemma serve_other_client r c kv : req_client r ≠ c → clientMap (serve r kv) !! c = clientMap kv !! c.
Proof.
  intros Hne. destruct r; simpl in *; unfold Get, GetExec, Put, PutExec; repeat case_match; simpl;
    rewrite ?lookup_insert_ne by done; done.
Qed.

Lemma serve_all_other_clients rs c kv :
  Forall (λ r, req_client r ≠ c) rs → clientMap (serve_all rs kv) !! c = clientMap kv !! c.
Proof.
  intros Hrs. revert kv. induction Hrs as [|r rs Hr _ IH]; intros kv; [done|].
  simpl. rewrite IH. by apply serve_other_client.
Qed.

(** The cached reply of the request [args], if there is one, is a reading of a
    state passed through since [kv0]. *)
Definition cached_reading (args : GetArgs) (kv0 : KVServer) (served : list Req) : Prop :=
  ∀ d r, clientMap (serve_all served kv0) !! ga_ClientId args = Some d →
    lastGetReply d = Some r → lastSeqNum d = ga_SeqNum args →
    ∃ before after, served = before ++ after ∧ r = read (ga_Key args) (serve_all before kv0).

Lemma cached_reading_others args kv0 served others :
  Forall (λ r, req_client r ≠ ga_ClientId args) others →
  cached_reading args kv0 served → cached_reading args kv0 (served ++ others).
Proof.
  intros Ho H d r. rewrite serve_all_app, serve_all_other_clients by done. intros H1 H2 H3.
  destruct (H d r H1 H2 H3) as (b & a & -> & ->). exists b, (a ++ others). by rewrite app_assoc.
Qed.

Lemma Get_exec_reading args kv : GetExec args kv = ((GetExec args kv).1, read (ga_Key args) kv).
Proof. unfold GetExec, read. by destruct (cache kv !! ga_Key args). Qed.

(** A Get answers with a reading of a state it passed through, and leaves the
    duplicate table so. *)
Lemma Get_reading args kv0 served :
  cached_reading args kv0 served →
  (∃ before after, served = before ++ after ∧
     (Get args (serve_all served kv0)).2 = read (ga_Key args) (serve_all before kv0)) ∧
  cached_reading args kv0 (served ++ [RGet args]).
Proof.
  intros H. assert (Hexec : Get args (serve_all served kv0) = GetExec args (serve_all served kv0) →
    (∃ before after, served = before ++ after ∧
       (Get args (serve_all served kv0)).2 = read (ga_Key args) (serve_all before kv0)) ∧
    cached_reading args kv0 (served ++ [RGet args])).
  { intros E. split; [exists served, []; by rewrite app_nil_r, E, Get_exec_reading|].
    intros d r. rewrite serve_all_app. simpl. rewrite E. simpl. rewrite lookup_insert_eq.
    intros [= <-] [= <-] _. by exists served, [RGet args]. }
  unfold Get in Hexec |- *. destruct (clientMap (serve_all served kv0) !! ga_ClientId args) as [d|] eqn:Ed; [|auto].
  destruct (lastGetReply d) as [r|] eqn:Er; [|auto].
  destruct (Z.eqb_spec (ga_SeqNum args) (lastSeqNum d)) as [Es|]; [|auto]. split.
  - by apply (H d r).
  - intros d' r' Hd Hr Hs. rewrite serve_all_app in Hd. simpl in Hd. unfold Get in Hd. rewrite Ed, Er, Es, Z.eqb_refl in Hd.
    simpl in Hd. destruct (H d' r' Hd Hr Hs) as (b & a & -> & ->). exists b, (a ++ [RGet args]). by rewrite app_assoc.
Qed.

Lemma GetLoop_reading args atts kv0 served kv' r :
  Forall (λ att, Forall (λ q, req_client q ≠ ga_ClientId args) att.1) atts →
  cached_reading args kv0 served →
  GetLoop args atts (serve_all served kv0) = Some (kv', r) →
  kv' = serve_all (served ++ GetTraffic args atts) kv0 ∧
  ∃ before after, served ++ GetTraffic args atts = before ++ after ∧ r = read (ga_Key args) (serve_all before kv0).
Proof.
  intros Ho. revert served. induction Ho as [|[others net] atts Ho _ IH]; intros served Hc; [done|].
  cbn -[serve_all Get]. simpl in Ho.
  apply (cached_reading_others _ _ _ others) in Hc; [|done].
  destruct net; cbn -[serve_all Get]; rewrite <- serve_all_app.
  - intros H. rewrite app_assoc. by apply IH.
  - intros H. destruct (Get_reading _ _ _ Hc) as [_ Hc'].
    destruct (IH _ Hc') as [-> Hr]; [by rewrite serve_all_app|]. by rewrite <- !app_assoc in *.
  - destruct (Get args (serve_all (served ++ others) kv0)) as [kv1 r1] eqn:E. intros [= <- <-].
    destruct (Get_reading _ _ _ Hc) as [(b & a & Eb & Er) _]. rewrite E in Er. simpl in Er. split.
    + rewrite app_assoc, (serve_all_app (served ++ others)). simpl. by rewrite E.
    + exists b, (a ++ [RGet args]). by rewrite !app_assoc, Eb.
Qed.

(** (Clerk.Get reads a state of its own duration).  Whatever the network loses
    and other clerks do meanwhile, and although retransmissions are answered from
    the duplicate table, Clerk.Get returns the value and version its key had at
    some moment between the call and its return (ErrNoKey when it was absent). *)
Theorem clerk_get_reads_current ck key atts kv kv' v ver e :
  let args := mkGetArgs key (clientId ck) (wrap_i64 (seqNum ck + 1)) in
  Forall (λ att, Forall (λ q, req_client q ≠ clientId ck) att.1) atts →
  (∀ d, clientMap kv !! clientId ck = Some d → lastSeqNum d ≠ wrap_i64 (seqNum ck + 1)) →
  (ClerkGet key atts ck kv).2 = Some (kv', (v, ver, e)) →
  kv' = serve_all (GetTraffic args atts) kv ∧
  ∃ before after, GetTraffic args atts = before ++ after ∧
    mkGetReply v ver e = read key (serve_all before kv).
Proof.
  intros args Ho Hnew. simpl. fold args. destruct (GetLoop args atts kv) as [[kv1 r]|] eqn:E; simpl; [|done].
  intros [= <- <- <- <-]. destruct (GetLoop_reading args atts kv [] kv1 r) as [-> (b & a & Eb & ->)]; try done.
  - intros d r' Hd _ Hs. by destruct (Hnew d Hd).
  - simpl in *. split; [done|]. exists b, a. split; [done|]. by destruct (read _ _).
Qed.

(** ** The sequential model *)

(** The state of one key, as models1/kv.go has it. *)
Definition abs (k : string) (kv : KVServer) : KvState :=
  match cache kv !! k with Some p => mkKvState (value p) (version p) | None => KvInit end.

(** (The server implements the sequential model, but for ErrNoKey).  A Put of
    any run takes the state of its key where [KvModel.Step] takes it, leaves all
    other keys alone, and its reply is one the model accepts, except exactly when
    the key is absent and the version is not 0: the server then answers ErrNoKey
    as its comment says, and the model rejects that answer. *)
Theorem server_refines_model rs a :
  traffic_ok (rs ++ [RPut a]) → Z.of_nat (length rs) + 2 < 2 ^ 64 →
  let kv := server_after rs in
  let kv' := (Put a kv).1 in
  let err := pr_Err (Put a kv).2 in
  KvStep (abs (pa_Key a) kv) (mkKvInput 1 (pa_Key a) (pa_Value a) (pa_Version a)) (mkKvOutput "" 0 err) =
    (negb (bool_decide (err = ErrNoKey)), Some (abs (pa_Key a) kv')) ∧
  (∀ k, k ≠ pa_Key a → abs k kv' = abs k kv) ∧
  (err = ErrNoKey ↔ cache kv !! pa_Key a = None ∧ pa_Version a ≠ 0) ∧
  (∀ g, KvStep (abs (ga_Key g) kv) (mkKvInput 0 (ga_Key g) "" 0)
     (mkKvOutput (gr_Value (GetExec g kv).2) (gr_Version (GetExec g kv).2) (gr_Err (GetExec g kv).2)) =
     (true, Some (abs (ga_Key g) (GetExec g kv).1))).
Proof.
  intros Ht Hlen. destruct (server_after_put rs a Ht Hlen) as [E _]. cbv zeta. rewrite E.
  set (kv := server_after rs). unfold PutExec, KvStep, abs.
  split_and!.
  - destruct (cache kv !! pa_Key a) as [p|] eqn:Ep; cbn -[Z.eqb wrap_u64].
    + rewrite (Z.eqb_sym (version p)). destruct (Z.eqb_spec (pa_Version a) (version p)) as [Ev|]; simpl;
        [by rewrite lookup_insert_eq|by rewrite Ep].
    + rewrite (Z.eqb_sym 0). destruct (Z.eqb_spec (pa_Version a) 0) as [Ev|]; simpl;
        [by rewrite lookup_insert_eq|by rewrite Ep].
  - intros k Hk. destruct (cache kv !! pa_Key a); simpl; destruct (pa_Version a =? _); simpl; by rewrite ?lookup_insert_ne.
  - destruct (cache kv !! pa_Key a) as [p|] eqn:Ep; simpl.
    + destruct (Z.eqb_spec (pa_Version a) (version p)); simpl; split; (done || by intros []).
    + destruct (Z.eqb_spec (pa_Version a) 0); simpl; split; try done; by intros [].
  - intros g. unfold GetExec. cbn -[bool_decide]. by destruct (cache kv !! ga_Key g) as [p|]; cbn -[bool_decide];
      rewrite bool_decide_eq_true_2.
Qed.

(** ** Witnesses *)

Lemma traffic_ok_Forall rs :
  Forall (λ q, Forall (λ q', match q, q' with
    | RPut a, RPut a' => pa_ClientId a = pa_ClientId a' → pa_SeqNum a = pa_SeqNum a' → a = a'
    | _, _ => True
    end) rs) rs → traffic_ok rs.
Proof. intros H a a' Ha Ha'. rewrite Forall_forall in H. specialize (H _ Ha). rewrite Forall_forall in H. apply (H _ Ha'). Qed.

Ltac solve_traffic := apply traffic_ok_Forall; repeat (constructor; [|]); try constructor; simpl; try done.

Definition put0 : PutArgs := mkPutArgs "k" "a" 0 1 1.
Definition put1 : PutArgs := mkPutArgs "k" "b" 0 2 1.

Lemma Put_never_answers_from_cache_witness :
  traffic_ok ([RPut put0] ++ [RPut put0]) ∧ Put put0 (server_after [RPut put0]) = PutExec put0 (server_after [RPut put0]).
Proof.
  assert (Ht : traffic_ok ([RPut put0] ++ [RPut put0])).
  { solve_traffic. }
  split; [done|]. apply (Put_never_answers_from_cache [RPut put0] put0); [done|simpl; lia].
Defined.

Lemma put_version_once_witness :
  (Put put1 (server_after [RPut put0; RGet (mkGetArgs "k" 3 1)])).2 = mkPutReply ErrVersion.
Proof.
  refine (f_equal snd (put_version_once [] [RGet (mkGetArgs "k" 3 1)] put0 put1 _ _ _ _ _));
    [solve_traffic|simpl; lia|done|done|vm_compute; done].
Defined.

(** The handler of the first attempt outlives its call; the reply of the second
    is lost; another clerk's put comes in, and the retransmission is told ErrVersion.
    The handler of the first attempt runs last. *)
Definition lossy : list Attempt := [([], DropRequest); ([], DropReply); ([RPut put1], Deliver)].

Lemma clerk_put_at_most_once_witness :
  (ClerkPut "k" "a" 0 lossy (mkClerk 1 0) (server_after [])).2 = Some (server_after (PutTraffic put0 lossy), ErrMaybe) ∧
  performs put0 (PutTraffic put0 lossy ++ [RPut put0]) 0 ∧
  (∀ k, performs put0 (PutTraffic put0 lossy ++ [RPut put0]) k → k = 0%nat).
Proof.
  assert (E : (ClerkPut "k" "a" 0 lossy (mkClerk 1 0) (server_after [])).2 = Some (server_after (PutTraffic put0 lossy), ErrMaybe))
    by (vm_compute; reflexivity).
  assert (H0 : performs put0 (PutTraffic put0 lossy ++ [RPut put0]) 0) by (split; vm_compute; reflexivity).
  split; [exact E|]. split; [exact H0|]. intros k Hk.
  destruct (clerk_put_at_most_once [] (mkClerk 1 0) "k" "a" 0 lossy _ ErrMaybe 1 [RPut put0] E) as (_ & Honce & _).
  - intros Hin. by apply elem_of_nil in Hin.
  - vm_compute. reflexivity.
  - vm_compute. lia.
  - solve_traffic.
  - vm_compute. reflexivity.
  - exact (Honce k 0%nat Hk H0).
Defined.

Definition lossy_get : list Attempt := [([], DropReply); ([RPut put0], Deliver)].

Lemma clerk_get_reads_current_witness :
  ∃ before after, GetTraffic (mkGetArgs "k" 3 1) lossy_get = before ++ after ∧
    mkGetReply "" 0 ErrNoKey = read "k" (serve_all before MakeKVServer).
Proof.
  destruct (clerk_get_reads_current (mkClerk 3 0) "k" lossy_get MakeKVServer (serve_all (GetTraffic (mkGetArgs "k" 3 1) lossy_get) MakeKVServer) "" 0 ErrNoKey)
    as [_ H]; [repeat constructor; done|intros d Hd; simpl in Hd; by rewrite lookup_empty in Hd|vm_compute; done|].
  exact H.
Defined.

Lemma server_refines_model_witness :
  KvStep (abs "k" (server_after [])) (mkKvInput 1 "k" "a" 0) (mkKvOutput "" 0 OK) =
    (true, Some (abs "k" (Put put0 (server_after [])).1)).
Proof.
  refine (proj1 (server_refines_model [] put0 _ _)); [|simpl; lia].
  solve_traffic.
Defined.
