(* ===== verification/Lock.v ===== *)
(** * kvsrv1/lock: the lock built on a key/value clerk

    lock.go uses its clerk only through [kvtest.IKVClerk]: [KVService] states
    what the service behind a clerk promises, and the locks are verified against
    that class; the kvsrv server is an instance.  A world is the service and the
    locks, each at a point of [Acquire] or [Release]; the attempts of the clerks'
    calls, their losses and everybody else's traffic interleave freely. *)

From S2P Require Import Prelude KVSrv.
Local Open Scope Z_scope.

(** ** The interface of the service *)

Definition cell_version (c : option KVPair) : Tversion := default 0 (version <$> c).
Definition cell_value (c : option KVPair) : string := default "" (value <$> c).

(** [kv_put] and [kv_get] are one execution of the handler; [None] means that the
    request is not one the service answers for (a reused request id, a version
    counter at its end). *)
Class KVService (S : Type) := {
  kv_init : S;
  kv_cells : S → gmap string KVPair;
  kv_put : PutArgs → S → option (S * Err);
  kv_get : GetArgs → S → S;
  kv_init_cells : kv_cells kv_init = ∅;
  kv_get_cells a s : kv_cells (kv_get a s) = kv_cells s;
  kv_put_cells a s s' e : kv_put a s = Some (s', e) →
    (e = OK ∧ pa_Version a = cell_version (kv_cells s !! pa_Key a) ∧
       kv_cells s' = <[pa_Key a := mkKVPair (pa_Value a) (pa_Version a + 1)]> (kv_cells s)) ∨
    (e ≠ OK ∧ pa_Version a ≠ cell_version (kv_cells s !! pa_Key a) ∧ kv_cells s' = kv_cells s);
  kv_put_room a s s' : kv_put a s = Some (s', OK) → pa_Version a + 1 < 2 ^ 64;
  kv_put_refused a s s' e :
    kv_put a s = Some (s', e) → e ≠ OK → is_Some (kv_cells s !! pa_Key a) → e = ErrVersion
}.

(** The kvsrv server: its state is what its request history makes it. *)
Definition traffic_okb (rs : list Req) : bool :=
  forallb (λ q, forallb (λ q', match q, q' with
    | RPut a, RPut a' =>
        negb ((pa_ClientId a =? pa_ClientId a') && (pa_SeqNum a =? pa_SeqNum a')) || bool_decide (a = a')
    | _, _ => true
    end) rs) rs.

Lemma traffic_okb_ok rs : traffic_okb rs = true → traffic_ok rs.
Proof.
  unfold traffic_okb. rewrite forallb_forall. intros H. apply traffic_ok_Forall, Forall_forall. intros q Hq.
  specialize (H q (proj1 (list_elem_of_In _ _) Hq)). rewrite forallb_forall in H.
  apply Forall_forall. intros q' Hq'. specialize (H q' (proj1 (list_elem_of_In _ _) Hq')).
  destruct q, q'; try done. intros Hc Hs. rewrite Hc, Hs, !Z.eqb_refl in H. by apply bool_decide_eq_true in H.
Qed.

Definition kvsrv_put (a : PutArgs) (rs : list Req) : option (list Req * Err) :=
  if traffic_okb (rs ++ [RPut a]) && (Z.of_nat (length rs) + 2 <? 2 ^ 64)
  then Some (rs ++ [RPut a], pr_Err (Put a (server_after rs)).2) else None.

Lemma server_after_snoc rs r : server_after (rs ++ [r]) = serve r (server_after rs).
Proof. unfold server_after. by rewrite serve_all_app. Qed.

(** A put the server answers takes effect when its version is that of the cell,
    and is refused otherwise. *)
Lemma kvsrv_put_cases a rs rs' e :
  kvsrv_put a rs = Some (rs', e) →
  let k := pa_Key a in
  let cells := cache (server_after rs) in
  (rs' = rs ++ [RPut a] ∧ e = OK ∧ pa_Version a = cell_version (cells !! k) ∧ pa_Version a + 1 < 2 ^ 64 ∧
     cache (server_after rs') = <[k := mkKVPair (pa_Value a) (pa_Version a + 1)]> cells) ∨
  (pa_Version a ≠ cell_version (cells !! k) ∧ cache (server_after rs') = cells ∧
     ((e = ErrVersion ∧ is_Some (cells !! k)) ∨ (e = ErrNoKey ∧ cells !! k = None))).
Proof.
  unfold kvsrv_put. destruct (traffic_okb _) eqn:Et; [|done].
  destruct (Z.ltb_spec (Z.of_nat (length rs) + 2) (2 ^ 64)) as [Hlen|]; simpl; [|done]. intros [= <- <-].
  destruct (server_after_put rs a) as [E Hroom]; [by apply traffic_okb_ok|done|].
  rewrite server_after_snoc. simpl. rewrite E.
  destruct (PutExec_cases a _ Hroom) as [(p & Ep & -> & Hv)|(err & -> & Hv & He)]; [left|by right].
  rewrite Ep. split_and!; try done. rewrite Hv. destruct Hroom as [H1 Hroom].
  destruct (cache (server_after rs) !! pa_Key a) as [p|] eqn:Ec; simpl; [apply (Hroom _ p Ec)|lia].
Qed.

#[export, refine] Instance kvsrv_service : KVService (list Req) := {|
  kv_init := [];
  kv_cells rs := cache (server_after rs);
  kv_put := kvsrv_put;
  kv_get a rs := rs ++ [RGet a]
|}.
Proof.
  - done.
  - intros a rs. rewrite server_after_snoc. apply Get_cache.
  - intros a rs rs' e [(-> & -> & Hv & _ & ->)|(Hv & -> & [[-> _]|[-> _]])]%kvsrv_put_cases; [left|right..]; by split_and!.
  - intros a rs rs' [(_ & _ & _ & Hroom & _)|(_ & _ & [[? _]|[? _]])]%kvsrv_put_cases; done.
  - intros a rs rs' e [(_ & -> & _)|(_ & _ & [[-> _]|[_ Hn]])]%kvsrv_put_cases; [done..|]. simpl. rewrite Hn. by intros _ [? ?].
Defined.

(** ** lock.go *)

Record Lock := mkLock { key : string; clientID : string }.

(** [kvtest.RandValue] is the parameter [rand]. *)
Definition MakeLock (l : string) (rand : string) : Lock := mkLock l rand.

Inductive Op := OpAcquire | OpRelease.

(** What the body of the loop does next. *)
Inductive Action := AReturn | ARetry | APut (val : string) (ver : Tversion).

Definition AcquireGet (lk : Lock) (r : GetReply) : Action :=
  if decide (gr_Err r = ErrNoKey) then APut (clientID lk) 0
  else if decide (gr_Err r = OK) then
    if decide (gr_Value r = clientID lk) then AReturn
    else if decide (gr_Value r = "") then APut (clientID lk) (gr_Version r)
    else ARetry
  else ARetry.

Definition AcquirePut (e : Err) : Action := if decide (e = OK) then AReturn else ARetry.

Definition ReleaseGet (lk : Lock) (r : GetReply) : Action :=
  if decide (gr_Err r = ErrNoKey) then AReturn
  else if decide (gr_Err r = OK) then
    if decide (gr_Value r = clientID lk) then APut "" (gr_Version r) else AReturn
  else ARetry.

Definition ReleasePut (e : Err) : Action := if decide (e = OK) then AReturn else ARetry.

Definition after_get (op : Op) := match op with OpAcquire => AcquireGet | OpRelease => ReleaseGet end.
Definition after_put (op : Op) := match op with OpAcquire => AcquirePut | OpRelease => ReleasePut end.

(** ** The world *)

Inductive Pc :=
  | Idle
  | Held
  | InGet (op : Op) (args : GetArgs) (reading : option GetReply)
  | InPut (op : Op) (args : PutArgs) (firstAttempt : bool).

Record Client := mkClient { lk : Lock; ck : Clerk; pc : Pc }.

(** [ck.Get] begins. *)
Definition call_get (op : Op) (c : Client) : Client :=
  let k := mkClerk (clientId (ck c)) (wrap_i64 (seqNum (ck c) + 1)) in
  mkClient (lk c) k (InGet op (mkGetArgs (key (lk c)) (clientId k) (seqNum k)) None).

(** [ck.Put] begins. *)
Definition call_put (op : Op) (val : string) (ver : Tversion) (c : Client) : Client :=
  let k := mkClerk (clientId (ck c)) (wrap_i64 (seqNum (ck c) + 1)) in
  mkClient (lk c) k (InPut op (mkPutArgs (key (lk c)) val ver (clientId k) (seqNum k)) true).

Definition act (op : Op) (a : Action) (c : Client) : Client :=
  match a with
  | AReturn => mkClient (lk c) (ck c) (match op with OpAcquire => Held | OpRelease => Idle end)
  | ARetry => call_get op c
  | APut val ver => call_put op val ver c
  end.

Section world.
Context {S : Type} `{!KVService S}.

Record LockWorld := mkLockWorld { svc : S; clients : gmap nat Client }.

(** One thing that can happen. *)
Inductive LockEvent :=
  | LCall (op : Op) (n : nat)      (* the application calls Acquire or Release *)
  | LGetExec (n : nat)             (* the server reads for the Get of [n] *)
  | LGetReturn (n : nat)           (* that Get returns *)
  | LPutAttempt (n : nat) (net : Net) (* one attempt of the Put of [n] *)
  | LOther (a : PutArgs).          (* a put of someone else, to a key no lock uses *)

Definition reading_of (k : string) (s : S) : GetReply :=
  match kv_cells s !! k with
  | Some p => mkGetReply (value p) (version p) OK
  | None => mkGetReply "" 0 ErrNoKey
  end.

Definition lock_step (ev : LockEvent) (w : LockWorld) : option LockWorld :=
  match ev with
  | LCall op n =>
      c ← clients w !! n;
      match pc c with
      | Idle | Held => Some (mkLockWorld (svc w) (<[n := call_get op c]> (clients w)))
      | _ => None
      end
  | LGetExec n =>
      c ← clients w !! n;
      match pc c with
      | InGet op args _ =>
          let c' := mkClient (lk c) (ck c) (InGet op args (Some (reading_of (ga_Key args) (svc w)))) in
          Some (mkLockWorld (kv_get args (svc w)) (<[n := c']> (clients w)))
      | _ => None
      end
  | LGetReturn n =>
      c ← clients w !! n;
      match pc c with
      | InGet op args (Some r) =>
          Some (mkLockWorld (svc w) (<[n := act op (after_get op (lk c) r) c]> (clients w)))
      | _ => None
      end
  | LPutAttempt n net =>
      c ← clients w !! n;
      match pc c with
      | InPut op args first =>
          let again := mkClient (lk c) (ck c) (InPut op args false) in
          match net with
          | DropRequest => Some (mkLockWorld (svc w) (<[n := again]> (clients w)))
          | DropReply =>
              '(s, _) ← kv_put args (svc w);
              Some (mkLockWorld s (<[n := again]> (clients w)))
          | Deliver =>
              '(s, e) ← kv_put args (svc w);
              Some (mkLockWorld s (<[n := act op (after_put op (put_err first e)) c]> (clients w)))
          end
      | _ => None
      end
  | LOther a =>
      if bool_decide (map_Forall (λ _ c, key (lk c) ≠ pa_Key a) (clients w)) then
        '(s, _) ← kv_put a (svc w); Some (mkLockWorld s (clients w))
      else None
  end.

Fixpoint lock_run (evs : list LockEvent) (w : LockWorld) : option LockWorld :=
  match evs with [] => Some w | ev :: evs => w ← lock_step ev w; lock_run evs w end.

(** ** Mutual exclusion *)

Definition cell (k : string) (w : LockWorld) : option KVPair := kv_cells (svc w) !! k.

(** The cell has not changed since it was read as value [v] at version [ver],
    or its version has moved on. *)
Definition since (v : string) (ver : Tversion) (c : option KVPair) : Prop :=
  ver < cell_version c ∨ (cell_version c = ver ∧ cell_value c = v).

(** What a client knows about its lock's cell at each point of the code. *)
Definition pc_inv (l : Lock) (p : Pc) (c : option KVPair) : Prop :=
  match p with
  | Idle => cell_value c ≠ clientID l
  | Held => cell_value c = clientID l
  | InGet op args r =>
      ga_Key args = key l ∧
      ∀ x, r = Some x →
        (gr_Err x = OK ∨ (gr_Err x = ErrNoKey ∧ gr_Value x = "" ∧ gr_Version x = 0)) ∧
        since (gr_Value x) (gr_Version x) c ∧
        (gr_Value x = clientID l → cell_value c = clientID l) ∧
        (gr_Value x ≠ clientID l → cell_value c ≠ clientID l)
  | InPut OpAcquire args _ => pa_Key args = key l ∧ pa_Value args = clientID l ∧ since "" (pa_Version args) c
  | InPut OpRelease args _ => pa_Key args = key l ∧ pa_Value args = "" ∧ since (clientID l) (pa_Version args) c
  end.

(** The locks that share a key have different, non-empty ids. *)
Definition ids_ok (cs : gmap nat Client) : Prop :=
  (∀ n c, cs !! n = Some c → clientID (lk c) ≠ "") ∧
  (∀ n m c d, cs !! n = Some c → cs !! m = Some d → key (lk c) = key (lk d) →
     clientID (lk c) = clientID (lk d) → n = m).

Definition lock_inv (w : LockWorld) : Prop :=
  ids_ok (clients w) ∧ ∀ n c, clients w !! n = Some c → pc_inv (lk c) (pc c) (cell (key (lk c)) w).

Lemma ids_ok_insert cs n c c' :
  cs !! n = Some c → lk c' = lk c → ids_ok cs → ids_ok (<[n := c']> cs).
Proof.
  intros Hc El [H1 H2]. split.
  - intros m d. rewrite lookup_insert_Some. intros [[<- <-]|[_ Hd]]; [rewrite El|]; eauto.
  - assert (Hget : ∀ m d, <[n := c']> cs !! m = Some d → ∃ d0, cs !! m = Some d0 ∧ lk d = lk d0).
    { intros m d. rewrite lookup_insert_Some. intros [[<- <-]|[_ Hd]]; eauto. }
    intros m m' d d' (d0 & Hd & ->)%Hget (d0' & Hd' & ->)%Hget. by apply H2.
Qed.

Lemma act_lk op a c : lk (act op a c) = lk c.
Proof. by destruct a. Qed.

(** A step of client [n] that leaves the cells alone. *)
Lemma lock_inv_local w n c c' s :
  lock_inv w → clients w !! n = Some c → lk c' = lk c → kv_cells s = kv_cells (svc w) →
  pc_inv (lk c) (pc c') (cell (key (lk c)) w) →
  lock_inv (mkLockWorld s (<[n := c']> (clients w))).
Proof.
  intros [Hids Hpc] Hc El Es Hinv. split; [by apply (ids_ok_insert _ _ c)|]. simpl.
  intros m d. unfold cell in *. simpl. rewrite Es, lookup_insert_Some.
  intros [[<- <-]|[_ Hd]]; [by rewrite El|by apply (Hpc m)].
Qed.

(** A put that takes effect moves the version on and, when its cell held [v] and
    now holds [v'], does not disturb a client whose id is neither. *)
Lemma pc_inv_put l p c v' :
  clientID l ≠ cell_value c → clientID l ≠ v' →
  pc_inv l p c → pc_inv l p (Some (mkKVPair v' (cell_version c + 1))).
Proof.
  intros Hv Hv'. assert (Hs : ∀ v ver, since v ver c → since v ver (Some (mkKVPair v' (cell_version c + 1)))).
  { intros v ver [H|[H _]]; left; unfold cell_version in *; simpl; lia. }
  destruct p as [| |op args r|op args f]; cbn [pc_inv].
  - intros _. by apply not_eq_sym.
  - congruence.
  - intros [Hk H]. split; [done|]. intros x Hx. destruct (H x Hx) as (H1 & H2 & H3 & H4).
    split_and!; [done|by apply Hs| |]; intros Hxv; [by destruct Hv; symmetry; apply H3|by apply not_eq_sym].
  - destruct op; intros (H1 & H2 & H3); split_and!; auto.
Qed.

(** A put in flight takes effect only on the cell its client read: free when it
    acquires, its own when it releases. *)
Lemma in_put_effect w n c op args f :
  lock_inv w → clients w !! n = Some c → pc c = InPut op args f →
  pa_Version args = cell_version (cell (key (lk c)) w) →
  pa_Key args = key (lk c) ∧ ∀ m d, clients w !! m = Some d → m ≠ n → key (lk d) = key (lk c) →
    clientID (lk d) ≠ cell_value (cell (key (lk c)) w) ∧ clientID (lk d) ≠ pa_Value args.
Proof.
  intros [[Hne Hinj] Hpc] Hc Ep Hv. pose proof (Hpc n c Hc) as H. rewrite Ep in H. simpl in H.
  assert (Hvals : pa_Key args = key (lk c) ∧
    (pa_Value args = "" ∧ cell_value (cell (key (lk c)) w) = clientID (lk c) ∨
     pa_Value args = clientID (lk c) ∧ cell_value (cell (key (lk c)) w) = "")).
  { destruct op; destruct H as (H1 & H2 & [H3|[_ H3]]); (lia || auto). }
  destruct Hvals as [Hk Hvals]. split; [done|]. intros m d Hd Hmn Ek.
  assert (clientID (lk d) ≠ clientID (lk c)) by (intros E; apply Hmn; by apply (Hinj m n d c)).
  specialize (Hne m d Hd). destruct Hvals as [[-> ->]|[-> ->]]; done.
Qed.

Lemma lock_inv_put w n c c' op args f s e :
  lock_inv w → clients w !! n = Some c → pc c = InPut op args f → lk c' = lk c →
  kv_put args (svc w) = Some (s, e) →
  pc_inv (lk c) (pc c') (kv_cells s !! key (lk c)) →
  lock_inv (mkLockWorld s (<[n := c']> (clients w))).
Proof.
  intros Hinv Hc Ep El Hput Hc'. destruct (kv_put_cells _ _ _ _ Hput) as [(_ & Hv & Es)|(_ & _ & Es)].
  - assert (Hk : pa_Key args = key (lk c)).
    { destruct Hinv as [_ Hpc]. specialize (Hpc n c Hc). rewrite Ep in Hpc. by destruct op; destruct Hpc. }
    rewrite Hk in Hv. destruct (in_put_effect w n c op args f Hinv Hc Ep Hv) as [_ Hothers].
    destruct Hinv as [Hids Hpc]. split; [by apply (ids_ok_insert _ _ c)|]. simpl.
    intros m d. unfold cell. simpl. rewrite lookup_insert_Some. intros [[<- <-]|[Hmn Hd]]; [by rewrite El|].
    specialize (Hpc m d Hd). unfold cell in Hpc. rewrite Es, Hk.
    destruct (decide (key (lk d) = key (lk c))) as [Ek|Hne].
    + rewrite Ek in *. rewrite lookup_insert_eq, Hv. destruct (Hothers m d Hd) as [H1 H2]; [done|done|].
      by apply pc_inv_put.
    + by rewrite lookup_insert_ne by done.
  - eapply lock_inv_local; [done|done|done|done|]. by rewrite Es in Hc'.
Qed.

(** From what it knows when a Get returns, the client knows enough at the next
    point of its loop. *)
Lemma act_get_inv op c args x cl :
  pc_inv (lk c) (InGet op args (Some x)) cl → clientID (lk c) ≠ "" →
  pc_inv (lk c) (pc (act op (after_get op (lk c) x) c)) cl.
Proof.
  intros [_ H] Hne. destruct (H x eq_refl) as (He & Hs & Heq & Hneq).
  destruct op; simpl; unfold AcquireGet, ReleaseGet; destruct (decide (gr_Err x = ErrNoKey)) as [Enk|Hnk].
  - destruct He as [He|(_ & Hv & H0)]; [congruence|]. simpl. by rewrite Hv, H0 in Hs.
  - rewrite decide_True by (destruct He as [|[? _]]; [done|congruence]).
    destruct (decide (gr_Value x = clientID (lk c))); [simpl; auto|].
    destruct (decide (gr_Value x = "")) as [Ev|]; simpl; [by rewrite Ev in Hs|done].
  - destruct He as [He|(_ & Hv & _)]; [congruence|]. simpl. apply Hneq. by rewrite Hv.
  - rewrite decide_True by (destruct He as [|[? _]]; [done|congruence]).
    destruct (decide (gr_Value x = clientID (lk c))) as [Ev|]; simpl; [by rewrite Ev in Hs|auto].
Qed.

Lemma act_put_inv op c args f g e cl :
  pc_inv (lk c) (InPut op args f) g → clientID (lk c) ≠ "" → (e = OK → cell_value cl = pa_Value args) →
  pc_inv (lk c) (pc (act op (after_put op (put_err f e)) c)) cl.
Proof.
  intros H Hne Hok. assert (Hput : put_err f e = OK → e = OK).
  { unfold put_err. case_decide; [by destruct f|done]. }
  destruct op; simpl; unfold AcquirePut, ReleasePut; destruct (decide (put_err f e = OK)) as [Ee|]; simpl; try done;
    destruct H as (_ & H & _); rewrite (Hok (Hput Ee)); congruence.
Qed.

Lemma reading_inv op l args k w :
  k = key l → ga_Key args = k → pc_inv l (InGet op args (Some (reading_of k (svc w)))) (cell k w).
Proof.
  intros -> Hk. split; [done|]. intros x [= <-]. unfold reading_of, cell, since, cell_version, cell_value.
  destruct (kv_cells (svc w) !! key l) as [p|]; simpl; split_and!; auto.
Qed.

Lemma again_inv l op args f f' c : pc_inv l (InPut op args f) c → pc_inv l (InPut op args f') c.
Proof. by destruct op. Qed.

(** After its own put a client in [InPut] still knows what it knew. *)
Lemma own_put_since l op args f s s' e :
  pc_inv l (InPut op args f) (kv_cells s !! key l) → kv_put args s = Some (s', e) →
  pc_inv l (InPut op args f) (kv_cells s' !! key l) ∧ (e = OK → cell_value (kv_cells s' !! key l) = pa_Value args).
Proof.
  intros H Hput. assert (Hk : pa_Key args = key l) by (by destruct op; destruct H).
  destruct (kv_put_cells _ _ _ _ Hput) as [(-> & Hv & Es)|(Hne & _ & Es)].
  - rewrite Es, Hk, lookup_insert_eq. split; [|done].
    assert (Hs : ∀ v, since v (pa_Version args) (Some (mkKVPair (pa_Value args) (pa_Version args + 1)))).
    { intros v. left. unfold cell_version. simpl. lia. }
    destruct op; destruct H as (H1 & H2 & _); split_and!; auto.
  - by rewrite Es.
Qed.

Lemma lock_step_inv ev w w' : lock_step ev w = Some w' → lock_inv w → lock_inv w'.
Proof.
  intros Hstep Hinv. pose proof Hinv as [Hids Hpc]. destruct ev as [op n|n|n|n net|a]; simpl in Hstep;
    try (destruct (clients w !! n) as [c|] eqn:Hc; simpl in Hstep; [|done]; pose proof (Hpc n c Hc) as Hn;
         pose proof (proj1 Hids n c Hc) as Hne).
  - assert (w' = mkLockWorld (svc w) (<[n := call_get op c]> (clients w))) as ->.
    { destruct (pc c); simplify_eq; done. }
    by apply (lock_inv_local w n c).
  - destruct (pc c) as [| |op args r|] eqn:Ep; simplify_eq. apply (lock_inv_local w n c); try done.
    + apply kv_get_cells.
    + destruct Hn as [Hk _]. cbn [pc]. rewrite <- Hk. by apply reading_inv.
  - destruct (pc c) as [| |op args [r|]|] eqn:Ep; simplify_eq. apply (lock_inv_local w n c); try done.
    + apply act_lk.
    + by apply (act_get_inv op c args).
  - destruct (pc c) as [| | |op args f] eqn:Ep; simplify_eq. destruct net; simplify_eq.
    + apply (lock_inv_local w n c); [done..|]. by apply (again_inv _ _ _ f).
    + destruct (kv_put args (svc w)) as [[s e]|] eqn:Eput; simplify_eq/=.
      destruct (own_put_since (lk c) op args f (svc w) s e Hn Eput) as [H1 _].
      apply (lock_inv_put w n c _ op args f s e); [done..|]. by apply (again_inv _ _ _ f).
    + destruct (kv_put args (svc w)) as [[s e]|] eqn:Eput; simplify_eq/=.
      destruct (own_put_since (lk c) op args f (svc w) s e Hn Eput) as [_ H2].
      apply (lock_inv_put w n c _ op args f s e); try done; [apply act_lk|].
      by apply (act_put_inv op c args f (cell (key (lk c)) w) e).
  - destruct (bool_decide _) eqn:Ek; [|done]. apply bool_decide_eq_true in Ek.
    destruct (kv_put a (svc w)) as [[s e]|] eqn:Eput; simplify_eq/=. split; [done|]. simpl.
    intros m d Hd. specialize (Ek m d Hd). simpl in Ek. specialize (Hpc m d Hd). unfold cell in *. simpl.
    destruct (kv_put_cells _ _ _ _ Eput) as [(_ & _ & ->)|(_ & _ & ->)]; [|done]. by rewrite lookup_insert_ne by done.
Qed.

(** The locks a world starts with; RandValue gave them different ids. *)
Definition lock_init (locks : list (Lock * Clerk)) : LockWorld :=
  mkLockWorld kv_init (map_seq 0 ((λ '(l, k), mkClient l k Idle) <$> locks)).

Definition locks_ok (locks : list (Lock * Clerk)) : Prop :=
  Forall (λ l, clientID l ≠ "") locks.*1 ∧ NoDup locks.*1.

Lemma lock_init_inv locks : locks_ok locks → lock_inv (lock_init locks).
Proof.
  intros [Hne Hnd]. assert (Hget : ∀ n c, clients (lock_init locks) !! n = Some c →
    locks.*1 !! n = Some (lk c) ∧ pc c = Idle).
  { intros n c. simpl. rewrite lookup_map_seq_Some, Nat.sub_0_r, list_lookup_fmap, list_lookup_fmap.
    intros [_ H]. destruct (locks !! n) as [[l k]|]; simplify_eq/=. done. }
  split; [split|].
  - intros n c [Hl _]%Hget. by apply (proj1 (Forall_lookup _ _) Hne n).
  - intros n m c d [Hl _]%Hget [Hl' _]%Hget Ek Ei. apply (NoDup_lookup _ _ _ _ Hnd Hl). rewrite Hl'.
    destruct (lk c), (lk d); simpl in *; congruence.
  - intros n c Hc. destruct (Hget n c Hc) as [Hl ->]. simpl. unfold cell. simpl. rewrite kv_init_cells, lookup_empty.
    apply not_eq_sym. by apply (proj1 (Forall_lookup _ _) Hne n).
Qed.

Lemma lock_run_inv evs w w' : lock_run evs w = Some w' → lock_inv w → lock_inv w'.
Proof.
  revert w. induction evs as [|ev evs IH]; intros w; simpl; [by intros [= ->]|].
  destruct (lock_step ev w) as [w1|] eqn:E; simpl; [|done]. intros Hr Hi. apply (IH w1); [done|].
  by apply (lock_step_inv ev w).
Qed.

(** C21 (Mutual exclusion).  Over any service that keeps its promises, whatever
    requests and replies are lost and in whatever order the clients run, two
    clients whose [Acquire] on the same lock has returned, and that have not
    called [Release], are the same client; and while a client holds the lock, the
    key holds its id. *)
Theorem lock_mutual_exclusion locks evs w n m c d :
  locks_ok locks → lock_run evs (lock_init locks) = Some w →
  clients w !! n = Some c → clients w !! m = Some d → key (lk c) = key (lk d) →
  pc c = Held → pc d = Held →
  n = m ∧ cell_value (cell (key (lk c)) w) = clientID (lk c).
Proof.
  intros Hok Hrun Hc Hd Ek Pc Pd. destruct (lock_run_inv _ _ _ Hrun (lock_init_inv _ Hok)) as [[_ Hinj] Hpc].
  pose proof (Hpc n c Hc) as H1. pose proof (Hpc m d Hd) as H2. rewrite Pc in H1. rewrite Pd, <- Ek in H2. simpl in *.
  split; [|done]. apply (Hinj n m c d); congruence.
Qed.

(** (Release really releases).  When a client is outside Acquire and Release
    and does not hold the lock, the key does not hold its id: a [Release] that
    returned, even after ErrMaybe, has freed the lock. *)
Theorem lock_release_frees locks evs w n c :
  locks_ok locks → lock_run evs (lock_init locks) = Some w →
  clients w !! n = Some c → pc c = Idle → cell_value (cell (key (lk c)) w) ≠ clientID (lk c).
Proof.
  intros Hok Hrun Hc Pc. destruct (lock_run_inv _ _ _ Hrun (lock_init_inv _ Hok)) as [_ Hpc].
  specialize (Hpc n c Hc). by rewrite Pc in Hpc.
Qed.

(** (A free lock can be taken).  From every reachable state in which the lock
    is free and the client outside Acquire and Release, the client's own four
    steps, with no message lost, end with [Acquire] having returned. *)
Theorem lock_acquire_free locks evs w n c :
  locks_ok locks → lock_run evs (lock_init locks) = Some w →
  clients w !! n = Some c → pc c = Idle → cell_value (cell (key (lk c)) w) = "" →
  let cid := clientId (ck c) in
  let q1 := wrap_i64 (seqNum (ck c) + 1) in
  is_Some (kv_put (mkPutArgs (key (lk c)) (clientID (lk c)) (cell_version (cell (key (lk c)) w)) cid (wrap_i64 (q1 + 1)))
             (kv_get (mkGetArgs (key (lk c)) cid q1) (svc w))) →
  ∃ w' c', lock_run [LCall OpAcquire n; LGetExec n; LGetReturn n; LPutAttempt n Deliver] w = Some w' ∧
    clients w' !! n = Some c' ∧ pc c' = Held ∧ cell_value (cell (key (lk c)) w') = clientID (lk c).
Proof.
  intros Hok Hrun Hc Pc Hfree cid q1 [[s e] Hput].
  assert (Hne : clientID (lk c) ≠ "").
  { apply (proj1 (proj1 (lock_run_inv _ _ _ Hrun (lock_init_inv _ Hok))) n c Hc). }
  destruct (kv_put_cells _ _ _ _ Hput) as [(-> & _ & Es)|(_ & Hv & _)];
    [|by rewrite kv_get_cells in Hv].
  unfold lock_run, lock_step. rewrite Hc. simpl. rewrite Pc. simpl. rewrite lookup_insert_eq. simpl.
  rewrite lookup_insert_eq. simpl. rewrite lookup_insert_eq. unfold call_get. simpl.
  assert (Hact : AcquireGet (lk c) (reading_of (key (lk c)) (svc w)) =
    APut (clientID (lk c)) (cell_version (cell (key (lk c)) w))).
  { unfold AcquireGet, reading_of, cell, cell_value, cell_version in *. destruct (kv_cells (svc w) !! key (lk c)) as [p|]; [|done].
    simpl in *. rewrite Hfree. destruct (decide ("" = clientID (lk c))); [congruence|done]. }
  rewrite Hact. simpl. fold cid q1. rewrite Hput. simpl.
  eexists _, _. split; [done|]. simpl. rewrite lookup_insert_eq. split; [done|]. split; [done|].
  unfold cell. simpl. rewrite Es. simpl. by rewrite lookup_insert_eq.
Qed.
End world.

(** ** Witnesses: two clients of a kvsrv server contend for a lock *)

Definition two_locks : list (Lock * Clerk) :=
  [(MakeLock "l" "alice", mkClerk 1 0); (MakeLock "l" "bob", mkClerk 2 0)].

Lemma two_locks_ok : locks_ok two_locks.
Proof. split; [repeat constructor; done|]. simpl. constructor; [|constructor; [|constructor]]; rewrite ?list_elem_of_singleton; [done|by intros ?%elem_of_nil]. Qed.

(** Alice's put is performed but its reply is lost; Bob's put is refused; Alice
    learns ErrMaybe, reads again and finds that she holds the lock. *)
Definition contended : list LockEvent :=
  [LCall OpAcquire 0; LCall OpAcquire 1; LGetExec 0; LGetExec 1; LGetReturn 0; LGetReturn 1;
   LPutAttempt 0 DropReply; LPutAttempt 1 Deliver; LPutAttempt 0 Deliver; LGetExec 0; LGetReturn 0].

Definition run_locks (evs : list LockEvent) : LockWorld :=
  default (lock_init two_locks) (lock_run evs (lock_init two_locks)).

Lemma run_locks_run evs :
  is_Some (lock_run evs (lock_init (S := list Req) two_locks)) →
  lock_run evs (lock_init two_locks) = Some (run_locks evs).
Proof. intros [w E]. unfold run_locks. by rewrite E. Qed.

Definition alice (seq : Z) (p : Pc) : Client := mkClient (MakeLock "l" "alice") (mkClerk 1 seq) p.

Lemma contended_run :
  lock_run contended (lock_init two_locks) = Some (run_locks contended) ∧
  clients (run_locks contended) !! O = Some (alice 3 Held).
Proof. split; [apply run_locks_run; vm_compute; by eexists|vm_compute; done]. Qed.

Lemma lock_mutual_exclusion_witness :
  O = O ∧ cell_value (cell "l" (run_locks contended)) = "alice".
Proof.
  exact (lock_mutual_exclusion two_locks contended (run_locks contended) 0 0 (alice 3 Held) (alice 3 Held) two_locks_ok
    (proj1 contended_run) (proj2 contended_run) (proj2 contended_run) eq_refl eq_refl eq_refl).
Defined.

(** Then Alice releases, with a lost reply on the way. *)
Definition released : list LockEvent :=
  contended ++ [LCall OpRelease 0; LGetExec 0; LGetReturn 0; LPutAttempt 0 DropReply; LPutAttempt 0 Deliver;
                LGetExec 0; LGetReturn 0].

Lemma released_run :
  lock_run released (lock_init two_locks) = Some (run_locks released) ∧
  clients (run_locks released) !! O = Some (alice 6 Idle).
Proof. split; [apply run_locks_run; vm_compute; by eexists|vm_compute; done]. Qed.

Lemma lock_release_frees_witness : cell_value (cell "l" (run_locks released)) ≠ "alice".
Proof.
  exact (lock_release_frees two_locks released (run_locks released) 0 (alice 6 Idle) two_locks_ok
    (proj1 released_run) (proj2 released_run) eq_refl).
Defined.

Lemma lock_acquire_free_witness :
  ∃ w' c', lock_run [LCall OpAcquire 0; LGetExec 0; LGetReturn 0; LPutAttempt 0 Deliver] (run_locks released) = Some w' ∧
    clients w' !! O = Some c' ∧ pc c' = Held ∧ cell_value (cell "l" w') = "alice".
Proof.
  refine (lock_acquire_free two_locks released (run_locks released) 0 (alice 6 Idle) two_locks_ok
    (proj1 released_run) (proj2 released_run) eq_refl _ _); [vm_compute; done|vm_compute; by eexists].
Defined.
