(* ===== verification/Porcupine.v ===== *)
(** * kvtest1/porcupine.go: what the key/value tests record and check

    The tests of the key/value services run any number of clients against one
    service.  [Get] and [Put] of porcupine.go wrap the calls of a clerk: they take
    the time before and after and append an [Operation] to the test's log;
    [checkPorcupine] hands the log to package porcupine and stops the test when the
    history is not linearizable.

    [TestRun] has the service (any [KVService] of Lock.v), the clock, and the
    clients' goroutines, each at a point of [Get] or [Put].  An event is one thing
    that can happen: time passes, a call begins, the server runs a request, a Call of
    the clerk fails, a call returns, an operation is logged.  A request whose Call
    failed may still be on its way (Labrpc.v) and may run at any later time, even
    when the clerk's call has long returned: [strays] holds those requests. *)

From S2P Require Import Prelude KVSrv Lock.
Local Open Scope Z_scope.

(** ** The log *)

(** [porcupine.Operation]. *)
Record Operation := mkOperation {
  ClientId : Z; Input : KvInput; CallTime : Z; Output : KvOutput; ReturnTime : Z
}.

#[export] Instance Operation_op : KvOp Operation := {| op_input := Input; op_output := Output |}.

Definition OpLog : Type := list Operation.

Definition Len (log : OpLog) : Z := Z.of_nat (length log).
Definition Append (op : Operation) (log : OpLog) : OpLog := log ++ [op].
(** A copy. *)
Definition Read (log : OpLog) : list Operation := log.

(** ** The wrappers *)

(** What the application asks its clerk for, and what it gets back. *)
Inductive KVCall := CallGet (key : string) | CallPut (key value : string) (version : Tversion).
Inductive KVRes := ResGet (val : string) (ver : Tversion) (err : Err) | ResPut (err : Err).

(** The operation that [Get] records. *)
Definition Get_operation (key : string) (cli : Z) (start stop : Z) (r : GetReply) : Operation :=
  mkOperation cli (mkKvInput 0 key "" 0) start (mkKvOutput (gr_Value r) (gr_Version r) (gr_Err r)) stop.

(** The operation that [Put] records. *)
Definition Put_operation (key value : string) (version : Tversion) (cli : Z) (start stop : Z) (err : Err) : Operation :=
  mkOperation cli (mkKvInput 1 key value version) start (mkKvOutput "" 0 err) stop.

(** Where a client's goroutine is.  [id] numbers the calls of the whole run.
    - [TGet]: in ck.Get; [reading] is the reply of the server that the clerk will get;
    - [TPut]: in ck.Put; [reply] is what the server answered the current attempt;
    - [TLog]: behind cfg.Op(), in front of log.Append. *)
Inductive TPc :=
  | TIdle
  | TGet (id : nat) (cli start : Z) (args : GetArgs) (reading : option GetReply)
  | TPut (id : nat) (cli start : Z) (args : PutArgs) (firstAttempt : bool) (reply : option Err)
  | TLog (id : nat) (op : Operation) (res : KVRes)
  | TRet (res : KVRes).

Record Thread := mkThread { t_ck : Clerk; t_pc : TPc }.

(** [start := time.Since(t0)], and the clerk's call begins. *)
Definition begin_call (id : nat) (cli now : Z) (c : KVCall) (ck : Clerk) : Thread :=
  let ck := mkClerk (clientId ck) (wrap_i64 (seqNum ck + 1)) in
  mkThread ck
    match c with
    | CallGet key => TGet id cli now (mkGetArgs key (clientId ck) (seqNum ck)) None
    | CallPut key value version =>
        TPut id cli now (mkPutArgs key value version (clientId ck) (seqNum ck)) true None
    end.

(** The clerk's call returns at time [now]; what is logged and what is returned. *)
Definition end_call (now : Z) (p : TPc) : option (nat * Operation * KVRes) :=
  match p with
  | TGet id cli start args (Some r) =>
      Some (id, Get_operation (ga_Key args) cli start now r, ResGet (gr_Value r) (gr_Version r) (gr_Err r))
  | TPut id cli start args first (Some e) =>
      let err := put_err first e in
      Some (id, Put_operation (pa_Key args) (pa_Value args) (pa_Version args) cli start now err, ResPut err)
  | _ => None
  end.

(** cfg.Op(): one more operation, on a 32-bit counter. *)
Definition Op (ops : Z) : Z := wrap_i32 (ops + 1).

(** ** checkPorcupine *)

Inductive CheckResult := Ok | Illegal | Unknown.

(** [x] returned before [y] was called. *)
Definition precedes (x y : Operation) : Prop := ReturnTime x < CallTime y.

(** A sequential order of the operations that the clients could have seen: it
    respects real time, and the model accepts it. *)
Definition linearization (σ : list Operation) : Prop :=
  StronglySorted (λ x y, ¬ precedes y x) σ ∧ is_Some (model_run KvInit σ).

Definition linearizable (history : list Operation) : Prop := ∃ σ, σ ≡ₚ history ∧ linearization σ.

(** [Some msg]: the test stops with t.Fatal(msg).  [check] is
    porcupine.CheckOperationsVerbose for KvModel. *)
Definition checkPorcupine (check : list Operation → CheckResult) (opLog : OpLog) : option string :=
  match check (Read opLog) with
  | Illegal => Some "history is not linearizable"
  | Unknown | Ok => None
  end.

(** ** A run *)

Section run.
Context {S : Type} `{!KVService S}.

Record TestRun := mkTestRun {
  svc : S;
  now : Z;
  threads : gmap nat Thread;
  strays : list (nat * PutArgs);
  ncalls : nat;          (* the number of calls so far: names for them *)
  ops : Z;               (* cfg.ops *)
  oplog : option OpLog   (* ts.oplog, nil or not *)
}.

Inductive TestEvent :=
  | TTick (d : nat)                         (* time passes *)
  | TCall (n : nat) (cli : Z) (c : KVCall)  (* the goroutine [n] calls Get or Put *)
  | TGetExec (n : nat)                      (* the server runs the Get whose reply arrives *)
  | TGetOther (args : GetArgs)              (* the server runs a Get whose reply does not *)
  | TPutExec (n : nat)                      (* the server runs the request of the current attempt *)
  | TPutLost (n : nat)                      (* Call returns false; the clerk tries again *)
  | TPutStray (i : nat)                     (* a request of an earlier attempt runs *)
  | TReturn (n : nat)                       (* the clerk's call returns; cfg.Op() *)
  | TAppend (n : nat).                      (* log.Append, and the wrapper returns *)

Definition set_thread (n : nat) (t : Thread) (w : TestRun) : TestRun :=
  mkTestRun (svc w) (now w) (<[n := t]> (threads w)) (strays w) (ncalls w) (ops w) (oplog w).
Definition set_svc (s : S) (w : TestRun) : TestRun :=
  mkTestRun s (now w) (threads w) (strays w) (ncalls w) (ops w) (oplog w).
Definition set_strays (l : list (nat * PutArgs)) (w : TestRun) : TestRun :=
  mkTestRun (svc w) (now w) (threads w) l (ncalls w) (ops w) (oplog w).

Definition test_step (ev : TestEvent) (w : TestRun) : option TestRun :=
  match ev with
  | TTick d => Some (mkTestRun (svc w) (now w + Z.of_nat d) (threads w) (strays w) (ncalls w) (ops w) (oplog w))
  | TCall n cli c =>
      t ← threads w !! n;
      match t_pc t with
      | TIdle | TRet _ =>
          let t := begin_call (ncalls w) cli (now w) c (t_ck t) in
          Some (mkTestRun (svc w) (now w) (<[n := t]> (threads w)) (strays w) (ncalls w + 1)%nat (ops w) (oplog w))
      | _ => None
      end
  | TGetExec n =>
      t ← threads w !! n;
      match t_pc t with
      | TGet id cli start args None =>
          let r := reading_of (ga_Key args) (svc w) in
          Some (set_svc (kv_get args (svc w)) (set_thread n (mkThread (t_ck t) (TGet id cli start args (Some r))) w))
      | _ => None
      end
  | TGetOther args => Some (set_svc (kv_get args (svc w)) w)
  | TPutExec n =>
      t ← threads w !! n;
      match t_pc t with
      | TPut id cli start args first None =>
          '(s, e) ← kv_put args (svc w);
          Some (set_svc s (set_thread n (mkThread (t_ck t) (TPut id cli start args first (Some e))) w))
      | _ => None
      end
  | TPutLost n =>
      t ← threads w !! n;
      match t_pc t with
      | TPut id cli start args first reply =>
          let flying := match reply with None => [(id, args)] | Some _ => [] end in
          Some (set_strays (flying ++ strays w) (set_thread n (mkThread (t_ck t) (TPut id cli start args false None)) w))
      | _ => None
      end
  | TPutStray i =>
      '(id, args) ← strays w !! i;
      '(s, _) ← kv_put args (svc w);
      Some (set_svc s (set_strays (delete i (strays w)) w))
  | TReturn n =>
      t ← threads w !! n;
      '(id, op, res) ← end_call (now w) (t_pc t);
      Some (mkTestRun (svc w) (now w) (<[n := mkThread (t_ck t) (TLog id op res)]> (threads w)) (strays w) (ncalls w)
              (Op (ops w)) (oplog w))
  | TAppend n =>
      t ← threads w !! n;
      match t_pc t with
      | TLog id op res =>
          Some (mkTestRun (svc w) (now w) (<[n := mkThread (t_ck t) (TRet res)]> (threads w)) (strays w) (ncalls w)
                  (ops w) (Append op <$> oplog w))
      | _ => None
      end
  end.

(** The clients name only versions that the key has reached: 0, or one they have
    read or that an earlier put of theirs was about. *)
Definition reached (c : KVCall) (s : S) : bool :=
  match c with
  | CallGet _ => true
  | CallPut key _ version => (0 <=? version) && (version <=? cell_version (kv_cells s !! key))
  end.

Definition event_ok (ev : TestEvent) (w : TestRun) : bool :=
  match ev with TCall _ _ c => reached c (svc w) | _ => true end.

Fixpoint test_run (evs : list TestEvent) (w : TestRun) : option TestRun :=
  match evs with
  | [] => Some w
  | ev :: evs => if event_ok ev w then w ← test_step ev w; test_run evs w else None
  end.

(** MakeTest: the log is there and empty; the clerks have been made. *)
Definition MakeTest (start : Z) (cks : list Clerk) : TestRun :=
  mkTestRun kv_init start (map_seq 0 ((λ ck, mkThread ck TIdle) <$> cks)) [] 0 0 (Some []).
End run.

(** ** The order in which the calls took effect *)

(** A call that took effect: when, and as what operation of the model. *)
Record LinOp := mkLin { l_id : nat; l_time : Z; l_op : KvOperation }.

Definition get_lin (id : nat) (tm : Z) (args : GetArgs) (r : GetReply) : LinOp :=
  mkLin id tm (mkKvInput 0 (ga_Key args) "" 0, mkKvOutput (gr_Value r) (gr_Version r) (gr_Err r)).
Definition put_lin (id : nat) (tm : Z) (args : PutArgs) (e : Err) : LinOp :=
  mkLin id tm (mkKvInput 1 (pa_Key args) (pa_Value args) (pa_Version args), mkKvOutput "" 0 e).

Definition cell_state (c : option KVPair) : KvState := mkKvState (cell_value c) (cell_version c).

(** The recorded operation is the one that took effect; the clerk may be unsure
    about a put. *)
Definition agrees (v : KvOperation) (op : Operation) : Prop :=
  Input op = v.1 ∧ out_Value (Output op) = out_Value v.2 ∧
  (out_Err (Output op) = out_Err v.2 ∨ (in_Op v.1 = 1 ∧ out_Err (Output op) = ErrMaybe)).

Lemma agrees_step st v op s :
  agrees v op → KvStep st v.1 v.2 = (true, Some s) → KvStep st (Input op) (Output op) = (true, Some s).
Proof.
  intros (-> & Ev & He). unfold KvStep. rewrite Ev. destruct (Z.eqb_spec (in_Op v.1) 0) as [E0|]; [done|].
  destruct (Z.eqb_spec (in_Op v.1) 1); [|done].
  destruct He as [->|[_ ->]]; [done|]. destruct (_ =? _); simpl; by intros [= _ ->].
Qed.

(** [lin] is an order that explains the cells [cells] at time [now]. *)
Record lin_ok (lin : list LinOp) (cells : gmap string KVPair) (now : Z) : Prop := {
  lo_replay k : model_run KvInit (on_key k (l_op <$> lin)) = Some (cell_state (cells !! k));
  lo_sorted : StronglySorted Z.le (l_time <$> lin);
  lo_now l : l ∈ lin → l_time l ≤ now;
  lo_nodup : NoDup (l_id <$> lin)
}.

Lemma lin_ok_snoc lin cells cells' now id (v : KvOperation) :
  lin_ok lin cells now → id ∉ l_id <$> lin →
  KvStep (cell_state (cells !! in_Key v.1)) v.1 v.2 = (true, Some (cell_state (cells' !! in_Key v.1))) →
  (∀ k, k ≠ in_Key v.1 → cells' !! k = cells !! k) →
  lin_ok (lin ++ [mkLin id now v]) cells' now.
Proof.
  intros [Hr Hs Hn Hd] Hid Hstep Hother. split.
  - intros k. rewrite fmap_app. cbn [fmap list_fmap l_op]. rewrite on_key_snoc, model_run_app, Hr. simpl.
    case_decide as Ek; simpl; [subst k; by rewrite Hstep|]. rewrite Hother by done. done.
  - rewrite fmap_app. apply StronglySorted_app. split_and!; [|done|repeat constructor].
    intros x y (l & -> & Hl)%list_elem_of_fmap ->%list_elem_of_singleton. by apply Hn.
  - intros l [Hl| ->%list_elem_of_singleton]%elem_of_app; [auto|simpl; lia].
  - rewrite fmap_app. apply NoDup_app. split_and!; [done| |apply NoDup_singleton].
    intros x Hx ->%list_elem_of_singleton. done.
Qed.

Lemma lin_ok_later lin cells now now' : lin_ok lin cells now → now ≤ now' → lin_ok lin cells now'.
Proof. intros [H1 H2 H3 H4] Hle. split; try done. intros l Hl. specialize (H3 l Hl). lia. Qed.

(** The operation [op] of call [id] took effect between its call and its return. *)
Definition recorded (lin : list LinOp) (id : nat) (op : Operation) : Prop :=
  ∃ l, l ∈ lin ∧ l_id l = id ∧ agrees (l_op l) op ∧ CallTime op ≤ l_time l ≤ ReturnTime op.

(** An order of all the recorded operations. *)
Lemma recorded_order lin cells now (L : list (nat * Operation)) :
  lin_ok lin cells now → NoDup L.*1 → (∀ id op, (id, op) ∈ L → recorded lin id op) →
  (∀ l, l ∈ lin → l_id l ∈ L.*1) →
  ∃ σ, σ ≡ₚ L.*2 ∧
    Forall2 (λ l op, agrees (l_op l) op ∧ CallTime op ≤ l_time l ≤ ReturnTime op) lin σ.
Proof.
  intros Hlin Hnd Hrec Hcov. assert (Hp : l_id <$> lin ≡ₚ L.*1).
  { apply NoDup_Permutation; [apply Hlin|done|]. intros id. split.
    - intros (l & -> & Hl)%list_elem_of_fmap. by apply Hcov.
    - intros ([i op] & -> & Hi)%list_elem_of_fmap. destruct (Hrec i op Hi) as (l & Hl & <- & _).
      by apply (list_elem_of_fmap_2 l_id). }
  destruct (Permutation_map_inv _ _ Hp) as (τ & Eτ & Hτ). exists τ.*2. split; [by rewrite Hτ|].
  assert (Hτ' : ∀ x, x ∈ τ → recorded lin x.1 x.2).
  { intros [id op] Hx. apply Hrec. by rewrite Hτ. }
  clear Hrec Hcov Hp Hτ Hnd. apply Forall2_fmap_r. apply Forall2_same_length_lookup_2.
  { apply (f_equal length) in Eτ. by rewrite length_fmap, length_map in Eτ. }
  intros i l [id op] Hl Hop. destruct (Hτ' _ (list_elem_of_lookup_2 _ _ _ Hop)) as (l' & Hl' & Eid & H).
  apply list_elem_of_lookup in Hl' as [j Hj]. assert (l' = l) as ->; [|done].
  assert (Ei : (l_id <$> lin) !! i = Some id) by (rewrite Eτ; change (map fst τ) with τ.*1; by rewrite list_lookup_fmap, Hop).
  assert (Ej : (l_id <$> lin) !! j = Some id) by (rewrite list_lookup_fmap, Hj; simpl in *; by rewrite Eid).
  pose proof (NoDup_lookup _ _ _ _ (lo_nodup _ _ _ Hlin) Ei Ej) as ->. congruence.
Qed.

(** Such an order is a linearization, key by key. *)
Lemma agreeing_run lin (σ : list Operation) k st s :
  Forall2 (λ l op, agrees (l_op l) op ∧ CallTime op ≤ l_time l ≤ ReturnTime op) lin σ →
  model_run st (on_key k (l_op <$> lin)) = Some s → model_run st (on_key k σ) = Some s.
Proof.
  intros H. revert st. induction H as [|l op lin σ [Ha _] _ IH]; intros st; [done|].
  unfold on_key. cbn [fmap list_fmap]. rewrite !filter_cons. cbn [op_input Operation_op KvOperation_op].
  rewrite (proj1 Ha). case_decide; [|apply IH]. simpl.
  destruct (KvStep st (l_op l).1 (l_op l).2) as [[] [st'|]] eqn:E; try done.
  rewrite (agrees_step _ _ _ _ Ha E). apply IH.
Qed.

Lemma agreeing_order lin σ :
  Forall2 (λ l op, agrees (l_op l) op ∧ CallTime op ≤ l_time l ≤ ReturnTime op) lin σ →
  StronglySorted Z.le (l_time <$> lin) → StronglySorted (λ x y, ¬ precedes y x) σ.
Proof.
  intros H. induction H as [|l op lin σ [_ Ht] H IH]; intros Hs; [constructor|].
  cbn [fmap list_fmap] in Hs. apply StronglySorted_cons in Hs as [Hl Hs]. constructor; [auto|].
  apply Forall_forall. intros y Hy. unfold precedes. apply list_elem_of_lookup in Hy as [i Hi].
  destruct (Forall2_lookup_r _ _ _ _ _ H Hi) as (l' & Hl' & _ & Ht').
  rewrite Forall_forall in Hl. specialize (Hl (l_time l')). simpl in Hl.
  assert (l_time l ≤ l_time l') by (apply Hl, list_elem_of_fmap_2, (list_elem_of_lookup_2 _ i), Hl'). lia.
Qed.

Lemma StronglySorted_filter {A} (R : A → A → Prop) (P : A → Prop) `{!∀ x, Decision (P x)} l :
  StronglySorted R l → StronglySorted R (filter P l).
Proof.
  induction 1 as [|x l Hs IH Hx]; [constructor|]. rewrite filter_cons. case_decide; [|done].
  constructor; [done|]. apply Forall_forall. intros y [_ Hy]%list_elem_of_filter. by apply (proj1 (Forall_forall _ _) Hx).
Qed.

(** A history all of whose calls took effect in order is linearizable on every key. *)
Lemma order_linearizable lin cells now (L : list (nat * Operation)) part :
  lin_ok lin cells now → NoDup L.*1 → (∀ id op, (id, op) ∈ L → recorded lin id op) →
  (∀ l, l ∈ lin → l_id l ∈ L.*1) →
  part ∈ Partition L.*2 → linearizable part.
Proof.
  intros Hlin Hnd Hrec Hcov [_ [k ->]]%elem_of_Partition.
  destruct (recorded_order lin cells now L Hlin Hnd Hrec Hcov) as (σ & Hp & Hσ).
  exists (on_key k σ). split; [unfold on_key; by rewrite Hp|]. split.
  - apply StronglySorted_filter, (agreeing_order lin); [done|apply Hlin].
  - eexists. eapply agreeing_run; [done|]. apply Hlin.
Qed.

(** ** The invariant of a run *)

Definition cur_id (p : TPc) : option nat :=
  match p with
  | TIdle | TRet _ => None
  | TGet id _ _ _ _ | TPut id _ _ _ _ _ | TLog id _ _ => Some id
  end.

Definition grow (cells cells' : gmap string KVPair) : Prop :=
  ∀ k, cell_version (cells !! k) ≤ cell_version (cells' !! k).

(** The key has moved past the version that the put names: it is refused from now on. *)
Definition passed (args : PutArgs) (cells : gmap string KVPair) : Prop :=
  pa_Version args < cell_version (cells !! pa_Key args).

Definition performed (lin : list LinOp) (cells : gmap string KVPair) (id : nat) (start : Z) (args : PutArgs) : Prop :=
  passed args cells ∧ ∃ tm, put_lin id tm args OK ∈ lin ∧ start ≤ tm.

(** What holds at each point of a wrapper. *)
Definition pc_ok (lin : list LinOp) (cells : gmap string KVPair) (now : Z) (p : TPc) : Prop :=
  match p with
  | TIdle | TRet _ => True
  | TGet id _ start args None => start ≤ now ∧ id ∉ l_id <$> lin
  | TGet id _ start args (Some r) => ∃ tm, get_lin id tm args r ∈ lin ∧ start ≤ tm
  | TPut id _ start args first reply =>
      start ≤ now ∧ 0 ≤ pa_Version args ≤ cell_version (cells !! pa_Key args) ∧
      (∀ e, reply = Some e → (e = OK ∧ id ∈ l_id <$> lin) ∨ (e = ErrVersion ∧ passed args cells)) ∧
      (id ∈ l_id <$> lin → performed lin cells id start args ∧ (first = true → reply = Some OK))
  | TLog id op _ => recorded lin id op
  end.

(** A request left behind by a failed Call: its put is still going on, or it will
    be refused. *)
Definition stray_ok (ths : gmap nat Thread) (cells : gmap string KVPair) (id : nat) (args : PutArgs) : Prop :=
  passed args cells ∨
  ∃ n t cli start reply, ths !! n = Some t ∧ t_pc t = TPut id cli start args false reply.

Lemma grow_refl cells : grow cells cells.
Proof. intros k. lia. Qed.

Lemma passed_grow args cells cells' : grow cells cells' → passed args cells → passed args cells'.
Proof. intros Hg H. unfold passed in *. specialize (Hg (pa_Key args)). lia. Qed.

Lemma recorded_sub lin lin' id op : lin ⊆ lin' → recorded lin id op → recorded lin' id op.
Proof. intros Hs (l & Hl & H). exists l. auto. Qed.

Lemma pc_ok_mono lin lin' cells cells' now now' p :
  lin ⊆ lin' → (∀ id, cur_id p = Some id → id ∈ l_id <$> lin' → id ∈ l_id <$> lin) →
  grow cells cells' → now ≤ now' → pc_ok lin cells now p → pc_ok lin' cells' now' p.
Proof.
  intros Hs Hid Hg Hn. assert (Hin : ∀ id, id ∈ l_id <$> lin → id ∈ l_id <$> lin').
  { intros id (l & -> & Hl)%list_elem_of_fmap. apply list_elem_of_fmap_2. auto. }
  destruct p as [|id cli start args [r|]|id cli start args first reply|id op res|res]; simpl in *; try done.
  - intros (tm & H1 & H2). exists tm. auto.
  - intros [H1 H2]. split; [lia|]. eauto.
  - intros (H1 & H2 & H3 & H4). split_and!; [lia|lia|specialize (Hg (pa_Key args)); lia| |].
    + intros e He. destruct (H3 e He) as [[-> H]|[-> H]]; [left|right]; eauto using passed_grow.
    + intros [[Hp (tm & Htm & Hle)] Hf]%(Hid _ eq_refl)%H4.
      split; [|done]. split; [by apply (passed_grow _ cells)|]. exists tm. auto.
  - by apply recorded_sub.
Qed.

Section invariant.
Context {S : Type} `{!KVService S}.

(** [lin]: the calls that took effect, in order; [L]: the operations in the log,
    with the calls they are of. *)
Record run_inv (w : TestRun) (lin : list LinOp) (L : list (nat * Operation)) : Prop := {
  ri_lin : lin_ok lin (kv_cells (svc w)) (now w);
  ri_log : oplog w = Some L.*2;
  ri_nodup : NoDup L.*1;
  ri_logged id op : (id, op) ∈ L → recorded lin id op ∧ (id < ncalls w)%nat;
  ri_pc n t : threads w !! n = Some t → pc_ok lin (kv_cells (svc w)) (now w) (t_pc t);
  ri_ids n t id : threads w !! n = Some t → cur_id (t_pc t) = Some id → (id < ncalls w)%nat ∧ id ∉ L.*1;
  ri_own n m t t' id : threads w !! n = Some t → threads w !! m = Some t' →
    cur_id (t_pc t) = Some id → cur_id (t_pc t') = Some id → n = m;
  ri_cover id : (id < ncalls w)%nat →
    id ∈ L.*1 ∨ ∃ n t, threads w !! n = Some t ∧ cur_id (t_pc t) = Some id;
  ri_known l : l ∈ lin → (l_id l < ncalls w)%nat;
  ri_strays id args : (id, args) ∈ strays w → stray_ok (threads w) (kv_cells (svc w)) id args
}.

(** The goroutine [n] moves on within its call [id]; the calls in [new] take effect. *)
Lemma run_inv_move w lin L n t t' id s new sts o :
  run_inv w lin L → threads w !! n = Some t →
  cur_id (t_pc t) = Some id → cur_id (t_pc t') = Some id → (∀ l, l ∈ new → l_id l = id) →
  grow (kv_cells (svc w)) (kv_cells s) →
  lin_ok (lin ++ new) (kv_cells s) (now w) →
  pc_ok (lin ++ new) (kv_cells s) (now w) (t_pc t') →
  (∀ id args, (id, args) ∈ sts → stray_ok (<[n := t']> (threads w)) (kv_cells s) id args) →
  run_inv (mkTestRun s (now w) (<[n := t']> (threads w)) sts (ncalls w) o (oplog w)) (lin ++ new) L.
Proof.
  intros [H1 H2 H3 H4 H5 H6 H7 H8 HK H9] Ht Hid Hid' Hnew Hg Hlin Hpc Hst.
  assert (Hsub : lin ⊆ lin ++ new) by (intros x Hx; apply elem_of_app; by left).
  assert (Hother : ∀ m u i, threads w !! m = Some u → m ≠ n → cur_id (t_pc u) = Some i →
                     i ∈ l_id <$> (lin ++ new) → i ∈ l_id <$> lin).
  { intros m u i Hu Hmn Hi. rewrite fmap_app. intros [?|(l & Ei & Hl%Hnew)%list_elem_of_fmap]%elem_of_app; [done|].
    destruct Hmn. apply (H7 m n u t id); congruence. }
  split; simpl; try done.
  - intros i op Hi. destruct (H4 i op Hi). split; [by apply (recorded_sub lin)|done].
  - intros m u. rewrite lookup_insert_Some. intros [[<- <-]|[Hmn Hu]]; [done|].
    apply (pc_ok_mono lin _ (kv_cells (svc w)) _ (now w)); auto; [|lia|by apply (H5 m)].
    intros i Hi. apply (Hother m u); auto.
  - intros m u i. rewrite lookup_insert_Some. intros [[<- <-]|[Hmn Hu]] Hi; [|by apply (H6 m u)].
    apply (H6 n t); congruence.
  - intros m m' u u' i. rewrite !lookup_insert_Some. intros [[<- <-]|[Hmn Hu]] [[<- <-]|[Hmn' Hu']] Hi Hi'; [done|..].
    + apply (H7 n m' t u' i); congruence.
    + apply (H7 m n u t i); congruence.
    + by apply (H7 m m' u u' i).
  - intros i Hlt. destruct (H8 i Hlt) as [?|(m & u & Hu & Hi)]; [by left|right]. destruct (decide (m = n)) as [->|Hmn].
    + exists n, t'. rewrite lookup_insert_eq. split; [done|]. congruence.
    + exists m, u. by rewrite lookup_insert_ne.
  - intros l [Hl|Hl%Hnew]%elem_of_app; [by apply HK|]. rewrite Hl. by apply (H6 n t).
Qed.

(** Nothing but the service and the requests on their way change. *)
Lemma run_inv_service w lin L s sts :
  run_inv w lin L → kv_cells s = kv_cells (svc w) → (∀ x, x ∈ sts → x ∈ strays w) →
  run_inv (set_svc s (set_strays sts w)) lin L.
Proof. intros [H1 H2 H3 H4 H5 H6 H7 H8 HK H9] Es Hs. split; simpl; rewrite ?Es; auto. Qed.

(** The requests left behind stay in order when their thread stays in its put. *)
Lemma strays_kept w n t t' cells' id args :
  stray_ok (threads w) (kv_cells (svc w)) id args → grow (kv_cells (svc w)) cells' →
  threads w !! n = Some t →
  (∀ cli start reply, t_pc t = TPut id cli start args false reply →
     passed args cells' ∨ ∃ cli start reply, t_pc t' = TPut id cli start args false reply) →
  stray_ok (<[n := t']> (threads w)) cells' id args.
Proof.
  intros [Hp|(m & u & cli & start & reply & Hm & Hu)] Hg Ht H; [left; by apply (passed_grow _ (kv_cells (svc w)))|].
  destruct (decide (m = n)) as [->|Hmn].
  - simplify_eq. destruct (H cli start reply Hu) as [?|(c & st & r & E)]; [by left|right].
    exists n, t', c, st, r. by rewrite lookup_insert_eq.
  - right. exists m, u, cli, start, reply. by rewrite lookup_insert_ne.
Qed.

(** ** Every step keeps it *)

Lemma put_lin_performed lin cells id tm start args : passed args cells → start ≤ tm →
  performed (lin ++ [put_lin id tm args OK]) cells id start args.
Proof. intros Hp Hle. split; [done|]. exists tm. split; [|done]. apply elem_of_app. right. by left. Qed.

Lemma snoc_id lin l : l_id l ∈ l_id <$> (lin ++ [l]).
Proof. apply list_elem_of_fmap_2, elem_of_app. right. by left. Qed.

(** The server runs a request of a put that is going on: it takes effect, for the
    first time, or the key has moved past its version. *)
Lemma put_exec w lin id cli start args first reply s e :
  lin_ok lin (kv_cells (svc w)) (now w) → pc_ok lin (kv_cells (svc w)) (now w) (TPut id cli start args first reply) →
  kv_put args (svc w) = Some (s, e) →
  (e = OK ∧ (id ∉ l_id <$> lin) ∧ reply = None ∧ grow (kv_cells (svc w)) (kv_cells s) ∧ passed args (kv_cells s) ∧
     lin_ok (lin ++ [put_lin id (now w) args OK]) (kv_cells s) (now w)) ∨
  (e = ErrVersion ∧ kv_cells s = kv_cells (svc w) ∧ passed args (kv_cells (svc w))).
Proof.
  intros Hlin (Hst & [H0 Hv] & Hr & Hin) Hput. destruct (kv_put_cells _ _ _ _ Hput) as [(-> & Ev & Es)|(He & Hne & Es)].
  - left. assert (Hnp : ¬ passed args (kv_cells (svc w))) by (unfold passed; lia).
    assert (Hid : id ∉ l_id <$> lin) by (intros [[? _] _]%Hin; done).
    assert (Hp : passed args (kv_cells s)) by (unfold passed, cell_version; rewrite Es, lookup_insert_eq; simpl; lia).
    split_and!; [done|done| | |done|].
    + destruct reply as [e|]; [|done]. by destruct (Hr e eq_refl) as [[_ ?%Hid]|[_ ?%Hnp]].
    + intros k. rewrite Es. destruct (decide (k = pa_Key args)) as [->|]; [|rewrite lookup_insert_ne by done; lia].
      rewrite lookup_insert_eq, <- Ev. unfold cell_version. simpl. lia.
    + apply (lin_ok_snoc lin (kv_cells (svc w))); [done|done| |].
      * unfold KvStep, cell_state. cbn [fst snd in_Op in_Key in_Value in_Version out_Err st_Version].
        rewrite <- Ev, !Z.eqb_refl, Es, lookup_insert_eq. simpl. unfold wrap_u64.
        pose proof (kv_put_room _ _ _ Hput). rewrite Z.mod_small by lia. done.
      * intros k Hk. rewrite Es. by rewrite lookup_insert_ne.
  - right. assert (Hp : passed args (kv_cells (svc w))) by (unfold passed; lia). split; [|done].
    apply (kv_put_refused _ _ _ _ Hput He). unfold passed, cell_version in Hp.
    destruct (kv_cells (svc w) !! pa_Key args); [eauto|simpl in Hp; lia].
Qed.

Lemma step_put_exec w lin L n t id cli start args first s e :
  run_inv w lin L → threads w !! n = Some t → t_pc t = TPut id cli start args first None →
  kv_put args (svc w) = Some (s, e) →
  ∃ lin', run_inv (set_svc s (set_thread n (mkThread (t_ck t) (TPut id cli start args first (Some e))) w)) lin' L.
Proof.
  intros Hinv Ht Ep Hput. pose proof (ri_pc _ _ _ Hinv n t Ht) as Hpc. rewrite Ep in Hpc.
  assert (Hcur : cur_id (t_pc t) = Some id) by (by rewrite Ep).
  assert (Hst : ∀ i a, (i, a) ∈ strays w → grow (kv_cells (svc w)) (kv_cells s) →
    stray_ok (<[n := mkThread (t_ck t) (TPut id cli start args first (Some e))]> (threads w)) (kv_cells s) i a).
  { intros i a Hi Hg. apply (strays_kept w n t); [by apply (ri_strays _ _ _ Hinv)|done|done|].
    intros c st r. rewrite Ep. intros [= <- <- <- <- -> _]. right. by exists cli, start, (Some e). }
  destruct (put_exec w lin id cli start args first None s e (ri_lin _ _ _ Hinv) Hpc Hput)
    as [(-> & Hid & _ & Hg & Hp & Hlin)|(-> & Es & Hp)].
  - exists (lin ++ [put_lin id (now w) args OK]). destruct Hpc as (Hs & [H0 _] & _ & _).
    apply (run_inv_move w lin L n t _ id); try done; [by intros l ->%list_elem_of_singleton| |by auto].
    simpl. split_and!; [done|done|unfold passed in Hp; lia| |].
    + intros e [= <-]. left. split; [done|]. apply (snoc_id lin (put_lin id (now w) args OK)).
    + intros _. split; [by apply put_lin_performed|done].
  - exists (lin ++ []). apply (run_inv_move w lin L n t _ id); try done; rewrite ?app_nil_r, ?Es.
    + by intros l ?%elem_of_nil.
    + apply grow_refl.
    + apply Hinv.
    + destruct Hpc as (Hs & Hv & Hr & Hin). simpl. split_and!; [done|lia|lia| |].
      * intros e [= <-]. by right.
      * intros [Hperf Hf]%Hin. split; [done|]. by intros ?%Hf.
    + intros i a Hi. rewrite <- Es. apply Hst; [done|]. rewrite Es. apply grow_refl.
Qed.

Lemma step_put_stray w lin L i id args s e :
  run_inv w lin L → strays w !! i = Some (id, args) → kv_put args (svc w) = Some (s, e) →
  ∃ lin', run_inv (set_svc s (set_strays (delete i (strays w)) w)) lin' L.
Proof.
  intros Hinv Hi Hput.
  assert (Hsub : ∀ x, x ∈ delete i (strays w) → x ∈ strays w) by (intros x; apply list_elem_of_delete_inv).
  destruct (kv_put_cells _ _ _ _ Hput) as [(_ & Ev & _)|(_ & _ & Es)]; [|exists lin; by apply run_inv_service].
  destruct (ri_strays _ _ _ Hinv id args (list_elem_of_lookup_2 _ _ _ Hi)) as [Hp|(n & t & cli & start & reply & Ht & Ep)];
    [unfold passed in Hp; lia|].
  pose proof (ri_pc _ _ _ Hinv n t Ht) as Hpc. rewrite Ep in Hpc.
  destruct (put_exec w lin id cli start args false reply s e (ri_lin _ _ _ Hinv) Hpc Hput)
    as [(-> & Hid & -> & Hg & Hp & Hlin)|(_ & _ & Hp)]; [|unfold passed in Hp; lia].
  exists (lin ++ [put_lin id (now w) args OK]). destruct Hpc as (Hs & [H0 _] & _ & _).
  assert (Hcur : cur_id (t_pc t) = Some id) by (by rewrite Ep).
  assert (E : <[n := t]> (threads w) = threads w) by (by apply insert_id).
  pose proof (run_inv_move w lin L n t t id s [put_lin id (now w) args OK] (delete i (strays w)) (ops w)) as H.
  rewrite E in H. apply H; try done.
  - by intros l ->%list_elem_of_singleton.
  - rewrite Ep. simpl. split_and!; [done|done|unfold passed in Hp; lia|done|].
    intros _. split; [by apply put_lin_performed|done].
  - intros j a Hj. rewrite <- E. apply (strays_kept w n t); [by apply (ri_strays _ _ _ Hinv), Hsub|done|done|].
    intros c st r Hr. right. by exists c, st, r.
Qed.

Lemma step_put_lost w lin L n t id cli start args first reply :
  run_inv w lin L → threads w !! n = Some t → t_pc t = TPut id cli start args first reply →
  run_inv (set_strays ((match reply with None => [(id, args)] | Some _ => [] end) ++ strays w)
    (set_thread n (mkThread (t_ck t) (TPut id cli start args false None)) w)) lin L.
Proof.
  intros Hinv Ht Ep. pose proof (ri_pc _ _ _ Hinv n t Ht) as Hpc. rewrite Ep in Hpc. destruct Hpc as (Hs & Hv & Hr & Hin).
  rewrite <- (app_nil_r lin). apply (run_inv_move w lin L n t _ id); rewrite ?app_nil_r; try done.
  - by rewrite Ep.
  - by intros l ?%elem_of_nil.
  - apply grow_refl.
  - apply Hinv.
  - simpl. split_and!; [done|lia|lia|done|]. intros [H _]%Hin. done.
  - intros i a [Hi|Hi]%elem_of_app.
    + destruct reply; [by apply elem_of_nil in Hi|]. apply list_elem_of_singleton in Hi as [= -> ->].
      right. exists n, (mkThread (t_ck t) (TPut id cli start args false None)), cli, start, None. by rewrite lookup_insert_eq.
    + apply (strays_kept w n t); [by apply (ri_strays _ _ _ Hinv)|apply grow_refl|done|].
      intros c st r. rewrite Ep. intros [= <- <- <- <- -> _]. right. by exists cli, start, None.
Qed.

Lemma step_get_exec w lin L n t id cli start args :
  run_inv w lin L → threads w !! n = Some t → t_pc t = TGet id cli start args None →
  let r := reading_of (ga_Key args) (svc w) in
  run_inv (set_svc (kv_get args (svc w)) (set_thread n (mkThread (t_ck t) (TGet id cli start args (Some r))) w))
    (lin ++ [get_lin id (now w) args r]) L.
Proof.
  intros Hinv Ht Ep r. pose proof (ri_pc _ _ _ Hinv n t Ht) as Hpc. rewrite Ep in Hpc. destruct Hpc as (Hs & Hid).
  apply (run_inv_move w lin L n t _ id); rewrite ?kv_get_cells; try done.
  - by rewrite Ep.
  - by intros l ->%list_elem_of_singleton.
  - apply grow_refl.
  - apply (lin_ok_snoc lin (kv_cells (svc w))); [apply Hinv|done| |done].
    unfold KvStep, cell_state, r, reading_of. simpl. rewrite bool_decide_eq_true_2; [done|].
    by destruct (kv_cells (svc w) !! ga_Key args).
  - simpl. exists (now w). split; [|done]. apply elem_of_app. right. by left.
  - intros i a Hi. apply (strays_kept w n t); [by apply (ri_strays _ _ _ Hinv)|apply grow_refl|done|].
    intros c st r'. by rewrite Ep.
Qed.

(** When a put returns, its key is past its version, and it has taken effect, if
    only as a refused put, now. *)
Lemma put_returns lin cells now id cli start args first e :
  lin_ok lin cells now → pc_ok lin cells now (TPut id cli start args first (Some e)) →
  passed args cells ∧
  ∃ new, (∀ l, l ∈ new → l_id l = id) ∧ lin_ok (lin ++ new) cells now ∧
    recorded (lin ++ new) id
      (Put_operation (pa_Key args) (pa_Value args) (pa_Version args) cli start now (put_err first e)).
Proof.
  intros Hlin (Hs & [H0 _] & Hr & Hin). destruct (decide (id ∈ l_id <$> lin)) as [Hi|Hi].
  - destruct (Hin Hi) as [[Hp (tm & Htm & Hle)] Hf]. split; [done|]. exists []. rewrite app_nil_r.
    split_and!; [by intros l ?%elem_of_nil|done|]. exists (put_lin id tm args OK).
    split_and!; [done|done| |done|by apply (lo_now _ _ _ Hlin _ Htm)]. split_and!; [done|done|].
    destruct (Hr e eq_refl) as [[-> _]|[-> _]]; [by left|]. destruct first; [by specialize (Hf eq_refl)|by right].
  - destruct (Hr e eq_refl) as [[_ ?]|[-> Hp]]; [done|]. split; [done|].
    exists [put_lin id now args ErrVersion]. split_and!; [by intros l ->%list_elem_of_singleton| |].
    + apply (lin_ok_snoc lin cells); [done|done| |done]. unfold KvStep, cell_state. simpl.
      unfold passed in Hp. destruct (Z.eqb_spec (cell_version (cells !! pa_Key args)) (pa_Version args)); [lia|done].
    + exists (put_lin id now args ErrVersion). split_and!; [apply elem_of_app; right; by left|done| |done|simpl; lia].
      split_and!; [done|done|]. destruct first; [by left|by right].
Qed.

Lemma step_return w lin L n t id op res o :
  run_inv w lin L → threads w !! n = Some t → end_call (now w) (t_pc t) = Some (id, op, res) →
  ∃ lin', run_inv (mkTestRun (svc w) (now w) (<[n := mkThread (t_ck t) (TLog id op res)]> (threads w)) (strays w)
    (ncalls w) o (oplog w)) lin' L.
Proof.
  intros Hinv Ht He. pose proof (ri_pc _ _ _ Hinv n t Ht) as Hpc. pose proof (ri_lin _ _ _ Hinv) as Hlin.
  assert (∃ new, cur_id (t_pc t) = Some id ∧ (∀ l, l ∈ new → l_id l = id) ∧ lin_ok (lin ++ new) (kv_cells (svc w)) (now w) ∧
    recorded (lin ++ new) id op ∧
    ∀ i a c st r, t_pc t = TPut i c st a false r → passed a (kv_cells (svc w))) as (new & Hid & Hnew & Hok & Hrec & Hpast).
  { destruct (t_pc t) as [|id' cli start args [r|]|id' cli start args first [e|]| |]; simplify_eq/=.
    - destruct Hpc as (tm & Htm & Hle). exists []. rewrite app_nil_r. split_and!; [done|by intros l ?%elem_of_nil|done| |done].
      exists (get_lin id tm args r). split_and!; [done|done| |done|by apply (lo_now _ _ _ Hlin _ Htm)]. split_and!; auto.
    - destruct (put_returns lin _ _ id cli start args first e Hlin Hpc) as (Hp & new & H1 & H2 & H3). exists new. split_and!; try done.
      by intros i a c st r [= _ _ _ <- _ _]. }
  exists (lin ++ new). apply (run_inv_move w lin L n t _ id); try done; [apply grow_refl|].
  intros i a Hi. apply (strays_kept w n t); [by apply (ri_strays _ _ _ Hinv)|apply grow_refl|done|].
  intros c st r Hp. left. by apply (Hpast i a c st r).
Qed.

Lemma step_call w lin L n t cli c :
  run_inv w lin L → threads w !! n = Some t → cur_id (t_pc t) = None → reached c (svc w) = true →
  run_inv (mkTestRun (svc w) (now w) (<[n := begin_call (ncalls w) cli (now w) c (t_ck t)]> (threads w)) (strays w)
    (ncalls w + 1)%nat (ops w) (oplog w)) lin L.
Proof.
  intros [H1 H2 H3 H4 H5 H6 H7 H8 HK H9] Ht Hc Hr.
  set (t' := begin_call _ _ _ _ _). assert (Hid : cur_id (t_pc t') = Some (ncalls w)) by (by destruct c).
  assert (Hold : ∀ m u, threads w !! m = Some u → cur_id (t_pc u) ≠ Some (ncalls w)).
  { intros m u Hu Hi. destruct (H6 m u _ Hu Hi). lia. }
  assert (HL : ncalls w ∉ L.*1).
  { intros ([i op] & E & Hi)%list_elem_of_fmap. simpl in E. destruct (H4 _ _ Hi). lia. }
  assert (Hfresh : ncalls w ∉ l_id <$> lin).
  { intros (l & E & Hl%HK)%list_elem_of_fmap. lia. }
  split; simpl; try done.
  - intros i op Hi. destruct (H4 i op Hi). split; [done|lia].
  - intros m u. rewrite lookup_insert_Some. intros [[<- <-]|[Hmn Hu]]; [|by apply (H5 m)].
    destruct c as [key|key value version]; simpl in *; [done|]. apply andb_true_iff in Hr as [?%Z.leb_le ?%Z.leb_le].
    split_and!; [done|done|done|done|]. by intros ?%Hfresh.
  - intros m u i. rewrite lookup_insert_Some. intros [[<- <-]|[Hmn Hu]] Hi.
    + rewrite Hid in Hi. injection Hi as <-. split; [lia|done].
    + destruct (H6 m u i Hu Hi). split; [lia|done].
  - intros m m' u u' i. rewrite !lookup_insert_Some. intros [[<- <-]|[Hmn Hu]] [[<- <-]|[Hmn' Hu']] Hi Hi'; [done|..].
    + destruct (Hold m' u' Hu'). congruence.
    + destruct (Hold m u Hu). congruence.
    + by apply (H7 m m' u u' i).
  - intros i Hlt. destruct (decide (i = ncalls w)) as [->|Hne]; [right; exists n, t'; by rewrite lookup_insert_eq|].
    destruct (H8 i) as [?|(m & u & Hu & Hi)]; [lia|by left|right]. exists m, u.
    rewrite lookup_insert_ne; [done|]. intros <-. by simplify_eq.
  - intros l Hl. specialize (HK l Hl). lia.
  - intros i a Hi. apply (strays_kept w n t); [by apply H9|apply grow_refl|done|].
    intros ? ? ? E. rewrite E in Hc. done.
Qed.

Lemma step_append w lin L n t id op res :
  run_inv w lin L → threads w !! n = Some t → t_pc t = TLog id op res →
  run_inv (mkTestRun (svc w) (now w) (<[n := mkThread (t_ck t) (TRet res)]> (threads w)) (strays w) (ncalls w)
    (ops w) (Append op <$> oplog w)) lin (L ++ [(id, op)]).
Proof.
  intros [H1 H2 H3 H4 H5 H6 H7 H8 HK H9] Ht Ep. pose proof (H5 n t Ht) as Hrec. rewrite Ep in Hrec.
  assert (Hid : cur_id (t_pc t) = Some id) by (by rewrite Ep). destruct (H6 n t id Ht Hid) as [Hlt HidL].
  split; simpl; try done.
  - rewrite H2. unfold Append. simpl. by rewrite fmap_app.
  - rewrite fmap_app. apply NoDup_app. split_and!; [done| |apply NoDup_singleton]. by intros x Hx ->%list_elem_of_singleton.
  - intros i o [Hi|[= -> ->]%list_elem_of_singleton]%elem_of_app; [by apply H4|done].
  - intros m u. rewrite lookup_insert_Some. intros [[<- <-]|[Hmn Hu]]; [done|by apply (H5 m)].
  - intros m u i. rewrite lookup_insert_Some. intros [[<- <-]|[Hmn Hu]] Hi; [done|]. destruct (H6 m u i Hu Hi) as [? HiL].
    split; [done|]. rewrite fmap_app. intros [?| ->%list_elem_of_singleton]%elem_of_app; [done|].
    apply Hmn. by apply (H7 n m t u id).
  - intros m m' u u' i. rewrite !lookup_insert_Some. intros [[<- <-]|[Hmn Hu]] [[<- <-]|[Hmn' Hu']] Hi Hi'; try done.
    by apply (H7 m m' u u' i).
  - intros i Hi'. rewrite fmap_app, elem_of_app. destruct (H8 i Hi') as [?|(m & u & Hu & Hi)]; [by left; left|].
    destruct (decide (m = n)) as [->|Hmn]; [left; right|right].
    + simplify_eq. apply list_elem_of_singleton. simpl. congruence.
    + exists m, u. by rewrite lookup_insert_ne.
  - intros i a Hi. apply (strays_kept w n t); [by apply H9|apply grow_refl|done|].
    intros ? ? ? E. rewrite E in Ep. done.
Qed.

Lemma test_step_inv ev w w' lin L :
  test_step ev w = Some w' → event_ok ev w = true → run_inv w lin L → ∃ lin' L', run_inv w' lin' L'.
Proof.
  intros Hstep Hok Hinv. destruct ev as [d|n cli c|n|args|n|n|i|n|n]; simpl in Hstep;
    try (destruct (threads w !! n) as [t|] eqn:Ht; simpl in Hstep; [|done]).
  - injection Hstep as <-. exists lin, L. destruct Hinv as [H1 H2 H3 H4 H5 H6 H7 H8 HK H9]. split; simpl; try done.
    + apply (lin_ok_later _ _ (now w)); [done|lia].
    + intros n t Ht. apply (pc_ok_mono lin lin (kv_cells (svc w)) _ (now w)); eauto; [apply grow_refl|lia].
  - exists lin, L. destruct (t_pc t) eqn:Ep; try done; injection Hstep as <-; apply step_call; try done; by rewrite Ep.
  - destruct (t_pc t) as [|id cli start args [r|]| | |] eqn:Ep; try done. injection Hstep as <-.
    eexists _, L. by apply step_get_exec.
  - injection Hstep as <-. exists lin, L. apply (run_inv_service w lin L _ (strays w)); [done|apply kv_get_cells|done].
  - destruct (t_pc t) as [| |id cli start args first [e|]| |] eqn:Ep; try done.
    destruct (kv_put args (svc w)) as [[s e]|] eqn:Eput; simplify_eq/=.
    destruct (step_put_exec w lin L n t id cli start args first s e) as [lin' H]; eauto.
  - destruct (t_pc t) as [| |id cli start args first reply| |] eqn:Ep; try done. injection Hstep as <-.
    exists lin, L. by apply (step_put_lost w lin L n t id cli start args first).
  - destruct (strays w !! i) as [[id args]|] eqn:Ei; simpl in Hstep; [|done].
    destruct (kv_put args (svc w)) as [[s e]|] eqn:Eput; simplify_eq/=.
    destruct (step_put_stray w lin L i id args s e) as [lin' H]; eauto.
  - destruct (end_call (now w) (t_pc t)) as [[[id op] res]|] eqn:Ee; simplify_eq/=.
    destruct (step_return w lin L n t id op res (Op (ops w))) as [lin' H]; eauto.
  - destruct (t_pc t) as [| | |id op res|] eqn:Ep; try done. injection Hstep as <-.
    exists lin, (L ++ [(id, op)]). by apply step_append.
Qed.

Lemma test_run_inv evs w w' lin L :
  test_run evs w = Some w' → run_inv w lin L → ∃ lin' L', run_inv w' lin' L'.
Proof.
  revert w lin L. induction evs as [|ev evs IH]; intros w lin L; simpl; [intros [= <-]; eauto|].
  destruct (event_ok ev w) eqn:Eo; [|done]. destruct (test_step ev w) as [w1|] eqn:Es; simpl; [|done].
  intros Hr Hinv. destruct (test_step_inv ev w w1 lin L Es Eo Hinv) as (lin1 & L1 & H1). by apply (IH w1 lin1 L1).
Qed.

Lemma MakeTest_inv start cks : run_inv (MakeTest start cks) [] [].
Proof.
  assert (Hidle : ∀ n t, threads (MakeTest start cks) !! n = Some t → t_pc t = TIdle).
  { intros n t [_ H]%lookup_map_seq_Some. rewrite list_lookup_fmap in H. by destruct (cks !! _); simplify_eq/=. }
  split; simpl; try done.
  - split; simpl; [|constructor|by intros l ?%elem_of_nil|constructor]. intros k. by rewrite kv_init_cells.
  - constructor.
  - by intros id op ?%elem_of_nil.
  - intros n t Ht. by rewrite (Hidle n t Ht).
  - intros n t id Ht. by rewrite (Hidle n t Ht).
  - intros n m t t' id Ht _. by rewrite (Hidle n t Ht).
  - intros id Hid. lia.
  - by intros l ?%elem_of_nil.
  - by intros id args ?%elem_of_nil.
Qed.

(** No goroutine is within a call. *)
Definition all_returned (w : TestRun (S := S)) : Prop :=
  map_Forall (λ _ t, cur_id (t_pc t) = None) (threads w).

(** Then the log holds every call of the run. *)
Lemma returned_logged w lin L :
  run_inv w lin L → all_returned w → L.*1 ≡ₚ seq 0 (ncalls w).
Proof.
  intros [H1 H2 H3 H4 H5 H6 H7 H8 HK H9] Hret. apply NoDup_Permutation; [done|apply NoDup_seq|].
  intros id. rewrite elem_of_seq. split.
  - intros ([i op] & -> & Hi)%list_elem_of_fmap. destruct (H4 _ _ Hi). simpl. lia.
  - intros [_ Hlt]. destruct (H8 id Hlt) as [?|(n & t & Ht & Hi)]; [done|].
    specialize (Hret n t Ht). simpl in Hret. congruence.
Qed.

Lemma returned_linearizable w lin L part :
  run_inv w lin L → all_returned w → part ∈ Partition L.*2 → linearizable part.
Proof.
  intros Hinv Hret. apply (order_linearizable lin (kv_cells (svc w)) (now w) L); [apply Hinv|apply Hinv| |].
  - intros id op Hi. by apply (ri_logged _ _ _ Hinv).
  - intros l Hl%(ri_known _ _ _ Hinv). rewrite (returned_logged w lin L Hinv Hret), elem_of_seq. lia.
Qed.

(** What package porcupine documents of its answer [Illegal]: a part of the history,
    as the model's Partition splits it, has no linearization. *)
Definition porcupine_sound (check : list Operation → CheckResult) : Prop :=
  ∀ history, check history = Illegal → ∃ part, part ∈ Partition history ∧ ¬ linearizable part.

Lemma returned_passes check w lin L :
  porcupine_sound check → run_inv w lin L → all_returned w → checkPorcupine check L.*2 = None.
Proof.
  intros Hc Hinv Hret. unfold checkPorcupine. destruct (check (Read L.*2)) eqn:E; [done| |done].
  destruct (Hc _ E) as (part & Hp & Hn). destruct Hn. by apply (returned_linearizable w lin L).
Qed.

(** C18 (The recorded history is linearizable).  Whatever the clients of a test call,
    as long as they put at versions that their keys have reached, and whatever
    requests and replies are lost, delayed or executed when nobody waits for them any
    more: once the calls have returned, the log holds every call of the run, the
    operations on each key have an order that respects real time and that KvModel
    accepts, and [checkPorcupine] does not stop the test. *)
Theorem recorded_history_linearizable check start cks evs w :
  porcupine_sound check → test_run evs (MakeTest start cks) = Some w → all_returned w →
  ∃ log, oplog w = Some log ∧ Len log = Z.of_nat (ncalls w) ∧
    (∀ part, part ∈ Partition (Read log) → linearizable part) ∧ checkPorcupine check log = None.
Proof.
  intros Hc Hrun Hret. destruct (test_run_inv _ _ _ _ _ Hrun (MakeTest_inv start cks)) as (lin & L & Hinv).
  exists L.*2. split_and!; [apply Hinv| | |by apply (returned_passes check w lin)].
  - unfold Len. rewrite length_fmap, <- (length_fmap fst), (returned_logged w lin L Hinv Hret), length_seq. done.
  - intros part Hp. by apply (returned_linearizable w lin L).
Qed.
End invariant.

(** ** Witness: a put whose first two requests are executed late *)

#[export] Instance precedes_dec x y : Decision (precedes x y).
Proof. unfold precedes. apply _. Defined.

#[export] Instance linearization_dec σ : Decision (linearization σ).
Proof. unfold linearization. apply _. Defined.

(** A checker that tries all orders. *)
Definition try_all (history : list Operation) : CheckResult :=
  if decide (Forall (λ part, Exists linearization (permutations part)) (Partition history)) then Ok else Illegal.

Lemma try_all_sound : porcupine_sound try_all.
Proof.
  intros history. unfold try_all. case_decide as Hd; [done|]. intros _.
  apply not_Forall_Exists in Hd; [|intros ?; apply _]. apply Exists_exists in Hd as (part & Hp & Hn).
  exists part. split; [done|]. intros (σ & Hσ & Hlin). apply Hn, Exists_exists. exists σ. split; [|done].
  by apply permutations_Permutation.
Qed.

Definition late_run : list TestEvent :=
  [TCall 0 7 (CallPut "k" "a" 0); TTick 1; TPutLost 0; TPutLost 0; TCall 1 8 (CallGet "k"); TTick 1; TPutStray 0;
   TGetExec 1; TTick 1; TReturn 1; TPutExec 0; TTick 1; TReturn 0; TAppend 0; TAppend 1; TTick 1; TPutStray 0;
   TCall 1 8 (CallPut "k" "b" 1); TPutExec 1; TReturn 1; TAppend 1].

Definition late_end : TestRun := default (MakeTest 100 []) (test_run late_run (MakeTest 100 [mkClerk 1 0; mkClerk 2 0])).

Lemma late_end_run :
  test_run late_run (MakeTest 100 [mkClerk 1 0; mkClerk 2 0]) = Some late_end ∧
  map_Forall (λ _ t, cur_id (t_pc t) = None) (threads late_end) ∧
  oplog late_end = Some
    [mkOperation 7 (mkKvInput 1 "k" "a" 0) 100 (mkKvOutput "" 0 ErrMaybe) 104;
     mkOperation 8 (mkKvInput 0 "k" "" 0) 101 (mkKvOutput "a" 1 OK) 103;
     mkOperation 8 (mkKvInput 1 "k" "b" 1) 105 (mkKvOutput "" 0 OK) 105].
Proof. split_and!; [vm_compute; reflexivity|apply (bool_decide_eq_true_1 _); vm_compute; reflexivity|vm_compute; reflexivity]. Qed.

Lemma recorded_history_linearizable_witness :
  ∃ log, oplog late_end = Some log ∧ Len log = 3 ∧
    (∀ part, part ∈ Partition (Read log) → linearizable part) ∧ checkPorcupine try_all log = None.
Proof.
  assert (E : Z.of_nat (ncalls late_end) = 3) by (vm_compute; reflexivity). rewrite <- E.
  exact (recorded_history_linearizable try_all 100 [mkClerk 1 0; mkClerk 2 0] late_run late_end try_all_sound
    (proj1 late_end_run) (proj1 (proj2 late_end_run))).
Defined.

(** (A version from the future).  The clients' discipline is needed: a put at a version
    that the key has not reached is refused and reported as ErrMaybe; when the key gets
    there, the request of the first attempt is executed, long after the call returned,
    and overwrites a value that was put in between.  The recorded history is not
    linearizable. *)
Definition unseen_run : list TestEvent :=
  [TCall 0 7 (CallPut "k" "a" 0); TPutExec 0; TTick 1; TReturn 0; TAppend 0; TTick 1;
   TCall 0 7 (CallPut "k" "x" 2); TPutLost 0; TPutExec 0; TTick 1; TReturn 0; TAppend 0; TTick 1;
   TCall 1 8 (CallPut "k" "y" 1); TPutExec 1; TTick 1; TReturn 1; TAppend 1; TPutStray 0; TTick 1;
   TCall 1 8 (CallGet "k"); TGetExec 1; TTick 1; TReturn 1; TAppend 1].

Definition unseen_end : option TestRun :=
  foldl (λ o ev, w ← o; test_step ev w) (Some (MakeTest 100 [mkClerk 1 0; mkClerk 2 0])) unseen_run.

Definition unseen_log : list Operation :=
  [mkOperation 7 (mkKvInput 1 "k" "a" 0) 100 (mkKvOutput "" 0 OK) 101;
   mkOperation 7 (mkKvInput 1 "k" "x" 2) 102 (mkKvOutput "" 0 ErrMaybe) 103;
   mkOperation 8 (mkKvInput 1 "k" "y" 1) 104 (mkKvOutput "" 0 OK) 105;
   mkOperation 8 (mkKvInput 0 "k" "" 0) 106 (mkKvOutput "x" 3 OK) 107].

Theorem future_version_not_linearizable :
  (w ← unseen_end; oplog w) = Some unseen_log ∧ ∃ part, part ∈ Partition unseen_log ∧ ¬ linearizable part.
Proof. split; [vm_compute; reflexivity|]. apply try_all_sound. vm_compute. reflexivity. Qed.
