(* ===== verification/KVTest.v ===== *)
(** * kvtest1/kvtest.go: the clients of the key/value tests and what they check

    A test starts a number of clients ([SpawnClientsAndWait]), each a loop that calls
    the wrappers of Porcupine.v until it is told to stop, and then compares what the
    clients counted with the service ([CheckPutConcurrent]).

    A client's code is a function from where it is and what its last call returned to
    what it does next ([Act]); [ClientTest] runs the clients on the goroutines of
    Porcupine.v, whose events, losses and late executions included, interleave
    freely with theirs.  The random choices and the arrival of the done signal are
    inputs ([Choice]).  A [Fatalf] stops the test. *)

From S2P Require Import Prelude KVSrv Lock Porcupine.
Local Open Scope Z_scope.

(** ** JSON

    Package encoding/json on a type [A]: what is marshalled unmarshals to itself. *)
Class Json (A : Type) := {
  json_marshal : A → string;
  json_unmarshal : string → option A;
  json_unmarshal_marshal a : json_unmarshal (json_marshal a) = Some a
}.

Record ClntRes := mkClntRes { Nok : Z; Nmaybe : Z }.
Record EntryV := mkEntryV { Id : Z; V : Tversion }.

(** What a client does next: call its clerk, go on without, return, or stop the test. *)
Inductive Act (A : Type) :=
  | Do (c : KVCall) (a : A)
  | Go (a : A)
  | Finish (r : ClntRes)
  | Fatalf (msg : string).
Arguments Do {A} c a.
Arguments Go {A} a.
Arguments Finish {A} r.
Arguments Fatalf {A} msg.

(** [c_done]: a done signal is there to be received; [c_rand]: rand.Int(). *)
Record Choice := mkChoice { c_done : bool; c_rand : Z }.

Definition PutJson {A} `{!Json A} (key : string) (v : A) (ver : Tversion) : KVCall := CallPut key (json_marshal v) ver.

(** What [GetJson] makes of the result of its Get. *)
Definition GetJson {A} `{!Json A} (r : KVRes) : string + Tversion * A :=
  match r with
  | ResGet val ver err =>
      if decide (err = OK) then
        match json_unmarshal val with Some v => inr (ver, v) | None => inl "Unmarshal err" end
      else inl "Get err"
  | ResPut _ => inl "Get err"
  end.

(** ** OneClientPut *)

(** The loop of OneClientPut, and within it that of OnePut: in front of the select;
    in PutJson; in GetJson after a put that returned [err]. *)
Inductive PutPc := PLoop | PPut (k : string) (ver : Tversion) | PGet (k : string) (ver : Tversion) (err : Err).

Record PutClient := mkPutClient { p_pc : PutPc; res : ClntRes; verm : gmap string Tversion }.

Section programs.
Context `{!Json EntryV}.

Definition OneClientPut_start (ka : list string) : PutClient :=
  mkPutClient PLoop (mkClntRes 0 0) (foldr (λ k, <[k := 0]>) ∅ ka).

(** One round of OnePut begins. *)
Definition OnePut_put (me : Z) (k : string) (ver : Tversion) (cl : PutClient) : Act PutClient :=
  Do (PutJson k (mkEntryV me ver) ver) (mkPutClient (PPut k ver) (res cl) (verm cl)).

(** The put has returned. *)
Definition OnePut_err (k : string) (ver : Tversion) (err : Err) (cl : PutClient) : Act PutClient :=
  if bool_decide (err = OK) || bool_decide (err = ErrVersion) || bool_decide (err = ErrMaybe)
  then Do (CallGet k) (mkPutClient (PGet k ver err) (res cl) (verm cl))
  else Fatalf "Wrong error".

(** OnePut returns the version [ver] and whether its put succeeded. *)
Definition OnePut_return (k : string) (ver : Tversion) (ok : bool) (cl : PutClient) : PutClient :=
  mkPutClient PLoop
    (if ok then mkClntRes (wrap_i64 (Nok (res cl) + 1)) (Nmaybe (res cl))
     else mkClntRes (Nok (res cl)) (wrap_i64 (Nmaybe (res cl) + 1)))
    (<[k := ver]> (verm cl)).

(** The get has returned. *)
Definition OnePut_get (me : Z) (k : string) (ver : Tversion) (err : Err) (r : KVRes) (cl : PutClient) : Act PutClient :=
  match GetJson r with
  | inl msg => Fatalf msg
  | inr (ver0, e) =>
      if bool_decide (err = OK) && (ver0 =? wrap_u64 (ver + 1)) && (negb (Id e =? me) && negb (V e =? ver))
      then Fatalf "Wrong value"
      else if bool_decide (err = OK) || bool_decide (err = ErrMaybe)
      then Go (OnePut_return k ver0 (bool_decide (err = OK)) cl)
      else OnePut_put me k ver0 cl
  end.

(** [None]: the code is not at such a point. *)
Definition OneClientPut (randomkeys : bool) (ka : list string) (me : Z) (ch : Choice) (cl : PutClient) (r : option KVRes)
    : option (Act PutClient) :=
  match p_pc cl, r with
  | PLoop, None =>
      if c_done ch then Some (Finish (res cl))
      else
        match (if randomkeys then ka !! Z.to_nat (c_rand ch mod Z.of_nat (length ka)) else ka !! O) with
        | Some k => Some (OnePut_put me k (default 0 (verm cl !! k)) cl)
        | None => Some (Fatalf "index out of range")
        end
  | PPut k ver, Some (ResPut err) => Some (OnePut_err k ver err cl)
  | PGet k ver err, Some r => Some (OnePut_get me k ver err r cl)
  | _, _ => None
  end.

(** [ver0] is what GetJson read; [Some msg]: Fatalf. *)
Definition sum_res (rs : list ClntRes) (res : ClntRes) : ClntRes :=
  foldl (λ res r, mkClntRes (wrap_i64 (Nok res + Nok r)) (wrap_i64 (Nmaybe res + Nmaybe r))) res rs.

Definition CheckPutConcurrent (get : KVRes) (rs : list ClntRes) (res : ClntRes) (reliable : bool)
    : ClntRes * option string :=
  match GetJson (A := EntryV) get with
  | inl msg => (res, Some msg)
  | inr (ver0, _) =>
      let res := sum_res rs res in
      if reliable then
        if ver0 =? wrap_u64 (Nok res) then (res, None) else (res, Some "Reliable: Wrong number of puts")
      else if wrap_u64 (wrap_i64 (Nok res + Nmaybe res)) <? ver0
      then (res, Some "Unreliable: Wrong number of puts")
      else (res, None)
  end.
End programs.

Definition MakeKeys (n : nat) : list string := (λ i, "k" +:+ Itoa (Z.of_nat i)) <$> seq 0 n.

(** ** The clients on their goroutines *)

Section clients.
Context {S : Type} `{!KVService S}.
Context {A : Type} (resume : Z → Choice → A → option KVRes → option (Act A)).

(** Client [n] runs on goroutine [n]; the goroutine behind them is the one that
    runs the test.  A client that returned has sent its result. *)
Record ClientTest := mkClientTest { base : TestRun (S := S); clients : list (A + ClntRes) }.

Inductive ClientEvent :=
  | CStep (n : nat) (ch : Choice)   (* client [n] goes on *)
  | CCheck                          (* the clients have returned, and the test calls Get *)
  | CBase (ev : TestEvent).         (* anything but a new call *)

Definition pending (p : TPc) : option (option KVRes) :=
  match p with TIdle => Some None | TRet r => Some (Some r) | _ => None end.

Definition finished (w : ClientTest) : bool :=
  forallb (λ cl : A + ClntRes, match cl with inr _ => true | inl _ => false end) (clients w).

(** [inr msg]: the test was stopped.  A reliable network loses no replies.  [key] is
    the key that the test looks at in the end. *)
Definition client_step (reliable : bool) (key : string) (ev : ClientEvent) (w : ClientTest)
    : option (ClientTest + string) :=
  match ev with
  | CStep n ch =>
      cl ← clients w !! n;
      t ← threads (base w) !! n;
      match cl with
      | inr _ => None
      | inl a =>
          r ← pending (t_pc t);
          act ← resume (Z.of_nat n) ch a r;
          let idle := set_thread n (mkThread (t_ck t) TIdle) (base w) in
          match act with
          | Do c a =>
              b ← test_step (TCall n (Z.of_nat n) c) (base w);
              Some (inl (mkClientTest b (<[n := inl a]> (clients w))))
          | Go a => Some (inl (mkClientTest idle (<[n := inl a]> (clients w))))
          | Finish rs => Some (inl (mkClientTest idle (<[n := inr rs]> (clients w))))
          | Fatalf msg => Some (inr msg)
          end
      end
  | CCheck =>
      if finished w then
        b ← test_step (TCall (length (clients w)) (-1) (CallGet key)) (base w);
        Some (inl (mkClientTest b (clients w)))
      else None
  | CBase (TCall _ _ _) => None
  | CBase (TPutLost n) =>
      if reliable then None else b ← test_step (TPutLost n) (base w); Some (inl (mkClientTest b (clients w)))
  | CBase ev => b ← test_step ev (base w); Some (inl (mkClientTest b (clients w)))
  end.

Fixpoint client_run (reliable : bool) (key : string) (evs : list ClientEvent) (w : ClientTest) : option (ClientTest + string) :=
  match evs with
  | [] => Some (inl w)
  | ev :: evs =>
      match client_step reliable key ev w with
      | Some (inl w) => client_run reliable key evs w
      | o => o
      end
  end.

(** SpawnClientsAndWait: a clerk for each client, and one for the test itself. *)
Definition spawn (start : Z) (cks : list Clerk) (ck : Clerk) (a : A) : ClientTest :=
  mkClientTest (MakeTest start (cks ++ [ck])) (replicate (length cks) (inl a)).

(** What SpawnClientsAndWait returns once every client has sent its result. *)
Definition results (w : ClientTest) : option (list ClntRes) :=
  mapM (λ cl : A + ClntRes, match cl with inl _ => None | inr r => Some r end) (clients w).

Lemma results_lookup (w : ClientTest) rs n r : results w = Some rs → rs !! n = Some r → clients w !! n = Some (inr r).
Proof.
  unfold results. intros H%mapM_Some Hr. destruct (Forall2_lookup_r _ _ _ _ _ H Hr) as (cl & Hcl & E).
  destruct cl; simplify_eq. done.
Qed.

Lemma results_length (w : ClientTest) rs : results w = Some rs → length rs = length (clients w).
Proof. unfold results. intros H%mapM_Some. by apply Forall2_length in H. Qed.

Lemma running_not_finished (w : ClientTest) n (cl : A) : clients w !! n = Some (inl cl) → finished w = false.
Proof.
  intros Hn. unfold finished. apply not_true_iff_false. rewrite forallb_forall. intros H.
  specialize (H (inl cl)). apply (diff_false_true), H, list_elem_of_In, list_elem_of_lookup_2 with n, Hn.
Qed.
End clients.

(** ** What holds during a run of OneClientPut *)

(** The puts of client [me] in the log that returned [e]. *)
Definition is_put (me : Z) (e : Err) (op : Operation) : Prop :=
  in_Op (Input op) = 1 ∧ ClientId op = me ∧ out_Err (Output op) = e.
Definition puts_with (me : Z) (e : Err) (log : list Operation) : Z := Z.of_nat (length (filter (is_put me e) log)).

(** The counters of client [me]; [extra] is a put that is in the log and that the
    client has not counted yet. *)
Definition one (b : Prop) `{!Decision b} : Z := if decide b then 1 else 0.
Definition tallied (log : list Operation) (me : Z) (rs : ClntRes) (extra : option Err) : Prop :=
  Nok rs = wrap_i64 (puts_with me OK log - one (extra = Some OK)) ∧
  Nmaybe rs = wrap_i64 (puts_with me ErrMaybe log - one (extra = Some ErrMaybe)).

(** What Get answers about a cell. *)
Definition read_cell (c : option KVPair) : GetReply :=
  match c with Some p => mkGetReply (value p) (version p) OK | None => mkGetReply "" 0 ErrNoKey end.
Definition res_of (r : GetReply) : KVRes := ResGet (gr_Value r) (gr_Version r) (gr_Err r).

Section put_clients.
Context `{!Json EntryV}.
Context (rel : bool) (ka : list string) (key : string).
Implicit Types (cells : gmap string KVPair) (log : list Operation).

(** The value that a put at version [ver - 1] leaves. *)
Definition entry_at (v : string) (ver : Tversion) : Prop := ∃ id, v = json_marshal (mkEntryV id (ver - 1)) ∧ 1 ≤ ver.

Definition cells_ok cells : Prop := ∀ k p, cells !! k = Some p → entry_at (value p) (version p) ∧ version p < 2 ^ 64.
Definition args_ok (args : PutArgs) : Prop := entry_at (pa_Value args) (pa_Version args + 1).

(** What a put returns. *)
Definition err_ok (e : Err) : Prop := e = OK ∨ e = ErrVersion ∨ (e = ErrMaybe ∧ rel = false).

(** What the get of OnePut returns. *)
Definition seen cells (k : string) (r : KVRes) : Prop :=
  match r with
  | ResGet val ver err => err = OK ∧ entry_at val ver ∧ ver ≤ cell_version (cells !! k)
  | ResPut _ => False
  end.

Definition in_put cells log (me : Z) (rs : ClntRes) (k : string) (ver : Tversion) (p : TPc) : Prop :=
  match p with
  | TPut _ cli _ args first _ =>
      cli = me ∧ pa_Key args = k ∧ pa_Version args = ver ∧ args_ok args ∧ (rel = true → first = true) ∧
      tallied log me rs None
  | TLog _ op (ResPut e) =>
      is_put me e op ∧ in_Key (Input op) = k ∧ ver < cell_version (cells !! k) ∧ err_ok e ∧ tallied log me rs None
  | TRet (ResPut e) => ver < cell_version (cells !! k) ∧ err_ok e ∧ tallied log me rs (Some e)
  | _ => False
  end.

Definition in_get cells (me : Z) (k : string) (p : TPc) : Prop :=
  match p with
  | TGet _ cli _ args r => ga_Key args = k ∧ ∀ x, r = Some x → seen cells k (res_of x)
  | TLog _ op r => in_Op (Input op) = 0 ∧ seen cells k r
  | TRet r => seen cells k r
  | _ => False
  end.

Definition pc_inv cells log (me : Z) (cl : PutClient) (p : TPc) : Prop :=
  match p_pc cl with
  | PLoop => p = TIdle ∧ tallied log me (res cl) None
  | PPut k ver => k ∈ ka ∧ 0 ≤ ver ∧ in_put cells log me (res cl) k ver p
  | PGet k ver err =>
      k ∈ ka ∧ 0 ≤ ver < cell_version (cells !! k) ∧ err_ok err ∧ tallied log me (res cl) (Some err) ∧ in_get cells me k p
  end.

Definition client_ok cells log (me : Z) (cl : PutClient + ClntRes) (p : TPc) : Prop :=
  match cl with
  | inr rs => p = TIdle ∧ tallied log me rs None
  | inl cl =>
      (∀ k ver, verm cl !! k = Some ver → 0 ≤ ver ≤ cell_version (cells !! k)) ∧ pc_inv cells log me cl p
  end.

(** The goroutine of the test. *)
Definition checker_ok cells (fin : bool) (p : TPc) : Prop :=
  match p with
  | TIdle => True
  | TGet _ _ _ args r => fin = true ∧ ga_Key args = key ∧ ∀ x, r = Some x → x = read_cell (cells !! key)
  | TLog _ op r => fin = true ∧ in_Op (Input op) = 0 ∧ r = res_of (read_cell (cells !! key))
  | TRet r => fin = true ∧ r = res_of (read_cell (cells !! key))
  | TPut _ _ _ _ _ _ => False
  end.

(** A put in the log. *)
Definition logged_ok cells (n : nat) (op : Operation) : Prop :=
  in_Op (Input op) = 1 →
  0 ≤ ClientId op < Z.of_nat n ∧ in_Key (Input op) ∈ ka ∧ 1 ≤ cell_version (cells !! in_Key (Input op)) ∧
  err_ok (out_Err (Output op)).

Lemma seen_grow cells cells' k r : grow cells cells' → seen cells k r → seen cells' k r.
Proof. intros Hg. destruct r; [|done]. intros (? & ? & ?). split_and!; try done. specialize (Hg k). lia. Qed.

Lemma client_ok_mono cells cells' log log' me cl p :
  grow cells cells' → (∀ e, puts_with me e log' = puts_with me e log) →
  client_ok cells log me cl p → client_ok cells' log' me cl p.
Proof.
  intros Hg Hlog. assert (Ht : ∀ rs x, tallied log me rs x → tallied log' me rs x).
  { intros rs x. unfold tallied. by rewrite !Hlog. }
  assert (Hv : ∀ k ver, ver < cell_version (cells !! k) → ver < cell_version (cells' !! k)).
  { intros k ver Hlt. specialize (Hg k). lia. }
  destruct cl as [cl|rs]; simpl; [|intros [-> H]; auto]. intros [Hm Hpc]. split.
  { intros k ver [H1 H2]%Hm. specialize (Hg k). lia. }
  revert Hpc. unfold pc_inv. destruct (p_pc cl) as [|k ver|k ver err].
  - intros [-> H]. auto.
  - intros (H1 & H2 & H3). split_and!; [done|done|]. unfold in_put in *.
    destruct p as [| |id cli st args f r|id op [|e]|[|e]]; try done.
    + destruct H3 as (? & ? & ? & ? & ? & ?). split_and!; auto.
    + destruct H3 as (? & ? & ? & ? & ?). split_and!; auto.
    + destruct H3 as (? & ? & ?). split_and!; auto.
  - intros (H1 & [H2 H2'] & H3 & H4 & H5). split_and!; [done|done|auto|done|auto|]. unfold in_get in *.
    destruct p as [|id cli st args r| |id op r|r]; try done.
    + destruct H5 as [H5 H6]. split; [done|]. intros x Hx. apply (seen_grow cells); auto.
    + destruct H5. split; [done|by apply (seen_grow cells)].
    + by apply (seen_grow cells).
Qed.

Lemma logged_ok_grow cells cells' n op : grow cells cells' → logged_ok cells n op → logged_ok cells' n op.
Proof.
  intros Hg H Hop. destruct (H Hop) as (H1 & H2 & H3 & H4). specialize (Hg (in_Key (Input op))). split_and!; (done || lia).
Qed.

Lemma puts_with_app me e log op :
  puts_with me e (log ++ [op]) = puts_with me e log + one (is_put me e op).
Proof.
  unfold puts_with, one. rewrite filter_app, length_app, filter_cons, filter_nil. case_decide; simpl; lia.
Qed.

(** ** The invariant *)

Context {S : Type} `{!KVService S}.
Abbreviation PutTest := (ClientTest (S := S) (A := PutClient)).

Definition cells_of (b : TestRun (S := S)) : gmap string KVPair := kv_cells (svc b).
Definition log_of (b : TestRun (S := S)) : list Operation := default [] (oplog b).

Record put_inv (w : PutTest) : Prop := {
  pi_base : ∃ lin L, run_inv (base w) lin L;
  pi_cells : cells_ok (cells_of (base w));
  pi_strays id args : (id, args) ∈ strays (base w) → args_ok args;
  pi_clients n cl : clients w !! n = Some cl →
    ∃ t, threads (base w) !! n = Some t ∧ client_ok (cells_of (base w)) (log_of (base w)) (Z.of_nat n) cl (t_pc t);
  pi_checker : ∃ t, threads (base w) !! length (clients w) = Some t ∧
    checker_ok (cells_of (base w)) (finished w) (t_pc t);
  pi_threads n t : threads (base w) !! n = Some t → (n ≤ length (clients w))%nat;
  pi_log op : op ∈ log_of (base w) → logged_ok (cells_of (base w)) (length (clients w)) op
}.

Lemma checker_idle (w : PutTest) : put_inv w → finished w = false →
  ∃ t, threads (base w) !! length (clients w) = Some t ∧ t_pc t = TIdle.
Proof.
  intros Hinv Hf. destruct (pi_checker w Hinv) as (t & Ht & Hc). exists t. split; [done|]. rewrite Hf in Hc.
  destruct (t_pc t); simpl in Hc; try done; by destruct Hc.
Qed.

Lemma put_effect args s s' e :
  cells_ok (kv_cells s) → args_ok args → kv_put args s = Some (s', e) →
  cells_ok (kv_cells s') ∧ grow (kv_cells s) (kv_cells s').
Proof.
  intros Hc Ha Hput. destruct (kv_put_cells _ _ _ _ Hput) as [(-> & Ev & Es)|(_ & _ & Es)]; rewrite Es; [|split; [done|apply grow_refl]].
  split.
  - intros k p. rewrite lookup_insert_Some. intros [[<- <-]|[_ Hp]]; [|by apply (Hc k)].
    split; [done|]. by apply (kv_put_room _ _ _ Hput).
  - intros k. destruct (decide (k = pa_Key args)) as [->|Hk]; [|rewrite lookup_insert_ne by done; lia].
    rewrite lookup_insert_eq, <- Ev. unfold cell_version. simpl. lia.
Qed.

(** A client that is running moves on. *)
Lemma put_inv_client w b n t' cl cl' :
  put_inv w → clients w !! n = Some (inl cl) → (∃ lin L, run_inv b lin L) →
  cells_ok (cells_of b) → grow (cells_of (base w)) (cells_of b) → (∀ id args, (id, args) ∈ strays b → args_ok args) →
  threads b = <[n := t']> (threads (base w)) →
  (∀ m e, m ≠ n → puts_with (Z.of_nat m) e (log_of b) = puts_with (Z.of_nat m) e (log_of (base w))) →
  (∀ op, op ∈ log_of b → logged_ok (cells_of b) (length (clients w)) op) →
  client_ok (cells_of b) (log_of b) (Z.of_nat n) cl' (t_pc t') →
  put_inv (mkClientTest b (<[n := cl']> (clients w))).
Proof.
  intros Hinv Hn Hb Hc Hg Hst Ht Hlog Hop Hcl. pose proof (lookup_lt_Some _ _ _ Hn) as Hlt.
  assert (Hlen : length (<[n := cl']> (clients w)) = length (clients w)) by apply length_insert.
  split; simpl; rewrite ?Hlen; try done.
  - intros m c Hm. destruct (decide (m = n)) as [->|Hmn].
    + rewrite list_lookup_insert_eq in Hm by done. injection Hm as <-. exists t'. by rewrite Ht, lookup_insert_eq.
    + rewrite list_lookup_insert_ne in Hm by done. destruct (pi_clients w Hinv m c Hm) as (t & Htm & Hok). exists t.
      rewrite Ht, lookup_insert_ne by done. split; [done|]. apply (client_ok_mono (cells_of (base w)) _ (log_of (base w))); auto.
  - destruct (checker_idle w Hinv (running_not_finished w n cl Hn)) as (t & Htc & Hi). exists t.
    rewrite Ht, lookup_insert_ne by lia. split; [done|]. by rewrite Hi.
  - intros m t Hm. rewrite Ht in Hm. destruct (decide (m = n)) as [->|Hmn]; [lia|].
    rewrite lookup_insert_ne in Hm by done. by apply (pi_threads w Hinv m t).
Qed.

(** The goroutine of the test moves on; the log may get a Get. *)
Lemma put_inv_checker w b t' :
  put_inv w → (∃ lin L, run_inv b lin L) → cells_of b = cells_of (base w) → strays b = strays (base w) →
  threads b = <[length (clients w) := t']> (threads (base w)) →
  (log_of b = log_of (base w) ∨ ∃ op, in_Op (Input op) = 0 ∧ log_of b = log_of (base w) ++ [op]) →
  checker_ok (cells_of (base w)) (finished w) (t_pc t') →
  put_inv (mkClientTest b (clients w)).
Proof.
  intros Hinv Hb Ec Es Ht Hlog Hch.
  assert (Hp : ∀ me e, puts_with me e (log_of b) = puts_with me e (log_of (base w))).
  { intros me e. destruct Hlog as [->|(op & Hop & ->)]; [done|]. rewrite puts_with_app. unfold one.
    rewrite decide_False; [lia|]. intros [? _]. lia. }
  split; simpl; rewrite ?Ec, ?Es; try done; try apply Hinv.
  - intros m c Hm. destruct (pi_clients w Hinv m c Hm) as (t & Htm & Hok). exists t.
    pose proof (lookup_lt_Some _ _ _ Hm). rewrite Ht, lookup_insert_ne by lia. split; [done|].
    apply (client_ok_mono (cells_of (base w)) _ (log_of (base w))); auto. apply grow_refl.
  - exists t'. by rewrite Ht, lookup_insert_eq.
  - intros m t. rewrite Ht, lookup_insert_Some. intros [[<- _]|[_ Hm]]; [lia|by apply (pi_threads w Hinv m t)].
  - intros op Hin. destruct Hlog as [E|(op' & Hop' & E)]; rewrite E in Hin; [by apply Hinv|].
    apply elem_of_app in Hin as [Hin| ->%list_elem_of_singleton]; [by apply Hinv|]. intros ?. lia.
Qed.

(** Nothing but the service and the time change. *)
Lemma put_inv_service w b :
  put_inv w → (∃ lin L, run_inv b lin L) → cells_ok (cells_of b) → grow (cells_of (base w)) (cells_of b) →
  (finished w = true → cells_of b = cells_of (base w)) → (∀ x, x ∈ strays b → x ∈ strays (base w)) →
  threads b = threads (base w) → oplog b = oplog (base w) → put_inv (mkClientTest b (clients w)).
Proof.
  intros Hinv Hb Hc Hg Hfin Es Ht El. assert (Elog : log_of b = log_of (base w)) by (unfold log_of; by rewrite El).
  split; simpl; rewrite ?Elog, ?Ht; try done.
  - intros id args Hi%Es. by apply (pi_strays w Hinv id).
  - intros m c Hm. destruct (pi_clients w Hinv m c Hm) as (t & Htm & Hok). exists t. split; [done|].
    by apply (client_ok_mono (cells_of (base w)) _ (log_of (base w))).
  - destruct (finished w) eqn:Ef.
    + rewrite Hfin by done. destruct (pi_checker w Hinv) as (t & ? & ?). exists t. split; [done|]. change (finished (mkClientTest b (clients w))) with (finished w). done.
    + destruct (checker_idle w Hinv Ef) as (t & Htc & Hi). exists t. split; [done|]. by rewrite Hi.
  - apply Hinv.
  - intros op Hop. apply (logged_ok_grow (cells_of (base w))); [done|]. by apply Hinv.
Qed.

(** ** What the points of the wrappers mean for a client *)

Lemma client_get_exec cells log me cl id cli st args :
  cells_ok cells → client_ok cells log me (inl cl) (TGet id cli st args None) →
  client_ok cells log me (inl cl) (TGet id cli st args (Some (read_cell (cells !! ga_Key args)))).
Proof.
  intros Hc [Hm Hpc]. split; [done|]. unfold pc_inv in *. destruct (p_pc cl) as [|k ver|k ver err]; [by destruct Hpc|by destruct Hpc as (_ & _ & ?)|].
  destruct Hpc as (Hk & Hv & He & Ht & <- & _). split_and!; try done; [lia|lia|].
  split; [done|]. intros x [= <-]. unfold cell_version in *. destruct (cells !! ga_Key args) as [p|] eqn:E; simpl in *; [|lia].
  split_and!; [done|apply (Hc _ _ E)|unfold cell_version; rewrite E; simpl; lia].
Qed.

Lemma client_put_exec cells log me cl id cli st args f r r' :
  client_ok cells log me (inl cl) (TPut id cli st args f r) → client_ok cells log me (inl cl) (TPut id cli st args f r').
Proof. intros [Hm Hpc]. split; [done|]. unfold pc_inv in *. by destruct (p_pc cl); [destruct Hpc| |]. Qed.

Lemma client_put_lost cells log me cl id cli st args f r r' : rel = false →
  client_ok cells log me (inl cl) (TPut id cli st args f r) → client_ok cells log me (inl cl) (TPut id cli st args false r').
Proof.
  intros Hrel [Hm Hpc]. split; [done|]. unfold pc_inv in *. destruct (p_pc cl) as [|k ver|k ver err]; [by destruct Hpc| |by destruct Hpc as (_ & _ & _ & _ & ?)].
  destruct Hpc as (Hk & Hv & H1 & H2 & H3 & H4 & H5 & H6). split_and!; try done. unfold in_put. rewrite Hrel. by split_and!.
Qed.

Lemma client_put_args cells log me cl id cli st args f r :
  client_ok cells log me (inl cl) (TPut id cli st args f r) → args_ok args.
Proof.
  intros [_ Hpc]. unfold pc_inv in *. destruct (p_pc cl) as [|k ver|k ver err]; [by destruct Hpc|by destruct Hpc as (_ & _ & _ & _ & _ & ? & _)|by destruct Hpc as (_ & _ & _ & _ & ?)].
Qed.

Lemma client_return_put cells log me cl id cli st args f e stop :
  passed args cells → e = OK ∨ e = ErrVersion →
  client_ok cells log me (inl cl) (TPut id cli st args f (Some e)) →
  client_ok cells log me (inl cl)
    (TLog id (Put_operation (pa_Key args) (pa_Value args) (pa_Version args) cli st stop (put_err f e)) (ResPut (put_err f e))).
Proof.
  intros Hp He [Hm Hpc]. split; [done|]. unfold pc_inv in *. destruct (p_pc cl) as [|k ver|k ver err]; [by destruct Hpc| |by destruct Hpc as (_ & _ & _ & _ & ?)].
  destruct Hpc as (Hk & Hv & -> & <- & <- & H4 & H5 & H6). split_and!; try done. cbn [in_put]. split_and!; try done.
  unfold err_ok. destruct He as [-> | ->]; [by left|]. destruct f; [by right; left|]. right; right. split; [done|].
  destruct rel; [by specialize (H5 eq_refl)|done].
Qed.

Lemma client_return_get cells log me cl id cli st args r stop :
  client_ok cells log me (inl cl) (TGet id cli st args (Some r)) →
  client_ok cells log me (inl cl) (TLog id (Get_operation (ga_Key args) cli st stop r) (res_of r)).
Proof.
  intros [Hm Hpc]. split; [done|]. unfold pc_inv in *. destruct (p_pc cl) as [|k ver|k ver err]; [by destruct Hpc|by destruct Hpc as (_ & _ & ?)|].
  destruct Hpc as (Hk & [H1 H2] & He & Ht & <- & H). split_and!; try done. split; [done|]. by apply H.
Qed.

Lemma client_append cells log me cl id op r n :
  0 ≤ me < Z.of_nat n → client_ok cells log me (inl cl) (TLog id op r) →
  client_ok cells (log ++ [op]) me (inl cl) (TRet r) ∧ logged_ok cells n op ∧
  (∀ m e, m ≠ me → puts_with m e (log ++ [op]) = puts_with m e log).
Proof.
  intros Hn [Hm Hpc]. unfold client_ok, pc_inv in *. destruct (p_pc cl) as [|k ver|k ver err]; [by destruct Hpc|..].
  - destruct Hpc as (Hk & Hv & Hin). destruct r as [|e]; [done|]. destruct Hin as (Hop & Ek & Hlt & He & Ht).
    assert (Hone : ∀ x, one (is_put me x op) = one (Some e = Some x)).
    { intros x. apply decide_ext. destruct Hop as (H1 & H2 & <-). unfold is_put. split; [by intros (_ & _ & ->)|by intros [= <-]]. }
    split_and!; try done.
    + cbn [in_put]. split_and!; [done|done|]. destruct Ht as [H1 H2]. unfold tallied. rewrite !puts_with_app, !Hone, H1, H2. split; f_equal; unfold one; simpl; repeat case_decide; simplify_eq; lia.
    + intros Ho. destruct Hop as (H1 & H2 & H3). rewrite H2, H3, Ek. split_and!; try done; lia.
    + intros m x Hne. rewrite puts_with_app. unfold one. rewrite decide_False; [lia|]. intros (_ & Hc & _).
      destruct Hop as (_ & Hc' & _). congruence.
  - destruct Hpc as (Hk & [H1 H2] & He & Ht & H0 & Hs).
    assert (Hno : ∀ m x, puts_with m x (log ++ [op]) = puts_with m x log).
    { intros m x. rewrite puts_with_app. unfold one. rewrite decide_False; [lia|]. intros [? _]. lia. }
    split_and!; try done; [unfold tallied in *; by rewrite !Hno..|]. intros ?. lia.
Qed.

(** ** Every step keeps the invariant *)

(** Whose goroutine it is that is within a call. *)
Lemma thread_cases w n t : put_inv w → threads (base w) !! n = Some t → t_pc t ≠ TIdle →
  (∃ cl, clients w !! n = Some (inl cl) ∧ client_ok (cells_of (base w)) (log_of (base w)) (Z.of_nat n) (inl cl) (t_pc t)) ∨
  (n = length (clients w) ∧ checker_ok (cells_of (base w)) (finished w) (t_pc t)).
Proof.
  intros Hinv Ht Hne. destruct (clients w !! n) as [cl|] eqn:Hn.
  - left. destruct (pi_clients w Hinv n cl Hn) as (t' & Ht' & Hok). simplify_eq.
    destruct cl as [cl|rs]; [by exists cl|]. by destruct Hok.
  - right. apply lookup_ge_None in Hn. pose proof (pi_threads w Hinv n t Ht).
    assert (n = length (clients w)) as -> by lia. split; [done|].
    destruct (pi_checker w Hinv) as (t' & Ht' & Hok). by simplify_eq.
Qed.

(** A client's goroutine moves on within its call. *)
Lemma put_inv_thread w b n t' cl :
  put_inv w → clients w !! n = Some (inl cl) → (∃ lin L, run_inv b lin L) →
  cells_ok (cells_of b) → grow (cells_of (base w)) (cells_of b) → (∀ id args, (id, args) ∈ strays b → args_ok args) →
  threads b = <[n := t']> (threads (base w)) → oplog b = oplog (base w) →
  client_ok (cells_of b) (log_of (base w)) (Z.of_nat n) (inl cl) (t_pc t') →
  put_inv (mkClientTest b (clients w)).
Proof.
  intros Hinv Hn Hb Hc Hg Hst Ht El Hcl. assert (Elog : log_of b = log_of (base w)) by (unfold log_of; by rewrite El).
  rewrite <- (list_insert_id (clients w) n (inl cl) Hn).
  apply (put_inv_client w b n t' cl); rewrite ?Elog; try done.
  intros op Hop. apply (logged_ok_grow (cells_of (base w))); [done|]. by apply Hinv.
Qed.

Lemma put_exec_inv w b n : put_inv w → test_step (TPutExec n) (base w) = Some b → (∃ lin L, run_inv b lin L) →
  put_inv (mkClientTest b (clients w)).
Proof.
  intros Hinv Hstep Hb. simpl in Hstep. destruct (threads (base w) !! n) as [t|] eqn:Ht; simpl in Hstep; [|done].
  destruct (t_pc t) as [| |id cli st args f [e|]| |] eqn:Ep; try done.
  destruct (kv_put args (svc (base w))) as [[s e]|] eqn:Eput; simplify_eq/=.
  destruct (thread_cases w n t Hinv Ht) as [(cl & Hn & Hok)|[_ Hok]]; rewrite Ep in *; [done| |done].
  destruct (put_effect args _ s e (pi_cells w Hinv)) as [Hc Hg]; [by apply client_put_args in Hok|done|].
  apply (put_inv_thread w _ n (mkThread (t_ck t) (TPut id cli st args f (Some e))) cl); try done; [apply Hinv|].
  apply (client_put_exec _ _ _ _ _ _ _ _ _ None). by apply (client_ok_mono (cells_of (base w)) _ (log_of (base w))).
Qed.

Lemma put_lost_inv w b n : rel = false → put_inv w → test_step (TPutLost n) (base w) = Some b → (∃ lin L, run_inv b lin L) →
  put_inv (mkClientTest b (clients w)).
Proof.
  intros Hrel Hinv Hstep Hb. simpl in Hstep. destruct (threads (base w) !! n) as [t|] eqn:Ht; simpl in Hstep; [|done].
  destruct (t_pc t) as [| |id cli st args f r| |] eqn:Ep; try done. injection Hstep as <-.
  destruct (thread_cases w n t Hinv Ht) as [(cl & Hn & Hok)|[_ Hok]]; rewrite Ep in *; [done| |done].
  apply (put_inv_thread w _ n (mkThread (t_ck t) (TPut id cli st args false None)) cl); try done; [apply Hinv|apply grow_refl| |].
  - intros i a [Hi|Hi]%elem_of_app; [|by apply (pi_strays w Hinv i)].
    destruct r; [by apply elem_of_nil in Hi|]. apply list_elem_of_singleton in Hi as [= -> ->]. by apply client_put_args in Hok.
  - by apply (client_put_lost _ _ _ _ _ _ _ _ f r).
Qed.

Lemma get_exec_inv w b n : put_inv w → test_step (TGetExec n) (base w) = Some b → (∃ lin L, run_inv b lin L) →
  put_inv (mkClientTest b (clients w)).
Proof.
  intros Hinv Hstep Hb. simpl in Hstep. destruct (threads (base w) !! n) as [t|] eqn:Ht; simpl in Hstep; [|done].
  destruct (t_pc t) as [|id cli st args [r|]| | |] eqn:Ep; try done. injection Hstep as <-.
  match goal with |- put_inv (mkClientTest ?b _) =>
    assert (Ec : cells_of b = cells_of (base w)) by apply kv_get_cells end.
  destruct (thread_cases w n t Hinv Ht) as [(cl & Hn & Hok)|[-> Hok]]; rewrite Ep in *; [done|..].
  - apply (put_inv_thread w _ n (mkThread (t_ck t) (TGet id cli st args (Some (reading_of (ga_Key args) (svc (base w)))))) cl);
      rewrite ?Ec; try done; [apply Hinv|apply grow_refl|apply Hinv|].
    apply client_get_exec; [apply Hinv|done].
  - apply (put_inv_checker w _ (mkThread (t_ck t) (TGet id cli st args (Some (reading_of (ga_Key args) (svc (base w)))))));
      rewrite ?Ec; try done; [by left|]. destruct Hok as (H1 & Ek & _). simpl. rewrite <- Ek. split_and!; [done|done|]. by intros x [= <-].
Qed.

Lemma return_inv w b n : put_inv w → test_step (TReturn n) (base w) = Some b → (∃ lin L, run_inv b lin L) →
  put_inv (mkClientTest b (clients w)).
Proof.
  intros Hinv Hstep Hb. simpl in Hstep. destruct (threads (base w) !! n) as [t|] eqn:Ht; simpl in Hstep; [|done].
  destruct (end_call (now (base w)) (t_pc t)) as [[[id op] r]|] eqn:Ee; simplify_eq/=.
  assert (Hne : t_pc t ≠ TIdle) by (intros E; by rewrite E in Ee).
  destruct (thread_cases w n t Hinv Ht Hne) as [(cl & Hn & Hok)|[-> Hok]].
  - apply (put_inv_thread w _ n (mkThread (t_ck t) (TLog id op r)) cl); try done; [apply Hinv|apply grow_refl|apply Hinv|].
    destruct (pi_base w Hinv) as (lin & L & Hrun). pose proof (ri_pc _ _ _ Hrun n t Ht) as Hpc.
    destruct (t_pc t) as [|id' cli st args [x|]|id' cli st args f [e|]| |]; simplify_eq/=.
    + by apply client_return_get.
    + apply client_return_put; [|by destruct Hpc as (_ & _ & H & _); destruct (H e eq_refl) as [[-> _]|[-> _]]; auto|done].
      by apply (put_returns lin _ (now (base w)) id cli st args f e (ri_lin _ _ _ Hrun)) in Hpc as [? _].
  - apply (put_inv_checker w _ (mkThread (t_ck t) (TLog id op r))); try done; [by left|].
    destruct (t_pc t) as [|id' cli st args [x|]|id' cli st args f [e|]| |]; simplify_eq/=.
    destruct Hok as (H1 & _ & H2). by rewrite <- (H2 x eq_refl).
Qed.

Lemma append_inv w b n : put_inv w → test_step (TAppend n) (base w) = Some b → (∃ lin L, run_inv b lin L) →
  put_inv (mkClientTest b (clients w)).
Proof.
  intros Hinv Hstep Hb. simpl in Hstep. destruct (threads (base w) !! n) as [t|] eqn:Ht; simpl in Hstep; [|done].
  destruct (t_pc t) as [| | |id op r|] eqn:Ep; try done. injection Hstep as <-.
  destruct (pi_base w Hinv) as (lin & L & Hrun).
  match goal with |- put_inv (mkClientTest ?b _) => assert (El : log_of b = log_of (base w) ++ [op]) end.
  { unfold log_of. simpl. by rewrite (ri_log _ _ _ Hrun). }
  destruct (thread_cases w n t Hinv Ht) as [(cl & Hn & Hok)|[-> Hok]]; rewrite Ep in *; [done|..].
  - pose proof (lookup_lt_Some _ _ _ Hn). destruct (client_append _ _ (Z.of_nat n) _ _ _ _ (length (clients w)) ltac:(lia) Hok) as (H1 & H2 & H3).
    rewrite <- (list_insert_id (clients w) n (inl cl) Hn).
    apply (put_inv_client w _ n (mkThread (t_ck t) (TRet r)) cl); rewrite ?El; try done; [apply Hinv|apply grow_refl|apply Hinv| |].
    + intros m e Hm. apply H3. lia.
    + intros o [Ho| ->%list_elem_of_singleton]%elem_of_app; [by apply Hinv|done].
  - destruct Hok as (H1 & H2 & H3). apply (put_inv_checker w _ (mkThread (t_ck t) (TRet r))); rewrite ?El; try done.
    right. by exists op.
Qed.

Lemma stray_inv w b i : put_inv w → test_step (TPutStray i) (base w) = Some b → (∃ lin L, run_inv b lin L) →
  put_inv (mkClientTest b (clients w)).
Proof.
  intros Hinv Hstep Hb. simpl in Hstep. destruct (strays (base w) !! i) as [[id args]|] eqn:Ei; simpl in Hstep; [|done].
  destruct (kv_put args (svc (base w))) as [[s e]|] eqn:Eput; simplify_eq/=. apply list_elem_of_lookup_2 in Ei.
  destruct (put_effect args _ s e (pi_cells w Hinv)) as [Hc Hg]; [by apply (pi_strays w Hinv id)|done|].
  apply put_inv_service; try done; [|by intros x ?%list_elem_of_delete_inv].
  intros Hfin. destruct (pi_base w Hinv) as (lin & L & Hrun).
  destruct (kv_put_cells _ _ _ _ Eput) as [(_ & Ev & _)|(_ & _ & Es)]; [|done].
  destruct (ri_strays _ _ _ Hrun id args Ei) as [Hp|(n & t & cli & st & r & Ht & Ep)]; [unfold passed in Hp; lia|].
  destruct (thread_cases w n t Hinv Ht) as [(cl & Hn & _)|[_ Hok]]; [by rewrite Ep| |by rewrite Ep in Hok].
  by rewrite (running_not_finished w n cl Hn) in Hfin.
Qed.

Lemma base_event_inv ev w b :
  put_inv w → match ev with TCall _ _ _ => False | TPutLost _ => rel = false | _ => True end →
  test_step ev (base w) = Some b → put_inv (mkClientTest b (clients w)).
Proof.
  intros Hinv Hev Hstep. assert (Hb : ∃ lin L, run_inv b lin L).
  { destruct (pi_base w Hinv) as (lin & L & Hrun). apply (test_step_inv ev (base w) b lin L); [done| |done]. by destruct ev. }
  destruct ev as [d|n cli c|n|args|n|n|i|n|n]; [|done|by apply (get_exec_inv w b n)| |by apply (put_exec_inv w b n)|
    by apply (put_lost_inv w b n)|by apply (stray_inv w b i)|by apply (return_inv w b n)|by apply (append_inv w b n)];
    injection Hstep as <-; apply put_inv_service; try done; try apply Hinv; try apply grow_refl.
  all: unfold cells_of; simpl; rewrite kv_get_cells; first [done|apply Hinv|apply grow_refl].
Qed.

(** ** The code of the client between its calls *)

Lemma cell_version_bounds cells k : cells_ok cells → 0 ≤ cell_version (cells !! k) < 2 ^ 64.
Proof.
  intros Hc. unfold cell_version. destruct (cells !! k) as [p|] eqn:E; simpl; [|lia].
  destruct (Hc k p E) as [(id & _ & H) H2]. lia.
Qed.

(** What is true of the client's next action. *)
Definition act_ok cells log (me : Z) (act : Act PutClient) : Prop :=
  match act with
  | Do c cl =>
      (∀ k v ver, c = CallPut k v ver → 0 ≤ ver ≤ cell_version (cells !! k)) ∧
      ∀ id now ck, client_ok cells log me (inl cl) (t_pc (begin_call id me now c ck))
  | Go cl => client_ok cells log me (inl cl) TIdle
  | Finish rs => client_ok cells log me (inr rs) TIdle
  | Fatalf _ => False
  end.

Lemma OnePut_put_ok cells log me k ver cl :
  k ∈ ka → 0 ≤ ver ≤ cell_version (cells !! k) → tallied log me (res cl) None →
  (∀ k ver, verm cl !! k = Some ver → 0 ≤ ver ≤ cell_version (cells !! k)) →
  act_ok cells log me (OnePut_put me k ver cl).
Proof.
  intros Hk Hv Ht Hm. split; [by intros ? ? ? [= <- _ <-]|]. intros id now ck. split; [done|].
  split_and!; [done|lia|]. split_and!; try done. exists me. simpl. split; [do 2 f_equal; lia|lia].
Qed.

Lemma OnePut_get_ok cells log me k ver err r cl :
  cells_ok cells → k ∈ ka → 0 ≤ ver < cell_version (cells !! k) → err_ok err → tallied log me (res cl) (Some err) →
  seen cells k r → (∀ k ver, verm cl !! k = Some ver → 0 ≤ ver ≤ cell_version (cells !! k)) →
  act_ok cells log me (OnePut_get me k ver err r cl).
Proof.
  intros Hc Hk Hv He Ht Hs Hm. destruct r as [val ver0 e|]; [|done]. destruct Hs as (-> & (id & -> & H1) & Hle).
  pose proof (cell_version_bounds cells k Hc). unfold OnePut_get, GetJson. rewrite decide_True by done.
  rewrite json_unmarshal_marshal. cbn [Id V].
  replace (_ && _ && _) with false.
  2: { symmetry. unfold wrap_u64. rewrite Z.mod_small by lia. destruct (Z.eqb_spec ver0 (ver + 1)) as [->|]; [|by rewrite andb_false_r].
       replace (ver + 1 - 1) with ver by lia. rewrite Z.eqb_refl. by rewrite !andb_false_r. }
  assert (Hm' : ∀ k' v, <[k := ver0]> (verm cl) !! k' = Some v → 0 ≤ v ≤ cell_version (cells !! k')).
  { intros k' v. rewrite lookup_insert_Some. intros [[<- <-]|[_ H']]; [lia|by apply Hm]. }
  destruct Ht as [T1 T2]. unfold one in *. destruct He as [->|[->|[-> _]]]; simpl in *.
  - split; [done|]. split; [done|]. split; simpl; unfold one; simpl; [rewrite T1, wrap_i64_add; f_equal; lia|done].
  - apply OnePut_put_ok; [done|lia|done|done].
  - split; [done|]. split; [done|]. split; simpl; unfold one; simpl; [done|rewrite T2, wrap_i64_add; f_equal; lia].
Qed.

Lemma OneClientPut_ok randomkeys cells log me ch cl p r act :
  ka ≠ [] → cells_ok cells → client_ok cells log me (inl cl) p → pending p = Some r →
  OneClientPut randomkeys ka me ch cl r = Some act → act_ok cells log me act.
Proof.
  intros Hka Hc [Hm Hpc] Hr Hact. unfold OneClientPut, pc_inv in *. destruct (p_pc cl) as [|k ver|k ver err].
  - destruct Hpc as [-> Ht]. injection Hr as <-. destruct (c_done ch); [by injection Hact as <-|].
    set (o := if randomkeys then _ else _) in Hact. assert (is_Some o) as [k Ek].
    { unfold o. destruct randomkeys; apply lookup_lt_is_Some_2; destruct ka as [|k0 ks]; try done; simpl; [|lia].
      pose proof (Z.mod_pos_bound (c_rand ch) (Z.of_nat (length (k0 :: ks)))) as Hb. simpl in *. lia. }
    rewrite Ek in Hact. injection Hact as <-. apply OnePut_put_ok; try done.
    + unfold o in Ek. by destruct randomkeys; apply list_elem_of_lookup_2 in Ek.
    + pose proof (cell_version_bounds cells k Hc). destruct (verm cl !! k) as [v|] eqn:Ev; simpl; [by apply Hm|lia].
  - destruct Hpc as (Hk & Hv & Hin). destruct p as [| | | |[|e]]; try done. injection Hr as <-.
    destruct Hin as (Hlt & He & Ht). injection Hact as <-. unfold OnePut_err.
    replace (_ || _) with true by (by destruct He as [->|[->|[-> _]]]).
    split; [done|]. intros id now ck. split; [done|]. by split_and!.
  - destruct Hpc as (Hk & Hv & He & Ht & Hin). destruct p as [| | | |r']; try done. injection Hr as <-. injection Hact as <-.
    by apply OnePut_get_ok.
Qed.

(** ** A run *)

Lemma call_step b n t cli c : threads b !! n = Some t → is_Some (pending (t_pc t)) →
  test_step (TCall n cli c) b =
  Some (mkTestRun (svc b) (now b) (<[n := begin_call (ncalls b) cli (now b) c (t_ck t)]> (threads b)) (strays b)
    (ncalls b + 1)%nat (ops b) (oplog b)).
Proof. intros Ht [r Hr]. simpl. rewrite Ht. simpl. by destruct (t_pc t). Qed.

(** Setting down a result keeps the invariant of the wrappers. *)
Lemma run_inv_idle b lin L n t : run_inv b lin L → threads b !! n = Some t → is_Some (pending (t_pc t)) →
  run_inv (set_thread n (mkThread (t_ck t) TIdle) b) lin L.
Proof.
  intros [H1 H2 H3 H4 H5 H6 H7 H8 HK H9] Ht [r Hr]. assert (Hcur : cur_id (t_pc t) = None) by (by destruct (t_pc t)).
  split; simpl; try done.
  - intros m u. rewrite lookup_insert_Some. intros [[<- <-]|[_ Hu]]; [done|by apply (H5 m)].
  - intros m u id. rewrite lookup_insert_Some. intros [[<- <-]|[_ Hu]]; [done|by apply (H6 m u)].
  - intros m m' u u' id. rewrite !lookup_insert_Some. intros [[<- <-]|[_ Hu]] [[<- <-]|[_ Hu']]; try done. by apply (H7 m m' u u').
  - intros id Hid. destruct (H8 id Hid) as [?|(m & u & Hu & Hi)]; [by left|right]. exists m, u.
    rewrite lookup_insert_ne; [done|]. intros <-. simplify_eq.
  - intros id args Hi. apply (strays_kept b n t); [by apply H9|apply grow_refl|done|].
    intros cli st rp E. by rewrite E in Hr.
Qed.

Lemma client_step_inv randomkeys ev w o :
  ka ≠ [] → put_inv w → client_step (OneClientPut randomkeys ka) rel key ev w = Some o →
  ∃ w', o = inl w' ∧ put_inv w'.
Proof.
  intros Hka Hinv Hstep. destruct ev as [n ch| |ev]; cbn [client_step] in Hstep.
  - destruct (clients w !! n) as [cl|] eqn:Hn; cbn [mbind option_bind] in Hstep; [|done].
    destruct (pi_clients w Hinv n cl Hn) as (t & Ht & Hok). rewrite Ht in Hstep. cbn [mbind option_bind] in Hstep.
    destruct cl as [cl|]; [|done]. destruct (pending (t_pc t)) as [r|] eqn:Hr; cbn [mbind option_bind] in Hstep; [|done].
    destruct (OneClientPut _ _ _ _ _ _) as [act|] eqn:Hact; cbn [mbind option_bind] in Hstep; [|done].
    pose proof (OneClientPut_ok _ _ _ _ _ _ _ _ _ Hka (pi_cells w Hinv) Hok Hr Hact) as Ha.
    destruct (pi_base w Hinv) as (lin & L & Hrun).
    assert (Hidle : ∀ cl', client_ok (cells_of (base w)) (log_of (base w)) (Z.of_nat n) cl' TIdle →
      put_inv (mkClientTest (set_thread n (mkThread (t_ck t) TIdle) (base w)) (<[n := cl']> (clients w)))).
    { intros cl' Hcl. apply (put_inv_client w _ n (mkThread (t_ck t) TIdle) cl); try done; try apply Hinv; [|apply grow_refl].
      exists lin, L. by apply run_inv_idle. }
    destruct act as [c cl'|cl'|rs|msg]; [|injection Hstep as <-; eauto..|done].
    destruct Ha as [Hreach Hcl']. pose proof (call_step (base w) n t (Z.of_nat n) c Ht ltac:(by rewrite Hr)) as Ecall.
    rewrite Ecall in Hstep. injection Hstep as <-. eexists. split; [done|].
    apply (put_inv_client w _ n (begin_call (ncalls (base w)) (Z.of_nat n) (now (base w)) c (t_ck t)) cl); try done; try apply Hinv; [|apply grow_refl].
    exists lin, L. apply step_call; [done|done|by destruct (t_pc t)|]. destruct c as [|k v ver]; [done|]. simpl.
    destruct (Hreach k v ver eq_refl). apply andb_true_iff. split; by apply Z.leb_le.
  - destruct (finished w) eqn:Hf; [|done]. destruct (pi_checker w Hinv) as (t & Ht & Hok).
    destruct (pi_base w Hinv) as (lin & L & Hrun).
    assert (Hcall : is_Some (pending (t_pc t)) → put_inv (mkClientTest
      (mkTestRun (svc (base w)) (now (base w)) (<[length (clients w) := begin_call (ncalls (base w)) (-1) (now (base w)) (CallGet key) (t_ck t)]> (threads (base w)))
        (strays (base w)) (ncalls (base w) + 1)%nat (ops (base w)) (oplog (base w))) (clients w))).
    { intros [r Hr]. apply (put_inv_checker w _ (begin_call (ncalls (base w)) (-1) (now (base w)) (CallGet key) (t_ck t))); try done; [|by left].
      exists lin, L. apply step_call; [done|done|by destruct (t_pc t)|done]. }
    assert (Hp : is_Some (pending (t_pc t))).
    { simpl in Hstep. rewrite Ht in Hstep. simpl in Hstep. destruct (t_pc t); try done; by eexists. }
    rewrite (call_step (base w) _ t _ _ Ht Hp) in Hstep. injection Hstep as <-. eauto.
  - assert (∃ b, test_step ev (base w) = Some b ∧ o = inl (mkClientTest b (clients w)) ∧
      match ev with TCall _ _ _ => False | TPutLost _ => rel = false | _ => True end) as (b & Hb & -> & Hev).
    { destruct ev; try done; try (destruct rel; [done|]); simpl in *;
        match type of Hstep with (mbind _ ?x) = _ => destruct x as [b|]; simplify_eq/=; eauto | _ => simplify_eq/=; eauto end. }
    eexists. split; [done|]. by apply (base_event_inv ev).
Qed.

Lemma client_run_inv randomkeys evs w o :
  ka ≠ [] → put_inv w → client_run (OneClientPut randomkeys ka) rel key evs w = Some o →
  ∃ w', o = inl w' ∧ put_inv w'.
Proof.
  intros Hka. revert w. induction evs as [|ev evs IH]; intros w Hinv; simpl; [intros [= <-]; eauto|].
  destruct (client_step _ _ _ _ _) as [o1|] eqn:E; [|done].
  destruct (client_step_inv randomkeys ev w o1 Hka Hinv E) as (w1 & -> & H1). by apply IH.
Qed.

Lemma start_verm ks k ver : verm (OneClientPut_start ks) !! k = Some ver → ver = 0.
Proof. simpl. induction ks as [|k' ks IH]; simpl; [done|]. rewrite lookup_insert_Some. intros [[_ <-]|[_ H]]; auto. Qed.

Lemma spawn_inv start cks ck : put_inv (spawn start cks ck (OneClientPut_start ka)).
Proof.
  assert (Hcells : cells_of (base (spawn start cks ck (OneClientPut_start ka))) = ∅) by apply kv_init_cells.
  assert (Hth : ∀ n t, threads (base (spawn start cks ck (OneClientPut_start ka))) !! n = Some t ↔
    ∃ c, (cks ++ [ck]) !! n = Some c ∧ t = mkThread c TIdle).
  { intros n t. simpl. rewrite lookup_map_seq_Some, Nat.sub_0_r, list_lookup_fmap. split.
    - intros [_ H]. destruct ((cks ++ [ck]) !! n); simplify_eq/=. eauto.
    - intros (c & -> & ->). split; [lia|done]. }
  split; rewrite ?Hcells.
  - exists [], []. apply MakeTest_inv.
  - by intros k p.
  - by intros id args ?%elem_of_nil.
  - intros n cl [-> Hlt]%lookup_replicate. destruct (lookup_lt_is_Some_2 cks n Hlt) as [c Hc].
    exists (mkThread c TIdle). split; [apply Hth; exists c; by rewrite lookup_app_l|].
    split; [|split; [done|by split]]. intros k ver ->%start_verm. unfold cell_version. rewrite lookup_empty. simpl. lia.
  - exists (mkThread ck TIdle). split; [|done]. apply Hth. exists ck. simpl. rewrite length_replicate.
    rewrite lookup_app_r by lia. by rewrite Nat.sub_diag.
  - intros n t (c & Hc%lookup_lt_Some & _)%Hth. rewrite length_app in Hc. simpl in *. rewrite length_replicate. lia.
  - by intros op ?%elem_of_nil.
Qed.
End put_clients.

(** ** Counting *)

Definition count_err (e : Err) (log : list Operation) : Z :=
  Z.of_nat (length (filter (λ op, in_Op (Input op) = 1 ∧ out_Err (Output op) = e) log)).

Lemma count_err_cons e op log :
  count_err e (op :: log) = one (in_Op (Input op) = 1 ∧ out_Err (Output op) = e) + count_err e log.
Proof. unfold count_err, one. rewrite filter_cons. case_decide; simpl; lia. Qed.

Lemma one_bounds P `{!Decision P} : 0 ≤ one P ≤ 1.
Proof. unfold one. case_decide; lia. Qed.

Lemma count_err_two log : count_err OK log + count_err ErrMaybe log ≤ Z.of_nat (length log).
Proof.
  induction log as [|op log IH]; [done|]. rewrite !count_err_cons. unfold one. cbn [length].
  repeat case_decide; [destruct_and!; congruence|lia..].
Qed.

(** The version that the model ends with: as many as there were puts that certainly
    or possibly took effect. *)
Lemma model_version (σ : list Operation) st st' :
  model_run st σ = Some st' → 0 ≤ st_Version st → st_Version st + Z.of_nat (length σ) < 2 ^ 64 →
  st_Version st + count_err OK σ ≤ st_Version st' ≤ st_Version st + count_err OK σ + count_err ErrMaybe σ.
Proof.
  revert st. induction σ as [|op σ IH]; intros st; simpl; [intros [= ->]; unfold count_err; simpl; lia|].
  rewrite !count_err_cons. destruct (KvStep st _ _) as [[] [st1|]] eqn:E; try done. intros Hrun H0 Hlen.
  assert (H : 0 ≤ st_Version st1 ≤ st_Version st + 1 ∧
    st_Version st + one (in_Op (Input op) = 1 ∧ out_Err (Output op) = OK) ≤ st_Version st1 ≤
    st_Version st + one (in_Op (Input op) = 1 ∧ out_Err (Output op) = OK) +
      one (in_Op (Input op) = 1 ∧ out_Err (Output op) = ErrMaybe)).
  { unfold KvStep in E. destruct (Z.eqb_spec (in_Op (Input op)) 0) as [E0|N0].
    { injection E as _ <-. unfold one. rewrite !decide_False by lia. lia. }
    destruct (Z.eqb_spec (in_Op (Input op)) 1) as [E1|]; [|done].
    assert (Ho : ∀ e, one (in_Op (Input op) = 1 ∧ out_Err (Output op) = e) = one (out_Err (Output op) = e)).
    { intros e. apply decide_ext. split; [by intros [_ ?]|done]. }
    rewrite !Ho. destruct (st_Version st =? in_Version (Input op)); injection E as He <-.
    - simpl. unfold wrap_u64. rewrite Z.mod_small by lia. destruct (out_Err (Output op)); try done; unfold one; simpl; lia.
    - destruct (out_Err (Output op)); try done; unfold one; simpl; lia. }
  destruct H as [H1 H2]. specialize (IH st1 Hrun). lia.
Qed.

Definition Zsum (l : list Z) : Z := foldr Z.add 0 l.

Lemma Zsum_app l l' : Zsum (l ++ l') = Zsum l + Zsum l'.
Proof. induction l as [|x l IH]; simpl; [done|]. unfold Zsum in *. simpl. rewrite IH. lia. Qed.

Lemma Zsum_fmap_add {A} (f g h : A → Z) l : (∀ x, f x = g x + h x) → Zsum (f <$> l) = Zsum (g <$> l) + Zsum (h <$> l).
Proof. intros H. induction l as [|x l IH]; [done|]. unfold Zsum in *. cbn [fmap list_fmap foldr]. rewrite IH, H. lia. Qed.

(** Every put in the log is one of one client. *)
Lemma one_client e op n :
  (in_Op (Input op) = 1 → 0 ≤ ClientId op < Z.of_nat n) →
  Zsum ((λ i, one (is_put (Z.of_nat i) e op)) <$> seq 0 n) = one (in_Op (Input op) = 1 ∧ out_Err (Output op) = e).
Proof.
  intros Hr. assert (H : ∀ m, Zsum ((λ i, one (is_put (Z.of_nat i) e op)) <$> seq 0 m) =
    one ((in_Op (Input op) = 1 ∧ out_Err (Output op) = e) ∧ 0 ≤ ClientId op < Z.of_nat m)).
  { induction m as [|m IH]; [unfold one; rewrite decide_False; [done|]; intros [_ ?]; simpl in *; lia|].
    rewrite seq_S, fmap_app, Zsum_app, IH. simpl. unfold Zsum. simpl. unfold one, is_put.
    destruct (decide (in_Op (Input op) = 1 ∧ out_Err (Output op) = e)) as [[H1 H2]|Hn].
    - destruct (decide (ClientId op = Z.of_nat m)); repeat case_decide; intuition lia.
    - rewrite !decide_False by tauto. done. }
  rewrite H. unfold one. apply decide_ext. tauto.
Qed.

Lemma count_err_clients e log n :
  (∀ op, op ∈ log → in_Op (Input op) = 1 → 0 ≤ ClientId op < Z.of_nat n) →
  Zsum ((λ i, puts_with (Z.of_nat i) e log) <$> seq 0 n) = count_err e log.
Proof.
  induction log as [|op log IH]; intros Hr.
  - change (Zsum ((λ _, 0) <$> seq 0 n) = 0). clear Hr. by induction (seq 0 n) as [|x l IHl].
  - rewrite count_err_cons, <- IH, <- (one_client e op n).
    + apply Zsum_fmap_add. intros i. unfold puts_with, one. rewrite filter_cons. case_decide; simpl; lia.
    + apply Hr. by left.
    + intros o Ho. apply Hr. by right.
Qed.

Lemma sum_res_wrap rs xs a b :
  Forall2 (λ r x, Nok r = wrap_i64 x.1 ∧ Nmaybe r = wrap_i64 x.2) rs xs →
  sum_res rs (mkClntRes (wrap_i64 a) (wrap_i64 b)) = mkClntRes (wrap_i64 (a + Zsum xs.*1)) (wrap_i64 (b + Zsum xs.*2)).
Proof.
  intros H. revert a b. induction H as [|r [x y] rs xs [Hx Hy] _ IH]; intros a b; [simpl; unfold Zsum; simpl; by rewrite !Z.add_0_r|].
  unfold sum_res, Zsum in *. cbn [foldl fmap list_fmap foldr fst snd Nok Nmaybe] in *. rewrite Hx, Hy. simpl.
  assert (E : ∀ u v, wrap_i64 (wrap_i64 u + wrap_i64 v) = wrap_i64 (u + v)).
  { intros u v. rewrite wrap_i64_add, Z.add_comm, wrap_i64_add. f_equal. lia. }
  rewrite !E, IH. f_equal; f_equal; lia.
Qed.

(** ** The checks at the end *)

Lemma list_filter_in {A} (P Q : A → Prop) `{!∀ x, Decision (P x), !∀ x, Decision (Q x)} (l : list A) :
  (∀ x, x ∈ l → P x ↔ Q x) → filter P l = filter Q l.
Proof.
  induction l as [|x l IH]; intros Hin; [done|]. rewrite !filter_cons, IH by (intros y Hy; apply Hin; by right).
  specialize (Hin x ltac:(by left)). repeat case_decide; tauto || done.
Qed.

Section checks.
Context `{!Json EntryV} {S : Type} `{!KVService S}.
Implicit Types (w : ClientTest (S := S) (A := PutClient)).

Lemma results_returned rel ka key w rs t get :
  put_inv rel ka key w → results w = Some rs → threads (base w) !! length (clients w) = Some t → t_pc t = TRet get →
  all_returned (base w).
Proof.
  intros Hinv Hrs Ht Ep n u Hu. pose proof (pi_threads _ _ _ w Hinv n u Hu).
  destruct (decide (n = length (clients w))) as [->|Hne]; [simplify_eq; by rewrite Ep|].
  destruct (lookup_lt_is_Some_2 rs n) as [r Hr]; [rewrite (results_length w rs Hrs); lia|].
  destruct (pi_clients _ _ _ w Hinv n _ (results_lookup w rs n r Hrs Hr)) as (u' & Hu' & Hidle & _). simplify_eq. by rewrite Hidle.
Qed.

(** The counters of the clients together count the puts of the log. *)
Lemma results_total rel ka key w rs :
  put_inv rel ka key w → results w = Some rs → Z.of_nat (length (log_of (base w))) < 2 ^ 63 →
  sum_res rs (mkClntRes 0 0) = mkClntRes (count_err OK (log_of (base w))) (count_err ErrMaybe (log_of (base w))).
Proof.
  intros Hinv Hrs Hlen. set (log := log_of (base w)) in *.
  set (xs := (λ i, (puts_with (Z.of_nat i) OK log, puts_with (Z.of_nat i) ErrMaybe log)) <$> seq 0 (length (clients w))).
  assert (Hall : Forall2 (λ r x, Nok r = wrap_i64 x.1 ∧ Nmaybe r = wrap_i64 x.2) rs xs).
  { apply Forall2_same_length_lookup_2; [unfold xs; by rewrite (results_length w rs Hrs), length_fmap, length_seq|].
    intros i r x Hr Hx. unfold xs in Hx. rewrite list_lookup_fmap in Hx.
    pose proof (lookup_lt_Some _ _ _ Hr) as Hlt. rewrite (results_length w rs Hrs) in Hlt.
    rewrite lookup_seq_lt in Hx by done. injection Hx as <-.
    destruct (pi_clients _ _ _ w Hinv i _ (results_lookup w rs i r Hrs Hr)) as (t & _ & _ & T1 & T2).
    unfold one in *. simpl in *. by rewrite !Z.sub_0_r in *. }
  assert (Hsum : ∀ e, Zsum ((λ i, puts_with (Z.of_nat i) e log) <$> seq 0 (length (clients w))) = count_err e log).
  { intros e. apply count_err_clients. intros op Hop Hin. by destruct (pi_log _ _ _ w Hinv op Hop Hin). }
  assert (Hb : ∀ e, wrap_i64 (count_err e log) = count_err e log).
  { intros e. unfold wrap_i64. rewrite Z.mod_small; [lia|]. unfold count_err.
    pose proof (length_filter (λ op, in_Op (Input op) = 1 ∧ out_Err (Output op) = e) log). lia. }
  assert (E : sum_res rs (mkClntRes 0 0) = mkClntRes
    (wrap_i64 (0 + Zsum ((λ i, puts_with (Z.of_nat i) OK log) <$> seq 0 (length (clients w)))))
    (wrap_i64 (0 + Zsum ((λ i, puts_with (Z.of_nat i) ErrMaybe log) <$> seq 0 (length (clients w)))))).
  { pose proof (sum_res_wrap rs xs 0 0 Hall) as E. unfold xs in E. rewrite <- !list_fmap_compose in E. exact E. }
  by rewrite !Hsum, !Z.add_0_l, !Hb in E.
Qed.

(** At the end the version of the key is within what the log accounts for. *)
Lemma final_version rel key w rs t get :
  put_inv rel [key] key w → results w = Some rs → threads (base w) !! length (clients w) = Some t → t_pc t = TRet get →
  Z.of_nat (length (log_of (base w))) < 2 ^ 63 →
  let ver := cell_version (cells_of (base w) !! key) in
  count_err OK (log_of (base w)) ≤ ver ≤ count_err OK (log_of (base w)) + count_err ErrMaybe (log_of (base w)).
Proof.
  intros Hinv Hrs Ht Ep Hlen ver. destruct (pi_base _ _ _ w Hinv) as (lin & L & Hrun).
  pose proof (results_returned _ _ _ w rs t get Hinv Hrs Ht Ep) as Hret.
  assert (Elog : log_of (base w) = L.*2) by (unfold log_of; by rewrite (ri_log _ _ _ Hrun)).
  destruct (recorded_order lin (cells_of (base w)) (now (base w)) L) as (σ & Hσ & Hord).
  { apply Hrun. } { apply Hrun. } { intros id op Hi. by apply (ri_logged _ _ _ Hrun). }
  { intros l Hl%(ri_known _ _ _ Hrun). rewrite (returned_logged _ lin L Hrun Hret), elem_of_seq. lia. }
  pose proof (agreeing_run lin σ key KvInit _ Hord (lo_replay _ _ _ (ri_lin _ _ _ Hrun) key)) as Hmodel.
  assert (Hcnt : ∀ e, count_err e (on_key key σ) = count_err e (log_of (base w))).
  { intros e. unfold count_err, on_key. rewrite list_filter_filter, Elog, <- Hσ. do 2 f_equal.
    apply list_filter_in. intros op Hop. split; [tauto|]. intros H. split; [done|].
    rewrite Hσ, <- Elog in Hop. destruct (pi_log _ _ _ w Hinv op Hop (proj1 H)) as (_ & Hk & _).
    by apply list_elem_of_singleton in Hk. }
  apply model_version in Hmodel; simpl in *; [rewrite !Hcnt in Hmodel; unfold ver, cells_of; lia|lia|].
  rewrite Elog, <- Hσ in Hlen. unfold on_key. pose proof (length_filter (λ v : Operation, in_Key (op_input v) = key) σ). lia.
Qed.
Lemma check_passes rel key w rs t get :
  put_inv rel [key] key w → results w = Some rs → threads (base w) !! length (clients w) = Some t → t_pc t = TRet get →
  Exists (λ r, 0 < Nok r ∨ 0 < Nmaybe r) rs → Z.of_nat (length (log_of (base w))) < 2 ^ 63 →
  let tot := sum_res rs (mkClntRes 0 0) in
  CheckPutConcurrent get rs (mkClntRes 0 0) rel = (tot, None) ∧
  Nok tot ≤ cell_version (cells_of (base w) !! key) ≤ Nok tot + Nmaybe tot.
Proof.
  intros Hinv Hrs Ht Ep Hsome Hlen tot.
  pose proof (final_version rel key w rs t get Hinv Hrs Ht Ep Hlen) as Hver. simpl in Hver.
  pose proof (results_total rel [key] key w rs Hinv Hrs Hlen) as Etot. fold tot in Etot.
  rewrite Etot. cbn [Nok Nmaybe]. split; [|done]. set (log := log_of (base w)) in *.
  assert (Hb : ∀ e, 0 ≤ count_err e log ≤ Z.of_nat (length log)).
  { intros e. unfold count_err. pose proof (length_filter (λ op, in_Op (Input op) = 1 ∧ out_Err (Output op) = e) log). lia. }
  assert (Hp : ∃ p, cells_of (base w) !! key = Some p).
  { apply Exists_exists in Hsome as (r & Hr & Hpos). apply list_elem_of_lookup in Hr as [n Hn].
    destruct (pi_clients _ _ _ w Hinv n _ (results_lookup w rs n r Hrs Hn)) as (u & _ & _ & T1 & T2).
    assert (∃ e, puts_with (Z.of_nat n) e log ≠ 0) as [e He].
    { fold log in T1, T2. destruct Hpos as [Hpos|Hpos]; [exists OK; rewrite T1 in Hpos|exists ErrMaybe; rewrite T2 in Hpos];
        intros E; by rewrite E in Hpos. }
    unfold puts_with in He. destruct (filter _ log) as [|op l] eqn:Ef; [done|].
    assert (Hop : op ∈ filter (is_put (Z.of_nat n) e) log) by (rewrite Ef; by left).
    apply list_elem_of_filter in Hop as [(Hi & _) Hop]. destruct (pi_log _ _ _ w Hinv op Hop Hi) as (_ & Hk & Hv & _).
    apply list_elem_of_singleton in Hk. rewrite Hk in Hv. unfold cell_version in Hv.
    destruct (cells_of (base w) !! key) as [p|]; [eauto|simpl in Hv; lia]. }
  destruct Hp as [p Hp]. destruct (pi_cells _ _ _ w Hinv key p Hp) as [(id & Ev & H1) H2].
  destruct (pi_checker _ _ _ w Hinv) as (t' & Ht' & Hck). rewrite Ht in Ht'. injection Ht' as <-. rewrite Ep in Hck. destruct Hck as [_ ->]. rewrite Hp.
  unfold cell_version in Hver. rewrite Hp in Hver. simpl in Hver.
  unfold CheckPutConcurrent, GetJson, res_of, read_cell. cbn [gr_Value gr_Version gr_Err]. rewrite decide_True by done.
  rewrite Ev, json_unmarshal_marshal. fold tot. rewrite Etot. cbn [Nok Nmaybe].
  pose proof (Hb OK). pose proof (Hb ErrMaybe). pose proof (count_err_two log).
  assert (Hw : ∀ z, 0 ≤ z < 2 ^ 63 → wrap_u64 z = z ∧ wrap_i64 z = z).
  { intros z Hz. unfold wrap_u64, wrap_i64. rewrite !Z.mod_small; lia. }
  destruct rel.
  - assert (E0 : count_err ErrMaybe log = 0).
    { unfold count_err. destruct (filter _ log) as [|op l] eqn:Ef; [done|]. exfalso.
      assert (Hop : op ∈ filter (λ op, in_Op (Input op) = 1 ∧ out_Err (Output op) = ErrMaybe) log) by (rewrite Ef; by left).
      apply list_elem_of_filter in Hop as [[Hi He] Hop]. destruct (pi_log _ _ _ w Hinv op Hop Hi) as (_ & _ & _ & Herr).
      rewrite He in Herr. by destruct Herr as [?|[?|[_ ?]]]. }
    rewrite (proj1 (Hw (count_err OK log) ltac:(lia))). by rewrite (proj2 (Z.eqb_eq _ _)) by lia.
  - rewrite (proj2 (Hw (count_err OK log + count_err ErrMaybe log) ltac:(lia))).
    rewrite (proj1 (Hw (count_err OK log + count_err ErrMaybe log) ltac:(lia))).
    by rewrite (proj2 (Z.ltb_ge _ _)) by lia.
Qed.

(** C19 (The test of concurrent puts passes).  Any number of clients run OneClientPut on
    any key/value service, over a network that loses, delays and retransmits as it
    likes.  No run of the test is stopped by a Fatalf of a client.  When the clients
    have returned and the test has read the key, the recorded history passes
    [checkPorcupine]; and if the clients put to this key only, and completed a put,
    [CheckPutConcurrent] passes too: the version of the key is at least the number of
    puts that returned OK, at most that and the number of ErrMaybe, and on a reliable
    network it is the number of OK. *)
Theorem put_test_passes check randomkeys reliable ka key start cks ck evs o :
  ka ≠ [] → porcupine_sound check →
  client_run (S := S) (OneClientPut randomkeys ka) reliable key evs (spawn start cks ck (OneClientPut_start ka)) = Some o →
  ∃ w, o = inl w ∧
    ∀ rs t get, results w = Some rs → threads (base w) !! length (clients w) = Some t → t_pc t = TRet get →
      (∃ log, oplog (base w) = Some log ∧ checkPorcupine check log = None) ∧
      (ka = [key] → Exists (λ r, 0 < Nok r ∨ 0 < Nmaybe r) rs → Z.of_nat (ncalls (base w)) < 2 ^ 63 →
       ∃ tot, CheckPutConcurrent get rs (mkClntRes 0 0) reliable = (tot, None) ∧
         Nok tot ≤ cell_version (kv_cells (svc (base w)) !! key) ≤ Nok tot + Nmaybe tot).
Proof.
  intros Hka Hcheck Hrun. destruct (client_run_inv reliable ka key randomkeys evs _ o Hka (spawn_inv _ _ _ _ _ _) Hrun) as (w & -> & Hinv).
  exists w. split; [done|]. intros rs t get Hrs Ht Ep.
  destruct (pi_base _ _ _ w Hinv) as (lin & L & Hbase).
  pose proof (results_returned _ _ _ w rs t get Hinv Hrs Ht Ep) as Hret.
  split.
  - exists L.*2. split; [apply Hbase|]. by apply (returned_passes check (base w) lin).
  - intros -> Hsome Hn. eexists. apply (check_passes reliable key w rs t get); try done.
    unfold log_of. rewrite (ri_log _ _ _ Hbase). simpl.
    by rewrite length_fmap, <- (length_fmap fst), (returned_logged _ lin L Hbase Hret), length_seq.
Qed.
End checks.

(** ** Witness: two clients, a reply lost and a request executed late *)

Fixpoint pos_to_string (p : positive) : string :=
  match p with xH => "" | xO p => String Ascii.zero (pos_to_string p) | xI p => String Ascii.one (pos_to_string p) end.
Fixpoint pos_of_string (s : string) : positive :=
  match s with EmptyString => xH | String a s => if decide (a = Ascii.zero) then xO (pos_of_string s) else xI (pos_of_string s) end.

Lemma pos_of_to_string p : pos_of_string (pos_to_string p) = p.
Proof. induction p; simpl; congruence. Qed.

#[export] Instance EntryV_eq_dec : EqDecision EntryV.
Proof. solve_decision. Defined.
#[export] Instance EntryV_countable : Countable EntryV.
Proof. refine (inj_countable' (λ e, (Id e, V e)) (λ x, mkEntryV x.1 x.2) _). by intros []. Defined.

(** A codec to run the test with. *)
Definition entry_json : Json EntryV.
Proof.
  refine {| json_marshal e := pos_to_string (encode e); json_unmarshal s := decode (pos_of_string s) |}.
  intros e. rewrite pos_of_to_string. apply decode_encode.
Defined.

Definition go_on : Choice := mkChoice false 0.
Definition stop : Choice := mkChoice true 0.
Definition finish_call (n : nat) : list ClientEvent := [CBase (TTick 1); CBase (TReturn n); CBase (TAppend n)].

Definition put_race : list ClientEvent :=
  [CStep 0 go_on; CStep 1 go_on; CBase (TPutLost 0); CBase (TPutStray 0); CBase (TPutExec 0); CBase (TPutExec 1)] ++
  finish_call 0 ++ finish_call 1 ++
  [CStep 0 go_on; CBase (TGetExec 0)] ++ finish_call 0 ++ [CStep 0 go_on; CStep 0 stop] ++
  [CStep 1 go_on; CBase (TGetExec 1)] ++ finish_call 1 ++
  [CStep 1 go_on; CBase (TPutExec 1)] ++ finish_call 1 ++
  [CStep 1 go_on; CBase (TGetExec 1)] ++ finish_call 1 ++ [CStep 1 go_on; CStep 1 stop] ++
  [CCheck; CBase (TGetExec 2)] ++ finish_call 2.

Definition race_start : ClientTest :=
  spawn 100 [mkClerk 1 0; mkClerk 2 0] (mkClerk 3 0) (OneClientPut_start ["k"]).
Definition race_end : ClientTest :=
  match client_run (OneClientPut (Json0 := entry_json) false ["k"]) false "k" put_race race_start with
  | Some (inl w) => w
  | _ => race_start
  end.

Lemma race_end_run :
  client_run (OneClientPut (Json0 := entry_json) false ["k"]) false "k" put_race race_start = Some (inl race_end) ∧
  results race_end = Some [mkClntRes 0 1; mkClntRes 1 0] ∧
  t_pc <$> threads (base race_end) !! 2%nat =
    Some (TRet (ResGet (@json_marshal _ entry_json (mkEntryV 1 1)) 2 OK)) ∧
  ncalls (base race_end) = 7%nat ∧ length (clients race_end) = 2%nat.
Proof. split_and!; vm_compute; reflexivity. Qed.

Lemma put_test_passes_witness :
  (∃ log, oplog (base race_end) = Some log ∧ checkPorcupine try_all log = None) ∧
  ∃ tot, CheckPutConcurrent (Json0 := entry_json) (ResGet (@json_marshal _ entry_json (mkEntryV 1 1)) 2 OK)
      [mkClntRes 0 1; mkClntRes 1 0] (mkClntRes 0 0) false = (tot, None) ∧
    Nok tot ≤ cell_version (kv_cells (svc (base race_end)) !! "k") ≤ Nok tot + Nmaybe tot.
Proof.
  destruct race_end_run as (Hrun & Hrs & Ht & Hn & Hlen).
  assert (Hka : ["k"] ≠ []) by discriminate.
  destruct (put_test_passes (Json0 := entry_json) try_all false false ["k"] "k" 100 [mkClerk 1 0; mkClerk 2 0] (mkClerk 3 0)
    put_race (inl race_end) Hka try_all_sound Hrun) as (w & E & H). apply (inj inl) in E. rewrite <- E in H.
  rewrite Hlen in H. apply fmap_Some_1 in Ht as (t & Et & Ep).
  destruct (H _ t _ Hrs Et (eq_sym Ep)) as [H1 H2]. split; [exact H1|]. apply H2; [reflexivity| |rewrite Hn; lia].
  apply Exists_cons_hd. right. simpl. lia.
Defined.
