(* ===== verification/KVAppend.v ===== *)
(** * kvtest1/kvtest.go: appending clients

    OneClientAppend, whose clients append to one shared list by a Get and a Put with the
    version that the Get returned, and CheckAppends, which looks at the list in the end.
    The clients run as those of KVTest.v do. *)

From S2P Require Import Prelude KVSrv Lock Porcupine KVTest.
Local Open Scope Z_scope.
Local Open Scope go_scope.

Record entry := mkEntry { e_Id : Z; e_N : Z }.
(** The same fields, and the same JSON. *)
Definition EntryN : Type := entry.

#[export] Instance entry_eq_dec : EqDecision entry.
Proof. solve_decision. Defined.

(** ** OneClientAppend *)

(** In front of the select; in GetJson; in PutJson. *)
Inductive AppendPc := ALoop | AGet | APut.

Record AppendClient := mkAppendClient { a_pc : AppendPc; a_i : Z; a_nok : Z; a_nmay : Z }.

Section programs.
Context `{!Json (list entry)}.

Definition OneClientAppend_start : AppendClient := mkAppendClient ALoop 0 0 0.

Definition OneClientAppend (me : Z) (ch : Choice) (cl : AppendClient) (r : option KVRes) : option (Act AppendClient) :=
  match a_pc cl, r with
  | ALoop, None =>
      if c_done ch then Some (Finish (mkClntRes (a_nok cl) (a_nmay cl)))
      else Some (Do (CallGet "k") (mkAppendClient AGet (a_i cl) (a_nok cl) (a_nmay cl)))
  | AGet, Some r =>
      match GetJson (A := list entry) r with
      | inl msg => Some (Fatalf msg)
      | inr (ver, es) =>
          let es := es ++ [mkEntry me (a_i cl)] in
          Some (Do (PutJson "k" es ver) (mkAppendClient APut (a_i cl) (a_nok cl) (a_nmay cl)))
      end
  | APut, Some (ResPut err) =>
      if decide (err = OK) then Some (Go (mkAppendClient ALoop (wrap_i64 (a_i cl + 1)) (wrap_i64 (a_nok cl + 1)) (a_nmay cl)))
      else if decide (err = ErrMaybe) then Some (Go (mkAppendClient ALoop (wrap_i64 (a_i cl + 1)) (a_nok cl) (wrap_i64 (a_nmay cl + 1))))
      else Some (Do (CallGet "k") (mkAppendClient AGet (a_i cl) (a_nok cl) (a_nmay cl)))
  | _, _ => None
  end.
End programs.

(** ** CheckAppends *)

(** The loop over the entries; [inl] is a Fatalf.  A key that is not there reads as 0. *)
Definition CheckAppends_entry (e : EntryN) (st : gmap Z Z * gmap Z Z) : string + gmap Z Z * gmap Z Z :=
  let '(expect, skipped) := st in
  let x := default 0 (expect !! e_Id e) in
  if e_N e <? x then inl "wrong expecting"
  else if x =? e_N e then inr (<[e_Id e := wrap_i64 (x + 1)]> expect, skipped)
  else
    let s := wrap_i64 (e_N e - x) in
    inr (<[e_Id e := wrap_i64 (e_N e + 1)]> expect, <[e_Id e := wrap_i64 (default 0 (skipped !! e_Id e) + s)]> skipped).

Fixpoint CheckAppends_entries (es : list EntryN) (st : gmap Z Z * gmap Z Z) : string + gmap Z Z * gmap Z Z :=
  match es with
  | [] => inr st
  | e :: es => match CheckAppends_entry e st with inl msg => inl msg | inr st => CheckAppends_entries es st end
  end.

(** The check of one client; [None]: index out of range. *)
Definition CheckAppends_client (skipped : gmap Z Z) (rs : list ClntRes) (c n : Z) : option (option string) :=
  r ← rs.[c];
  Some (if Nmaybe r <? default 0 (skipped !! c) then Some "skipped puts on server > maybe"
        else if wrap_i64 (Nok r + Nmaybe r) <? n then Some "puts on server > ok+maybe"
        else None).

Fixpoint CheckAppends_clients (skipped : gmap Z Z) (rs : list ClntRes) (l : list (Z * Z)) : option (option string) :=
  match l with
  | [] => Some None
  | (c, n) :: l =>
      v ← CheckAppends_client skipped rs c n;
      match v with Some msg => Some (Some msg) | None => CheckAppends_clients skipped rs l end
  end.

(** [Some msg]: Fatalf.  The clients are checked in the order of a map. *)
Definition CheckAppends (es : list EntryN) (nclnt : Z) (rs : list ClntRes) (ver : Tversion) : option (option string) :=
  let zeros : gmap Z Z := foldl (λ m i, <[i := 0]> m) ∅ (seqZ 0 nclnt) in
  match CheckAppends_entries es (zeros, zeros) with
  | inl msg => Some (Some msg)
  | inr (expect, skipped) =>
      if negb (wrap_i64 (go_len es + 1) =? wrap_i64 ver) then Some (Some "appends in val != puts on server")
      else CheckAppends_clients skipped rs (map_to_list expect)
  end.

(** ** What holds during a run *)

(** The numbers of the entries of client [me]. *)
Definition mine (me : Z) (es : list entry) : list Z := e_N <$> filter (λ e, e_Id e = me) es.

Lemma mine_app me a b : mine me (a ++ b) = mine me a ++ mine me b.
Proof. unfold mine. by rewrite filter_app, fmap_app. Qed.

(** Client [me] is in round [i], with [nok] puts that returned OK; [b] tells whether the
    entry of this round is there. *)
Definition progress (E : list entry) (me i nok : Z) (b : bool) : Prop :=
  ∃ old, mine me E = old ++ (if b then [i] else []) ∧ StronglySorted Z.lt old ∧ Forall (λ n, 0 ≤ n < i) old ∧
    0 ≤ i ∧ 0 ≤ nok ≤ go_len old.

Lemma progress_other E me me' i j nok b : me ≠ me' → progress E me i nok b → progress (E ++ [mkEntry me' j]) me i nok b.
Proof.
  intros Hne (old & E0 & H). exists old. split; [|done]. rewrite mine_app, E0. unfold mine. rewrite filter_cons_False by (simpl; congruence).
  rewrite filter_nil. simpl. by rewrite app_nil_r.
Qed.

Lemma progress_put E me i nok : progress E me i nok false → progress (E ++ [mkEntry me i]) me i nok true.
Proof.
  intros (old & E0 & H). exists old. split; [|done]. rewrite mine_app, E0, app_nil_r. unfold mine. by rewrite filter_cons_True.
Qed.

(** The next round. *)
Lemma progress_next E me i nok nok' b :
  progress E me i nok b → 0 ≤ nok' ≤ nok + (if b then 1 else 0) → progress E me (i + 1) nok' false.
Proof.
  intros (old & E0 & Hs & Hb & Hi & Hn) Hn'. exists (old ++ (if b then [i] else [])). rewrite app_nil_r. split; [done|].
  split_and!; [| |lia|lia|].
  - destruct b; [|by rewrite app_nil_r]. apply StronglySorted_app_2; [|done|repeat constructor].
    intros x y Hx Hy%list_elem_of_singleton. rewrite Forall_forall in Hb. subst. by apply Hb.
  - apply Forall_app. split; [eapply Forall_impl; [exact Hb|]; simpl; lia|]. destruct b; repeat constructor; lia.
  - unfold go_len in *. rewrite length_app. destruct b; simpl; lia.
Qed.

Section append_clients.
Context `{!Json (list entry)}.
Implicit Types (E es : list entry) (log : list Operation).

(** What a Get of the list returns: the list as it was at some time. *)
Definition list_read E (r : KVRes) : Prop := ∃ es, r = ResGet (json_marshal es) (go_len es + 1) OK ∧ es `prefix_of` E.

(** The counters count the puts of the log, but for one that the client has not counted. *)
Definition counted log (me : Z) (cl : AppendClient) (extra : option Err) : Prop :=
  a_i cl = a_nok cl + a_nmay cl ∧ a_nok cl = puts_with me OK log - one (extra = Some OK) ∧
  a_nmay cl = puts_with me ErrMaybe log - one (extra = Some ErrMaybe).

(** In PutJson: the list that was read is [es]. *)
Definition in_append E log (me : Z) (cl : AppendClient) (b : bool) (p : TPc) : Prop :=
  match p with
  | TPut _ cli _ args first reply =>
      cli = me ∧ pa_Key args = "k" ∧ counted log me cl None ∧
      ∃ es, es `prefix_of` E ∧ pa_Version args = go_len es + 1 ∧ pa_Value args = json_marshal (es ++ [mkEntry me (a_i cl)]) ∧
        (length es = length E → b = false) ∧ (reply = Some OK → b = true) ∧ (first = true → reply ≠ Some OK → b = false)
  | TLog _ op (ResPut e) => is_put me e op ∧ counted log me cl None ∧ (e = OK → b = true) ∧ (e = ErrVersion → b = false) ∧ (e = OK ∨ e = ErrVersion ∨ e = ErrMaybe)
  | TRet (ResPut e) => counted log me cl (Some e) ∧ (e = OK → b = true) ∧ (e = ErrVersion → b = false) ∧ (e = OK ∨ e = ErrVersion ∨ e = ErrMaybe)
  | _ => False
  end.

Definition in_read E (p : TPc) : Prop :=
  match p with
  | TGet _ _ _ args r => ga_Key args = "k" ∧ ∀ x, r = Some x → list_read E (res_of x)
  | TLog _ op r => in_Op (Input op) = 0 ∧ list_read E r
  | TRet r => list_read E r
  | _ => False
  end.

Definition appender_ok E log (me : Z) (cl : AppendClient + ClntRes) (p : TPc) : Prop :=
  match cl with
  | inr rs => p = TIdle ∧ ∃ cl, rs = mkClntRes (a_nok cl) (a_nmay cl) ∧ progress E me (a_i cl) (a_nok cl) false ∧ counted log me cl None
  | inl cl =>
      ∃ b, progress E me (a_i cl) (a_nok cl) b ∧
        match a_pc cl with
        | ALoop => b = false ∧ p = TIdle ∧ counted log me cl None
        | AGet => b = false ∧ in_read E p ∧ counted log me cl None
        | APut => in_append E log me cl b p
        end
  end.

Lemma list_read_app E e r : list_read E r → list_read (E ++ [e]) r.
Proof. intros (es & -> & Hp). exists es. split; [done|]. by apply prefix_app_r. Qed.

(** Another client's entry is added, and its puts are logged. *)
Lemma appender_other E E' log log' me me' cl p :
  me ≠ me' → E' = E ∨ (∃ j, E' = E ++ [mkEntry me' j]) → (∀ e, puts_with me e log' = puts_with me e log) →
  appender_ok E log me cl p → appender_ok E' log' me cl p.
Proof.
  intros Hne HE Hlog.
  assert (Hp : ∀ i nok b, progress E me i nok b → progress E' me i nok b).
  { intros i nok b. destruct HE as [->|[j ->]]; [done|by apply progress_other]. }
  assert (Hr : ∀ r, list_read E r → list_read E' r).
  { intros r. destruct HE as [->|[j ->]]; [done|apply list_read_app]. }
  assert (Hpre : ∀ es, es `prefix_of` E → es `prefix_of` E' ∧ (length es = length E' → length es = length E)).
  { intros es Hes. destruct HE as [->|[j ->]]; [done|]. split; [by apply prefix_app_r|]. rewrite length_app. apply prefix_length in Hes. simpl. lia. }
  assert (Hc : ∀ cl x, counted log me cl x → counted log' me cl x) by (intros c x; unfold counted; by rewrite !Hlog).
  destruct cl as [cl|rs]; simpl.
  - intros (b & H1 & H2). exists b. split; [by apply Hp|]. destruct (a_pc cl); [destruct H2 as (? & ? & ?); auto|..].
    + destruct H2 as (-> & H2 & H3). split_and!; [done| |auto]. destruct p; simpl in *; try done; [destruct H2; split; auto|destruct H2; split; auto|auto].
    + destruct p as [| |id cli st args f r|id op [|e]|[|e]]; simpl in *; try done.
      * destruct H2 as (-> & Hk & Hct & es & Hes & H3 & H4 & H5 & H6). split_and!; auto. exists es. destruct (Hpre es Hes). split_and!; auto; tauto.
      * destruct H2 as (? & ? & ?). split_and!; auto; tauto.
      * destruct H2 as (? & ?). split_and!; auto; tauto.
  - intros (-> & c & -> & H1 & H2). split; [done|]. exists c. split_and!; auto.
Qed.

(** ** What the points of the wrappers mean for a client *)

Lemma appender_put E log me cl id cli st args f r :
  appender_ok E log me (inl cl) (TPut id cli st args f r) →
  a_pc cl = APut ∧ ∃ b, progress E me (a_i cl) (a_nok cl) b ∧ in_append E log me cl b (TPut id cli st args f r).
Proof. intros (b & Hp & Hc). destruct (a_pc cl); [by destruct Hc as (_ & ? & _)|by destruct Hc as (_ & ? & _)|]. split; [done|]. by exists b. Qed.

Lemma appender_put_intro E log me cl b p :
  a_pc cl = APut → progress E me (a_i cl) (a_nok cl) b → in_append E log me cl b p → appender_ok E log me (inl cl) p.
Proof. intros Ec Hp Hi. exists b. rewrite Ec. done. Qed.

(** The put takes effect: the list grows by the client's entry. *)
Lemma appender_put_ok E log me cl id cli st args f r :
  appender_ok E log me (inl cl) (TPut id cli st args f r) → pa_Version args = go_len E + 1 →
  pa_Value args = json_marshal (E ++ [mkEntry me (a_i cl)]) ∧
  appender_ok (E ++ [mkEntry me (a_i cl)]) log me (inl cl) (TPut id cli st args f (Some OK)) ∧
  (f = false → appender_ok (E ++ [mkEntry me (a_i cl)]) log me (inl cl) (TPut id cli st args f r)).
Proof.
  intros (Ec & b & Hp & -> & Hk & Hct & es & Hes & Hv & Hval & H1 & H2 & H3)%appender_put Hver.
  assert (Hlen : length es = length E) by (unfold go_len in *; lia). assert (es = E) as -> by (by apply prefix_length_eq; [|lia]).
  rewrite (H1 Hlen) in Hp. apply progress_put in Hp. split; [done|].
  assert (Hin : ∀ r' f', (f' = true → r' = Some OK) → in_append (E ++ [mkEntry me (a_i cl)]) log me cl true (TPut id me st args f' r')).
  { intros r' f' Hr. split_and!; try done. exists E. split_and!; try done; [by apply prefix_app_r|rewrite length_app; simpl; lia|].
    intros Hf Hne. by destruct (Hne (Hr Hf)). }
  split; [|intros ->]; (eapply appender_put_intro; [done|done|]); by apply Hin.
Qed.

Lemma appender_put_refused E log me cl id cli st args f r :
  appender_ok E log me (inl cl) (TPut id cli st args f None) → r ≠ Some OK →
  appender_ok E log me (inl cl) (TPut id cli st args f r).
Proof.
  intros (Ec & b & Hp & -> & Hk & Hct & es & Hes & Hv & Hval & H1 & H2 & H3)%appender_put Hr. apply (appender_put_intro _ _ _ _ b); try done.
  split_and!; try done. exists es. split_and!; try done. intros Hf _. by apply H3.
Qed.

Lemma appender_put_lost E log me cl id cli st args f r :
  appender_ok E log me (inl cl) (TPut id cli st args f r) → appender_ok E log me (inl cl) (TPut id cli st args false None).
Proof.
  intros (Ec & b & Hp & -> & Hk & Hct & es & Hes & Hv & Hval & H1 & H2 & H3)%appender_put. apply (appender_put_intro _ _ _ _ b); try done.
  split_and!; try done. by exists es.
Qed.

Lemma appender_return_put E log me cl id cli st args f e stop :
  e = OK ∨ e = ErrVersion → appender_ok E log me (inl cl) (TPut id cli st args f (Some e)) →
  appender_ok E log me (inl cl)
    (TLog id (Put_operation (pa_Key args) (pa_Value args) (pa_Version args) cli st stop (put_err f e)) (ResPut (put_err f e))).
Proof.
  intros He (Ec & b & Hp & -> & Hk & Hct & es & Hes & Hv & Hval & H1 & H2 & H3)%appender_put. apply (appender_put_intro _ _ _ _ b); try done.
  split; [done|]. split; [done|]. destruct He as [-> | ->]; simpl; [by split_and!; auto|]. destruct f; by split_and!; auto.
Qed.

Lemma appender_get E log me cl id cli st args r :
  appender_ok E log me (inl cl) (TGet id cli st args r) →
  a_pc cl = AGet ∧ ga_Key args = "k" ∧ (∀ x, r = Some x → list_read E (res_of x)) ∧ progress E me (a_i cl) (a_nok cl) false ∧ counted log me cl None.
Proof.
  intros (b & Hp & Hc). destruct (a_pc cl); [by destruct Hc as (_ & ? & _)| |done]. destruct Hc as (-> & [Hk Hr] & Hct). by split_and!.
Qed.

Lemma appender_get_intro E log me cl p :
  a_pc cl = AGet → progress E me (a_i cl) (a_nok cl) false → counted log me cl None → in_read E p → appender_ok E log me (inl cl) p.
Proof. intros Ec Hp Hct Hi. exists false. rewrite Ec. done. Qed.

Lemma appender_get_exec E log me cl id cli st args x :
  appender_ok E log me (inl cl) (TGet id cli st args None) → (ga_Key args = "k" → res_of x = ResGet (json_marshal E) (go_len E + 1) OK) →
  appender_ok E log me (inl cl) (TGet id cli st args (Some x)).
Proof.
  intros (Ec & Hk & _ & Hp & Hct)%appender_get Hx. apply appender_get_intro; try done. split; [done|]. intros y [= <-]. exists E. split; [by apply Hx|done].
Qed.

Lemma appender_return_get E log me cl id cli st args r stop :
  appender_ok E log me (inl cl) (TGet id cli st args (Some r)) →
  appender_ok E log me (inl cl) (TLog id (Get_operation (ga_Key args) cli st stop r) (res_of r)).
Proof. intros (Ec & Hk & Hr & Hp & Hct)%appender_get. apply appender_get_intro; try done. split; [done|]. by apply Hr. Qed.

Lemma appender_log E log me cl id op r :
  appender_ok E log me (inl cl) (TLog id op r) →
  appender_ok E (log ++ [op]) me (inl cl) (TRet r) ∧ (∀ m e, m ≠ me → puts_with m e (log ++ [op]) = puts_with m e log).
Proof.
  intros (b & Hp & Hc). destruct (a_pc cl) eqn:Ec; [by destruct Hc as (_ & ? & _)|..].
  - destruct Hc as (-> & [Ho Hr] & Hct). assert (Hno : ∀ m x, puts_with m x (log ++ [op]) = puts_with m x log).
    { intros m x. rewrite puts_with_app. unfold one. rewrite decide_False; [lia|]. intros [? _]. lia. }
    split; [|done]. apply appender_get_intro; try done. unfold counted in *. by rewrite !Hno.
  - destruct r as [|e]; [done|]. destruct Hc as (Hop & Hct & He). split.
    + apply (appender_put_intro _ _ _ _ b); try done. split; [|done]. destruct Hct as (Hi & H1 & H2). unfold counted. rewrite !puts_with_app.
      assert (Hone : ∀ x, one (is_put me x op) = one (Some e = Some x)).
      { intros x. apply decide_ext. destruct Hop as (? & ? & <-). unfold is_put. split; [by intros (_ & _ & ->)|by intros [= <-]]. }
      rewrite !Hone. split_and!; [done|..]; [rewrite H1|rewrite H2]; unfold one; simpl; repeat case_decide; simplify_eq; lia.
    + intros m x Hne. rewrite puts_with_app. unfold one. rewrite decide_False; [lia|]. intros (_ & Hm & _). destruct Hop as (_ & Hm' & _). congruence.
Qed.

(** ** The invariant *)

Context {S : Type} `{!KVService S} (rel : bool).
Abbreviation AppendTest := (ClientTest (S := S) (A := AppendClient)).

(** The goroutine of the test. *)
Definition reader_ok E (fin : bool) (p : TPc) : Prop :=
  match p with
  | TIdle => True
  | TGet _ _ _ args r => fin = true ∧ ga_Key args = "k" ∧ ∀ x, r = Some x → res_of x = ResGet (json_marshal E) (go_len E + 1) OK
  | TLog _ op r => fin = true ∧ in_Op (Input op) = 0 ∧ r = ResGet (json_marshal E) (go_len E + 1) OK
  | TRet r => (∃ e, r = ResPut e) ∨ fin = true ∧ r = ResGet (json_marshal E) (go_len E + 1) OK
  | TPut _ _ _ _ _ _ => False
  end.

Record append_inv E (w : AppendTest) : Prop := {
  ai_base : ∃ lin L, run_inv (base w) lin L;
  ai_cell : cells_of (base w) !! "k" = Some (mkKVPair (json_marshal E) (go_len E + 1));
  ai_room : go_len E + 1 < 2 ^ 64;
  ai_ids e : e ∈ E → 0 ≤ e_Id e < go_len (clients w);
  ai_clients n cl : clients w !! n = Some cl →
    ∃ t, threads (base w) !! n = Some t ∧ appender_ok E (log_of (base w)) (Z.of_nat n) cl (t_pc t);
  ai_reader : ∃ t, threads (base w) !! length (clients w) = Some t ∧ reader_ok E (finished w) (t_pc t);
  ai_threads n t : threads (base w) !! n = Some t → (n ≤ length (clients w))%nat
}.

(** A client that is running moves on; its put may take effect. *)
Lemma append_inv_client E E' w b n t' cl cl' :
  append_inv E w → clients w !! n = Some (inl cl) → (∃ lin L, run_inv b lin L) →
  cells_of b !! "k" = Some (mkKVPair (json_marshal E') (go_len E' + 1)) → go_len E' + 1 < 2 ^ 64 →
  E' = E ∨ (∃ j, E' = E ++ [mkEntry (Z.of_nat n) j]) → threads b = <[n := t']> (threads (base w)) →
  (∀ m e, m ≠ Z.of_nat n → puts_with m e (log_of b) = puts_with m e (log_of (base w))) →
  appender_ok E' (log_of b) (Z.of_nat n) cl' (t_pc t') →
  append_inv E' (mkClientTest b (<[n := cl']> (clients w))).
Proof.
  intros Hinv Hn Hb Hc Hroom HE Ht Hlog Hcl. pose proof (lookup_lt_Some _ _ _ Hn) as Hlt.
  assert (Hlen : length (<[n := cl']> (clients w)) = length (clients w)) by apply length_insert.
  split; simpl; try done; unfold go_len; rewrite ?Hlen; try done.
  - intros e He. destruct HE as [->|[j ->]]; [by apply (ai_ids E w Hinv)|].
    apply elem_of_app in He as [He| ->%list_elem_of_singleton]; [by apply (ai_ids E w Hinv)|]. simpl. lia.
  - intros m c Hm. destruct (decide (m = n)) as [->|Hmn].
    + rewrite list_lookup_insert_eq in Hm by done. injection Hm as <-. exists t'. by rewrite Ht, lookup_insert_eq.
    + rewrite list_lookup_insert_ne in Hm by done. destruct (ai_clients E w Hinv m c Hm) as (t & Htm & Hok). exists t.
      rewrite Ht, lookup_insert_ne by done. split; [done|]. apply (appender_other E _ (log_of (base w)) _ _ (Z.of_nat n)); [lia|done| |done].
      intros e. apply Hlog. lia.
  - destruct (ai_reader E w Hinv) as (t & Htc & Hi). rewrite (running_not_finished w n cl Hn) in Hi. exists t. rewrite Ht, lookup_insert_ne by lia.
    split; [done|]. destruct (t_pc t); simpl in *; try done; [by destruct Hi..|]. destruct Hi as [?|[? _]]; [by left|done].
  - intros m t Hm. rewrite Ht in Hm. destruct (decide (m = n)) as [->|Hmn]; [lia|].
    rewrite lookup_insert_ne in Hm by done. by apply (ai_threads E w Hinv m t).
Qed.

(** Within its call. *)
Lemma append_inv_thread E E' w b n t' cl :
  append_inv E w → clients w !! n = Some (inl cl) → (∃ lin L, run_inv b lin L) →
  cells_of b !! "k" = Some (mkKVPair (json_marshal E') (go_len E' + 1)) → go_len E' + 1 < 2 ^ 64 →
  E' = E ∨ (∃ j, E' = E ++ [mkEntry (Z.of_nat n) j]) → threads b = <[n := t']> (threads (base w)) → oplog b = oplog (base w) →
  appender_ok E' (log_of (base w)) (Z.of_nat n) (inl cl) (t_pc t') →
  append_inv E' (mkClientTest b (clients w)).
Proof.
  intros Hinv Hn Hb Hc Hroom HE Ht El Hcl. assert (Elog : log_of b = log_of (base w)) by (unfold log_of; by rewrite El).
  rewrite <- (list_insert_id (clients w) n (inl cl) Hn). apply (append_inv_client E E' w b n t' cl); rewrite ?Elog; done.
Qed.

(** The goroutine of the test moves on, or nobody does; the log may get a Get. *)
Lemma append_inv_reader E w b t' :
  append_inv E w → (∃ lin L, run_inv b lin L) → cells_of b !! "k" = cells_of (base w) !! "k" →
  threads b = <[length (clients w) := t']> (threads (base w)) →
  (log_of b = log_of (base w) ∨ ∃ op, in_Op (Input op) = 0 ∧ log_of b = log_of (base w) ++ [op]) →
  reader_ok E (finished w) (t_pc t') → append_inv E (mkClientTest b (clients w)).
Proof.
  intros Hinv Hb Ec Ht Hlog Hch.
  assert (Hp : ∀ me e, puts_with me e (log_of b) = puts_with me e (log_of (base w))).
  { intros me e. destruct Hlog as [->|(op & Hop & ->)]; [done|]. rewrite puts_with_app. unfold one.
    rewrite decide_False; [lia|]. intros [? _]. lia. }
  split; simpl; rewrite ?Ec; try done; try apply Hinv.
  - intros m c Hm. destruct (ai_clients E w Hinv m c Hm) as (t & Htm & Hok). exists t.
    pose proof (lookup_lt_Some _ _ _ Hm). rewrite Ht, lookup_insert_ne by lia. split; [done|].
    apply (appender_other E E (log_of (base w)) _ _ (Z.of_nat m + 1)); [lia|by left|done|done].
  - exists t'. by rewrite Ht, lookup_insert_eq.
  - intros m t. rewrite Ht, lookup_insert_Some. intros [[<- _]|[_ Hm]]; [lia|by apply (ai_threads E w Hinv m t)].
Qed.

Lemma append_inv_service E w b :
  append_inv E w → (∃ lin L, run_inv b lin L) → cells_of b !! "k" = cells_of (base w) !! "k" →
  threads b = threads (base w) → oplog b = oplog (base w) → append_inv E (mkClientTest b (clients w)).
Proof.
  intros Hinv Hb Ec Ht El. destruct (ai_reader E w Hinv) as (t & Htc & Hi). apply (append_inv_reader E w b t); try done.
  - by rewrite Ht, insert_id.
  - left. unfold log_of. by rewrite El.
Qed.

Lemma append_thread_cases E w n t : append_inv E w → threads (base w) !! n = Some t → t_pc t ≠ TIdle →
  (∃ cl, clients w !! n = Some (inl cl) ∧ appender_ok E (log_of (base w)) (Z.of_nat n) (inl cl) (t_pc t)) ∨
  (n = length (clients w) ∧ reader_ok E (finished w) (t_pc t)).
Proof.
  intros Hinv Ht Hne. destruct (clients w !! n) as [cl|] eqn:Hn.
  - left. destruct (ai_clients E w Hinv n cl Hn) as (t' & Ht' & Hok). simplify_eq.
    destruct cl as [cl|rs]; [by exists cl|]. by destruct Hok.
  - right. apply lookup_ge_None in Hn. pose proof (ai_threads E w Hinv n t Ht).
    assert (n = length (clients w)) as -> by lia. split; [done|].
    destruct (ai_reader E w Hinv) as (t' & Ht' & Hok). by simplify_eq.
Qed.

(** A put on the list: it takes effect or it is refused. *)
Lemma list_put E w args s e :
  append_inv E w → pa_Key args = "k" → kv_put args (svc (base w)) = Some (s, e) →
  (e = OK ∧ pa_Version args = go_len E + 1 ∧ kv_cells s !! "k" = Some (mkKVPair (pa_Value args) (go_len E + 1 + 1)) ∧ go_len E + 1 + 1 < 2 ^ 64) ∨
  (e = ErrVersion ∧ kv_cells s !! "k" = cells_of (base w) !! "k").
Proof.
  intros Hinv Hk Hput. pose proof (ai_cell E w Hinv) as Hcell. unfold cells_of in Hcell.
  destruct (kv_put_cells _ _ _ _ Hput) as [(-> & Ev & Es)|(He & _ & Es)]; rewrite Es.
  - left. rewrite Hk in *. rewrite Hcell in Ev. unfold cell_version in Ev. simpl in Ev. pose proof (kv_put_room _ _ _ Hput). rewrite lookup_insert_eq, Ev. split_and!; try done. lia.
  - right. split; [|done]. apply (kv_put_refused _ _ _ _ Hput); [done|]. rewrite Hk, Hcell. done.
Qed.

Lemma append_put_exec E w b n : append_inv E w → test_step (TPutExec n) (base w) = Some b → (∃ lin L, run_inv b lin L) →
  ∃ E', append_inv E' (mkClientTest b (clients w)).
Proof.
  intros Hinv Hstep Hb. simpl in Hstep. destruct (threads (base w) !! n) as [t|] eqn:Ht; simpl in Hstep; [|done].
  destruct (t_pc t) as [| |id cli st args f [e|]| |] eqn:Ep; try done.
  destruct (kv_put args (svc (base w))) as [[s e]|] eqn:Eput; simplify_eq/=.
  destruct (append_thread_cases E w n t Hinv Ht) as [(cl & Hn & Hok)|[_ Hok]]; rewrite Ep in *; [done| |done].
  pose proof Hok as (_ & b & _ & _ & Hk & _)%appender_put.
  destruct (list_put E w args s e Hinv Hk Eput) as [(-> & Hv & Hc & Hroom)|(-> & Hc)].
  - destruct (appender_put_ok _ _ _ _ _ _ _ _ _ _ Hok Hv) as (Hval & Hok' & _). exists (E ++ [mkEntry (Z.of_nat n) (a_i cl)]).
    assert (Hl : go_len (E ++ [mkEntry (Z.of_nat n) (a_i cl)]) = go_len E + 1) by (unfold go_len; rewrite length_app; simpl; lia).
    apply (append_inv_thread E _ w _ n (mkThread (t_ck t) (TPut id cli st args f (Some OK))) cl); rewrite ?Hl; try done; [|by right; eexists].
    unfold cells_of. simpl. by rewrite Hc, Hval.
  - exists E. apply (append_inv_thread E E w _ n (mkThread (t_ck t) (TPut id cli st args f (Some ErrVersion))) cl); try done; try apply Hinv; [|by left|].
    + unfold cells_of. simpl. rewrite Hc. apply Hinv.
    + by apply appender_put_refused.
Qed.

(** A request of an earlier attempt: its put is still going on, or it is refused. *)
Lemma append_stray E w b i : append_inv E w → test_step (TPutStray i) (base w) = Some b → (∃ lin L, run_inv b lin L) →
  ∃ E', append_inv E' (mkClientTest b (clients w)).
Proof.
  intros Hinv Hstep Hb. simpl in Hstep. destruct (strays (base w) !! i) as [[id args]|] eqn:Ei; simpl in Hstep; [|done].
  destruct (kv_put args (svc (base w))) as [[s e]|] eqn:Eput; simplify_eq/=. apply list_elem_of_lookup_2 in Ei.
  destruct (ai_base E w Hinv) as (lin & L & Hrun).
  destruct (kv_put_cells _ _ _ _ Eput) as [(_ & Ev & _)|(_ & _ & Es)].
  2: { exists E. apply append_inv_service; try done. unfold cells_of. simpl. by rewrite Es. }
  destruct (ri_strays _ _ _ Hrun id args Ei) as [Hp|(n & t & cli & st & r & Ht & Ep)]; [unfold passed in Hp; lia|].
  destruct (append_thread_cases E w n t Hinv Ht) as [(cl & Hn & Hok)|[_ Hok]]; [by rewrite Ep| |by rewrite Ep in Hok]. rewrite Ep in Hok.
  pose proof Hok as (_ & b & _ & _ & Hk & _)%appender_put.
  destruct (list_put E w args s e Hinv Hk Eput) as [(-> & Hv & Hc & Hroom)|(_ & Hc)].
  - destruct (appender_put_ok _ _ _ _ _ _ _ _ _ _ Hok Hv) as (Hval & _ & Hok'). exists (E ++ [mkEntry (Z.of_nat n) (a_i cl)]).
    assert (Hl : go_len (E ++ [mkEntry (Z.of_nat n) (a_i cl)]) = go_len E + 1) by (unfold go_len; rewrite length_app; simpl; lia).
    apply (append_inv_thread E _ w _ n t cl); rewrite ?Hl; try done; [|by right; eexists|by rewrite insert_id|].
    + unfold cells_of. simpl. by rewrite Hc, Hval.
    + rewrite Ep. by apply Hok'.
  - exists E. by apply append_inv_service.
Qed.

Lemma append_get_exec E w b n : append_inv E w → test_step (TGetExec n) (base w) = Some b → (∃ lin L, run_inv b lin L) →
  append_inv E (mkClientTest b (clients w)).
Proof.
  intros Hinv Hstep Hb. simpl in Hstep. destruct (threads (base w) !! n) as [t|] eqn:Ht; simpl in Hstep; [|done].
  destruct (t_pc t) as [|id cli st args [r|]| | |] eqn:Ep; try done. injection Hstep as <-.
  set (x := reading_of (ga_Key args) (svc (base w))). assert (Hx : ga_Key args = "k" → res_of x = ResGet (json_marshal E) (go_len E + 1) OK).
  { intros Hk. unfold x, reading_of. rewrite Hk. pose proof (ai_cell E w Hinv) as Hcell. unfold cells_of in Hcell. by rewrite Hcell. }
  match goal with |- append_inv _ (mkClientTest ?b _) => assert (Ec : cells_of b = cells_of (base w)) by apply kv_get_cells end.
  destruct (append_thread_cases E w n t Hinv Ht) as [(cl & Hn & Hok)|[-> Hok]]; rewrite Ep in *; [done|..].
  - apply (append_inv_thread E E w _ n (mkThread (t_ck t) (TGet id cli st args (Some x))) cl); rewrite ?Ec; try done; try apply Hinv; [by left|].
    by apply appender_get_exec.
  - apply (append_inv_reader E w _ (mkThread (t_ck t) (TGet id cli st args (Some x)))); rewrite ?Ec; try done; [by left|].
    destruct Hok as (H1 & Hk & _). split_and!; try done. intros y [= <-]. by apply Hx.
Qed.

Lemma append_put_lost E w b n : append_inv E w → test_step (TPutLost n) (base w) = Some b → (∃ lin L, run_inv b lin L) →
  append_inv E (mkClientTest b (clients w)).
Proof.
  intros Hinv Hstep Hb. simpl in Hstep. destruct (threads (base w) !! n) as [t|] eqn:Ht; simpl in Hstep; [|done].
  destruct (t_pc t) as [| |id cli st args f r| |] eqn:Ep; try done. injection Hstep as <-.
  destruct (append_thread_cases E w n t Hinv Ht) as [(cl & Hn & Hok)|[_ Hok]]; rewrite Ep in *; [done| |done].
  apply (append_inv_thread E E w _ n (mkThread (t_ck t) (TPut id cli st args false None)) cl); try done; try apply Hinv; [by left|].
  by apply appender_put_lost in Hok.
Qed.

Lemma append_return E w b n : append_inv E w → test_step (TReturn n) (base w) = Some b → (∃ lin L, run_inv b lin L) →
  append_inv E (mkClientTest b (clients w)).
Proof.
  intros Hinv Hstep Hb. pose proof (ai_base E w Hinv) as (lin & L & Hrun). simpl in Hstep. destruct (threads (base w) !! n) as [t|] eqn:Ht; simpl in Hstep; [|done].
  destruct (end_call (now (base w)) (t_pc t)) as [[[id op] r]|] eqn:Ee; simplify_eq/=.
  assert (Hne : t_pc t ≠ TIdle) by (intros Ei; by rewrite Ei in Ee).
  destruct (append_thread_cases E w n t Hinv Ht Hne) as [(cl & Hn & Hok)|[-> Hok]].
  - apply (append_inv_thread E E w _ n (mkThread (t_ck t) (TLog id op r)) cl); try done; try apply Hinv; [by left|].
    pose proof (ri_pc _ _ _ Hrun n t Ht) as Hpc.
    destruct (t_pc t) as [|id' cli st args [x|]|id' cli st args f [e|]| |]; simplify_eq/=; [by apply appender_return_get|].
    apply appender_return_put; [|done]. destruct Hpc as (_ & _ & H & _). destruct (H e eq_refl) as [[-> _]|[-> _]]; auto.
  - apply (append_inv_reader E w _ (mkThread (t_ck t) (TLog id op r))); try done; [by left|].
    destruct (t_pc t) as [|id' cli st args [x|]|id' cli st args f [e|]| |]; simplify_eq/=.
    destruct Hok as (H1 & _ & H2). split_and!; try done. by apply H2.
Qed.

Lemma append_log E w b n : append_inv E w → test_step (TAppend n) (base w) = Some b → (∃ lin L, run_inv b lin L) →
  append_inv E (mkClientTest b (clients w)).
Proof.
  intros Hinv Hstep Hb. pose proof (ai_base E w Hinv) as (lin & L & Hrun). simpl in Hstep. destruct (threads (base w) !! n) as [t|] eqn:Ht; simpl in Hstep; [|done].
  destruct (t_pc t) as [| | |id op r|] eqn:Ep; try done. injection Hstep as <-.
  match goal with |- append_inv _ (mkClientTest ?b _) => assert (El : log_of b = log_of (base w) ++ [op]) end.
  { unfold log_of. simpl. by rewrite (ri_log _ _ _ Hrun). }
  destruct (append_thread_cases E w n t Hinv Ht) as [(cl & Hn & Hok)|[-> Hok]]; rewrite Ep in *; [done|..].
  - destruct (appender_log _ _ _ _ _ _ _ Hok) as [H1 H2]. rewrite <- (list_insert_id (clients w) n (inl cl) Hn).
    apply (append_inv_client E E w _ n (mkThread (t_ck t) (TRet r)) cl); rewrite ?El; try done; try apply Hinv. by left.
  - destruct Hok as (H1 & H2 & H3). apply (append_inv_reader E w _ (mkThread (t_ck t) (TRet r))); rewrite ?El; try done; [right; by exists op|by right].
Qed.

Lemma append_base_event ev E w b :
  append_inv E w → match ev with TCall _ _ _ => False | _ => True end → test_step ev (base w) = Some b →
  ∃ E', append_inv E' (mkClientTest b (clients w)).
Proof.
  intros Hinv Hev Hstep. pose proof (ai_base E w Hinv) as (lin & L & Hrun).
  assert (Hb : ∃ lin L, run_inv b lin L) by (apply (test_step_inv ev (base w) b lin L); [done|by destruct ev|done]).
  destruct ev as [d|n cli c|n|args|n|n|i|n|n]; [|done| | |by apply (append_put_exec E w b n)| |by apply (append_stray E w b i)| |]; exists E.
  - injection Hstep as <-. by apply append_inv_service.
  - by apply (append_get_exec E w b n).
  - injection Hstep as <-. apply append_inv_service; try done. unfold cells_of. simpl. by rewrite kv_get_cells.
  - by apply (append_put_lost E w b n).
  - by apply (append_return E w b n).
  - by apply (append_log E w b n).
Qed.

(** ** The code of the client between its calls *)

Definition append_act E log (me : Z) (act : Act AppendClient) : Prop :=
  match act with
  | Do c cl =>
      (∀ k v ver, c = CallPut k v ver → k = "k" ∧ 0 ≤ ver ≤ go_len E + 1) ∧
      ∀ id now ck, appender_ok E log me (inl cl) (t_pc (begin_call id me now c ck))
  | Go cl => appender_ok E log me (inl cl) TIdle
  | Finish rs => appender_ok E log me (inr rs) TIdle
  | Fatalf _ => False
  end.

Lemma puts_two me log : puts_with me OK log + puts_with me ErrMaybe log ≤ Z.of_nat (length log).
Proof.
  unfold puts_with. induction log as [|op log IH]; [done|]. rewrite !filter_cons. cbn [length].
  repeat case_decide; cbn [length]; try lia. unfold is_put in *. destruct_and!. congruence.
Qed.

Lemma OneClientAppend_ok E log me ch cl p r act :
  Z.of_nat (length log) < 2 ^ 63 → appender_ok E log me (inl cl) p → pending p = Some r →
  OneClientAppend me ch cl r = Some act → append_act E log me act.
Proof.
  intros Hsmall (b & Hp & Hpc) Hr Hact. unfold OneClientAppend in Hact. destruct (a_pc cl) eqn:Ec.
  - destruct Hpc as (-> & -> & Hct). injection Hr as <-. destruct (c_done ch); injection Hact as <-.
    + split; [done|]. by exists cl.
    + split; [done|]. intros id now ck. exists false. split; [done|]. simpl. by split_and!.
  - destruct Hpc as (-> & Hin & Hct). destruct p as [| | | |r']; try done. injection Hr as <-. destruct Hin as (es & -> & Hes).
    unfold GetJson in Hact. rewrite decide_True in Hact by done. rewrite json_unmarshal_marshal in Hact. injection Hact as <-.
    pose proof (prefix_length _ _ Hes). split.
    + intros k v ver [= <- _ <-]. split; [done|]. unfold go_len. lia.
    + intros id now ck. exists false. split; [done|]. simpl. split_and!; try done. by exists es.
  - destruct p as [| | | |[|e]]; try done. injection Hr as <-. destruct Hpc as ((Hi & H1 & H2) & Hok & Hver & He).
    pose proof (puts_two me log) as Htwo. destruct Hp as (old & Hold). pose proof (proj1 (proj2 (proj2 (proj2 (proj2 Hold))))) as Hnok.
    assert (Hp : progress E me (a_i cl) (a_nok cl) b) by (by exists old). clear Hold.
    assert (Hw : ∀ z, 0 ≤ z < 2 ^ 63 → wrap_i64 z = z) by (intros z Hz; unfold wrap_i64; rewrite Z.mod_small; lia).
    assert (Hpos : ∀ x, 0 ≤ puts_with me x log) by (intros x; unfold puts_with; lia). pose proof (Hpos OK). pose proof (Hpos ErrMaybe).
    unfold one in *. destruct He as [-> |[-> | ->]]; simpl in *; injection Hact as <-.
    + exists false. simpl. rewrite !Hw by lia. rewrite (Hok eq_refl) in Hp. split; [by apply (progress_next _ _ _ (a_nok cl) _ true); [|lia]|].
      split_and!; try done. split; simpl; [lia|]. unfold one. simpl. lia.
    + rewrite (Hver eq_refl) in Hp. split; [done|]. intros id now ck. exists false. by split.
    + exists false. simpl. rewrite !Hw by lia. split; [apply (progress_next _ _ _ (a_nok cl) _ b); [done|destruct b; lia]|].
      split_and!; try done. split; simpl; [lia|]. unfold one. simpl. lia.
Qed.

(** ** A run *)

Lemma append_step E w ev o :
  append_inv E w → Z.of_nat (length (log_of (base w))) < 2 ^ 63 →
  client_step OneClientAppend rel "k" ev w = Some o → ∃ w', o = inl w' ∧ ∃ E', append_inv E' w'.
Proof.
  intros Hinv Hsmall Hstep. destruct (ai_base E w Hinv) as (lin & L & Hrun). destruct ev as [n ch| |ev]; cbn [client_step] in Hstep.
  - destruct (clients w !! n) as [cl|] eqn:Hn; cbn [mbind option_bind] in Hstep; [|done].
    destruct (ai_clients E w Hinv n cl Hn) as (t & Ht & Hok). rewrite Ht in Hstep. cbn [mbind option_bind] in Hstep.
    destruct cl as [cl|]; [|done]. destruct (pending (t_pc t)) as [r|] eqn:Hr; cbn [mbind option_bind] in Hstep; [|done].
    destruct (OneClientAppend _ _ _ _) as [act|] eqn:Hact; cbn [mbind option_bind] in Hstep; [|done].
    pose proof (OneClientAppend_ok _ _ _ _ _ _ _ _ Hsmall Hok Hr Hact) as Ha.
    assert (Hidle : ∀ cl', appender_ok E (log_of (base w)) (Z.of_nat n) cl' TIdle →
      append_inv E (mkClientTest (set_thread n (mkThread (t_ck t) TIdle) (base w)) (<[n := cl']> (clients w)))).
    { intros cl' Hcl. apply (append_inv_client E E w _ n (mkThread (t_ck t) TIdle) cl); try done; try apply Hinv; [|by left].
      exists lin, L. by apply run_inv_idle. }
    destruct act as [c cl'|cl'|rs|msg]; [|injection Hstep as <-; eauto..|done].
    destruct Ha as [Hreach Hcl']. pose proof (call_step (base w) n t (Z.of_nat n) c Ht ltac:(by rewrite Hr)) as Ecall.
    rewrite Ecall in Hstep. injection Hstep as <-. eexists. split; [done|]. exists E.
    apply (append_inv_client E E w _ n (begin_call (ncalls (base w)) (Z.of_nat n) (now (base w)) c (t_ck t)) cl); try done; try apply Hinv; [|by left].
    exists lin, L. apply step_call; [done|done|by destruct (t_pc t)|]. destruct c as [|k v ver]; [done|]. simpl.
    destruct (Hreach k v ver eq_refl) as [-> Hv]. pose proof (ai_cell E w Hinv) as Hcell. unfold cells_of in Hcell. rewrite Hcell.
    unfold cell_version. simpl. apply andb_true_iff. split; apply Z.leb_le; lia.
  - destruct (finished w) eqn:Hf; [|done]. destruct (ai_reader E w Hinv) as (t & Ht & Hok).
    assert (Hp : is_Some (pending (t_pc t))).
    { simpl in Hstep. rewrite Ht in Hstep. simpl in Hstep. destruct (t_pc t); try done; by eexists. }
    rewrite (call_step (base w) _ t _ _ Ht Hp) in Hstep. injection Hstep as <-. eexists. split; [done|]. exists E.
    apply (append_inv_reader E w _ (begin_call (ncalls (base w)) (-1) (now (base w)) (CallGet "k") (t_ck t))); try done; [|by left].
    exists lin, L. destruct Hp. apply step_call; [done|done|by destruct (t_pc t)|done].
  - assert (∃ b, test_step ev (base w) = Some b ∧ o = inl (mkClientTest b (clients w)) ∧
      match ev with TCall _ _ _ => False | _ => True end) as (b & Hb & -> & Hev).
    { destruct ev; try done; try (destruct rel; [done|]); simpl in *;
        match type of Hstep with (mbind _ ?x) = _ => destruct x as [b|]; simplify_eq/=; eauto | _ => simplify_eq/=; eauto end. }
    eexists. split; [done|]. by apply (append_base_event ev E).
Qed.

Lemma test_step_log ev (b b' : TestRun (S := S)) : test_step ev b = Some b' → (length (log_of b') ≤ length (log_of b) + 1)%nat.
Proof.
  intros Hs. assert (Ho : oplog b' = oplog b ∨ ∃ op, oplog b' = Append op <$> oplog b).
  { destruct ev as [d|n cli c|n|args|n|n|i|n|n]; simpl in Hs; try (injection Hs as <-; by left);
      [destruct (threads b !! n) as [t|]; simpl in Hs; [|done]; destruct (t_pc t) as [|? ? ? ? [?|]|? ? ? args ? [?|]|? op ?|]..|
       |destruct (threads b !! n) as [t|]; simpl in Hs; [|done]; destruct (end_call _ _) as [[[? ?] ?]|]
       |destruct (threads b !! n) as [t|]; simpl in Hs; [|done]; destruct (t_pc t) as [|? ? ? ? ?|? ? ? ? ? ?|? op ?|]];
      simplify_eq/=; try (by left); try (right; by eexists).
    - destruct (kv_put args (svc b)) as [[s e]|]; simplify_eq/=. by left.
    - destruct (strays b !! i) as [[id args]|]; simpl in Hs; [|done]. destruct (kv_put args (svc b)) as [[s e]|]; simplify_eq/=. by left. }
  unfold log_of. destruct Ho as [->|[op ->]]; [lia|]. destruct (oplog b); simpl; [|lia]. unfold Append. rewrite length_app. simpl. lia.
Qed.

Lemma client_step_log ev (w w' : AppendTest) :
  client_step OneClientAppend rel "k" ev w = Some (inl w') → (length (log_of (base w')) ≤ length (log_of (base w)) + 1)%nat.
Proof.
  intros Hs. destruct ev as [n ch| |ev]; cbn [client_step] in Hs.
  - destruct (clients w !! n) as [cl|]; cbn [mbind option_bind] in Hs; [|done].
    destruct (threads (base w) !! n) as [t|]; cbn [mbind option_bind] in Hs; [|done]. destruct cl as [cl|]; [|done].
    destruct (pending (t_pc t)) as [r|]; cbn [mbind option_bind] in Hs; [|done].
    destruct (OneClientAppend _ _ _ _) as [[c a|a|rs|msg]|]; cbn [mbind option_bind] in Hs; simplify_eq; try (unfold log_of; simpl; lia).
    destruct (test_step _ _) as [b|] eqn:E; cbn [mbind option_bind] in Hs; simplify_eq. by apply test_step_log in E.
  - destruct (finished w); [|done]. destruct (test_step _ _) as [b|] eqn:E; cbn [mbind option_bind] in Hs; simplify_eq. by apply test_step_log in E.
  - assert (∃ b, test_step ev (base w) = Some b ∧ w' = mkClientTest b (clients w)) as (b & Hb & ->).
    { destruct ev; try done; try (destruct rel; [done|]); simpl in *;
        match type of Hs with (mbind _ ?x) = _ => destruct x as [b|]; simplify_eq/=; eauto | _ => simplify_eq/=; eauto end. }
    by apply test_step_log in Hb.
Qed.

Lemma append_run E w evs o :
  append_inv E w → Z.of_nat (length (log_of (base w))) + Z.of_nat (length evs) < 2 ^ 63 →
  client_run OneClientAppend rel "k" evs w = Some o →
  ∃ w', o = inl w' ∧ (length (log_of (base w')) ≤ length (log_of (base w)) + length evs)%nat ∧ ∃ E', append_inv E' w'.
Proof.
  revert E w. induction evs as [|ev evs IH]; intros E w Hinv Hs Hrun; simpl in Hrun; [injection Hrun as <-; exists w; split_and!; [done|lia|eauto]|]. simpl in Hs.
  destruct (client_step OneClientAppend rel "k" ev w) as [o1|] eqn:E1; [|done].
  destruct (append_step E w ev o1 Hinv) as (w1 & -> & E' & Hinv'); [lia|done|]. apply client_step_log in E1.
  destruct (IH E' w1 Hinv' ltac:(lia) Hrun) as (w' & -> & Hl & HE). exists w'. split_and!; [done|simpl; lia|done].
Qed.

(** ** The start

    The test itself puts the empty list. *)

Definition put_empty (n : nat) : list TestEvent := [TCall n (-1) (PutJson "k" ([] : list entry) 0); TPutExec n; TReturn n; TAppend n].

Definition append_start (start : Z) (cks : list Clerk) (ck : Clerk) : option AppendTest :=
  b ← test_run (put_empty (length cks)) (MakeTest start (cks ++ [ck]));
  Some (mkClientTest b (replicate (length cks) (inl OneClientAppend_start))).

Lemma append_start_inv start cks ck w : append_start start cks ck = Some w → append_inv [] w ∧ length (log_of (base w)) = 1%nat.
Proof.
  unfold append_start. set (n := length cks). destruct (test_run _ _) as [b|] eqn:Er; simpl; [|done]. intros [= <-].
  assert (Hb : ∃ lin L, run_inv b lin L) by (eapply test_run_inv; [exact Er|apply MakeTest_inv]).
  assert (Hn : (cks ++ [ck]) !! n = Some ck) by (unfold n; by rewrite lookup_app_r, Nat.sub_diag by lia).
  set (ths := map_seq (M := gmap nat Thread) 0 ((λ ck, mkThread ck TIdle) <$> (cks ++ [ck]))).
  assert (Hth : ∀ m, ths !! m = (λ ck, mkThread ck TIdle) <$> ((cks ++ [ck]) !! m)) by (intros m; unfold ths; by rewrite lookup_map_seq_0, list_lookup_fmap).
  assert (Ht : ths !! n = Some (mkThread ck TIdle)) by (by rewrite Hth, Hn).
  unfold put_empty in Er. simpl in Er. fold ths in Er. rewrite kv_init_cells, lookup_empty, Ht in Er. simpl in Er. rewrite lookup_insert_eq in Er. simpl in Er.
  destruct (kv_put _ kv_init) as [[s e]|] eqn:Eput; simpl in Er; [|done]. rewrite insert_insert_eq, lookup_insert_eq in Er. simpl in Er.
  rewrite insert_insert_eq, lookup_insert_eq in Er. simpl in Er. rewrite insert_insert_eq in Er. injection Er as <-.
  destruct (kv_put_cells _ _ _ _ Eput) as [(-> & _ & Es)|(_ & Hne & _)]; [|by rewrite kv_init_cells in Hne]. simpl in Es.
  split; [|done]. split; simpl; try done.
  - unfold cells_of. simpl. by rewrite Es, lookup_insert_eq.
  - by intros e ?%elem_of_nil.
  - intros m cl [-> Hlt]%lookup_replicate. destruct (lookup_lt_is_Some_2 cks m Hlt) as [c Hc]. exists (mkThread c TIdle).
    rewrite lookup_insert_ne by (unfold n; lia). rewrite Hth, lookup_app_l, Hc by done. split; [done|]. exists false. split; [|split_and!; [done|done|]].
    + exists []. split_and!; try done; constructor.
    + assert (Hz : ∀ op e, ClientId op = -1 → puts_with (Z.of_nat m) e [op] = 0).
      { intros op e Ho. unfold puts_with. rewrite filter_cons_False; [done|]. intros (_ & Hm & _). lia. }
      unfold counted, log_of. cbn [oplog default from_option id Append app]. by rewrite !Hz.
  - rewrite length_replicate. fold n. eexists. rewrite lookup_insert_eq. split; [done|]. left. by eexists.
  - rewrite length_replicate. fold n. intros m t. rewrite lookup_insert_Some. intros [[<- _]|[_ Hm]]; [done|].
    rewrite Hth in Hm. destruct ((cks ++ [ck]) !! m) as [c|] eqn:Ec; [|done]. apply lookup_lt_Some in Ec. rewrite length_app in Ec. simpl in Ec. lia.
Qed.
End append_clients.

(** ** What CheckAppends computes *)

(** One more than the last number: what is expected next. *)
Definition nxt (ns : list Z) : Z := match last ns with Some n => n + 1 | None => 0 end.

Lemma nxt_snoc ns n : nxt (ns ++ [n]) = n + 1.
Proof. unfold nxt. by rewrite last_snoc. Qed.

Lemma nxt_bounds ns i : StronglySorted Z.lt ns → Forall (λ n, 0 ≤ n < i) ns → 0 ≤ i → go_len ns ≤ nxt ns ≤ i.
Proof.
  intros Hs Hb Hi. induction ns as [|n ns IH] using rev_ind; [done|]. rewrite nxt_snoc.
  apply StronglySorted_app in Hs as (Hlt & Hs & _). apply Forall_app in Hb as [Hb Hn]. rewrite Forall_singleton in Hn.
  assert (go_len ns ≤ n).
  { destruct (IH Hs Hb) as [H1 _]. etransitivity; [exact H1|]. unfold nxt. destruct (last ns) as [m|] eqn:El; [|lia].
    assert (m < n); [|lia]. apply Hlt; [by apply last_Some_elem_of in El|by apply list_elem_of_singleton]. }
  unfold go_len in *. rewrite length_app. simpl. lia.
Qed.

(** The two maps after the entries [es]. *)
Definition tallies (nclnt : Z) (es : list entry) (st : gmap Z Z * gmap Z Z) : Prop :=
  ∀ c, (0 ≤ c < nclnt → st.1 !! c = Some (nxt (mine c es)) ∧ st.2 !! c = Some (nxt (mine c es) - go_len (mine c es))) ∧
       (¬ 0 ≤ c < nclnt → st.1 !! c = None).

Lemma zeros_spec n c : foldl (λ (m : gmap Z Z) i, <[i := 0]> m) ∅ (seqZ 0 n) !! c = if decide (0 ≤ c < n) then Some 0 else None.
Proof.
  assert (H : ∀ l (m : gmap Z Z), foldl (λ m i, <[i := 0]> m) m l !! c = if decide (c ∈ l) then Some 0 else m !! c).
  { induction l as [|i l IH]; intros m; [done|]. simpl. rewrite IH. destruct (decide (c ∈ l)) as [Hc|Hc].
    - rewrite decide_True; [done|]. by right.
    - destruct (decide (i = c)) as [->|Hne]; [rewrite lookup_insert_eq, decide_True; [done|by left]|].
      rewrite lookup_insert_ne, decide_False; [done| |done]. intros [->|?]%elem_of_cons; done. }
  rewrite H, lookup_empty. apply decide_ext. rewrite elem_of_seqZ. lia.
Qed.

Lemma mine_snoc c es e : mine c (es ++ [e]) = if decide (e_Id e = c) then mine c es ++ [e_N e] else mine c es.
Proof. rewrite mine_app. unfold mine at 2. rewrite filter_cons, filter_nil. case_decide; simpl; [done|by rewrite app_nil_r]. Qed.

Lemma CheckAppends_entry_ok nclnt es e st :
  tallies nclnt es st → 0 ≤ e_Id e < nclnt → StronglySorted Z.lt (mine (e_Id e) (es ++ [e])) →
  Forall (λ n, 0 ≤ n < 2 ^ 63 - 1) (mine (e_Id e) (es ++ [e])) →
  ∃ st', CheckAppends_entry e st = inr st' ∧ tallies nclnt (es ++ [e]) st'.
Proof.
  intros Ht Hid Hs Hb. destruct st as [expect skipped]. destruct (proj1 (Ht (e_Id e)) Hid) as [Hx Hsk]. simpl in Hx, Hsk.
  rewrite mine_snoc, decide_True in Hs, Hb by done. set (ns := mine (e_Id e) es) in *.
  pose proof (nxt_bounds _ _ Hs Hb ltac:(lia)) as Hn. rewrite nxt_snoc in Hn.
  apply StronglySorted_app in Hs as (Hlt & Hs & _). apply Forall_app in Hb as [Hb He]. rewrite Forall_singleton in He.
  pose proof (nxt_bounds _ _ Hs Hb ltac:(lia)) as Hn0.
  assert (Hle : nxt ns ≤ e_N e).
  { unfold nxt. destruct (last ns) as [m|] eqn:El; [|lia]. assert (m < e_N e); [|lia].
    apply Hlt; [by apply last_Some_elem_of in El|by apply list_elem_of_singleton]. }
  assert (Hgl : go_len (ns ++ [e_N e]) = go_len ns + 1) by (unfold go_len; rewrite length_app; simpl; lia).
  assert (Hlen : 0 ≤ go_len ns) by (unfold go_len; lia).
  assert (Hupd : ∀ f g, f !! e_Id e = Some (e_N e + 1) → g !! e_Id e = Some (e_N e - go_len ns) →
    (∀ c, c ≠ e_Id e → f !! c = expect !! c ∧ g !! c = skipped !! c) → tallies nclnt (es ++ [e]) (f, g)).
  { intros f g Hf Hg Ho c. rewrite mine_snoc. case_decide as Ec.
    - subst c. fold ns. rewrite nxt_snoc, Hgl. simpl. rewrite Hf, Hg. split; [|lia]. intros _. split; [done|]. f_equal. lia.
    - destruct (Ho c) as [E1 E2]; [done|]. simpl. rewrite E1, E2. apply (Ht c). }
  unfold CheckAppends_entry. rewrite Hx. cbn [default from_option id]. destruct (Z.ltb_spec (e_N e) (nxt ns)); [lia|].
  destruct (Z.eqb_spec (nxt ns) (e_N e)) as [E|Hne]; eexists; (split; [done|]); apply Hupd.
  - rewrite lookup_insert_eq, wrap_i64_small by lia. by rewrite E.
  - rewrite Hsk. by rewrite E.
  - intros c Hc. by rewrite lookup_insert_ne.
  - rewrite lookup_insert_eq, wrap_i64_small by lia. done.
  - rewrite lookup_insert_eq, Hsk. cbn [default from_option id]. rewrite (wrap_i64_small (e_N e - _)), wrap_i64_small by lia. f_equal. lia.
  - intros c Hc. by rewrite !lookup_insert_ne.
Qed.

Lemma CheckAppends_entries_ok nclnt es : ∀ done_ st,
  tallies nclnt done_ st → (∀ e, e ∈ es → 0 ≤ e_Id e < nclnt) →
  (∀ c, 0 ≤ c < nclnt → StronglySorted Z.lt (mine c (done_ ++ es)) ∧ Forall (λ n, 0 ≤ n < 2 ^ 63 - 1) (mine c (done_ ++ es))) →
  ∃ st', CheckAppends_entries es st = inr st' ∧ tallies nclnt (done_ ++ es) st'.
Proof.
  induction es as [|e es IH]; intros done_ st Ht Hid Hall; simpl; [rewrite app_nil_r; eauto|].
  assert (He : 0 ≤ e_Id e < nclnt) by (apply Hid; by left). replace (done_ ++ e :: es) with ((done_ ++ [e]) ++ es) in * by (by rewrite <- app_assoc).
  destruct (Hall _ He) as [H1 H2]. rewrite mine_app in H1, H2. apply StronglySorted_app in H1 as (_ & H1 & _). apply Forall_app in H2 as [H2 _].
  destruct (CheckAppends_entry_ok nclnt done_ e st Ht He H1 H2) as (st1 & -> & Ht1).
  apply IH; [done| |done]. intros x Hx. apply Hid. by right.
Qed.

(** The check passes if each client's numbers rise below the number of its rounds, and
    are at least as many as its OKs. *)
Lemma CheckAppends_ok es rs :
  (∀ e, e ∈ es → 0 ≤ e_Id e < go_len rs) →
  (∀ c r, rs.[c] = Some r → 0 ≤ Nmaybe r ∧ Nok r + Nmaybe r < 2 ^ 63 - 1 ∧ progress es c (Nok r + Nmaybe r) (Nok r) false) →
  CheckAppends es (go_len rs) rs (go_len es + 1) = Some None.
Proof.
  intros Hid Hcl.
  assert (Hc : ∀ c, 0 ≤ c < go_len rs → ∃ r, rs.[c] = Some r ∧ go_len (mine c es) ≤ nxt (mine c es) ≤ Nok r + Nmaybe r ∧ Nok r ≤ go_len (mine c es) ∧
    Nok r + Nmaybe r < 2 ^ 63 - 1 ∧ 0 ≤ Nok r + Nmaybe r ∧ StronglySorted Z.lt (mine c es) ∧ Forall (λ n, 0 ≤ n < 2 ^ 63 - 1) (mine c es)).
  { intros c Hr. destruct (go_index_is_Some rs c Hr) as [r Er]. exists r. split; [done|].
    destruct (Hcl c r Er) as (Hm & Hsm & old & Eo & Hs & Hb & Hi & Hn). rewrite app_nil_r in Eo. rewrite Eo. pose proof (nxt_bounds _ _ Hs Hb Hi).
    split_and!; try done; try lia. eapply Forall_impl; [exact Hb|]. simpl. lia. }
  unfold CheckAppends. destruct (CheckAppends_entries_ok (go_len rs) es [] (foldl (λ m i, <[i := 0]> m) ∅ (seqZ 0 (go_len rs)), foldl (λ m i, <[i := 0]> m) ∅ (seqZ 0 (go_len rs))))
    as ([expect skipped] & -> & Ht).
  { intros c. simpl. rewrite !zeros_spec. split; [intros Hr; by rewrite !decide_True|intros Hr; by rewrite decide_False]. }
  { done. } { intros c Hr. destruct (Hc c Hr) as (r & _ & _ & _ & _ & _ & ? & ?). done. }
  rewrite Z.eqb_refl. simpl. simpl in Ht.
  assert (Hall : ∀ l, (∀ c n, (c, n) ∈ l → expect !! c = Some n) → CheckAppends_clients skipped rs l = Some None).
  { induction l as [|[c n] l IH]; intros Hl; simpl; [done|].
    assert (Hcn : expect !! c = Some n) by (apply Hl; by left).
    destruct (decide (0 ≤ c < go_len rs)) as [Hr|Hr]; [|pose proof (proj2 (Ht c) Hr) as Hx; simpl in Hx; by rewrite Hx in Hcn].
    destruct (proj1 (Ht c) Hr) as [Hx Hk]. simpl in Hx, Hk. rewrite Hx in Hcn. injection Hcn as <-. destruct (Hc c Hr) as (r & Er & Hb & Hn & Hsm & Hpos & _).
    unfold CheckAppends_client. rewrite Er. simpl. rewrite Hk. cbn [default from_option id].
    destruct (Z.ltb_spec (Nmaybe r) (nxt (mine c es) - go_len (mine c es))); [lia|]. rewrite wrap_i64_small by lia.
    destruct (Z.ltb_spec (Nok r + Nmaybe r) (nxt (mine c es))); [lia|]. apply IH. intros c' n' Hin. apply Hl. by right. }
  apply Hall. intros c n. by rewrite elem_of_map_to_list.
Qed.

(** ** The test passes *)

Section checks.
Context `{!Json (list entry)} {S : Type} `{!KVService S} (rel : bool).
Implicit Types (w : ClientTest (S := S) (A := AppendClient)).

Lemma append_all_returned E w rs t r :
  append_inv E w → results w = Some rs → threads (base w) !! length (clients w) = Some t → t_pc t = TRet r →
  all_returned (base w).
Proof.
  intros Hinv Hrs Ht Ep n u Hu. pose proof (ai_threads _ w Hinv n u Hu).
  destruct (decide (n = length (clients w))) as [->|Hne]; [simplify_eq; by rewrite Ep|].
  destruct (lookup_lt_is_Some_2 rs n) as [x Hx]; [rewrite (results_length w rs Hrs); lia|].
  destruct (ai_clients _ w Hinv n _ (results_lookup w rs n x Hrs Hx)) as (u' & Hu' & Hidle & _). simplify_eq. by rewrite Hidle.
Qed.

(** What the counters of a client that returned say of its entries. *)
Lemma append_result E w rs c r :
  append_inv E w → results w = Some rs → rs.[c] = Some r →
  0 ≤ Nmaybe r ∧ Nok r + Nmaybe r ≤ Z.of_nat (length (log_of (base w))) ∧ progress E c (Nok r + Nmaybe r) (Nok r) false.
Proof.
  intros Hinv Hrs Hr. pose proof (go_index_Some_range _ _ _ Hr) as [Hc _]. rewrite go_index_lookup in Hr by done.
  destruct (ai_clients _ w Hinv _ _ (results_lookup w rs _ r Hrs Hr)) as (t & _ & _ & cl & -> & Hp & Hi & Hok & Hmay).
  rewrite Z2Nat.id in * by done. simpl. unfold one in *. rewrite decide_False, Z.sub_0_r in Hok by done. rewrite decide_False, Z.sub_0_r in Hmay by done.
  pose proof (puts_two c (log_of (base w))). rewrite <- Hi. split_and!; [|lia|done]. rewrite Hmay. unfold puts_with. lia.
Qed.

Lemma progress_count E c r :
  progress E c (Nok r + Nmaybe r) (Nok r) false → Nok r ≤ go_len (mine c E) ≤ Nok r + Nmaybe r.
Proof. intros (old & -> & Hs & Hb & Hi & Hn). rewrite app_nil_r. pose proof (nxt_bounds _ _ Hs Hb Hi). lia. Qed.

(** C20 (The test of concurrent appends passes).  Any number of clients run
    OneClientAppend on any key/value service, over a network that loses, delays and
    retransmits as it likes, from the empty list that the test has put.  No run is
    stopped by a Fatalf of a client.  When the clients have returned and the test has
    read the list, the recorded history passes [checkPorcupine], the value decodes, and
    [CheckAppends] passes on it: no client's entry is there twice or out of its order,
    and the version counts the entries.  Each client finds as many entries as puts that
    returned OK, and at most one more for each ErrMaybe. *)
Theorem append_test_passes check start cks ck w0 evs o :
  porcupine_sound check → append_start (S := S) start cks ck = Some w0 → Z.of_nat (length evs) < 2 ^ 63 - 2 →
  client_run OneClientAppend rel "k" evs w0 = Some o →
  ∃ w, o = inl w ∧
    ∀ rs t val ver err, results w = Some rs → threads (base w) !! length (clients w) = Some t → t_pc t = TRet (ResGet val ver err) →
      (∃ log, oplog (base w) = Some log ∧ checkPorcupine check log = None) ∧
      ∃ es, GetJson (ResGet val ver err) = inr (ver, es) ∧ CheckAppends es (go_len rs) rs ver = Some None ∧
        ∀ c r, rs.[c] = Some r → Nok r ≤ go_len (mine c es) ≤ Nok r + Nmaybe r.
Proof.
  intros Hcheck [Hinv0 Hlog0]%append_start_inv Hevs Hrun.
  destruct (append_run rel [] w0 evs o Hinv0 ltac:(lia) Hrun) as (w & -> & Hlog & E & Hinv).
  exists w. split; [done|]. intros rs t val ver err Hrs Ht Ep. split.
  - destruct (ai_base E w Hinv) as (lin & L & Hbase). exists L.*2. split; [apply Hbase|].
    apply (returned_passes check (base w) lin); [done|done|]. by apply (append_all_returned E w rs t (ResGet val ver err)).
  - destruct (ai_reader E w Hinv) as (t' & Ht' & Hread). rewrite Ht in Ht'. injection Ht' as <-. rewrite Ep in Hread.
    destruct Hread as [[e ?]|[_ [= -> -> ->]]]; [done|].
    exists E. split_and!.
    + unfold GetJson. by rewrite decide_True, json_unmarshal_marshal.
    + apply CheckAppends_ok.
      * intros e He. unfold go_len. rewrite (results_length w rs Hrs). by apply (ai_ids E w Hinv).
      * intros c r Hr. destruct (append_result E w rs c r Hinv Hrs Hr) as (? & ? & ?). split_and!; [done|lia|done].
    + intros c r Hr. apply progress_count. by apply (append_result E w rs).
Qed.
End checks.

(** ** Witness: two clients, of which one loses a reply and one reads an old list *)

#[export] Instance entry_countable : Countable entry.
Proof. refine (inj_countable' (λ e, (e_Id e, e_N e)) (λ x, mkEntry x.1 x.2) _). by intros []. Defined.

Definition entries_json : Json (list entry).
Proof.
  refine {| json_marshal es := pos_to_string (encode es); json_unmarshal s := decode (pos_of_string s) |}.
  intros es. rewrite pos_of_to_string. apply decode_encode.
Defined.

Definition get_call (n : nat) : list ClientEvent := [CStep n go_on; CBase (TGetExec n)] ++ finish_call n.

Definition append_race : list ClientEvent :=
  get_call 0 ++ get_call 1 ++
  [CStep 0 go_on; CBase (TPutLost 0); CStep 1 go_on; CBase (TPutStray 0); CBase (TPutExec 0); CBase (TPutExec 1)] ++
  finish_call 0 ++ finish_call 1 ++ [CStep 0 go_on] ++
  get_call 1 ++ [CStep 1 go_on; CBase (TPutExec 1)] ++ finish_call 1 ++ [CStep 1 go_on; CStep 1 stop] ++
  get_call 0 ++ [CStep 0 go_on; CBase (TPutExec 0)] ++ finish_call 0 ++ [CStep 0 go_on; CStep 0 stop] ++
  [CCheck; CBase (TGetExec 2)] ++ finish_call 2.

Definition append_race_start : option (ClientTest (S := list Req) (A := AppendClient)) :=
  append_start (Json0 := entries_json) 100 [mkClerk 1 0; mkClerk 2 0] (mkClerk 3 0).

Definition append_race_first : ClientTest (S := list Req) (A := AppendClient) :=
  default (mkClientTest (MakeTest 100 []) []) append_race_start.
Definition append_race_end : ClientTest (S := list Req) (A := AppendClient) :=
  match client_run (OneClientAppend (Json0 := entries_json)) false "k" append_race append_race_first with
  | Some (inl w) => w
  | _ => append_race_first
  end.

Definition race_list : list entry := [mkEntry 0 0; mkEntry 1 0; mkEntry 0 1].

Lemma append_race_run :
  append_race_start = Some append_race_first ∧
  client_run (OneClientAppend (Json0 := entries_json)) false "k" append_race append_race_first = Some (inl append_race_end) ∧
  results append_race_end = Some [mkClntRes 1 1; mkClntRes 1 0] ∧
  t_pc <$> threads (base append_race_end) !! 2%nat = Some (TRet (ResGet (@json_marshal _ entries_json race_list) 4 OK)) ∧
  length (clients append_race_end) = 2%nat ∧
  GetJson (Json0 := entries_json) (ResGet (@json_marshal _ entries_json race_list) 4 OK) = inr (4, race_list).
Proof. split_and!; vm_compute; reflexivity. Qed.

Lemma append_test_passes_witness :
  (∃ log, oplog (base append_race_end) = Some log ∧ checkPorcupine try_all log = None) ∧
  CheckAppends race_list 2 [mkClntRes 1 1; mkClntRes 1 0] 4 = Some None.
Proof.
  destruct append_race_run as (Hst & Hrun & Hrs & Ht & Hlen & Hdec).
  destruct (append_test_passes (Json0 := entries_json) false try_all 100 [mkClerk 1 0; mkClerk 2 0] (mkClerk 3 0) append_race_first
    append_race (inl append_race_end) try_all_sound Hst ltac:(vm_compute; reflexivity) Hrun) as (w & E & H). apply (inj inl) in E. rewrite <- E in H.
  rewrite Hlen in H. apply fmap_Some_1 in Ht as (t & Et & Ep).
  destruct (H _ t _ _ _ Hrs Et (eq_sym Ep)) as (H1 & es & Hes & H2 & _). split; [exact H1|].
  pose proof (eq_trans (eq_sym Hdec) Hes) as Ees. injection Ees as <-. exact H2.
Defined.
