(* ===== verification/KVPuts.v ===== *)
(** * kvtest1/kvtest.go: puts at least once

    PutAtLeastOnce, which puts until a put returns OK, and CheckGet, which compares what
    a Get returns.  The clients are those of the snapshot tests: each on a key of its
    own, it puts at least once and checks, over and over. *)

From S2P Require Import Prelude KVSrv Lock Porcupine KVTest.
Local Open Scope Z_scope.

(** ** PutAtLeastOnce and CheckGet *)

(** What PutAtLeastOnce does when a put at version [ver] returned [err]: return a version,
    put again at a version, or stop the test. *)
Inductive Again := Return (ver : Tversion) | Again_at (ver : Tversion) | Stop (msg : string).

Definition PutAtLeastOnce (ver : Tversion) (err : Err) : Again :=
  if decide (err = OK) then Return (wrap_u64 (ver + 1))
  else if bool_decide (err = ErrMaybe) || bool_decide (err = ErrVersion) then Again_at (wrap_u64 (ver + 1))
  else if ver =? 0 then Again_at ver
  else Stop "Put err".

(** [Some msg]: Fatalf. *)
Definition CheckGet (value : string) (version : Tversion) (r : KVRes) : option string :=
  match r with
  | ResGet val ver err =>
      if decide (err = OK) then
        if bool_decide (val = value) && (ver =? version) then None else Some "Get returns another value"
      else Some "Get returns error"
  | ResPut _ => Some "Get returns error"
  end.

(** ** A client *)

(** In front of the next round; in PutAtLeastOnce; in CheckGet. *)
Inductive KeepPc := KLoop | KPut (value : string) (ver : Tversion) | KGet (value : string) (ver : Tversion).

(** [k_value] and [k_ver]: what the last round has put. *)
Record Keeper := mkKeeper { k_pc : KeepPc; k_value : string; k_ver : Tversion }.

Definition Keep_start : Keeper := mkKeeper KLoop "" 0.

Section keeper.
Context (keys : list string) (val : Z → string).

Definition Keep (me : Z) (ch : Choice) (cl : Keeper) (r : option KVRes) : option (Act Keeper) :=
  key ← keys !! Z.to_nat me;
  match k_pc cl, r with
  | KLoop, None =>
      if c_done ch then Some (Finish (mkClntRes 0 0))
      else
        let value := val (c_rand ch) in
        Some (Do (CallPut key value (k_ver cl)) (mkKeeper (KPut value (k_ver cl)) (k_value cl) (k_ver cl)))
  | KPut value ver, Some (ResPut err) =>
      match PutAtLeastOnce ver err with
      | Return ver => Some (Do (CallGet key) (mkKeeper (KGet value ver) value ver))
      | Again_at ver => Some (Do (CallPut key value ver) (mkKeeper (KPut value ver) (k_value cl) (k_ver cl)))
      | Stop msg => Some (Fatalf msg)
      end
  | KGet value ver, Some r =>
      match CheckGet value ver r with
      | Some msg => Some (Fatalf msg)
      | None => Some (Go (mkKeeper KLoop (k_value cl) (k_ver cl)))
      end
  | _, _ => None
  end.

(** ** What holds during a run *)

(** The service has what the client has put last. *)
Definition in_step (c : option KVPair) (value : string) (ver : Tversion) : Prop :=
  ver = 0 ∧ c = None ∨ 0 < ver < 2 ^ 64 ∧ c = Some (mkKVPair value ver).

(** In PutAtLeastOnce: the put of this attempt is to come, or it was performed. *)
Definition keep_put (k : string) (c : option KVPair) (value : string) (ver : Tversion) (p : TPc) : Prop :=
  match p with
  | TPut _ _ _ args first reply =>
      pa_Key args = k ∧ pa_Value args = value ∧ pa_Version args = ver ∧
      (cell_version c = ver ∧ reply = None ∨
       c = Some (mkKVPair value (ver + 1)) ∧ ver + 1 < 2 ^ 64 ∧ (first = true → reply = Some OK) ∧
         (reply = None ∨ reply = Some OK ∨ reply = Some ErrVersion))
  | TLog _ _ (ResPut e) | TRet (ResPut e) => c = Some (mkKVPair value (ver + 1)) ∧ ver + 1 < 2 ^ 64 ∧ (e = OK ∨ e = ErrMaybe)
  | _ => False
  end.

Definition keep_get (k : string) (value : string) (ver : Tversion) (p : TPc) : Prop :=
  match p with
  | TGet _ _ _ args r => ga_Key args = k ∧ ∀ x, r = Some x → res_of x = ResGet value ver OK
  | TLog _ _ r | TRet r => r = ResGet value ver OK
  | _ => False
  end.

Definition keeper_ok (k : string) (c : option KVPair) (cl : Keeper + ClntRes) (p : TPc) : Prop :=
  match cl with
  | inr _ => p = TIdle
  | inl cl =>
      match k_pc cl with
      | KLoop => p = TIdle ∧ in_step c (k_value cl) (k_ver cl)
      | KPut value ver => 0 ≤ ver ∧ keep_put k c value ver p
      | KGet value ver => k_value cl = value ∧ k_ver cl = ver ∧ 0 < ver ∧ in_step c value ver ∧ keep_get k value ver p
      end
  end.

(** ** What the points of the wrappers mean for a client *)

Lemma keeper_put k c cl id cli st args f r : keeper_ok k c (inl cl) (TPut id cli st args f r) →
  ∃ value ver, k_pc cl = KPut value ver ∧ 0 ≤ ver ∧ keep_put k c value ver (TPut id cli st args f r).
Proof.
  intros Hok. simpl in Hok. destruct (k_pc cl) as [|value ver|value ver]; [by destruct Hok|by exists value, ver|].
  by destruct Hok as (_ & _ & _ & _ & ?).
Qed.

Lemma keeper_get k c cl id cli st args r : keeper_ok k c (inl cl) (TGet id cli st args r) →
  ∃ value ver, k_pc cl = KGet value ver ∧ ga_Key args = k ∧ c = Some (mkKVPair value ver) ∧
    (∀ x, r = Some x → res_of x = ResGet value ver OK) ∧
    ∀ p, keep_get k value ver p → keeper_ok k c (inl cl) p.
Proof.
  intros Hok. simpl in *. destruct (k_pc cl) as [|value ver|value ver]; [by destruct Hok|by destruct Hok|].
  destruct Hok as (H1 & H2 & H3 & [[? _]|[H4 H5]] & H6 & H7); [lia|]. exists value, ver. split_and!; try done.
  intros p Hp. split_and!; try done. by right.
Qed.

(** A put of the client takes effect, or it is refused. *)
Lemma keeper_exec k c cl id cli st args f r (new : option KVPair) (e : Err) :
  keeper_ok k c (inl cl) (TPut id cli st args f r) →
  (e = OK ∧ pa_Version args = cell_version c ∧ new = Some (mkKVPair (pa_Value args) (pa_Version args + 1)) ∧ pa_Version args + 1 < 2 ^ 64 ∨
   e = ErrVersion ∧ pa_Version args ≠ cell_version c ∧ new = c) →
  (r = None → keeper_ok k new (inl cl) (TPut id cli st args f (Some e))) ∧
  (f = false → keeper_ok k new (inl cl) (TPut id cli st args f r)).
Proof.
  intros (value & ver & Epc & Hv & Hk & Hval & Hver & Hcase)%keeper_put He.
  assert (Hgoal : ∀ r', keep_put k new value ver (TPut id cli st args f r') → keeper_ok k new (inl cl) (TPut id cli st args f r')).
  { intros r' Hp. simpl. by rewrite Epc. }
  destruct He as [(-> & Hcv & -> & Hroom)|(-> & Hcv & ->)].
  - split; intros Hr; apply Hgoal; split_and!; try done; right; rewrite Hval, Hver; (split; [done|]); rewrite <- Hver; split_and!; try done; auto.
    + by rewrite Hr.
    + destruct Hcase as [[_ ->]|(_ & _ & _ & ?)]; auto.
  - destruct Hcase as [[Hc _]|(Hc & Hroom & Hf & Hr)]; [congruence|]. split; intros Hx; apply Hgoal; split_and!; try done; right; split_and!; try done; auto.
    intros Hft. rewrite (Hf Hft) in Hx. done.
Qed.

Lemma keeper_lost k c cl id cli st args f r :
  keeper_ok k c (inl cl) (TPut id cli st args f r) → keeper_ok k c (inl cl) (TPut id cli st args false None).
Proof.
  intros (value & ver & Epc & Hv & Hk & Hval & Hver & Hcase)%keeper_put. simpl. rewrite Epc. split; [done|]. split_and!; try done.
  destruct Hcase as [[Hc _]|(Hc & Hroom & _)]; [by left|right]. by split_and!; auto.
Qed.

Lemma keeper_return_put k c cl id cli st args f e op :
  keeper_ok k c (inl cl) (TPut id cli st args f (Some e)) → keeper_ok k c (inl cl) (TLog id op (ResPut (put_err f e))).
Proof.
  intros (value & ver & Epc & Hv & Hk & Hval & Hver & [[_ ?]|(Hc & Hroom & Hf & Hr)])%keeper_put; [done|]. simpl. rewrite Epc. split; [done|].
  split_and!; [done|done|]. destruct Hr as [?|[[= ->]|[= ->]]]; [done|by left|]. destruct f; [by specialize (Hf eq_refl)|by right].
Qed.

Lemma keeper_log k c cl id op r : keeper_ok k c (inl cl) (TLog id op r) → keeper_ok k c (inl cl) (TRet r).
Proof. simpl. destruct (k_pc cl); [by intros [? _]|by destruct r|done]. Qed.

(** ** The invariant *)

Context {S : Type} `{!KVService S} (rel : bool) (key : string).
Abbreviation KeepTest := (ClientTest (S := S) (A := Keeper)).

Record keep_inv (w : KeepTest) : Prop := {
  ki_base : ∃ lin L, run_inv (base w) lin L;
  ki_keys : length keys = length (clients w);
  ki_clients n cl k : clients w !! n = Some cl → keys !! n = Some k →
    ∃ t, threads (base w) !! n = Some t ∧ keeper_ok k (cells_of (base w) !! k) cl (t_pc t);
  ki_reader : ∃ t, threads (base w) !! length (clients w) = Some t ∧
    match t_pc t with TPut _ _ _ _ _ _ => False | _ => True end;
  ki_threads n t : threads (base w) !! n = Some t → (n ≤ length (clients w))%nat
}.

Hypothesis keys_distinct : NoDup keys.

(** A client that is running moves on; its own key may change. *)
Lemma keep_inv_client w b n k t' cl cl' :
  keep_inv w → clients w !! n = Some (inl cl) → keys !! n = Some k → (∃ lin L, run_inv b lin L) →
  (∀ k', k' ≠ k → cells_of b !! k' = cells_of (base w) !! k') → threads b = <[n := t']> (threads (base w)) →
  keeper_ok k (cells_of b !! k) cl' (t_pc t') → keep_inv (mkClientTest b (<[n := cl']> (clients w))).
Proof.
  intros Hinv Hn Hk Hb Hc Ht Hcl. pose proof (lookup_lt_Some _ _ _ Hn) as Hlt.
  split; simpl; rewrite ?length_insert; try done; [apply Hinv|..].
  - intros m c k' Hm Hk'. destruct (decide (m = n)) as [->|Hmn].
    + rewrite list_lookup_insert_eq in Hm by done. simplify_eq. exists t'. by rewrite Ht, lookup_insert_eq.
    + rewrite list_lookup_insert_ne in Hm by done. destruct (ki_clients w Hinv m c k' Hm Hk') as (t & Htm & Hok). exists t.
      rewrite Ht, lookup_insert_ne, Hc by (try done; intros ->; destruct Hmn; by apply (NoDup_lookup keys m n k)). done.
  - destruct (ki_reader w Hinv) as (t & Htc & Hi). exists t. by rewrite Ht, lookup_insert_ne by lia.
  - intros m t Hm. rewrite Ht in Hm. destruct (decide (m = n)) as [->|Hmn]; [lia|].
    rewrite lookup_insert_ne in Hm by done. by apply (ki_threads w Hinv m t).
Qed.

(** Within its call. *)
Lemma keep_inv_thread w b n k t' cl :
  keep_inv w → clients w !! n = Some (inl cl) → keys !! n = Some k → (∃ lin L, run_inv b lin L) →
  (∀ k', k' ≠ k → cells_of b !! k' = cells_of (base w) !! k') → threads b = <[n := t']> (threads (base w)) →
  keeper_ok k (cells_of b !! k) (inl cl) (t_pc t') → keep_inv (mkClientTest b (clients w)).
Proof.
  intros Hinv Hn Hk Hb Hc Ht Hcl. rewrite <- (list_insert_id (clients w) n (inl cl) Hn). by apply (keep_inv_client w b n k t' cl).
Qed.

(** The goroutine of the test moves on, or nobody does. *)
Lemma keep_inv_reader w b t' :
  keep_inv w → (∃ lin L, run_inv b lin L) → cells_of b = cells_of (base w) →
  threads b = <[length (clients w) := t']> (threads (base w)) →
  match t_pc t' with TPut _ _ _ _ _ _ => False | _ => True end → keep_inv (mkClientTest b (clients w)).
Proof.
  intros Hinv Hb Ec Ht Hch. split; simpl; rewrite ?Ec; try done; [apply Hinv|..].
  - intros m c k Hm Hk. destruct (ki_clients w Hinv m c k Hm Hk) as (t & Htm & Hok). exists t.
    pose proof (lookup_lt_Some _ _ _ Hm). by rewrite Ht, lookup_insert_ne by lia.
  - exists t'. by rewrite Ht, lookup_insert_eq.
  - intros m t. rewrite Ht, lookup_insert_Some. intros [[<- _]|[_ Hm]]; [lia|by apply (ki_threads w Hinv m t)].
Qed.

Lemma keep_inv_service w b :
  keep_inv w → (∃ lin L, run_inv b lin L) → cells_of b = cells_of (base w) → threads b = threads (base w) →
  keep_inv (mkClientTest b (clients w)).
Proof.
  intros Hinv Hb Ec Ht. destruct (ki_reader w Hinv) as (t & Htc & Hi). apply (keep_inv_reader w b t); try done. by rewrite Ht, insert_id.
Qed.

Lemma keep_thread_cases w n t : keep_inv w → threads (base w) !! n = Some t → t_pc t ≠ TIdle →
  (∃ cl k, clients w !! n = Some (inl cl) ∧ keys !! n = Some k ∧ keeper_ok k (cells_of (base w) !! k) (inl cl) (t_pc t)) ∨
  (n = length (clients w) ∧ match t_pc t with TPut _ _ _ _ _ _ => False | _ => True end).
Proof.
  intros Hinv Ht Hne. destruct (clients w !! n) as [cl|] eqn:Hn.
  - left. destruct (lookup_lt_is_Some_2 keys n) as [k Hk]; [rewrite (ki_keys w Hinv); by eapply lookup_lt_Some|].
    destruct (ki_clients w Hinv n cl k Hn Hk) as (t' & Ht' & Hok). simplify_eq. destruct cl as [cl|rs]; [by exists cl, k|by destruct Hne].
  - right. apply lookup_ge_None in Hn. pose proof (ki_threads w Hinv n t Ht).
    assert (n = length (clients w)) as -> by lia. split; [done|].
    destruct (ki_reader w Hinv) as (t' & Ht' & Hok). by simplify_eq.
Qed.

(** What a put on the client's key does. *)
Lemma keep_put_cases (w : KeepTest) args s e : pa_Version args ≤ cell_version (cells_of (base w) !! pa_Key args) → 0 ≤ pa_Version args →
  kv_put args (svc (base w)) = Some (s, e) →
  (∀ k, k ≠ pa_Key args → kv_cells s !! k = cells_of (base w) !! k) ∧
  (e = OK ∧ pa_Version args = cell_version (cells_of (base w) !! pa_Key args) ∧
     kv_cells s !! pa_Key args = Some (mkKVPair (pa_Value args) (pa_Version args + 1)) ∧ pa_Version args + 1 < 2 ^ 64 ∨
   e = ErrVersion ∧ pa_Version args ≠ cell_version (cells_of (base w) !! pa_Key args) ∧
     kv_cells s !! pa_Key args = cells_of (base w) !! pa_Key args).
Proof.
  intros Hle Hpos Hput. destruct (kv_put_cells _ _ _ _ Hput) as [(-> & Ev & Es)|(He & Hne & Es)]; rewrite Es.
  - split; [intros k Hk; by rewrite lookup_insert_ne|]. left. rewrite lookup_insert_eq. split_and!; try done. by apply (kv_put_room _ _ _ Hput).
  - split; [done|]. right. split_and!; try done. apply (kv_put_refused _ _ _ _ Hput); [done|].
    unfold cells_of in *. destruct (kv_cells (svc (base w)) !! pa_Key args); [done|]. unfold cell_version in *. simpl in *. lia.
Qed.

(** A put of the client is at a version that its key has reached. *)
Lemma keeper_put_reached k c cl id cli st args f r : keeper_ok k c (inl cl) (TPut id cli st args f r) →
  pa_Key args = k ∧ 0 ≤ pa_Version args ≤ cell_version c.
Proof.
  intros (value & ver & _ & Hv & Hk & _ & <- & Hcase)%keeper_put. split; [done|]. destruct Hcase as [[-> _]|(-> & _)]; [lia|]. unfold cell_version. simpl. lia.
Qed.

Lemma keep_put_exec w b n : keep_inv w → test_step (TPutExec n) (base w) = Some b → (∃ lin L, run_inv b lin L) →
  keep_inv (mkClientTest b (clients w)).
Proof.
  intros Hinv Hstep Hb. simpl in Hstep. destruct (threads (base w) !! n) as [t|] eqn:Ht; simpl in Hstep; [|done].
  destruct (t_pc t) as [| |id cli st args f [e|]| |] eqn:Ep; try done.
  destruct (kv_put args (svc (base w))) as [[s e]|] eqn:Eput; simplify_eq/=.
  destruct (keep_thread_cases w n t Hinv Ht) as [(cl & k & Hn & Hk & Hok)|[_ Hok]]; rewrite Ep in *; [done| |done].
  destruct (keeper_put_reached _ _ _ _ _ _ _ _ _ Hok) as [<- Hr].
  destruct (keep_put_cases w args s e ltac:(lia) ltac:(lia) Eput) as [Hother Hcase].
  apply (keep_inv_thread w _ n (pa_Key args) (mkThread (t_ck t) (TPut id cli st args f (Some e))) cl); try done.
  by apply (keeper_exec _ _ _ _ _ _ _ _ _ _ _ Hok Hcase).
Qed.

(** A request of an earlier attempt: its put is still going on, or it is refused. *)
Lemma keep_stray w b i : keep_inv w → test_step (TPutStray i) (base w) = Some b → (∃ lin L, run_inv b lin L) →
  keep_inv (mkClientTest b (clients w)).
Proof.
  intros Hinv Hstep Hb. simpl in Hstep. destruct (strays (base w) !! i) as [[id args]|] eqn:Ei; simpl in Hstep; [|done].
  destruct (kv_put args (svc (base w))) as [[s e]|] eqn:Eput; simplify_eq/=. apply list_elem_of_lookup_2 in Ei.
  destruct (ki_base w Hinv) as (lin & L & Hrun).
  destruct (kv_put_cells _ _ _ _ Eput) as [(_ & Ev & _)|(_ & _ & Es)]; [|by apply keep_inv_service].
  destruct (ri_strays _ _ _ Hrun id args Ei) as [Hp|(n & t & cli & st & r & Ht & Ep)]; [unfold passed in Hp; lia|].
  destruct (keep_thread_cases w n t Hinv Ht) as [(cl & k & Hn & Hk & Hok)|[_ Hok]]; [by rewrite Ep| |by rewrite Ep in Hok]. rewrite Ep in Hok.
  destruct (keeper_put_reached _ _ _ _ _ _ _ _ _ Hok) as [<- Hr].
  destruct (keep_put_cases w args s e ltac:(lia) ltac:(lia) Eput) as [Hother Hcase].
  apply (keep_inv_thread w _ n (pa_Key args) t cl); try done; [by rewrite insert_id|]. rewrite Ep.
  by apply (keeper_exec _ _ _ _ _ _ _ _ _ _ _ Hok Hcase).
Qed.

Lemma keep_get_exec w b n : keep_inv w → test_step (TGetExec n) (base w) = Some b → (∃ lin L, run_inv b lin L) →
  keep_inv (mkClientTest b (clients w)).
Proof.
  intros Hinv Hstep Hb. simpl in Hstep. destruct (threads (base w) !! n) as [t|] eqn:Ht; simpl in Hstep; [|done].
  destruct (t_pc t) as [|id cli st args [r|]| | |] eqn:Ep; try done. injection Hstep as <-.
  match goal with |- keep_inv (mkClientTest ?b _) => assert (Ec : cells_of b = cells_of (base w)) by apply kv_get_cells end.
  set (x := reading_of (ga_Key args) (svc (base w))) in *.
  destruct (keep_thread_cases w n t Hinv Ht) as [(cl & k & Hn & Hk & Hok)|[-> Hok]]; rewrite Ep in *; [done|..].
  - apply (keep_inv_thread w _ n k (mkThread (t_ck t) (TGet id cli st args (Some x))) cl); rewrite ?Ec; try done.
    destruct (keeper_get _ _ _ _ _ _ _ _ Hok) as (value & ver & _ & Hga & Hc & _ & Hkeep). apply Hkeep. split; [done|].
    intros y [= <-]. unfold x, reading_of, cells_of in *. by rewrite Hga, Hc.
  - by apply (keep_inv_reader w _ (mkThread (t_ck t) (TGet id cli st args (Some x)))).
Qed.

Lemma keep_put_lost w b n : keep_inv w → test_step (TPutLost n) (base w) = Some b → (∃ lin L, run_inv b lin L) →
  keep_inv (mkClientTest b (clients w)).
Proof.
  intros Hinv Hstep Hb. simpl in Hstep. destruct (threads (base w) !! n) as [t|] eqn:Ht; simpl in Hstep; [|done].
  destruct (t_pc t) as [| |id cli st args f r| |] eqn:Ep; try done. injection Hstep as <-.
  destruct (keep_thread_cases w n t Hinv Ht) as [(cl & k & Hn & Hk & Hok)|[_ Hok]]; rewrite Ep in *; [done| |done].
  apply (keep_inv_thread w _ n k (mkThread (t_ck t) (TPut id cli st args false None)) cl); try done. by apply keeper_lost in Hok.
Qed.

Lemma keep_return w b n : keep_inv w → test_step (TReturn n) (base w) = Some b → (∃ lin L, run_inv b lin L) →
  keep_inv (mkClientTest b (clients w)).
Proof.
  intros Hinv Hstep Hb. simpl in Hstep. destruct (threads (base w) !! n) as [t|] eqn:Ht; simpl in Hstep; [|done].
  destruct (end_call (now (base w)) (t_pc t)) as [[[id op] r]|] eqn:Ee; simplify_eq/=.
  assert (Hne : t_pc t ≠ TIdle) by (intros Ei; by rewrite Ei in Ee).
  destruct (keep_thread_cases w n t Hinv Ht Hne) as [(cl & k & Hn & Hk & Hok)|[-> Hok]]; [|by apply (keep_inv_reader w _ (mkThread (t_ck t) (TLog id op r)))].
  apply (keep_inv_thread w _ n k (mkThread (t_ck t) (TLog id op r)) cl); try done.
  destruct (t_pc t) as [|id' cli st args [x|]|id' cli st args f [e|]| |]; simplify_eq/=; [|by eapply keeper_return_put].
  destruct (keeper_get _ _ _ _ _ _ _ _ Hok) as (value & ver & _ & _ & _ & Hx & Hkeep). apply Hkeep. by apply Hx.
Qed.

Lemma keep_append w b n : keep_inv w → test_step (TAppend n) (base w) = Some b → (∃ lin L, run_inv b lin L) →
  keep_inv (mkClientTest b (clients w)).
Proof.
  intros Hinv Hstep Hb. simpl in Hstep. destruct (threads (base w) !! n) as [t|] eqn:Ht; simpl in Hstep; [|done].
  destruct (t_pc t) as [| | |id op r|] eqn:Ep; try done. injection Hstep as <-.
  destruct (keep_thread_cases w n t Hinv Ht) as [(cl & k & Hn & Hk & Hok)|[-> Hok]]; rewrite Ep in *; [done|..].
  - apply (keep_inv_thread w _ n k (mkThread (t_ck t) (TRet r)) cl); try done. by apply keeper_log in Hok.
  - by apply (keep_inv_reader w _ (mkThread (t_ck t) (TRet r))).
Qed.

Lemma keep_base_event ev w b :
  keep_inv w → match ev with TCall _ _ _ => False | _ => True end → test_step ev (base w) = Some b → keep_inv (mkClientTest b (clients w)).
Proof.
  intros Hinv Hev Hstep. pose proof (ki_base w Hinv) as (lin & L & Hrun).
  assert (Hb : ∃ lin L, run_inv b lin L) by (apply (test_step_inv ev (base w) b lin L); [done|by destruct ev|done]).
  destruct ev as [d|n cli c|n|args|n|n|i|n|n]; [|done|by apply (keep_get_exec w b n)| |by apply (keep_put_exec w b n)|by apply (keep_put_lost w b n)|
    by apply (keep_stray w b i)|by apply (keep_return w b n)|by apply (keep_append w b n)]; injection Hstep as <-; apply keep_inv_service; try done.
  unfold cells_of. simpl. by rewrite kv_get_cells.
Qed.

(** ** The code of the client between its calls *)

Definition keep_act (k : string) (c : option KVPair) (me : Z) (act : Act Keeper) : Prop :=
  match act with
  | Do call cl =>
      (∀ k' v ver, call = CallPut k' v ver → k' = k ∧ 0 ≤ ver ≤ cell_version c) ∧
      ∀ id now ck, keeper_ok k c (inl cl) (t_pc (begin_call id me now call ck))
  | Go cl => keeper_ok k c (inl cl) TIdle
  | Finish rs => True
  | Fatalf _ => False
  end.

Lemma in_step_version c value ver : in_step c value ver → 0 ≤ ver ∧ cell_version c = ver.
Proof. intros [[-> ->]|[H ->]]; unfold cell_version; simpl; lia. Qed.

Lemma Keep_ok me ch cl k c p r act :
  keys !! Z.to_nat me = Some k → keeper_ok k c (inl cl) p → pending p = Some r → Keep me ch cl r = Some act → keep_act k c me act.
Proof.
  intros Hk Hok Hr Hact. unfold Keep in Hact. rewrite Hk in Hact. cbn [mbind option_bind] in Hact. simpl in Hok. destruct (k_pc cl) as [|value ver|value ver] eqn:Epc.
  - destruct Hok as [-> Hin]. injection Hr as <-. destruct (c_done ch); injection Hact as <-; [done|].
    destruct (in_step_version _ _ _ Hin) as [Hv Hc]. split; [intros k' v ver [= <- _ <-]; split; [done|lia]|].
    intros id now ck. simpl. split_and!; try done. left. by split.
  - destruct Hok as [Hv Hput]. destruct p as [| | | |[|e]]; try done. injection Hr as <-. destruct Hput as (Hc & Hroom & He).
    assert (Hw : wrap_u64 (ver + 1) = ver + 1) by (unfold wrap_u64; rewrite Z.mod_small; lia).
    unfold PutAtLeastOnce in Hact. destruct He as [-> | ->]; simpl in Hact; rewrite Hw in Hact; injection Hact as <-.
    + split; [done|]. intros id now ck. simpl. split_and!; try done; [lia|]. right. split; [lia|done].
    + split; [intros k' v ver' [= <- _ <-]; split; [done|rewrite Hc; unfold cell_version; simpl; lia]|].
      intros id now ck. simpl. split; [lia|]. split_and!; try done. left. by rewrite Hc.
  - destruct Hok as (H1 & H2 & Hpos & Hin & Hget). destruct p as [| | | |r']; try done. injection Hr as <-. simpl in Hget. subst r'.
    unfold CheckGet in Hact. rewrite decide_True, bool_decide_true, Z.eqb_refl in Hact by done. injection Hact as <-.
    simpl. split; [done|]. by rewrite H1, H2.
Qed.

Lemma keep_step w ev o :
  keep_inv w → client_step Keep rel key ev w = Some o → ∃ w', o = inl w' ∧ keep_inv w'.
Proof.
  intros Hinv Hstep. destruct (ki_base w Hinv) as (lin & L & Hrun). destruct ev as [n ch| |ev]; cbn [client_step] in Hstep.
  - destruct (clients w !! n) as [cl|] eqn:Hn; cbn [mbind option_bind] in Hstep; [|done].
    destruct (lookup_lt_is_Some_2 keys n) as [k Hk]; [rewrite (ki_keys w Hinv); by eapply lookup_lt_Some|].
    destruct (ki_clients w Hinv n cl k Hn Hk) as (t & Ht & Hok). rewrite Ht in Hstep. cbn [mbind option_bind] in Hstep.
    destruct cl as [cl|]; [|done]. destruct (pending (t_pc t)) as [r|] eqn:Hr; cbn [mbind option_bind] in Hstep; [|done].
    destruct (Keep _ _ _ _) as [act|] eqn:Hact; cbn [mbind option_bind] in Hstep; [|done].
    assert (Ha : keep_act k (cells_of (base w) !! k) (Z.of_nat n) act) by (eapply Keep_ok; [by rewrite Nat2Z.id|done..]).
    assert (Hidle : ∀ cl', keeper_ok k (cells_of (base w) !! k) cl' TIdle →
      keep_inv (mkClientTest (set_thread n (mkThread (t_ck t) TIdle) (base w)) (<[n := cl']> (clients w)))).
    { intros cl' Hcl. apply (keep_inv_client w _ n k (mkThread (t_ck t) TIdle) cl); try done. exists lin, L. by apply run_inv_idle. }
    destruct act as [c cl'|cl'|rs|msg]; [|injection Hstep as <-; eexists; split; [done|]; by apply Hidle..|done].
    destruct Ha as [Hreach Hcl']. rewrite (call_step (base w) n t (Z.of_nat n) c Ht ltac:(by rewrite Hr)) in Hstep.
    injection Hstep as <-. eexists. split; [done|].
    apply (keep_inv_client w _ n k (begin_call (ncalls (base w)) (Z.of_nat n) (now (base w)) c (t_ck t)) cl); try done.
    exists lin, L. apply step_call; [done|done|by destruct (t_pc t)|]. destruct c as [|k' v ver]; [done|]. simpl.
    destruct (Hreach k' v ver eq_refl) as [-> Hv]. unfold cells_of in Hv. apply andb_true_iff. split; apply Z.leb_le; lia.
  - destruct (finished w) eqn:Hf; [|done]. destruct (ki_reader w Hinv) as (t & Ht & Hok).
    assert (Hp : is_Some (pending (t_pc t))).
    { simpl in Hstep. rewrite Ht in Hstep. simpl in Hstep. destruct (t_pc t); try done; by eexists. }
    rewrite (call_step (base w) _ t _ _ Ht Hp) in Hstep. injection Hstep as <-. eexists. split; [done|].
    apply (keep_inv_reader w _ (begin_call (ncalls (base w)) (-1) (now (base w)) (CallGet key) (t_ck t))); try done.
    exists lin, L. destruct Hp. apply step_call; [done|done|by destruct (t_pc t)|done].
  - assert (∃ b, test_step ev (base w) = Some b ∧ o = inl (mkClientTest b (clients w)) ∧
      match ev with TCall _ _ _ => False | _ => True end) as (b & Hb & -> & Hev).
    { destruct ev; try done; try (destruct rel; [done|]); simpl in *;
        match type of Hstep with (mbind _ ?x) = _ => destruct x as [b|]; simplify_eq/=; eauto | _ => simplify_eq/=; eauto end. }
    eexists. split; [done|]. by apply (keep_base_event ev).
Qed.

Lemma keep_run evs : ∀ w o, keep_inv w → client_run Keep rel key evs w = Some o → ∃ w', o = inl w' ∧ keep_inv w'.
Proof.
  induction evs as [|ev evs IH]; intros w o Hinv Hrun; simpl in Hrun; [injection Hrun as <-; eauto|].
  destruct (client_step Keep rel key ev w) as [o1|] eqn:E1; [|done]. destruct (keep_step w ev o1 Hinv E1) as (w1 & -> & Hinv1). by apply (IH w1).
Qed.

Lemma keep_spawn_inv start cks ck : length keys = length cks → keep_inv (spawn start cks ck Keep_start).
Proof.
  intros Hlen.
  assert (Hth : ∀ m, map_seq (M := gmap nat Thread) 0 ((λ ck, mkThread ck TIdle) <$> (cks ++ [ck])) !! m =
    (λ ck, mkThread ck TIdle) <$> ((cks ++ [ck]) !! m)) by (intros m; by rewrite lookup_map_seq_0, list_lookup_fmap).
  split; unfold spawn; simpl; rewrite ?length_replicate; try done.
  - exists [], []. apply MakeTest_inv.
  - intros n cl k [-> Hlt]%lookup_replicate Hk. destruct (lookup_lt_is_Some_2 cks n Hlt) as [c Hc]. exists (mkThread c TIdle).
    rewrite Hth, lookup_app_l, Hc by done. split; [done|]. simpl. split; [done|]. left. split; [done|].
    unfold cells_of. simpl. by rewrite kv_init_cells, lookup_empty.
  - exists (mkThread ck TIdle). rewrite Hth, lookup_app_r, Nat.sub_diag by lia. done.
  - intros n t. rewrite Hth. destruct ((cks ++ [ck]) !! n) as [c|] eqn:E; [|done]. intros _.
    apply lookup_lt_Some in E. rewrite length_app in E. simpl in E. lia.
Qed.

(** Puts at least once.  Clients on keys of their own call PutAtLeastOnce, hand the version
    that it returns to CheckGet and to their next put, over a network that loses, delays
    and retransmits as it likes.  No run is stopped by a Fatalf: between two rounds the
    service has exactly the value and the version that the client knows.  Whenever no call
    is going on, the recorded history passes [checkPorcupine]. *)
Theorem put_at_least_once_passes check start cks ck evs o :
  length keys = length cks → porcupine_sound check →
  client_run Keep rel key evs (spawn (S := S) start cks ck Keep_start) = Some o →
  ∃ w, o = inl w ∧
    (∀ n cl k, clients w !! n = Some (inl cl) → keys !! n = Some k → k_pc cl = KLoop →
      in_step (kv_cells (svc (base w)) !! k) (k_value cl) (k_ver cl)) ∧
    (all_returned (base w) → ∃ log, oplog (base w) = Some log ∧ checkPorcupine check log = None).
Proof.
  intros Hlen Hcheck Hrun. destruct (keep_run evs _ o (keep_spawn_inv start cks ck Hlen) Hrun) as (w & -> & Hinv).
  exists w. split; [done|]. split.
  - intros n cl k Hn Hk Epc. destruct (ki_clients w Hinv n (inl cl) k Hn Hk) as (t & _ & Hok). simpl in Hok. rewrite Epc in Hok. apply Hok.
  - intros Hret. destruct (ki_base w Hinv) as (lin & L & Hbase). exists L.*2. split; [apply Hbase|]. by apply (returned_passes check (base w) lin).
Qed.
End keeper.

(** ** PutAtLeastOnceJson *)

(** It puts at version 0, whatever [ver] is; what it does when the put returned [err]. *)
Definition PutAtLeastOnceJson {A} `{!Json A} (key : string) (v : A) (ver : Tversion) : KVCall * (Err → Again) :=
  (PutJson key v 0, λ err, if decide (err = ErrMaybe) then Again_at (wrap_u64 (ver + 1)) else Return ver).

(** On a key that is there it returns without having put anything. *)
Theorem PutAtLeastOnceJson_puts_nothing {A S} `{!Json A, !KVService S} key (v : A) ver (s : S) p args s' e :
  kv_cells s !! key = Some p → 0 < version p → args = mkPutArgs key (json_marshal v) 0 (pa_ClientId args) (pa_SeqNum args) →
  kv_put args s = Some (s', e) →
  (PutAtLeastOnceJson key v ver).1 = CallPut key (pa_Value args) (pa_Version args) ∧
  (PutAtLeastOnceJson key v ver).2 (put_err true e) = Return ver ∧ kv_cells s' = kv_cells s.
Proof.
  intros Hp Hpos -> Hput. split; [done|]. destruct (kv_put_cells _ _ _ _ Hput) as [(_ & Ev & _)|(He & _ & Es)].
  - simpl in Ev. rewrite Hp in Ev. unfold cell_version in Ev. simpl in Ev. lia.
  - split; [|done]. rewrite (kv_put_refused _ _ _ _ Hput He) by (simpl; rewrite Hp; by eexists). done.
Qed.

(** ** A run: the reply of a put is lost, so it is put twice *)

Definition keep_round (n : nat) : list ClientEvent :=
  [CStep n go_on; CBase (TPutExec n); CBase (TPutLost n); CBase (TPutExec n)] ++ finish_call n ++
  [CStep n go_on; CBase (TPutExec n)] ++ finish_call n ++ [CStep n go_on; CBase (TGetExec n)] ++ finish_call n ++ [CStep n go_on].

Definition keep_start : ClientTest (S := list Req) := spawn 100 [mkClerk 1 0; mkClerk 2 0] (mkClerk 3 0) Keep_start.
Definition keep_end : ClientTest :=
  match client_run (Keep ["x"; "y"] (λ _, "v")) false "x" (keep_round 0 ++ keep_round 1 ++ [CStep 1 stop]) keep_start with
  | Some (inl w) => w
  | _ => keep_start
  end.

Example keep_twice :
  clients keep_end = [inl (mkKeeper KLoop "v" 2); inr (mkClntRes 0 0)] ∧
  (kv_cells (svc (base keep_end)) !! "x") = Some (mkKVPair "v" 2) ∧ (kv_cells (svc (base keep_end)) !! "y") = Some (mkKVPair "v" 2).
Proof. split_and!; vm_compute; reflexivity. Qed.
