(* ===== verification/RSM.v ===== *)
(** * kvraft1/rsm: the replicated state machine on top of Raft

    rsm.go of src/src/kvraft1/rsm.  The service it replicates and the Raft it
    runs on are interfaces in the source ([StateMachine] of rsm.go and
    [raftapi.Raft]); here they are type classes, and the theorems hold for every
    instance.  A [PendingOp] is shared by the map and by the goroutine that waits
    for it, so pending operations live in a heap and the map holds pointers.
    Every critical section is a function; [RsmWorld] interleaves those of the
    reader, of any number of [Submit] calls, of [Kill] and of Raft. *)

From S2P Require Import Prelude KVSrv RaftNode RaftWf RaftOps RaftRepl Cluster.
Local Open Scope Z_scope.
Local Open Scope go_scope.

Record Op {req : Type} := mkOp { Me : Z; Id : Z; Req : req }.
Arguments Op : clear implicits.
Arguments mkOp {req}.
Arguments Me {req}.
Arguments Id {req}.
Arguments Req {req}.

(** ** Interfaces *)

(** [StateMachine] of rsm.go.  [None] is a panic.  [sm_equiv] relates the states
    that answer alike every request that [sm_fresh] admits; taking and restoring
    a snapshot gives an equivalent state. *)
Class StateMachine (S req rep : Type) := {
  sm_init : S;
  DoOp : req → S → option (S * rep);
  sm_Snapshot : S → bytes;
  sm_Restore : bytes → S → option S
}.

Class StateMachineLaws (S req rep : Type) `{!StateMachine S req rep} := {
  sm_wf : S → Prop;
  sm_equiv : relation S;
  sm_fresh : S → req → Prop;
  sm_equiv_equivalence : Equivalence sm_equiv;
  sm_init_wf : sm_wf sm_init;
  sm_op r s s0 : sm_wf s → sm_wf s0 → sm_equiv s s0 → sm_fresh s0 r →
    ∃ s' s0' a, DoOp r s = Some (s', a) ∧ DoOp r s0 = Some (s0', a) ∧ sm_wf s' ∧ sm_wf s0' ∧ sm_equiv s' s0';
  sm_restore s s0 : sm_wf s →
    ∃ s', sm_Restore (sm_Snapshot s) s0 = Some s' ∧ sm_wf s' ∧ sm_equiv s' s
}.
#[export] Existing Instance sm_equiv_equivalence.

(** [raftapi.Raft], and [raft.Make].  [ra_applied] is how far Raft has delivered. *)
Class RaftApi (R cmd : Type) := {
  ra_Make : Z → Z → Persister → option R;
  ra_Start : option cmd → R → option (R * (Z * Z * bool));
  ra_GetState : R → Z * bool;
  ra_Snapshot : Z → bytes → R → option R;
  ra_PersistBytes : R → Z;
  ra_Kill : R → R;
  ra_ok : R → Prop;
  ra_applied : R → Z;
  ra_Start_ok c r : ra_ok r → ∃ r' x, ra_Start c r = Some (r', x) ∧ ra_ok r' ∧ ra_applied r' = ra_applied r;
  ra_Snapshot_ok i b r : ra_ok r → i ≤ ra_applied r →
    ∃ r', ra_Snapshot i b r = Some r' ∧ ra_ok r' ∧ ra_applied r' = ra_applied r;
  ra_Kill_ok r : ra_ok r → ra_ok (ra_Kill r) ∧ ra_applied (ra_Kill r) = ra_applied r
}.

(** The Raft of this repository. *)
#[export, refine] Instance raft_api {cmd} `{!Gob (PersistedState cmd)} : RaftApi (Raft cmd) cmd := {|
  ra_Make := Make;
  ra_Start := Start;
  ra_GetState := GetState;
  ra_Snapshot i b := Snapshot i (Some b);
  ra_PersistBytes := PersistBytes;
  ra_Kill := Kill;
  ra_ok rf := raft_wf (peers rf) rf;
  ra_applied := lastApplied
|}.
Proof.
  - intros c rf Hwf. destruct (Start_wf (peers rf) c rf Hwf) as (rf' & x & E & Hwf' & _ & _ & _ & _ & _ & Ha & _).
    exists rf', x. rewrite (wf_peers _ _ Hwf'). done.
  - intros i b rf Hwf Hi.
    destruct (Snapshot_wf (peers rf) i (Some b) rf Hwf Hi) as (rf' & E & Hwf' & _ & _ & _ & _ & _ & Ha & _).
    exists rf'. rewrite (wf_peers _ _ Hwf'). done.
  - intros rf Hwf. split; [apply (Kill_wf _ _ Hwf)|done].
Defined.

Section rsm.
Context {R S req rep : Type} `{!StateMachine S req rep} `{!RaftApi R (Op req)} `{!Gob (Z * Z * bytes)}.

(** ** State *)

(** [done] is a channel with room for one value. *)
Record PendingOp := mkPendingOp { po_op : Op req; po_result : option rep; po_done : option bool }.

(** [shutdown] and the closing of [shutdownCh] happen together, under the lock. *)
Record RSM := mkRSM {
  rsm_me : Z;
  rf : R;
  maxraftstate : Z;
  sm : S;
  opId : Z;
  rsm_lastApplied : Z;
  pendingOps : gmap Z nat;
  heap : gmap nat PendingOp;
  nextPtr : nat;
  shutdown : bool
}.

Definition set_rf v r := mkRSM (rsm_me r) v (maxraftstate r) (sm r) (opId r) (rsm_lastApplied r) (pendingOps r) (heap r) (nextPtr r) (shutdown r).
Definition set_sm v r := mkRSM (rsm_me r) (rf r) (maxraftstate r) v (opId r) (rsm_lastApplied r) (pendingOps r) (heap r) (nextPtr r) (shutdown r).
Definition set_opId v r := mkRSM (rsm_me r) (rf r) (maxraftstate r) (sm r) v (rsm_lastApplied r) (pendingOps r) (heap r) (nextPtr r) (shutdown r).
Definition set_applied v r := mkRSM (rsm_me r) (rf r) (maxraftstate r) (sm r) (opId r) v (pendingOps r) (heap r) (nextPtr r) (shutdown r).
Definition set_pendingOps v r := mkRSM (rsm_me r) (rf r) (maxraftstate r) (sm r) (opId r) (rsm_lastApplied r) v (heap r) (nextPtr r) (shutdown r).
Definition set_heap v r := mkRSM (rsm_me r) (rf r) (maxraftstate r) (sm r) (opId r) (rsm_lastApplied r) (pendingOps r) v (nextPtr r) (shutdown r).
Definition set_shutdown v r := mkRSM (rsm_me r) (rf r) (maxraftstate r) (sm r) (opId r) (rsm_lastApplied r) (pendingOps r) (heap r) (nextPtr r) v.

(** [select { case pendingOp.done <- b: default: }] *)
Definition notify (b : bool) (po : PendingOp) : PendingOp :=
  match po_done po with
  | Some _ => po
  | None => mkPendingOp (po_op po) (po_result po) (Some b)
  end.

Definition send_done (p : nat) (b : bool) (r : RSM) : RSM := set_heap (alter (notify b) p (heap r)) r.

(** ** MakeRSM *)

Definition MakeRSM (npeers me : Z) (persister : Persister) (maxraftstate : Z) (sm0 : S) : option RSM :=
  rf ← ra_Make npeers me persister;
  let rsm := mkRSM me rf maxraftstate sm0 0 0 ∅ ∅ 0 false in
  if 0 <=? maxraftstate then
    let snapshot := ReadSnapshot persister in
    if 0 <? go_len snapshot then
      match (gob_decode snapshot : option (Z * Z * bytes)) with
      | None => None
      | Some (opId, lastApplied, smSnapshot) =>
          sm' ← sm_Restore smSnapshot (sm rsm);
          Some (set_sm sm' (set_applied lastApplied (set_opId opId rsm)))
      end
    else Some rsm
  else Some rsm.

(** ** Shutdown *)

Definition isShutdown (r : RSM) : bool := shutdown r.

Definition notifyPendingOps (b : bool) (r : RSM) : RSM :=
  map_fold (λ _ p r, send_done p b r) r (pendingOps r).

Definition doShutdown (r : RSM) : RSM :=
  let r := set_shutdown true r in
  let r := notifyPendingOps false r in
  set_pendingOps ∅ r.

Definition handleShutdown (r : RSM) : RSM := doShutdown r.

Definition KillRSM (r : RSM) : RSM :=
  let r := doShutdown r in
  set_rf (ra_Kill (rf r)) r.

(** ** Submit

    [doSubmit] between its blocking points: the new [Op], the call of [Start],
    the registration, one turn of [waitForResult], and the final [delete]. *)

Definition doSubmit_op (q : req) (r : RSM) : RSM * option (Op req) :=
  if isShutdown r then (r, None)
  else
    let id := wrap_i64 (opId r + 1) in
    (set_opId id r, Some (mkOp (rsm_me r) id q)).

Definition doSubmit_start (op : Op req) (r : RSM) : option (RSM * (Z * Z * bool)) :=
  '(rf', res) ← ra_Start (Some op) (rf r);
  Some (set_rf rf' r, res).

Definition doSubmit_register (op : Op req) (index : Z) (r : RSM) : RSM * option nat :=
  if isShutdown r then (r, None)
  else
    let r := match pendingOps r !! index with Some p => send_done p false r | None => r end in
    let p := nextPtr r in
    (mkRSM (rsm_me r) (rf r) (maxraftstate r) (sm r) (opId r) (rsm_lastApplied r)
       (<[index := p]> (pendingOps r)) (<[p := mkPendingOp op None None]> (heap r)) (Datatypes.S p) (shutdown r),
     Some p).

(** The cases of the [select]; [WaitShutdown] is also the deadline check at the
    head of the loop. *)
Inductive WaitCase := WaitShutdown | WaitDone | WaitTimeout.

(** [None]: the case is not ready.  The second component is the result, if the
    loop ends. *)
Definition waitForResult (p : nat) (initialTerm : Z) (case : WaitCase) (r : RSM)
    : option (RSM * option (Err * option rep)) :=
  match case with
  | WaitShutdown => if isShutdown r then Some (r, Some (ErrWrongLeader, None)) else None
  | WaitDone =>
      po ← heap r !! p;
      res ← po_done po;
      let r := set_heap (<[p := mkPendingOp (po_op po) (po_result po) None]> (heap r)) r in
      Some (r, Some (if (res : bool) then (OK, po_result po) else (ErrWrongLeader, None)))
  | WaitTimeout =>
      if isShutdown r then Some (r, Some (ErrWrongLeader, None))
      else
        let '(currentTerm, isLeader) := ra_GetState (rf r) in
        if negb isLeader || negb (currentTerm =? initialTerm)
        then Some (r, Some (ErrWrongLeader, None))
        else Some (r, None)
  end.

Definition doSubmit_finish (index : Z) (r : RSM) : RSM := set_pendingOps (delete index (pendingOps r)) r.

(** ** The reader *)

(** What [applyCommand] does to the operation pending at the index. *)
Definition answer (op : Op req) (result : rep) (index : Z) (r : RSM) : RSM :=
  match pendingOps r !! index with
  | Some p =>
      match heap r !! p with
      | Some po =>
          if (Id (po_op po) =? Id op) && (Me (po_op po) =? rsm_me r)
          then send_done p true (set_heap (<[p := mkPendingOp (po_op po) (Some result) (po_done po)]> (heap r)) r)
          else send_done p false r
      | None => r
      end
  | None => r
  end.

(** The index to snapshot at, if the log has grown too big. *)
Definition applyCommand (command : option (Op req)) (index : Z) (r : RSM) : option (RSM * option Z) :=
  op ← command;
  if index <=? rsm_lastApplied r then Some (r, None)
  else
    '(sm', result) ← DoOp (Req op) (sm r);
    let r := set_applied index (set_sm sm' r) in
    let r := answer op result index r in
    let shouldSnapshot := (0 <? maxraftstate r) && (maxraftstate r * 9 / 10 <? ra_PersistBytes (rf r)) in
    Some (r, if shouldSnapshot then Some index else None).

Definition createSnapshot (index : Z) (r : RSM) : option RSM :=
  let snapshotIndex := rsm_lastApplied r in
  if snapshotIndex <? index then Some r
  else
    let w := gob_encode (opId r, snapshotIndex, sm_Snapshot (sm r)) in
    rf' ← ra_Snapshot snapshotIndex w (rf r);
    Some (set_rf rf' r).

Definition applySnapshot (snapshot : bytes) (index : Z) (r : RSM) : option RSM :=
  if index <=? rsm_lastApplied r then Some r
  else
    match (gob_decode snapshot : option (Z * Z * bytes)) with
    | None => None
    | Some (opId, snapshotIndex, smSnapshot) =>
        if negb (snapshotIndex =? index) then None
        else
          let r := set_applied index (set_opId opId r) in
          sm' ← sm_Restore smSnapshot (sm r);
          let r := set_sm sm' r in
          Some (map_fold (λ i p r, if i <=? index then send_done p false r else r) r (pendingOps r))
    end.

(** One message from applyCh. *)
Definition reader (msg : ApplyMsg (Op req)) (r : RSM) : option (RSM * option Z) :=
  if shutdown r then Some (r, None)
  else
    match msg with
    | CommandMsg command index => applyCommand command index r
    | SnapshotMsg snapshot _ index => r' ← applySnapshot snapshot index r; Some (r', None)
    end.

(** ** The world of one replica *)

(** Where a [Submit] is. *)
Inductive SubPc :=
  | SubNew
  | SubOp (op : Op req)
  | SubStarted (op : Op req) (index term : Z)
  | SubWait (op : Op req) (p : nat) (index term : Z)
  | SubFinish (op : Op req) (index : Z) (res : Err * option rep)
  | SubDone (op : option (Op req)).

(** [s_ret] is what [Submit] gave its caller: the result of [doSubmit], unless
    the two-second timeout or the shutdown came first. *)
Record Sub := mkSub { s_req : req; s_pc : SubPc; s_ret : option (Err * option rep) }.

(** [toSnapshot] is the reader between [applyCommand] and [createSnapshot].
    [applied] and [handed] record what was executed and which snapshots were
    given to Raft. *)
Record RsmWorld := mkRsmWorld {
  node : RSM;
  subs : gmap nat Sub;
  toSnapshot : option Z;
  applied : list (Z * Op req * rep);
  handed : list (Z * bytes)
}.

Inductive RsmEvent :=
  | ESubmit (t : nat) (q : req)
  | EStep (t : nat) (case : WaitCase)
  | ETimeout (t : nat)
  | EMsg (msg : ApplyMsg (Op req))
  | EClosed
  | ECreateSnapshot
  | EKill
  | ERaft (rf : R).

Definition set_node v w := mkRsmWorld v (subs w) (toSnapshot w) (applied w) (handed w).
Definition set_sub t v w := mkRsmWorld (node w) (<[t := v]> (subs w)) (toSnapshot w) (applied w) (handed w).

Definition give (res : Err * option rep) (ret : option (Err * option rep)) : option (Err * option rep) :=
  match ret with Some _ => ret | None => Some res end.

(** One step of a [Submit]. *)
Definition sub_step (t : nat) (case : WaitCase) (w : RsmWorld) : outcome RsmWorld :=
  sub <~ enabled (subs w !! t) ;;
  let wrongLeader op := mkSub (s_req sub) (SubDone op) (give (ErrWrongLeader, None) (s_ret sub)) in
  match s_pc sub with
  | SubNew =>
      let '(r, o) := doSubmit_op (s_req sub) (node w) in
      Next (set_sub t (match o with
                      | Some op => mkSub (s_req sub) (SubOp op) (s_ret sub)
                      | None => wrongLeader None
                      end) (set_node r w))
  | SubOp op =>
      x <~ run_go (doSubmit_start op (node w)) ;;
      let '(r, (index, term, isLeader)) := (x : RSM * (Z * Z * bool)) in
      Next (set_sub t (if (isLeader : bool) then mkSub (s_req sub) (SubStarted op index term) (s_ret sub)
                      else wrongLeader (Some op)) (set_node r w))
  | SubStarted op index term =>
      let '(r, o) := doSubmit_register op index (node w) in
      Next (set_sub t (match o with
                      | Some p => mkSub (s_req sub) (SubWait op p index term) (s_ret sub)
                      | None => wrongLeader (Some op)
                      end) (set_node r w))
  | SubWait op p index term =>
      x <~ enabled (waitForResult p term case (node w)) ;;
      let '(r, o) := (x : RSM * option (Err * option rep)) in
      Next (set_sub t (match o with
                      | Some res => mkSub (s_req sub) (SubFinish op index res) (s_ret sub)
                      | None => sub
                      end) (set_node r w))
  | SubFinish op index res =>
      Next (set_sub t (mkSub (s_req sub) (SubDone (Some op)) (give res (s_ret sub)))
             (set_node (doSubmit_finish index (node w)) w))
  | SubDone _ => Disabled
  end.

(** What a message makes the replica execute. *)
Definition executes (msg : ApplyMsg (Op req)) (r : RSM) : list (Z * Op req * rep) :=
  match msg with
  | CommandMsg (Some op) index =>
      if shutdown r || (index <=? rsm_lastApplied r) then []
      else match DoOp (Req op) (sm r) with Some (_, a) => [(index, op, a)] | None => [] end
  | _ => []
  end.

Definition rsm_step (ev : RsmEvent) (w : RsmWorld) : outcome RsmWorld :=
  match ev with
  | ESubmit t q =>
      match subs w !! t with
      | Some _ => Disabled
      | None =>
          Next (set_sub t (if shutdown (node w) then mkSub q (SubDone None) (Some (ErrWrongLeader, None))
                          else mkSub q SubNew None) w)
      end
  | EStep t case => sub_step t case w
  | ETimeout t =>
      sub <~ enabled (subs w !! t) ;;
      Next (set_sub t (mkSub (s_req sub) (s_pc sub) (give (ErrWrongLeader, None) (s_ret sub))) w)
  | EMsg msg =>
      match toSnapshot w with
      | Some _ => Disabled
      | None =>
          x <~ run_go (reader msg (node w)) ;;
          let '(r, snap) := (x : RSM * option Z) in
          Next (mkRsmWorld r (subs w) snap (executes msg (node w) ++ applied w) (handed w))
      end
  | EClosed => Next (set_node (handleShutdown (node w)) w)
  | ECreateSnapshot =>
      index <~ enabled (toSnapshot w) ;;
      r <~ run_go (createSnapshot index (node w)) ;;
      let b := gob_encode (opId (node w), rsm_lastApplied (node w), sm_Snapshot (sm (node w))) in
      Next (mkRsmWorld r (subs w) None (applied w)
             (if rsm_lastApplied (node w) <? index then handed w else (rsm_lastApplied (node w), b) :: handed w))
  | EKill => Next (set_node (KillRSM (node w)) w)
  | ERaft rf' => Next (set_node (set_rf rf' (node w)) w)
  end.

Fixpoint rsm_run (evs : list RsmEvent) (w : RsmWorld) : outcome RsmWorld :=
  match evs with [] => Next w | ev :: evs => w <~ rsm_step ev w ;; rsm_run evs w end.

Definition rsm_start (r : RSM) : RsmWorld := mkRsmWorld r ∅ None [] [].

(** ** What a successful Submit means *)

(** A pending operation has only results of executed operations with its id. *)
Definition answered (app : list (Z * Op req * rep)) (po : PendingOp) : Prop :=
  (∀ a, po_result po = Some a → ∃ i op', (i, op', a) ∈ app ∧ Id op' = Id (po_op po)) ∧
  (po_done po = Some true → is_Some (po_result po)).

Definition node_inv (app : list (Z * Op req * rep)) (r : RSM) : Prop :=
  (∀ p po, heap r !! p = Some po → answered app po) ∧ (∀ p, (nextPtr r ≤ p)%nat → heap r !! p = None).

(** [r'] has the pending operations of [r], and perhaps more. *)
Definition extends (r r' : RSM) : Prop :=
  rsm_me r' = rsm_me r ∧
  ∀ p po, heap r !! p = Some po → ∃ po', heap r' !! p = Some po' ∧ po_op po' = po_op po.

Definition node_step (app : list (Z * Op req * rep)) (r r' : RSM) : Prop := node_inv app r' ∧ extends r r'.

Lemma extends_refl r : extends r r.
Proof. split; [done|]. eauto. Qed.

Lemma extends_trans r1 r2 r3 : extends r1 r2 → extends r2 r3 → extends r1 r3.
Proof.
  intros [M1 H1] [M2 H2]. split; [congruence|]. intros p po Hp. destruct (H1 p po Hp) as (po2 & Hp2 & E2).
  destruct (H2 p po2 Hp2) as (po3 & Hp3 & E3). exists po3. split; congruence.
Qed.

Lemma answered_mono app x po : answered app po → answered (x ++ app) po.
Proof.
  intros [H1 H2]. split; [|done]. intros a Ha. destruct (H1 a Ha) as (i & op' & Hin & E).
  exists i, op'. split; [apply elem_of_app; by right|done].
Qed.

Lemma node_inv_mono app x r : node_inv app r → node_inv (x ++ app) r.
Proof. intros [H1 H2]. split; [|done]. intros p po Hp. by eapply answered_mono, H1. Qed.

(** Replacing one pending operation by one of the same [Op]. *)
Lemma node_step_update app r p po po' :
  node_inv app r → heap r !! p = Some po → po_op po' = po_op po → answered app po' →
  node_step app r (set_heap (<[p := po']> (heap r)) r).
Proof.
  intros [H1 H2] Hp E Ha. split; [split|split; [done|]]; simpl.
  - intros q x. rewrite lookup_insert_Some. intros [[<- <-]|[_ Hq]]; [done|by apply (H1 q)].
  - intros q Hq. rewrite lookup_insert_ne by (intros ->; by rewrite H2 in Hp). by apply H2.
  - intros q x Hq. destruct (decide (p = q)) as [<-|Hne].
    + exists po'. rewrite lookup_insert_eq. split; [done|congruence].
    + exists x. by rewrite lookup_insert_ne.
Qed.

Lemma send_done_step app p b r :
  node_inv app r → (∀ po, b = true → heap r !! p = Some po → is_Some (po_result po)) →
  node_step app r (send_done p b r).
Proof.
  intros Hinv Hb. unfold send_done. destruct (heap r !! p) as [po|] eqn:Hp.
  - assert (E : alter (notify b) p (heap r) = <[p := notify b po]> (heap r)).
    { apply map_eq. intros q. destruct (decide (p = q)) as [<-|Hne].
      - by rewrite lookup_alter_eq, Hp, lookup_insert_eq.
      - by rewrite lookup_alter_ne, lookup_insert_ne. }
    rewrite E. destruct (proj1 Hinv p po Hp) as [A1 A2].
    apply (node_step_update _ _ _ po); [done|done|unfold notify; by destruct (po_done po)|].
    unfold notify. destruct (po_done po) as [b'|] eqn:Ed; [split; [done|by rewrite Ed]|].
    split; [done|]. simpl. intros [= ->]. by apply (Hb po).
  - rewrite alter_id by (intros x; congruence). destruct r. split; [done|apply extends_refl].
Qed.

Lemma send_false_step app p r : node_inv app r → node_step app r (send_done p false r).
Proof. intros Hinv. by apply send_done_step. Qed.

(** A loop over the pending operations that notifies some of them. *)
Lemma notify_all_step app (g : Z → bool) r (m : gmap Z nat) :
  node_inv app r →
  node_step app r (map_fold (λ i p r, if g i then send_done p false r else r) r m).
Proof.
  intros Hinv. apply (map_fold_weak_ind (λ r' _, node_step app r r')); [split; [done|apply extends_refl]|].
  intros i p m' r' _ [Hi He]. destruct (g i); [|done]. destruct (send_false_step app p r' Hi) as [Hi' He'].
  split; [done|by eapply extends_trans].
Qed.

Lemma doShutdown_step app r : node_inv app r → node_step app r (doShutdown r).
Proof.
  intros Hinv. unfold doShutdown, notifyPendingOps.
  apply (notify_all_step app (λ _, true) (set_shutdown true r) (pendingOps r)) in Hinv as [H1 H2].
  split; [exact H1|exact H2].
Qed.

Lemma answer_step app op a i r :
  node_inv app r → node_step ((i, op, a) :: app) r (answer op a i r).
Proof.
  intros Hinv. apply (node_inv_mono _ [(i, op, a)]) in Hinv. simpl in Hinv. unfold answer.
  assert (Hrefl : node_step ((i, op, a) :: app) r r) by (split; [done|apply extends_refl]).
  destruct (pendingOps r !! i) as [p|]; [|done]. destruct (heap r !! p) as [po|] eqn:Hp; [|done].
  destruct (Z.eqb_spec (Id (po_op po)) (Id op)) as [Eid|]; simpl; [|by apply send_false_step].
  destruct (_ =? rsm_me r); [|by apply send_false_step].
  destruct (node_step_update ((i, op, a) :: app) r p po (mkPendingOp (po_op po) (Some a) (po_done po))) as [H1 H2]; try done.
  { split; [|by eexists]. intros x [= <-]. exists i, op. split; [by left|done]. }
  destruct (send_done_step ((i, op, a) :: app) p true (set_heap (<[p := mkPendingOp (po_op po) (Some a) (po_done po)]> (heap r)) r)) as [H3 H4].
  - done.
  - simpl. intros x _. rewrite lookup_insert_eq. intros [= <-]. by eexists.
  - split; [done|by eapply extends_trans].
Qed.

Lemma node_step_same app r r' :
  heap r' = heap r → nextPtr r' = nextPtr r → rsm_me r' = rsm_me r → node_inv app r → node_step app r r'.
Proof.
  intros Eh En Em [H1 H2]. split; [split; rewrite Eh, ?En; done|split; [done|]]. rewrite Eh. eauto.
Qed.

Lemma node_step_trans app r1 r2 r3 : extends r1 r2 → node_step app r2 r3 → node_step app r1 r3.
Proof. intros H1 [H2 H3]. split; [done|by eapply extends_trans]. Qed.

Lemma applySnapshot_step app b i r r' :
  applySnapshot b i r = Some r' → node_inv app r → node_step app r r'.
Proof.
  unfold applySnapshot. destruct (i <=? rsm_lastApplied r); [intros [= <-] H; split; [done|apply extends_refl]|].
  destruct (gob_decode b) as [[[oid idx] ss]|]; [|done]. destruct (negb _); [done|].
  cbn [sm set_applied set_opId]. destruct (sm_Restore ss (sm r)) as [sm'|]; [|done]. bind_simpl. intros [= <-] H.
  eapply (node_step_trans _ _ (set_sm sm' (set_applied i (set_opId oid r)))); [split; [done|eauto]|].
  by apply notify_all_step.
Qed.

Lemma applyCommand_step app c i r r' o :
  applyCommand c i r = Some (r', o) → shutdown r = false → node_inv app r →
  node_step (executes (CommandMsg c i) r ++ app) r r'.
Proof.
  unfold applyCommand, executes. destruct c as [op|]; simpl; [|done]. intros E Hs Hinv. rewrite Hs. simpl.
  destruct (i <=? rsm_lastApplied r); [injection E as <- <-; split; [done|apply extends_refl]|].
  destruct (DoOp (Req op) (sm r)) as [[sm' a]|]; [|done]. simpl in E. injection E as <- _.
  apply (node_step_trans _ _ (set_applied i (set_sm sm' r))); [split; [done|eauto]|]. by apply answer_step.
Qed.

Lemma reader_step app msg r r' o :
  reader msg r = Some (r', o) → node_inv app r → node_step (executes msg r ++ app) r r'.
Proof.
  unfold reader. destruct (shutdown r) eqn:Hs.
  - intros [= <- <-] Hinv. assert (executes msg r = []) as -> by (unfold executes; rewrite Hs; by destruct msg as [[]|]).
    split; [done|apply extends_refl].
  - destruct msg as [c i|b t i]; [by intros; eapply applyCommand_step|].
    destruct (applySnapshot b i r) as [x|] eqn:E; simpl; [|done]. intros [= <- <-] Hinv. by eapply applySnapshot_step.
Qed.

Lemma register_step app op i r r' o :
  doSubmit_register op i r = (r', o) → node_inv app r →
  node_step app r r' ∧ ∀ p, o = Some p → ∃ po, heap r' !! p = Some po ∧ po_op po = op.
Proof.
  unfold doSubmit_register. destruct (isShutdown r); [intros [= <- <-] H; split; [split; [done|apply extends_refl]|done]|].
  set (r1 := match pendingOps r !! i with Some _ => _ | None => _ end). intros E Hinv.
  assert (H1 : node_step app r r1).
  { unfold r1. destruct (pendingOps r !! i); [by apply send_false_step|split; [done|apply extends_refl]]. }
  clearbody r1. injection E as <- <-. split.
  - apply (node_step_trans _ _ r1); [apply H1|]. destruct H1 as [[H1 H2] _]. split; [split|split; [done|]]; simpl.
    + intros p po. rewrite lookup_insert_Some. intros [[<- <-]|[_ Hp]]; [by split|by apply (H1 p)].
    + intros p Hp. rewrite lookup_insert_ne by lia. apply H2. lia.
    + intros p po Hp. destruct (decide (nextPtr r1 = p)) as [<-|Hne]; [by rewrite H2 in Hp|].
      exists po. by rewrite lookup_insert_ne.
  - intros p [= <-]. eexists. simpl. by rewrite lookup_insert_eq.
Qed.

(** The reply [r] of [op] is the result of an executed operation with its id. *)
Definition own_answer (app : list (Z * Op req * rep)) (op : Op req) (r : option rep) : Prop :=
  ∃ i op' a, r = Some a ∧ (i, op', a) ∈ app ∧ Id op' = Id op.

Lemma own_answer_mono app x op r : own_answer app op r → own_answer (x ++ app) op r.
Proof. intros (i & o & a & H1 & H2 & H3). exists i, o, a. split_and!; try done. apply elem_of_app. by right. Qed.

Lemma wait_step app p term case r r' o op :
  waitForResult p term case r = Some (r', o) → node_inv app r →
  (∃ po, heap r !! p = Some po ∧ po_op po = op) →
  node_step app r r' ∧ ∀ a, o = Some (OK, a) → own_answer app op a.
Proof.
  intros E Hinv (po & Hp & <-). assert (Hrefl : node_step app r r) by (split; [done|apply extends_refl]).
  destruct case; simpl in E.
  - destruct (isShutdown r); [|done]. injection E as <- <-. split; [done|]. by intros a [=].
  - rewrite Hp in E. simpl in E. destruct (po_done po) as [res|] eqn:Ed; [|done]. simpl in E. injection E as <- <-.
    destruct (proj1 Hinv p po Hp) as [A1 A2]. split.
    + by apply (node_step_update _ _ _ po).
    + intros a. destruct res; [|done]. intros [= <-]. destruct (A2 Ed) as [x Hx].
      destruct (A1 x Hx) as (i & op' & Hin & Eid). by exists i, op', x.
  - destruct (isShutdown r); [injection E as <- <-; split; [done|by intros a [=]]|].
    destruct (ra_GetState (rf r)) as [ct il].
    destruct (_ || _); injection E as <- <-; (split; [done|]); by intros a [=].
Qed.

Definition sub_op (pc : SubPc) : option (Op req) :=
  match pc with
  | SubNew => None
  | SubOp op | SubStarted op _ _ | SubWait op _ _ _ | SubFinish op _ _ => Some op
  | SubDone o => o
  end.

Record sub_ok (app : list (Z * Op req * rep)) (r : RSM) (sub : Sub) : Prop := {
  so_op op : sub_op (s_pc sub) = Some op → Req op = s_req sub ∧ Me op = rsm_me r;
  so_wait op p i t : s_pc sub = SubWait op p i t → ∃ po, heap r !! p = Some po ∧ po_op po = op;
  so_finish op i a : s_pc sub = SubFinish op i (OK, a) → own_answer app op a;
  so_ret a : s_ret sub = Some (OK, a) → ∃ op, s_pc sub = SubDone (Some op) ∧ own_answer app op a
}.

Definition submit_inv (w : RsmWorld) : Prop :=
  node_inv (applied w) (node w) ∧ map_Forall (λ _, sub_ok (applied w) (node w)) (subs w).

Lemma sub_ok_mono app x r r' sub : extends r r' → sub_ok app r sub → sub_ok (x ++ app) r' sub.
Proof.
  intros [Em He] [H1 H2 H3 H4]. constructor.
  - rewrite Em. done.
  - intros op p i t E. destruct (H2 op p i t E) as (po & Hp & <-). by apply He.
  - intros op i a E. by eapply own_answer_mono, H3.
  - intros a E. destruct (H4 a E) as (op & Ep & Ha). exists op. split; [done|by apply own_answer_mono].
Qed.

(** Steps that change no [Submit]. *)
Lemma submit_inv_node w r x snap h :
  submit_inv w → node_step (x ++ applied w) (node w) r →
  submit_inv (mkRsmWorld r (subs w) snap (x ++ applied w) h).
Proof.
  intros [_ Hs] [Hn He]. split; [done|]. simpl. intros t sub Ht. apply (sub_ok_mono _ _ (node w)); [done|].
  by apply (Hs t).
Qed.

(** Steps of one [Submit]. *)
Lemma submit_inv_sub w r t sub :
  submit_inv w → node_step (applied w) (node w) r → sub_ok (applied w) r sub →
  submit_inv (set_sub t sub (set_node r w)).
Proof.
  intros Hinv Hstep Hsub. destruct (submit_inv_node w r [] (toSnapshot w) (handed w) Hinv Hstep) as [Hn Hs].
  simpl in *. split; [done|]. simpl. apply map_Forall_insert_2; done.
Qed.

Lemma give_OK res ret a : give res ret = Some (OK, a) → ret = Some (OK, a) ∨ (ret = None ∧ res = (OK, a)).
Proof. destruct ret; simpl; intros [=]; subst; auto. Qed.

(** A [Submit] that moves on without having returned. *)
Lemma sub_ok_intro app r q pc ret :
  (∀ op, sub_op pc = Some op → Req op = q ∧ Me op = rsm_me r) →
  (∀ op p i t, pc = SubWait op p i t → ∃ po, heap r !! p = Some po ∧ po_op po = op) →
  (∀ op i a, pc = SubFinish op i (OK, a) → own_answer app op a) →
  (∀ a, ret = Some (OK, a) → ∃ op, pc = SubDone (Some op) ∧ own_answer app op a) →
  sub_ok app r (mkSub q pc ret).
Proof. by constructor. Qed.

Lemma sub_step_inv t case w w' : sub_step t case w = Next w' → submit_inv w → submit_inv w'.
Proof.
  intros Hstep Hinv. pose proof Hinv as [Hn Hs]. unfold sub_step in Hstep.
  destruct (subs w !! t) as [[q pc ret]|] eqn:Ht; simpl in Hstep; [|done].
  destruct (Hs t _ Ht) as [S1 S2 S3 S4]. simpl in *.
  assert (Hret : (∀ op, pc ≠ SubDone op) → ∀ a, ret ≠ Some (OK, a)).
  { intros Hpc a E. destruct (S4 a E) as (op & Ep & _). by apply (Hpc (Some op)). }
  assert (Hgive : (∀ op, pc ≠ SubDone op) → ∀ a, give (ErrWrongLeader, None) ret ≠ Some (OK, a)).
  { intros Hpc a [E|[_ [=]]]%give_OK. by apply (Hret Hpc a). }
  assert (Hrefl : node_step (applied w) (node w) (node w)) by (split; [done|apply extends_refl]).
  destruct pc as [|op|op i term|op p i term|op i res|o]; simpl in *.
  - unfold doSubmit_op in Hstep. destruct (isShutdown (node w)); injection Hstep as <-;
      (apply submit_inv_sub; [done|by apply node_step_same|]).
    + apply sub_ok_intro; try done. intros a E. by destruct (Hgive ltac:(done) a).
    + apply sub_ok_intro; try done; [by intros op [= <-]|]. intros a E. by destruct (Hret ltac:(done) a).
  - unfold doSubmit_start in Hstep. destruct (ra_Start _ _) as [[rf' [[i term] il]]|]; simpl in Hstep; [|done].
    injection Hstep as <-. apply submit_inv_sub; [done|by apply node_step_same|].
    destruct il; apply sub_ok_intro; simpl; try done; intros a E.
    + by destruct (Hret ltac:(done) a).
    + by destruct (Hgive ltac:(done) a).
  - destruct (doSubmit_register op i (node w)) as [r o] eqn:Er. injection Hstep as <-.
    destruct (register_step _ _ _ _ _ _ Er Hn) as [Hr Hp]. apply submit_inv_sub; try done.
    assert (Hop : ∀ op0, Some op = Some op0 → Req op0 = q ∧ Me op0 = rsm_me r).
    { intros ? [= <-]. rewrite (proj1 (proj2 Hr)). by apply S1. }
    destruct o as [p|]; apply sub_ok_intro; simpl; try done.
    + intros op0 p0 i0 t0 [= <- <- <- <-]. by apply Hp.
    + intros a E. by destruct (Hret ltac:(done) a).
    + intros a E. by destruct (Hgive ltac:(done) a).
  - destruct (waitForResult p term case (node w)) as [[r o]|] eqn:Ew; simpl in Hstep; [|done]. injection Hstep as <-.
    destruct (wait_step _ _ _ _ _ _ _ op Ew Hn (S2 op p i term eq_refl)) as [Hr Ha]. apply submit_inv_sub; try done.
    destruct o as [res|].
    + apply sub_ok_intro; simpl; try done.
      * intros ? [= <-]. rewrite (proj1 (proj2 Hr)). by apply S1.
      * intros op0 i0 a [= <- <- ->]. by apply Ha.
      * intros a E. by destruct (Hret ltac:(done) a).
    + eapply (sub_ok_mono _ []); [apply Hr|]. by constructor.
  - injection Hstep as <-. apply submit_inv_sub; [done|by apply node_step_same|]. apply sub_ok_intro; simpl; try done.
    intros a [E|[_ ->]]%give_OK; [by destruct (Hret ltac:(done) a)|]. exists op. split; [done|by apply (S3 op i)].
  - done.
Qed.

Lemma rsm_step_inv ev w w' : rsm_step ev w = Next w' → submit_inv w → submit_inv w'.
Proof.
  intros Hstep Hinv. pose proof Hinv as [Hn Hs].
  assert (Hrefl : node_step (applied w) (node w) (node w)) by (split; [done|apply extends_refl]).
  destruct ev as [t q|t case|t|msg| | | |rf']; simpl in Hstep.
  - destruct (subs w !! t); [done|]. injection Hstep as <-. apply (submit_inv_sub w (node w)); try done.
    by destruct (shutdown (node w)); apply sub_ok_intro.
  - by eapply sub_step_inv.
  - destruct (subs w !! t) as [[q pc ret]|] eqn:Ht; simpl in Hstep; [|done]. injection Hstep as <-.
    apply (submit_inv_sub w (node w)); try done. destruct (Hs t _ Ht) as [S1 S2 S3 S4]. constructor; try done; simpl in *.
    intros a [E|[_ [=]]]%give_OK. by apply S4.
  - destruct (toSnapshot w); [done|]. destruct (reader msg (node w)) as [[r o]|] eqn:Er; simpl in Hstep; [|done].
    injection Hstep as <-. apply submit_inv_node; [done|]. by eapply reader_step.
  - injection Hstep as <-. apply (submit_inv_node w _ []); [done|]. by apply doShutdown_step.
  - destruct (toSnapshot w) as [i|]; simpl in Hstep; [|done]. unfold createSnapshot in Hstep.
    destruct (_ <? i); simpl in Hstep; [injection Hstep as <-; by apply (submit_inv_node w _ [])|].
    destruct (ra_Snapshot _ _ _) as [rf'|]; simpl in Hstep; [|done]. injection Hstep as <-.
    apply (submit_inv_node w _ []); [done|]. by apply node_step_same.
  - injection Hstep as <-. apply (submit_inv_node w _ []); [done|]. unfold KillRSM.
    destruct (doShutdown_step (applied w) (node w) Hn) as [H1 H2]. apply (node_step_trans _ _ (doShutdown (node w))); [done|].
    by apply node_step_same.
  - injection Hstep as <-. apply (submit_inv_node w _ []); [done|]. by apply node_step_same.
Qed.

Lemma rsm_run_inv evs w w' : rsm_run evs w = Next w' → submit_inv w → submit_inv w'.
Proof.
  revert w. induction evs as [|ev evs IH]; intros w; simpl; [by intros [= ->]|].
  destruct (rsm_step ev w) as [w1| |] eqn:E; simpl; try done. intros Hr Hi. apply (IH w1); [done|]. by eapply rsm_step_inv.
Qed.

(** A replica as [MakeRSM] leaves it. *)
Definition fresh_rsm (r : RSM) : Prop := heap r = ∅ ∧ pendingOps r = ∅ ∧ shutdown r = false.

Lemma MakeRSM_fresh n me ps mx sm0 r : MakeRSM n me ps mx sm0 = Some r → fresh_rsm r.
Proof.
  unfold MakeRSM. destruct (ra_Make n me ps) as [rf0|]; [|done]. bind_simpl.
  destruct (0 <=? mx); [|by intros [= <-]]. destruct (0 <? _); [|by intros [= <-]].
  destruct (gob_decode _) as [[[oid la] ss]|]; [|done]. simpl. destruct (sm_Restore ss sm0); simpl; [|done]. by intros [= <-].
Qed.

Lemma MakeRSM_fields n me ps mx sm0 r :
  MakeRSM n me ps mx sm0 = Some r → rsm_me r = me ∧ maxraftstate r = mx ∧ ra_Make n me ps = Some (rf r).
Proof.
  unfold MakeRSM. destruct (ra_Make n me ps) as [rf0|]; [|done]. bind_simpl.
  destruct (0 <=? mx); [|by intros [= <-]]. destruct (0 <? _); [|by intros [= <-]].
  destruct (gob_decode _) as [[[oid la] ss]|]; [|done]. simpl. destruct (sm_Restore ss sm0); simpl; [|done]. by intros [= <-].
Qed.

Lemma rsm_start_inv r : fresh_rsm r → submit_inv (rsm_start r).
Proof.
  intros [Eh _]. split; [split; simpl; rewrite Eh|simpl; apply map_Forall_empty].
  - intros p po. by rewrite lookup_empty.
  - intros p _. apply lookup_empty.
Qed.

(** C16 (A successful Submit reports an executed operation).  When Submit returns
    OK, its result is that of an operation this replica executed whose id is the
    one Submit had drawn; when no two executed operations share an id with the
    submitted one, that is the submitted operation itself. *)
Theorem submit_ok_executed r evs w t sub res :
  fresh_rsm r → rsm_run evs (rsm_start r) = Next w →
  subs w !! t = Some sub → s_ret sub = Some (OK, res) →
  ∃ op index op' a, s_pc sub = SubDone (Some op) ∧ Req op = s_req sub ∧ Me op = rsm_me (node w) ∧
    res = Some a ∧ (index, op', a) ∈ applied w ∧ Id op' = Id op ∧
    ((∀ i o x, (i, o, x) ∈ applied w → Id o = Id op → o = op) → op' = op).
Proof.
  intros Hf Hrun Ht Hret. destruct (rsm_run_inv _ _ _ Hrun (rsm_start_inv r Hf)) as [_ Hs].
  destruct (Hs t sub Ht) as [S1 _ _ S4]. destruct (S4 res Hret) as (op & Ep & i & op' & a & -> & Hin & Eid).
  destruct (S1 op) as [Eq Em]; [by rewrite Ep|]. exists op, i, op', a. split_and!; try done.
  intros Huniq. by apply (Huniq i op' a).
Qed.

(** ** The replica follows the log *)

Context `{!StateMachineLaws S req rep}.

(** The specification: the operations of the log, executed one after the other. *)
Definition replay (l : list (Op req)) : option S :=
  foldl (λ s op, s ← s; '(s', _) ← DoOp (Req op) s; Some s') (Some sm_init) l.

(** Every operation of the log is one the service answers. *)
Definition log_ok (log : list (Op req)) : Prop :=
  ∀ i op, log !! i = Some op → ∃ s, replay (take i log) = Some s ∧ sm_wf s ∧ sm_fresh s (Req op).

(** [b] is a snapshot of the log up to [i]. *)
Definition snap_ok (log : list (Op req)) (b : bytes) (i : Z) : Prop :=
  ∃ oid s s0, b = gob_encode (oid, i, sm_Snapshot s) ∧ 0 ≤ i ≤ go_len log ∧ sm_wf s ∧
    replay (take (Z.to_nat i) log) = Some s0 ∧ sm_wf s0 ∧ sm_equiv s s0.

(** A snapshot says which index it is of. *)
Lemma snap_ok_index log b i j : snap_ok log b i → snap_ok log b j → i = j.
Proof.
  intros (oid & s & _ & -> & _) (oid' & t & _ & Ej & _). apply (f_equal (gob_decode (A := Z * Z * bytes))) in Ej.
  rewrite !gob_decode_encode in Ej. by injection Ej.
Qed.

(** What the replica relies on: Raft delivers the commands of the log in order,
    and snapshots of the log. *)
Definition ev_ok (log : list (Op req)) (w : RsmWorld) (ev : RsmEvent) : Prop :=
  match ev with
  | EMsg (CommandMsg c i) =>
      (∃ op, c = Some op ∧ log !! Z.to_nat (i - 1) = Some op) ∧
      1 ≤ i ≤ rsm_lastApplied (node w) + 1 ∧ i ≤ ra_applied (rf (node w))
  | EMsg (SnapshotMsg b _ i) => snap_ok log b i ∧ i ≤ ra_applied (rf (node w))
  | ERaft rf' => ra_ok rf' ∧ ra_applied (rf (node w)) ≤ ra_applied rf'
  | _ => True
  end.

Record rsm_ok (log : list (Op req)) (r : RSM) : Prop := {
  ro_raft : ra_ok (rf r);
  ro_bound : 0 ≤ rsm_lastApplied r ≤ go_len log;
  ro_applied : rsm_lastApplied r ≤ ra_applied (rf r);
  ro_wf : sm_wf (sm r);
  ro_equiv : ∃ s0, replay (take (Z.to_nat (rsm_lastApplied r)) log) = Some s0 ∧ sm_wf s0 ∧ sm_equiv (sm r) s0
}.

Record replica_ok (log : list (Op req)) (w : RsmWorld) : Prop := {
  rp_node : rsm_ok log (node w);
  rp_applied i op a : (i, op, a) ∈ applied w →
    log !! Z.to_nat (i - 1) = Some op ∧
    ∃ s s', replay (take (Z.to_nat (i - 1)) log) = Some s ∧ DoOp (Req op) s = Some (s', a);
  rp_handed i b : (i, b) ∈ handed w → snap_ok log b i
}.

(** What a step may change of [rsm_ok]. *)
Definition core (r : RSM) : R * Z * S := (rf r, rsm_lastApplied r, sm r).

Lemma rsm_ok_core log r r' : core r' = core r → rsm_ok log r → rsm_ok log r'.
Proof. unfold core. intros [= E1 E2 E3] [H1 H2 H3 H4 H5]. constructor; rewrite ?E1, ?E2, ?E3; done. Qed.

Lemma rsm_ok_raft log r rf' :
  ra_ok rf' → ra_applied (rf r) ≤ ra_applied rf' → rsm_ok log r → rsm_ok log (set_rf rf' r).
Proof. intros H1 H2 [H3 H4 H5 H6 H7]. constructor; simpl; try done. lia. Qed.

Lemma send_done_core p b r : core (send_done p b r) = core r.
Proof. done. Qed.

Lemma notify_all_core (g : Z → bool) r (m : gmap Z nat) :
  core (map_fold (λ i p r, if g i then send_done p false r else r) r m) = core r.
Proof.
  apply (map_fold_weak_ind (λ r' _, core r' = core r)); [done|]. intros i p m' r' _ <-. by destruct (g i).
Qed.

Lemma doShutdown_core r : core (doShutdown r) = core r.
Proof. exact (notify_all_core (λ _, true) (set_shutdown true r) (pendingOps r)). Qed.

Lemma answer_core op a i r : core (answer op a i r) = core r.
Proof. unfold answer. repeat case_match; done. Qed.

Lemma answer_fields op a i r :
  maxraftstate (answer op a i r) = maxraftstate r ∧ opId (answer op a i r) = opId r.
Proof. unfold answer. repeat case_match; done. Qed.

Lemma register_core op i r : core (doSubmit_register op i r).1 = core r.
Proof. unfold doSubmit_register. repeat case_match; done. Qed.

Lemma wait_core p term case r r' o : waitForResult p term case r = Some (r', o) → core r' = core r.
Proof.
  destruct case; simpl.
  - destruct (isShutdown r); [|done]. by intros [= <- <-].
  - destruct (heap r !! p) as [po|]; simpl; [|done]. destruct (po_done po); simpl; [|done]. by intros [= <- <-].
  - destruct (isShutdown r); [by intros [= <- <-]|]. destruct (ra_GetState _). by destruct (_ || _); intros [= <- <-].
Qed.

Lemma replay_snoc l op s :
  replay l = Some s → replay (l ++ [op]) = ('(s', _) ← DoOp (Req op) s; Some s').
Proof. intros E. unfold replay in *. by rewrite foldl_app, E. Qed.

Lemma take_snoc_Z (log : list (Op req)) i op :
  1 ≤ i → log !! Z.to_nat (i - 1) = Some op →
  take (Z.to_nat i) log = take (Z.to_nat (i - 1)) log ++ [op] ∧ i ≤ go_len log.
Proof.
  intros Hi Hl. replace (Z.to_nat i) with (Datatypes.S (Z.to_nat (i - 1))) by lia. split; [by apply take_S_r|].
  apply lookup_lt_Some in Hl. unfold go_len. lia.
Qed.

Lemma applyCommand_ok log op i r :
  log_ok log → rsm_ok log r → log !! Z.to_nat (i - 1) = Some op →
  1 ≤ i ≤ rsm_lastApplied r + 1 → i ≤ ra_applied (rf r) →
  ∃ r' o, applyCommand (Some op) i r = Some (r', o) ∧ rsm_ok log r' ∧
    (rsm_lastApplied r < i → ∃ s s' a, replay (take (Z.to_nat (i - 1)) log) = Some s ∧
       DoOp (Req op) s = Some (s', a) ∧ (∃ x, DoOp (Req op) (sm r) = Some (x, a))).
Proof.
  intros Hlog Hr Hl Hi Hra. unfold applyCommand. simpl. destruct (Z.leb_spec i (rsm_lastApplied r)).
  { exists r, None. split_and!; [done|done|lia]. }
  assert (Ei : i = rsm_lastApplied r + 1) by lia. destruct (ro_equiv _ _ Hr) as (s0 & E0 & W0 & Q0).
  replace (rsm_lastApplied r) with (i - 1) in E0 by lia.
  destruct (Hlog _ _ Hl) as (s1 & E1 & _ & Hfresh). assert (s1 = s0) as -> by congruence.
  destruct (sm_op (Req op) (sm r) s0 (ro_wf _ _ Hr) W0 Q0 Hfresh) as (s' & s0' & a & Ea & Ea0 & W' & W0' & Q').
  rewrite Ea. bind_simpl. eexists _, _. split; [done|].
  destruct (take_snoc_Z log i op) as [Et Hlen]; [lia|done|]. split; [|intros _; exists s0, s0', a; eauto].
  apply (rsm_ok_core _ (set_applied i (set_sm s' r))); [apply answer_core|]. destruct Hr as [R1 R2 R3 R4 R5].
  constructor; simpl; try done; [lia|]. exists s0'. rewrite Et, (replay_snoc _ _ s0), Ea0 by done. done.
Qed.

Lemma applySnapshot_ok log b i r :
  rsm_ok log r → snap_ok log b i → i ≤ ra_applied (rf r) →
  ∃ r', applySnapshot b i r = Some r' ∧ rsm_ok log r'.
Proof.
  intros Hr (oid & s & s0 & -> & Hi & W & E0 & W0 & Q0) Hra. unfold applySnapshot.
  destruct (i <=? rsm_lastApplied r); [by exists r|]. rewrite gob_decode_encode, Z.eqb_refl. simpl.
  destruct (sm_restore s (sm r) W) as (s' & E & W' & Q). rewrite E. bind_simpl. eexists. split; [done|].
  eapply rsm_ok_core; [apply (notify_all_core (λ j, j <=? i))|]. destruct Hr as [R1 R2 R3 R4 R5].
  constructor; simpl; try done. exists s0. split_and!; try done. by transitivity s.
Qed.

Lemma reader_ok log msg w :
  log_ok log → replica_ok log w → ev_ok log w (EMsg msg) →
  ∃ r o, reader msg (node w) = Some (r, o) ∧ rsm_ok log r ∧
    ∀ i op a, (i, op, a) ∈ executes msg (node w) → log !! Z.to_nat (i - 1) = Some op ∧
      ∃ s s', replay (take (Z.to_nat (i - 1)) log) = Some s ∧ DoOp (Req op) s = Some (s', a).
Proof.
  intros Hlog [Hr _ _] Hev. unfold reader. destruct (shutdown (node w)) eqn:Hs.
  { exists (node w), None. split_and!; try done. intros i op a. unfold executes.
    destruct msg as [[op'|] j|]; rewrite ?Hs; simpl; by intros ?%elem_of_nil. }
  destruct msg as [c i|b t i]; simpl in Hev.
  - destruct Hev as ((op & -> & Hl) & Hi & Hra).
    destruct (applyCommand_ok log op i (node w) Hlog Hr Hl Hi Hra) as (r & o & -> & Hr' & Hx).
    exists r, o. split_and!; try done. intros j op' a. unfold executes. rewrite Hs. simpl.
    destruct (Z.leb_spec i (rsm_lastApplied (node w))); [by intros ?%elem_of_nil|].
    destruct Hx as (s & s' & a' & E & Ea & x & Ex); [lia|]. rewrite Ex. intros [= -> -> ->]%list_elem_of_singleton. eauto.
  - destruct Hev as [Hsn Hra]. destruct (applySnapshot_ok log b i (node w) Hr Hsn Hra) as (r & -> & Hr').
    exists r, None. split_and!; try done. simpl. by intros j op a ?%elem_of_nil.
Qed.

Lemma replica_ok_node log w r :
  rsm_ok log r → replica_ok log w → replica_ok log (set_node r w).
Proof. intros H [_ H2 H3]. by constructor. Qed.

Lemma replica_ok_sub log w r t sub :
  core r = core (node w) → replica_ok log w → replica_ok log (set_sub t sub (set_node r w)).
Proof. intros E [H1 H2 H3]. constructor; simpl; try done. by apply (rsm_ok_core _ (node w)). Qed.

Lemma sub_step_ok log t case w :
  replica_ok log w → sub_step t case w ≠ Panic ∧ ∀ w', sub_step t case w = Next w' → replica_ok log w'.
Proof.
  intros Hw. unfold sub_step. destruct (subs w !! t) as [sub|]; simpl; [|done].
  destruct (s_pc sub) as [|op|op i term|op p i term|op i res|o]; simpl.
  - unfold doSubmit_op. destruct (isShutdown (node w)); (split; [done|intros w' [= <-]; by apply replica_ok_sub]).
  - unfold doSubmit_start. destruct (ra_Start_ok (Some op) (rf (node w)) (ro_raft _ _ (rp_node _ _ Hw)))
      as (rf' & [[i term] il] & -> & Hok & Ha). simpl. split; [done|]. intros w' [= <-].
    destruct Hw as [H1 H2 H3]. constructor; simpl; try done. apply rsm_ok_raft; [done|lia|done].
  - destruct (doSubmit_register op i (node w)) as [r o] eqn:E. split; [done|]. intros w' [= <-].
    apply replica_ok_sub; [|done]. change r with (r, o).1. rewrite <- E. apply register_core.
  - destruct (waitForResult p term case (node w)) as [[r o]|] eqn:E; simpl; [|done]. split; [done|].
    intros w' [= <-]. apply replica_ok_sub; [by eapply wait_core|done].
  - split; [done|]. intros w' [= <-]. by apply replica_ok_sub.
  - done.
Qed.

Lemma rsm_step_ok log ev w :
  log_ok log → replica_ok log w → ev_ok log w ev →
  rsm_step ev w ≠ Panic ∧ ∀ w', rsm_step ev w = Next w' → replica_ok log w'.
Proof.
  intros Hlog Hw Hev. destruct ev as [t q|t case|t|msg| | | |rf']; simpl.
  - destruct (subs w !! t); [done|]. split; [done|]. intros w' [= <-]. by apply (replica_ok_sub _ _ (node w)).
  - by apply sub_step_ok.
  - destruct (subs w !! t); simpl; [|done]. split; [done|]. intros w' [= <-]. by apply (replica_ok_sub _ _ (node w)).
  - destruct (toSnapshot w); [done|]. destruct (reader_ok log msg w Hlog Hw Hev) as (r & o & -> & Hr & Hx). simpl.
    split; [done|]. intros w' [= <-]. destruct Hw as [H1 H2 H3]. constructor; simpl; try done.
    intros i op a [Hin|Hin]%elem_of_app; [by apply Hx|by apply H2].
  - split; [done|]. intros w' [= <-]. apply replica_ok_node; [|done].
    eapply rsm_ok_core; [apply doShutdown_core|apply Hw].
  - destruct (toSnapshot w) as [i|]; simpl; [|done]. unfold createSnapshot. pose proof (rp_node _ _ Hw) as Hr.
    destruct (rsm_lastApplied (node w) <? i) eqn:Elt; simpl; [split; [done|]; intros w' [= <-]; by destruct Hw|].
    destruct (ra_Snapshot_ok (rsm_lastApplied (node w)) (gob_encode (opId (node w), rsm_lastApplied (node w), sm_Snapshot (sm (node w))))
      (rf (node w)) (ro_raft _ _ Hr) (ro_applied _ _ Hr)) as (rf' & -> & Hok & Ha). simpl. split; [done|]. intros w' [= <-].
    destruct Hw as [H1 H2 H3]. constructor; simpl; try done; [apply rsm_ok_raft; [done|lia|done]|].
    intros j b. rewrite elem_of_cons. intros [[= -> ->]|Hin]; [|by apply H3].
    destruct (ro_equiv _ _ Hr) as (s0 & E0 & W0 & Q0). destruct Hr as [R1 R2 R3 R4 R5].
    eexists _, _, s0. split_and!; try done; lia.
  - split; [done|]. intros w' [= <-]. apply replica_ok_node; [|done]. unfold KillRSM.
    pose proof (rsm_ok_core log _ _ (doShutdown_core (node w)) (rp_node _ _ Hw)) as Hr.
    destruct (ra_Kill_ok (rf (doShutdown (node w))) (ro_raft _ _ Hr)) as [Hok Ha]. apply rsm_ok_raft; [done|lia|done].
  - simpl in Hev. destruct Hev as [Hok Ha]. split; [done|]. intros w' [= <-]. apply replica_ok_node; [|done].
    apply rsm_ok_raft; [done|done|apply Hw].
Qed.

(** Runs in which Raft keeps its promises. *)
Inductive follows (log : list (Op req)) (r0 : RSM) : RsmWorld → Prop :=
  | follows_start : follows log r0 (rsm_start r0)
  | follows_step ev w w' : follows log r0 w → ev_ok log w ev → rsm_step ev w = Next w' → follows log r0 w'.

Lemma replica_start log r0 : rsm_ok log r0 → replica_ok log (rsm_start r0).
Proof. intros H0. constructor; simpl; [done| |]; intros *; by intros ?%elem_of_nil. Qed.

Lemma follows_ok log r0 w : log_ok log → rsm_ok log r0 → follows log r0 w → replica_ok log w.
Proof.
  intros Hlog H0. induction 1 as [|ev w w' _ IH Hev Hstep].
  - by apply replica_start.
  - by apply (rsm_step_ok log ev w).
Qed.

(** A replica starts from nothing, or from the snapshot on its persister. *)
Lemma MakeRSM_ok log n me ps mx :
  (∃ rf0, ra_Make n me ps = Some rf0 ∧ ra_ok rf0 ∧ 0 ≤ ra_applied rf0 ∧
     ∀ i, ReadSnapshot ps ≠ [] → snap_ok log (ReadSnapshot ps) i → i ≤ ra_applied rf0) →
  (ReadSnapshot ps = [] ∨ (0 ≤ mx ∧ ∃ i, snap_ok log (ReadSnapshot ps) i)) →
  ∃ r, MakeRSM n me ps mx sm_init = Some r ∧ rsm_ok log r ∧
    (ReadSnapshot ps = [] → rsm_lastApplied r = 0) ∧
    (∀ i, snap_ok log (ReadSnapshot ps) i → rsm_lastApplied r = i).
Proof.
  intros (rf0 & Em & Hok & Ha & Hle) Hsnap. unfold MakeRSM. rewrite Em. bind_simpl.
  assert (H0 : rsm_ok log (mkRSM me rf0 mx sm_init 0 0 ∅ ∅ 0 false)).
  { constructor; simpl; try done; [unfold go_len; lia|apply sm_init_wf|]. exists sm_init.
    split_and!; [done|apply sm_init_wf|reflexivity]. }
  destruct Hsnap as [E|(Hmx & i & Hs)].
  - assert (Hno : ∀ i, ¬ snap_ok log [] i) by (intros i (oid & s & _ & Eb & _); by apply (gob_encode_nonempty (oid, i, sm_Snapshot s))).
    rewrite E. unfold go_len. simpl. destruct (0 <=? mx); eexists; (split; [done|]); (split_and!; [done..|]); by intros i ?%Hno.
  - destruct (Z.leb_spec 0 mx); [|lia]. pose proof Hs as (oid & s & s0 & Eb & Hi & W & E0 & W0 & Q0).
    assert (Hne : ReadSnapshot ps ≠ []) by (rewrite Eb; apply gob_encode_nonempty).
    destruct (Z.ltb_spec 0 (go_len (ReadSnapshot ps))) as [|Hl].
    2: { destruct (ReadSnapshot ps); [done|unfold go_len in Hl; simpl in Hl; lia]. }
    specialize (Hle i Hne Hs). rewrite Eb, gob_decode_encode. simpl. destruct (sm_restore s sm_init W) as (s' & -> & W' & Q).
    bind_simpl. eexists. split; [done|]. split_and!.
    + constructor; simpl; try done. exists s0. split_and!; try done. by transitivity s.
    + by intros E%gob_encode_nonempty.
    + rewrite <- Eb. intros j Hj. by apply (snap_ok_index log (ReadSnapshot ps)).
Qed.

(** (Replicas agree).  Of a replica that starts from nothing or from a snapshot
    of the log and is fed the log in order, with redeliveries and with snapshots
    instead of commands, nothing can panic; its state answers like that of a
    machine that executed the log from the start; every reply it computed is the
    one that machine gives at that place of the log; and every snapshot it hands
    to Raft is a snapshot of the log. *)
Theorem replica_follows_log log r0 w :
  log_ok log → rsm_ok log r0 → follows log r0 w →
  (∃ s, replay (take (Z.to_nat (rsm_lastApplied (node w))) log) = Some s ∧ sm_equiv (sm (node w)) s) ∧
  (∀ i op a, (i, op, a) ∈ applied w → log !! Z.to_nat (i - 1) = Some op ∧
     ∃ s s', replay (take (Z.to_nat (i - 1)) log) = Some s ∧ DoOp (Req op) s = Some (s', a)) ∧
  (∀ i b, (i, b) ∈ handed w → snap_ok log b i) ∧
  (∀ ev, ev_ok log w ev → rsm_step ev w ≠ Panic).
Proof.
  intros Hlog H0 Hf. pose proof (follows_ok log r0 w Hlog H0 Hf) as Hw. split_and!.
  - destruct (ro_equiv _ _ (rp_node _ _ Hw)) as (s & E & _ & Q). eauto.
  - apply Hw.
  - apply Hw.
  - intros ev Hev. by apply (rsm_step_ok log ev w).
Qed.

(** (Recovery of a replica).  MakeRSM on the persister of a crashed server,
    when the saved snapshot is one of the log and Raft restarts at or behind it,
    does not panic and gives a replica whose state answers like the log up to its
    lastApplied. *)
Theorem MakeRSM_recovers log n me ps mx i rf0 :
  0 ≤ mx → snap_ok log (ReadSnapshot ps) i →
  ra_Make n me ps = Some rf0 → ra_ok rf0 → (∀ j, snap_ok log (ReadSnapshot ps) j → j ≤ ra_applied rf0) →
  0 ≤ ra_applied rf0 →
  ∃ r s, MakeRSM n me ps mx sm_init = Some r ∧ fresh_rsm r ∧ rsm_ok log r ∧
    replay (take (Z.to_nat (rsm_lastApplied r)) log) = Some s ∧ sm_equiv (sm r) s.
Proof.
  intros Hmx Hs Em Hok Hle Ha. destruct (MakeRSM_ok log n me ps mx) as (r & Er & Hr & _); [|eauto|].
  - exists rf0. split_and!; try done. intros j _. apply Hle.
  - destruct (ro_equiv _ _ Hr) as (s & E & _ & Q). exists r, s. split_and!; try done. by eapply MakeRSM_fresh.
Qed.
End rsm.
