(* ===== verification/RSMServer.v ===== *)
(** * kvraft1/rsm/server.go: the counter service, and runs of a replica

    The counter that the rsm package replicates in its own tests is a second
    instance of [StateMachine].  On it, and on the Raft of this repository, the
    theorems of RSM are run, and the behaviours of Submit that its code does not
    intend are exhibited. *)

From S2P Require Import Prelude KVSrv RaftUtil RaftNode RaftLog RaftWf RaftOps RaftRepl Cluster RSM.
Local Open Scope Z_scope.
Local Open Scope go_scope.

(** ** The service *)

(** [Dec] stands for every request the service was not made for. *)
Inductive CounterReq := Inc | Null | Dec.
Inductive CounterRep := IncRep (n : Z) | NullRep.

Record rsmSrv := mkRsmSrv { counter : Z }.

(** [None] is log.Fatalf. *)
Definition rsmSrv_DoOp (req : CounterReq) (rs : rsmSrv) : option (rsmSrv * CounterRep) :=
  match req with
  | Inc => let n := wrap_i64 (counter rs + 1) in Some (mkRsmSrv n, IncRep n)
  | Null => Some (rs, NullRep)
  | Dec => None
  end.

Section counter.
Context `{!Gob Z}.

Definition rsmSrv_Snapshot (rs : rsmSrv) : bytes := gob_encode (counter rs).

Definition rsmSrv_Restore (data : bytes) (rs : rsmSrv) : option rsmSrv := n ← gob_decode data; Some (mkRsmSrv n).

#[export] Instance counter_machine : StateMachine rsmSrv CounterReq CounterRep := {|
  sm_init := mkRsmSrv 0;
  DoOp := rsmSrv_DoOp;
  sm_Snapshot := rsmSrv_Snapshot;
  sm_Restore := rsmSrv_Restore
|}.

#[export, refine] Instance counter_laws : StateMachineLaws rsmSrv CounterReq CounterRep := {|
  sm_wf _ := True;
  sm_equiv := eq;
  sm_fresh _ r := r ≠ Dec
|}.
Proof.
  - done.
  - intros r s s0 _ _ <- Hr. destruct r; [| |done]; simpl; eexists _, _, _; split_and!; done.
  - intros [n] s0 _. exists (mkRsmSrv n). split; [|done]. simpl. unfold rsmSrv_Restore, rsmSrv_Snapshot. simpl.
    by rewrite gob_decode_encode.
Defined.
End counter.

(** ** Concrete codecs *)

#[export] Instance CounterReq_eq_dec : EqDecision CounterReq.
Proof. solve_decision. Defined.

#[export] Instance CounterReq_countable : Countable CounterReq.
Proof.
  refine (inj_countable' (λ r, match r with Inc => 0%nat | Null => 1%nat | Dec => 2%nat end)
    (λ n, match n with 0%nat => Inc | 1%nat => Null | _ => Dec end) _). by intros [].
Defined.

#[export] Instance Op_eq_dec {req} `{!EqDecision req} : EqDecision (Op req).
Proof. solve_decision. Defined.

#[export] Instance Op_countable {req} `{Countable req} : Countable (Op req).
Proof.
  refine (inj_countable' (λ o, (Me o, Id o, Req o)) (λ '(m, i, r), mkOp m i r) _). by intros [].
Defined.

#[export] Instance Z_codec : Gob Z := countable_gob Z.
#[export] Instance snap_codec : Gob (Z * Z * bytes) := countable_gob (Z * Z * bytes).
#[export] Instance counter_raft_codec : Gob (PersistedState (Op CounterReq)) := countable_gob (PersistedState (Op CounterReq)).

(** ** A leader *)

(** Peer 0 of three, elected in term 1 by peer 1. *)
Definition elected {cmd} `{!Gob (PersistedState cmd)} : option (Raft cmd) :=
  rf ← Make 3 0 MakePersister;
  '(rf, args) ← ticker_election rf;
  '(rf, _) ← handleVoteReply args (mkRequestVoteReply 1 true) 1 rf;
  Some rf.

Definition leader {cmd} `{!Gob (PersistedState cmd)} : Raft cmd := default (fresh_raft 3 0 MakePersister) elected.

(** A replica that runs on that leader. *)
Definition replica0 {req S rep} `{!Gob (PersistedState (Op req))} (s : S) : RSM (R := Raft (Op req)) (S := S) (req := req) (rep := rep) :=
  mkRSM 0 leader (-1) s 0 0 ∅ ∅ 0 false.

Definition CEvent : Type := RsmEvent (R := Raft (Op CounterReq)) (req := CounterReq).
Definition CWorld : Type := RsmWorld (R := Raft (Op CounterReq)) (S := rsmSrv) (req := CounterReq) (rep := CounterRep).

Definition counter0 : RSM (R := Raft (Op CounterReq)) (rep := CounterRep) := replica0 (mkRsmSrv 0).

Definition counter_run (evs : list CEvent) : outcome CWorld :=
  rsm_run evs (rsm_start counter0).

(** ** Submit on a replica that is up *)

Definition go (n : nat) (t : nat) : list CEvent := replicate n (EStep t WaitDone).

(** Two calls of Submit at once; both operations are committed. *)
Definition two_submits : list CEvent :=
  [ESubmit 0 Inc; ESubmit 1 Inc] ++ go 2 0 ++ go 3 1 ++ go 1 0 ++
  [EMsg (CommandMsg (Some (mkOp 0 1 Inc)) 1); EMsg (CommandMsg (Some (mkOp 0 2 Inc)) 2)] ++ go 2 1 ++ go 2 0.

Definition ret_of (t : nat) (o : outcome CWorld) :
    option (Err * option CounterRep) :=
  match o with Next w => sub ← subs w !! t; s_ret sub | _ => None end.

Example two_submits_replies :
  (ret_of 0 (counter_run two_submits), ret_of 1 (counter_run two_submits)) =
  (Some (OK, Some (IncRep 1)), Some (OK, Some (IncRep 2))).
Proof. vm_compute. done. Qed.

(** ** What Submit does not intend *)

(** Server 0 leads term 1 and submits [Null] as its operation number 1, which
    Raft puts at index 1 and never commits; server 1 leads later, and its own
    operation number 1, an [Inc], is committed at index 1. *)
Definition foreign_events : list CEvent :=
  ESubmit 0 Null :: go 3 0 ++ [EMsg (CommandMsg (Some (mkOp 1 1 Inc)) 1)] ++ go 2 0.

(** (Submit can return another server's result).  applyCommand compares the id
    of the pending operation with that of the committed one but its server with
    its own number, so an operation of another server with the same id counts as
    the submitted one: Submit returns OK with the reply of an operation that is
    not the submitted one, which was never executed. *)
Theorem submit_foreign_result :
  ∃ w sub, counter_run foreign_events = Next w ∧ subs w !! 0%nat = Some sub ∧
    s_req sub = Null ∧ s_ret sub = Some (OK, Some (IncRep 1)) ∧ applied w = [(1, mkOp 1 1 Inc, IncRep 1)].
Proof.
  destruct (counter_run foreign_events) as [w| |] eqn:E; [|by vm_compute in E|by vm_compute in E].
  exists w, (mkSub Null (SubDone (Some (mkOp 0 1 Null))) (Some (OK, Some (IncRep 1)))).
  vm_compute in E. injection E as <-. vm_compute. split_and!; done.
Qed.

(** The operation is committed and applied before Submit registers that it waits
    for it, and no later message is for its index. *)
Definition early_events : list CEvent :=
  ESubmit 0 Inc :: go 2 0 ++ [EMsg (CommandMsg (Some (mkOp 0 1 Inc)) 1)] ++ go 1 0.

(** (Submit can miss its result).  Submit registers its operation only after
    Start has returned; when the operation is applied in between, it is executed
    and nobody is told: the channel stays empty, a redelivery is ignored, and
    what ends the call is the two-second timeout, with ErrWrongLeader. *)
Theorem submit_misses_result :
  ∃ w, counter_run early_events = Next w ∧ applied w = [(1, mkOp 0 1 Inc, IncRep 1)] ∧
    rsm_step (EStep 0 WaitDone) w = Disabled ∧
    rsm_run [EMsg (CommandMsg (Some (mkOp 0 1 Inc)) 1); EStep 0 WaitDone] w = Disabled ∧
    ret_of 0 (rsm_step (ETimeout 0) w) = Some (ErrWrongLeader, None).
Proof.
  destruct (counter_run early_events) as [w| |] eqn:E; [|by vm_compute in E|by vm_compute in E].
  exists w. vm_compute in E. injection E as <-. split_and!; vm_compute; reflexivity.
Qed.

(** ** Witnesses *)

Lemma counter0_fresh : fresh_rsm counter0.
Proof. repeat split. Qed.

Lemma two_submits_run :
  ∃ w sub, rsm_run two_submits (rsm_start counter0) = Next w ∧ subs w !! 1%nat = Some sub ∧
    s_ret sub = Some (OK, Some (IncRep 2)) ∧ s_req sub = Inc.
Proof.
  destruct (rsm_run two_submits (rsm_start counter0)) as [w| |] eqn:E; [|by vm_compute in E|by vm_compute in E].
  destruct (subs w !! 1%nat) as [sub|] eqn:Es; [|by vm_compute in E; injection E as <-; vm_compute in Es].
  exists w, sub. vm_compute in E. injection E as <-. vm_compute in Es. injection Es as <-. repeat split.
Qed.

Lemma submit_ok_executed_witness :
  ∃ w sub op index op' a, rsm_run two_submits (rsm_start counter0) = Next w ∧ subs w !! 1%nat = Some sub ∧
    Req op = Inc ∧ Some (IncRep 2) = Some a ∧ (index, op', a) ∈ applied w ∧ Id op' = Id op.
Proof.
  destruct two_submits_run as (w & sub & E & Es & Er & Eq).
  destruct (submit_ok_executed counter0 two_submits w 1 sub (Some (IncRep 2)) counter0_fresh E Es Er)
    as (op & i & op' & a & _ & H2 & _ & H4 & H5 & H6 & _).
  exists w, sub, op, i, op', a. rewrite Eq in H2.
  exact (conj E (conj Es (conj H2 (conj H4 (conj H5 H6))))).
Defined.

(** A Raft that has delivered up to an index and leads no term. *)
#[local, refine] Instance delivered_raft : RaftApi Z (Op CounterReq) := {|
  ra_Make _ _ _ := Some 2;
  ra_Start _ r := Some (r, (-1, -1, false));
  ra_GetState _ := (0, false);
  ra_Snapshot _ _ r := Some r;
  ra_PersistBytes _ := 100;
  ra_Kill r := r;
  ra_ok _ := True;
  ra_applied r := r
|}.
Proof.
  - intros c r _. by eexists _, _.
  - intros i b r _ _. by eexists.
  - done.
Defined.

Definition demo_log : list (Op CounterReq) := [mkOp 0 1 Inc; mkOp 1 1 Inc].

Definition demo_replica : RSM (R := Z) (S := rsmSrv) (req := CounterReq) (rep := CounterRep) :=
  mkRSM 0 2 10 (mkRsmSrv 0) 0 0 ∅ ∅ 0 false.

Lemma demo_log_ok : log_ok demo_log.
Proof.
  intros i op Hi. destruct i as [|[|i]]; simplify_eq/=; eexists; (split; [vm_compute; reflexivity|done]).
Qed.

Lemma demo_replica_ok : rsm_ok demo_log demo_replica.
Proof. constructor; simpl; try done. by exists (mkRsmSrv 0). Qed.

(** The first command is applied and a snapshot of it is handed to Raft. *)
Lemma replica_follows_log_witness :
  ∃ w, follows demo_log demo_replica w ∧ handed w ≠ [] ∧ ∀ i b, (i, b) ∈ handed w → snap_ok demo_log b i.
Proof.
  destruct (rsm_step (EMsg (CommandMsg (Some (mkOp 0 1 Inc)) 1)) (rsm_start demo_replica)) as [w1| |] eqn:E1;
    [|by vm_compute in E1|by vm_compute in E1].
  destruct (rsm_step ECreateSnapshot w1) as [w2| |] eqn:E2;
    [|vm_compute in E1; injection E1 as <-; by vm_compute in E2|vm_compute in E1; injection E1 as <-; by vm_compute in E2].
  assert (F2 : follows demo_log demo_replica w2).
  { apply (follows_step _ _ ECreateSnapshot w1); [|done|done].
    apply (follows_step _ _ (EMsg (CommandMsg (Some (mkOp 0 1 Inc)) 1)) (rsm_start demo_replica)); [constructor| |done].
    simpl. split; [by eexists|]. simpl. lia. }
  exists w2. split; [done|]. split.
  - vm_compute in E1. injection E1 as <-. vm_compute in E2. injection E2 as <-. done.
  - exact (proj1 (proj2 (proj2 (replica_follows_log demo_log demo_replica w2 demo_log_ok demo_replica_ok F2)))).
Defined.

Definition demo_disk : Persister := mkPersister [] (gob_encode (7, 2, rsmSrv_Snapshot (mkRsmSrv 2))).

Lemma demo_disk_snap i : snap_ok demo_log (ReadSnapshot demo_disk) i ↔ i = 2.
Proof.
  split.
  - intros (oid & s & s0 & E & _). unfold ReadSnapshot, demo_disk in E. cbn [snapshot] in E.
    apply (f_equal (gob_decode (A := Z * Z * bytes))) in E. rewrite !gob_decode_encode in E. by injection E.
  - intros ->. exists 7, (mkRsmSrv 2), (mkRsmSrv 2). split_and!; try done; unfold go_len; simpl; lia.
Qed.

Lemma MakeRSM_recovers_witness :
  ∃ (r : RSM (R := Z) (S := rsmSrv) (req := CounterReq) (rep := CounterRep)) s, MakeRSM 3 0 demo_disk 100 sm_init = Some r ∧ fresh_rsm r ∧ rsm_ok demo_log r ∧
    replay (take (Z.to_nat (rsm_lastApplied r)) demo_log) = Some s ∧ sm_equiv (sm r) s.
Proof.
  refine (MakeRSM_recovers demo_log 3 0 demo_disk 100 2 2 _ _ _ _ _ _); try done.
  - by apply demo_disk_snap.
  - by intros j ->%demo_disk_snap.
Defined.
