(* ===== verification/KVRaft.v ===== *)
(** * kvraft1: the replicated key/value service

    server.go and client.go of src/src/kvraft1.  [KVServer] is a [StateMachine]
    of the rsm package: [DoOp] executes a request taken from the log, with a table
    of replies per client that makes retransmissions harmless, and [Snapshot] and
    [Restore] save and load the service.  A snapshot keeps only the last ten
    replies of a client, so a restored server is not equal to the one that took
    the snapshot: it is equivalent for the requests that [fresh] admits.  A nil
    Replies map behaves like an empty one and is modelled as such. *)

From S2P Require Import Prelude KVSrv RaftNode Cluster RSM.
Local Open Scope Z_scope.

(** ** Data *)

Record KVPair := mkKVPair { Value : string; Version : Tversion }.

Definition GetMethod : string := "Get".
Definition PutMethod : string := "Put".

Record RaftReqMsg := mkRaftReqMsg {
  rq_Command : string; rq_Key : string; rq_Value : string;
  rq_SeqNum : Z; rq_ClientId : Z; rq_Version : Tversion
}.

Record RaftReplyMsg := mkRaftReplyMsg {
  rp_Command : string; rp_Value : string; rp_Version : Tversion; rp_Err : Err
}.

Record dupTab := mkDupTab { Replies : gmap Z RaftReplyMsg; MaxSeqNum : Z }.

(** The replicated part of the server. *)
Record KVServer := mkKVServer { cache : gmap string KVPair; clientMap : gmap Z dupTab }.

(** What StartKVServer starts with. *)
Definition StartKVServer : KVServer := mkKVServer ∅ ∅.

(** A request comes out of the log as an [any]. *)
Inductive any := AnyPtr (r : RaftReqMsg) | AnyVal (r : RaftReqMsg) | AnyOther.

Definition raftReq_of (req : any) : option RaftReqMsg :=
  match req with AnyPtr r | AnyVal r => Some r | AnyOther => None end.

(** ** DoOp *)

Definition wrongLeaderReply : RaftReplyMsg := mkRaftReplyMsg "" "" 0 ErrWrongLeader.

(** The cached reply of an exact duplicate. *)
Definition duplicate (r : RaftReqMsg) (kv : KVServer) : option RaftReplyMsg :=
  dup ← clientMap kv !! rq_ClientId r;
  Replies dup !! rq_SeqNum r.

(** The [switch] of DoOp; [None] is its default case. *)
Definition execute (r : RaftReqMsg) (c : gmap string KVPair) : option (gmap string KVPair * RaftReplyMsg) :=
  if decide (rq_Command r = GetMethod) then
    Some (c, match c !! rq_Key r with
             | Some p => mkRaftReplyMsg GetMethod (Value p) (Version p) OK
             | None => mkRaftReplyMsg GetMethod "" (rq_Version r) ErrNoKey
             end)
  else if decide (rq_Command r = PutMethod) then
    match c !! rq_Key r with
    | Some p =>
        if Version p =? rq_Version r
        then let v := wrap_u64 (Version p + 1) in
             Some (<[rq_Key r := mkKVPair (rq_Value r) v]> c, mkRaftReplyMsg PutMethod "" v OK)
        else Some (c, mkRaftReplyMsg PutMethod "" (rq_Version r) ErrVersion)
    | None =>
        if rq_Version r =? 0
        then Some (<[rq_Key r := mkKVPair (rq_Value r) 1]> c, mkRaftReplyMsg PutMethod "" 1 OK)
        else Some (c, mkRaftReplyMsg PutMethod "" (rq_Version r) ErrVersion)
    end
  else None.

(** The table of a client after a reply is cached; replies more than 100 behind
    a new maximum are dropped. *)
Definition remember (r : RaftReqMsg) (reply : RaftReplyMsg) (dup : option dupTab) : dupTab :=
  match dup with
  | Some dup =>
      let replies := <[rq_SeqNum r := reply]> (Replies dup) in
      if MaxSeqNum dup <? rq_SeqNum r
      then mkDupTab (filter (λ '(seq, _), ¬ seq < rq_SeqNum r - 100) replies) (rq_SeqNum r)
      else mkDupTab replies (MaxSeqNum dup)
  | None => mkDupTab {[rq_SeqNum r := reply]} (rq_SeqNum r)
  end.

Definition DoOp (req : any) (kv : KVServer) : KVServer * RaftReplyMsg :=
  match raftReq_of req with
  | None => (kv, wrongLeaderReply)
  | Some r =>
      match duplicate r kv with
      | Some reply => (kv, reply)
      | None =>
          match execute r (cache kv) with
          | None => (kv, wrongLeaderReply)
          | Some (c, reply) =>
              (mkKVServer c (<[rq_ClientId r := remember r reply (clientMap kv !! rq_ClientId r)]> (clientMap kv)), reply)
          end
      end
  end.

(** ** Snapshot and Restore *)

(** The loop over [MaxSeqNum-9 .. MaxSeqNum]. *)
Definition recentReplies (dup : dupTab) : gmap Z RaftReplyMsg :=
  if 0 <? MaxSeqNum dup then
    foldl (λ m seq, match Replies dup !! seq with Some reply => <[seq := reply]> m | None => m end)
      ∅ (seqZ (MaxSeqNum dup - 9) 10)
  else ∅.

Definition compactDupTab (m : gmap Z dupTab) : gmap Z dupTab :=
  (λ dup, mkDupTab (recentReplies dup) (MaxSeqNum dup)) <$> m.

Section snapshots.
Context `{!Gob (gmap string KVPair * gmap Z dupTab)}.

Definition Snapshot (kv : KVServer) : bytes := gob_encode (cache kv, compactDupTab (clientMap kv)).

(** [None] is the panic. *)
Definition Restore (snapshot : bytes) (kv : KVServer) : option KVServer :=
  if go_len snapshot =? 0 then Some kv
  else
    '(newCache, newDupTab) ← gob_decode snapshot;
    Some (mkKVServer newCache newDupTab).

(** The service is a state machine of the rsm package. *)
#[export] Instance kv_machine : StateMachine KVServer any RaftReplyMsg := {|
  sm_init := StartKVServer;
  RSM.DoOp req kv := Some (DoOp req kv);
  sm_Snapshot := Snapshot;
  sm_Restore := Restore
|}.
End snapshots.

(** ** The RPC handlers around Submit *)

(** Before Submit: the answer of a server that is not up and leading, or the
    message to submit. *)
Definition Get_submit (args : GetArgs) (rsmNil killed isLeader : bool) : Err + RaftReqMsg :=
  if rsmNil || killed then inl ErrWrongLeader
  else if negb isLeader then inl ErrWrongLeader
  else inr (mkRaftReqMsg GetMethod (ga_Key args) "" (ga_SeqNum args) (ga_ClientId args) 0).

(** After it, from what Submit returned. *)
Definition Get_reply (err : Err) (result : option RaftReplyMsg) : GetReply :=
  if decide (err ≠ OK) then mkGetReply "" 0 err
  else match result with
       | None => mkGetReply "" 0 ErrWrongLeader
       | Some response =>
           if decide (rp_Command response ≠ GetMethod) then mkGetReply "" 0 ErrWrongLeader
           else mkGetReply (rp_Value response) (rp_Version response) (rp_Err response)
       end.

Definition Put_submit (args : PutArgs) (rsmNil killed isLeader : bool) : Err + RaftReqMsg :=
  if rsmNil || killed then inl ErrWrongLeader
  else if negb isLeader then inl ErrWrongLeader
  else inr (mkRaftReqMsg PutMethod (pa_Key args) (pa_Value args) (pa_SeqNum args) (pa_ClientId args) (pa_Version args)).

Definition Put_reply (err : Err) (result : option RaftReplyMsg) : PutReply :=
  if decide (err ≠ OK) then mkPutReply err
  else match result with
       | None => mkPutReply ErrWrongLeader
       | Some response =>
           if decide (rp_Command response ≠ PutMethod) then mkPutReply ErrWrongLeader
           else mkPutReply (rp_Err response)
       end.

(** ** client.go *)

Record Clerk := mkClerk { ck_servers : Z; ck_clientId : Z; ck_seqNum : Z; leaderIdx : Z }.

(** [atomic.AddInt64(&globalClientId, 1)] *)
Definition MakeClerk (servers globalClientId : Z) : Z * Clerk :=
  let id := wrap_i64 (globalClientId + 1) in (id, mkClerk servers id 0 0).

(** The servers tried after the remembered leader. *)
Definition others (n leader : Z) : list Z := filter (λ i, i ≠ leader) (seqZ 0 n).

(** gob leaves a field alone when the value sent is the zero value. *)
Definition merge_string (new old : string) : string := if decide (new = "") then old else new.
Definition merge_Z (new old : Z) : Z := if decide (new = 0) then old else new.
Definition merge_Err (new old : Err) : Err := if decide (new = ErrNone) then old else new.
Definition decode_Get (new old : GetReply) : GetReply :=
  mkGetReply (merge_string (gr_Value new) (gr_Value old)) (merge_Z (gr_Version new) (gr_Version old))
    (merge_Err (gr_Err new) (gr_Err old)).
Definition decode_Put (new old : PutReply) : PutReply := mkPutReply (merge_Err (pr_Err new) (pr_Err old)).

Definition good_get (e : Err) : bool := bool_decide (e = OK) || bool_decide (e = ErrNoKey).

(** [outs] are the outcomes of the calls in the order they are made: [None] when
    [Call] returns false, else what the server sent.  [todo] are the servers still
    to try in this round; a new round resets the reply and starts at the
    remembered leader.  The result is the server that answered and the reply. *)
Fixpoint GetLoop (n leader : Z) (todo : list Z) (reply : GetReply) (outs : list (option GetReply)) : option (Z * GetReply) :=
  match outs with
  | [] => None
  | out :: outs =>
      let '(srv, todo, reply) :=
        match todo with
        | [] => (leader, others n leader, mkGetReply "" 0 ErrNone)
        | srv :: todo => (srv, todo, reply)
        end in
      match out with
      | None => GetLoop n leader todo reply outs
      | Some r =>
          let reply := decode_Get r reply in
          if good_get (gr_Err reply) then Some (srv, reply) else GetLoop n leader todo reply outs
      end
  end.

Fixpoint PutLoop (n leader : Z) (todo : list Z) (reply : PutReply) (retried : bool) (outs : list (option PutReply)) : option (Z * Err) :=
  match outs with
  | [] => None
  | out :: outs =>
      let '(srv, todo, reply) :=
        match todo with
        | [] => (leader, others n leader, mkPutReply ErrNone)
        | srv :: todo => (srv, todo, reply)
        end in
      match out with
      | None => PutLoop n leader todo reply true outs
      | Some r =>
          let reply := decode_Put r reply in
          if decide (pr_Err reply ≠ ErrWrongLeader)
          then Some (srv, if decide (pr_Err reply = ErrVersion ∧ retried = true) then ErrMaybe else pr_Err reply)
          else PutLoop n leader todo reply retried outs
      end
  end.

Definition bump (ck : Clerk) : Clerk := mkClerk (ck_servers ck) (ck_clientId ck) (wrap_i64 (ck_seqNum ck + 1)) (leaderIdx ck).

Definition set_leader (i : Z) (ck : Clerk) : Clerk := mkClerk (ck_servers ck) (ck_clientId ck) (ck_seqNum ck) i.

Definition ClerkGet (outs : list (option GetReply)) (ck : Clerk) : Clerk * option (string * Tversion * Err) :=
  let ck := bump ck in
  match GetLoop (ck_servers ck) (leaderIdx ck) [] (mkGetReply "" 0 ErrNone) outs with
  | None => (ck, None)
  | Some (i, r) => (set_leader i ck, Some (gr_Value r, gr_Version r, gr_Err r))
  end.

Definition ClerkPut (outs : list (option PutReply)) (ck : Clerk) : Clerk * option Err :=
  let ck := bump ck in
  match PutLoop (ck_servers ck) (leaderIdx ck) [] (mkPutReply ErrNone) false outs with
  | None => (ck, None)
  | Some (i, e) => (set_leader i ck, Some e)
  end.

(** ** Equivalent servers *)

(** Sequence numbers are positive and no reply is newer than the maximum. *)
Definition dup_wf (d : dupTab) : Prop :=
  0 < MaxSeqNum d ∧ ∀ seq reply, Replies d !! seq = Some reply → seq ≤ MaxSeqNum d.

Definition kv_wf (kv : KVServer) : Prop := map_Forall (λ _, dup_wf) (clientMap kv).

(** Two tables of a client remember the same of the last ten requests. *)
Definition dup_equiv (d1 d2 : dupTab) : Prop :=
  MaxSeqNum d1 = MaxSeqNum d2 ∧
  ∀ seq, MaxSeqNum d1 - 9 ≤ seq → Replies d1 !! seq = Replies d2 !! seq.

Definition kv_equiv (kv1 kv2 : KVServer) : Prop :=
  cache kv1 = cache kv2 ∧ ∀ c, option_Forall2 dup_equiv (clientMap kv1 !! c) (clientMap kv2 !! c).

#[export] Instance dup_equiv_equivalence : Equivalence dup_equiv.
Proof.
  split.
  - intros d. done.
  - intros d1 d2 [E H]. split; [done|]. intros seq Hs. symmetry. apply H. lia.
  - intros d1 d2 d3 [E1 H1] [E2 H2]. split; [congruence|]. intros seq Hs. rewrite H1 by done. apply H2. lia.
Qed.

#[export] Instance kv_equiv_equivalence : Equivalence kv_equiv.
Proof.
  split.
  - intros kv. split; [done|]. intros c. reflexivity.
  - intros kv1 kv2 [E H]. split; [done|]. intros c. by symmetry.
  - intros kv1 kv2 kv3 [E1 H1] [E2 H2]. split; [congruence|]. intros c. specialize (H1 c). specialize (H2 c). by transitivity (clientMap kv2 !! c).
Qed.

(** A request the service answers alike in equivalent states: numbered, and not
    more than nine behind the newest request of its client. *)
Definition fresh (kv : KVServer) (req : any) : Prop :=
  match raftReq_of req with
  | Some r => 1 ≤ rq_SeqNum r ∧ ∀ d, clientMap kv !! rq_ClientId r = Some d → MaxSeqNum d - 9 ≤ rq_SeqNum r
  | None => True
  end.

Lemma remember_wf r reply d : 1 ≤ rq_SeqNum r → (∀ x, d = Some x → dup_wf x) → dup_wf (remember r reply d).
Proof.
  intros Hs Hd. destruct d as [d|]; simpl.
  - destruct (Hd d eq_refl) as [Hm Hk]. destruct (Z.ltb_spec (MaxSeqNum d) (rq_SeqNum r)); split; simpl; try lia; intros seq x.
    + rewrite map_lookup_filter_Some, lookup_insert_Some. intros [[[<- _]|[_ Hx%Hk]] _]; lia.
    + rewrite lookup_insert_Some. intros [[<- _]|[_ Hx%Hk]]; lia.
  - split; simpl; [lia|]. intros seq x. rewrite lookup_singleton_Some. intros [<- _]. lia.
Qed.

Lemma remember_equiv r reply d1 d2 :
  option_Forall2 dup_equiv d1 d2 → dup_equiv (remember r reply d1) (remember r reply d2).
Proof.
  intros [d d' [Em Hr]|]; simpl; [|reflexivity]. rewrite <- Em.
  assert (Hins : ∀ seq, MaxSeqNum d - 9 ≤ seq →
    <[rq_SeqNum r := reply]> (Replies d) !! seq = <[rq_SeqNum r := reply]> (Replies d') !! seq).
  { intros seq Hs. destruct (decide (rq_SeqNum r = seq)) as [<-|]; rewrite ?lookup_insert_eq, ?lookup_insert_ne by done; auto. }
  destruct (Z.ltb_spec (MaxSeqNum d) (rq_SeqNum r)); split; simpl; try done. intros seq Hs.
  apply option_eq. intros x. rewrite !map_lookup_filter_Some, Hins by lia. done.
Qed.

Lemma duplicate_equiv r kv1 kv2 :
  kv_equiv kv1 kv2 → fresh kv2 (AnyVal r) → duplicate r kv1 = duplicate r kv2.
Proof.
  intros [_ Hc] [_ Hf]. simpl in *. unfold duplicate. specialize (Hc (rq_ClientId r)).
  destruct (clientMap kv2 !! rq_ClientId r) as [d2|] eqn:E2; inversion Hc as [d1 x [Em Hr]|]; subst; simpl; [|done].
  apply Hr. rewrite Em. by apply Hf.
Qed.

Lemma DoOp_equiv req kv1 kv2 :
  kv_equiv kv1 kv2 → fresh kv2 req →
  (DoOp req kv1).2 = (DoOp req kv2).2 ∧ kv_equiv (DoOp req kv1).1 (DoOp req kv2).1.
Proof.
  intros He Hf. unfold DoOp. unfold fresh in Hf. destruct (raftReq_of req) as [r|]; [|done].
  rewrite (duplicate_equiv r kv1 kv2) by done. destruct (duplicate r kv2); [done|].
  destruct He as [Ec Hc]. rewrite Ec. destruct (execute r (cache kv2)) as [[c reply]|]; [|by split].
  split; [done|]. split; [done|]. simpl. intros x. destruct (decide (rq_ClientId r = x)) as [<-|Hne].
  - rewrite !lookup_insert_eq. constructor. by apply remember_equiv.
  - by rewrite !lookup_insert_ne.
Qed.

Lemma DoOp_wf req kv : kv_wf kv → fresh kv req → kv_wf (DoOp req kv).1.
Proof.
  intros Hw Hf. unfold DoOp. unfold fresh in Hf. destruct (raftReq_of req) as [r|]; [|done].
  destruct (duplicate r kv); [done|]. destruct (execute r (cache kv)) as [[c reply]|]; [|done].
  simpl. apply map_Forall_insert_2; [|done]. apply remember_wf; [apply Hf|]. intros d Hd. by apply (Hw (rq_ClientId r)).
Qed.

Lemma fresh_equiv kv1 kv2 req : kv_equiv kv1 kv2 → fresh kv2 req → fresh kv1 req.
Proof.
  intros [_ Hc] Hf. unfold fresh in *. destruct (raftReq_of req) as [r|]; [|done]. destruct Hf as [H1 H2].
  split; [done|]. intros d Hd. specialize (Hc (rq_ClientId r)). rewrite Hd in Hc.
  inversion Hc as [x d2 [Em _] E1 E2|]; subst. rewrite Em. by apply H2.
Qed.

Lemma recentReplies_lookup d seq :
  dup_wf d → MaxSeqNum d - 9 ≤ seq → recentReplies d !! seq = Replies d !! seq.
Proof.
  intros [Hm Hk] Hs. unfold recentReplies. destruct (Z.ltb_spec 0 (MaxSeqNum d)); [|lia].
  set (f := λ m s, _).
  assert (Hfold : ∀ l m, foldl f m l !! seq = if decide (seq ∈ l ∧ is_Some (Replies d !! seq)) then Replies d !! seq else m !! seq).
  { induction l as [|s l IH]; intros m; cbn [foldl].
    - rewrite decide_False; [done|]. intros [?%elem_of_nil _]. done.
    - rewrite IH. destruct (Replies d !! seq) as [x|] eqn:Ex.
      + destruct (decide (seq ∈ l ∧ is_Some (Some x))) as [[Hl _]|Hl].
        * rewrite decide_True; [done|]. split; [by right|by eexists].
        * destruct (decide (s = seq)) as [->|Hne].
          -- rewrite decide_True by (split; [by left|by eexists]). unfold f. rewrite Ex. apply lookup_insert_eq.
          -- rewrite decide_False.
             ++ unfold f. destruct (Replies d !! s); [by rewrite lookup_insert_ne|done].
             ++ intros [[?|?]%elem_of_cons _]; [done|]. apply Hl. split; [done|by eexists].
      + rewrite !decide_False by (intros [_ [? ?]]; done). unfold f. destruct (Replies d !! s) eqn:Es; [|done].
        rewrite lookup_insert_ne; [done|]. intros ->. congruence. }
  rewrite Hfold. destruct (Replies d !! seq) as [x|] eqn:Ex.
  - rewrite decide_True; [done|]. split; [|by eexists]. apply elem_of_seqZ. specialize (Hk _ _ Ex). lia.
  - rewrite decide_False by (intros [_ [? ?]]; done). apply lookup_empty.
Qed.

Section snapshot_laws.
Context `{!Gob (gmap string KVPair * gmap Z dupTab)}.

Lemma Restore_Snapshot kv kv0 :
  Restore (Snapshot kv) kv0 = Some (mkKVServer (cache kv) (compactDupTab (clientMap kv))).
Proof.
  unfold Restore, Snapshot. destruct (Z.eqb_spec (go_len (gob_encode (cache kv, compactDupTab (clientMap kv)))) 0) as [E|].
  - unfold go_len in E. pose proof (gob_encode_nonempty (cache kv, compactDupTab (clientMap kv))) as H.
    destruct (gob_encode _); [done|simpl in E; lia].
  - by rewrite gob_decode_encode.
Qed.

Lemma compact_ok kv :
  kv_wf kv → kv_wf (mkKVServer (cache kv) (compactDupTab (clientMap kv))) ∧
    kv_equiv (mkKVServer (cache kv) (compactDupTab (clientMap kv))) kv.
Proof.
  intros Hw. split.
  - intros c d. simpl. unfold compactDupTab. rewrite lookup_fmap_Some. intros (d0 & <- & Hd).
    destruct (Hw c d0 Hd) as [Hm Hk]. split; simpl; [done|]. intros seq x Hx.
    destruct (decide (MaxSeqNum d0 - 9 ≤ seq)); [|lia]. rewrite recentReplies_lookup in Hx by done. by eapply Hk.
  - split; [done|]. intros c. simpl. unfold compactDupTab. rewrite lookup_fmap.
    destruct (clientMap kv !! c) as [d|] eqn:E; constructor. split; [done|]. simpl. intros seq Hs.
    apply recentReplies_lookup; [by apply (Hw c)|done].
Qed.

(** The service keeps the promises of a state machine. *)
#[export, refine] Instance kv_machine_laws : StateMachineLaws KVServer any RaftReplyMsg := {|
  sm_wf := kv_wf;
  sm_equiv := kv_equiv;
  sm_fresh := fresh
|}.
Proof.
  - apply map_Forall_empty.
  - intros req s s0 W W0 Q Hf. destruct (DoOp_equiv req s s0 Q Hf) as [Ea Q'].
    exists (DoOp req s).1, (DoOp req s0).1, (DoOp req s).2. simpl. rewrite Ea at 2.
    split_and!; [by destruct (DoOp req s)|by destruct (DoOp req s0)| | |done].
    + apply DoOp_wf; [done|]. by eapply fresh_equiv.
    + by apply DoOp_wf.
  - intros s s0 W. simpl. rewrite Restore_Snapshot. eexists. split; [done|]. by apply compact_ok.
Defined.
End snapshot_laws.

(** ** Exactly-once execution *)

Definition run_ops (reqs : list any) (kv : KVServer) : KVServer := foldl (λ kv q, (DoOp q kv).1) kv reqs.

(** Every request of the client of [r] in [reqs] is at most [d] ahead of [r]. *)
Definition within (d : Z) (r : RaftReqMsg) (reqs : list any) : Prop :=
  Forall (λ q, ∀ r', raftReq_of q = Some r' → rq_ClientId r' = rq_ClientId r → rq_SeqNum r' ≤ rq_SeqNum r + d) reqs.

Definition known_command (r : RaftReqMsg) : Prop := rq_Command r = GetMethod ∨ rq_Command r = PutMethod.

Lemma execute_known r c : known_command r → is_Some (execute r c).
Proof.
  intros Hk. unfold execute. destruct (decide (rq_Command r = GetMethod)); [by eexists|].
  rewrite decide_True by (by destruct Hk). destruct (c !! rq_Key r); case_match; by eexists.
Qed.

Lemma remember_self r reply d : Replies (remember r reply d) !! rq_SeqNum r = Some reply.
Proof.
  destruct d as [d|]; simpl; [|apply lookup_singleton_eq].
  destruct (_ <? _); simpl; [|apply lookup_insert_eq]. rewrite map_lookup_filter_Some, lookup_insert_eq. split; [done|]. lia.
Qed.

Lemma remember_keeps r reply d seq x :
  Replies d !! seq = Some x → rq_SeqNum r ≠ seq → rq_SeqNum r ≤ seq + 100 →
  Replies (remember r reply (Some d)) !! seq = Some x.
Proof.
  intros Hx Hne Hle. simpl. destruct (_ <? _); simpl; [|by rewrite lookup_insert_ne].
  rewrite map_lookup_filter_Some, lookup_insert_ne by done. split; [done|]. lia.
Qed.

(** A cached reply survives every request that is not too far ahead. *)
Lemma DoOp_keeps r a q kv :
  (∀ r', raftReq_of q = Some r' → rq_ClientId r' = rq_ClientId r → rq_SeqNum r' ≤ rq_SeqNum r + 100) →
  duplicate r kv = Some a → duplicate r (DoOp q kv).1 = Some a.
Proof.
  intros Hq Ha. unfold DoOp. destruct (raftReq_of q) as [r'|]; [|done].
  destruct (duplicate r' kv) as [b|] eqn:Eb; [done|]. destruct (execute r' (cache kv)) as [[c reply]|]; [|done].
  unfold duplicate in *. simpl. destruct (decide (rq_ClientId r' = rq_ClientId r)) as [Ec|Hc]; [|by rewrite lookup_insert_ne].
  rewrite Ec, lookup_insert_eq in *. destruct (clientMap kv !! rq_ClientId r) as [d|]; [|done]. simpl in *.
  apply remember_keeps; [done| |by apply Hq]. intros E. rewrite E in Eb. congruence.
Qed.

Lemma run_ops_keeps r a reqs kv :
  within 100 r reqs → duplicate r kv = Some a → duplicate r (run_ops reqs kv) = Some a.
Proof.
  intros Hw. revert kv. induction Hw as [|q reqs Hq _ IH]; intros kv Ha; [done|]. simpl. apply IH. by apply DoOp_keeps.
Qed.

Lemma DoOp_duplicate r a kv : duplicate r kv = Some a → DoOp (AnyVal r) kv = (kv, a).
Proof. intros E. unfold DoOp. simpl. by rewrite E. Qed.

Lemma DoOp_cached r kv : known_command r → duplicate r (DoOp (AnyVal r) kv).1 = Some (DoOp (AnyVal r) kv).2.
Proof.
  intros Hk. unfold DoOp. simpl. destruct (duplicate r kv) as [b|] eqn:Eb; [done|].
  destruct (execute_known r (cache kv) Hk) as [[c reply] ->]. simpl. unfold duplicate. simpl. rewrite lookup_insert_eq. simpl.
  apply remember_self.
Qed.

(** C15 (Exactly once).  Executing a Get or Put again, after any other requests of
    which those of the same client are at most 100 ahead, changes nothing and
    gives the reply of the first execution. *)
Theorem doop_exactly_once r reqs kv :
  known_command r → within 100 r reqs →
  DoOp (AnyVal r) (run_ops reqs (DoOp (AnyVal r) kv).1) =
    (run_ops reqs (DoOp (AnyVal r) kv).1, (DoOp (AnyVal r) kv).2).
Proof. intros Hk Hw. apply DoOp_duplicate, run_ops_keeps; [done|]. by apply DoOp_cached. Qed.

(** ** The sequential model *)

Definition abs (k : string) (kv : KVServer) : KvState :=
  match cache kv !! k with Some p => mkKvState (Value p) (Version p) | None => KvInit end.

Definition model_input (r : RaftReqMsg) : KvInput :=
  mkKvInput (if decide (rq_Command r = PutMethod) then 1 else 0) (rq_Key r) (rq_Value r) (rq_Version r).

(** The service implements the sequential model: a Get or Put that is not a
    retransmission takes its key exactly where KvModel.Step of models1/kv.go takes
    it, with a reply the model accepts, and leaves every other key alone. *)
Lemma DoOp_refines r kv :
  known_command r → duplicate r kv = None →
  let kv' := (DoOp (AnyVal r) kv).1 in
  let a := (DoOp (AnyVal r) kv).2 in
  KvStep (abs (rq_Key r) kv) (model_input r) (mkKvOutput (rp_Value a) (rp_Version a) (rp_Err a)) =
    (true, Some (abs (rq_Key r) kv')) ∧
  rp_Command a = rq_Command r ∧
  (rq_Command r = GetMethod → cache kv' = cache kv) ∧
  ∀ k, k ≠ rq_Key r → abs k kv' = abs k kv.
Proof.
  intros Hk Hd. unfold DoOp. simpl. rewrite Hd. unfold execute, model_input, KvStep, abs.
  destruct (decide (rq_Command r = GetMethod)) as [Eg|Hg].
  - rewrite decide_False by (rewrite Eg; done). cbn -[bool_decide]. split_and!; try done; [|by destruct (cache kv !! rq_Key r)].
    by destruct (cache kv !! rq_Key r); cbn -[bool_decide]; rewrite bool_decide_true.
  - rewrite !decide_True by (by destruct Hk). assert (Ep : rq_Command r = PutMethod) by (by destruct Hk).
    destruct (cache kv !! rq_Key r) as [p|] eqn:E; cbn -[Z.eqb wrap_u64 bool_decide].
    + destruct (Z.eqb_spec (Version p) (rq_Version r)); cbn -[Z.eqb wrap_u64 bool_decide];
        rewrite ?lookup_insert_eq, ?E; split_and!; try done;
        intros k Hne; by rewrite ?lookup_insert_ne.
    + rewrite (Z.eqb_sym 0). destruct (Z.eqb_spec (rq_Version r) 0); cbn -[Z.eqb wrap_u64 bool_decide];
        rewrite ?lookup_insert_eq, ?E; split_and!; try done;
        intros k Hne; by rewrite ?lookup_insert_ne.
Qed.
