(* ===== verification/KVRaftProps.v ===== *)
(** * Properties of the replicated key/value service

    The clerk of client.go, the agreement of replicas that follow the same log,
    and the two places where the reply table and the pending operations do not do
    what the service needs. *)

From S2P Require Import Prelude KVSrv RaftUtil RaftNode RaftLog RaftWf RaftOps RaftRepl Cluster RSM RSMServer KVRaft.
Local Open Scope Z_scope.
Local Open Scope go_scope.

(** ** Replicas *)

Section replicas.
Context {R : Type} `{!RaftApi R (Op any)} `{!Gob (Z * Z * bytes)} `{!Gob (gmap string KVPair * gmap Z dupTab)}.

(** (Replicas of the key/value service agree).  Two servers that follow the
    same log, whatever snapshots, restarts and redeliveries each of them saw, hold
    the same keys, values and versions when they have applied the same number of
    entries, and give the same reply to every request that is not more than nine
    behind the newest one of its client. *)
Theorem kv_replicas_agree log (r1 r2 : RSM (R := R) (S := KVServer)) w1 w2 :
  log_ok log → rsm_ok log r1 → rsm_ok log r2 → follows log r1 w1 → follows log r2 w2 →
  rsm_lastApplied (node w1) = rsm_lastApplied (node w2) →
  cache (sm (node w1)) = cache (sm (node w2)) ∧
  ∀ req, fresh (sm (node w2)) req → (DoOp req (sm (node w1))).2 = (DoOp req (sm (node w2))).2.
Proof.
  intros Hlog H1 H2 F1 F2 E.
  destruct (ro_equiv _ _ (rp_node _ _ (follows_ok log r1 w1 Hlog H1 F1))) as (s1 & E1 & _ & Q1).
  destruct (ro_equiv _ _ (rp_node _ _ (follows_ok log r2 w2 Hlog H2 F2))) as (s2 & E2 & _ & Q2).
  rewrite E, E2 in E1. injection E1 as ->.
  assert (Q : kv_equiv (sm (node w1)) (sm (node w2))) by (etransitivity; [exact Q1|symmetry; exact Q2]).
  split; [apply Q|]. intros req Hf. by apply DoOp_equiv.
Qed.

(** A retransmission of an old request: client 1 asked to write version 1 of a
    key that did not exist (ErrVersion), client 2 created the key, client 1 went
    on with ten more requests. *)
Definition late_put : any := AnyVal (mkRaftReqMsg PutMethod "k" "late" 1 1 1).
Definition window_log : list any :=
  late_put :: AnyVal (mkRaftReqMsg PutMethod "k" "new" 1 2 0) ::
  ((λ seq, AnyVal (mkRaftReqMsg GetMethod "k" "" seq 1 0)) <$> seqZ 2 10).

(** C40 (A snapshot forgets replies that the live server remembers).  After the
    same requests, a server restored from a snapshot executes a retransmission
    eleven requests old that the server which took the snapshot answers from its
    table: the reply differs and the stored value differs from then on. *)
Theorem snapshot_window_divergence kv0 :
  let live := run_ops window_log StartKVServer in
  ∃ restored, Restore (Snapshot live) kv0 = Some restored ∧ cache restored = cache live ∧
    DoOp late_put live = (live, mkRaftReplyMsg PutMethod "" 1 ErrVersion) ∧
    (DoOp late_put restored).2 = mkRaftReplyMsg PutMethod "" 2 OK ∧
    cache (DoOp late_put restored).1 !! "k" = Some (mkKVPair "late" 2) ∧
    cache (DoOp late_put live).1 !! "k" = Some (mkKVPair "new" 1).
Proof.
  intros live. exists (mkKVServer (cache live) (compactDupTab (clientMap live))).
  split; [apply Restore_Snapshot|]. split_and!; vm_compute; reflexivity.
Qed.
End replicas.

(** ** The clerk *)

(** A reply that does not end a Get carries nothing but its error. *)
Definition get_replies_ok (outs : list (option GetReply)) : Prop :=
  ∀ r, Some r ∈ outs → good_get (gr_Err r) = false → gr_Value r = "" ∧ gr_Version r = 0.

Lemma decode_Get_clean r reply :
  gr_Value reply = "" → gr_Version reply = 0 → good_get (gr_Err reply) = false →
  good_get (gr_Err (decode_Get r reply)) = good_get (gr_Err r) ∧
  gr_Value (decode_Get r reply) = gr_Value r ∧ gr_Version (decode_Get r reply) = gr_Version r ∧
  (good_get (gr_Err r) = true → gr_Err (decode_Get r reply) = gr_Err r).
Proof.
  destruct r as [v ver e], reply as [v0 ver0 e0]. unfold decode_Get, merge_string, merge_Z, merge_Err. simpl.
  intros -> -> E. repeat case_decide; subst; split_and!; done.
Qed.

Lemma GetLoop_result n leader todo reply outs :
  get_replies_ok outs → gr_Value reply = "" → gr_Version reply = 0 → good_get (gr_Err reply) = false →
  match GetLoop n leader todo reply outs with
  | Some (i, r) => Some r ∈ outs ∧ good_get (gr_Err r) = true
  | None => ∀ r, Some r ∈ outs → good_get (gr_Err r) = false
  end.
Proof.
  revert todo reply. induction outs as [|out outs IH]; intros todo reply Hok E1 E2 E3; cbn [GetLoop]; [by intros r ?%elem_of_nil|].
  assert (Hok' : get_replies_ok outs) by (intros r Hr; apply Hok; by right).
  set (start := match todo with [] => _ | _ => _ end).
  assert (Hs : gr_Value start.2 = "" ∧ gr_Version start.2 = 0 ∧ good_get (gr_Err start.2) = false).
  { unfold start. by destruct todo. }
  destruct start as [[srv todo'] reply']. simpl in Hs. destruct Hs as (S1 & S2 & S3). clear E1 E2 E3.
  assert (Hlift : ∀ x y, (∀ r, out = Some r → good_get (gr_Err r) = false) →
    match GetLoop n leader x y outs with
    | Some (i, r) => Some r ∈ outs ∧ good_get (gr_Err r) = true
    | None => ∀ r, Some r ∈ outs → good_get (gr_Err r) = false
    end →
    match GetLoop n leader x y outs with
    | Some (i, r) => Some r ∈ out :: outs ∧ good_get (gr_Err r) = true
    | None => ∀ r, Some r ∈ out :: outs → good_get (gr_Err r) = false
    end).
  { intros x y Hout. destruct (GetLoop n leader x y outs) as [[i r]|].
    - intros [Hin Hg]. split; [by right|done].
    - intros H r [<-|Hin]%elem_of_cons; [by apply Hout|by apply H]. }
  destruct out as [r|]; [|apply Hlift; [done|by apply IH]].
  destruct (decode_Get_clean r reply' S1 S2 S3) as (D1 & D2 & D3 & D4). rewrite D1.
  destruct (good_get (gr_Err r)) eqn:Eg.
  - split; [|by rewrite D1]. specialize (D4 eq_refl). assert (decode_Get r reply' = r) as ->; [|by left].
    destruct (decode_Get r reply') as [v ver e], r as [v' ver' e']. simpl in *. congruence.
  - apply Hlift; [by intros ? [= <-]|]. destruct (Hok r) as [V1 V2]; [by left|done|].
    apply IH; [done|congruence|congruence|by rewrite D1].
Qed.

(** (Clerk.Get).  However many servers fail or are not the leader, and although
    the reply variable is reused between servers, Clerk.Get returns exactly what
    some server sent with OK or ErrNoKey, and it returns as soon as one does. *)
Theorem kvraft_clerk_get outs ck :
  get_replies_ok outs →
  match (ClerkGet outs ck).2 with
  | Some (v, ver, e) => Some (mkGetReply v ver e) ∈ outs ∧ (e = OK ∨ e = ErrNoKey)
  | None => ∀ r, Some r ∈ outs → gr_Err r ≠ OK ∧ gr_Err r ≠ ErrNoKey
  end.
Proof.
  intros Hok. unfold ClerkGet.
  pose proof (GetLoop_result (ck_servers (bump ck)) (leaderIdx (bump ck)) [] (mkGetReply "" 0 ErrNone) outs Hok eq_refl eq_refl eq_refl) as H.
  destruct (GetLoop _ _ _ _ _) as [[i [v ver e]]|]; simpl.
  - destruct H as [Hin [Hg%bool_decide_eq_true|Hg%bool_decide_eq_true]%orb_true_iff]; simpl in *; auto.
  - intros r Hr. specialize (H r Hr). apply orb_false_iff in H as [H1%bool_decide_eq_false H2%bool_decide_eq_false]. done.
Qed.

(** What PutLoop makes of the calls before the one that ended it. *)
Lemma clerk_PutLoop_result n leader todo reply retried outs :
  (∀ r, Some r ∈ outs → pr_Err r ≠ ErrNone) →
  match PutLoop n leader todo reply retried outs with
  | Some (i, e) => ∃ pre r post, outs = pre ++ Some r :: post ∧ pr_Err r ≠ ErrWrongLeader ∧
      (∀ x, Some x ∈ pre → pr_Err x = ErrWrongLeader) ∧
      e = (if decide (pr_Err r = ErrVersion ∧ (retried = true ∨ None ∈ pre)) then ErrMaybe else pr_Err r)
  | None => ∀ r, Some r ∈ outs → pr_Err r = ErrWrongLeader
  end.
Proof.
  revert todo reply retried. induction outs as [|out outs IH]; intros todo reply retried Hok; cbn [PutLoop];
    [by intros r ?%elem_of_nil|].
  assert (Hok' : ∀ r, Some r ∈ outs → pr_Err r ≠ ErrNone) by (intros r Hr; apply Hok; by right).
  set (start := match todo with [] => _ | _ => _ end). destruct start as [[srv todo'] reply'].
  destruct out as [r|].
  - assert (E : pr_Err (decode_Put r reply') = pr_Err r).
    { unfold decode_Put, merge_Err. simpl. rewrite decide_False; [done|]. apply Hok. by left. }
    rewrite E. destruct (decide (pr_Err r ≠ ErrWrongLeader)) as [Hne|Heq%dec_stable].
    + exists [], r, outs. split_and!; try done; [by intros x ?%elem_of_nil|].
      repeat case_decide; try done; [intuition congruence|]. exfalso. destruct H0 as [? [?|?%elem_of_nil]]; [tauto|done].
    + specialize (IH todo' (decode_Put r reply') retried Hok').
      destruct (PutLoop n leader todo' (decode_Put r reply') retried outs) as [[i e]|].
      * destruct IH as (pre & x & post & -> & Hx & Hpre & ->). exists (Some r :: pre), x, post. split_and!; try done.
        -- intros y [[= ->]|Hy]%elem_of_cons; auto.
        -- apply decide_ext. rewrite elem_of_cons. intuition congruence.
      * intros y [[= ->]|Hy]%elem_of_cons; auto.
  - specialize (IH todo' reply' true Hok'). destruct (PutLoop n leader todo' reply' true outs) as [[i e]|].
    + destruct IH as (pre & x & post & -> & Hx & Hpre & ->). exists (None :: pre), x, post. split_and!; try done.
      * intros y [[=]|Hy]%elem_of_cons; auto.
      * apply decide_ext. rewrite elem_of_cons. intuition congruence.
    + intros y [[=]|Hy]%elem_of_cons; auto.
Qed.

(** (Clerk.Put).  Clerk.Put returns the error of the first reply that is not
    ErrWrongLeader, except that ErrVersion after a call that got no reply becomes
    ErrMaybe; it returns as soon as there is such a reply. *)
Theorem kvraft_clerk_put outs ck :
  (∀ r, Some r ∈ outs → pr_Err r ≠ ErrNone) →
  match (ClerkPut outs ck).2 with
  | Some e => ∃ pre r post, outs = pre ++ Some r :: post ∧ pr_Err r ≠ ErrWrongLeader ∧
      (∀ x, Some x ∈ pre → pr_Err x = ErrWrongLeader) ∧
      e = (if decide (pr_Err r = ErrVersion ∧ None ∈ pre) then ErrMaybe else pr_Err r)
  | None => ∀ r, Some r ∈ outs → pr_Err r = ErrWrongLeader
  end.
Proof.
  intros Hok. unfold ClerkPut.
  pose proof (clerk_PutLoop_result (ck_servers (bump ck)) (leaderIdx (bump ck)) [] (mkPutReply ErrNone) false outs Hok) as H.
  destruct (PutLoop _ _ _ _ _ _) as [[i e]|]; simpl; [|done].
  destruct H as (pre & r & post & -> & H1 & H2 & ->). exists pre, r, post. split_and!; try done.
  apply decide_ext. intuition congruence.
Qed.

(** ** Concrete codecs *)

#[export] Instance KVPair_eq_dec : EqDecision KVPair.
Proof. solve_decision. Defined.
#[export] Instance KVPair_countable : Countable KVPair.
Proof. refine (inj_countable' (λ p, (Value p, Version p)) (λ '(v, n), mkKVPair v n) _). by intros []. Defined.

#[export] Instance RaftReplyMsg_eq_dec : EqDecision RaftReplyMsg.
Proof. solve_decision. Defined.
#[export] Instance RaftReplyMsg_countable : Countable RaftReplyMsg.
Proof.
  refine (inj_countable' (λ r, (rp_Command r, rp_Value r, rp_Version r, rp_Err r))
    (λ '(c, v, n, e), mkRaftReplyMsg c v n e) _). by intros [].
Defined.

#[export] Instance dupTab_eq_dec : EqDecision dupTab.
Proof. solve_decision. Defined.
#[export] Instance dupTab_countable : Countable dupTab.
Proof. refine (inj_countable' (λ d, (Replies d, MaxSeqNum d)) (λ '(r, m), mkDupTab r m) _). by intros []. Defined.

#[export] Instance RaftReqMsg_eq_dec : EqDecision RaftReqMsg.
Proof. solve_decision. Defined.
#[export] Instance RaftReqMsg_countable : Countable RaftReqMsg.
Proof.
  refine (inj_countable' (λ r, (rq_Command r, rq_Key r, rq_Value r, rq_SeqNum r, rq_ClientId r, rq_Version r))
    (λ '(c, k, v, s, i, n), mkRaftReqMsg c k v s i n) _). by intros [].
Defined.

#[export] Instance any_eq_dec : EqDecision any.
Proof. solve_decision. Defined.
#[export] Instance any_countable : Countable any.
Proof.
  refine (inj_countable' (λ a, match a with AnyPtr r => inl r | AnyVal r => inr (Some r) | AnyOther => inr None end)
    (λ x, match x with inl r => AnyPtr r | inr (Some r) => AnyVal r | inr None => AnyOther end) _). by intros [].
Defined.

#[export] Instance kv_codec : Gob (gmap string KVPair * gmap Z dupTab) := countable_gob _.

(** ** A Put that is acknowledged and lost *)

(** Server 0 submits the Put of client 1 as its operation number 1, at index 1 of
    a term that ends before it is committed; what is committed at index 1 is the
    first operation of server 1, a Put of client 2 to another key. *)
Definition lost_put : PutArgs := mkPutArgs "x" "mine" 0 1 1.
Definition lost_req : RaftReqMsg := mkRaftReqMsg PutMethod "x" "mine" 1 1 0.
Definition other_req : RaftReqMsg := mkRaftReqMsg PutMethod "y" "theirs" 1 2 0.

Definition KvWorld : Type := RsmWorld (R := Raft (Op any)) (S := KVServer) (req := any) (rep := RaftReplyMsg).

Definition lost_events : list (RsmEvent (R := Raft (Op any)) (req := any)) :=
  ESubmit 0 (AnyVal lost_req) :: replicate 3 (EStep 0 WaitDone) ++
  [EMsg (CommandMsg (Some (mkOp 1 1 (AnyVal other_req))) 1)] ++ replicate 2 (EStep 0 WaitDone).

Section lost.
Context `{!Gob (PersistedState (Op any))}.

Definition lost_world : outcome KvWorld := rsm_run lost_events (rsm_start (replica0 StartKVServer)).

(** What the Put handler answers, from the result of Submit. *)
Definition put_answer (o : outcome KvWorld) : option Err :=
  match o with
  | Next w => sub ← subs w !! 0%nat; '(err, res) ← s_ret sub; Some (pr_Err (Put_reply err res))
  | _ => None
  end.

(** (A Put can be acknowledged and lost).  The handler submits exactly the
    request of the client, Submit returns OK with the reply of another client's
    Put, and the client is told OK although its key was never written. *)
Theorem put_acknowledged_and_lost :
  Put_submit lost_put false false true = inr lost_req ∧
  put_answer lost_world = Some OK ∧
  ∃ w, lost_world = Next w ∧ cache (sm (node w)) !! "x" = None ∧
    applied w = [(1, mkOp 1 1 (AnyVal other_req), mkRaftReplyMsg PutMethod "" 1 OK)].
Proof.
  split; [done|]. split; [vm_compute; reflexivity|].
  destruct lost_world as [w| |] eqn:E; [|by vm_compute in E|by vm_compute in E]. exists w.
  vm_compute in E. injection E as <-. split_and!; vm_compute; reflexivity.
Qed.
End lost.

(** ** Witnesses *)

Definition req_put : RaftReqMsg := mkRaftReqMsg PutMethod "k" "v" 1 1 0.
Definition req_get : RaftReqMsg := mkRaftReqMsg GetMethod "k" "" 2 1 0.

Lemma doop_exactly_once_witness :
  (DoOp (AnyVal req_put) StartKVServer).2 = mkRaftReplyMsg PutMethod "" 1 OK ∧
  DoOp (AnyVal req_put) (run_ops [AnyVal req_get] (DoOp (AnyVal req_put) StartKVServer).1) =
    (run_ops [AnyVal req_get] (DoOp (AnyVal req_put) StartKVServer).1, (DoOp (AnyVal req_put) StartKVServer).2).
Proof.
  split; [vm_compute; reflexivity|].
  refine (doop_exactly_once req_put [AnyVal req_get] StartKVServer _ _); [by right|].
  repeat constructor. intros r' [= <-] _. simpl. lia.
Defined.

Definition get_outs : list (option GetReply) :=
  [Some (mkGetReply "" 0 ErrWrongLeader); None; Some (mkGetReply "v" 1 OK)].

Lemma kvraft_clerk_get_witness :
  (ClerkGet get_outs (mkClerk 3 1 0 0)).2 = Some ("v", 1, OK) ∧ Some (mkGetReply "v" 1 OK) ∈ get_outs ∧ (OK = OK ∨ OK = ErrNoKey).
Proof.
  split; [vm_compute; reflexivity|]. refine (kvraft_clerk_get get_outs (mkClerk 3 1 0 0) _).
  intros r Hr Hg. unfold get_outs in Hr. rewrite !elem_of_cons, elem_of_nil in Hr.
  destruct Hr as [[= ->]|[[=]|[[= ->]|[]]]]; done.
Defined.

(** A lost reply and a refusal: the clerk cannot know. *)
Lemma kvraft_clerk_put_witness :
  match (ClerkPut [None; Some (mkPutReply ErrVersion)] (mkClerk 3 1 0 0)).2 with
  | Some e => e = ErrMaybe
  | None => False
  end.
Proof.
  pose proof (kvraft_clerk_put [None; Some (mkPutReply ErrVersion)] (mkClerk 3 1 0 0)) as H.
  destruct H as (pre & r & post & E & H1 & H2 & H3).
  - intros r Hr. rewrite !elem_of_cons, elem_of_nil in Hr. destruct Hr as [[=]|[[= ->]|[]]]; done.
  - vm_compute. done.
Defined.

(** Two replicas on Rafts that have delivered everything: one fed the commands,
    one fed nothing. *)
#[local, refine] Instance kv_delivered_raft : RaftApi Z (Op any) := {|
  ra_Make _ _ _ := Some 2;
  ra_Start _ r := Some (r, (-1, -1, false));
  ra_GetState _ := (0, false);
  ra_Snapshot _ _ r := Some r;
  ra_PersistBytes _ := 0;
  ra_Kill r := r;
  ra_ok _ := True;
  ra_applied r := r
|}.
Proof.
  - intros c r _. by eexists _, _.
  - intros i b r _ _. by eexists.
  - done.
Defined.

Definition kv_log : list (Op any) := [mkOp 0 1 (AnyVal req_put)].

(** One replica starts at index 0 and applies the entry, the other is restored
    from a snapshot at index 1. *)
Definition kv_replica (s : KVServer) (i : Z) : RSM (R := Z) (S := KVServer) (req := any) (rep := RaftReplyMsg) :=
  mkRSM 0 2 (-1) s 0 i ∅ ∅ 0 false.

Lemma kv_log_ok : log_ok kv_log.
Proof.
  intros i op Hi. destruct i as [|i]; simplify_eq/=. exists StartKVServer.
  split; [done|]. split; [apply map_Forall_empty|]. split; [simpl; lia|]. intros d. simpl. by rewrite lookup_empty.
Qed.

Definition restored : KVServer :=
  mkKVServer (cache (DoOp (AnyVal req_put) StartKVServer).1) (compactDupTab (clientMap (DoOp (AnyVal req_put) StartKVServer).1)).

Lemma put_wf : kv_wf (DoOp (AnyVal req_put) StartKVServer).1.
Proof.
  apply DoOp_wf; [apply map_Forall_empty|]. split; [simpl; lia|]. intros d. simpl. by rewrite lookup_empty.
Qed.

Lemma kv_replica_ok : rsm_ok kv_log (kv_replica StartKVServer 0) ∧ rsm_ok kv_log (kv_replica restored 1).
Proof.
  destruct (compact_ok _ put_wf) as [H1 H2]. split; (constructor; [done|simpl; unfold go_len; simpl; lia|simpl; lia| |]).
  - apply map_Forall_empty.
  - exists StartKVServer. split; [done|]. split; [apply map_Forall_empty|reflexivity].
  - exact H1.
  - exists (DoOp (AnyVal req_put) StartKVServer).1. split; [reflexivity|]. split; [exact put_wf|exact H2].
Qed.

Lemma kv_replicas_agree_witness :
  ∃ w1 w2, follows kv_log (kv_replica StartKVServer 0) w1 ∧ follows kv_log (kv_replica restored 1) w2 ∧
    cache (sm (node w1)) = cache (sm (node w2)).
Proof.
  destruct (rsm_step (EMsg (CommandMsg (Some (mkOp 0 1 (AnyVal req_put))) 1)) (rsm_start (kv_replica StartKVServer 0)))
    as [w1| |] eqn:E1; [|by vm_compute in E1|by vm_compute in E1].
  assert (F1 : follows kv_log (kv_replica StartKVServer 0) w1).
  { apply (follows_step _ _ (EMsg (CommandMsg (Some (mkOp 0 1 (AnyVal req_put))) 1)) (rsm_start (kv_replica StartKVServer 0)));
      [constructor| |exact E1]. simpl. split; [by eexists|]. simpl. lia. }
  exists w1, (rsm_start (kv_replica restored 1)). split; [exact F1|]. split; [constructor|].
  assert (El : rsm_lastApplied (node w1) = 1) by (vm_compute in E1; injection E1 as <-; reflexivity).
  exact (proj1 (kv_replicas_agree kv_log _ _ w1 _ kv_log_ok (proj1 kv_replica_ok) (proj2 kv_replica_ok) F1 (follows_start _ _) El)).
Defined.

Lemma snapshot_window_divergence_witness :
  ∃ restored, Restore (Snapshot (run_ops window_log StartKVServer)) StartKVServer = Some restored ∧
    cache restored = cache (run_ops window_log StartKVServer).
Proof.
  destruct (snapshot_window_divergence StartKVServer) as (r & H1 & H2 & _). exists r. split; [exact H1|exact H2].
Defined.
