(* ===== verification/System.v ===== *)
(** * The replicated service as a whole

    Every server runs a peer of the Raft cluster and a replica of the service on
    top of it: the cluster of Cluster.v and the replicas of RSM.v side by side.
    The peer of a server is one object, of which the replica holds a pointer; here
    the replica's copy is refreshed from the cluster after every step ([sync]).
    The applier of a peer hands messages to the reader of its replica through
    [applyCh], in order; the queue is not bounded, which covers the message the
    applier is blocked with and the one the reader has received.  A crash loses
    everything but the persister, from which [MakeRSM] starts a new replica.

    [past] remembers the replicas of earlier lives of the servers, and
    [log_of] reads off the sequence of operations the cluster has agreed on;
    neither is part of the program. *)

From S2P Require Import Prelude KVSrv RaftUtil RaftNode RaftLog RaftWf RaftOps RaftRepl Cluster LogTree ElectionSafety Protocol LogMatching Completeness StateMachineSafety SnapshotFlow AppliedLog RSM RSMServer.
Local Open Scope Z_scope.
Local Open Scope go_scope.

Section system.
Context {S req rep : Type} `{!StateMachine S req rep}.
Context `{!Gob (PersistedState (Op req))} `{!Gob (Z * Z * bytes)}.
(** The same limit on every server; -1 when the service takes no snapshots. *)
Variable maxraft : Z.

Abbreviation Rsm := (RSM (R := Raft (Op req)) (S := S) (req := req) (rep := rep)).
Abbreviation Replica := (RsmWorld (R := Raft (Op req)) (S := S) (req := req) (rep := rep)).
Abbreviation ServiceEvent := (RsmEvent (R := Raft (Op req)) (req := req)).

Record Server := mkServer {
  replica_of : Replica;
  applyCh : list (ApplyMsg (Op req))
}.

Record SysWorld := mkSysWorld {
  cluster : World (Op req);
  servers : list Server;
  past : list (Z * Replica)
}.

Definition set_raft (rf : Raft (Op req)) (s : Server) : Server :=
  mkServer (RSM.set_node (set_rf rf (node (replica_of s))) (replica_of s)) (applyCh s).

Definition sync (c : World (Op req)) (ss : list Server) : list Server := zip_with set_raft (nodes c) ss.

(** The steps a replica takes by itself; raft.go never closes applyCh. *)
Definition service_event (ev : ServiceEvent) : bool :=
  match ev with
  | ESubmit _ _ | EStep _ _ | ETimeout _ | ECreateSnapshot | EKill => true
  | EMsg _ | EClosed | ERaft _ => false
  end.

(** The method of its peer that a replica calls in a step. *)
Definition raft_call (i : Z) (ev : ServiceEvent) (r : Replica) : option (Event (Op req)) :=
  match ev with
  | EStep t _ =>
      match s_pc <$> subs r !! t with
      | Some (SubOp op) => Some (EvStart i (Some op))
      | _ => None
      end
  | ECreateSnapshot =>
      index ← toSnapshot r;
      let r := node r in
      if rsm_lastApplied r <? index then None
      else Some (EvSnapshot i (rsm_lastApplied r) (Some (gob_encode (opId r, rsm_lastApplied r, sm_Snapshot (sm r)))))
  | EKill => Some (EvKill i)
  | _ => None
  end.

Inductive SysEvent :=
  | SysRaft (ev : Event (Op req))
  | SysApply (i : Z)                     (* the applier of [i] takes a message *)
  | SysRead (i : Z)                      (* the reader of [i] handles one *)
  | SysService (i : Z) (ev : ServiceEvent)
  | SysCrash (i : Z).

Definition put_server (i : Z) (s : Server) (c : World (Op req)) (w : SysWorld) : SysWorld :=
  mkSysWorld c (sync c (<[Z.to_nat i := s]> (servers w))) (past w).

Definition sys_step (ev : SysEvent) (w : SysWorld) : outcome SysWorld :=
  match ev with
  | SysRaft ev =>
      if network_event ev then
        c <~ step ev (cluster w) ;;
        Next (mkSysWorld c (sync c (servers w)) (past w))
      else Disabled
  | SysApply i =>
      s <~ enabled (servers w).[i] ;;
      rf <~ enabled (nodes (cluster w)).[i] ;;
      x <~ run_go (applier rf) ;;
      c <~ step (EvApply i) (cluster w) ;;
      Next (put_server i (mkServer (replica_of s) (applyCh s ++ sent x.2)) c w)
  | SysRead i =>
      s <~ enabled (servers w).[i] ;;
      match applyCh s with
      | [] => Disabled
      | msg :: rest =>
          r <~ rsm_step (EMsg msg) (replica_of s) ;;
          Next (put_server i (mkServer r rest) (cluster w) w)
      end
  | SysService i ev =>
      s <~ enabled (servers w).[i] ;;
      if service_event ev then
        r <~ rsm_step ev (replica_of s) ;;
        c <~ match raft_call i ev (replica_of s) with
             | Some call => step call (cluster w)
             | None => Next (cluster w)
             end ;;
        Next (put_server i (mkServer r (applyCh s)) c w)
      else Disabled
  | SysCrash i =>
      s <~ enabled (servers w).[i] ;;
      rf <~ enabled (nodes (cluster w)).[i] ;;
      r <~ run_go (MakeRSM (peers rf) (me rf) (persister rf) maxraft sm_init) ;;
      c <~ step (EvCrash i) (cluster w) ;;
      let w' := put_server i (mkServer (rsm_start r) []) c w in
      Next (mkSysWorld (cluster w') (servers w') ((i, replica_of s) :: past w))
  end.

Fixpoint sys_run (evs : list SysEvent) (w : SysWorld) : outcome SysWorld :=
  match evs with [] => Next w | ev :: evs => w <~ sys_step ev w ;; sys_run evs w end.

(** [n] servers started on empty persisters. *)
Definition boot (n : nat) (i : nat) : Server :=
  mkServer (rsm_start (mkRSM (Z.of_nat i) (fresh_raft (Z.of_nat n) (Z.of_nat i) MakePersister) maxraft sm_init 0 0 ∅ ∅ 0 false)) [].

Definition sys_start (n : nat) : SysWorld := mkSysWorld (init_world n) (boot n <$> seq 0 n) [].

Definition sys_log (w : SysWorld) : list (Op req) := log_of (delivered (cluster w)).

Lemma boot_MakeRSM n i :
  (i < n)%nat →
  MakeRSM (R := Raft (Op req)) (Z.of_nat n) (Z.of_nat i) MakePersister maxraft sm_init = Some (node (replica_of (boot n i))).
Proof.
  intros Hi. unfold MakeRSM. simpl. destruct (Make_init (cmd := Op req) (Z.of_nat n) (Z.of_nat i)) as [-> _]; [lia|].
  bind_simpl. by destruct (0 <=? maxraft).
Qed.

(** ** The log only grows *)

Context `{!StateMachineLaws S req rep}.
Implicit Types (L : list (Op req)) (w : SysWorld) (sv : Server) (r : Replica) (rf : Raft (Op req)).

Lemma snap_ok_mono L L' b i : L `prefix_of` L' → snap_ok L b i → snap_ok L' b i.
Proof.
  intros Hp (oid & s & s0 & E & Hi & W & E0 & W0 & Q). exists oid, s, s0.
  rewrite (take_prefix L) by (done || lia). split_and!; try done; [lia|].
  apply prefix_length in Hp. unfold go_len in *. lia.
Qed.

Definition executed_ok L (app : list (Z * Op req * rep)) : Prop :=
  ∀ i op a, (i, op, a) ∈ app → L !! Z.to_nat (i - 1) = Some op ∧
    ∃ s s', replay (take (Z.to_nat (i - 1)) L) = Some s ∧ DoOp (Req op) s = Some (s', a).

Lemma executed_ok_mono L L' app : L `prefix_of` L' → executed_ok L app → executed_ok L' app.
Proof.
  intros Hp H i op a Hin. destruct (H i op a Hin) as [Hl Hs]. split; [by eapply lookup_prefix|].
  apply lookup_lt_Some in Hl. rewrite (take_prefix L) by (done || unfold go_len; lia). done.
Qed.

Lemma replica_ok_mono L L' r : L `prefix_of` L' → replica_ok L r → replica_ok L' r.
Proof.
  intros Hp [[R1 R2 R3 R4 R5] H2 H3]. constructor.
  - constructor; try done; [apply prefix_length in Hp; unfold go_len in *; lia|]. by rewrite (take_prefix L) by (done || lia).
  - by apply (executed_ok_mono L).
  - intros i b Hin. eapply snap_ok_mono; eauto.
Qed.

(** ** The invariant *)

(** The snapshots that are good for the system. *)
Definition good_snapshot L (b : bytes) (k : Z) : Prop := 0 < maxraft ∧ snap_ok L b k.

Record server_ok L (i : Z) sv rf : Prop := {
  so_rf : RSM.rf (node (replica_of sv)) = rf;
  so_me : rsm_me (node (replica_of sv)) = i;
  so_maxraft : maxraftstate (node (replica_of sv)) = maxraft;
  so_replica : replica_ok L (replica_of sv);
  so_submit : submit_inv (replica_of sv);
  so_snapshots : is_Some (toSnapshot (replica_of sv)) → 0 < maxraft;
  so_queue : shutdown (node (replica_of sv)) = false →
    queue_ok good_snapshot L (rsm_lastApplied (node (replica_of sv))) (applyCh sv) rf
}.

(** [r] is or was the replica of server [i]. *)
Definition life w (i : Z) r : Prop :=
  (∃ sv, (servers w).[i] = Some sv ∧ replica_of sv = r) ∨ (i, r) ∈ past w.

(** A Submit on server [i] drew the operation [op]. *)
Definition submitted w (i : Z) (op : Op req) : Prop :=
  ∃ r t sub, life w i r ∧ subs r !! t = Some sub ∧ sub_op (s_pc sub) = Some op.

Record sys_inv (n : nat) w : Prop := {
  sy_feed : feed_inv good_snapshot n (cluster w);
  sy_servers : length (servers w) = n;
  sy_starts j e p : HStart j e p ∈ history (cluster w) → ∃ op, Command e = Some op ∧ submitted w j op;
  sy_server i sv rf : (servers w).[i] = Some sv → (nodes (cluster w)).[i] = Some rf → server_ok (sys_log w) i sv rf;
  sy_past i r : (i, r) ∈ past w → executed_ok (sys_log w) (applied r) ∧ submit_inv r ∧ rsm_me (node r) = i
}.

(** ** What a step of a replica changes *)

Definition setting (x : Rsm) : Z * Z * bool := (rsm_me x, maxraftstate x, shutdown x).

Lemma notify_all_setting (g : Z → bool) (x : Rsm) (m : gmap Z nat) :
  setting (map_fold (λ i p x, if g i then send_done p false x else x) x m) = setting x.
Proof.
  apply (map_fold_weak_ind (λ x' _, setting x' = setting x)); [done|]. intros i p m' x' _ <-. by destruct (g i).
Qed.

Lemma answer_setting op a i (x : Rsm) : setting (answer op a i x) = setting x.
Proof. unfold answer. repeat case_match; done. Qed.

Lemma register_setting op i (x : Rsm) : setting (doSubmit_register op i x).1 = setting x.
Proof. unfold doSubmit_register. repeat case_match; done. Qed.

Lemma wait_setting p term case (x x' : Rsm) o : waitForResult p term case x = Some (x', o) → setting x' = setting x.
Proof.
  destruct case; simpl.
  - destruct (isShutdown x); [|done]. by intros [= <- <-].
  - destruct (heap x !! p) as [po|]; simpl; [|done]. destruct (po_done po); simpl; [|done]. by intros [= <- <-].
  - destruct (isShutdown x); [by intros [= <- <-]|]. by destruct (_ || _); intros [= <- <-].
Qed.

(** The Submits of [r] are those of [r'], with their operations. *)
Definition keeps_subs r r' : Prop :=
  ∀ t sub op, subs r !! t = Some sub → sub_op (s_pc sub) = Some op →
    ∃ sub', subs r' !! t = Some sub' ∧ sub_op (s_pc sub') = Some op.

Lemma keeps_subs_refl r r' : subs r' = subs r → keeps_subs r r'.
Proof. intros E t sub op Ht Ho. rewrite E. eauto. Qed.

Lemma keeps_subs_set r x t sub :
  (∀ old op, subs r !! t = Some old → sub_op (s_pc old) = Some op → sub_op (s_pc sub) = Some op) →
  keeps_subs r (set_sub t sub (RSM.set_node x r)).
Proof.
  intros H u old op Hu Ho. simpl. destruct (decide (t = u)) as [<-|].
  - exists sub. rewrite lookup_insert_eq. eauto.
  - exists old. by rewrite lookup_insert_ne.
Qed.

Record service_post r r' : Prop := {
  sp_me : rsm_me (node r') = rsm_me (node r);
  sp_maxraft : maxraftstate (node r') = maxraftstate (node r);
  sp_shutdown : shutdown (node r') = false → shutdown (node r) = false;
  sp_applied : rsm_lastApplied (node r') = rsm_lastApplied (node r);
  sp_snapshot : is_Some (toSnapshot r') → is_Some (toSnapshot r);
  sp_subs : keeps_subs r r'
}.

(** A step that leaves the core of the replica alone but for its Raft. *)
Lemma service_post_intro r x t sub :
  setting x = setting (node r) → (core x).1.2 = (core (node r)).1.2 →
  (∀ old op, subs r !! t = Some old → sub_op (s_pc old) = Some op → sub_op (s_pc sub) = Some op) →
  service_post r (set_sub t sub (RSM.set_node x r)).
Proof. unfold setting. intros [= E1 E2 E3] Ec Hsub. constructor; simpl; try done; [congruence|by apply keeps_subs_set]. Qed.

Lemma sub_step_post t case r r' : sub_step t case r = Next r' → service_post r r'.
Proof.
  unfold sub_step. destruct (subs r !! t) as [[q pc ret]|] eqn:Ht; simpl; [|done].
  assert (Hold : ∀ sub : Sub (req := req) (rep := rep), (∀ op, sub_op pc = Some op → sub_op (s_pc sub) = Some op) →
    ∀ old op, subs r !! t = Some old → sub_op (s_pc old) = Some op → sub_op (s_pc sub) = Some op).
  { intros sub H old op. rewrite Ht. intros [= <-]. apply H. }
  destruct pc as [|op|op i term|op p i term|op i res|o]; simpl.
  - destruct (doSubmit_op q (node r)) as [x o] eqn:E. intros [= <-].
    unfold doSubmit_op in E. destruct (isShutdown (node r)); injection E as <- <-; by apply service_post_intro, Hold.
  - unfold doSubmit_start. destruct (ra_Start _ _) as [[rf' [[i term] il]]|]; simpl; [|done]. intros [= <-].
    apply service_post_intro; [done..|]. apply Hold. by destruct il.
  - destruct (doSubmit_register op i (node r)) as [x o] eqn:E. intros [= <-].
    assert (Ex : x = (doSubmit_register op i (node r)).1) by (by rewrite E). rewrite Ex.
    apply service_post_intro; [apply register_setting|by rewrite register_core|]. apply Hold. by destruct o.
  - destruct (waitForResult p term case (node r)) as [[x o]|] eqn:E; simpl; [|done]. intros [= <-].
    apply service_post_intro; [by eapply wait_setting|by rewrite (wait_core _ _ _ _ _ _ E)|]. apply Hold. by destruct o.
  - intros [= <-]. by apply service_post_intro, Hold.
  - done.
Qed.

Lemma service_step ev r r' : service_event ev = true → rsm_step ev r = Next r' → service_post r r'.
Proof.
  destruct ev as [t q|t case|t|msg| | | |rf']; simpl; intros Hs; try done.
  - destruct (subs r !! t) eqn:Ht; [done|]. intros [= <-]. apply (service_post_intro r (node r)); [done..|]. by rewrite Ht.
  - apply sub_step_post.
  - destruct (subs r !! t) as [sub|] eqn:Ht; simpl; [|done]. intros [= <-].
    apply (service_post_intro r (node r)); [done..|]. rewrite Ht. by intros old op [= <-].
  - destruct (toSnapshot r) as [i|] eqn:Et; simpl; [|done]. unfold createSnapshot.
    destruct (_ <? i); simpl; [|destruct (Snapshot _ _ _); simpl; [|done]]; intros [= <-];
      (constructor; simpl; try done; by apply keeps_subs_refl).
  - intros [= <-]. pose proof (doShutdown_core (node r)) as Ec.
    pose proof (notify_all_setting (λ _, true) (set_shutdown true (node r)) (pendingOps (node r))) as Es.
    unfold setting in Es. injection Es as E1 E2 E3. unfold core in Ec. injection Ec as C1 C2 C3.
    constructor; simpl; try done; [|by apply keeps_subs_refl]. intros Hf.
    by pose proof (eq_trans (eq_sym E3) Hf).
Qed.

(** A step of the replica and the call of its peer agree on the peer. *)
Lemma service_raft i ev r r' (c c' : World (Op req)) :
  service_event ev = true → rsm_step ev r = Next r' → (nodes c).[i] = Some (RSM.rf (node r)) →
  match raft_call i ev r with Some call => step call c | None => Next c end = Next c' →
  (nodes c').[i] = Some (RSM.rf (node r')).
Proof.
  intros Hs Hr Hi. destruct ev as [t q|t case|t|msg| | | |rf']; simpl in *; try done.
  - destruct (subs r !! t); [done|]. injection Hr as <-. intros [= <-]. done.
  - unfold sub_step in Hr. destruct (subs r !! t) as [[q pc ret]|]; simpl in *; [|done].
    destruct pc as [|op|op k term|op p k term|op k res|o]; simpl in *.
    + unfold doSubmit_op in Hr. destruct (isShutdown _); injection Hr as <-; by intros [= <-].
    + unfold doSubmit_start in Hr. simpl in Hr. unfold step_start. rewrite Hi. simpl.
      destruct (Start (Some op) (RSM.rf (node r))) as [[rf' [[k term] il]]|]; simpl in *; [|done]. injection Hr as <-.
      assert (Hn : (nodes (Cluster.set_node i rf' c)).[i] = Some rf') by (simpl; rewrite (nodes_insert _ _ _ _ _ Hi); by rewrite decide_True).
      destruct il; intros [= <-]; exact Hn.
    + destruct (doSubmit_register op k (node r)) as [x o] eqn:E. injection Hr as <-. intros [= <-].
      pose proof (register_core op k (node r)) as Ec. rewrite E in Ec. injection Ec as E1 _ _. simpl. by rewrite E1.
    + destruct (waitForResult p term case (node r)) as [[x o]|] eqn:E; simpl in Hr; [|done]. injection Hr as <-. intros [= <-].
      pose proof (wait_core _ _ _ _ _ _ E) as Ec. injection Ec as E1 _ _. simpl. by rewrite E1.
    + injection Hr as <-. by intros [= <-].
    + done.
  - destruct (subs r !! t); simpl in Hr; [|done]. injection Hr as <-. by intros [= <-].
  - destruct (toSnapshot r) as [k|]; simpl in *; [|done]. unfold createSnapshot in Hr. simpl in Hr.
    destruct (rsm_lastApplied (node r) <? k); simpl in *; [injection Hr as <-; by intros [= <-]|].
    unfold step_snapshot. rewrite Hi. simpl. destruct (_ <? _); [done|].
    destruct (Snapshot _ _ _) as [rf'|]; simpl in *; [|done]. injection Hr as <-. intros [= <-]. simpl.
    rewrite (nodes_insert _ _ _ _ _ Hi). by rewrite decide_True.
  - injection Hr as <-. rewrite Hi. simpl. intros [= <-]. simpl. rewrite (nodes_insert _ _ _ _ _ Hi), decide_True by done.
    pose proof (doShutdown_core (node r)) as Ec. injection Ec as E1 _ _. simpl. by rewrite E1.
Qed.

(** The reader moves [lastApplied] to the index of the message and nothing else
    that matters here. *)
Record read_post (msg : ApplyMsg (Op req)) r r' : Prop := {
  rd_rf : RSM.rf (node r') = RSM.rf (node r);
  rd_setting : setting (node r') = setting (node r);
  rd_applied : shutdown (node r) = false →
    rsm_lastApplied (node r') = Z.max (rsm_lastApplied (node r)) (match msg with CommandMsg _ k | SnapshotMsg _ _ k => k end);
  rd_snapshot : is_Some (toSnapshot r') → 0 < maxraftstate (node r);
  rd_subs : subs r' = subs r
}.

Lemma read_step msg r r' : rsm_step (EMsg msg) r = Next r' → read_post msg r r'.
Proof.
  simpl. destruct (toSnapshot r); [done|]. unfold reader. destruct (shutdown (node r)) eqn:Hs.
  { simpl. intros [= <-]. constructor; simpl; try done. congruence. }
  destruct msg as [[op|] k|b t k]; simpl; [| done |].
  - destruct (Z.leb_spec k (rsm_lastApplied (node r))); simpl.
    { intros [= <-]. constructor; simpl; try done. intros; lia. }
    destruct (DoOp (Req op) (sm (node r))) as [[s' a]|]; simpl; [|done]. intros [= <-].
    set (x := set_applied k (set_sm s' (node r))). pose proof (answer_core op a k x) as Ec. injection Ec as E1 E2 E3.
    pose proof (answer_setting op a k x) as Es. pose proof (proj1 (answer_fields op a k x)) as Em. constructor; simpl; try done.
    + intros _. rewrite E2. simpl. lia.
    + rewrite Em. destruct (Z.ltb_spec 0 (maxraftstate x)); [done|]. by intros [? [=]].
  - unfold applySnapshot. destruct (Z.leb_spec k (rsm_lastApplied (node r))); simpl.
    { intros [= <-]. constructor; simpl; try done. intros; lia. }
    destruct (gob_decode b) as [[[oid j] ss]|]; simpl; [|done]. destruct (negb _); simpl; [done|].
    destruct (sm_Restore ss (sm (node r))) as [s'|]; simpl; [|done]. intros [= <-].
    set (x := set_sm s' (set_applied k (set_opId oid (node r)))).
    pose proof (notify_all_core (λ i, i <=? k) x (pendingOps x)) as Ec. injection Ec as E1 E2 E3.
    pose proof (notify_all_setting (λ i, i <=? k) x (pendingOps x)) as Es. constructor; simpl; try done.
    intros _. unfold x in *. simpl in *. rewrite E2. lia.
Qed.

(** ** Rebuilding the invariant *)

Lemma sync_lookup c ss i sv :
  (sync c ss).[i] = Some sv ↔ ∃ rf sv0, (nodes c).[i] = Some rf ∧ ss.[i] = Some sv0 ∧ sv = set_raft rf sv0.
Proof.
  unfold sync, go_index. destruct (0 <=? i); [|split; [done|by intros (? & ? & [=] & _)]].
  rewrite lookup_zip_with_Some. split; intros (x & y & H1 & H2 & H3); eauto 10.
Qed.

Lemma set_raft_same rf sv : RSM.rf (node (replica_of sv)) = rf → set_raft rf sv = sv.
Proof. intros <-. by destruct sv as [[[] ? ? ? ?] ?]. Qed.

#[local] Instance good_spec : SnapshotSpec good_snapshot.
Proof.
  constructor.
  - intros L L' b k Hp [Hm Hs]. split; [done|by eapply snap_ok_mono].
  - intros L b k (_ & oid & s & s0 & _ & Hr & _). lia.
  - intros L b k (_ & oid & s & _ & -> & _). apply gob_encode_nonempty.
Qed.

Lemma sy_cluster n w : sys_inv n w → reachable n (cluster w).
Proof. intros Hinv. exact (fd_reach _ _ _ (sy_feed _ _ Hinv)). Qed.

Lemma server_mono L L' i sv rf : L `prefix_of` L' → server_ok L i sv rf → server_ok L' i sv rf.
Proof.
  intros Hp [H1 H2 H3 H4 H5 H6 H7]. constructor; try done; [by apply (replica_ok_mono L)|].
  intros Hs. destruct (H7 Hs) as (e & Hc & He). exists e. split; [by apply (chain_mono _ L)|done].
Qed.

(** A replica whose peer has moved on. *)
Lemma raft_moved L r rf' :
  replica_ok L r → submit_inv r → raft_wf (peers rf') rf' → lastApplied (RSM.rf (node r)) ≤ lastApplied rf' →
  replica_ok L (RSM.set_node (set_rf rf' (node r)) r) ∧ submit_inv (RSM.set_node (set_rf rf' (node r)) r).
Proof.
  intros Hr Hsub Hwf Hle. split; [|by eapply (rsm_step_inv (ERaft rf'))].
  apply replica_ok_node; [|done]. by apply rsm_ok_raft; [..|apply Hr].
Qed.

Lemma others_ok n w ev c' L' j sv rf' :
  sys_inv n w → cluster_move n ev (cluster w) c' → sys_log w `prefix_of` L' →
  ev ≠ EvApply j → ev ≠ EvCrash j → (servers w).[j] = Some sv → (nodes c').[j] = Some rf' →
  server_ok L' j (set_raft rf' sv) rf'.
Proof.
  intros Hinv Hcv Hp Ha Hc Hsv Hj. destruct (cv_applied _ _ _ _ Hcv j rf' Hj) as (rf & Hrf & Hmv).
  pose proof (server_mono _ L' j sv rf Hp (sy_server _ _ Hinv j sv rf Hsv Hrf)) as [H1 H2 H3 H4 H5 H6 H7].
  pose proof (node_wf _ _ _ _ (reachable_inv _ _ (cv_reach _ _ _ _ Hcv)) Hj) as Hwf.
  destruct (raft_moved L' (replica_of sv) rf') as [Hr Hs]; try done; [by rewrite (wf_peers _ _ Hwf)| |].
  { rewrite H1. destruct Hmv as [[-> _]|[[Hlt _]|[|]]]; [lia|lia|done|done]. }
  constructor; try done. intros Hsd. by eapply queue_sync; [apply (H7 Hsd)|..].
Qed.

(** Every life of a server goes on or is remembered. *)
Definition lives_on w w' : Prop := ∀ j r, life w j r → ∃ r', life w' j r' ∧ keeps_subs r r'.

Lemma submitted_mono w w' j op : lives_on w w' → submitted w j op → submitted w' j op.
Proof.
  intros Hl (r & t & sub & Hr & Ht & Ho). destruct (Hl j r Hr) as (r' & Hr' & Hk).
  destruct (Hk t sub op Ht Ho) as (sub' & Ht' & Ho'). by exists r', t, sub'.
Qed.

Lemma sys_build n w ev c' ss' past' :
  let w' := mkSysWorld c' (sync c' ss') past' in
  sys_inv n w → cluster_move n ev (cluster w) c' → length ss' = n →
  feed_inv good_snapshot n c' →
  (∀ j sv rf, ss'.[j] = Some sv → (nodes c').[j] = Some rf → server_ok (sys_log w') j (set_raft rf sv) rf) →
  lives_on w w' → (∀ j c, ev = EvStart j c → ∃ op, c = Some op ∧ submitted w' j op) →
  (∀ i r, (i, r) ∈ past' → executed_ok (sys_log w') (applied r) ∧ submit_inv r ∧ rsm_me (node r) = i) →
  sys_inv n w'.
Proof.
  intros w' Hinv Hcv Hlen Hfeed Hsv Hlive Hst Hpast. constructor; try done.
  - destruct (ci_nodes _ _ (reachable_inv _ _ (cv_reach _ _ _ _ Hcv))) as [Hn _]. unfold go_len in Hn.
    simpl. unfold sync. rewrite length_zip_with. lia.
  - intros j e p [Hin|Hev]%(cv_starts _ _ _ _ Hcv); [|by apply (Hst j)].
    destruct (sy_starts _ _ Hinv j e p Hin) as (op & Eop & Hs). exists op. split; [done|by eapply submitted_mono].
  - intros j sv rf (rf0 & sv0 & Hrf & Hs & ->)%sync_lookup Hrf'. simpl in Hrf'.
    assert (rf0 = rf) as -> by congruence. by apply Hsv.
Qed.

(** ** The steps *)

Lemma node_exists n (c : World (Op req)) w i sv :
  sys_inv n w → reachable n c → (servers w).[i] = Some sv → ∃ rf, (nodes c).[i] = Some rf.
Proof.
  intros Hinv Hr Hi%go_index_Some_range. destruct (ci_nodes _ _ (reachable_inv _ _ Hr)) as [Hn _].
  apply go_index_is_Some. pose proof (sy_servers _ _ Hinv). unfold go_len in *. lia.
Qed.

Lemma keeps_subs_raft r sv rf : keeps_subs r (replica_of sv) → keeps_subs r (replica_of (set_raft rf sv)).
Proof. intros H t sub op Ht Ho. exact (H t sub op Ht Ho). Qed.

Lemma lives_sync n w c' :
  sys_inv n w → reachable n c' → lives_on w (mkSysWorld c' (sync c' (servers w)) (past w)).
Proof.
  intros Hinv Hr j r [(sv & Hj & <-)|Hp]; [|exists r; split; [by right|by apply keeps_subs_refl]].
  destruct (node_exists n c' w j sv) as [rf Hrf]; [done..|]. exists (replica_of (set_raft rf sv)).
  split; [|by apply keeps_subs_refl]. left. exists (set_raft rf sv). split; [|done]. apply sync_lookup. eauto.
Qed.

Lemma lives_put n w i sv sv' c' past' :
  sys_inv n w → reachable n c' → (servers w).[i] = Some sv →
  (keeps_subs (replica_of sv) (replica_of sv') ∧ past' = past w) ∨ past' = (i, replica_of sv) :: past w →
  lives_on w (mkSysWorld c' (sync c' (<[Z.to_nat i := sv']> (servers w))) past').
Proof.
  intros Hinv Hr Hi Hcase j r [(svj & Hj & <-)|Hp].
  - destruct (node_exists n c' w j svj) as [rf Hrf]; [done..|]. destruct (decide (i = j)) as [<-|Hne].
    + assert (svj = sv) as -> by congruence. destruct Hcase as [[Hk ->]| ->].
      * exists (replica_of (set_raft rf sv')). split; [|by apply keeps_subs_raft]. left. exists (set_raft rf sv').
        split; [|done]. apply sync_lookup. exists rf, sv'. split_and!; try done. by rewrite (go_index_insert _ _ _ sv), decide_True.
      * exists (replica_of sv). split; [right; by left|by apply keeps_subs_refl].
    + exists (replica_of (set_raft rf svj)). split; [|by apply keeps_subs_refl]. left. exists (set_raft rf svj).
      split; [|done]. apply sync_lookup. exists rf, svj. split_and!; try done. by rewrite (go_index_insert _ _ _ sv), decide_False.
  - exists r. split; [|by apply keeps_subs_refl]. right. simpl. destruct Hcase as [[_ ->]| ->]; [done|by right].
Qed.

(** The past stays right when the log grows. *)
Lemma past_mono n w L' :
  sys_inv n w → sys_log w `prefix_of` L' →
  ∀ i r, (i, r) ∈ past w → executed_ok L' (applied r) ∧ submit_inv r ∧ rsm_me (node r) = i.
Proof.
  intros Hinv Hp i r Hin. destruct (sy_past _ _ Hinv i r Hin) as (H1 & H2 & H3).
  split_and!; try done. by apply (executed_ok_mono (sys_log w)).
Qed.

Lemma network_inv n w ev c' :
  sys_inv n w → network_event ev = true → step ev (cluster w) = Next c' →
  sys_inv n (mkSysWorld c' (sync c' (servers w)) (past w)).
Proof.
  intros Hinv Hev Hstep. pose proof (cluster_move_step n _ _ _ (sy_cluster _ _ Hinv) Hstep) as Hcv.
  assert (Hna : ∀ i, ev ≠ EvApply i) by (by intros i ->). assert (Hnc : ∀ i, ev ≠ EvCrash i) by (by intros i ->).
  destruct (feed_step good_snapshot n ev (cluster w) c') as [Hfeed Hd]; [apply Hinv|done|by destruct ev|by destruct ev|done|].
  assert (El : log_of (delivered c') = sys_log w) by (by rewrite Hd).
  apply (sys_build n w ev); unfold sys_log; simpl; rewrite ?El, ?Hd; try done; try apply Hinv.
  - intros j sv rf Hj Hrf. by apply (others_ok n w ev c').
  - apply (lives_sync n); [done|apply Hcv].
  - by intros j c ->.
Qed.

(** A step of server [i]: what is left to show is that its replica is right. *)
Lemma put_inv n w ev i sv sv' c' :
  sys_inv n w → cluster_move n ev (cluster w) c' → (servers w).[i] = Some sv →
  (∀ j, ev = EvApply j → j = i) → (∀ j, ev ≠ EvCrash j) →
  feed_inv good_snapshot n c' → sys_log w `prefix_of` log_of (delivered c') →
  keeps_subs (replica_of sv) (replica_of sv') →
  (∀ j c, ev = EvStart j c → j = i ∧ ∃ t sub op, c = Some op ∧ subs (replica_of sv') !! t = Some sub ∧ sub_op (s_pc sub) = Some op) →
  (∀ rf', (nodes c').[i] = Some rf' → server_ok (log_of (delivered c')) i (set_raft rf' sv') rf') →
  sys_inv n (put_server i sv' c' w).
Proof.
  intros Hinv Hcv Hi Ha Hc Hfeed Hpre Hk Hst Hok. set (L' := log_of (delivered c')) in *.
  apply (sys_build n w ev); try done.
  - rewrite length_insert. apply Hinv.
  - intros j svj rf. rewrite (go_index_insert _ _ _ sv) by done. case_decide as E.
    + subst j. intros [= <-] Hrf. by apply Hok.
    + intros Hj Hrf. apply (others_ok n w ev c'); try done. intros ->. by destruct E; rewrite (Ha j).
  - apply (lives_put n w i sv); [done|apply Hcv|done|by left].
  - intros j c ->. destruct (Hst j c eq_refl) as (-> & t & sub & op & -> & Ht & Ho). exists op. split; [done|].
    destruct (node_exists n c' w i sv) as [rf Hrf]; [done|apply Hcv|done|].
    exists (replica_of (set_raft rf sv')), t, sub. split_and!; try done. left. exists (set_raft rf sv'). split; [|done].
    apply sync_lookup. exists rf, sv'. split_and!; try done. by rewrite (go_index_insert _ _ _ sv), decide_True.
  - by eapply past_mono.
Qed.

Lemma apply_inv n w i w' : sys_inv n w → sys_step (SysApply i) w = Next w' → sys_inv n w'.
Proof.
  intros Hinv. cbn [sys_step]. destruct ((servers w).[i]) as [sv|] eqn:Hi; cbn [enabled outcome_bind]; [|done].
  destruct ((nodes (cluster w)).[i]) as [rf|] eqn:Hrf; cbn [enabled outcome_bind]; [|done].
  destruct (applier rf) as [[rf' act]|] eqn:Ea; cbn [run_go outcome_bind]; [|done].
  destruct (step (EvApply i) (cluster w)) as [c'| |] eqn:Hs; cbn [outcome_bind]; try done. intros [= <-]. simpl.
  destruct (feed_apply good_snapshot n i _ _ rf rf' act (sy_feed _ _ Hinv) Hrf Ea Hs) as (Hfeed & Hpre & Hn & Hle & Hq).
  pose proof (server_mono _ _ i sv rf Hpre (sy_server _ _ Hinv i sv rf Hi Hrf)) as [H1 H2 H3 H4 H5 H6 _].
  pose proof (so_queue _ _ _ _ (sy_server _ _ Hinv i sv rf Hi Hrf)) as H7.
  apply (put_inv n w (EvApply i) i sv); try done; [by apply cluster_move_step, Hs; apply Hinv|by intros j [= ->]|by apply keeps_subs_refl|].
  intros x Hx. rewrite Hn, (nodes_insert _ _ rf), decide_True in Hx by done. injection Hx as <-.
  assert (Hwf : raft_wf (Z.of_nat n) rf').
  { apply (feed_wf good_snapshot n c' i); [done|]. by rewrite Hn, (nodes_insert _ _ rf), decide_True. }
  destruct (raft_moved (log_of (delivered c')) (replica_of sv) rf') as [Hr Hsub]; try done; [by rewrite (wf_peers _ _ Hwf)|by rewrite H1|].
  constructor; try done. intros Hsd. by apply Hq, H7.
Qed.

(** What the reader of [i] finds in front of the queue is what it may rely on. *)
Lemma queue_ev_ok L i sv rf msg rest :
  server_ok L i sv rf → applyCh sv = msg :: rest → shutdown (node (replica_of sv)) = false →
  ev_ok L (replica_of sv) (EMsg msg).
Proof.
  intros Hok Eq Hs. destruct (so_queue _ _ _ _ Hok Hs) as (e & Hc & Hle & _). rewrite Eq in Hc.
  pose proof (ro_bound _ _ (rp_node _ _ (so_replica _ _ _ _ Hok))). pose proof (so_rf _ _ _ _ Hok) as Erf.
  destruct msg as [c k|b t k]; simpl in Hc; destruct Hc as (Hk & Hx & Hc%chain_le); simpl; rewrite Erf; split_and!; try done; try apply Hx; lia.
Qed.

Lemma read_inv n w i w' :
  sys_inv n w → log_ok (sys_log w) → sys_step (SysRead i) w = Next w' → sys_inv n w'.
Proof.
  intros Hinv Hlog. cbn [sys_step]. destruct ((servers w).[i]) as [sv|] eqn:Hi; cbn [enabled outcome_bind]; [|done].
  destruct (applyCh sv) as [|msg rest] eqn:Eq; [done|].
  destruct (rsm_step (EMsg msg) (replica_of sv)) as [r'| |] eqn:Hstep; try done. cbn [outcome_bind]. intros [= <-].
  pose proof (sy_cluster _ _ Hinv) as Hr. destruct (read_step _ _ _ Hstep) as [R1 R2 R3 R4 R5].
  apply (put_inv n w (EvDrop 0) i sv); try done; [by apply cluster_move_refl|apply Hinv|by apply keeps_subs_refl|].
  intros rf Hrf. pose proof (sy_server _ _ Hinv i sv rf Hi Hrf) as Hok. pose proof Hok as [H1 H2 H3 H4 H5 H6 H8].
  unfold setting in R2. injection R2 as E1 E2 E3.
  assert (Hrep : replica_ok (sys_log w) r').
  { destruct (shutdown (node (replica_of sv))) eqn:Hs.
    - simpl in Hstep. destruct (toSnapshot (replica_of sv)); [done|]. unfold reader in Hstep. rewrite Hs in Hstep.
      injection Hstep as <-. unfold executes. rewrite Hs. destruct H4 as [? ? ?]. by destruct msg as [[]|]; constructor.
    - eapply rsm_step_ok; [done|done| |done]. by eapply queue_ev_ok. }
  assert (Hsub : submit_inv r') by (by eapply rsm_step_inv).
  rewrite set_raft_same by (simpl; congruence). constructor; simpl; try done; try congruence.
  - intros Hx%R4. congruence.
  - rewrite E3. intros Hs. destruct (H8 Hs) as (e & Hc & He). exists e. split; [|done]. rewrite Eq in Hc. rewrite (R3 Hs).
    destruct msg as [c k|b t k]; simpl in Hc; destruct Hc as (Hk & _ & Hc); by replace (Z.max _ k) with k by lia.
Qed.

(** What a replica calls on its peer is what [put_inv] asks for. *)
Lemma raft_call_start i ev r j c :
  raft_call i ev r = Some (EvStart j c) → j = i ∧ ∃ t sub op, c = Some op ∧ subs r !! t = Some sub ∧ sub_op (s_pc sub) = Some op.
Proof.
  destruct ev as [t q|t case|t|msg| | | |rf']; simpl; try done.
  - destruct (subs r !! t) as [[q [] ret]|] eqn:Et; simpl; try done. intros [= <- <-]. split; [done|]. by eexists _, _, _.
  - destruct (toSnapshot r); simpl; [|done]. by destruct (_ <? _).
Qed.

Lemma raft_call_good L i ev r r' call :
  raft_call i ev r = Some call → service_event ev = true → rsm_step ev r = Next r' → replica_ok L r' →
  (is_Some (toSnapshot r) → 0 < maxraft) → hands_good (good_snapshot L) call.
Proof.
  destruct ev as [t q|t case|t|msg| | | |rf']; simpl; try done.
  - destruct (subs r !! t) as [[q [] ret]|]; simpl; try done. by intros [= <-].
  - destruct (toSnapshot r) as [k|]; simpl; [|done]. destruct (_ <? k) eqn:Ek; simpl; [done|]. intros [= <-] _ Hstep Hr Hm.
    unfold createSnapshot in Hstep. rewrite Ek in Hstep. simpl in Hstep. destruct (Snapshot _ _ _); simpl in Hstep; [|done].
    injection Hstep as <-. eexists. split; [done|]. split; [by apply Hm|]. apply (rp_handed _ _ Hr). by left.
  - by intros [= <-].
Qed.

Lemma raft_call_other i ev r call :
  raft_call i ev r = Some call → (∀ j, call ≠ EvApply j) ∧ (∀ j, call ≠ EvCrash j).
Proof.
  destruct ev as [t q|t case|t|msg| | | |rf']; simpl; try done.
  - destruct (subs r !! t) as [[q [] ret]|]; simpl; try done. by intros [= <-].
  - destruct (toSnapshot r); simpl; [|done]. destruct (_ <? _); [done|]. by intros [= <-].
  - by intros [= <-].
Qed.

(** Its peer accepts every call a replica makes. *)
Lemma service_not_blocked n w i sv ev r' :
  sys_inv n w → (servers w).[i] = Some sv → service_event ev = true → rsm_step ev (replica_of sv) = Next r' →
  ∃ w', sys_step (SysService i ev) w = Next w'.
Proof.
  intros Hinv Hi Hev Hstep. cbn [sys_step]. rewrite Hi. cbn [enabled outcome_bind]. rewrite Hev, Hstep. cbn [outcome_bind].
  destruct (node_exists n (cluster w) w i sv) as [rf Hrf]; [done|apply Hinv|done|].
  pose proof (sy_server _ _ Hinv i sv rf Hi Hrf) as Hok. pose proof (so_rf _ _ _ _ Hok) as Erf.
  pose proof (node_wf _ _ _ _ (reachable_inv _ _ (sy_cluster _ _ Hinv)) Hrf) as Hwf.
  pose proof (ro_applied _ _ (rp_node _ _ (so_replica _ _ _ _ Hok))) as Hla. simpl in Hla. rewrite Erf in Hla.
  destruct (raft_call i ev (replica_of sv)) as [call|] eqn:Ec; [|by eexists].
  assert (Hs : ∃ c', step call (cluster w) = Next c'); [|destruct Hs as [c' ->]; by eexists].
  destruct ev as [t q|t case|t|msg| | | |rf']; simpl in Ec; try done.
  - destruct (subs (replica_of sv) !! t) as [[q [] ret]|]; try done. injection Ec as <-.
    simpl. unfold step_start. rewrite Hrf. simpl.
    destruct (Start_wf _ (Some op) rf Hwf) as (rf' & [[k term] il] & -> & _). simpl. destruct il; by eexists.
  - destruct (toSnapshot (replica_of sv)) as [k|]; simpl in Ec; [|done].
    destruct (rsm_lastApplied (node (replica_of sv)) <? k); [done|]. injection Ec as <-. simpl. unfold step_snapshot.
    rewrite Hrf. simpl. destruct (Z.ltb_spec (lastApplied rf) (rsm_lastApplied (node (replica_of sv)))); [lia|].
    match goal with |- context [Snapshot ?k ?b rf] => destruct (Snapshot_wf _ k b rf Hwf Hla) as (rf' & -> & _) end. by eexists.
  - injection Ec as <-. simpl. rewrite Hrf. by eexists.
Qed.

Lemma service_inv n w i ev w' :
  sys_inv n w → log_ok (sys_log w) → sys_step (SysService i ev) w = Next w' → sys_inv n w'.
Proof.
  intros Hinv Hlog. cbn [sys_step]. destruct ((servers w).[i]) as [sv|] eqn:Hi; cbn [enabled outcome_bind]; [|done].
  destruct (service_event ev) eqn:Hev; [|done].
  destruct (rsm_step ev (replica_of sv)) as [r'| |] eqn:Hstep; try done. cbn [outcome_bind].
  destruct (match raft_call i ev (replica_of sv) with Some call => step call (cluster w) | None => Next (cluster w) end)
    as [c'| |] eqn:Hcall; try done. intros [= <-].
  pose proof (sy_cluster _ _ Hinv) as Hr. destruct (service_step _ _ _ Hev Hstep) as [P1 P2 P3 P4 P5 P6].
  destruct (node_exists n (cluster w) w i sv) as [rf Hrf]; [done..|].
  pose proof (sy_server _ _ Hinv i sv rf Hi Hrf) as Hok. pose proof Hok as [H1 H2 H3 H4 H5 H6 H8].
  assert (Hrep : replica_ok (sys_log w) r') by (eapply rsm_step_ok; [done|done| |done]; by destruct ev).
  assert (Hsub : submit_inv r') by (by eapply rsm_step_inv).
  set (call := default (EvDrop 0) (raft_call i ev (replica_of sv))).
  assert (Hcv : cluster_move n call (cluster w) c').
  { unfold call. destruct (raft_call i ev (replica_of sv)); [by apply cluster_move_step|].
    injection Hcall as <-. by apply cluster_move_refl. }
  assert (Hother : (∀ j, call ≠ EvApply j) ∧ (∀ j, call ≠ EvCrash j)).
  { unfold call. destruct (raft_call i ev (replica_of sv)) eqn:E; [by eapply raft_call_other|done]. }
  destruct Hother as [Hna Hnc].
  assert (Hfeed : feed_inv good_snapshot n c' ∧ delivered c' = delivered (cluster w)).
  { unfold call in *. destruct (raft_call i ev (replica_of sv)) as [e|] eqn:E; [|injection Hcall as <-; split; [apply Hinv|done]].
    apply (feed_step good_snapshot n e); try done; [apply Hinv| |by eapply raft_call_good].
    destruct e as [| | | | | |j c| | | |]; try done. destruct (raft_call_start _ _ _ _ _ E) as (_ & t & sub & op & -> & _). by exists op. }
  destruct Hfeed as [Hfeed Hd].
  pose proof (service_raft i ev _ _ _ _ Hev Hstep ltac:(rewrite H1; exact Hrf) Hcall) as Hrf'.
  apply (put_inv n w call i sv); rewrite ?Hd; try done; [by intros j ?%Hna| |].
  - intros j c E. unfold call in E. destruct (raft_call i ev (replica_of sv)) eqn:Er; [|done]. simpl in E. subst.
    destruct (raft_call_start _ _ _ _ _ Er) as (-> & t & sub & op & -> & Ht & Ho). split; [done|].
    destruct (P6 t sub op Ht Ho) as (sub' & Ht' & Ho'). by exists t, sub', op.
  - intros rf' E. simpl in E. rewrite Hrf' in E. injection E as <-. rewrite set_raft_same by done.
    destruct (cv_applied _ _ _ _ Hcv i _ Hrf') as (x & Hx & Hmv). rewrite Hrf in Hx. injection Hx as <-.
    constructor; simpl; try done; try congruence; [auto|]. rewrite P4. intros Hs%P3. by eapply queue_sync; [apply (H8 Hs)|..].
Qed.

(** A server that starts again on its persister continues where its log starts. *)
Lemma restart_ok n w i rf :
  sys_inv n w → (nodes (cluster w)).[i] = Some rf →
  ∃ x : Rsm, MakeRSM (peers rf) (me rf) (persister rf) maxraft sm_init = Some x ∧
    server_ok (sys_log w) i (mkServer (rsm_start x) []) (RSM.rf x).
Proof.
  intros Hinv Hi. set (L := sys_log w) in *. pose proof (fd_bound _ _ _ (sy_feed _ _ Hinv) i rf Hi) as Hb. pose proof (reachable_inv _ _ (sy_cluster _ _ Hinv)) as Hci.
  destruct (proj2 (ci_nodes _ _ Hci) i rf Hi) as [Hwf Hme]. pose proof (log_wf_first_nonneg _ (wf_log _ _ Hwf)) as H0.
  destruct (Make_restart _ rf Hwf) as (rf' & Em & Hwf' & _ & _ & _ & Hpe & _ & _ & _ & _ & _ & _ & Ha & Hp & _).
  rewrite <- (wf_peers _ _ Hwf) in Em at 1. pose proof (nf_stored _ _ (fl_node _ _ (fd_flow _ _ _ (sy_feed _ _ Hinv)) i rf Hi)) as Hst.
  destruct (MakeRSM_ok (R := Raft (Op req)) L (peers rf) (me rf) (persister rf) maxraft) as (x & Er & Hok & Hz & Hs).
  - exists rf'. simpl. rewrite Ha. split_and!; [done|by rewrite (wf_peers _ _ Hwf')|done|]. intros k Hne Hk.
    destruct Hst as [[_ E]|[_ [_ Hg]]]; [done|]. by rewrite (snap_ok_index _ _ _ _ Hk Hg).
  - destruct Hst as [[_ E]|[_ [Hm Hg]]]; [by left|right]. split; [lia|eauto].
  - exists x. split; [done|]. destruct (MakeRSM_fields _ _ _ _ _ _ Er) as (E1 & E2 & E3). simpl in E3.
    assert (RSM.rf x = rf') as -> by congruence. constructor; simpl; try done; try congruence.
    + by apply replica_start.
    + by eapply rsm_start_inv, MakeRSM_fresh.
    + intros _. exists (lastApplied rf'). split_and!; try done. simpl. rewrite Ha.
      destruct Hst as [[-> E]|[_ [_ Hg]]]; [by apply Hz|by apply Hs].
Qed.

Lemma crash_inv n w i w' : sys_inv n w → sys_step (SysCrash i) w = Next w' → sys_inv n w'.
Proof.
  intros Hinv. cbn [sys_step]. destruct ((servers w).[i]) as [sv|] eqn:Hi; cbn [enabled outcome_bind]; [|done].
  destruct ((nodes (cluster w)).[i]) as [rf|] eqn:Hrf; cbn [enabled outcome_bind]; [|done].
  pose proof (sy_server _ _ Hinv i sv rf Hi Hrf) as Hok.
  destruct (restart_ok n w i rf Hinv Hrf) as (x & Er & Hr). rewrite Er. cbn [run_go outcome_bind].
  destruct (step (EvCrash i) (cluster w)) as [c'| |] eqn:Hs; try done. cbn [outcome_bind]. intros [= <-]. simpl.
  pose proof (cluster_move_step n _ _ _ (sy_cluster _ _ Hinv) Hs) as Hcv.
  destruct (feed_step good_snapshot n (EvCrash i) (cluster w) c') as [Hfeed Hd]; [apply Hinv|done..|].
  assert (Hn : (nodes c').[i] = Some (RSM.rf x)).
  { simpl in Hs. unfold step_crash in Hs. rewrite Hrf in Hs. simpl in Hs.
    destruct (MakeRSM_fields _ _ _ _ _ _ Er) as (_ & _ & E). simpl in E. rewrite E in Hs. injection Hs as <-. simpl.
    by rewrite (nodes_insert _ _ rf), decide_True. }
  assert (El : log_of (delivered c') = sys_log w) by (by rewrite Hd).
  apply (sys_build n w (EvCrash i)); unfold sys_log; simpl; rewrite ?El, ?Hd; try done; try apply Hinv.
  - rewrite length_insert. apply Hinv.
  - intros j svj rf'. rewrite (go_index_insert _ _ _ sv) by done. case_decide as E.
    + subst j. intros [= <-]. rewrite Hn. intros [= <-]. by rewrite set_raft_same.
    + intros Hj Hrf'. apply (others_ok n w (EvCrash i) c'); try done. congruence.
  - apply (lives_put n w i sv); [done|apply Hcv|done|by right].
  - intros j y [[= -> ->]|Hin]%elem_of_cons; [|by apply (sy_past _ _ Hinv)].
    destruct Hok as [_ Hm _ [_ Hap _] Hsub _ _]. split_and!; done.
Qed.

(** ** Reachable states of the system *)

(** The runs: any events, in any order. *)
Inductive sys_reaches w0 : SysWorld → Prop :=
  | sys_refl : sys_reaches w0 w0
  | sys_next ev w w' : sys_reaches w0 w → sys_step ev w = Next w' → sys_reaches w0 w'.

Definition sys_reachable (n : nat) w : Prop := sys_reaches (sys_start n) w.

Lemma start_inv n : sys_inv n (sys_start n).
Proof.
  constructor; simpl.
  - apply feed_init.
  - by rewrite length_fmap, length_seq.
  - intros j e p []%elem_of_nil.
  - intros i sv rf Hi [Hr ->]%init_node. rewrite go_index_lookup in Hi by lia.
    apply list_lookup_fmap_Some in Hi as (k & -> & Hk%lookup_seq). assert (Ei : i = Z.of_nat k) by lia. subst i.
    destruct (Make_init (cmd := Op req) (Z.of_nat n) (Z.of_nat k)) as (_ & Hwf & _); [lia|].
    assert (Hrsm : rsm_ok (S := S) [] (node (replica_of (boot n k)))).
    { constructor; simpl; try done; [apply sm_init_wf|]. exists sm_init. split_and!; [done|apply sm_init_wf|reflexivity]. }
    constructor; simpl; try done; [by apply replica_start|]. by exists 0.
  - intros i r []%elem_of_nil.
Qed.

Lemma sys_step_inv n ev w w' : sys_inv n w → log_ok (sys_log w) → sys_step ev w = Next w' → sys_inv n w'.
Proof.
  intros Hinv Hlog Hs. destruct ev as [ev|i|i|i ev|i].
  - cbn [sys_step] in Hs. destruct (network_event ev) eqn:He; [|done].
    destruct (step ev (cluster w)) as [c'| |] eqn:Hc; try done. injection Hs as <-. by eapply network_inv.
  - by eapply apply_inv.
  - by eapply read_inv.
  - by eapply service_inv.
  - by eapply crash_inv.
Qed.

(** The log of a later state extends that of an earlier one. *)
Lemma sys_step_log n ev w w' :
  reachable n (cluster w) → sys_step ev w = Next w' → reachable n (cluster w') ∧ sys_log w `prefix_of` sys_log w'.
Proof.
  intros Hr. pose proof (λ ev c', step_log n ev (cluster w) c' Hr) as Hlog.
  destruct ev as [ev|i|i|i ev|i]; cbn [sys_step].
  - destruct (network_event ev); [|done]. destruct (step ev (cluster w)) eqn:E; try done. intros [= <-]. by eapply Hlog.
  - destruct ((servers w).[i]), ((nodes (cluster w)).[i]) as [rf|]; cbn [enabled outcome_bind]; try done.
    destruct (applier rf); cbn [run_go outcome_bind]; [|done].
    destruct (step (EvApply i) (cluster w)) eqn:E; try done. intros [= <-]. by eapply Hlog.
  - destruct ((servers w).[i]) as [sv|]; cbn [enabled outcome_bind]; [|done]. destruct (applyCh sv); [done|].
    destruct (rsm_step _ _); try done. by intros [= <-].
  - destruct ((servers w).[i]) as [sv|]; cbn [enabled outcome_bind]; [|done]. destruct (service_event ev); [|done].
    destruct (rsm_step ev _); try done. cbn [outcome_bind]. destruct (raft_call i ev (replica_of sv)) as [call|]; [|by intros [= <-]].
    destruct (step call (cluster w)) eqn:E; try done. intros [= <-]. by eapply Hlog.
  - destruct ((servers w).[i]), ((nodes (cluster w)).[i]) as [rf|]; cbn [enabled outcome_bind]; try done.
    destruct (MakeRSM _ _ _ _ _); cbn [run_go outcome_bind]; [|done].
    destruct (step (EvCrash i) (cluster w)) eqn:E; try done. intros [= <-]. by eapply Hlog.
Qed.

Lemma sys_reaches_prefix n w0 w :
  reachable n (cluster w0) → sys_reaches w0 w → reachable n (cluster w) ∧ sys_log w0 `prefix_of` sys_log w.
Proof.
  intros H0. induction 1 as [|ev w w' Hr IH Hs]; [done|]. destruct IH as [Hc Hp].
  destruct (sys_step_log n ev w w' Hc Hs) as [Hc' Hp']. split; [done|by etrans].
Qed.

Lemma log_ok_prefix L L' : L `prefix_of` L' → log_ok L' → log_ok L.
Proof.
  intros Hp H i op Hi. pose proof (lookup_prefix _ _ _ _ Hp Hi) as Hi'. apply lookup_lt_Some in Hi.
  destruct (H i op Hi') as (s & E & Hs). exists s. split; [|done]. destruct Hp as [x ->]. by rewrite take_app_le in E by lia.
Qed.

(** A run whose log the service answers, at its end and so all the way, keeps the
    invariant. *)
Lemma sys_reaches_inv n w0 w : sys_inv n w0 → sys_reaches w0 w → log_ok (sys_log w) → sys_inv n w.
Proof.
  intros H0. induction 1 as [|ev w w' Hr IH Hs]; [done|]. intros Hlog.
  destruct (sys_reaches_prefix n w0 w (sy_cluster _ _ H0) Hr) as [Hc _].
  assert (Hw : log_ok (sys_log w)) by (eapply log_ok_prefix; [eapply (sys_step_log n ev w w')|]; done).
  eapply sys_step_inv; [by apply IH|done|done].
Qed.

Lemma sys_reachable_inv n w : sys_reachable n w → log_ok (sys_log w) → sys_inv n w.
Proof. apply sys_reaches_inv, start_inv. Qed.

Lemma sys_reachable_cluster n w : sys_reachable n w → reachable n (cluster w).
Proof. intros Hr. by eapply (sys_reaches_prefix n (sys_start n)); [constructor|]. Qed.

(** Of two moments of a run. *)
Lemma sys_later n w0 w :
  sys_reachable n w0 → sys_reaches w0 w → sys_log w0 `prefix_of` sys_log w ∧ (log_ok (sys_log w) → sys_inv n w).
Proof.
  intros H0 Hr. destruct (sys_reaches_prefix n w0 w (sys_reachable_cluster n w0 H0) Hr) as [_ Hp]. split; [done|].
  intros Hlog. eapply sys_reaches_inv; [eapply (sys_reachable_inv n w0); [done|by eapply log_ok_prefix]|done..].
Qed.

(** ** Properties of the system *)

(** The operation of a Submit carries its request and its server. *)
Lemma life_submit n w i r : sys_inv n w → life w i r → submit_inv r ∧ rsm_me (node r) = i.
Proof.
  intros Hinv [(sv & Hi & <-)|Hp]; [|by apply (sy_past _ _ Hinv)].
  destruct (node_exists n (cluster w) w i sv) as [rf Hrf]; [done|apply Hinv|done|].
  by destruct (sy_server _ _ Hinv i sv rf Hi Hrf).
Qed.

Lemma life_executed n w i r : sys_inv n w → life w i r → executed_ok (sys_log w) (applied r).
Proof.
  intros Hinv [(sv & Hi & <-)|Hp]; [|by apply (sy_past _ _ Hinv i)].
  destruct (node_exists n (cluster w) w i sv) as [rf Hrf]; [done|apply Hinv|done|].
  exact (rp_applied _ _ (so_replica _ _ _ _ (sy_server _ _ Hinv i sv rf Hi Hrf))).
Qed.

(** Where in the log the operation of an answered Submit is. *)
Lemma answer_in_log n w i r t sub a :
  sys_inv n w → life w i r → subs r !! t = Some sub → s_ret sub = Some (OK, a) →
  ∃ op k op' s s' x, s_pc sub = SubDone (Some op) ∧ Req op = s_req sub ∧ Me op = i ∧ a = Some x ∧
    sys_log w !! k = Some op' ∧ Id op' = Id op ∧
    replay (take k (sys_log w)) = Some s ∧ DoOp (Req op') s = Some (s', x).
Proof.
  intros Hinv Hl Ht Ha. destruct (life_submit n w i r Hinv Hl) as [[_ Hsub] Hme].
  destruct (Hsub t sub Ht) as [S1 _ _ S4]. destruct (S4 a Ha) as (op & Epc & k & op' & x & -> & Hin & Eid).
  destruct (S1 op) as [Eq Em]; [by rewrite Epc|].
  destruct (life_executed n w i r Hinv Hl _ _ _ Hin) as (Hk & s & s' & Hs & Hx).
  exists op, (Z.to_nat (k - 1)), op', s, s', x. split_and!; try done. congruence.
Qed.

(** The state of a replica is that of the operations it has applied. *)
Lemma replica_state n w :
  sys_inv n w → ∀ i sv, (servers w).[i] = Some sv → ∃ s,
    replay (take (Z.to_nat (rsm_lastApplied (node (replica_of sv)))) (sys_log w)) = Some s ∧
    sm_equiv (sm (node (replica_of sv))) s.
Proof.
  intros Hinv i sv Hi. destruct (node_exists n (cluster w) w i sv) as [rf Hrf]; [done|apply Hinv|done|].
  destruct (ro_equiv _ _ (rp_node _ _ (so_replica _ _ _ _ (sy_server _ _ Hinv i sv rf Hi Hrf)))) as (s & E & _ & Q). eauto.
Qed.

(** Nothing enters the log but what was submitted. *)
Lemma log_submitted n w :
  sys_inv n w → ∀ k op, sys_log w !! k = Some op → ∃ r t sub, life w (Me op) r ∧ subs r !! t = Some sub ∧
    sub_op (s_pc sub) = Some op ∧ s_req sub = Req op.
Proof.
  intros Hinv k op Hk. destruct (proj1 (fd_log _ _ _ (sy_feed _ _ Hinv)) k op Hk) as [j Hj].
  apply (cm_delivered _ _ (reachable_commit _ _ (sy_cluster _ _ Hinv))) in Hj as (j' & e & p & _ & Hin & _ & Ec & _).
  destruct (sy_starts _ _ Hinv j' e p Hin) as (op' & Eop & r & t & sub & Hl & Ht & Ho). assert (op' = op) as -> by congruence.
  destruct (life_submit n w j' r Hinv Hl) as [[_ Hsub] Hme]. destruct (so_op _ _ _ (Hsub t sub Ht) op Ho) as [Eq Em].
  exists r, t, sub. split_and!; try done. rewrite Em, Hme. done.
Qed.

(** C10 (The replicated service executes one log).  In every run of the servers,
    with message loss and reordering, elections, snapshots, and crashes with
    restart, whose agreed log holds only operations that the service answers
    ([log_ok]: for the key/value service the requests that are at most nine behind
    the newest of their client, for the counter no Dec), there is one sequence of
    operations such that: the state of every replica answers like a machine that
    executed a prefix of it; every operation in it was submitted, on the server it
    names; and every Submit that returned OK, in this or an earlier life of its
    server, returned the reply that this machine gives at a place of the sequence
    that holds an operation with the id the Submit drew, the submitted operation
    itself when no other has its id. *)
Theorem system_executes_one_log n w :
  sys_reachable n w → log_ok (sys_log w) →
  (∀ i sv, (servers w).[i] = Some sv → ∃ s,
     replay (take (Z.to_nat (rsm_lastApplied (node (replica_of sv)))) (sys_log w)) = Some s ∧
     sm_equiv (sm (node (replica_of sv))) s) ∧
  (∀ k op, sys_log w !! k = Some op → ∃ r t sub, life w (Me op) r ∧ subs r !! t = Some sub ∧
     sub_op (s_pc sub) = Some op ∧ s_req sub = Req op) ∧
  (∀ i r t sub a, life w i r → subs r !! t = Some sub → s_ret sub = Some (OK, a) →
     ∃ op k op' s s' x, s_pc sub = SubDone (Some op) ∧ Req op = s_req sub ∧ Me op = i ∧ a = Some x ∧
       sys_log w !! k = Some op' ∧ Id op' = Id op ∧
       replay (take k (sys_log w)) = Some s ∧ DoOp (Req op') s = Some (s', x) ∧
       ((∀ k' o, sys_log w !! k' = Some o → Id o = Id op → o = op) → op' = op)).
Proof.
  intros Hr Hlog. pose proof (sys_reachable_inv n w Hr Hlog) as Hinv. split_and!; [by apply replica_state with n|by apply log_submitted with n|].
  - intros i r t sub a Hl Ht Ha.
    destruct (answer_in_log n w i r t sub a Hinv Hl Ht Ha) as (op & k & op' & s & s' & x & H1 & H2 & H3 & H4 & Hk & Eid & H).
    exists op, k, op', s, s', x. split_and!; try done; try apply H. intros Hu. by apply (Hu k).
Qed.

Lemma sys_run_log n evs w w' :
  reachable n (cluster w) → sys_run evs w = Next w' → sys_log w `prefix_of` sys_log w'.
Proof.
  revert w. induction evs as [|ev evs IH]; intros w Hr; [by intros [= <-]|]. cbn [sys_run].
  destruct (sys_step ev w) as [w1| |] eqn:Es; try done. cbn [outcome_bind]. intros Hrun.
  destruct (sys_step_log n ev w w1 Hr Es) as [Hr1 Hp]. etrans; [exact Hp|by apply IH].
Qed.

Lemma sys_run_reaches evs s w w' : sys_reaches s w → sys_run evs w = Next w' → sys_reaches s w'.
Proof.
  revert w. induction evs as [|ev evs IH]; intros w Hs; [by intros [= <-]|]. cbn [sys_run].
  destruct (sys_step ev w) as [w1| |] eqn:Es; try done. cbn [outcome_bind]. apply IH. by eapply sys_next.
Qed.

(** C11 (Operations take effect in real-time order).  What was in the log at one
    moment stays there, in place.  Let a Submit have returned OK at a later moment,
    with an id that the log did not hold at the first, in a run whose log holds only
    operations that the service answers.  Its reply is that of an operation with
    this id behind everything the log held at the first moment, in particular
    behind every operation answered by then; the operation is the submitted one
    when no other operation of the log has its id (ids are drawn by each server
    for itself). *)
Theorem system_real_time_order n w0 w i r t sub op a :
  sys_reachable n w0 → sys_reaches w0 w → log_ok (sys_log w) →
  life w i r → subs r !! t = Some sub → s_pc sub = SubDone (Some op) → s_ret sub = Some (OK, a) →
  (∀ o, o ∈ sys_log w0 → Id o ≠ Id op) →
  sys_log w0 `prefix_of` sys_log w ∧
  ∃ k op' s s' x, (length (sys_log w0) ≤ k < length (sys_log w))%nat ∧ sys_log w !! k = Some op' ∧ Id op' = Id op ∧
    a = Some x ∧ replay (take k (sys_log w)) = Some s ∧ DoOp (Req op') s = Some (s', x) ∧
    ((∀ o, o ∈ sys_log w → Id o = Id op → o = op) → op' = op ∧ Req op' = s_req sub).
Proof.
  intros H0 Hr Hlog Hl Ht Epc Ha Hfresh. destruct (sys_later n w0 w H0 Hr) as [Hp Hinv]. specialize (Hinv Hlog). split; [done|].
  destruct (answer_in_log n w i r t sub a Hinv Hl Ht Ha) as (op1 & k & op' & s & s' & x & E1 & Er & _ & Ea & Hk & Eid & Es & Ex).
  assert (op1 = op) as -> by congruence. exists k, op', s, s', x. split_and!; try done.
  - destruct (decide (k < length (sys_log w0))%nat) as [Hlt|]; [|lia]. exfalso.
    destruct (lookup_lt_is_Some_2 _ _ Hlt) as [o Ho]. pose proof (lookup_prefix _ _ _ _ Hp Ho) as Ho'.
    assert (o = op') as -> by congruence. apply (Hfresh op'); [by eapply list_elem_of_lookup_2|done].
  - by eapply lookup_lt_Some.
  - intros Hu. rewrite (Hu op') by (done || by eapply list_elem_of_lookup_2). done.
Qed.

(** C12 (The replicated service never panics).  In every run no step of a Raft
    peer panics.  When the agreed log holds only operations that the service
    answers, no step of the system panics at all: no snapshot fails to decode,
    there is no message the reader cannot handle, and every crashed server can be
    started again. *)
Theorem system_never_panics n w :
  sys_reachable n w →
  (∀ ev, step ev (cluster w) ≠ Panic) ∧
  (log_ok (sys_log w) → ∀ ev, sys_step ev w ≠ Panic).
Proof.
  intros Hr. pose proof (sys_reachable_cluster n w Hr) as Hreach.
  assert (Hc : ∀ ev, step ev (cluster w) ≠ Panic).
  { intros e E. pose proof (step_inv _ _ e (reachable_inv _ _ Hreach)) as H. by rewrite E in H. }
  split; [exact Hc|]. intros Hlog ev. pose proof (sys_reachable_inv n w Hr Hlog) as Hinv.
  destruct ev as [ev|i|i|i ev|i]; cbn [sys_step].
  - destruct (network_event ev); [|done]. specialize (Hc ev). by destruct (step ev (cluster w)).
  - destruct ((servers w).[i]); cbn [enabled outcome_bind]; [|done].
    destruct ((nodes (cluster w)).[i]) as [rf|] eqn:Hrf; cbn [enabled outcome_bind]; [|done].
    destruct (applier_wf _ rf (node_wf _ _ _ _ (reachable_inv _ _ (sy_cluster _ _ Hinv)) Hrf)) as (rf' & act & -> & _).
    cbn [run_go outcome_bind]. specialize (Hc (EvApply i)). by destruct (step (EvApply i) (cluster w)).
  - destruct ((servers w).[i]) as [sv|] eqn:Hi; cbn [enabled outcome_bind]; [|done].
    destruct (applyCh sv) as [|msg rest] eqn:Eq; [done|].
    destruct (node_exists n (cluster w) w i sv) as [rf Hrf]; [done|apply Hinv|done|].
    pose proof (sy_server _ _ Hinv i sv rf Hi Hrf) as Hok.
    assert (rsm_step (EMsg msg) (replica_of sv) ≠ Panic) as Hp; [|by destruct (rsm_step _ _)].
    destruct (shutdown (node (replica_of sv))) eqn:Hs.
    + simpl. destruct (toSnapshot _); [done|]. unfold reader. by rewrite Hs.
    + apply (rsm_step_ok (sys_log w)); [done|apply Hok|by eapply queue_ev_ok].
  - destruct ((servers w).[i]) as [sv|] eqn:Hi; cbn [enabled outcome_bind]; [|done].
    destruct (service_event ev) eqn:Hev; [|done].
    destruct (node_exists n (cluster w) w i sv) as [rf Hrf]; [done|apply Hinv|done|].
    assert (rsm_step ev (replica_of sv) ≠ Panic) as Hp.
    { apply (rsm_step_ok (sys_log w)); [done|apply (sy_server _ _ Hinv i sv rf Hi Hrf)|by destruct ev]. }
    destruct (rsm_step ev (replica_of sv)); try done. cbn [outcome_bind].
    destruct (raft_call i ev (replica_of sv)) as [call|]; [|done]. specialize (Hc call). by destruct (step call (cluster w)).
  - destruct ((servers w).[i]) as [sv|] eqn:Hi; cbn [enabled outcome_bind]; [|done].
    destruct ((nodes (cluster w)).[i]) as [rf|] eqn:Hrf; cbn [enabled outcome_bind]; [|done].
    destruct (restart_ok n w i rf Hinv Hrf) as (x & -> & _).
    cbn [run_go outcome_bind]. specialize (Hc (EvCrash i)). by destruct (step (EvCrash i) (cluster w)).
Qed.
End system.

(** ** A run *)

(** Server 0 is elected, executes the request [q] of thread [t], takes a snapshot
    and answers; [el] and [ap] number the calls of the election and of the
    replication that arrive. *)
Definition serve {req} (t : nat) (q : req) (el ap : nat) : list (SysEvent (req := req)) :=
  [SysRaft (EvElection 0); SysRaft (EvHandle el); SysRaft (EvReturn el);
   SysService 0 (ESubmit t q); SysService 0 (EStep t WaitDone); SysService 0 (EStep t WaitDone);
   SysService 0 (EStep t WaitDone);
   SysRaft (EvSend 0 1); SysRaft (EvHandle ap); SysRaft (EvReturn ap);
   SysApply 0; SysRead 0; SysService 0 ECreateSnapshot;
   SysService 0 (EStep t WaitDone); SysService 0 (EStep t WaitDone)].

(** Three servers of the counter, which snapshot after every operation.  Server 0
    executes an increment, answers it and crashes; it starts again from its
    snapshot, and executes and answers a second one. *)
Definition counter_start : SysWorld (S := rsmSrv) (req := CounterReq) (rep := CounterRep) := sys_start 1 3.

Definition run_from evs (w : SysWorld (S := rsmSrv) (req := CounterReq) (rep := CounterRep)) :=
  match sys_run 1 evs w with Next w => w | _ => counter_start end.

Definition counter_half := run_from (serve 7 Inc 0 2 ++ [SysCrash 0]) counter_start.
Definition counter_end := run_from (serve 8 Inc 3 5) counter_half.

Lemma counter_replay (L : list (Op CounterReq)) :
  Forall (λ op, Req op ≠ Dec) L → ∃ s : rsmSrv, replay L = Some s.
Proof.
  induction L as [|op L IH] using rev_ind; [by exists (mkRsmSrv 0)|]. intros [HL Hop]%Forall_app. destruct (IH HL) as [s Hs].
  rewrite (replay_snoc _ _ s) by done. apply Forall_cons_1 in Hop as [Hop _].
  destruct (Req op) eqn:E; simpl; [by eexists|by eexists|by destruct Hop].
Qed.

Lemma counter_log_ok (L : list (Op CounterReq)) : Forall (λ op, Req op ≠ Dec) L → log_ok (S := rsmSrv) L.
Proof.
  intros HL i op Hi. destruct (counter_replay (take i L)) as [s Hs]; [by apply Forall_take|]. exists s. split_and!; try done.
  by apply (Forall_lookup_1 _ _ _ _ HL Hi).
Qed.

Lemma counter_half_reachable : sys_reachable 1 3 counter_half.
Proof. apply (sys_run_reaches 1 (serve 7 Inc 0 2 ++ [SysCrash 0]) _ counter_start); [constructor|vm_compute; reflexivity]. Qed.

Lemma counter_end_extends s : sys_reaches 1 s counter_half → sys_reaches 1 s counter_end.
Proof. intros Hs. apply (sys_run_reaches 1 (serve 8 Inc 3 5) _ counter_half); [done|vm_compute; reflexivity]. Qed.

Lemma counter_end_reached : sys_reaches 1 counter_half counter_end.
Proof. apply counter_end_extends. constructor. Qed.

Lemma counter_end_reachable : sys_reachable 1 3 counter_end.
Proof. exact (counter_end_extends _ counter_half_reachable). Qed.

Lemma counter_end_log : log_ok (S := rsmSrv) (sys_log counter_end).
Proof. apply counter_log_ok. by vm_compute; repeat constructor. Qed.

(** Server 0 at the end of the run, as far as the properties speak of it. *)
Definition glance (sv : Server (S := rsmSrv) (req := CounterReq) (rep := CounterRep)) :=
  (rsm_lastApplied (node (replica_of sv)), (λ sub, (s_pc sub, s_ret sub)) <$> subs (replica_of sv) !! 8%nat).

Lemma counter_end_glance :
  glance <$> (servers counter_end).[0] = Some (2, Some (SubDone (Some (mkOp 0 2 Inc)), Some (OK, Some (IncRep 2)))).
Proof. vm_compute. reflexivity. Qed.

Lemma system_executes_one_log_witness :
  ∃ sv, (servers counter_end).[0] = Some sv ∧ rsm_lastApplied (node (replica_of sv)) = 2 ∧
    ∃ s, replay (take 2 (sys_log counter_end)) = Some s ∧ sm (node (replica_of sv)) = s.
Proof.
  pose proof counter_end_glance as Hg. destruct ((servers counter_end).[0]) as [sv|] eqn:E; [|done].
  injection Hg as El _. exists sv. split; [done|]. split; [done|].
  destruct (proj1 (system_executes_one_log 1 3 counter_end counter_end_reachable counter_end_log) 0 sv E) as (s & Hs & Q). rewrite El in Hs.
  change (Z.to_nat 2) with 2%nat in Hs. exists s. split; [exact Hs|exact Q].
Defined.

Lemma system_never_panics_witness : sys_step 1 (SysCrash 0) counter_half ≠ Panic.
Proof.
  apply (system_never_panics 1 3 counter_half counter_half_reachable). apply counter_log_ok. vm_compute. repeat constructor; discriminate.
Defined.

(** The second increment takes effect behind the first. *)
Lemma system_real_time_order_witness :
  ∃ k, (1 ≤ k)%nat ∧ sys_log counter_end !! k = Some (mkOp 0 2 Inc).
Proof.
  pose proof counter_end_glance as Hg. destruct ((servers counter_end).[0]) as [sv|] eqn:E; [|done].
  injection Hg as _ Hsub. destruct (subs (replica_of sv) !! 8%nat) as [sub|] eqn:Es; [|done]. injection Hsub as Hpc Hret.
  assert (El : sys_log counter_half = [mkOp 0 1 Inc]) by (vm_compute; reflexivity).
  destruct (system_real_time_order 1 3 counter_half counter_end 0 (replica_of sv) 8 sub (mkOp 0 2 Inc) (Some (IncRep 2)))
    as (_ & k & op' & _ & _ & _ & Hk & Hop & _ & _ & _ & _ & Hop').
  - exact counter_half_reachable.
  - exact counter_end_reached.
  - exact counter_end_log.
  - left. exists sv. split; [exact E|reflexivity].
  - exact Es.
  - exact Hpc.
  - exact Hret.
  - rewrite El. intros o Ho. apply list_elem_of_singleton in Ho as ->. discriminate.
  - exists k. rewrite El in Hk. cbn [length] in Hk. split; [lia|]. rewrite Hop. f_equal. apply Hop'.
    assert (Ee : sys_log counter_end = [mkOp 0 1 Inc; mkOp 0 2 Inc]) by (vm_compute; reflexivity). rewrite Ee.
    intros o Ho Eid. apply elem_of_cons in Ho as [->|Ho]; [discriminate Eid|]. by apply list_elem_of_singleton in Ho.
Defined.

(** The service of rsm/server.go does not answer every operation: a Dec that is
    agreed on stops the server with log.Fatalf. *)
Definition dec_agreed := run_from (take 11 (serve 7 Dec 0 2)) counter_start.

Theorem agreed_dec_stops :
  sys_reachable 1 3 dec_agreed ∧ sys_log dec_agreed = [mkOp 0 1 Dec] ∧ sys_step 1 (SysRead 0) dec_agreed = Panic.
Proof.
  split; [apply (sys_run_reaches 1 (take 11 (serve 7 Dec 0 2)) _ counter_start); [constructor|vm_compute; reflexivity]|].
  split; vm_compute; reflexivity.
Qed.
