(* ===== verification/RSMTest.v ===== *)
(** * kvraft1/rsm/test.go: the tests of the replicated state machine

    Goroutines of a test that call onePartition: each asks one server after the other,
    from the one that answered last, to Submit its request, until one returns OK or the
    time is over.  They run on the servers of System.v, whose events interleave freely
    with theirs; what the network and the clock decide is an input.  A Submit is named by
    its server, the life of that server (a restart makes a new replica) and its thread. *)

From S2P Require Import Prelude KVSrv RaftUtil RaftNode RaftLog RaftWf RaftOps RaftRepl Cluster AppliedLog RSM RSMServer System.
Local Open Scope Z_scope.
Local Open Scope go_scope.

Definition NSRV : Z := 3.

(** A nil slice stands for all servers. *)
Definition inPartition (s : Z) (p : option (list Z)) : bool :=
  match p with None => true | Some p => existsb (λ i, s =? i) p end.

Section tester.
Context {S req rep : Type} `{!StateMachine S req rep}.
Context `{!Gob (PersistedState (Op req))} `{!Gob (Z * Z * bytes)}.
Variable maxraft : Z.
Abbreviation Sys := (SysWorld (S := S) (req := req) (rep := rep)).
Abbreviation Replica := (RsmWorld (R := Raft (Op req)) (S := S) (req := req) (rep := rep)).

(** A goroutine in onePartition: [c_left] iterations of the inner loop are to come,
    [c_sub] is the Submit it waits for, [c_ret] what it returned; nil is [None]. *)
Record Caller := mkCaller {
  c_part : option (list Z); c_req : req; c_index : Z; c_left : nat; c_sub : option (nat * nat); c_ret : option (option rep)
}.

Record RsmTest := mkRsmTest { sys : Sys; t_leader : Z; callers : gmap nat Caller }.

Inductive RsmTestEvent :=
  | RSys (ev : SysEvent (req := req))                   (* anything the servers do *)
  | RCall (c : nat) (p : option (list Z)) (q : req)     (* a goroutine calls onePartition *)
  | RTry (c t : nat) (connected up : bool)              (* it asks the next server *)
  | RGot (c : nat)                                      (* Submit has returned *)
  | RAgain (c : nat) (more : bool).                     (* all servers were asked *)

(** The replicas that server [i] has had, the first one first. *)
Definition lives (w : Sys) (i : Z) : list Replica :=
  reverse (snd <$> filter (λ x, x.1 = i) (past w)) ++ option_list (replica_of <$> (servers w).[i]).

Definition set_caller (c : nat) (cl : Caller) (w : RsmTest) : RsmTest := mkRsmTest (sys w) (t_leader w) (<[c := cl]> (callers w)).

(** [index = (index + 1) % len(ts.srvs)] *)
Definition next_server (w : Sys) (left : nat) (cl : Caller) : Caller :=
  mkCaller (c_part cl) (c_req cl) ((c_index cl + 1) mod go_len (servers w)) left None None.

Definition test_one_step (ev : RsmTestEvent) (w : RsmTest) : outcome RsmTest :=
  match ev with
  | RSys ev => s <~ sys_step maxraft ev (sys w) ;; Next (mkRsmTest s (t_leader w) (callers w))
  | RCall c p q =>
      match callers w !! c with
      | Some _ => Disabled
      | None => Next (set_caller c (mkCaller p q (t_leader w) (length (servers (sys w))) None None) w)
      end
  | RTry c t connected up =>
      cl <~ enabled (callers w !! c) ;;
      match c_ret cl, c_sub cl, c_left cl with
      | None, None, Datatypes.S n =>
          if connected && up && inPartition (c_index cl) (c_part cl) then
            s <~ sys_step maxraft (SysService (c_index cl) (ESubmit t (c_req cl))) (sys w) ;;
            let life := pred (length (lives (sys w) (c_index cl))) in
            Next (mkRsmTest s (t_leader w)
                    (<[c := mkCaller (c_part cl) (c_req cl) (c_index cl) n (Some (life, t)) None]> (callers w)))
          else Next (set_caller c (next_server (sys w) n cl) w)
      | _, _, _ => Disabled
      end
  | RGot c =>
      cl <~ enabled (callers w !! c) ;;
      match c_ret cl, c_sub cl with
      | None, Some (life, t) =>
          r <~ enabled (lives (sys w) (c_index cl) !! life) ;;
          sub <~ enabled (subs r !! t) ;;
          match s_ret sub with
          | Some (err, a) =>
              if decide (err = OK) then
                Next (mkRsmTest (sys w) (c_index cl)
                        (<[c := mkCaller (c_part cl) (c_req cl) (c_index cl) (c_left cl) (c_sub cl) (Some a)]> (callers w)))
              else Next (set_caller c (next_server (sys w) (c_left cl) cl) w)
          | None =>
              (* a Submit of a replica that was killed returns ErrWrongLeader *)
              if (Datatypes.S life <? length (lives (sys w) (c_index cl)))%nat
              then Next (set_caller c (next_server (sys w) (c_left cl) cl) w) else Disabled
          end
      | _, _ => Disabled
      end
  | RAgain c more =>
      cl <~ enabled (callers w !! c) ;;
      match c_ret cl, c_sub cl, c_left cl with
      | None, None, O =>
          Next (set_caller c (if more then mkCaller (c_part cl) (c_req cl) (t_leader w) (length (servers (sys w))) None None
                              else mkCaller (c_part cl) (c_req cl) (c_index cl) 0 None (Some None)) w)
      | _, _, _ => Disabled
      end
  end.

(** The first server that claims to be leader. *)
Definition test_Leader (w : Sys) : bool * Z :=
  match list_find (λ rf, (GetState rf).2 = true) (nodes (cluster w)) with
  | Some (i, _) => (true, Z.of_nat i)
  | None => (false, 0)
  end.

(** makeTest with [n] servers. *)
Definition makeTest (n : nat) : RsmTest := mkRsmTest (sys_start maxraft n) 0 ∅.

(** ** What becomes of a Submit *)

(** The Submits of [r] are Submits of [r'], and what they returned stays. *)
Definition subs_kept (r r' : Replica) : Prop :=
  ∀ t sub, subs r !! t = Some sub → ∃ sub', subs r' !! t = Some sub' ∧ s_req sub' = s_req sub ∧ ∀ a, s_ret sub = Some a → s_ret sub' = Some a.

Lemma subs_kept_refl r r' : subs r' = subs r → subs_kept r r'.
Proof. intros E t sub Ht. exists sub. by rewrite E. Qed.

Lemma subs_kept_trans r1 r2 r3 : subs_kept r1 r2 → subs_kept r2 r3 → subs_kept r1 r3.
Proof.
  intros H1 H2 t sub Ht. destruct (H1 t sub Ht) as (sub2 & Ht2 & E2 & R2). destruct (H2 t sub2 Ht2) as (sub3 & Ht3 & E3 & R3).
  exists sub3. split_and!; [done|congruence|auto].
Qed.

Lemma subs_kept_set r x t sub :
  (∀ old, subs r !! t = Some old → s_req sub = s_req old ∧ ∀ a, s_ret old = Some a → s_ret sub = Some a) →
  subs_kept r (set_sub t sub (RSM.set_node x r)).
Proof.
  intros H u old Hu. simpl. destruct (decide (t = u)) as [<-|].
  - exists sub. rewrite lookup_insert_eq. by destruct (H old Hu).
  - exists old. by rewrite lookup_insert_ne.
Qed.

Lemma give_keeps (res : Err * option rep) ret a : ret = Some a → give res ret = Some a.
Proof. by intros ->. Qed.

Lemma rsm_step_subs ev r r' : rsm_step ev r = Next r' → subs_kept r r'.
Proof.
  destruct ev as [t q|t case|t|msg| | | |rf']; simpl.
  - destruct (subs r !! t) eqn:Ht; [done|]. intros [= <-]. apply (subs_kept_set r (node r)). by rewrite Ht.
  - unfold sub_step. destruct (subs r !! t) as [[q pc ret]|] eqn:Ht; simpl; [|done].
    assert (Hset : ∀ x pc' ret', (∀ a, ret = Some a → ret' = Some a) → subs_kept r (set_sub t (mkSub q pc' ret') (RSM.set_node x r))).
    { intros x pc' ret' Hret. apply subs_kept_set. rewrite Ht. by intros old [= <-]. }
    destruct pc as [|op|op i term|op p i term|op i res|o]; simpl.
    + destruct (doSubmit_op q (node r)) as [x [op|]]; intros [= <-]; apply Hset; [done|apply give_keeps].
    + destruct (doSubmit_start op (node r)) as [[x [[i term] il]]|]; simpl; [|done]. intros [= <-]. destruct il; apply Hset; [done|apply give_keeps].
    + destruct (doSubmit_register op i (node r)) as [x [p|]]; intros [= <-]; apply Hset; [done|apply give_keeps].
    + destruct (waitForResult p term case (node r)) as [[x [res|]]|]; simpl; [..|done]; intros [= <-]; by apply Hset.
    + intros [= <-]. apply Hset, give_keeps.
    + done.
  - destruct (subs r !! t) as [[q pc ret]|] eqn:Ht; simpl; [|done]. intros [= <-]. apply (subs_kept_set r (node r)). rewrite Ht.
    intros old [= <-]. split; [done|]. apply give_keeps.
  - destruct (toSnapshot r); [done|]. destruct (reader msg (node r)) as [[x snap]|]; simpl; [|done]. intros [= <-]. by apply subs_kept_refl.
  - intros [= <-]. by apply subs_kept_refl.
  - destruct (toSnapshot r); simpl; [|done]. destruct (createSnapshot _ _); simpl; [|done]. intros [= <-]. by apply subs_kept_refl.
  - intros [= <-]. by apply subs_kept_refl.
  - intros [= <-]. by apply subs_kept_refl.
Qed.

Context `{!StateMachineLaws S req rep}.
Implicit Types (w : Sys).
Abbreviation Srv := (Server (S := S) (req := req) (rep := rep)).

(** A server of a later state: what its replica has become. *)
Lemma sync_replica c (ss : list Srv) j sv sv' : ss.[j] = Some sv → (sync c ss).[j] = Some sv' → subs (replica_of sv') = subs (replica_of sv).
Proof. intros Hj (rf & sv0 & _ & Hj' & ->)%sync_lookup. by simplify_eq. Qed.

Lemma put_replica c i s0 s (ss : list Srv) j sv sv' : ss.[i] = Some s0 → ss.[j] = Some sv → (sync c (<[Z.to_nat i := s]> ss)).[j] = Some sv' →
  subs (replica_of sv') = subs (replica_of (if decide (i = j) then s else sv)).
Proof.
  intros Hi Hj Hj'. assert (E : (<[Z.to_nat i := s]> ss).[j] = Some (if decide (i = j) then s else sv)).
  { rewrite (go_index_insert _ _ _ s0) by done. by destruct (decide (i = j)). }
  by apply (sync_replica c _ j _ sv' E).
Qed.

Lemma server_step ev w w' j sv sv' : sys_step maxraft ev w = Next w' → (servers w).[j] = Some sv → (servers w').[j] = Some sv' →
  (past w' = past w ∧ subs_kept (replica_of sv) (replica_of sv')) ∨
  (∃ i svi, (servers w).[i] = Some svi ∧ past w' = (i, replica_of svi) :: past w ∧ (i ≠ j → subs_kept (replica_of sv) (replica_of sv'))).
Proof.
  intros Hs Hj Hj'. destruct ev as [ev|i|i|i ev|i]; cbn [sys_step] in Hs.
  - destruct (network_event ev); [|done]. destruct (step ev (cluster w)) as [c| |]; try done. injection Hs as <-. simpl in Hj'. left.
    split; [done|]. apply subs_kept_refl. by apply (sync_replica c (servers w) j).
  - destruct ((servers w).[i]) as [s|] eqn:Hi, ((nodes (cluster w)).[i]) as [rf|]; cbn [enabled outcome_bind] in Hs; try done.
    destruct (applier rf) as [x|]; cbn [run_go outcome_bind] in Hs; [|done]. destruct (step (EvApply i) (cluster w)) as [c| |]; try done. injection Hs as <-.
    simpl in Hj'. left. split; [done|]. apply subs_kept_refl. rewrite (put_replica c i s _ _ j sv sv' Hi Hj Hj').
    destruct (decide (i = j)) as [->|]; [by simplify_eq|done].
  - destruct ((servers w).[i]) as [s|] eqn:Hi; cbn [enabled outcome_bind] in Hs; [|done]. destruct (applyCh s) as [|msg rest]; [done|].
    destruct (rsm_step _ _) as [r| |] eqn:Hr; try done. injection Hs as <-. simpl in Hj'. left. split; [done|].
    pose proof (put_replica _ i s _ _ j sv sv' Hi Hj Hj') as E. destruct (decide (i = j)) as [->|]; [simplify_eq|by apply subs_kept_refl].
    apply rsm_step_subs in Hr. by eapply subs_kept_trans, subs_kept_refl.
  - destruct ((servers w).[i]) as [s|] eqn:Hi; cbn [enabled outcome_bind] in Hs; [|done]. destruct (service_event ev); [|done].
    destruct (rsm_step _ _) as [r| |] eqn:Hr; try done. cbn [outcome_bind] in Hs.
    destruct (match raft_call i ev (replica_of s) with Some call => step call (cluster w) | None => Next (cluster w) end) as [c| |]; try done.
    injection Hs as <-. simpl in Hj'. left. split; [done|].
    pose proof (put_replica _ i s _ _ j sv sv' Hi Hj Hj') as E. destruct (decide (i = j)) as [->|]; [simplify_eq|by apply subs_kept_refl].
    apply rsm_step_subs in Hr. by eapply subs_kept_trans, subs_kept_refl.
  - destruct ((servers w).[i]) as [s|] eqn:Hi, ((nodes (cluster w)).[i]) as [rf|]; cbn [enabled outcome_bind] in Hs; try done.
    destruct (MakeRSM _ _ _ _ _) as [r|]; cbn [run_go outcome_bind] in Hs; [|done]. destruct (step (EvCrash i) (cluster w)) as [c| |]; try done.
    injection Hs as <-. simpl in Hj'. right. exists i, s. split_and!; [done|done|]. intros Hne. apply subs_kept_refl.
    rewrite (put_replica _ i s _ _ j sv sv' Hi Hj Hj'). by rewrite decide_False.
Qed.

Lemma past_step ev w w' : sys_step maxraft ev w = Next w' → ∃ p, past w' = p ++ past w.
Proof.
  intros Hs. destruct ev as [ev|i|i|i ev|i]; cbn [sys_step] in Hs.
  - destruct (network_event ev); [|done]. destruct (step ev (cluster w)); try done. injection Hs as <-. by exists [].
  - destruct ((servers w).[i]), ((nodes (cluster w)).[i]) as [rf|]; cbn [enabled outcome_bind] in Hs; try done.
    destruct (applier rf); cbn [run_go outcome_bind] in Hs; [|done]. destruct (step (EvApply i) (cluster w)); try done. injection Hs as <-. by exists [].
  - destruct ((servers w).[i]) as [s|]; cbn [enabled outcome_bind] in Hs; [|done]. destruct (applyCh s); [done|].
    destruct (rsm_step _ _); try done. injection Hs as <-. by exists [].
  - destruct ((servers w).[i]) as [s|]; cbn [enabled outcome_bind] in Hs; [|done]. destruct (service_event ev); [|done].
    destruct (rsm_step _ _); try done. cbn [outcome_bind] in Hs.
    destruct (match raft_call i ev (replica_of s) with Some call => step call (cluster w) | None => Next (cluster w) end); try done.
    injection Hs as <-. by exists [].
  - destruct ((servers w).[i]) as [s|], ((nodes (cluster w)).[i]) as [rf|]; cbn [enabled outcome_bind] in Hs; try done.
    destruct (MakeRSM _ _ _ _ _); cbn [run_go outcome_bind] in Hs; [|done]. destruct (step (EvCrash i) (cluster w)); try done.
    injection Hs as <-. by exists [(i, replica_of s)].
Qed.

(** The lives of a server stay, each at its place. *)
Lemma lives_step n ev w w' j l r : sys_inv maxraft n w → sys_inv maxraft n w' → sys_step maxraft ev w = Next w' →
  lives w j !! l = Some r → ∃ r', lives w' j !! l = Some r' ∧ subs_kept r r'.
Proof.
  intros Hinv Hinv' Hs. unfold lives. set (olds := reverse (snd <$> filter (λ x, x.1 = j) (past w))).
  intros [Hl|[Hlen Hl]]%lookup_app_Some.
  - exists r. split; [|by apply subs_kept_refl]. destruct (past_step _ _ _ Hs) as [p ->]. rewrite filter_app, fmap_app, reverse_app. fold olds.
    by rewrite <- app_assoc, lookup_app_l by (by eapply lookup_lt_Some).
  - destruct ((servers w).[j]) as [sv|] eqn:Hj; [|done]. simpl in Hl. assert (l = length olds ∧ replica_of sv = r) as [-> <-].
    { destruct (l - length olds)%nat eqn:E; simpl in Hl; [split; [lia|congruence]|done]. }
    destruct (go_index_is_Some (servers w') j) as [sv' Hj'].
    { apply go_index_Some_range in Hj. pose proof (sy_servers _ _ _ Hinv). pose proof (sy_servers _ _ _ Hinv'). unfold go_len in *. lia. }
    destruct (server_step ev w w' j sv sv' Hs Hj Hj') as [[-> Hk]|(i & svi & Hi & -> & Hk)].
    + fold olds. exists (replica_of sv'). split; [|done]. rewrite Hj', lookup_app_r, Nat.sub_diag by lia. done.
    + destruct (decide (i = j)) as [->|Hne].
      * exists (replica_of sv). split; [|by apply subs_kept_refl]. rewrite filter_cons_True, fmap_cons, reverse_cons by done. fold olds. simplify_eq. simpl.
        by rewrite <- app_assoc, lookup_app_r, Nat.sub_diag by lia.
      * fold olds. exists (replica_of sv'). split; [|by apply Hk]. rewrite filter_cons_False by done. fold olds.
        rewrite Hj', lookup_app_r, Nat.sub_diag by lia. done.
Qed.

Lemma lives_life w i l r : lives w i !! l = Some r → life w i r.
Proof.
  unfold lives. intros [Hl|[_ Hl]]%lookup_app_Some.
  - right. apply list_elem_of_lookup_2 in Hl. rewrite elem_of_reverse in Hl. apply list_elem_of_fmap in Hl as ([i' r'] & -> & Hin).
    by apply list_elem_of_filter in Hin as [<- Hin].
  - left. destruct ((servers w).[i]) as [sv|]; [|done]. exists sv. split; [done|]. simpl in Hl.
    destruct (l - _)%nat; simpl in Hl; [congruence|done].
Qed.

(** ** The goroutines of the test *)

Record caller_ok w (cl : Caller) : Prop := {
  co_sub l t : c_sub cl = Some (l, t) → ∃ r sub, lives w (c_index cl) !! l = Some r ∧ subs r !! t = Some sub ∧ s_req sub = c_req cl;
  co_ret x : c_ret cl = Some (Some x) →
    ∃ l t r sub, c_sub cl = Some (l, t) ∧ lives w (c_index cl) !! l = Some r ∧ subs r !! t = Some sub ∧ s_req sub = c_req cl ∧ s_ret sub = Some (OK, Some x)
}.

Lemma caller_ok_step n ev w w' cl : sys_inv maxraft n w → sys_inv maxraft n w' → sys_step maxraft ev w = Next w' → caller_ok w cl → caller_ok w' cl.
Proof.
  intros Hinv Hinv' Hs [H1 H2].
  assert (Hkeep : ∀ l t r sub, lives w (c_index cl) !! l = Some r → subs r !! t = Some sub →
    ∃ r' sub', lives w' (c_index cl) !! l = Some r' ∧ subs r' !! t = Some sub' ∧ s_req sub' = s_req sub ∧ ∀ a, s_ret sub = Some a → s_ret sub' = Some a).
  { intros l t r sub Hl Ht. destruct (lives_step n ev w w' _ l r Hinv Hinv' Hs Hl) as (r' & Hl' & Hk). destruct (Hk t sub Ht) as (sub' & ? & ? & ?). eauto 10. }
  split.
  - intros l t Hsub. destruct (H1 l t Hsub) as (r & sub & Hl & Ht & Hq). destruct (Hkeep l t r sub Hl Ht) as (r' & sub' & Hl' & Ht' & Hq' & _).
    exists r', sub'. split_and!; [done|done|congruence].
  - intros x Hx. destruct (H2 x Hx) as (l & t & r & sub & Hsub & Hl & Ht & Hq & Hr). destruct (Hkeep l t r sub Hl Ht) as (r' & sub' & Hl' & Ht' & Hq' & Hr').
    exists l, t, r', sub'. split_and!; try done; [congruence|by apply Hr'].
Qed.

(** Runs of the test whose log the service answers, which the counter does for all
    that oneInc and oneNull submit; other goroutines may submit too. *)
Inductive test_reachable (n : nat) : RsmTest → Prop :=
  | test_init : log_ok (sys_log (sys (makeTest n))) → test_reachable n (makeTest n)
  | test_next ev (w w' : RsmTest) : test_reachable n w → test_one_step ev w = Next w' → log_ok (sys_log (sys w')) → test_reachable n w'.

(** A step of the test is one of the servers, or the servers stand still. *)
Lemma test_step_sys ev (w w' : RsmTest) : test_one_step ev w = Next w' →
  sys w' = sys w ∨ ∃ sev, sys_step maxraft sev (sys w) = Next (sys w').
Proof.
  destruct ev as [ev|c p q|c t con up|c|c more]; cbn [test_one_step].
  - destruct (sys_step maxraft ev (sys w)) eqn:E; try done. intros [= <-]. right. by exists ev.
  - destruct (callers w !! c); [done|]. intros [= <-]. by left.
  - destruct (callers w !! c) as [cl|]; cbn [enabled outcome_bind]; [|done]. destruct (c_ret cl), (c_sub cl), (c_left cl); try done.
    destruct (_ && _); [|intros [= <-]; by left]. destruct (sys_step _ _ _) eqn:E; try done. intros [= <-]. right. by eexists.
  - destruct (callers w !! c) as [cl|]; cbn [enabled outcome_bind]; [|done]. destruct (c_ret cl), (c_sub cl) as [[l t]|]; try done.
    destruct (lives _ _ !! l) as [r|]; cbn [enabled outcome_bind]; [|done]. destruct (subs r !! t) as [sub|]; cbn [enabled outcome_bind]; [|done].
    destruct (s_ret sub) as [[err a]|]; [destruct (decide (err = OK))|destruct (_ <? _)%nat]; intros; simplify_eq; by left.
  - destruct (callers w !! c) as [cl|]; cbn [enabled outcome_bind]; [|done]. destruct (c_ret cl), (c_sub cl), (c_left cl); try done.
    intros [= <-]. by left.
Qed.

Lemma test_reachable_sys n (w : RsmTest) : test_reachable n w → sys_reachable maxraft n (sys w).
Proof.
  induction 1 as [Hl|ev w w' _ IH Hs Hl]; [by constructor|].
  destruct (test_step_sys ev w w' Hs) as [->|[sev Hsev]]; [done|]. by apply (sys_next _ _ sev (sys w)).
Qed.

Lemma inc_reachable_inv n (w : RsmTest) : test_reachable n w → sys_inv maxraft n (sys w).
Proof. intros Hr. apply sys_reachable_inv; [by apply test_reachable_sys|]. by destruct Hr. Qed.

Lemma idle_ok w cl : c_sub cl = None → c_ret cl = None ∨ c_ret cl = Some None → caller_ok w cl.
Proof. intros Hs Hr. split; [by rewrite Hs|]. intros x Hx. destruct Hr; congruence. Qed.

(** A Submit that has just been called is there. *)
Lemma submit_there i t q w w' : sys_step maxraft (SysService i (ESubmit t q)) w = Next w' →
  ∀ n, sys_inv maxraft n w → sys_inv maxraft n w' → ∃ r sub, lives w' i !! pred (length (lives w i)) = Some r ∧ subs r !! t = Some sub ∧ s_req sub = q.
Proof.
  intros Hs n Hinv Hinv'. cbn [sys_step service_event raft_call rsm_step] in Hs. destruct ((servers w).[i]) as [s|] eqn:Hi; cbn [enabled outcome_bind] in Hs; [|done].
  destruct (subs (replica_of s) !! t) as [|] eqn:Ht; [done|]. cbn [outcome_bind] in Hs. injection Hs as Ew.
  destruct (go_index_is_Some (servers w') i) as [sv' Hi'].
  { apply go_index_Some_range in Hi. pose proof (sy_servers _ _ _ Hinv). pose proof (sy_servers _ _ _ Hinv'). unfold go_len in *. lia. }
  pose proof Hi' as E. rewrite <- Ew in E. apply (put_replica _ i s _ _ i s sv' Hi Hi) in E. rewrite decide_True in E by done. simpl in E.
  assert (Ep : past w' = past w) by (by rewrite <- Ew).
  exists (replica_of sv'), (if shutdown (node (replica_of s)) then mkSub q (SubDone None) (Some (ErrWrongLeader, None)) else mkSub q SubNew None).
  split_and!; [|by rewrite E, lookup_insert_eq|by destruct (shutdown _)].
  unfold lives. rewrite Hi, Hi', Ep. simpl. rewrite length_app. simpl. rewrite Nat.add_1_r. simpl. by rewrite lookup_app_r, Nat.sub_diag by lia.
Qed.

Lemma test_reachable_callers n (w : RsmTest) : test_reachable n w → ∀ c cl, callers w !! c = Some cl → caller_ok (sys w) cl.
Proof.
  induction 1 as [Hl|ev w w' Hr IH Hs Hl]; [done|].
  pose proof (inc_reachable_inv n w Hr) as Hinv.
  assert (Hinv' : sys_inv maxraft n (sys w')) by (apply inc_reachable_inv; by apply (test_next n ev w)).
  assert (Hset : ∀ s c cl d cl', (∀ cl, caller_ok (sys w) cl → caller_ok s cl) → caller_ok s cl →
    <[c := cl]> (callers w) !! d = Some cl' → caller_ok s cl').
  { intros s c cl d cl' Hmono Hcl. rewrite lookup_insert_Some. intros [[_ <-]|[_ Hd]]; [done|]. by apply Hmono, (IH d). }
  destruct ev as [ev|c p q|c t con up|c|c more]; cbn [test_one_step] in Hs.
  - destruct (sys_step maxraft ev (sys w)) as [s| |] eqn:E; try done. injection Hs as <-. simpl in *. intros d cl Hd.
    apply (caller_ok_step n ev (sys w)); try done. by apply (IH d).
  - destruct (callers w !! c); [done|]. injection Hs as <-. simpl in *. intros d cl. apply Hset; [done|]. apply idle_ok; auto.
  - destruct (callers w !! c) as [cl|] eqn:Hc; cbn [enabled outcome_bind] in Hs; [|done]. destruct (c_ret cl), (c_sub cl), (c_left cl) as [|k]; try done.
    destruct (_ && _); [|injection Hs as <-; simpl in *; intros d cl'; apply Hset; [done|]; apply idle_ok; auto].
    destruct (sys_step _ _ _) as [s| |] eqn:E; try done. injection Hs as <-. cbn [sys callers] in *. intros d cl'. apply Hset; [intros x Hx; by apply (caller_ok_step n _ (sys w) s x Hinv Hinv' E)|].
    split; simpl; [|done]. intros l t' [= <- <-]. by apply (submit_there _ _ _ _ _ E n).
  - destruct (callers w !! c) as [cl|] eqn:Hc; cbn [enabled outcome_bind] in Hs; [|done]. pose proof (IH c cl Hc) as Hok.
    destruct (c_ret cl), (c_sub cl) as [[l t]|] eqn:Es; try done.
    destruct (lives _ _ !! l) as [r|] eqn:El; cbn [enabled outcome_bind] in Hs; [|done]. destruct (subs r !! t) as [sub|] eqn:Et; cbn [enabled outcome_bind] in Hs; [|done].
    destruct (co_sub _ _ Hok l t Es) as (r' & sub' & El' & Et' & Hq). simplify_eq.
    destruct (s_ret sub) as [[err a]|] eqn:Er; [destruct (decide (err = OK)) as [->|]|destruct (_ <? _)%nat]; simplify_eq/=; try done;
      intros d cl'; (apply Hset; [done|]); try (by apply idle_ok; auto).
    split; simpl; [intros l' t' [= <- <-]; eauto|]. intros x [= ->]. exists l, t, r, sub. by split_and!.
  - destruct (callers w !! c) as [cl|] eqn:Hc; cbn [enabled outcome_bind] in Hs; [|done]. destruct (c_ret cl), (c_sub cl), (c_left cl); try done.
    injection Hs as <-. simpl in *. intros d cl'. apply Hset; [done|]. destruct more; apply idle_ok; auto.
Qed.
End tester.

(** ** The tests of the counter *)

Section counter_test.
Context `{!Gob Z} `{!Gob (PersistedState (Op CounterReq))} `{!Gob (Z * Z * bytes)}.
Variable maxraft : Z.
Abbreviation CSys := (SysWorld (S := rsmSrv) (req := CounterReq) (rep := CounterRep)).
Abbreviation CTest := (RsmTest (S := rsmSrv) (req := CounterReq) (rep := CounterRep)).
Implicit Types (w : CSys) (L : list (Op CounterReq)).

(** What oneInc and oneNull make of what onePartition returned: nil is [Some None], and
    [None] a type assertion that fails. *)
Definition oneInc (a : option CounterRep) : option (option Z) :=
  match a with None => Some None | Some (IncRep n) => Some (Some n) | Some NullRep => None end.
Definition oneNull (a : option CounterRep) : option (option ()) :=
  match a with None => Some None | Some NullRep => Some (Some ()) | Some (IncRep _) => None end.

Definition counter_of (sv : Server (S := rsmSrv) (req := CounterReq) (rep := CounterRep)) : Z := counter (sm (node (replica_of sv))).

Definition countValue (v : Z) (w : CSys) : Z := foldl (λ i s, if counter_of s =? v then i + 1 else i) 0 (servers w).

(** checkCounter with what it finds in its iterations: it passes when enough servers have the value. *)
Fixpoint checkCounter (v nsrv : Z) (iters : list CSys) : option string :=
  match iters with
  | [] => Some "checkCounter: only some srvs have the value"
  | w :: iters => if nsrv <=? countValue v w then None else checkCounter v nsrv iters
  end.

Lemma countValue_spec v w : countValue v w = Z.of_nat (length (filter (λ sv, counter_of sv = v) (servers w))).
Proof.
  unfold countValue. cut (∀ l i, foldl (λ i s, if counter_of s =? v then i + 1 else i) i l = i + Z.of_nat (length (filter (λ sv, counter_of sv = v) l))).
  { intros H. by rewrite H. }
  induction l as [|sv l IH]; intros i; simpl; [lia|]. rewrite IH, filter_cons. destruct (Z.eqb_spec (counter_of sv) v).
  - rewrite decide_True by done. simpl. lia.
  - by rewrite decide_False.
Qed.

(** The increments in a log. *)
Definition incs L : Z := Z.of_nat (length (filter (λ op, Req op = Inc) L)).

Lemma incs_app L L' : incs (L ++ L') = incs L + incs L'.
Proof. unfold incs. rewrite filter_app, length_app. lia. Qed.

Lemma incs_bound L : 0 ≤ incs L ≤ go_len L.
Proof. unfold incs, go_len. pose proof (length_filter (λ op, Req op = Inc) L). lia. Qed.

Lemma replay_incs L (s : rsmSrv) : replay L = Some s → counter s = wrap_i64 (incs L).
Proof.
  revert s. induction L as [|op L IH] using rev_ind; intros s.
  - intros [= <-]. done.
  - destruct (replay (S := rsmSrv) L) as [s0|] eqn:E; [|unfold replay in *; by rewrite foldl_app, E].
    rewrite (replay_snoc _ _ s0 E). specialize (IH s0 eq_refl). rewrite incs_app. unfold incs at 2. rewrite filter_cons, filter_nil.
    destruct (Req op) eqn:Eq; simpl; [| |done]; intros [= <-]; simpl.
    + by rewrite IH, wrap_i64_add.
    + by rewrite IH, Z.add_0_r.
Qed.

(** Different places that hold increments have different numbers. *)
Lemma incs_lt L k k' op : (k < k')%nat → L !! k' = Some op → Req op = Inc → incs (take (S k) L) < incs (take (S k') L).
Proof.
  intros Hlt Hk Hop. rewrite (take_S_r L k' op Hk), incs_app. assert (Hone : incs [op] = 1) by (unfold incs; by rewrite filter_cons_True).
  assert (Hp : incs (take (S k) L) ≤ incs (take k' L)); [|lia].
  replace (take k' L) with (take (S k) L ++ take (k' - S k) (drop (S k) L)) by (rewrite take_take_drop; f_equal; lia).
  rewrite incs_app. pose proof (incs_bound (take (k' - S k) (drop (S k) L))). lia.
Qed.

Lemma incs_place L k k' op op' : L !! k = Some op → L !! k' = Some op' → Req op = Inc → Req op' = Inc →
  incs (take (S k) L) = incs (take (S k') L) → k = k'.
Proof.
  intros Hk Hk' Ho Ho' E. destruct (lt_eq_lt_dec k k') as [[Hlt|]|Hlt]; [|done|].
  - pose proof (incs_lt L k k' op' Hlt Hk' Ho'). lia.
  - pose proof (incs_lt L k' k op Hlt Hk Ho). lia.
Qed.

(** The operation that the goroutine's last Submit drew. *)
Definition drew w (cl : Caller (req := CounterReq) (rep := CounterRep)) (op : Op CounterReq) : Prop :=
  ∃ l t r sub, c_sub cl = Some (l, t) ∧ lives w (c_index cl) !! l = Some r ∧ subs r !! t = Some sub ∧ s_pc sub = SubDone (Some op).

(** The id that this Submit drew is that of no other operation of the log; servers draw
    their ids each for themselves. *)
Definition own_id w cl : Prop := ∀ op k o, drew w cl op → sys_log w !! k = Some o → Id o = Id op → o = op.

Lemma caller_place n (w : CTest) c cl x :
  test_reachable maxraft n w → callers w !! c = Some cl → own_id (sys w) cl → c_ret cl = Some (Some x) →
  ∃ k op s s', drew (sys w) cl op ∧ sys_log (sys w) !! k = Some op ∧ Req op = c_req cl ∧
    replay (take k (sys_log (sys w))) = Some s ∧ rsmSrv_DoOp (Req op) s = Some (s', x).
Proof.
  intros Hr Hc Hids Hx. pose proof (inc_reachable_inv maxraft n w Hr) as Hinv.
  destruct (co_ret _ _ (test_reachable_callers maxraft n w Hr c cl Hc) x Hx) as (l & t & r & sub & Hsub & Hl & Ht & Hq & Hret).
  destruct (answer_in_log maxraft n (sys w) _ r t sub (Some x) Hinv (lives_life _ _ _ _ Hl) Ht Hret)
    as (op & k & op' & s & s' & y & Hpc & Hreq & Hme & [= <-] & Hk & Hid & Hs & Hdo).
  assert (Hd : drew (sys w) cl op) by (by exists l, t, r, sub). assert (op' = op) as -> by (by apply (Hids op k)).
  exists k, op, s, s'. split_and!; [done|done|congruence|done|done].
Qed.

(** C17 (What the tests of the counter see).  In every run of the servers and of any number of
    goroutines that call oneInc and oneNull, whatever else is submitted as long as no Dec
    is agreed on (it stops the server): the counter of a server is the number of
    increments that it has applied of the log.  Unless another server has drawn the same
    id, no type assertion of oneInc and oneNull fails, what oneInc returns is the number
    of increments in the log up to the one it submitted, and oneIncs that return the same
    number have submitted the same operation. *)
Theorem rsm_tests_count n (w : CTest) : test_reachable maxraft n w →
  (∀ i sv, (servers (sys w)).[i] = Some sv →
    counter_of sv = wrap_i64 (incs (take (Z.to_nat (rsm_lastApplied (node (replica_of sv)))) (sys_log (sys w))))) ∧
  (∀ c cl a, callers w !! c = Some cl → own_id (sys w) cl → c_req cl = Null → c_ret cl = Some a → is_Some (oneNull a)) ∧
  (∀ c cl a, callers w !! c = Some cl → own_id (sys w) cl → c_req cl = Inc → c_ret cl = Some a → ∃ v, oneInc a = Some v ∧
    ∀ m, v = Some m → ∃ k op, drew (sys w) cl op ∧ sys_log (sys w) !! k = Some op ∧ m = wrap_i64 (incs (take (S k) (sys_log (sys w))))) ∧
  (∀ c c' cl cl' m, callers w !! c = Some cl → callers w !! c' = Some cl' → own_id (sys w) cl → own_id (sys w) cl' →
    c_req cl = Inc → c_req cl' = Inc → c_ret cl = Some (Some (IncRep m)) → c_ret cl' = Some (Some (IncRep m)) →
    go_len (sys_log (sys w)) < 2 ^ 63 → ∃ op, drew (sys w) cl op ∧ drew (sys w) cl' op).
Proof.
  intros Hr. pose proof (inc_reachable_inv maxraft n w Hr) as Hinv.
  assert (Hcnt : ∀ i sv, (servers (sys w)).[i] = Some sv →
    counter_of sv = wrap_i64 (incs (take (Z.to_nat (rsm_lastApplied (node (replica_of sv)))) (sys_log (sys w))))).
  { intros i sv Hi. destruct (replica_state maxraft n (sys w) Hinv i sv Hi) as (s & Hs & Heq). apply replay_incs in Hs. unfold counter_of.
    by rewrite <- Hs, Heq. }
  assert (Hinc : ∀ c cl m, callers w !! c = Some cl → own_id (sys w) cl → c_req cl = Inc → c_ret cl = Some (Some m) →
    ∃ k op, drew (sys w) cl op ∧ sys_log (sys w) !! k = Some op ∧ Req op = Inc ∧ m = IncRep (wrap_i64 (incs (take (S k) (sys_log (sys w)))))).
  { intros c cl m Hc Hown Hq Hx. destruct (caller_place n w c cl m Hr Hc Hown Hx) as (k & op & s & s' & Hd & Hk & Hreq & Hs & Hdo).
    exists k, op. rewrite Hreq, Hq in *. split_and!; try done. simpl in Hdo. injection Hdo as <- <-. f_equal.
    rewrite (take_S_r _ _ _ Hk), incs_app, (replay_incs _ _ Hs), wrap_i64_add. do 2 f_equal. unfold incs. by rewrite filter_cons_True. }
  split_and!; [done|..].
  - intros c cl [x|] Hc Hown Hq Hx; [|by eexists]. destruct (caller_place n w c cl x Hr Hc Hown Hx) as (k & op & s & s' & _ & _ & Hreq & _ & Hdo).
    rewrite Hreq, Hq in Hdo. injection Hdo as <- <-. by eexists.
  - intros c cl [x|] Hc Hown Hq Hx; [|by exists None]. destruct (Hinc c cl x Hc Hown Hq Hx) as (k & op & Hd & Hk & Ho & ->). eexists. split; [done|].
    intros m [= <-]. by exists k, op.
  - intros c c' cl cl' m Hc Hc' Hown Hown' Hq Hq' Hx Hx' Hlen. destruct (Hinc c cl _ Hc Hown Hq Hx) as (k & op & Hd & Hk & Ho & [= E]).
    destruct (Hinc c' cl' _ Hc' Hown' Hq' Hx') as (k' & op' & Hd' & Hk' & Ho' & [= E']). exists op. split; [done|].
    assert (k = k') as <-; [|by simplify_eq].
    apply (incs_place (sys_log (sys w)) k k' op op'); try done.
    assert (Hb : ∀ j, 0 ≤ incs (take j (sys_log (sys w))) < 2 ^ 63).
    { intros j. pose proof (incs_bound (take j (sys_log (sys w)))). unfold go_len in *. rewrite length_take in *. lia. }
    pose proof (Hb (S k)). pose proof (Hb (S k')). rewrite !wrap_i64_small in * by lia. congruence.
Qed.
End counter_test.

(** ** Witness: one goroutine increments and another one asks twice

    Server 0 is elected; the first goroutine submits to it.  The second begins at
    server 2, which is not the leader. *)

Definition ask (c t : nat) : RsmTestEvent (req := CounterReq) := RTry c t true true.
Definition submit_steps (i : Z) (t : nat) : list (RsmTestEvent (req := CounterReq)) := replicate 3 (RSys (SysService i (EStep t WaitDone))).

Definition inc_events : list (RsmTestEvent (req := CounterReq)) :=
  (RSys <$> [SysRaft (EvElection 0); SysRaft (EvHandle 0); SysRaft (EvReturn 0)]) ++
  [RCall 0 None Inc; ask 0 7] ++ submit_steps 0 7 ++
  (RSys <$> [SysRaft (EvSend 0 1); SysRaft (EvHandle 2); SysRaft (EvReturn 2); SysApply 0; SysRead 0; SysService 0 ECreateSnapshot;
             SysService 0 (EStep 7 WaitDone); SysService 0 (EStep 7 WaitDone)]) ++
  [RGot 0; RCall 1 (Some [2]) Inc; RTry 1 8 true true; RTry 1 8 false true; ask 1 8] ++ (RSys <$> [SysService 2 (EStep 8 WaitDone); SysService 2 (EStep 8 WaitDone)]) ++
  [RGot 1; RAgain 1 false].

Fixpoint test_one_run (evs : list (RsmTestEvent (req := CounterReq))) (w : RsmTest (S := rsmSrv) (rep := CounterRep)) : outcome (RsmTest (S := rsmSrv) (rep := CounterRep)) :=
  match evs with [] => Next w | ev :: evs => w <~ test_one_step 1 ev w ;; test_one_run evs w end.

Definition inc_start : RsmTest (S := rsmSrv) (req := CounterReq) (rep := CounterRep) := makeTest 1 (Z.to_nat NSRV).
Definition inc_end : RsmTest (S := rsmSrv) (req := CounterReq) (rep := CounterRep) :=
  match test_one_run inc_events inc_start with Next w => w | _ => inc_start end.

Lemma test_run_log n evs : ∀ w w', reachable n (cluster (sys w)) → test_one_run evs w = Next w' →
  reachable n (cluster (sys w')) ∧ sys_log (sys w) `prefix_of` sys_log (sys w').
Proof.
  induction evs as [|ev evs IH]; intros w w' Hr; cbn [test_one_run]; [by intros [= <-]|].
  destruct (test_one_step 1 ev w) as [w1| |] eqn:E; try done. cbn [outcome_bind]. intros Hrun.
  assert (H1 : reachable n (cluster (sys w1)) ∧ sys_log (sys w) `prefix_of` sys_log (sys w1)).
  { destruct (test_step_sys 1 ev w w1 E) as [->|[sev Hs]]; [done|]. by apply (sys_step_log 1 n sev). }
  destruct (IH w1 w') as [H2 H3]; [apply H1|done|]. split; [done|]. by etransitivity; [apply H1|].
Qed.

Lemma test_run_reachable n evs : ∀ w w', test_reachable 1 n w → test_one_run evs w = Next w' → log_ok (sys_log (sys w')) → test_reachable 1 n w'.
Proof.
  induction evs as [|ev evs IH]; intros w w' Hr; cbn [test_one_run]; [by intros [= <-]|].
  destruct (test_one_step 1 ev w) as [w1| |] eqn:E; try done. cbn [outcome_bind]. intros Hrun Hl.
  pose proof (sy_cluster 1 n _ (inc_reachable_inv 1 n w Hr)) as Hc.
  assert (Hc1 : reachable n (cluster (sys w1))).
  { destruct (test_step_sys 1 ev w w1 E) as [->|[sev Hs]]; [done|]. exact (proj1 (sys_step_log 1 n sev _ _ Hc Hs)). }
  apply (IH w1); [|done|done]. apply (test_next 1 n ev w); [done|done|].
  destruct (test_run_log n evs w1 w' Hc1 Hrun) as [_ Hp]. by apply (log_ok_prefix _ _ Hp).
Qed.

Lemma inc_end_reachable : test_reachable 1 3 inc_end.
Proof.
  apply (test_run_reachable 3 inc_events inc_start); [constructor; by apply counter_log_ok|vm_compute; reflexivity|].
  apply counter_log_ok. by vm_compute; repeat constructor.
Qed.

Definition caller0 : Caller (req := CounterReq) (rep := CounterRep) := mkCaller None Inc 0 2 (Some (0%nat, 7%nat)) (Some (Some (IncRep 1))).

Lemma inc_end_glance :
  callers inc_end !! 0%nat = Some caller0 ∧ sys_log (sys inc_end) = [mkOp 0 1 Inc] ∧
  (λ r, s_pc <$> subs r !! 7%nat) <$> lives (sys inc_end) 0 !! 0%nat = Some (Some (SubDone (Some (mkOp 0 1 Inc)))).
Proof. split_and!; vm_compute; reflexivity. Qed.

Lemma caller0_own_id : own_id (sys inc_end) caller0.
Proof.
  destruct inc_end_glance as (_ & Hlog & Hg). intros op k o (l & t & r & sub & [= <- <-] & Hl & Ht & Hpc) Hk _. rewrite Hlog in Hk.
  cbn [c_index caller0] in Hl. rewrite Hl in Hg. cbn [fmap option_fmap option_map] in Hg. rewrite Ht in Hg. cbn in Hg. rewrite Hpc in Hg. injection Hg as ->.
  apply list_elem_of_lookup_2, list_elem_of_singleton in Hk. exact Hk.
Qed.

Lemma rsm_tests_count_witness :
  ∃ v, oneInc (Some (IncRep 1)) = Some v ∧
    ∀ m, v = Some m → ∃ k op, drew (sys inc_end) caller0 op ∧ sys_log (sys inc_end) !! k = Some op ∧ m = wrap_i64 (incs (take (S k) (sys_log (sys inc_end)))).
Proof.
  destruct (rsm_tests_count 1 3 inc_end inc_end_reachable) as (_ & _ & Hinc & _).
  exact (Hinc 0%nat caller0 (Some (IncRep 1)) (proj1 inc_end_glance) caller0_own_id eq_refl eq_refl).
Defined.
