(* ===== verification/KVSystem.v ===== *)
(** * The replicated key/value service as a whole

    System.v at the service of KVRaft.v.  The log the cluster agreed on is turned
    into the history of the Gets and Puts it executes, retransmissions left out;
    this history is sequential, it is what KvModel of models1/kv.go accepts, every
    client request is in it at most once, and every answer a client gets is an
    answer of the history. *)

From S2P Require Import Prelude KVSrv RaftUtil RaftNode RaftLog RaftWf RaftOps RaftRepl Cluster RSM RSMServer KVRaft KVRaftProps System.
Local Open Scope Z_scope.
Local Open Scope go_scope.

(** ** Histories *)

(** What executing [q] adds to the history: nothing when the reply is cached. *)
Definition new_op (q : any) (kv : KVServer) : list (RaftReqMsg * RaftReplyMsg) :=
  match raftReq_of q with
  | Some r => match duplicate r kv with None => [(r, (DoOp q kv).2)] | Some _ => [] end
  | None => []
  end.

Fixpoint kv_history (kv : KVServer) (reqs : list any) : list (RaftReqMsg * RaftReplyMsg) :=
  match reqs with
  | [] => []
  | q :: reqs => new_op q kv ++ kv_history (DoOp q kv).1 reqs
  end.

(** An operation as the model sees it. *)
Definition model_op (x : RaftReqMsg * RaftReplyMsg) : KvOperation :=
  (model_input x.1, mkKvOutput (rp_Value x.2) (rp_Version x.2) (rp_Err x.2)).

Definition request_id (r : RaftReqMsg) : Z * Z := (rq_ClientId r, rq_SeqNum r).

(** What the Get and Put handlers submit. *)
Definition from_handler (q : any) : Prop :=
  ∃ r, q = AnyVal r ∧
    ((∃ args, Get_submit args false false true = inr r) ∨ (∃ args, Put_submit args false false true = inr r)).

Lemma from_handler_known q : from_handler q → ∃ r, q = AnyVal r ∧ known_command r.
Proof. intros (r & -> & [[args [= <-]]|[args [= <-]]]); eexists; (split; [done|]); [by left|by right]. Qed.

Lemma run_ops_app reqs reqs' kv : run_ops (reqs ++ reqs') kv = run_ops reqs' (run_ops reqs kv).
Proof. apply foldl_app. Qed.

Lemma kv_history_app kv reqs reqs' :
  kv_history kv (reqs ++ reqs') = kv_history kv reqs ++ kv_history (run_ops reqs kv) reqs'.
Proof. revert kv. induction reqs as [|q reqs IH]; intros kv; simpl; [done|]. by rewrite IH, app_assoc. Qed.

Lemma kv_history_prefix kv reqs reqs' : reqs `prefix_of` reqs' → kv_history kv reqs `prefix_of` kv_history kv reqs'.
Proof. intros [x ->]. rewrite kv_history_app. by apply prefix_app_r. Qed.

(** ** The model accepts the history *)

Lemma key_of_model_op x : in_Key (op_input (model_op x)) = rq_Key x.1.
Proof. done. Qed.

Lemma history_accepted kv reqs key :
  (∀ q, q ∈ reqs → ∃ r, q = AnyVal r ∧ known_command r) →
  model_run (abs key kv) (on_key key (model_op <$> kv_history kv reqs)) = Some (abs key (run_ops reqs kv)).
Proof.
  intros Hk. induction reqs as [|q reqs IH] using rev_ind; [done|].
  rewrite kv_history_app, run_ops_app. cbn [run_ops foldl kv_history]. rewrite app_nil_r, fmap_app.
  set (s := run_ops reqs kv) in *. destruct (Hk q) as (r & -> & Hr); [set_solver|].
  assert (E : model_run (abs key kv) (on_key key (model_op <$> kv_history kv reqs)) = Some (abs key s)).
  { apply IH. intros q Hq. apply Hk. set_solver. }
  unfold new_op. cbn [raftReq_of]. destruct (duplicate r s) as [a|] eqn:Ed.
  { rewrite (DoOp_duplicate r a) by done. by rewrite app_nil_r. }
  cbn [fmap list_fmap]. rewrite on_key_snoc, key_of_model_op. destruct (DoOp_refines r s Hr Ed) as (Hm & _ & _ & Ho). case_decide as Ek.
  - simpl in Ek. subst key. rewrite model_run_app, E. cbn [mbind option_bind model_run op_input op_output KvOperation_op model_op fst snd]. by rewrite Hm.
  - rewrite app_nil_r, E, Ho; [done|]. intros ->. by apply Ek.
Qed.

(** ** Every request is executed once *)

(** What the table of replies knows of the history [h]: its replies are replies of
    [h], and it has all of [h] that a fresh request can ask for. *)
Definition table_ok (h : list (RaftReqMsg * RaftReplyMsg)) (kv : KVServer) : Prop :=
  (∀ c d seq a, clientMap kv !! c = Some d → Replies d !! seq = Some a → ∃ r, (r, a) ∈ h ∧ request_id r = (c, seq)) ∧
  (∀ r a, (r, a) ∈ h → ∃ d, clientMap kv !! rq_ClientId r = Some d ∧
     (Replies d !! rq_SeqNum r = Some a ∨ rq_SeqNum r + 9 < MaxSeqNum d)).

(** The state after a request that is not a retransmission. *)
Lemma DoOp_new r kv :
  known_command r → duplicate r kv = None →
  ∃ c a, DoOp (AnyVal r) kv = (mkKVServer c (<[rq_ClientId r := remember r a (clientMap kv !! rq_ClientId r)]> (clientMap kv)), a).
Proof.
  intros Hk Hd. unfold DoOp. simpl. rewrite Hd. destruct (execute_known r (cache kv) Hk) as [[c a] ->]. eauto.
Qed.

Lemma remember_from r a d seq x :
  Replies (remember r a d) !! seq = Some x →
  (seq = rq_SeqNum r ∧ x = a) ∨ ∃ d0, d = Some d0 ∧ Replies d0 !! seq = Some x.
Proof.
  destruct d as [d|]; simpl; [|rewrite lookup_singleton_Some; intros [<- <-]; by left].
  destruct (_ <? _); simpl; [rewrite map_lookup_filter_Some|]; rewrite lookup_insert_Some.
  - intros [[[<- <-]|[_ H]] _]; [by left|right; eauto].
  - intros [[<- <-]|[_ H]]; [by left|right; eauto].
Qed.

Lemma remember_max r a d : MaxSeqNum (remember r a d) = match d with Some d => Z.max (MaxSeqNum d) (rq_SeqNum r) | None => rq_SeqNum r end.
Proof. destruct d as [d|]; simpl; [|done]. destruct (Z.ltb_spec (MaxSeqNum d) (rq_SeqNum r)); simpl; lia. Qed.

Lemma table_step h kv r :
  table_ok h kv → known_command r → duplicate r kv = None →
  table_ok (h ++ [(r, (DoOp (AnyVal r) kv).2)]) (DoOp (AnyVal r) kv).1.
Proof.
  intros [H1 H2] Hk Hd. destruct (DoOp_new r kv Hk Hd) as (c & a & ->). split; simpl.
  - intros c' d seq x Hc Hx. destruct (decide (c' = rq_ClientId r)) as [->|Hne].
    + rewrite lookup_insert_eq in Hc. injection Hc as <-. apply remember_from in Hx as [[-> ->]|(d0 & Hd0 & Hx)].
      * exists r. split; [set_solver|done].
      * destruct (H1 _ d0 seq x Hd0 Hx) as (r' & Hr' & E). exists r'. split; [set_solver|done].
    + rewrite lookup_insert_ne in Hc by done. destruct (H1 _ d seq x Hc Hx) as (r' & Hr' & E). exists r'. split; [set_solver|done].
  - intros r' x [Hin|Hin]%elem_of_app.
    + destruct (H2 r' x Hin) as (d & Hd' & Hx). destruct (decide (rq_ClientId r = rq_ClientId r')) as [Ec|Hne].
      * rewrite Ec, lookup_insert_eq, Hd'. eexists. split; [done|]. rewrite remember_max.
        destruct Hx as [Hx|Hx]; [|right; lia]. destruct (decide (rq_SeqNum r ≤ rq_SeqNum r' + 9)); [|right; lia].
        left. apply remember_keeps; [done| |lia]. intros E. unfold duplicate in Hd. rewrite Ec, Hd' in Hd. simpl in Hd. congruence.
      * exists d. by rewrite lookup_insert_ne.
    + apply list_elem_of_singleton in Hin as [= -> ->]. eexists. rewrite lookup_insert_eq. split; [done|]. left. apply remember_self.
Qed.

(** The requests of [reqs] are fresh when their turn comes. *)
Definition all_fresh (kv : KVServer) (reqs : list any) : Prop :=
  ∀ i q, reqs !! i = Some q → fresh (run_ops (take i reqs) kv) q.

Lemma history_once reqs :
  (∀ q, q ∈ reqs → ∃ r, q = AnyVal r ∧ known_command r) → all_fresh StartKVServer reqs →
  let h := kv_history StartKVServer reqs in
  table_ok h (run_ops reqs StartKVServer) ∧ NoDup (request_id <$> h.*1).
Proof.
  induction reqs as [|q reqs IH] using rev_ind; intros Hk Hf.
  { split; [|by constructor]. split; [by intros c d seq a [=]|]. by intros ? ? ?%elem_of_nil. }
  destruct IH as [Ht Hnd]; [intros q' Hq'; apply Hk; set_solver| |].
  { intros i q' Hi. specialize (Hf i q'). rewrite lookup_app_l, take_app_le in Hf; [by apply Hf| |];
      apply lookup_lt_Some in Hi; lia. }
  rewrite kv_history_app, run_ops_app. cbn [run_ops foldl kv_history]. rewrite app_nil_r.
  set (h := kv_history StartKVServer reqs) in *. set (s := run_ops reqs StartKVServer) in *.
  destruct (Hk q) as (r & -> & Hr); [set_solver|]. unfold new_op. cbn [raftReq_of]. destruct (duplicate r s) as [a|] eqn:Ed.
  { rewrite (DoOp_duplicate r a) by done. by rewrite app_nil_r. }
  split; [by apply table_step|]. rewrite !fmap_app. apply NoDup_app. split_and!; [done| |apply NoDup_singleton].
  intros id Hin ->%list_elem_of_singleton. apply list_elem_of_fmap in Hin as (r' & E & Hin). apply list_elem_of_fmap in Hin as ([? a] & -> & Hin).
  destruct (proj2 Ht _ _ Hin) as (d & Hd & Hx). unfold request_id in E. injection E as E1 E2. simpl in *.
  destruct Hx as [Hx|Hx]; [unfold duplicate in Ed; rewrite E1, Hd in Ed; simpl in Ed; congruence|].
  specialize (Hf (length reqs) (AnyVal r)). rewrite take_app_length in Hf. fold s in Hf.
  destruct Hf as [_ Hf]; [by rewrite lookup_app_r, Nat.sub_diag by done|]. simpl in Hf. rewrite E1 in Hf. specialize (Hf d Hd). lia.
Qed.

Lemma prefix_fresh reqs k : all_fresh StartKVServer reqs → all_fresh StartKVServer (take k reqs).
Proof.
  intros Hf i q Hi. apply lookup_take_Some in Hi as [Hi Hlt]. rewrite take_take, Nat.min_l by lia. by apply Hf.
Qed.

(** The reply to a request of the log is in the history, under its id. *)
Lemma answer_in_history reqs k q :
  (∀ q, q ∈ reqs → ∃ r, q = AnyVal r ∧ known_command r) → all_fresh StartKVServer reqs →
  reqs !! k = Some (AnyVal q) →
  ∃ q', (q', (DoOp (AnyVal q) (run_ops (take k reqs) StartKVServer)).2) ∈ kv_history StartKVServer reqs ∧
    request_id q' = request_id q.
Proof.
  intros Hk Hf Hq. set (h := kv_history StartKVServer reqs). pose proof (eq_refl : h = kv_history StartKVServer reqs) as Eh.
  rewrite <- (take_drop_middle _ _ _ Hq), kv_history_app in Eh. cbn [kv_history] in Eh. unfold new_op in Eh. cbn [raftReq_of] in Eh. rewrite Eh.
  set (s := run_ops (take k reqs) StartKVServer) in *. destruct (duplicate q s) as [a|] eqn:Ed; [|exists q; split; [set_solver|done]].
  destruct (history_once (take k reqs)) as [[Ht _] _].
  - intros q' Hq'. apply Hk. apply elem_of_take in Hq' as (i & Hi & _). by eapply list_elem_of_lookup_2.
  - by apply prefix_fresh.
  - unfold duplicate in Ed. destruct (clientMap s !! rq_ClientId q) as [d|] eqn:Ec; [|done]. simpl in Ed.
    destruct (Ht _ d _ a Ec Ed) as (q' & Hin & E). exists q'. split; [|done].
    rewrite (DoOp_duplicate q a); [|unfold duplicate; by rewrite Ec]. apply elem_of_app. by left.
Qed.

(** ** Requests that come in time *)

(** No request of [reqs] is more than nine behind one of the same client that was
    agreed on before it, and clients count from 1. *)
Definition timely (reqs : list any) : Prop :=
  ∀ i q r, reqs !! i = Some q → raftReq_of q = Some r →
    1 ≤ rq_SeqNum r ∧
    ∀ j q' r', (j < i)%nat → reqs !! j = Some q' → raftReq_of q' = Some r' → rq_ClientId r' = rq_ClientId r →
      rq_SeqNum r' - 9 ≤ rq_SeqNum r.

(** The newest number that the table knows of a client is one of its requests. *)
Lemma newest_requested reqs c d :
  clientMap (run_ops reqs StartKVServer) !! c = Some d →
  ∃ j q r, reqs !! j = Some q ∧ raftReq_of q = Some r ∧ rq_ClientId r = c ∧ rq_SeqNum r = MaxSeqNum d.
Proof.
  revert d. induction reqs as [|q reqs IH] using rev_ind; intros d; [done|].
  rewrite run_ops_app. cbn [run_ops foldl]. set (s := run_ops reqs StartKVServer) in *.
  assert (Hold : clientMap s !! c = Some d → ∃ j q' r, (reqs ++ [q]) !! j = Some q' ∧ raftReq_of q' = Some r ∧ rq_ClientId r = c ∧ rq_SeqNum r = MaxSeqNum d).
  { intros (j & q' & r & Hj & H)%IH. exists j, q', r. split; [by apply lookup_app_l_Some|done]. }
  assert (Hnew : (reqs ++ [q]) !! length reqs = Some q) by (by apply list_lookup_middle).
  unfold DoOp. destruct (raftReq_of q) as [r|] eqn:Er; [|done]. destruct (duplicate r s); [done|].
  destruct (execute r (cache s)) as [[c' a]|]; [|done]. simpl.
  rewrite lookup_insert_Some. intros [[<- <-]|[_ H]]; [|by apply Hold]. rewrite remember_max.
  destruct (clientMap s !! rq_ClientId r) as [d0|] eqn:Ed; [|by exists (length reqs), q, r].
  destruct (Z.max_spec (MaxSeqNum d0) (rq_SeqNum r)) as [[_ ->]|[_ ->]]; [by exists (length reqs), q, r|].
  destruct (IH d0 eq_refl) as (j & q' & r' & Hj & H). exists j, q', r'. split; [by apply lookup_app_l_Some|done].
Qed.

Lemma timely_fresh reqs : timely reqs → all_fresh StartKVServer reqs.
Proof.
  intros Ht i q Hi. unfold fresh. destruct (raftReq_of q) as [r|] eqn:Er; [|done]. destruct (Ht i q r Hi Er) as [H1 H2]. split; [done|].
  intros d (j & q' & r' & Hj & Er' & Ec & Em)%newest_requested. apply lookup_take_Some in Hj as [Hj Hlt].
  specialize (H2 j q' r' Hlt Hj Er' Ec). lia.
Qed.

(** ** The system *)

Section kv_system.
Context `{!Gob (PersistedState (Op any))} `{!Gob (Z * Z * bytes)} `{!Gob (gmap string KVPair * gmap Z dupTab)}.
Variable maxraft : Z.

Abbreviation KvSystem := (SysWorld (S := KVServer) (req := any) (rep := RaftReplyMsg)).
Implicit Types w : KvSystem.

(** The history of the operations the servers agreed on. *)
Definition sys_history w : list (RaftReqMsg * RaftReplyMsg) := kv_history StartKVServer (Req <$> sys_log w).

(** Submit is called by the handlers only. *)
Definition served_by_handlers w : Prop :=
  ∀ i r t sub, life w i r → subs r !! t = Some sub → from_handler (s_req sub).

Lemma kv_replay (L : list (Op any)) : replay (S := KVServer) L = Some (run_ops (Req <$> L) StartKVServer).
Proof.
  induction L as [|op L IH] using rev_ind; [done|]. rewrite (replay_snoc _ _ _ IH). simpl.
  rewrite fmap_app, run_ops_app. simpl. by destruct (DoOp _ _).
Qed.

Lemma run_ops_wf reqs : all_fresh StartKVServer reqs → kv_wf (run_ops reqs StartKVServer).
Proof.
  induction reqs as [|q reqs IH] using rev_ind; intros Hf; [apply map_Forall_empty|]. rewrite run_ops_app. cbn [run_ops foldl]. apply DoOp_wf.
  - apply IH. rewrite <- (take_app_length reqs [q]). by apply prefix_fresh.
  - specialize (Hf (length reqs) q). rewrite take_app_length in Hf. apply Hf. by apply list_lookup_middle.
Qed.

Lemma timely_log_ok (L : list (Op any)) : timely (Req <$> L) → log_ok (S := KVServer) L.
Proof.
  intros Hf%timely_fresh i op Hi. exists (run_ops (Req <$> take i L) StartKVServer). split; [apply kv_replay|]. rewrite fmap_take.
  split; [by apply run_ops_wf, prefix_fresh|]. apply Hf. by rewrite list_lookup_fmap, Hi.
Qed.

Lemma log_known n w :
  sys_inv maxraft n w → served_by_handlers w → ∀ q, q ∈ Req <$> sys_log w → ∃ r, q = AnyVal r ∧ known_command r.
Proof.
  intros Hinv Hs q Hq. apply list_elem_of_fmap in Hq as (op & -> & Hop). apply list_elem_of_lookup_1 in Hop as [k Hk].
  destruct (log_submitted maxraft n w Hinv k op Hk) as (r & t & sub & Hl & Ht & _ & <-).
  by eapply from_handler_known, Hs.
Qed.

(** The data of a server is where the model is after a prefix of the history. *)
Lemma server_model n w i sv key :
  sys_inv maxraft n w → served_by_handlers w → (servers w).[i] = Some sv →
  let h := kv_history StartKVServer (Req <$> take (Z.to_nat (rsm_lastApplied (node (replica_of sv)))) (sys_log w)) in
  h `prefix_of` sys_history w ∧
  model_run KvInit (on_key key (model_op <$> h)) = Some (abs key (sm (node (replica_of sv)))).
Proof.
  intros Hinv Hs Hi h. destruct (replica_state maxraft n w Hinv i sv Hi) as (s & E & Q). rewrite kv_replay in E. injection E as <-.
  split; [apply kv_history_prefix; rewrite fmap_take; apply prefix_take|].
  transitivity (Some (abs key (run_ops (Req <$> take (Z.to_nat (rsm_lastApplied (node (replica_of sv)))) (sys_log w)) StartKVServer))).
  - apply (history_accepted StartKVServer). intros q Hq. apply (log_known n w Hinv Hs). rewrite fmap_take in Hq.
    apply elem_of_take in Hq as (k & Hk & _). by eapply list_elem_of_lookup_2.
  - unfold abs. by rewrite (proj1 Q).
Qed.

(** C2 (The key/value service is linearizable).  Take two moments of a run of the
    whole system, the second after the first, in which the handlers alone call
    Submit and the requests come in time: none is numbered more than nine below one
    of the same client agreed on before it (snapshots keep ten replies of a client,
    and without this the claim fails, as KVRaftProps.v shows).  The Gets and Puts
    that the servers have agreed on by the second moment, without retransmissions,
    form one sequential history: KvModel of models1/kv.go accepts each of its
    partitions; no client request occurs in it twice; it extends the history of the
    first moment; the data of every server is the state of the model after a prefix
    of it.  And every Submit of a handler that returned OK, provided
    that no other operation of the log has the id its operation drew, returned the
    reply the history holds for that client request, which is in the part added
    after the first moment when the request was new then. *)
Theorem kv_system_linearizable n w0 w :
  sys_reachable maxraft n w0 → sys_reaches maxraft w0 w → served_by_handlers w → timely (Req <$> sys_log w) →
  let h := sys_history w in
  Forall (λ ops, is_Some (model_run KvInit ops)) (Partition (model_op <$> h)) ∧
  NoDup (request_id <$> h.*1) ∧
  sys_history w0 `prefix_of` h ∧
  (∀ i sv, (servers w).[i] = Some sv → ∃ h', h' `prefix_of` h ∧
     ∀ key, model_run KvInit (on_key key (model_op <$> h')) = Some (abs key (sm (node (replica_of sv))))) ∧
  (∀ i r t sub op q a, life w i r → subs r !! t = Some sub → s_pc sub = SubDone (Some op) → s_req sub = AnyVal q →
     s_ret sub = Some (OK, a) → (∀ k o, sys_log w !! k = Some o → Id o = Id op → o = op) →
     ∃ q' x, a = Some x ∧ (q', x) ∈ h ∧ request_id q' = request_id q ∧
       (request_id q ∉ request_id <$> (sys_history w0).*1 → (q', x) ∈ drop (length (sys_history w0)) h)).
Proof.
  intros H0 Hr Hs Ht h. pose proof (timely_log_ok _ Ht) as Hlog. pose proof (timely_fresh _ Ht) as Hf.
  destruct (sys_later maxraft n w0 w H0 Hr) as [Hp Hinv]. specialize (Hinv Hlog).
  pose proof (log_known n w Hinv Hs) as Hk.
  assert (Hh : sys_history w0 `prefix_of` h).
  { apply kv_history_prefix. destruct Hp as [x ->]. rewrite fmap_app. by apply prefix_app_r. }
  split_and!; [|exact (proj2 (history_once _ Hk Hf))|done|..].
  - apply Forall_forall. intros ops [_ [key ->]]%elem_of_Partition. eexists. by apply (history_accepted StartKVServer).
  - intros i sv Hi. eexists. split; [exact (proj1 (server_model n w i sv "" Hinv Hs Hi))|].
    intros key. exact (proj2 (server_model n w i sv key Hinv Hs Hi)).
  - intros i r t sub op q a Hl Hsub Epc Eq Ha Hu.
    destruct (answer_in_log maxraft n w i r t sub a Hinv Hl Hsub Ha) as (op1 & k & op' & s & s' & x & E1 & Er & _ & -> & Hop & Eid & Es & Ex).
    assert (op1 = op) as -> by congruence. pose proof (Hu k op' Hop Eid) as ->. rewrite kv_replay in Es. injection Es as <-.
    simpl in Ex. rewrite Er, Eq in Ex. destruct (answer_in_history (Req <$> sys_log w) k q Hk Hf) as (q' & Hin & E).
    { by rewrite list_lookup_fmap, Hop, <- Eq, <- Er. }
    rewrite <- fmap_take in Hin. injection Ex as Ex. rewrite Ex in Hin. change ((q', x) ∈ h) in Hin. exists q', x. split_and!; try done.
    intros Hnew. destruct Hh as [h1 Hh]. rewrite Hh, drop_app_length. rewrite Hh in Hin.
    apply elem_of_app in Hin as [Hin|Hin]; [|done]. destruct Hnew. rewrite <- E. by apply list_elem_of_fmap_2, (list_elem_of_fmap_2 fst _ (q', x)).
Qed.
End kv_system.

(** ** A run *)

#[export] Instance kv_raft_codec : Gob (PersistedState (Op any)) := countable_gob (PersistedState (Op any)).

(** Server 0 executes a Put, takes a snapshot, answers, crashes, starts again from
    the snapshot, and executes and answers a Get. *)
Definition kv_start : SysWorld (S := KVServer) (req := any) (rep := RaftReplyMsg) := sys_start 1 3.

Definition kv_from evs (w : SysWorld (S := KVServer) (req := any) (rep := RaftReplyMsg)) :=
  match sys_run 1 evs w with Next w => w | _ => kv_start end.

Definition kv_half := kv_from (serve 7 (AnyVal req_put) 0 2 ++ [SysCrash 0]) kv_start.
Definition kv_end := kv_from (serve 8 (AnyVal req_get) 3 5) kv_half.

Lemma kv_end_history :
  sys_history kv_half = [(req_put, mkRaftReplyMsg PutMethod "" 1 OK)] ∧
  sys_history kv_end = [(req_put, mkRaftReplyMsg PutMethod "" 1 OK); (req_get, mkRaftReplyMsg GetMethod "v" 1 OK)].
Proof. split; vm_compute; reflexivity. Qed.

Lemma kv_from_run evs w :
  match sys_run 1 evs w with Next _ => true | _ => false end = true → sys_run 1 evs w = Next (kv_from evs w).
Proof. unfold kv_from. by destruct (sys_run 1 evs w). Qed.

Lemma kv_half_reachable : sys_reachable 1 3 kv_half.
Proof.
  apply (sys_run_reaches 1 (serve 7 (AnyVal req_put) 0 2 ++ [SysCrash 0]) _ kv_start); [constructor|].
  apply kv_from_run. vm_compute. reflexivity.
Qed.

Lemma kv_end_reached : sys_reaches 1 kv_half kv_end.
Proof.
  apply (sys_run_reaches 1 (serve 8 (AnyVal req_get) 3 5) _ kv_half); [constructor|]. apply kv_from_run. vm_compute. reflexivity.
Qed.

Lemma kv_end_log : sys_log kv_end = [mkOp 0 1 (AnyVal req_put); mkOp 0 2 (AnyVal req_get)].
Proof. vm_compute. reflexivity. Qed.

Lemma kv_end_timely : timely (Req <$> sys_log kv_end).
Proof.
  rewrite kv_end_log. intros [|[|i]] q r Hq Hr; [injection Hq as <-; injection Hr as <-..|discriminate Hq]; (split; [done|]).
  - intros j q' r' Hj. lia.
  - intros [|j] q' r' Hj Hq' Hr' _; [injection Hq' as <-; injection Hr' as <-; done|lia].
Qed.

(** Everything that was ever submitted. *)
Definition requests (w : SysWorld (S := KVServer) (req := any) (rep := RaftReplyMsg)) : list any :=
  ((replica_of <$> servers w) ++ (past w).*2) ≫= λ r, s_req <$> (map_to_list (subs r)).*2.

Lemma requests_served w : Forall from_handler (requests w) → served_by_handlers w.
Proof.
  rewrite Forall_forall. intros H i r t sub Hl Ht. apply H. apply list_elem_of_bind. exists r. split.
  - apply list_elem_of_fmap_2, (list_elem_of_fmap_2 snd _ (t, sub)). by apply elem_of_map_to_list.
  - apply elem_of_app. destruct Hl as [(sv & Hi & <-)|Hp]; [left|right].
    + unfold go_index in Hi. destruct (0 <=? i); [|done]. by eapply list_elem_of_fmap_2, list_elem_of_lookup_2.
    + by apply (list_elem_of_fmap_2 snd _ (i, r)).
Qed.

Lemma kv_end_served : served_by_handlers kv_end.
Proof.
  apply requests_served. assert (E : requests kv_end = [AnyVal req_get; AnyVal req_put]) by (vm_compute; reflexivity). rewrite E.
  repeat constructor; eexists; (split; [reflexivity|]).
  - left. exists (mkGetArgs "k" 1 2). reflexivity.
  - right. exists (mkPutArgs "k" "v" 0 1 1). reflexivity.
Qed.

(** The Get at the end of the run. *)
Lemma kv_end_glance :
  (sv ← (servers kv_end).[0]; sub ← subs (replica_of sv) !! 8%nat; Some (s_req sub, s_pc sub, s_ret sub)) =
  Some (AnyVal req_get, SubDone (Some (mkOp 0 2 (AnyVal req_get))), Some (OK, Some (mkRaftReplyMsg GetMethod "v" 1 OK))).
Proof. vm_compute. reflexivity. Qed.

(** The Get answered after the restart is behind the Put and reads it. *)
Lemma kv_system_linearizable_witness :
  sys_history kv_end = [(req_put, mkRaftReplyMsg PutMethod "" 1 OK); (req_get, mkRaftReplyMsg GetMethod "v" 1 OK)] ∧
  Forall (λ ops, is_Some (model_run KvInit ops)) (Partition (model_op <$> sys_history kv_end)) ∧
  ∃ q' x, (q', x) ∈ drop 1 (sys_history kv_end) ∧ request_id q' = request_id req_get.
Proof.
  split; [exact (proj2 kv_end_history)|].
  destruct (kv_system_linearizable 1 3 kv_half kv_end kv_half_reachable kv_end_reached kv_end_served kv_end_timely) as (H1 & _ & _ & _ & H5).
  split; [exact H1|]. pose proof kv_end_glance as Hg. destruct ((servers kv_end).[0]) as [sv|] eqn:E; [|discriminate Hg].
  destruct (subs (replica_of sv) !! 8%nat) as [sub|] eqn:Es; cbn [mbind option_bind] in Hg; rewrite Es in Hg; [|discriminate Hg]. injection Hg as Hq Hpc Hret.
  destruct (H5 0 (replica_of sv) 8%nat sub (mkOp 0 2 (AnyVal req_get)) req_get (Some (mkRaftReplyMsg GetMethod "v" 1 OK)))
    as (q' & x & _ & _ & Eid & Hnew).
  - left. exists sv. split; [exact E|reflexivity].
  - exact Es.
  - exact Hpc.
  - exact Hq.
  - exact Hret.
  - rewrite kv_end_log.
    intros [|[|k]] o Ho Hid; [injection Ho as <-; discriminate Hid|injection Ho as <-; reflexivity|discriminate Ho].
  - exists q', x. rewrite (proj1 kv_end_history) in Hnew. split; [|exact Eid]. apply Hnew.
    intros Hin. apply list_elem_of_singleton in Hin. discriminate Hin.
Defined.
