(* ===== verification/Labrpc.v ===== *)
(** * labrpc: the simulated network

    labrpc.go of src/src/labrpc.  Clients hold end-points and block in
    [ClientEnd.Call]; one goroutine of the network accepts their requests and
    starts [processReq] for each, which may drop the request or the reply, starts a
    further goroutine that dispatches the request to a method of a server object,
    and stops waiting for it when the server is gone.  A call is a record of where
    these goroutines are; an event is one of their atomic actions (a critical
    section, a communication on a channel, a random choice) or a call of one of the
    methods by which a test changes the network.  [log.Fatalf] and Go panics are
    [Panic].

    The objects behind a server (a Raft peer, a key/value server) are a state
    [St] and the methods functions on it, of one type of arguments and one of
    replies.  The network starts the handlers of a server in goroutines of their own
    and takes no lock around them; here a handler takes effect in one step, at any
    time, which is what handlers do that hold the mutex of their object throughout,
    as those of kvsrv1 and raft1.  Call decodes the reply into a variable of its
    caller; it is taken to hold the zero value, as it does in all callers but the
    clerk of kvraft1, whose variable KVRaft.v has.  Servers are pointers, since the
    network compares them. *)

From Stdlib Require Import Ascii.
From S2P Require Import Prelude Cluster.
Local Open Scope Z_scope.
Local Open Scope go_scope.

Section labrpc.
Context {St A R name : Type} `{!Inhabited A} `{!Gob A} `{!Gob R} `{!EqDecision name} `{!Countable name}.

(** ** Services and servers *)

(** What [reflect] tells about a method, and the method. *)
Record Method := mkMethod {
  m_Name : string; m_PkgPath : string; m_NumIn : Z; m_In2Ptr : bool; m_NumOut : Z;
  m_Func : A → St → St * R
}.

Record Service := mkService { svc_name : string; methods : gmap string (A → St → St * R) }.

Definition suitable (m : Method) : bool :=
  negb (negb (bool_decide (m_PkgPath m = "")) || negb (m_NumIn m =? 3) || negb (m_In2Ptr m) || negb (m_NumOut m =? 0)).

Definition MakeService (typeName : string) (ms : list Method) : Service :=
  mkService typeName (foldl (λ t m, if suitable m then <[m_Name m := m_Func m]> t else t) ∅ ms).

Record Server := mkServer { services : gmap string Service; srv_count : Z; rcvr : St }.

Definition MakeServer (st : St) : Server := mkServer ∅ 0 st.

Definition AddService (svc : Service) (rs : Server) : Server :=
  mkServer (<[svc_name svc := svc]> (services rs)) (srv_count rs) (rcvr rs).

Definition GetCount (rs : Server) : Z := srv_count rs.

Record replyMsg := mkReplyMsg { ok : bool; reply : bytes }.

Record reqMsg := mkReqMsg { endname : name; svcMeth : string; req_args : bytes }.

(** [strings.LastIndex(s, ".")] *)
Fixpoint LastIndex_from (i : Z) (s : string) : Z :=
  match s with
  | EmptyString => -1
  | String c s =>
      let j := LastIndex_from (i + 1) s in
      if negb (j =? -1) then j else if decide (c = "."%char) then i else -1
  end.

Definition LastIndex (s : string) : Z := LastIndex_from 0 s.

(** Raft.AppendEntries is split into service and method. *)
Definition serviceName (m : string) : string := String.substring 0 (Z.to_nat (LastIndex m)) m.
Definition methodName (m : string) : string := String.substring (Z.to_nat (LastIndex m + 1)) (String.length m) m.

(** The locked part of Server.dispatch: the service and the method name; [None] is
    the panic of [svcMeth[:-1]] or the Fatalf of an unknown service. *)
Definition dispatch_lookup (m : string) (rs : Server) : option (Server * (Service * string)) :=
  let rs := mkServer (services rs) (srv_count rs + 1) (rcvr rs) in
  if LastIndex m <? 0 then None
  else
    service ← services rs !! serviceName m;
    Some (rs, (service, methodName m)).

(** Service.dispatch: an argument that does not decode arrives as the zero value. *)
Definition dispatch_args (b : bytes) : A := default inhabitant (gob_decode b).

Definition Service_dispatch (svc : Service) (methname : string) (b : bytes) (st : St) : option (St * replyMsg) :=
  function ← methods svc !! methname;
  let '(st, r) := function (dispatch_args b) st in
  Some (st, mkReplyMsg true (gob_encode r)).

(** ** The network *)

Record ClientEnd := mkClientEnd { e_endname : name }.

Record Network := mkNetwork {
  reliable : bool;
  longDelays : bool;
  longReordering : bool;
  ends : gmap name ClientEnd;
  enabledEnds : gmap name bool;
  servers : gmap name (option nat);       (* nil after DeleteServer *)
  connections : gmap name (option name);
  closed : bool;                          (* done *)
  accepting : bool;                       (* the goroutine of MakeNetwork runs *)
  count : Z;
  bytes_sent : Z
}.

Definition MakeNetwork : Network := mkNetwork true false false ∅ ∅ ∅ ∅ false true 0 0.

Definition Reliable (yes : bool) (n : Network) : Network :=
  mkNetwork yes (longDelays n) (longReordering n) (ends n) (enabledEnds n) (servers n) (connections n) (closed n) (accepting n) (count n) (bytes_sent n).
Definition IsReliable (n : Network) : bool := reliable n.
Definition LongReordering (yes : bool) (n : Network) : Network :=
  mkNetwork (reliable n) (longDelays n) yes (ends n) (enabledEnds n) (servers n) (connections n) (closed n) (accepting n) (count n) (bytes_sent n).
Definition LongDelays (yes : bool) (n : Network) : Network :=
  mkNetwork (reliable n) yes (longReordering n) (ends n) (enabledEnds n) (servers n) (connections n) (closed n) (accepting n) (count n) (bytes_sent n).
Definition IsLongDelays (n : Network) : bool := longDelays n.
Definition set_maps e en s c (n : Network) : Network :=
  mkNetwork (reliable n) (longDelays n) (longReordering n) e en s c (closed n) (accepting n) (count n) (bytes_sent n).
Definition set_counts c b (n : Network) : Network :=
  mkNetwork (reliable n) (longDelays n) (longReordering n) (ends n) (enabledEnds n) (servers n) (connections n) (closed n) (accepting n) c b.
Definition set_done c a (n : Network) : Network :=
  mkNetwork (reliable n) (longDelays n) (longReordering n) (ends n) (enabledEnds n) (servers n) (connections n) c a (count n) (bytes_sent n).

(** [close(rn.done)] panics when it was closed. *)
Definition Cleanup (n : Network) : option Network :=
  if closed n then None else Some (set_done true (accepting n) n).

(** [None] is the Fatalf. *)
Definition MakeEnd (e : name) (n : Network) : option (Network * ClientEnd) :=
  match ends n !! e with
  | Some _ => None
  | None =>
      let ce := mkClientEnd e in
      Some (set_maps (<[e := ce]> (ends n)) (<[e := false]> (enabledEnds n)) (servers n) (<[e := None]> (connections n)) n, ce)
  end.

Definition DeleteEnd (e : name) (n : Network) : option Network :=
  match ends n !! e with
  | None => None
  | Some _ => Some (set_maps (delete e (ends n)) (delete e (enabledEnds n)) (servers n) (delete e (connections n)) n)
  end.

Definition AddServer (s : name) (p : nat) (n : Network) : Network :=
  set_maps (ends n) (enabledEnds n) (<[s := Some p]> (servers n)) (connections n) n.
Definition DeleteServer (s : name) (n : Network) : Network :=
  set_maps (ends n) (enabledEnds n) (<[s := None]> (servers n)) (connections n) n.
Definition Connect (e s : name) (n : Network) : Network :=
  set_maps (ends n) (enabledEnds n) (servers n) (<[e := Some s]> (connections n)) n.
Definition Enable (e : name) (b : bool) (n : Network) : Network :=
  set_maps (ends n) (<[e := b]> (enabledEnds n)) (servers n) (connections n) n.

Definition GetTotalCount (n : Network) : Z := count n.
Definition GetTotalBytes (n : Network) : Z := bytes_sent n.

(** Reading a Go map at an absent key gives the zero value. *)
Definition is_enabled (e : name) (n : Network) : bool := default false (enabledEnds n !! e).
Definition server_at (s : name) (n : Network) : option nat := default None (servers n !! s).
Definition connected (e : name) (n : Network) : option name := default None (connections n !! e).

Definition readEndnameInfo (e : name) (n : Network) : bool * option name * option nat * bool * bool :=
  let servername := connected e n in
  (is_enabled e n, servername, s ← servername; server_at s n, reliable n, longReordering n).

Definition isServerDead (e s : name) (p : nat) (n : Network) : bool :=
  negb (is_enabled e n) || negb (bool_decide (server_at s n = Some p)).

(** ** Calls *)

(** What processReq found for a request that has a live destination. *)
Record Info := mkInfo { i_servername : name; i_server : nat; i_reliable : bool; i_longreordering : bool }.

(** Where [Call] and the processReq that serves it are. *)
Inductive Phase :=
  | Calling                               (* Call: in the select that sends the request *)
  | Received                              (* processReq has started *)
  | Chosen (i : Info)                     (* before the request may be dropped *)
  | Waiting (i : Info)                    (* in the loop that waits for the handler *)
  | Checking (i : Info) (r : option replyMsg)  (* behind it; [None]: replyOK is false *)
  | Replying (r : replyMsg)               (* sends on replyCh, perhaps from a timer *)
  | Returned (r : option R).              (* Call returned, [Some]: true *)

(** The goroutine that dispatches the request. *)
Inductive Dispatching :=
  | DStart (p : nat)
  | DRun (p : nat) (svc : Service) (methname : string)
  | DSend (r : replyMsg)                  (* at [ech <- r] *)
  | DEnd.

Record Call := mkCall {
  c_req : reqMsg;
  c_args : A;                             (* what the caller passed *)
  c_phase : Phase;
  c_disp : option Dispatching
}.

(** A handler that ran, for the properties below: no code reads it. *)
Record Handled := mkHandled {
  h_call : nat; h_server : nat; h_func : A → St → St * R; h_args : A; h_reply : R
}.

(** [created] are the objects the servers were made with, [offered] the services
    added to servers; no code reads them. *)
Record NetWorld := mkNetWorld {
  net : Network;
  heap : gmap nat Server;
  calls : gmap nat Call;
  created : gmap nat St;
  handled : list Handled;                 (* newest first *)
  offered : list (nat * Service)
}.

(** Network.GetCount; a nil server panics. *)
Definition Network_GetCount (s : name) (w : NetWorld) : option Z :=
  p ← server_at s (net w); rs ← heap w !! p; Some (GetCount rs).

Definition set_net n w := mkNetWorld n (heap w) (calls w) (created w) (handled w) (offered w).
Definition set_heap h w := mkNetWorld (net w) h (calls w) (created w) (handled w) (offered w).
Definition set_call t c w := mkNetWorld (net w) (heap w) (<[t := c]> (calls w)) (created w) (handled w) (offered w).
Definition set_phase p c := mkCall (c_req c) (c_args c) p (c_disp c).
Definition set_disp d c := mkCall (c_req c) (c_args c) (c_phase c) (Some d).

(** The request of [Call]. *)
Definition newCall (e : ClientEnd) (m : string) (args : A) : Call :=
  mkCall (mkReqMsg (e_endname e) m (gob_encode args)) args Calling None.

Definition noReply : replyMsg := mkReplyMsg false [].

(** The goroutine of MakeNetwork takes the request. *)
Definition accept (c : Call) (n : Network) : Network :=
  set_counts (wrap_i32 (count n + 1)) (wrap_i64 (bytes_sent n + go_len (req_args (c_req c)))) n.

(** processReq up to the random drop. *)
Definition process_info (c : Call) (n : Network) : Call :=
  match readEndnameInfo (endname (c_req c)) n with
  | (true, Some s, Some p, rel, lr) => set_phase (Chosen (mkInfo s p rel lr)) c
  | _ => set_phase (Replying noReply) c
  end.

(** One turn of the waiting loop when the timer fires. *)
Definition process_poll (i : Info) (c : Call) (n : Network) : Call :=
  if isServerDead (endname (c_req c)) (i_servername i) (i_server i) n then set_phase (Checking i None) c else c.

(** processReq behind the loop; [drop] is the outcome of the random choice. *)
Definition process_check (i : Info) (r : option replyMsg) (drop : bool) (c : Call) (n : Network) : Call :=
  match r with
  | Some rep =>
      if isServerDead (endname (c_req c)) (i_servername i) (i_server i) n then set_phase (Replying noReply) c
      else if negb (i_reliable i) && drop then set_phase (Replying noReply) c
      else set_phase (Replying rep) c
  | None => set_phase (Replying noReply) c
  end.

(** The reply reaches [Call]; [None] is its Fatalf. *)
Definition call_return (rep : replyMsg) (c : Call) (n : Network) : option (Call * Network) :=
  if ok rep then
    r ← gob_decode (reply rep);
    Some (set_phase (Returned (Some r)) c, set_counts (count n) (wrap_i64 (bytes_sent n + go_len (reply rep))) n)
  else Some (set_phase (Returned None) c, n).

Inductive NetEvent :=
  (* the goroutines of call [t] *)
  | ECall (t : nat) (e : ClientEnd) (m : string) (args : A)
  | EAccept (t : nat)
  | EAbort (t : nat)
  | EInfo (t : nat)
  | EDrop (t : nat)
  | EForward (t : nat)
  | ELookup (t : nat)
  | EHandle (t : nat)
  | EEch (t : nat)
  | EPoll (t : nat)
  | ECheck (t : nat) (drop : bool)
  | EReply (t : nat)
  | EDrain (t : nat)
  | EExit                                 (* the goroutine of MakeNetwork *)
  (* the tests *)
  | EReliable (b : bool) | ELongReordering (b : bool) | ELongDelays (b : bool) | ECleanup
  | EMakeEnd (e : name) | EDeleteEnd (e : name)
  | EMakeServer (p : nat) (st : St) | EAddService (p : nat) (svc : Service)
  | EAddServer (s : name) (p : nat) | EDeleteServer (s : name)
  | EConnect (e s : name) | EEnable (e : name) (b : bool).

(** Steps of the goroutines of one call. *)
Definition call_step (ev : NetEvent) (t : nat) (w : NetWorld) : outcome NetWorld :=
  c <~ enabled (calls w !! t) ;;
  match ev with
  | EAccept _ =>
      match c_phase c with
      | Calling => if accepting (net w) then Next (set_call t (set_phase Received c) (set_net (accept c (net w)) w)) else Disabled
      | _ => Disabled
      end
  | EAbort _ =>
      match c_phase c with
      | Calling => if closed (net w) then Next (set_call t (set_phase (Returned None) c) w) else Disabled
      | _ => Disabled
      end
  | EInfo _ => match c_phase c with Received => Next (set_call t (process_info c (net w)) w) | _ => Disabled end
  | EDrop _ =>
      match c_phase c with
      | Chosen i => if i_reliable i then Disabled else Next (set_call t (set_phase (Replying noReply) c) w)
      | _ => Disabled
      end
  | EForward _ =>
      match c_phase c with
      | Chosen i => Next (set_call t (set_disp (DStart (i_server i)) (set_phase (Waiting i) c)) w)
      | _ => Disabled
      end
  | ELookup _ =>
      match c_disp c with
      | Some (DStart p) =>
          rs <~ enabled (heap w !! p) ;;
          x <~ run_go (dispatch_lookup (svcMeth (c_req c)) rs) ;;
          Next (set_call t (set_disp (DRun p x.2.1 x.2.2) c) (set_heap (<[p := x.1]> (heap w)) w))
      | _ => Disabled
      end
  | EHandle _ =>
      match c_disp c with
      | Some (DRun p svc methname) =>
          rs <~ enabled (heap w !! p) ;;
          f <~ run_go (methods svc !! methname) ;;
          x <~ run_go (Service_dispatch svc methname (req_args (c_req c)) (rcvr rs)) ;;
          let a := dispatch_args (req_args (c_req c)) in
          Next (mkNetWorld (net w) (<[p := mkServer (services rs) (srv_count rs) x.1]> (heap w))
            (<[t := set_disp (DSend x.2) c]> (calls w)) (created w) (mkHandled t p f a (f a (rcvr rs)).2 :: handled w) (offered w))
      | _ => Disabled
      end
  | EEch _ =>
      match c_phase c, c_disp c with
      | Waiting i, Some (DSend r) => Next (set_call t (set_disp DEnd (set_phase (Checking i (Some r)) c)) w)
      | _, _ => Disabled
      end
  | EPoll _ => match c_phase c with Waiting i => Next (set_call t (process_poll i c (net w)) w) | _ => Disabled end
  | ECheck _ drop =>
      match c_phase c with Checking i r => Next (set_call t (process_check i r drop c (net w)) w) | _ => Disabled end
  | EReply _ =>
      match c_phase c with
      | Replying rep => x <~ run_go (call_return rep c (net w)) ;; Next (set_call t x.1 (set_net x.2 w))
      | _ => Disabled
      end
  | EDrain _ =>
      match c_phase c, c_disp c with
      | Waiting _, _ => Disabled
      | _, Some (DSend r) => Next (set_call t (set_disp DEnd c) w)
      | _, _ => Disabled
      end
  | _ => Disabled
  end.

Definition net_step (ev : NetEvent) (w : NetWorld) : outcome NetWorld :=
  match ev with
  | ECall t e m args => match calls w !! t with Some _ => Disabled | None => Next (set_call t (newCall e m args) w) end
  | EAccept t | EAbort t | EInfo t | EDrop t | EForward t | ELookup t | EHandle t | EEch t | EPoll t
  | ECheck t _ | EReply t | EDrain t => call_step ev t w
  | EExit => if closed (net w) then Next (set_net (set_done true false (net w)) w) else Disabled
  | EReliable b => Next (set_net (Reliable b (net w)) w)
  | ELongReordering b => Next (set_net (LongReordering b (net w)) w)
  | ELongDelays b => Next (set_net (LongDelays b (net w)) w)
  | ECleanup => n <~ run_go (Cleanup (net w)) ;; Next (set_net n w)
  | EMakeEnd e => x <~ run_go (MakeEnd e (net w)) ;; Next (set_net x.1 w)
  | EDeleteEnd e => n <~ run_go (DeleteEnd e (net w)) ;; Next (set_net n w)
  | EMakeServer p st => match heap w !! p with Some _ => Disabled | None =>
      Next (mkNetWorld (net w) (<[p := MakeServer st]> (heap w)) (calls w) (<[p := st]> (created w)) (handled w) (offered w)) end
  | EAddService p svc => rs <~ enabled (heap w !! p) ;;
      Next (mkNetWorld (net w) (<[p := AddService svc rs]> (heap w)) (calls w) (created w) (handled w) ((p, svc) :: offered w))
  | EAddServer s p => rs <~ enabled (heap w !! p) ;; Next (set_net (AddServer s p (net w)) w)
  | EDeleteServer s => Next (set_net (DeleteServer s (net w)) w)
  | EConnect e s => Next (set_net (Connect e s (net w)) w)
  | EEnable e b => Next (set_net (Enable e b (net w)) w)
  end.

Fixpoint net_run (evs : list NetEvent) (w : NetWorld) : outcome NetWorld :=
  match evs with [] => Next w | ev :: evs => w <~ net_step ev w ;; net_run evs w end.

Definition net_start : NetWorld := mkNetWorld MakeNetwork ∅ ∅ ∅ [] [].

Inductive net_reaches (w0 : NetWorld) : NetWorld → Prop :=
  | net_refl : net_reaches w0 w0
  | net_next ev w w' : net_reaches w0 w → net_step ev w = Next w' → net_reaches w0 w'.

Definition net_reachable (w : NetWorld) : Prop := net_reaches net_start w.

(** ** The invariant *)

Implicit Types (w : NetWorld) (c : Call) (h : Handled) (n : Network).

(** The handlers that ran for call [t], and those that ran on server [p], oldest
    first. *)
Definition handled_for (t : nat) w : list Handled := filter (λ h, h_call h = t) (handled w).
Definition server_log (p : nat) w : list Handled := filter (λ h, h_server h = p) (reverse (handled w)).

(** [hs] ran one after the other on a server object, from state [st] to [st']. *)
Fixpoint executed (st : St) (hs : list Handled) (st' : St) : Prop :=
  match hs with
  | [] => st' = st
  | h :: hs => h_reply h = (h_func h (h_args h) st).2 ∧ executed (h_func h (h_args h) st).1 hs st'
  end.

Definition reply_of h : replyMsg := mkReplyMsg true (gob_encode (h_reply h)).

(** [h] ran the method that [c] names, on what the caller passed. *)
Definition serves c h : Prop :=
  h_args h = c_args c ∧ ∃ svc, methods svc !! methodName (svcMeth (c_req c)) = Some (h_func h).

Definition disp_ok (alive : nat → Prop) (H : list Handled) c : Prop :=
  match c_disp c with
  | None => H = []
  | Some (DStart p) => alive p ∧ H = []
  | Some (DRun p svc m) => alive p ∧ H = [] ∧ m = methodName (svcMeth (c_req c))
  | Some (DSend r) => ∃ h, H = [h] ∧ serves c h ∧ r = reply_of h
  | Some DEnd => ∃ h, H = [h] ∧ serves c h
  end.

Definition phase_ok (alive : nat → Prop) (H : list Handled) c : Prop :=
  match c_phase c with
  | Calling | Received => c_disp c = None
  | Chosen i => c_disp c = None ∧ alive (i_server i)
  | Waiting i => alive (i_server i) ∧
      match c_disp c with
      | Some (DStart p) | Some (DRun p _ _) => p = i_server i
      | Some (DSend _) => Forall (λ h, h_server h = i_server i) H
      | _ => False
      end
  | Checking i (Some r) => c_disp c = Some DEnd ∧ ∃ h, H = [h] ∧ r = reply_of h ∧ h_server h = i_server i
  | Replying r => ok r = true → ∃ h, H = [h] ∧ r = reply_of h
  | Returned (Some r) => ∃ h, H = [h] ∧ h_reply h = r
  | Checking _ None | Returned None => True
  end.

Record call_ok (alive : nat → Prop) (H : list Handled) c : Prop := {
  co_args : req_args (c_req c) = gob_encode (c_args c);
  co_disp : disp_ok alive H c;
  co_phase : phase_ok alive H c
}.

Definition allocated w (p : nat) : Prop := is_Some (heap w !! p).

Record net_inv w : Prop := {
  ni_call t c : calls w !! t = Some c → call_ok (allocated w) (handled_for t w) c;
  ni_new t : calls w !! t = None → handled_for t w = [];
  ni_heap h : h ∈ handled w → allocated w (h_server h);
  ni_exec p rs : heap w !! p = Some rs → ∃ st0, created w !! p = Some st0 ∧ executed st0 (server_log p w) (rcvr rs);
  ni_server s p : servers (net w) !! s = Some (Some p) → allocated w p;
  ni_done : accepting (net w) = false → closed (net w) = true
}.

Lemma net_call_mono (P Q : nat → Prop) H c : (∀ p, P p → Q p) → call_ok P H c → call_ok Q H c.
Proof.
  intros HPQ [H1 H2 H3]. constructor; [done| |].
  - unfold disp_ok in *. destruct (c_disp c) as [[]|]; try done; (split; [by apply HPQ, H2|apply H2]).
  - unfold phase_ok in *. destruct (c_phase c); try done; [split; [apply H3|by apply HPQ, H3]|split; [by apply HPQ, H3|apply H3]].
Qed.

(** A step that runs no handler. *)
Lemma net_quiet w w' :
  net_inv w → handled w' = handled w →
  (∀ p rs', heap w' !! p = Some rs' →
     (∃ rs, heap w !! p = Some rs ∧ rcvr rs' = rcvr rs ∧ created w' !! p = created w !! p) ∨
     (heap w !! p = None ∧ created w' !! p = Some (rcvr rs'))) →
  (∀ p, allocated w p → allocated w' p) →
  (∀ t c, calls w' !! t = Some c → calls w !! t = Some c ∨ call_ok (allocated w') (handled_for t w) c) →
  (∀ t, calls w' !! t = None → calls w !! t = None) →
  (∀ s p, servers (net w') !! s = Some (Some p) → allocated w' p) →
  (accepting (net w') = false → closed (net w') = true) →
  net_inv w'.
Proof.
  intros Hinv Eh Hheap Halloc Hcalls Hnone Hsrv Hdone.
  assert (Ef : ∀ t, handled_for t w' = handled_for t w) by (intros; unfold handled_for; by rewrite Eh).
  constructor; try done.
  - intros u c. rewrite Ef. intros [Hu|Hu]%Hcalls; [|done]. eapply net_call_mono; [apply Halloc|by apply Hinv].
  - intros u Hu. rewrite Ef. by apply Hinv, Hnone.
  - intros h. rewrite Eh. intros Hh%(ni_heap w Hinv). by apply Halloc.
  - intros p rs' Hp. unfold server_log. rewrite Eh. destruct (Hheap p rs' Hp) as [(rs & Hrs & -> & ->)|[Hnew Hcr]]; [by apply (ni_exec w Hinv)|].
    exists (rcvr rs'). split; [done|]. destruct (filter _ _) as [|h l] eqn:E; [done|]. exfalso.
    assert (Hh : h ∈ h :: l) by (by left). rewrite <- E, list_elem_of_filter, elem_of_reverse in Hh.
    destruct Hh as [<- Hh]. destruct (ni_heap w Hinv h Hh) as [rs Hrs]. congruence.
Qed.

(** Changing one call. *)
Lemma insert_calls (alive : nat → Prop) (H : nat → list Handled) (m : gmap nat Call) t c' :
  call_ok alive (H t) c' →
  (∀ u c, <[t := c']> m !! u = Some c → m !! u = Some c ∨ call_ok alive (H u) c) ∧
  (∀ u, <[t := c']> m !! u = None → m !! u = None).
Proof.
  intros Hc. split; intros u.
  - intros c. rewrite lookup_insert_Some. intros [[<- <-]|[_ Hu]]; [by right|by left].
  - rewrite lookup_insert_None. by intros [? _].
Qed.

Lemma executed_snoc st0 hs st h :
  executed st0 hs st → h_reply h = (h_func h (h_args h) st).2 → executed st0 (hs ++ [h]) (h_func h (h_args h) st).1.
Proof.
  intros Hs Hr. revert st0 Hs. induction hs as [|x hs IH]; intros st0; simpl; [by intros <-|]. intros [Hx Hl]. split; [done|by apply IH].
Qed.

(** The handler of call [t] runs on the object of server [p]. *)
Lemma inv_handle w t c p svc m rs f (r := f (dispatch_args (req_args (c_req c))) (rcvr rs)) :
  net_inv w → calls w !! t = Some c → c_disp c = Some (DRun p svc m) → heap w !! p = Some rs →
  methods svc !! m = Some f →
  net_inv (mkNetWorld (net w) (<[p := mkServer (services rs) (srv_count rs) r.1]> (heap w))
    (<[t := set_disp (DSend (mkReplyMsg true (gob_encode r.2))) c]> (calls w)) (created w)
    (mkHandled t p f (dispatch_args (req_args (c_req c))) r.2 :: handled w) (offered w)).
Proof.
  intros Hinv Ht Ed Hp Ef. set (h := mkHandled t p f _ _). set (w' := mkNetWorld _ _ _ _ _ _).
  assert (Ha : ∀ q, allocated w q → allocated w' q).
  { intros q Hq. unfold allocated. simpl. destruct (decide (p = q)) as [<-|]; [rewrite lookup_insert_eq; by eexists|by rewrite lookup_insert_ne]. }
  pose proof (ni_call w Hinv t c Ht) as [C1 C2 C3]. unfold disp_ok in C2. rewrite Ed in C2. destruct C2 as (Hal & Hnil & ->).
  assert (Et : handled_for t w' = [h]).
  { unfold handled_for. simpl. rewrite filter_cons_True by done. fold (handled_for t w). by rewrite Hnil. }
  assert (Eu : ∀ u, u ≠ t → handled_for u w' = handled_for u w) by (intros u Hu; unfold handled_for; simpl; by rewrite filter_cons_False).
  assert (Eargs : dispatch_args (req_args (c_req c)) = c_args c) by (unfold dispatch_args; by rewrite C1, gob_decode_encode).
  constructor.
  - intros u cu. simpl. rewrite lookup_insert_Some. intros [[<- <-]|[Hne Hu]].
    + rewrite Et. constructor; [done| |].
      * exists h. split_and!; [done| |done]. split; [exact Eargs|by exists svc].
      * unfold phase_ok in *. simpl. rewrite Ed in C3.
        destruct (c_phase c) as [| |i|i|i [r0|]|r0|[r0|]]; try done; try (destruct C3; done).
        -- destruct C3 as [Hi ->]. split; [by apply Ha|]. by constructor.
        -- intros E. destruct (C3 E) as (? & Hx & _). by rewrite Hnil in Hx.
        -- destruct C3 as (? & Hx & _). by rewrite Hnil in Hx.
    + rewrite Eu by done. eapply net_call_mono; [exact Ha|by apply Hinv].
  - intros u. simpl. rewrite lookup_insert_None. intros [Hu Hne]. rewrite Eu by done. by apply Hinv.
  - intros h' [->|Hh]%elem_of_cons; [by apply Ha|]. by apply Ha, Hinv.
  - intros q rs'. simpl. unfold server_log. simpl. rewrite reverse_cons, filter_app. destruct (decide (p = q)) as [<-|Hne].
    + rewrite lookup_insert_eq. intros [= <-]. destruct (ni_exec w Hinv p rs Hp) as (st0 & Hcr & Hst). exists st0. split; [done|].
      rewrite filter_cons_True by done. by apply (executed_snoc _ _ (rcvr rs) h).
    + rewrite lookup_insert_ne by done. intros Hq. rewrite filter_cons_False, filter_nil, app_nil_r by done. by apply Hinv.
  - intros s q Hq. by apply Ha, (ni_server w Hinv s).
  - apply Hinv.
Qed.

(** A step of call [t] that runs no handler. *)
Lemma inv_call w t c c' n :
  net_inv w → calls w !! t = Some c →
  servers n = servers (net w) → accepting n = accepting (net w) → closed n = closed (net w) →
  c_req c' = c_req c → c_args c' = c_args c →
  (disp_ok (allocated w) (handled_for t w) c → phase_ok (allocated w) (handled_for t w) c →
   disp_ok (allocated w) (handled_for t w) c' ∧ phase_ok (allocated w) (handled_for t w) c') →
  net_inv (mkNetWorld n (heap w) (<[t := c']> (calls w)) (created w) (handled w) (offered w)).
Proof.
  intros Hinv Ht Es Ea Ec Er Eargs Hok. pose proof (ni_call w Hinv t c Ht) as [C1 C2 C3]. destruct (Hok C2 C3) as [D P].
  destruct (insert_calls (allocated w) (λ u, handled_for u w) (calls w) t c') as [I1 I2]; [constructor; [congruence|done..]|].
  apply (net_quiet w); try done; simpl.
  - intros p rs Hp. left. eauto.
  - rewrite Es. intros s p. apply Hinv.
  - rewrite Ea, Ec. apply Hinv.
Qed.

(** A request that goes on has a destination that is allocated. *)
Lemma process_info_ok w t c :
  net_inv w → c_phase c = Received →
  disp_ok (allocated w) (handled_for t w) c → phase_ok (allocated w) (handled_for t w) c →
  phase_ok (allocated w) (handled_for t w) (process_info c (net w)).
Proof.
  intros Hinv Ep D P. unfold process_info, readEndnameInfo, phase_ok in *. rewrite Ep in P.
  destruct (is_enabled _ _); [|done]. destruct (connected _ _) as [s|]; [|done]. simpl.
  destruct (server_at s (net w)) as [p|] eqn:Es; simpl; [|done]. split; [done|]. apply (ni_server w Hinv s).
  unfold server_at in Es. destruct (servers (net w) !! s); simpl in Es; congruence.
Qed.

Lemma process_check_ok w t c i r drop :
  c_phase c = Checking i r → phase_ok (allocated w) (handled_for t w) c →
  phase_ok (allocated w) (handled_for t w) (process_check i r drop c (net w)).
Proof.
  intros Ep P. unfold phase_ok in P. rewrite Ep in P. unfold process_check. destruct r as [rep|]; [|done].
  destruct P as [Ed (h & Hh & Er & _)]. destruct (isServerDead _ _ _ _); [done|]. destruct (_ && _); [done|].
  intros _. by exists h.
Qed.

Lemma process_fields c n :
  (c_req (process_info c n) = c_req c ∧ c_args (process_info c n) = c_args c ∧ c_disp (process_info c n) = c_disp c) ∧
  ∀ i, (c_req (process_poll i c n) = c_req c ∧ c_args (process_poll i c n) = c_args c ∧ c_disp (process_poll i c n) = c_disp c) ∧
  ∀ r drop, c_req (process_check i r drop c n) = c_req c ∧ c_args (process_check i r drop c n) = c_args c ∧
    c_disp (process_check i r drop c n) = c_disp c.
Proof.
  split_and!; try (unfold process_info; repeat case_match; done).
  intros i. split_and!; try (unfold process_poll; case_match; done). intros r drop. unfold process_check. repeat case_match; done.
Qed.

Lemma disp_ok_same alive H c c' : c_disp c' = c_disp c → c_args c' = c_args c → c_req c' = c_req c → disp_ok alive H c → disp_ok alive H c'.
Proof. unfold disp_ok, serves. by intros -> -> ->. Qed.

(** Growing a server object keeps everything allocated. *)
Lemma allocated_insert w p rs q : allocated w q → allocated (set_heap (<[p := rs]> (heap w)) w) q.
Proof. intros Hq. unfold allocated. simpl. destruct (decide (p = q)) as [<-|]; [rewrite lookup_insert_eq; by eexists|by rewrite lookup_insert_ne]. Qed.

Lemma inv_lookup w t c p rs rs' svc m :
  net_inv w → calls w !! t = Some c → c_disp c = Some (DStart p) → heap w !! p = Some rs →
  dispatch_lookup (svcMeth (c_req c)) rs = Some (rs', (svc, m)) →
  net_inv (set_call t (set_disp (DRun p svc m) c) (set_heap (<[p := rs']> (heap w)) w)).
Proof.
  intros Hinv Ht Ed Hp El. assert (Er : rcvr rs' = rcvr rs ∧ m = methodName (svcMeth (c_req c))).
  { unfold dispatch_lookup in El. simpl in El. destruct (_ <? _); [done|]. destruct (services rs !! _); simpl in El; [|done]. by injection El as <- _ <-. }
  destruct Er as [Er Em]. pose proof (ni_call w Hinv t c Ht) as [C1 C2 C3]. pose proof (allocated_insert w p rs') as Halloc.
  destruct (insert_calls (allocated (set_heap (<[p := rs']> (heap w)) w)) (λ u, handled_for u w) (calls w) t (set_disp (DRun p svc m) c)) as [I1 I2].
  { apply (net_call_mono (allocated w)); [exact Halloc|]. constructor; [done|..].
    - unfold disp_ok in *. simpl. rewrite Ed in C2. by split_and!; [apply C2..|].
    - unfold phase_ok in *. simpl. rewrite Ed in C3. by destruct (c_phase c) as [| | | |? []| |[]]; try (destruct C3; done). }
  apply (net_quiet w); try done; simpl.
  - intros q rs0. rewrite lookup_insert_Some. intros [[<- <-]|[_ Hq]]; left; eauto.
  - intros s q Hq. by apply Halloc, (ni_server w Hinv s).
  - apply Hinv.
Qed.

Lemma inv_return w t c rep c' n :
  net_inv w → calls w !! t = Some c → c_phase c = Replying rep → call_return rep c (net w) = Some (c', n) →
  net_inv (mkNetWorld n (heap w) (<[t := c']> (calls w)) (created w) (handled w) (offered w)).
Proof.
  intros Hinv Ht Ep. unfold call_return. destruct (ok rep) eqn:Eok.
  - destruct (gob_decode (reply rep)) as [r|] eqn:Eg; simpl; [|done]. intros [= <- <-]. apply (inv_call w t c); try done.
    intros D P. split; [done|]. unfold phase_ok in P. rewrite Ep in P. destruct (P Eok) as (h & Hh & ->).
    exists h. split; [done|]. simpl in Eg. rewrite gob_decode_encode in Eg. congruence.
  - intros [= <- <-]. by apply (inv_call w t c).
Qed.

Lemma call_step_inv ev t w w' : net_inv w → call_step ev t w = Next w' → net_inv w'.
Proof.
  intros Hinv. unfold call_step. destruct (calls w !! t) as [c|] eqn:Ht; cbn [enabled outcome_bind]; [|done].
  pose proof (process_fields c (net w)) as [(I1 & I2 & I3) PF].
  destruct ev as [t'|t'|t'|t'|t'|t'|t'|t'|t'|t'|t' drop|t'|t'| | | | | | | | | | | | | ]; try (by repeat case_match).
  - (* EAccept *) destruct (c_phase c) eqn:Ep; try done. destruct (accepting (net w)) eqn:Ea; [|done]. intros [= <-].
    apply (inv_call w t c); try done. intros D P. unfold phase_ok in *. rewrite Ep in P. done.
  - (* EAbort *) destruct (c_phase c) eqn:Ep; try done. destruct (closed (net w)); [|done]. intros [= <-].
    by apply (inv_call w t c).
  - (* EInfo *) destruct (c_phase c) eqn:Ep; try done. intros [= <-]. apply (inv_call w t c); try done.
    intros D P. split; [by eapply disp_ok_same|by apply process_info_ok].
  - (* EDrop *) destruct (c_phase c) eqn:Ep; try done. destruct (i_reliable i); [done|]. intros [= <-].
    by apply (inv_call w t c).
  - (* EForward *) destruct (c_phase c) eqn:Ep; try done. intros [= <-]. apply (inv_call w t c); try done.
    intros D P. unfold phase_ok in P. rewrite Ep in P. destruct P as [En Ha]. unfold disp_ok in D. rewrite En in D. done.
  - (* ELookup *) destruct (c_disp c) as [[p| | |]|] eqn:Ed; try done.
    destruct (heap w !! p) as [rs|] eqn:Hp; cbn [enabled outcome_bind]; [|done].
    destruct (dispatch_lookup (svcMeth (c_req c)) rs) as [[rs' [svc m]]|] eqn:El; cbn [run_go outcome_bind]; [|done].
    intros [= <-]. by eapply inv_lookup.
  - (* EHandle *) destruct (c_disp c) as [[|p svc m| |]|] eqn:Ed; try done.
    destruct (heap w !! p) as [rs|] eqn:Hp; cbn [enabled outcome_bind]; [|done].
    destruct (methods svc !! m) as [f|] eqn:Ef; cbn [run_go outcome_bind]; [|done].
    unfold Service_dispatch. rewrite Ef. cbn [mbind option_bind].
    pose proof (inv_handle w t c p svc m rs f Hinv Ht Ed Hp Ef) as HH. destruct (f _ (rcvr rs)) as [st r].
    cbn [run_go outcome_bind]. intros [= <-]. exact HH.
  - (* EEch *) destruct (c_phase c) as [| | |i| | |] eqn:Ep; try done. destruct (c_disp c) as [[| |r|]|] eqn:Ed; try done.
    intros [= <-]. apply (inv_call w t c); try done. unfold disp_ok, phase_ok. rewrite Ep, Ed. simpl.
    intros (h & Hh & Ha & ->) [_ HP]. rewrite Hh in *. apply Forall_cons_1 in HP as [HP _]. eauto 10.
  - (* EPoll *) destruct (c_phase c) as [| | |i| | |] eqn:Ep; try done. intros [= <-]. destruct (PF i) as [(J1 & J2 & J3) _].
    apply (inv_call w t c); try done. intros D P. split; [by eapply disp_ok_same|].
    unfold process_poll. by destruct (isServerDead _ _ _ _).
  - (* ECheck *) destruct (c_phase c) as [| | | |i r| |] eqn:Ep; try done. intros [= <-]. destruct (PF i) as [_ K].
    destruct (K r drop) as (J1 & J2 & J3). apply (inv_call w t c); try done.
    intros D P. split; [by eapply disp_ok_same|by apply process_check_ok].
  - (* EReply *) destruct (c_phase c) as [| | | | |rep|] eqn:Ep; try done.
    destruct (call_return rep c (net w)) as [[c' n]|] eqn:Er; cbn [run_go outcome_bind]; [|done]. intros [= <-]. exact (inv_return w t c rep c' n Hinv Ht Ep Er).
  - (* EDrain *) destruct (c_disp c) as [[| |r|]|] eqn:Ed; try (by repeat case_match). intros Hs.
    assert (Hw : set_call t (set_disp DEnd c) w = w' ∧ ∀ i, c_phase c ≠ Waiting i) by (by destruct (c_phase c); simplify_eq).
    destruct Hw as [<- Hw]. apply (inv_call w t c); try done. unfold disp_ok, phase_ok. rewrite Ed. simpl.
    intros (h & -> & Ha & _) P. split; [by exists h|]. revert Hw P. destruct (c_phase c) as [| |i|i|i [r0|]|r0|r0]; try done;
      intros Hw P; first [by destruct P|by destruct (Hw i)].
Qed.

(** Changing the network only. *)
Lemma inv_net w n :
  net_inv w → (∀ s p, servers n !! s = Some (Some p) → allocated w p) → (accepting n = false → closed n = true) →
  net_inv (set_net n w).
Proof.
  intros Hinv Hs Hd. apply (net_quiet w); try done; [|by left]. intros p rs Hp. left. eauto.
Qed.

Lemma net_step_inv ev w w' : net_inv w → net_step ev w = Next w' → net_inv w'.
Proof.
  intros Hinv. pose proof (ni_done w Hinv) as Hdone. pose proof (ni_server w Hinv) as Hsrv.
  destruct ev as [t e m args|t|t|t|t|t|t|t|t|t|t drop|t|t| |b|b|b| |e|e|p st|p svc|s p|s|e s|e b]; cbn [net_step];
    try (by apply call_step_inv); try (intros [= <-]; by apply inv_net).
  - destruct (calls w !! t) eqn:Ht; [done|]. intros [= <-].
    destruct (insert_calls (allocated w) (λ u, handled_for u w) (calls w) t (newCall e m args)) as [I1 I2].
    { constructor; [done| |done]. unfold disp_ok. simpl. by apply Hinv. }
    apply (net_quiet w); try done. intros p rs Hp. left. eauto.
  - destruct (closed (net w)); [|done]. intros [= <-]. by apply inv_net.
  - unfold Cleanup. destruct (closed (net w)); [done|]. intros [= <-]. by apply inv_net.
  - unfold MakeEnd. destruct (ends (net w) !! e); [done|]. intros [= <-]. by apply inv_net.
  - unfold DeleteEnd. destruct (ends (net w) !! e); [|done]. intros [= <-]. by apply inv_net.
  - destruct (heap w !! p) eqn:Hp; [done|]. intros [= <-]. apply (net_quiet w); try done; [|apply allocated_insert|by left|].
    + intros q rs'. simpl. rewrite lookup_insert_Some. intros [[<- <-]|[Hne Hq]]; [right|left; rewrite lookup_insert_ne by done; eauto].
      split; [done|apply lookup_insert_eq].
    + intros s q Hq. by apply allocated_insert, (Hsrv s).
  - destruct (heap w !! p) as [rs|] eqn:Hp; [|done]. intros [= <-]. apply (net_quiet w); try done; [|apply allocated_insert|by left|].
    + intros q rs'. simpl. rewrite lookup_insert_Some. intros [[<- <-]|[_ Hq]]; left; eauto.
    + intros s q Hq. by apply allocated_insert, (Hsrv s).
  - destruct (heap w !! p) as [rs|] eqn:Hp; [|done]. intros [= <-]. apply inv_net; try done. intros s' q. simpl.
    rewrite lookup_insert_Some. intros [[_ [= <-]]|[_ Hq]]; [by eexists|by apply (Hsrv s')].
  - intros [= <-]. apply inv_net; try done. intros s' q. simpl.
    rewrite lookup_insert_Some. intros [[_ [=]]|[_ Hq]]. by apply (Hsrv s').
Qed.

Lemma net_start_inv : net_inv net_start.
Proof. constructor; try done. by intros h ?%elem_of_nil. Qed.

Lemma net_reaches_inv w0 w : net_inv w0 → net_reaches w0 w → net_inv w.
Proof. intros H0. induction 1 as [|ev w w' _ IH Hs]; [done|]. by eapply net_step_inv. Qed.

Lemma net_reachable_inv w : net_reachable w → net_inv w.
Proof. apply net_reaches_inv, net_start_inv. Qed.

(** ** What a client may rely on *)

Lemma handled_for_ok alive H c : call_ok alive H c → (length H ≤ 1)%nat ∧ Forall (serves c) H.
Proof.
  intros [_ D _]. unfold disp_ok in D.
  assert (HH : H = [] ∨ ∃ h, H = [h] ∧ serves c h).
  { destruct (c_disp c) as [[p|p svc m|r|]|]; [left; apply D..|right|right|by left].
    - destruct D as (h & -> & Hs & _). eauto.
    - exact D. }
  destruct HH as [->|(h & -> & Hs)]; (split; [simpl; lia|]); [constructor|by constructor].
Qed.

Lemma calls_NoDup (l : list Handled) :
  (∀ t, (length (filter (λ h, h_call h = t) l) ≤ 1)%nat) → NoDup (h_call <$> l).
Proof.
  induction l as [|h l IH]; intros Hl; [constructor|]. simpl. constructor.
  - intros (x & E & Hx)%list_elem_of_fmap. specialize (Hl (h_call h)). rewrite filter_cons_True in Hl by done. simpl in Hl.
    assert (Hf : x ∈ filter (λ y, h_call y = h_call h) l) by (by apply list_elem_of_filter).
    destruct (filter _ l); [by apply elem_of_nil in Hf|simpl in Hl; lia].
  - apply IH. intros t. specialize (Hl t). rewrite filter_cons in Hl. case_decide; simpl in Hl; lia.
Qed.

(** No call is twice in the log of a server. *)
Lemma server_log_NoDup w p : net_inv w → NoDup (h_call <$> server_log p w).
Proof.
  intros Hinv. apply (sublist_NoDup _ (h_call <$> reverse (handled w))); [|apply fmap_sublist, sublist_filter].
  rewrite reverse_Permutation. apply calls_NoDup. intros t. destruct (calls w !! t) as [c|] eqn:Ht.
  - by eapply handled_for_ok, Hinv.
  - pose proof (ni_new w Hinv t Ht) as E. unfold handled_for in E. rewrite E. simpl. lia.
Qed.

(** ** Deleted servers *)

(** A positive reply is on its way or has arrived. *)
Definition positive c : Prop :=
  match c_phase c with Replying r => ok r = true | Returned (Some _) => True | _ => False end.

Lemma process_info_cases c n :
  (c_phase (process_info c n) = Replying noReply ∧
     (is_enabled (endname (c_req c)) n = false ∨ (s ← connected (endname (c_req c)) n; server_at s n) = None)) ∨
  ∃ i, c_phase (process_info c n) = Chosen i ∧ is_enabled (endname (c_req c)) n = true ∧
    connected (endname (c_req c)) n = Some (i_servername i) ∧ server_at (i_servername i) n = Some (i_server i) ∧
    i_reliable i = reliable n.
Proof.
  unfold process_info, readEndnameInfo. destruct (is_enabled _ n); [|left; auto].
  destruct (connected _ n) as [s|]; simpl; [|left; auto]. destruct (server_at s n) as [p|] eqn:Es; [|left; auto].
  right. by eexists.
Qed.

(** Where the phase of a call can go in one step. *)
Inductive moves n c : Phase → Prop :=
  | mv_stay : moves n c (c_phase c)
  | mv_accept : c_phase c = Calling → moves n c Received
  | mv_abort : c_phase c = Calling → closed n = true → moves n c (Returned None)
  | mv_info : c_phase c = Received → moves n c (c_phase (process_info c n))
  | mv_drop i : c_phase c = Chosen i → i_reliable i = false → moves n c (Replying noReply)
  | mv_forward i : c_phase c = Chosen i → moves n c (Waiting i)
  | mv_ech i r : c_phase c = Waiting i → moves n c (Checking i (Some r))
  | mv_dead i : c_phase c = Waiting i →
      isServerDead (endname (c_req c)) (i_servername i) (i_server i) n = true → moves n c (Checking i None)
  | mv_check i r drop : c_phase c = Checking i r → moves n c (c_phase (process_check i r drop c n))
  | mv_return rep r : c_phase c = Replying rep → ok rep = true → moves n c (Returned (Some r))
  | mv_fail rep : c_phase c = Replying rep → ok rep = false → moves n c (Returned None).

(** What the calls read of the network. *)
Definition config n := (reliable n, enabledEnds n, servers n, connections n, closed n).

Record call_post (t : nat) w w' c c' : Prop := {
  cp_old : calls w !! t = Some c;
  cp_calls : calls w' = <[t := c']> (calls w);
  cp_req : c_req c' = c_req c ∧ c_args c' = c_args c;
  cp_moves : moves (net w) c (c_phase c');
  cp_config : config (net w') = config (net w);
  cp_created : created w' = created w;
  cp_heap p rs' : heap w' !! p = Some rs' → ∃ rs, heap w !! p = Some rs ∧ services rs' = services rs;
  cp_disp p svc m : c_disp c' = Some (DRun p svc m) → c_disp c = Some (DRun p svc m) ∨
    ∃ rs, heap w !! p = Some rs ∧ services rs !! serviceName (svcMeth (c_req c)) = Some svc ∧ c_disp c = Some (DStart p);
  cp_handled : handled w' = handled w ∨ ∃ h p svc m, handled w' = h :: handled w ∧
    c_disp c = Some (DRun p svc m) ∧ methods svc !! m = Some (h_func h) ∧ h_args h = dispatch_args (req_args (c_req c)) ∧
    h_call h = t ∧ h_server h = p;
  cp_start p : c_disp c' = Some (DStart p) → c_disp c = Some (DStart p) ∨ ∃ i, c_phase c = Chosen i ∧ i_server i = p;
  cp_offered : offered w' = offered w
}.

(** A step that leaves the server objects alone. *)
Lemma call_post_quiet t w n c c' :
  calls w !! t = Some c → c_req c' = c_req c → c_args c' = c_args c → moves (net w) c (c_phase c') →
  (∀ p svc m, c_disp c' = Some (DRun p svc m) → c_disp c = Some (DRun p svc m)) → config n = config (net w) →
  (∀ p, c_disp c' = Some (DStart p) → c_disp c = Some (DStart p) ∨ ∃ i, c_phase c = Chosen i ∧ i_server i = p) →
  call_post t w (mkNetWorld n (heap w) (<[t := c']> (calls w)) (created w) (handled w) (offered w)) c c'.
Proof. intros Ht Er Ea Hm Hd Hc Hs. split; try done; [intros p rs' Hp; by exists rs'|by left; apply Hd|by left]. Qed.

Lemma insert_services (h : gmap nat Server) p rs rs' :
  h !! p = Some rs → services rs' = services rs →
  ∀ q x', <[p := rs']> h !! q = Some x' → ∃ x, h !! q = Some x ∧ services x' = services x.
Proof. intros Hp Es q x'. rewrite lookup_insert_Some. intros [[<- <-]|[_ Hq]]; eauto. Qed.

Lemma lookup_post t w c p rs x :
  calls w !! t = Some c → c_disp c = Some (DStart p) → heap w !! p = Some rs → dispatch_lookup (svcMeth (c_req c)) rs = Some x →
  call_post t w (set_call t (set_disp (DRun p x.2.1 x.2.2) c) (set_heap (<[p := x.1]> (heap w)) w)) c (set_disp (DRun p x.2.1 x.2.2) c).
Proof.
  intros Ht Ed Hp. unfold dispatch_lookup. simpl. destruct (_ <? 0); [done|].
  destruct (services rs !! serviceName _) as [svc|] eqn:Es; simpl; [|done]. intros [= <-]. simpl.
  split; try done; [exact (mv_stay _ _)|by eapply insert_services| |by left]. intros q svc' m [= <- <- <-]. right. eauto.
Qed.

Lemma call_step_post ev t w w' : call_step ev t w = Next w' → ∃ c c', call_post t w w' c c'.
Proof.
  unfold call_step. destruct (calls w !! t) as [c|] eqn:Ht; cbn [enabled outcome_bind]; [|done].
  pose proof (process_fields c (net w)) as [(I1 & I2 & I3) PF].
  destruct ev as [t'|t'|t'|t'|t'|t'|t'|t'|t'|t'|t' drop|t'|t'| | | | | | | | | | | | | ]; try done.
  - destruct (c_phase c) eqn:Ep; try done. destruct (accepting (net w)); [|done]. intros [= <-].
    exists c; eexists; eapply (call_post_quiet t w _ c); try done; [by apply mv_accept|by left].
  - destruct (c_phase c) eqn:Ep; try done. destruct (closed (net w)) eqn:E; [|done]. intros [= <-].
    exists c; eexists; eapply (call_post_quiet t w _ c); try done; [by apply mv_abort|by left].
  - destruct (c_phase c) eqn:Ep; try done. intros [= <-]. exists c; eexists; eapply (call_post_quiet t w _ c); try done; [by apply mv_info|by rewrite I3|rewrite I3; by left].
  - destruct (c_phase c) as [| |i| | | |] eqn:Ep; try done. destruct (i_reliable i) eqn:Er; [done|]. intros [= <-].
    exists c; eexists; eapply (call_post_quiet t w _ c); try done; [by eapply mv_drop|by left].
  - destruct (c_phase c) eqn:Ep; try done. intros [= <-]. exists c; eexists; eapply (call_post_quiet t w _ c); try done; [by apply mv_forward|]. intros p [= <-]. right. by exists i.
  - destruct (c_disp c) as [[p| | |]|] eqn:Ed; try done. destruct (heap w !! p) as [rs|] eqn:Hp; cbn [enabled outcome_bind]; [|done].
    destruct (dispatch_lookup _ rs) as [x|] eqn:El; cbn [run_go outcome_bind]; [|done]. intros [= <-].
    exists c. eexists. by eapply lookup_post.
  - destruct (c_disp c) as [[|p svc m| |]|] eqn:Ed; try done. destruct (heap w !! p) as [rs|] eqn:Hp; cbn [enabled outcome_bind]; [|done].
    destruct (methods svc !! m) as [f|] eqn:Ef; cbn [run_go outcome_bind]; [|done].
    destruct (Service_dispatch _ _ _ _) as [x|]; cbn [run_go outcome_bind]; [|done]. intros [= <-].
    exists c. eexists. split; try done; [exact (mv_stay _ _)|by eapply insert_services|]. right. by eexists _, p, svc, m.
  - destruct (c_phase c) eqn:Ep; try done. destruct (c_disp c) as [[| |r|]|]; try done. intros [= <-].
    exists c; eexists; eapply (call_post_quiet t w _ c); try done. by apply mv_ech.
  - destruct (c_phase c) as [| | |i| | |] eqn:Ep; try done. intros [= <-]. destruct (PF i) as [(J1 & J2 & J3) _].
    exists c; eexists; eapply (call_post_quiet t w _ c); try done; [|by rewrite J3|rewrite J3; by left].
    unfold process_poll. destruct (isServerDead _ _ _ _) eqn:Ed; [by apply mv_dead|apply mv_stay].
  - destruct (c_phase c) as [| | | |i r| |] eqn:Ep; try done. intros [= <-]. destruct (PF i) as [_ K].
    destruct (K r drop) as (J1 & J2 & J3). exists c; eexists; eapply (call_post_quiet t w _ c); try done; [by apply mv_check|by rewrite J3|rewrite J3; by left].
  - destruct (c_phase c) as [| | | | |rep|] eqn:Ep; try done. unfold call_return. destruct (ok rep) eqn:Eok.
    + destruct (gob_decode (reply rep)) as [r|]; cbn; [|done]. intros [= <-]. exists c; eexists; eapply (call_post_quiet t w _ c); try done; [by eapply mv_return|by left].
    + cbn. intros [= <-]. exists c; eexists; eapply (call_post_quiet t w _ c); try done; [by eapply mv_fail|by left].
  - intros Hs. assert (w' = set_call t (set_disp DEnd c) w) as -> by (destruct (c_phase c), (c_disp c) as [[]|]; congruence).
    exists c; eexists; eapply (call_post_quiet t w _ c); try done. exact (mv_stay _ _).
Qed.

(** A step of the network: of one call, a new call, or of its configuration. *)
Lemma net_step_post ev w w' :
  net_step ev w = Next w' →
  (∃ t c c', call_post t w w' c c') ∨
  (∃ t e m args, calls w !! t = None ∧ calls w' = <[t := newCall e m args]> (calls w) ∧ net w' = net w ∧
     handled w' = handled w) ∨
  calls w' = calls w ∧ handled w' = handled w.
Proof.
  destruct ev as [t e m args|t|t|t|t|t|t|t|t|t|t drop|t|t| |b|b|b| |e|e|p st|p svc|s p|s|e s|e b]; cbn [net_step];
    try (intros (c & c' & H)%call_step_post; left; by exists t, c, c').
  { destruct (calls w !! t) eqn:Ht; [done|]. intros [= <-]. right. left. by exists t, e, m, args. }
  all: unfold Cleanup, MakeEnd, DeleteEnd, outcome_bind, run_go, enabled; intros Hs; right; right; by repeat case_match; simplify_eq.
Qed.

(** ** Where a call goes *)

(** At a moment of the run the end of [c] was enabled and connected to a name under
    which server [p] was registered. *)
Definition routed w c (p : nat) : Prop :=
  ∃ w0 s, net_reachable w0 ∧ net_reaches w0 w ∧ is_enabled (endname (c_req c)) (net w0) = true ∧
    connected (endname (c_req c)) (net w0) = Some s ∧ server_at s (net w0) = Some p.

(** [svc] is a service that was added to server [p] under the name that [c] calls. *)
Definition found w c (p : nat) (svc : Service) : Prop :=
  (p, svc) ∈ offered w ∧ svc_name svc = serviceName (svcMeth (c_req c)).

(** [h] ran the method that [c] names, of a service of that name that its server
    was given, on what the caller passed. *)
Definition serves_on w c h : Prop :=
  h_args h = c_args c ∧ routed w c (h_server h) ∧
  ∃ svc, found w c (h_server h) svc ∧ methods svc !! methodName (svcMeth (c_req c)) = Some (h_func h).

Record route_inv w : Prop := {
  rt_services p rs x svc : heap w !! p = Some rs → services rs !! x = Some svc → svc_name svc = x ∧ (p, svc) ∈ offered w;
  rt_chosen t c i : calls w !! t = Some c → c_phase c = Chosen i → routed w c (i_server i);
  rt_start t c p : calls w !! t = Some c → c_disp c = Some (DStart p) → routed w c p;
  rt_run t c p svc m : calls w !! t = Some c → c_disp c = Some (DRun p svc m) → routed w c p ∧ found w c p svc;
  rt_handled t c h : calls w !! t = Some c → h ∈ handled_for t w → serves_on w c h
}.

Lemma handled_for_eq t w w' : handled w' = handled w → handled_for t w' = handled_for t w.
Proof. unfold handled_for. by intros ->. Qed.

Lemma routed_mono ev w w' c c' p : c_req c' = c_req c → net_step ev w = Next w' → routed w c p → routed w' c' p.
Proof. intros E Hs (w0 & s & H0 & H1 & H). exists w0, s. rewrite E. split_and!; try apply H; [done|]. by eapply net_next. Qed.

Lemma serves_mono ev w w' c c' h :
  c_req c' = c_req c → c_args c' = c_args c → (∀ x, x ∈ offered w → x ∈ offered w') → net_step ev w = Next w' →
  serves_on w c h → serves_on w' c' h.
Proof.
  intros E Ea Ho Hs (H1 & H2 & svc & [H3 H4] & H5). split; [by rewrite Ea|]. split; [by eapply routed_mono|].
  exists svc. unfold found. rewrite E. auto.
Qed.

(** A call that a step leaves alone. *)
Lemma route_keep ev w w' :
  route_inv w → net_step ev w = Next w' → (∀ x, x ∈ offered w → x ∈ offered w') →
  ∀ t c, calls w !! t = Some c → handled_for t w' = handled_for t w →
  (∀ i, c_phase c = Chosen i → routed w' c (i_server i)) ∧
  (∀ p, c_disp c = Some (DStart p) → routed w' c p) ∧
  (∀ p svc m, c_disp c = Some (DRun p svc m) → routed w' c p ∧ found w' c p svc) ∧
  (∀ h, h ∈ handled_for t w' → serves_on w' c h).
Proof.
  intros [R1 R2 R3 R4 R5] Hs Ho t c Ht Hh. split_and!.
  - intros i Hi. eapply routed_mono; [done|done|by eapply R2].
  - intros p Hp. eapply routed_mono; [done|done|by eapply R3].
  - intros p svc m Hd. destruct (R4 t c p svc m Ht Hd) as [H1 [H2 H3]]. split; [by eapply routed_mono|split; auto].
  - intros h. rewrite Hh. intros Hin. eapply serves_mono; [done..|by eapply R5].
Qed.

Lemma route_call ev w w' t c c' :
  net_reachable w → route_inv w → net_step ev w = Next w' → call_post t w w' c c' → route_inv w'.
Proof.
  intros Hr Hinv Hs [P1 P2 [P3 P3'] P4 _ _ P5 P6 P7 P8 P9]. pose proof (net_reachable_inv w Hr) as Hn.
  assert (Ho : ∀ x, x ∈ offered w → x ∈ offered w') by (by rewrite P9).
  assert (Hreq : ∀ p, routed w c p → routed w' c' p) by (intros p; by eapply routed_mono).
  assert (Hnew : ∀ h, h ∈ handled_for t w' → serves_on w' c' h).
  { intros h. unfold handled_for. destruct P7 as [->|(h' & p & svc & m & -> & Hd & Hm & Ha & Et & Ep)].
    - intros Hin. eapply serves_mono; [done..|by eapply (rt_handled w Hinv t)].
    - intros [Eh [->|Hin]%elem_of_cons]%list_elem_of_filter.
      2: { eapply serves_mono; [done..|]. eapply (rt_handled w Hinv t); [done|]. by apply list_elem_of_filter. }
      destruct (rt_run w Hinv t c p svc m P1 Hd) as [H1 [H2 H3]]. pose proof (ni_call w Hn t c P1) as [C1 C2 _].
      unfold disp_ok in C2. rewrite Hd in C2. destruct C2 as (_ & _ & ->).
      split; [by rewrite Ha, P3', C1; unfold dispatch_args; rewrite gob_decode_encode|]. rewrite Ep. split; [by apply Hreq|].
      exists svc. unfold found. rewrite P3. auto. }
  assert (Hother : ∀ u, u ≠ t → handled_for u w' = handled_for u w).
  { intros u Hu. unfold handled_for. destruct P7 as [->|(h' & p & svc & m & -> & _ & _ & _ & Et & _)]; [done|]. apply filter_cons_False. congruence. }
  assert (Hkeep := λ u x (Hne : t ≠ u) Hu, route_keep ev w w' Hinv Hs Ho u x Hu (Hother u (not_eq_sym Hne))).
  constructor.
  - intros p rs x svc (rs0 & Hp & ->)%P5. rewrite P9. by apply (rt_services w Hinv).
  - intros u x i. rewrite P2, lookup_insert_Some. intros [[<- <-]|[Hne Hu]] Hi.
    + apply Hreq. inversion P4 as [E|E E'|E Ec E'|Ep E|j Ep Er E|j Ep E|j r Ep E|j Ep Ed E|j r drop Ep E|rep r Ep Eok E|rep Ep Eok E]; try congruence.
      * eapply (rt_chosen w Hinv t); [done|congruence].
      * destruct (process_info_cases c (net w)) as [[Ei _]|(j & Ei & He & Hc & Hsv & _)]; [congruence|]. assert (i = j) as -> by congruence.
        exists w, (i_servername j). split_and!; try done. constructor.
      * exfalso. rewrite <- E in Hi. unfold process_check in Hi. by repeat case_match.
    + by apply (proj1 (Hkeep u x Hne Hu)).
  - intros u x p. rewrite P2, lookup_insert_Some. intros [[<- <-]|[Hne Hu]] Hd.
    + apply Hreq. destruct (P8 p Hd) as [Hd'|(i & Ei & <-)]; [by eapply (rt_start w Hinv t)|by eapply (rt_chosen w Hinv t)].
    + by apply (proj1 (proj2 (Hkeep u x Hne Hu))).
  - intros u x p svc m. rewrite P2, lookup_insert_Some. intros [[<- <-]|[Hne Hu]] Hd.
    + unfold found. rewrite P3, P9. destruct (P6 p svc m Hd) as [Hd'|(rs & Hp & Hsv & Hd')].
      * destruct (rt_run w Hinv t c p svc m P1 Hd') as [H1 H2]. split; [by apply Hreq|exact H2].
      * split; [apply Hreq; by eapply (rt_start w Hinv t)|]. destruct (rt_services w Hinv p rs _ svc Hp Hsv). done.
    + by apply (proj1 (proj2 (proj2 (Hkeep u x Hne Hu))) p svc m).
  - intros u x h. rewrite P2, lookup_insert_Some. intros [[<- <-]|[Hne Hu]] Hin; [by apply Hnew|].
    by apply (proj2 (proj2 (proj2 (Hkeep u x Hne Hu)))).
Qed.

(** A step that changes no call and runs no handler. *)
Lemma route_quiet ev w w' :
  route_inv w → net_step ev w = Next w' → calls w' = calls w → handled w' = handled w → (∀ x, x ∈ offered w → x ∈ offered w') →
  (∀ p rs x svc, heap w' !! p = Some rs → services rs !! x = Some svc → svc_name svc = x ∧ (p, svc) ∈ offered w') → route_inv w'.
Proof.
  intros Hinv Hs Ec Eh Ho Hsv. assert (Hk := λ t c Ht, route_keep ev w w' Hinv Hs Ho t c Ht (handled_for_eq t w w' Eh)).
  constructor; rewrite ?Ec; [done|..].
  - intros t c i Ht. apply (proj1 (Hk t c Ht)).
  - intros t c p Ht. apply (proj1 (proj2 (Hk t c Ht))).
  - intros t c p svc m Ht. apply (proj1 (proj2 (proj2 (Hk t c Ht)))).
  - intros t c h Ht. apply (proj2 (proj2 (proj2 (Hk t c Ht)))).
Qed.

Lemma route_step ev w w' : net_reachable w → route_inv w → net_step ev w = Next w' → route_inv w'.
Proof.
  intros Hr Hinv Hs. pose proof (rt_services w Hinv) as Hsv.
  destruct ev as [t e m args|t|t|t|t|t|t|t|t|t|t drop|t|t| |b|b|b| |e|e|p st|p svc|s p|s|e s|e b].
  2-13: pose proof Hs as Hp; cbn [net_step] in Hp; apply call_step_post in Hp as (c & c' & Hp); by eapply route_call.
  { pose proof Hs as E. cbn [net_step] in E. destruct (calls w !! t) eqn:Ht; [done|]. injection E as <-.
    assert (Hk := λ u c Hu, route_keep _ w _ Hinv Hs (λ x Hx, Hx) u c Hu eq_refl).
    constructor; simpl; [done|..].
    - intros u c i. rewrite lookup_insert_Some. intros [[<- <-]|[_ Hu]]; [done|]. apply (proj1 (Hk u c Hu)).
    - intros u c p. rewrite lookup_insert_Some. intros [[<- <-]|[_ Hu]]; [done|]. apply (proj1 (proj2 (Hk u c Hu))).
    - intros u c p svc m'. rewrite lookup_insert_Some. intros [[<- <-]|[_ Hu]]; [done|]. apply (proj1 (proj2 (proj2 (Hk u c Hu)))).
    - intros u c h. rewrite lookup_insert_Some. intros [[<- <-]|[_ Hu]]; [|apply (proj2 (proj2 (proj2 (Hk u c Hu))))].
      intros Hin. change (h ∈ handled_for t w) in Hin. rewrite (ni_new w (net_reachable_inv w Hr) t Ht) in Hin. by apply elem_of_nil in Hin. }
  all: pose proof Hs as E; cbn [net_step] in E; unfold Cleanup, MakeEnd, DeleteEnd, outcome_bind, run_go, enabled in E;
    repeat case_match; simplify_eq; try (by eapply route_quiet).
  - eapply route_quiet; try done. intros q rs x svc. simpl. rewrite lookup_insert_Some. intros [[_ <-]|[_ Hq]]; [done|by apply Hsv].
  - eapply route_quiet; try done; [intros x Hx; by right|]. intros q rs' x svc'. simpl. rewrite lookup_insert_Some.
    intros [[<- <-]|[_ Hq]]; simpl; [rewrite lookup_insert_Some; intros [[<- <-]|[_ Hx]]; [split; [done|by left]|]|intros Hx];
      (eapply Hsv in Hx as [? ?]; [|done]; split; [done|by right]).
Qed.

Lemma net_reachable_route w : net_reachable w → route_inv w.
Proof.
  induction 1 as [|ev w w' Hr IH Hs]; [|by eapply route_step]. by constructor.
Qed.

(** C23 (A call is handled at most once, and an answered one exactly once).  Whatever
    the network drops, delays and reorders and however its tests reconfigure it:
    the handler of a call runs at most once; it is the method the call names, of a
    service of that name which the server was given, on the arguments the caller
    passed; the server is one to which the end of the call led, enabled, at a
    moment of the run; and when Call returns true the handler has run and Call
    returns its reply. *)
Theorem labrpc_contract w t c :
  net_reachable w → calls w !! t = Some c →
  (length (handled_for t w) ≤ 1)%nat ∧
  (∀ h, h ∈ handled_for t w → serves_on w c h) ∧
  (∀ r, c_phase c = Returned (Some r) → ∃ h, handled_for t w = [h] ∧ h_reply h = r).
Proof.
  intros Hr Ht. pose proof (net_reachable_inv w Hr) as Hinv. pose proof (ni_call w Hinv t c Ht) as Hc.
  split_and!; [by apply (handled_for_ok _ _ _ Hc)|intros h; by apply (rt_handled w (net_reachable_route w Hr))|].
  intros r Er. pose proof (co_phase _ _ _ Hc) as P. unfold phase_ok in P. by rewrite Er in P.
Qed.

(** A reply turns positive only in processReq, while its server is alive. *)
Lemma positive_new ev w w' t c' :
  net_step ev w = Next w' → calls w' !! t = Some c' → positive c' →
  (∃ c, calls w !! t = Some c ∧ positive c) ∨
  (∃ c i r, calls w !! t = Some c ∧ c_phase c = Checking i (Some r) ∧
     isServerDead (endname (c_req c)) (i_servername i) (i_server i) (net w) = false).
Proof.
  intros [(u & c & c1 & [H1 H2 H3 H4 _ _ _ _ _])|[(u & e & m & args & _ & E & _)|[E _]]]%net_step_post Ht Hp; [| |rewrite E in Ht; eauto].
  - rewrite H2, lookup_insert_Some in Ht. destruct Ht as [[<- <-]|[_ Ht]]; [|by eauto]. unfold positive in Hp.
    inversion H4 as [E|E E'|E Ec E'|Ep E|i Ep Er E|i Ep E|i r Ep E|i Ep Ed E|i r drop Ep E|rep r Ep Eok E|rep Ep Eok E]; rewrite <- E in Hp || rewrite <- E' in Hp; try done.
    + left. by exists c.
    + exfalso. by destruct (process_info_cases c (net w)) as [[Ei _]|(i & Ei & _)]; rewrite Ei in Hp.
    + right. exists c, i. unfold process_check in Hp. destruct r as [rep|]; [|done]. exists rep.
      by destruct (isServerDead _ _ _ _).
    + left. exists c. split; [done|]. unfold positive. by rewrite Ep.
  - rewrite E, lookup_insert_Some in Ht. destruct Ht as [[<- <-]|[_ Ht]]; [done|by eauto].
Qed.

Lemma dead_false e s p n : isServerDead e s p n = false ↔ is_enabled e n = true ∧ server_at s n = Some p.
Proof.
  unfold isServerDead. rewrite orb_false_iff, !negb_false_iff, bool_decide_eq_true. done.
Qed.

Lemma server_at_Some s n p : server_at s n = Some p → servers n !! s = Some (Some p).
Proof. unfold server_at. destruct (servers n !! s); simpl; congruence. Qed.

(** Handlers stay recorded. *)
Lemma handled_mono ev w w' : net_step ev w = Next w' → handled w `suffix_of` handled w'.
Proof.
  intros [(t & c & c' & [_ _ _ _ _ _ _ _ [->|(h & _ & _ & _ & -> & _)]])|[(t & e & m & args & _ & _ & _ & ->)|[_ ->]]]%net_step_post; try done.
  by apply suffix_cons_r.
Qed.

Definition unregistered (p : nat) n : Prop := ∀ s, servers n !! s ≠ Some (Some p).

Lemma unregistered_step ev w w' p :
  net_step ev w = Next w' → (∀ s, ev ≠ EAddServer s p) → unregistered p (net w) → unregistered p (net w').
Proof.
  intros Hs Hev Hun. destruct ev as [t e m args|t|t|t|t|t|t|t|t|t|t drop|t|t| |b|b|b| |e|e|q st|q svc|s q|s|e s|e b].
  2-13: cbn [net_step] in Hs; apply call_step_post in Hs as (c & c' & [_ _ _ _ Ec _ _ _ _]); unfold config in Ec; injection Ec as _ _ Es _ _;
    unfold unregistered; by rewrite Es.
  all: cbn [net_step] in Hs; unfold Cleanup, MakeEnd, DeleteEnd, outcome_bind, run_go, enabled in Hs; repeat case_match; simplify_eq; try done.
  - intros s'. simpl. rewrite lookup_insert_Some. intros [[_ [= ->]]|[_ H']]; [by destruct (Hev s)|by destruct (Hun s')].
  - intros s'. simpl. rewrite lookup_insert_Some. intros [[_ [=]]|[_ H']]. by destruct (Hun s').
Qed.

(** The handler of a call stays the same. *)
Lemma handled_unique ev w w' t c' h0 h :
  net_inv w' → net_step ev w = Next w' → calls w' !! t = Some c' →
  h0 ∈ handled_for t w → h ∈ handled_for t w' → h = h0.
Proof.
  intros Hinv Hs Ht [E0 H0]%list_elem_of_filter Hh. destruct (handled_mono ev w w' Hs) as [l El].
  assert (H0' : h0 ∈ handled_for t w') by (apply list_elem_of_filter; split; [done|]; rewrite El; apply elem_of_app; by right).
  destruct (handled_for_ok _ _ _ (ni_call w' Hinv t c' Ht)) as [Hl _].
  destruct (handled_for t w') as [|x [|y l']]; [by apply elem_of_nil in Hh| |simpl in Hl; lia].
  apply list_elem_of_singleton in Hh as ->. by apply list_elem_of_singleton in H0' as ->.
Qed.

Lemma silent_step ev w w' p t c' h :
  net_inv w → unregistered p (net w) → net_step ev w = Next w' →
  calls w' !! t = Some c' → positive c' → h ∈ handled_for t w' → h_server h = p →
  h ∈ handled w ∧ ∃ c, calls w !! t = Some c ∧ positive c.
Proof.
  intros Hinv Hun Hs Ht Hp Hh Eh. pose proof (net_step_inv _ _ _ Hinv Hs) as Hinv'.
  pose proof (λ h0 H0, handled_unique ev w w' t c' h0 h Hinv' Hs Ht H0 Hh) as Huniq.
  destruct (positive_new _ _ _ _ _ Hs Ht Hp) as [(c & Hc & Hpos)|(c & i & r & Hc & Ec & [_ Hd]%dead_false)];
    pose proof (co_phase _ _ _ (ni_call w Hinv t c Hc)) as P; unfold phase_ok in P.
  - split; [|by exists c]. unfold positive in Hpos.
    assert (H0 : ∃ h0, h0 ∈ handled_for t w).
    { destruct (c_phase c) as [| | | | |rep|[r|]]; try done; [destruct (P Hpos) as (h0 & -> & _)|destruct P as (h0 & -> & _)]; exists h0; by left. }
    destruct H0 as [h0 H0]. rewrite (Huniq h0 H0). by apply list_elem_of_filter in H0 as [_ ?].
  - rewrite Ec in P. destruct P as [_ (h0 & E0 & _ & Ei)]. exfalso. apply (Hun (i_servername i)).
    rewrite (Huniq h0) in Eh by (rewrite E0; by left). rewrite <- Eh, Ei. by apply server_at_Some.
Qed.

(** (A deleted server sends no new replies).  Once a server object is registered
    under no name, and as long as it is not registered again, Call returns true for
    a request it handled only when the reply was already on its way: a handler that
    finishes after DeleteServer is never acknowledged. *)
Theorem deleted_server_silent w0 evs w p t c h r :
  net_reachable w0 → unregistered p (net w0) → net_run evs w0 = Next w → (∀ s, EAddServer s p ∉ evs) →
  calls w !! t = Some c → c_phase c = Returned (Some r) → h ∈ handled_for t w → h_server h = p →
  h ∈ handled w0 ∧ ∃ c0, calls w0 !! t = Some c0 ∧ positive c0.
Proof.
  intros Hinv%net_reachable_inv Hun Hrun Hev Ht Ep Hh Hp. assert (Hpos : positive c) by (unfold positive; by rewrite Ep).
  clear Ep. revert w0 Hinv Hun Hrun. induction evs as [|ev evs IH]; intros w0 Hinv Hun; cbn [net_run].
  { intros [= ->]. apply list_elem_of_filter in Hh as [_ Hh]. eauto. }
  destruct (net_step ev w0) as [w1| |] eqn:Es; cbn [outcome_bind]; try done. intros Hrun.
  destruct (IH (λ s Hs, Hev s (list_elem_of_further _ _ _ Hs)) w1) as (Hh1 & c1 & Hc1 & Hpos1); [by eapply net_step_inv| |done|].
  - eapply unregistered_step; [done| |done]. intros s ->. apply (Hev s). by left.
  - eapply silent_step; try done. apply list_elem_of_filter in Hh as [Et _]. by apply list_elem_of_filter.
Qed.

(** ** A reliable network *)

(** Steps of the goroutines, not of the tests. *)
Definition goroutine (ev : NetEvent) : bool :=
  match ev with
  | ECall _ _ _ _ | EAccept _ | EAbort _ | EInfo _ | EDrop _ | EForward _ | ELookup _ | EHandle _ | EEch _ | EPoll _
  | ECheck _ _ | EReply _ | EDrain _ | EExit => true
  | _ => false
  end.

(** End [e] reaches server object [p], registered as [s], over a reliable network. *)
Definition direct (e s : name) (p : nat) n : Prop :=
  reliable n = true ∧ is_enabled e n = true ∧ connected e n = Some s ∧ server_at s n = Some p ∧ closed n = false.

Lemma direct_config e s p n n' : config n' = config n → direct e s p n → direct e s p n'.
Proof.
  unfold config, direct, is_enabled, connected, server_at. intros [= E1 E2 E3 E4 E5]. by rewrite E1, E2, E3, E4, E5.
Qed.

Lemma goroutine_direct ev w w' e s p :
  goroutine ev = true → net_step ev w = Next w' → direct e s p (net w) → direct e s p (net w').
Proof.
  intros Hg Hs Hd. destruct ev; try done; cbn [net_step] in Hs;
    try (apply call_step_post in Hs as (c & c' & [_ _ _ _ Ec _ _ _ _]); by eapply direct_config).
  - destruct (calls w !! t); [done|]. by injection Hs as <-.
  - destruct (closed (net w)) eqn:Ec; [|done]. destruct Hd as (_ & _ & _ & _ & ?). congruence.
Qed.

(** A call that will not fail. *)
Definition on_course (s : name) (p : nat) c : Prop :=
  match c_phase c with
  | Calling | Received => True
  | Chosen i | Waiting i | Checking i (Some _) => i_reliable i = true ∧ i_servername i = s ∧ i_server i = p
  | Replying r => ok r = true
  | Returned (Some _) => True
  | Checking _ None | Returned None => False
  end.

Lemma moves_on_course n s p alive H c c' :
  direct (endname (c_req c)) s p n → call_ok alive H c → on_course s p c → moves n c (c_phase c') → on_course s p c'.
Proof.
  intros (D1 & D2 & D3 & D4 & D5) Hok Hc Hm. unfold on_course in *.
  inversion Hm as [E|E E'|E Ec E'|Ep E|i Ep Er E|i Ep E|i r Ep E|i Ep Ed E|i r drop Ep E|rep r Ep Eok E|rep Ep Eok E];
    try rewrite Ep in Hc; try done.
  - congruence.
  - destruct (process_info_cases c n) as [[_ [Hx|Hx]]|(i & -> & _ & Ei & Es & Er)]; [congruence|rewrite D3 in Hx; simpl in Hx; congruence|].
    split_and!; congruence.
  - destruct Hc. congruence.
  - destruct Hc as (_ & Es & Ei). subst. by rewrite (proj2 (dead_false _ _ _ _)) in Ed.
  - pose proof (co_phase _ _ _ Hok) as P. unfold phase_ok in P. rewrite Ep in P. destruct r as [rep|]; [|done].
    destruct P as [_ (h & _ & -> & _)]. destruct Hc as (Er & Es & Ei). subst. unfold process_check.
    by rewrite (proj2 (dead_false _ _ _ _)), Er.
  - congruence.
Qed.

(** A reliable network loses no call: while the network is reliable and an end
    is enabled and connected to a registered server, a call made there never returns
    false, in whatever order the goroutines run. *)
Theorem reliable_call_succeeds w0 evs w e s p t c :
  net_reachable w0 → direct e s p (net w0) → calls w0 !! t = None → Forall (λ ev, goroutine ev = true) evs →
  net_run evs w0 = Next w → calls w !! t = Some c → endname (c_req c) = e →
  c_phase c ≠ Returned None.
Proof.
  intros Hinv%net_reachable_inv Hd Hnew Hg Hrun Ht He.
  assert (H0 : ∀ c, calls w0 !! t = Some c → endname (c_req c) = e → on_course s p c) by (by rewrite Hnew).
  assert (Hc : on_course s p c); [|intros E; unfold on_course in Hc; by rewrite E in Hc].
  clear Hnew. revert w0 Hinv Hd H0 Hrun. induction Hg as [|ev evs Hev Hg IH]; intros w0 Hinv Hd H0; cbn [net_run].
  { intros [= ->]. by apply H0. }
  destruct (net_step ev w0) as [w1| |] eqn:Es; cbn [outcome_bind]; try done.
  apply IH; [by eapply net_step_inv|by eapply goroutine_direct|]. intros c1 Hc1 He1. clear IH.
  destruct (net_step_post _ _ _ Es) as [(u & x & x' & [P1 P2 [P3 _] P4 _ _ _ _ _])|[(u & e' & m & args & _ & Ex & _)|[Ex _]]].
  - rewrite P2, lookup_insert_Some in Hc1. destruct Hc1 as [[<- <-]|[_ Hc1]]; [|by apply H0]. rewrite P3 in He1.
    eapply (moves_on_course (net w0)); [by rewrite He1|by apply Hinv|by apply H0|done].
  - rewrite Ex, lookup_insert_Some in Hc1. destruct Hc1 as [[<- <-]|[_ Hc1]]; [done|by apply H0].
  - rewrite Ex in Hc1. by apply H0.
Qed.

(** ** Calls return *)















End labrpc.
