(* ===== verification/Group.v ===== *)
(** * tester1: groups of servers on the network

    group.go and srv.go of src/src/tester1 start, stop, connect and partition the
    servers of a test by enabling and disabling the end-points of labrpc.  A server
    holds one end-point per server of its group; [end_of sg i j] is the end by
    which server [i] calls server [j].  [grp_ok] says that the ends of a group are
    distinct and lead where they should; every operation keeps it.  The names of
    new ends are drawn at random (Randstring); they are arguments here, and a name
    that exists already stops the test in [MakeEnd].  What a test makes of a
    server (the callback [mks]) is the pointer it registers. *)

From S2P Require Import Prelude RaftUtil RaftNode Labrpc.
Local Open Scope Z_scope.
Local Open Scope go_scope.

Abbreviation Net := (Network (name := string)).

(** ** srv.go *)

Record Srv := mkSrv {
  saved : option Persister;
  endNames : list string
}.

Record ServerGrp := mkServerGrp {
  net : Net;
  srvs : list Srv;
  gid : Z;
  connected : list bool
}.

Definition ServerName (gid i : Z) : string := "server-" +:+ Itoa gid +:+ "-" +:+ Itoa i.

(** A fresh set of ClientEnds, connected to the servers in order; [rand] are the
    names Randstring draws. *)
Definition makeServer (nsrv : Z) (rand : Z → string) (gid : Z) (rn : Net) : option (Net * Srv) :=
  rn ← for_each (λ j rn,
      '(rn, _) ← MakeEnd (rand j) rn;
      Some (Connect (rand j) (ServerName gid j) rn)) (seqZ 0 nsrv) rn;
  Some (rn, mkSrv None (rand <$> seqZ 0 nsrv)).

(** Copy of a persister is a new object with the same content. *)
Definition startServer (rand : Z → string) (gid : Z) (s : Srv) (rn : Net) : option (Net * Srv) :=
  '(rn, srv) ← makeServer (go_len (endNames s)) rand gid rn;
  Some (rn, mkSrv (Some (match saved s with Some p => p | None => MakePersister end)) (endNames srv)).

Definition set_net rn sg := mkServerGrp rn (srvs sg) (gid sg) (connected sg).
Definition set_connected v sg := mkServerGrp (net sg) (srvs sg) (gid sg) v.
Definition set_srv (i : Z) s sg := mkServerGrp (net sg) (<[Z.to_nat i := s]> (srvs sg)) (gid sg) (connected sg).

Definition IsConnected (i : Z) (sg : ServerGrp) : option bool := (connected sg).[i].

(** The end by which [i] calls [j]. *)
Definition end_of (sg : ServerGrp) (i j : Z) : option string := s ← (srvs sg).[i]; (endNames s).[j].

Definition enable (i j : Z) (b : bool) (sg : ServerGrp) : option ServerGrp :=
  e ← end_of sg i j; Some (set_net (Enable e b (net sg)) sg).

(** [s.connect(sg, to)] of server [i]. *)
Definition srv_connect (i : Z) (to : list Z) (sg : ServerGrp) : option ServerGrp :=
  for_each (λ j sg, c ← IsConnected j sg; if (c : bool) then enable i j true sg else Some sg) to sg.

Definition srv_disconnect (i : Z) (from : list Z) (sg : ServerGrp) : option ServerGrp :=
  for_each (λ j sg, enable i j false sg) from sg.

(** ** group.go *)

Definition all (sg : ServerGrp) : list Z := seqZ 0 (go_len (srvs sg)).

Definition makeSrvGrp (rn : Net) (gid n : Z) (rand : Z → Z → string) : option ServerGrp :=
  '(rn, ss) ← for_each (λ i '(rn, ss),
      '(rn, s) ← makeServer n (rand i) gid rn; Some (rn, ss ++ [s])) (seqZ 0 n) (rn, []);
  Some (mkServerGrp rn ss gid (replicate (Z.to_nat n) false)).

Definition connect (i : Z) (to : list Z) (sg : ServerGrp) : option ServerGrp :=
  con ← go_store (connected sg) i true;
  sg ← srv_connect i to (set_connected con sg);
  for_each (λ j sg, c ← IsConnected j sg; if (c : bool) then enable j i true sg else Some sg) to sg.

Definition disconnect (i : Z) (from : list Z) (sg : ServerGrp) : option ServerGrp :=
  con ← go_store (connected sg) i false;
  sg ← srv_disconnect i from (set_connected con sg);
  for_each (λ j sg, enable j i false sg) from sg.

Definition ConnectOne (i : Z) (sg : ServerGrp) : option ServerGrp := connect i (all sg) sg.
Definition ConnectAll (sg : ServerGrp) : option ServerGrp := for_each ConnectOne (all sg) sg.
Definition DisconnectAll (i : Z) (sg : ServerGrp) : option ServerGrp := disconnect i (all sg) sg.

(** [labsrv] is the pointer of the new labrpc server with the services of [mks]. *)
Definition StartServer (i : Z) (rand : Z → string) (labsrv : nat) (sg : ServerGrp) : option ServerGrp :=
  s ← (srvs sg).[i];
  '(rn, srv) ← startServer rand (gid sg) s (net sg);
  let sg := set_srv i srv (set_net rn sg) in
  Some (set_net (AddServer (ServerName (gid sg) i) labsrv (net sg)) sg).

(** The services that are told to stop are not part of the group. *)
Definition ShutdownServer (i : Z) (sg : ServerGrp) : option ServerGrp :=
  sg ← disconnect i (all sg) sg;
  let sg := set_net (DeleteServer (ServerName (gid sg) i) (net sg)) sg in
  s ← (srvs sg).[i];
  Some (set_srv i (mkSrv (saved s) (endNames s)) sg).

Definition MakePartition_body (l i : Z) (st : list Z * list Z * Z) : option (list Z * list Z * Z) :=
  let '(p1, p2, j) := st in
  if i =? l then Some (p1, p2, j)
  else if j <? go_len p1 then p1 ← go_store p1 j i; Some (p1, p2, j + 1)
  else p2 ← go_store p2 (j - go_len p1) i; Some (p1, p2, j + 1).

Definition MakePartition (l : Z) (sg : ServerGrp) : option (list Z * list Z) :=
  let n := go_len (srvs sg) in
  '(p1, p2, _) ← for_each (MakePartition_body l) (seqZ 0 n)
     (replicate (Z.to_nat (n / 2 + 1)) 0, replicate (Z.to_nat (n / 2)) 0, 0);
  p2 ← go_store p2 (go_len p2 - 1) l;
  Some (p1, p2).

(** One of the two loops of [Partition]. *)
Definition cut_off (p q : list Z) (sg : ServerGrp) : option ServerGrp :=
  for_each (λ x sg, sg ← disconnect x q sg; connect x p sg) p sg.

Definition Partition (p1 p2 : list Z) (sg : ServerGrp) : option ServerGrp :=
  sg ← cut_off p1 p2 sg; cut_off p2 p1 sg.

Definition LogSize (sg : ServerGrp) : option Z :=
  for_each (λ s logsize, p ← saved s; Some (if logsize <? RaftStateSize p then RaftStateSize p else logsize)) (srvs sg) 0.

Definition Grp_SnapshotSize (sg : ServerGrp) : option Z :=
  for_each (λ s size, p ← saved s; Some (if size <? SnapshotSize p then SnapshotSize p else size)) (srvs sg) 0.

Definition N (sg : ServerGrp) : Z := go_len (srvs sg).
Definition SrvNames (sg : ServerGrp) : list string := ServerName (gid sg) <$> all sg.
Definition SrvName (i : Z) (sg : ServerGrp) : option string := (SrvNames sg).[i].
Definition SrvNamesTo (to : list Z) (sg : ServerGrp) : option (list string) :=
  for_each (λ i ns, n ← (SrvNames sg).[i]; Some (ns ++ [n])) to [].

Definition start (rand : Z → Z → string) (labsrv : Z → nat) (sg : ServerGrp) : option ServerGrp :=
  for_each (λ i sg, StartServer i (rand i) (labsrv i) sg) (all sg) sg.
Definition StartServers (rand : Z → Z → string) (labsrv : Z → nat) (sg : ServerGrp) : option ServerGrp :=
  sg ← start rand labsrv sg; ConnectAll sg.
Definition Shutdown (sg : ServerGrp) : option ServerGrp := for_each ShutdownServer (all sg) sg.

(** One round of the Partitioner of the key/value tests; [rand i] is what rand.Int()
    gives for server [i]. *)
Definition Partitioner_side (rand : Z → Z) (side : Z) (sg : ServerGrp) : list Z :=
  filter (λ j, rand j mod 2 = side) (seqZ 0 (N sg)).
Definition Partitioner (rand : Z → Z) (sg : ServerGrp) : option ServerGrp :=
  Partition (Partitioner_side rand 0 sg) (Partitioner_side rand 1 sg) sg.

(** ** The ends of a group *)

Implicit Types (sg : ServerGrp) (rn : Net).

Record grp_ok (n : Z) sg : Prop := {
  gk_srvs : go_len (srvs sg) = n;
  gk_connected : go_len (connected sg) = n;
  gk_names i s : (srvs sg).[i] = Some s → go_len (endNames s) = n;
  gk_end i j e : end_of sg i j = Some e →
    is_Some (ends (net sg) !! e) ∧ connections (net sg) !! e = Some (Some (ServerName (gid sg) j));
  gk_inj i j i' j' e : end_of sg i j = Some e → end_of sg i' j' = Some e → i = i' ∧ j = j'
}.

(** Whether the end by which [i] calls [j] is enabled. *)
Definition linked sg (i j : Z) : bool :=
  match end_of sg i j with Some e => is_enabled e (net sg) | None => false end.

Definition is_conn sg (i : Z) : Prop := (connected sg).[i] = Some true.

#[export] Instance is_conn_dec sg i : Decision (is_conn sg i).
Proof. unfold is_conn. apply _. Defined.

(** What the operations on the ends leave alone. *)
Definition same_servers sg sg' : Prop := srvs sg' = srvs sg ∧ gid sg' = gid sg.

Definition in_group (n : Z) (l : list Z) : Prop := ∀ j, j ∈ l → 0 ≤ j < n.

Lemma end_exists n sg i j : grp_ok n sg → 0 ≤ i < n → 0 ≤ j < n → ∃ e, end_of sg i j = Some e.
Proof.
  intros Hok Hi Hj. unfold end_of. destruct (go_index_is_Some (srvs sg) i) as [s Hs]; [by rewrite (gk_srvs _ _ Hok)|].
  rewrite Hs. simpl. apply go_index_is_Some. by rewrite (gk_names _ _ Hok i s Hs).
Qed.

Lemma end_range n sg i j e : grp_ok n sg → end_of sg i j = Some e → 0 ≤ i < n ∧ 0 ≤ j < n.
Proof.
  intros Hok. unfold end_of. destruct ((srvs sg).[i]) as [s|] eqn:Hs; simpl; [|done]. intros He%go_index_Some_range.
  rewrite (gk_names _ _ Hok i s Hs) in He. apply go_index_Some_range in Hs. by rewrite (gk_srvs _ _ Hok) in Hs.
Qed.

(** A change of the network that keeps the ends and where they lead. *)
Lemma grp_net n sg rn :
  grp_ok n sg → ends rn = ends (net sg) → connections rn = connections (net sg) → grp_ok n (set_net rn sg).
Proof. intros [H1 H2 H3 H4 H5] E1 E2. constructor; try done. simpl. rewrite E1, E2. apply H4. Qed.

Lemma enable_ok n sg i j b :
  grp_ok n sg → 0 ≤ i < n → 0 ≤ j < n →
  ∃ sg', enable i j b sg = Some sg' ∧ grp_ok n sg' ∧ same_servers sg sg' ∧ connected sg' = connected sg ∧
    ∀ a c, linked sg' a c = if decide (a = i ∧ c = j) then b else linked sg a c.
Proof.
  intros Hok Hi Hj. destruct (end_exists n sg i j Hok Hi Hj) as [e He]. unfold enable. rewrite He. simpl. eexists. split; [done|].
  split_and!; try done; [by apply grp_net|]. intros a c. unfold linked. change (end_of (set_net _ sg) a c) with (end_of sg a c).
  destruct (end_of sg a c) as [e'|] eqn:Ee.
  - unfold is_enabled. simpl. destruct (decide (e = e')) as [<-|Hne].
    + rewrite lookup_insert_eq. destruct (gk_inj _ _ Hok a c i j e Ee He) as [-> ->]. by rewrite decide_True.
    + rewrite lookup_insert_ne by done. rewrite decide_False; [done|]. intros [-> ->]. congruence.
  - rewrite decide_False; [done|]. intros [-> ->]. congruence.
Qed.

(** A loop that enables or disables the ends [f j] of the [j] in [l] that [sel]
    selects. *)
Lemma wire_ok n sg (f : Z → Z * Z) (sel : Z → Prop) `{!∀ j, Decision (sel j)} (b : bool) (l : list Z)
    (body : Z → ServerGrp → option ServerGrp) :
  grp_ok n sg → in_group n l → (∀ j, 0 ≤ j < n → 0 ≤ (f j).1 < n ∧ 0 ≤ (f j).2 < n) →
  (∀ j sg', 0 ≤ j < n → connected sg' = connected sg →
     body j sg' = if decide (sel j) then enable (f j).1 (f j).2 b sg' else Some sg') →
  ∃ sg', for_each body l sg = Some sg' ∧ grp_ok n sg' ∧ same_servers sg sg' ∧ connected sg' = connected sg ∧
    ∀ a c, linked sg' a c = if decide (Exists (λ j, sel j ∧ f j = (a, c)) l) then b else linked sg a c.
Proof.
  intros Hok Hl Hf Hbody.
  pose (P := λ (l : list Z) (sg' : ServerGrp), grp_ok n sg' ∧ same_servers sg sg' ∧ connected sg' = connected sg ∧
    ∀ a c, linked sg' a c = if decide (Exists (λ j, sel j ∧ f j = (a, c)) l) then b else linked sg a c).
  apply (for_each_ind P).
  { split_and!; try done. }
  intros l1 x l2 sg1 El (H1 & H2 & H3 & H4). assert (Hx : 0 ≤ x < n) by (apply Hl; rewrite El; apply elem_of_app; right; by left).
  assert (Hsnoc : ∀ Q : Z → Prop, Exists Q (l1 ++ [x]) ↔ Exists Q l1 ∨ Q x) by (intros Q; rewrite Exists_app, Exists_cons, Exists_nil; tauto).
  rewrite Hbody by done. destruct (decide (sel x)) as [Hs|Hs].
  - destruct (enable_ok n sg1 (f x).1 (f x).2 b H1) as (sg2 & E & G1 & G2 & G3 & G4); [by apply Hf..|].
    exists sg2. destruct H2, G2. rewrite E. unfold P, same_servers. split_and!; try done; [congruence..|].
    intros a c. rewrite G4, H4. destruct (f x) as [fi fj] eqn:Ef. simpl. destruct (decide (a = fi ∧ c = fj)) as [[-> ->]|Hne].
    + rewrite decide_True; [done|]. apply Hsnoc. by right.
    + apply decide_ext. rewrite Hsnoc. split; [by left|]. intros [|[_ E']]; [done|]. destruct Hne. split; congruence.
  - exists sg1. unfold P. split_and!; try done; [apply H2..|]. intros a c. rewrite H4. apply decide_ext. rewrite Hsnoc. split; [by left|]. by intros [|[]].
Qed.

(** ** Connecting and disconnecting *)

Lemma set_connected_ok n sg i b :
  grp_ok n sg → 0 ≤ i < n → ∃ con, go_store (connected sg) i b = Some con ∧ grp_ok n (set_connected con sg) ∧
    con = <[Z.to_nat i := b]> (connected sg).
Proof.
  intros Hok Hi. eexists. split; [apply go_store_Some; by rewrite (gk_connected _ _ Hok)|]. split; [|done].
  destruct Hok. constructor; try done. simpl. unfold go_len in *. by rewrite length_insert.
Qed.

(** [a] and [c] are [i] and a server of [l], in one of the two orders. *)
Definition between (i : Z) (l : list Z) (a c : Z) : Prop := (a = i ∧ c ∈ l) ∨ (c = i ∧ a ∈ l).

Lemma connect_ok n sg i to :
  grp_ok n sg → 0 ≤ i < n → in_group n to →
  ∃ sg', connect i to sg = Some sg' ∧ grp_ok n sg' ∧ same_servers sg sg' ∧
    connected sg' = <[Z.to_nat i := true]> (connected sg) ∧
    ∀ a c, (between i to a c ∧ is_conn sg' a ∧ is_conn sg' c → linked sg' a c = true) ∧
      (¬ (between i to a c ∧ is_conn sg' a ∧ is_conn sg' c) → linked sg' a c = linked sg a c).
Proof.
  intros Hok Hi Hto. destruct (set_connected_ok n sg i true Hok Hi) as (con & Ec & Hok0 & Econ). unfold connect. rewrite Ec. simpl.
  set (sg0 := set_connected con sg) in *. assert (Hic : is_conn sg0 i).
  { unfold is_conn. simpl. rewrite Econ. destruct (go_index_is_Some (connected sg) i) as [b Hb]; [by rewrite (gk_connected _ _ Hok)|].
    by rewrite (go_index_insert _ _ _ b), decide_True. }
  assert (Hread : ∀ j sg', 0 ≤ j < n → connected sg' = connected sg0 → ∀ f : ServerGrp → option ServerGrp,
    (c ← IsConnected j sg'; if (c : bool) then f sg' else Some sg') = if decide (is_conn sg0 j) then f sg' else Some sg').
  { intros j sg' Hj E f. unfold IsConnected. rewrite E.
    destruct (go_index_is_Some (connected sg0) j) as [b Hb]; [by rewrite (gk_connected _ _ Hok0)|]. rewrite Hb. simpl.
    destruct b; [by rewrite decide_True by exact Hb|]. rewrite decide_False; [done|]. unfold is_conn. congruence. }
  destruct (wire_ok n sg0 (λ j, (i, j)) (is_conn sg0) true to (λ j sg, c ← IsConnected j sg; if (c : bool) then enable i j true sg else Some sg))
    as (sg1 & E1 & K1 & [S1 S1'] & C1 & L1); [done|done|done|intros j sg' Hj E; exact (Hread j sg' Hj E (enable i j true))|].
  unfold srv_connect. rewrite E1. simpl.
  destruct (wire_ok n sg1 (λ j, (j, i)) (is_conn sg0) true to (λ j sg, c ← IsConnected j sg; if (c : bool) then enable j i true sg else Some sg))
    as (sg2 & E2 & K2 & [S2 S2'] & C2 & L2); [done|done|done|intros j sg' Hj E; exact (Hread j sg' Hj (eq_trans E C1) (enable j i true))|].
  exists sg2. split; [done|]. split; [done|]. split; [split; [by rewrite S2, S1|by rewrite S2', S1']|]. assert (Ec2 : connected sg2 = con) by (rewrite C2, C1; done).
  split; [by rewrite Ec2|]. assert (Hc2 : ∀ j, is_conn sg2 j ↔ is_conn sg0 j) by (intros j; unfold is_conn; by rewrite Ec2).
  assert (L0 : ∀ a c, linked sg0 a c = linked sg a c) by done.
  intros a c. rewrite L2, L1, L0. split.
  - intros ([[-> Hc]|[-> Ha]] & Hca%Hc2 & Hcc%Hc2).
    + case_decide; [done|]. rewrite decide_True; [done|]. apply Exists_exists. exists c. done.
    + rewrite decide_True; [done|]. apply Exists_exists. exists a. done.
  - intros Hno. rewrite !decide_False; [done|..]; intros (j & Hj & Hs & [= <- <-])%Exists_exists; apply Hno; rewrite !Hc2.
    + split; [by left|done].
    + split; [by right|done].
Qed.

Lemma disconnect_ok n sg i from :
  grp_ok n sg → 0 ≤ i < n → in_group n from →
  ∃ sg', disconnect i from sg = Some sg' ∧ grp_ok n sg' ∧ same_servers sg sg' ∧
    connected sg' = <[Z.to_nat i := false]> (connected sg) ∧
    ∀ a c, (between i from a c → linked sg' a c = false) ∧ (¬ between i from a c → linked sg' a c = linked sg a c).
Proof.
  intros Hok Hi Hto. destruct (set_connected_ok n sg i false Hok Hi) as (con & Ec & Hok0 & Econ). unfold disconnect. rewrite Ec. simpl.
  set (sg0 := set_connected con sg) in *.
  destruct (wire_ok n sg0 (λ j, (i, j)) (λ _, True) false from (λ j sg, enable i j false sg))
    as (sg1 & E1 & K1 & [S1 S1'] & C1 & L1); [done..|].
  unfold srv_disconnect. rewrite E1. simpl.
  destruct (wire_ok n sg1 (λ j, (j, i)) (λ _, True) false from (λ j sg, enable j i false sg))
    as (sg2 & E2 & K2 & [S2 S2'] & C2 & L2); [done..|].
  exists sg2. split; [done|]. split; [done|]. split; [split; [by rewrite S2, S1|by rewrite S2', S1']|]. split; [by rewrite C2, C1, <- Econ|].
  assert (L0 : ∀ a c, linked sg0 a c = linked sg a c) by done. intros a c. rewrite L2, L1, L0. split.
  - intros [[-> Hc]|[-> Ha]].
    + case_decide; [done|]. rewrite decide_True; [done|]. apply Exists_exists. exists c. done.
    + rewrite decide_True; [done|]. apply Exists_exists. exists a. done.
  - intros Hno. rewrite !decide_False; [done|..]; intros (j & Hj & Hs & [= <- <-])%Exists_exists; apply Hno; [by left|by right].
Qed.

(** ** Partitions *)

(** What one loop of [Partition] does for the servers [l] of the side [p] that it
    has gone through. *)
Record side_ok (n : Z) sg (p q l : list Z) sg' : Prop := {
  sd_grp : grp_ok n sg';
  sd_same : same_servers sg sg';
  sd_conn a : a ∈ l → is_conn sg' a;
  sd_other a : a ∉ l → (connected sg').[a] = (connected sg).[a];
  sd_inside a c : a ∈ l → c ∈ l → linked sg' a c = true;
  sd_across a c : (a ∈ l ∧ c ∈ q) ∨ (a ∈ q ∧ c ∈ l) → linked sg' a c = false;
  sd_outside a c : a ∉ p → c ∉ p → linked sg' a c = linked sg a c
}.

Lemma conn_insert n sg x b sg' a :
  grp_ok n sg → 0 ≤ x < n → connected sg' = <[Z.to_nat x := b]> (connected sg) →
  (connected sg').[a] = if decide (x = a) then Some b else (connected sg).[a].
Proof.
  intros Hok Hx E. rewrite E. destruct (go_index_is_Some (connected sg) x) as [y Hy]; [by rewrite (gk_connected _ _ Hok)|].
  by rewrite (go_index_insert _ _ _ y).
Qed.

Lemma side_step n sg p q l x sg1 :
  in_group n p → in_group n q → (∀ y, y ∈ p → y ∉ q) → x ∈ p → x ∉ l → (∀ y, y ∈ l → y ∈ p) → side_ok n sg p q l sg1 →
  ∃ sg', (sg ← disconnect x q sg1; connect x p sg) = Some sg' ∧ side_ok n sg p q (l ++ [x]) sg'.
Proof.
  intros Hp Hq Hd Hx Hxl Hlp [H1 [H2 H2'] H3 H4 H5 H6 H7]. assert (Hxr : 0 ≤ x < n) by (by apply Hp).
  destruct (disconnect_ok n sg1 x q H1 Hxr Hq) as (sg2 & -> & K2 & [S2 S2'] & C2 & L2). simpl.
  destruct (connect_ok n sg2 x p K2 Hxr Hp) as (sg3 & -> & K3 & [S3 S3'] & C3 & L3). exists sg3. split; [done|].
  assert (Hin : ∀ a, a ∈ l ++ [x] ↔ a ∈ l ∨ a = x) by (intros a; rewrite elem_of_app, list_elem_of_singleton; done).
  assert (Hc : ∀ a, (connected sg3).[a] = if decide (x = a) then Some true else (connected sg1).[a]).
  { intros a. rewrite (conn_insert n sg2 x true sg3 a), (conn_insert n sg1 x false sg2 a) by done. by case_decide. }
  assert (Hcx : ∀ a, a ∈ l ++ [x] → is_conn sg3 a).
  { intros a Ha. unfold is_conn. rewrite Hc. case_decide; [done|]. apply Hin in Ha as [Ha|Ha]; [by apply H3|congruence]. }
  assert (Hold : ∀ a c, a ≠ x → c ≠ x → linked sg3 a c = linked sg1 a c).
  { intros a c Ha Hc'. rewrite (proj2 (L3 a c)) by (by intros [[[]|[]] _]). apply L2. by intros [[]|[]]. }
  assert (Hcross : ∀ a c, (a = x ∧ c ∈ q) ∨ (c = x ∧ a ∈ q) → linked sg3 a c = false).
  { intros a c Hb. rewrite (proj2 (L3 a c)); [by apply L2|]. intros [Hb' _].
    destruct Hb as [[-> Hcq]|[-> Haq]], Hb' as [[E Hm]|[E Hm]]; subst; (by apply (Hd _ Hm)) || (by apply (Hd _ Hx)). }
  constructor; try done.
  - split; congruence.
  - intros a Ha. rewrite Hc. rewrite decide_False; [apply H4|]; intros ?; apply Ha, Hin; auto.
  - intros a c Ha Hc'. pose proof (Hcx a Ha) as Ka. pose proof (Hcx c Hc') as Kc. apply Hin in Ha, Hc'.
    destruct (decide (a = x)) as [->|Hna].
    { apply L3. split; [|done]. left. split; [done|]. destruct Hc' as [| ->]; auto. }
    destruct (decide (c = x)) as [->|Hnc].
    { apply L3. split; [|done]. right. split; [done|]. destruct Ha as [|]; auto. by subst. }
    rewrite Hold by done. apply H5; [by destruct Ha|by destruct Hc'].
  - intros a c Hac. assert (Hqx : ∀ y, y ∈ q → y ≠ x) by (intros y Hy ->; by apply (Hd x)).
    destruct Hac as [[[Ha| ->]%Hin Hcq]|[Haq [Hcl| ->]%Hin]]; [|apply Hcross; by left| |apply Hcross; by right].
    + rewrite Hold; [apply H6; by left|by intros ->|by apply Hqx].
    + rewrite Hold; [apply H6; by right|by apply Hqx|by intros ->].
  - intros a c Ha Hc'. rewrite Hold by (by intros ->). by apply H7.
Qed.

Lemma cut_off_ok n sg p q :
  grp_ok n sg → in_group n p → in_group n q → NoDup p → (∀ x, x ∈ p → x ∉ q) →
  ∃ sg', cut_off p q sg = Some sg' ∧ side_ok n sg p q p sg'.
Proof.
  intros Hok Hp Hq Hnd Hd. apply (for_each_ind (side_ok n sg p q)).
  - constructor; try done; intros; (by match goal with H : _ ∈ [] |- _ => apply elem_of_nil in H end) || idtac.
    destruct H as [[H _]|[_ H]]; by apply elem_of_nil in H.
  - intros l1 x l2 sg1 El Hs. apply side_step; try done.
    + rewrite El. apply elem_of_app. right. by left.
    + rewrite El in Hnd. apply NoDup_app in Hnd as (_ & H & _). intros Hx. apply (H x Hx). by left.
    + intros y Hy. rewrite El. apply elem_of_app. by left.
Qed.

(** After [Partition] servers reach each other exactly within a side. *)
Lemma Partition_ok n sg p1 p2 :
  grp_ok n sg → NoDup (p1 ++ p2) → in_group n (p1 ++ p2) →
  ∃ sg', Partition p1 p2 sg = Some sg' ∧ grp_ok n sg' ∧ same_servers sg sg' ∧
    (∀ a, a ∈ p1 ++ p2 → is_conn sg' a) ∧
    (∀ a c, a ∈ p1 ++ p2 → c ∈ p1 ++ p2 → linked sg' a c = true ↔ (a ∈ p1 ↔ c ∈ p1)).
Proof.
  intros Hok (Hn1 & Hd & Hn2)%NoDup_app Hr. unfold Partition.
  assert (Hr1 : in_group n p1) by (intros j Hj; apply Hr, elem_of_app; by left).
  assert (Hr2 : in_group n p2) by (intros j Hj; apply Hr, elem_of_app; by right).
  destruct (cut_off_ok n sg p1 p2) as (sg1 & -> & D1); try done. simpl.
  destruct (cut_off_ok n sg1 p2 p1) as (sg2 & -> & D2); try done; [apply D1|intros x H2 H1; by apply (Hd x)|].
  exists sg2. destruct (sd_same _ _ _ _ _ _ D1) as [S1 S1'], (sd_same _ _ _ _ _ _ D2) as [S2 S2'].
  split; [done|]. split; [apply D2|]. split; [split; congruence|].
  assert (H12 : ∀ a, a ∈ p1 → a ∉ p2) by (intros a; apply Hd). split.
  - intros a [Ha|Ha]%elem_of_app; [|by apply D2]. unfold is_conn. rewrite (sd_other _ _ _ _ _ _ D2) by auto. by apply D1.
  - intros a c [Ha|Ha]%elem_of_app [Hc|Hc]%elem_of_app.
    + rewrite (sd_outside _ _ _ _ _ _ D2), (sd_inside _ _ _ _ _ _ D1) by auto. by split.
    + rewrite (sd_across _ _ _ _ _ _ D2) by (by right). split; [done|]. intros [H _]. by destruct (H12 c (H Ha)).
    + rewrite (sd_across _ _ _ _ _ _ D2) by (by left). split; [done|]. intros [_ H]. by destruct (H12 a (H Hc)).
    + rewrite (sd_inside _ _ _ _ _ _ D2) by auto. split; [|done]. intros _. split; intros H; exfalso; by eapply H12.
Qed.

(** The loop of [MakePartition] stores the servers but the leader, in order, into
    the two slices one after the other. *)
Lemma MakePartition_loop l xs p1 p2 j :
  0 ≤ j → j + go_len (filter (λ i, i ≠ l) xs) ≤ go_len p1 + go_len p2 →
  ∃ p1' p2', for_each (MakePartition_body l) xs (p1, p2, j) = Some (p1', p2', j + go_len (filter (λ i, i ≠ l) xs)) ∧
    go_len p1' = go_len p1 ∧ go_len p2' = go_len p2 ∧
    p1' ++ p2' = take (Z.to_nat j) (p1 ++ p2) ++ filter (λ i, i ≠ l) xs ++
      drop (Z.to_nat (j + go_len (filter (λ i, i ≠ l) xs))) (p1 ++ p2).
Proof.
  revert p1 p2 j. induction xs as [|x xs IH]; intros p1 p2 j Hj Hlen.
  { exists p1, p2. rewrite filter_nil. change (go_len (@nil Z)) with 0. rewrite Z.add_0_r. simpl. by rewrite take_drop. }
  simpl. rewrite filter_cons in *. unfold MakePartition_body at 1. destruct (Z.eqb_spec x l) as [->|Hne].
  { rewrite decide_False in * by auto. simpl. by apply IH. }
  rewrite decide_True in * by done. set (ys := filter _ xs) in *. assert (Eg : go_len (x :: ys) = 1 + go_len ys) by (unfold go_len; simpl; lia).
  rewrite Eg in *. pose proof (go_len_nonneg ys).
  assert (Hstep : ∀ q1 q2, go_len q1 = go_len p1 → go_len q2 = go_len p2 → q1 ++ q2 = <[Z.to_nat j := x]> (p1 ++ p2) →
    ∃ p1' p2', for_each (MakePartition_body l) xs (q1, q2, j + 1) = Some (p1', p2', j + (1 + go_len ys)) ∧
      go_len p1' = go_len p1 ∧ go_len p2' = go_len p2 ∧
      p1' ++ p2' = take (Z.to_nat j) (p1 ++ p2) ++ (x :: ys) ++ drop (Z.to_nat (j + (1 + go_len ys))) (p1 ++ p2)).
  { intros q1 q2 E1 E2 Eq. destruct (IH q1 q2 (j + 1)) as (p1' & p2' & Ef & L1 & L2 & Ep); [lia|lia|].
    replace (j + 1 + go_len ys) with (j + (1 + go_len ys)) in * by lia. exists p1', p2'. split_and!; [done|lia|lia|].
    rewrite Ep, Eq. replace (Z.to_nat (j + 1)) with (S (Z.to_nat j)) by lia.
    rewrite (take_S_r _ _ x) by (apply list_lookup_insert_eq; rewrite length_app; unfold go_len in *; lia).
    rewrite take_insert_ge, drop_insert_lt by lia. by rewrite <- !app_assoc. }
  destruct (Z.ltb_spec j (go_len p1)).
  - rewrite go_store_Some by lia. simpl. apply Hstep; [unfold go_len; by rewrite length_insert|done|].
    rewrite insert_app_l; [done|]. unfold go_len in *. lia.
  - rewrite go_store_Some by lia. simpl. apply Hstep; [done|unfold go_len; by rewrite length_insert|].
    replace (Z.to_nat j) with (length p1 + Z.to_nat (j - go_len p1))%nat by (unfold go_len in *; lia). by rewrite insert_app_r.
Qed.

Lemma filter_but_one l n : 0 ≤ l < n → l :: filter (λ i, i ≠ l) (seqZ 0 n) ≡ₚ seqZ 0 n.
Proof.
  intros Hl. apply NoDup_Permutation.
  - apply NoDup_cons. split; [|apply NoDup_filter, NoDup_seqZ]. by intros [? _]%list_elem_of_filter.
  - apply NoDup_seqZ.
  - intros x. rewrite elem_of_cons, list_elem_of_filter, elem_of_seqZ. destruct (decide (x = l)); intuition lia.
Qed.

(** What [MakePartition] returns: the servers but the leader in order, then what is
    left of the zeros the slices were made of, then the leader. *)
Lemma MakePartition_spec n sg l :
  grp_ok n sg → 2 ≤ n → 0 ≤ l < n →
  ∃ p1 p2, MakePartition l sg = Some (p1, p2) ∧ go_len p1 = n / 2 + 1 ∧ go_len p2 = n / 2 ∧ l ∈ p2 ∧
    p1 ++ p2 = filter (λ i, i ≠ l) (seqZ 0 n) ++ replicate (Z.to_nat (2 * (n / 2) + 1 - n)) 0 ++ [l].
Proof.
  intros Hok Hn Hl. unfold MakePartition. rewrite (gk_srvs _ _ Hok). set (ys := filter (λ i, i ≠ l) (seqZ 0 n)).
  assert (Hhalf : 1 ≤ n / 2 ∧ n ≤ 2 * (n / 2) + 1) by (Z.to_euclidean_division_equations; lia).
  assert (Hrep : ∀ k : Z, 0 ≤ k → go_len (replicate (Z.to_nat k) 0) = k) by (intros k Hk; unfold go_len; rewrite length_replicate; lia).
  assert (Hys : go_len ys = n - 1).
  { pose proof (Permutation_length (filter_but_one l n Hl)) as E. rewrite length_seqZ in E. simpl in E. unfold go_len. fold ys in E. lia. }
  destruct (MakePartition_loop l (seqZ 0 n) (replicate (Z.to_nat (n / 2 + 1)) 0) (replicate (Z.to_nat (n / 2)) 0) 0)
    as (p1 & p2 & -> & L1 & L2 & Ep); [done|fold ys; rewrite !Hrep by lia; lia|]. fold ys in Ep. rewrite !Hrep in * by lia.
  simpl. rewrite go_store_Some by lia. simpl.
  assert (Hp2 : <[Z.to_nat (go_len p2 - 1) := l]> p2 = take (Z.to_nat (go_len p2 - 1)) p2 ++ [l]).
  { rewrite insert_take_drop by (unfold go_len in *; lia). rewrite drop_ge by (unfold go_len in *; lia). done. }
  exists p1, (<[Z.to_nat (go_len p2 - 1) := l]> p2). split_and!; [done|done|unfold go_len in *; by rewrite length_insert| |].
  { rewrite Hp2. apply elem_of_app. right. by left. }
  rewrite Z.add_0_l, take_0, <- replicate_add, drop_replicate, Hys in Ep. simpl in Ep.
  assert (Et : p1 ++ take (Z.to_nat (go_len p2 - 1)) p2 = take (Z.to_nat (2 * (n / 2))) (p1 ++ p2)).
  { rewrite take_app, (take_ge p1) by (unfold go_len in *; lia). do 2 f_equal. unfold go_len in *. lia. }
  rewrite Hp2, app_assoc, Et, Ep, take_app, take_ge by (unfold go_len in *; lia).
  rewrite take_replicate, <- app_assoc. do 3 f_equal. unfold go_len in *. lia.
Qed.

(** With an odd number of servers the sides are a partition of them, the leader
    on the smaller one. *)
Lemma MakePartition_ok n sg l :
  grp_ok n sg → Z.odd n = true → 3 ≤ n → 0 ≤ l < n →
  ∃ p1 p2, MakePartition l sg = Some (p1, p2) ∧ p1 ++ p2 ≡ₚ seqZ 0 n ∧ go_len p1 = n / 2 + 1 ∧ go_len p2 = n / 2 ∧ l ∈ p2.
Proof.
  intros Hok [k Hk]%Z.odd_spec Hn Hl. destruct (MakePartition_spec n sg l) as (p1 & p2 & E & L1 & L2 & Hin & Ep); [done|lia|done|].
  exists p1, p2. split_and!; try done. assert (n / 2 = k) by (Z.to_euclidean_division_equations; lia).
  rewrite Ep. replace (Z.to_nat _) with 0%nat by lia. simpl. etrans; [symmetry; apply Permutation_cons_append|by apply filter_but_one].
Qed.

(** (Even groups overlap).  With an even number of servers, server 0 is in the
    sides twice: they have room for one server more than there are, and the slot
    that is left keeps its zero. *)
Theorem even_partition_overlaps n sg l :
  grp_ok n sg → Z.even n = true → 2 ≤ n → 0 ≤ l < n →
  ∃ p1 p2, MakePartition l sg = Some (p1, p2) ∧ p1 ++ p2 ≡ₚ 0 :: seqZ 0 n.
Proof.
  intros Hok [k Hk]%Z.even_spec Hn Hl. destruct (MakePartition_spec n sg l) as (p1 & p2 & E & _ & _ & _ & Ep); [done..|].
  exists p1, p2. split; [done|]. assert (n / 2 = k) by (Z.to_euclidean_division_equations; lia).
  rewrite Ep. replace (Z.to_nat _) with 1%nat by lia. simpl. etrans; [apply Permutation_app_comm|]. simpl. constructor. by apply filter_but_one.
Qed.

(** ** Every operation keeps the ends in order *)

Lemma enable_keeps n i j b sg sg' : grp_ok n sg → enable i j b sg = Some sg' → grp_ok n sg'.
Proof.
  intros Hok. unfold enable. destruct (end_of sg i j) as [e|] eqn:Ee; simpl; [|done]. intros [= <-]. by apply grp_net.
Qed.

Lemma wire_keeps n (i : Z → Z) (j : Z → Z) l sg sg' :
  grp_ok n sg → for_each (λ x sg, c ← IsConnected x sg; if (c : bool) then enable (i x) (j x) true sg else Some sg) l sg = Some sg' →
  grp_ok n sg'.
Proof.
  intros Hok. apply for_each_keeps; [|done]. intros x s s' Hs. destruct (IsConnected x s) as [[|]|]; simpl; [|by intros [= <-]|done].
  by apply enable_keeps.
Qed.

Lemma store_keeps n sg i b con :
  grp_ok n sg → go_store (connected sg) i b = Some con → grp_ok n (set_connected con sg).
Proof.
  intros Hok [_ ->]%go_store_inv. destruct Hok. constructor; try done. simpl. unfold go_len in *. by rewrite length_insert.
Qed.

Lemma connect_keeps n i to sg sg' : grp_ok n sg → connect i to sg = Some sg' → grp_ok n sg'.
Proof.
  intros Hok. unfold connect. destruct (go_store (connected sg) i true) as [con|] eqn:E; simpl; [|done].
  destruct (srv_connect i to _) as [sg1|] eqn:E1; simpl; [|done]. apply wire_keeps.
  eapply (wire_keeps n (λ _, i) (λ j, j)); [|exact E1]. by eapply store_keeps.
Qed.

Lemma disconnect_keeps n i from sg sg' : grp_ok n sg → disconnect i from sg = Some sg' → grp_ok n sg'.
Proof.
  intros Hok. unfold disconnect. destruct (go_store (connected sg) i false) as [con|] eqn:E; simpl; [|done].
  destruct (srv_disconnect i from _) as [sg1|] eqn:E1; simpl; [|done].
  apply for_each_keeps; [intros x s s'; apply enable_keeps|].
  eapply for_each_keeps; [|by eapply store_keeps|exact E1]. intros x s s'. apply enable_keeps.
Qed.

(** Making ends: the new ones are new and lead to the servers in order, the others
    are as they were. *)
Lemma makeServer_spec nsrv rand gid rn rn' s :
  makeServer nsrv rand gid rn = Some (rn', s) →
  endNames s = rand <$> seqZ 0 nsrv ∧
  (∀ j, 0 ≤ j < nsrv → ends rn !! rand j = None ∧ is_Some (ends rn' !! rand j) ∧
     connections rn' !! rand j = Some (Some (ServerName gid j))) ∧
  (∀ j j', 0 ≤ j < nsrv → 0 ≤ j' < nsrv → rand j = rand j' → j = j') ∧
  (∀ e, is_Some (ends rn !! e) → is_Some (ends rn' !! e) ∧ connections rn' !! e = connections rn !! e).
Proof.
  unfold makeServer. set (body := λ (j : Z) (rn : Net), _).
  destruct (for_each body (seqZ 0 nsrv) rn) as [rn1|] eqn:E; simpl; [|done]. intros [= <- <-]. split; [done|].
  assert (H : ∀ l rn rn1, NoDup l → for_each body l rn = Some rn1 →
    (∀ j, j ∈ l → ends rn !! rand j = None ∧ is_Some (ends rn1 !! rand j) ∧ connections rn1 !! rand j = Some (Some (ServerName gid j))) ∧
    (∀ j j', j ∈ l → j' ∈ l → rand j = rand j' → j = j') ∧
    (∀ e, is_Some (ends rn !! e) → is_Some (ends rn1 !! e) ∧ connections rn1 !! e = connections rn !! e)).
  { clear. induction l as [|j l IH]; intros rn rn1 Hnd; simpl.
    { intros [= <-]. split_and!; [by intros j ?%elem_of_nil|by intros j j' ?%elem_of_nil|done]. }
    apply NoDup_cons in Hnd as [Hj Hnd]. destruct (body j rn) as [rn0|] eqn:Eb; simpl; [|done]. intros Hl.
    destruct (IH rn0 rn1 Hnd Hl) as (I1 & I2 & I3). unfold body, MakeEnd in Eb.
    destruct (ends rn !! rand j) eqn:Ej; simpl in Eb; [done|]. injection Eb as E0.
    assert (H0 : is_Some (ends rn0 !! rand j) ∧ connections rn0 !! rand j = Some (Some (ServerName gid j))).
    { rewrite <- E0. simpl. rewrite !lookup_insert_eq. done. }
    assert (Hnew : ∀ k, k ∈ l → rand k ≠ rand j).
    { intros k Hk Ek. destruct (I1 k Hk) as [Hn _]. rewrite Ek in Hn. destruct H0 as [[x Hx] _]. congruence. }
    split_and!.
    - intros k [->|Hk]%elem_of_cons.
      + split; [done|]. destruct (I3 _ (proj1 H0)) as [H1 ->]. by split; [|apply H0].
      + destruct (I1 k Hk) as (Hn & H1 & H2). split_and!; try done. rewrite <- E0 in Hn. simpl in Hn. by rewrite lookup_insert_ne in Hn by (by apply not_eq_sym, Hnew).
    - intros k k' [->|Hk]%elem_of_cons [->|Hk']%elem_of_cons Ek; try done; [by destruct (Hnew k' Hk')|by destruct (Hnew k Hk)|by apply I2].
    - intros e [x Hx]. assert (rand j ≠ e) by congruence. destruct (I3 e) as [H1 ->]; [rewrite <- E0; simpl; by rewrite lookup_insert_ne|].
      split; [done|]. rewrite <- E0. simpl. by rewrite !lookup_insert_ne. }
  destruct (H _ _ _ (NoDup_seqZ 0 nsrv) E) as (I1 & I2 & I3). split_and!; try done.
  - intros j Hj. apply I1. apply elem_of_seqZ. lia.
  - intros j j' Hj Hj'. apply I2; apply elem_of_seqZ; lia.
Qed.

(** The part of [grp_ok] about the ends of a list of servers. *)
Record ends_ok (n gid : Z) rn (ss : list Srv) : Prop := {
  ek_names i s : ss.[i] = Some s → go_len (endNames s) = n;
  ek_end i s j e : ss.[i] = Some s → (endNames s).[j] = Some e →
    is_Some (ends rn !! e) ∧ connections rn !! e = Some (Some (ServerName gid j));
  ek_inj i s j i' s' j' e : ss.[i] = Some s → (endNames s).[j] = Some e → ss.[i'] = Some s' → (endNames s').[j'] = Some e →
    i = i' ∧ j = j'
}.

Lemma end_of_Some sg i j e : end_of sg i j = Some e ↔ ∃ s, (srvs sg).[i] = Some s ∧ (endNames s).[j] = Some e.
Proof. unfold end_of. destruct ((srvs sg).[i]) as [s|]; simpl; (split; [by eauto|by intros (? & [= <-] & ?)]). Qed.

Lemma grp_ends n sg : grp_ok n sg ↔ go_len (srvs sg) = n ∧ go_len (connected sg) = n ∧ ends_ok n (gid sg) (net sg) (srvs sg).
Proof.
  split.
  - intros [H1 H2 H3 H4 H5]. split_and!; try done. constructor; [done| |].
    + intros i s j e Hs He. apply (H4 i j). apply end_of_Some. eauto.
    + intros i s j i' s' j' e Hs He Hs' He'. apply (H5 i j i' j' e); apply end_of_Some; eauto.
  - intros (H1 & H2 & [H3 H4 H5]). constructor; try done.
    + intros i j e (s & Hs & He)%end_of_Some. eauto.
    + intros i j i' j' e (s & Hs & He)%end_of_Some (s' & Hs' & He')%end_of_Some. eauto.
Qed.

(** Server [k] gets the ends of a new server. *)
Lemma ends_put n gid rand rn rn' s ss ss' k :
  0 ≤ n → ends_ok n gid rn ss → makeServer n rand gid rn = Some (rn', s) →
  (∀ i x, ss'.[i] = Some x → (i = k ∧ endNames x = endNames s) ∨ (i ≠ k ∧ ss.[i] = Some x)) → ends_ok n gid rn' ss'.
Proof.
  intros Hn [H1 H2 H3] Hm Hss. destruct (makeServer_spec _ _ _ _ _ _ Hm) as (En & Hnew & Hinj & Hold).
  assert (Hget : ∀ j e, (endNames s).[j] = Some e → 0 ≤ j < n ∧ e = rand j).
  { intros j e He. pose proof (go_index_Some_range _ _ _ He) as Hr. rewrite En in *. unfold go_len in Hr.
    rewrite length_fmap, length_seqZ in Hr. rewrite go_index_lookup, list_lookup_fmap, lookup_seqZ_lt in He by lia. simpl in He.
    injection He as <-. split; [lia|]. f_equal. lia. }
  constructor.
  - intros i x [[-> ->]|[_ Hx]]%Hss; [|by eapply H1]. rewrite En. unfold go_len. rewrite length_fmap, length_seqZ. lia.
  - intros i x j e [[-> ->]|[_ Hx]]%Hss He.
    + destruct (Hget j e He) as [Hj ->]. by apply Hnew.
    + destruct (H2 i x j e Hx He) as [Hk Hc]. destruct (Hold e Hk) as [Hk' ->]. done.
  - assert (Hmix : ∀ i x j j' e, ss.[i] = Some x → (endNames x).[j] = Some e → (endNames s).[j'] = Some e → False).
    { intros i x j j' e Hx He He'. destruct (Hget j' e He') as [Hj ->]. destruct (H2 i x j _ Hx He) as [[y Hy] _].
      destruct (Hnew j' Hj) as [Hno _]. congruence. }
    intros i x j i' x' j' e [[-> ->]|[Hi Hx]]%Hss He [[-> ->]|[Hi' Hx']]%Hss He'.
    + destruct (Hget j e He) as [Hj ->], (Hget j' _ He') as [Hj' E]. split; [done|]. by apply Hinj.
    + by destruct (Hmix i' x' j' j e).
    + by destruct (Hmix i x j j' e).
    + by eapply H3.
Qed.

Lemma makeSrvGrp_ok rn gid n rand sg : 0 ≤ n → makeSrvGrp rn gid n rand = Some sg → grp_ok n sg.
Proof.
  intros Hn. unfold makeSrvGrp. set (body := λ (i : Z) (x : Net * list Srv), _).
  destruct (for_each body (seqZ 0 n) (rn, [])) as [[rn1 ss]|] eqn:E; simpl; [|done]. intros [= <-]. apply grp_ends. simpl.
  assert (H : ∀ l x rn1 ss, for_each body l x = Some (rn1, ss) → ends_ok n gid x.1 x.2 →
    ends_ok n gid rn1 ss ∧ length ss = (length x.2 + length l)%nat).
  { clear -Hn. induction l as [|i l IH]; intros [rn ss0] rn1 ss; simpl; [intros [= <- <-] ?; split; [done|lia]|].
    destruct (makeServer n (rand i) gid rn) as [[rn2 s]|] eqn:Em; simpl; [|done]. intros Hl H0.
    destruct (IH (rn2, ss0 ++ [s]) rn1 ss Hl) as [H1 H2]; [|split; [done|]; simpl in H2; rewrite length_app in H2; simpl in H2; lia].
    eapply (ends_put n gid (rand i) rn rn2 s ss0 _ (go_len ss0)); [done..|]. intros k x Hx.
    pose proof (go_index_Some_range _ _ _ Hx) as Hr. simpl in Hx. rewrite go_index_lookup in Hx by lia.
    apply lookup_app_Some in Hx as [Hx|[Hge Hx]].
    - right. split; [apply lookup_lt_Some in Hx; unfold go_len; lia|]. by rewrite go_index_lookup by lia.
    - apply list_lookup_singleton_Some in Hx as [Hk <-]. left. split; [unfold go_len in *; lia|done]. }
  destruct (H _ _ _ _ E) as [H1 H2].
  - constructor; simpl; [intros i s Hs|intros i s j e Hs|intros i s j i' s' j' e Hs]; by apply go_index_Some_range in Hs; unfold go_len in Hs; simpl in Hs; lia.
  - rewrite length_seqZ in H2. simpl in H2. split_and!; [unfold go_len; lia|unfold go_len; rewrite length_replicate; lia|done].
Qed.

Lemma StartServer_keeps n i rand p sg sg' : grp_ok n sg → StartServer i rand p sg = Some sg' → grp_ok n sg'.
Proof.
  intros Hok. pose proof Hok as (H1 & H2 & H3)%grp_ends. unfold StartServer, startServer.
  destruct ((srvs sg).[i]) as [s|] eqn:Hs; simpl; [|done]. rewrite (gk_names _ _ Hok i s Hs).
  destruct (makeServer n rand (gid sg) (net sg)) as [[rn srv]|] eqn:Em; simpl; [|done]. intros [= <-]. apply grp_ends. simpl.
  split_and!; [unfold go_len in *; by rewrite length_insert|done|].
  assert (Hn : 0 ≤ n) by (rewrite <- H1; unfold go_len; lia).
  assert (He : ends_ok n (gid sg) rn (<[Z.to_nat i := mkSrv (Some (match saved s with Some p => p | None => MakePersister end)) (endNames srv)]> (srvs sg))).
  { apply (ends_put n (gid sg) rand (net sg) rn srv (srvs sg) _ i); try done. intros k x.
    rewrite (go_index_insert _ _ _ s) by done. case_decide as E; [intros [= <-]; by left|by right]. }
  destruct He. constructor; done.
Qed.

Lemma ShutdownServer_keeps n i sg sg' : grp_ok n sg → ShutdownServer i sg = Some sg' → grp_ok n sg'.
Proof.
  intros Hok. unfold ShutdownServer. destruct (disconnect i (all sg) sg) as [sg1|] eqn:E; simpl; [|done].
  apply (disconnect_keeps n) in E; [|done]. destruct ((srvs sg1).[i]) as [s|] eqn:Hs; simpl; [|done]. intros [= <-].
  replace (set_srv i _ _) with (set_net (DeleteServer (ServerName (gid sg1) i) (net sg1)) sg1); [by apply grp_net|].
  unfold set_srv, set_net. simpl. f_equal. rewrite list_insert_id; [done|].
  pose proof (go_index_Some_range _ _ _ Hs). rewrite go_index_lookup in Hs by lia. by destruct s.
Qed.

(** ** Groups in a test *)

Inductive GrpEvent :=
| GConnect (i : Z) (to : list Z)
| GConnectAll
| GDisconnect (i : Z) (from : list Z)
| GStart (i : Z) (rand : Z → string) (labsrv : nat)
| GShutdown (i : Z)
| GPartition (p1 p2 : list Z).

Definition grp_step (ev : GrpEvent) (sg : ServerGrp) : option ServerGrp :=
  match ev with
  | GConnect i to => connect i to sg
  | GConnectAll => ConnectAll sg
  | GDisconnect i from => disconnect i from sg
  | GStart i rand p => StartServer i rand p sg
  | GShutdown i => ShutdownServer i sg
  | GPartition p1 p2 => Partition p1 p2 sg
  end.

(** A group that was made on some network and operated on since. *)
Inductive grp_reachable (n : Z) : ServerGrp → Prop :=
| grp_made rn gid rand sg : 0 ≤ n → makeSrvGrp rn gid n rand = Some sg → grp_reachable n sg
| grp_next ev sg sg' : grp_reachable n sg → grp_step ev sg = Some sg' → grp_reachable n sg'.

Lemma cut_off_keeps n p q sg sg' : grp_ok n sg → cut_off p q sg = Some sg' → grp_ok n sg'.
Proof.
  intros Hok. apply for_each_keeps; [|done]. intros x s s' Hs. destruct (disconnect x q s) as [s1|] eqn:E; simpl; [|done].
  apply connect_keeps. by eapply disconnect_keeps.
Qed.

Lemma grp_step_keeps n ev sg sg' : grp_ok n sg → grp_step ev sg = Some sg' → grp_ok n sg'.
Proof.
  intros IH Hs. destruct ev as [i to| |i from|i rand p|i|p1 p2]; simpl in Hs.
  - by eapply connect_keeps.
  - eapply for_each_keeps; [|exact IH|exact Hs]. intros x s s'. apply connect_keeps.
  - by eapply disconnect_keeps.
  - by eapply StartServer_keeps.
  - by eapply ShutdownServer_keeps.
  - unfold Partition in Hs. destruct (cut_off p1 p2 sg) as [sg1|] eqn:E; simpl in Hs; [|done].
    eapply cut_off_keeps; [|exact Hs]. by eapply cut_off_keeps.
Qed.

Lemma grp_reachable_ok n sg : grp_reachable n sg → grp_ok n sg.
Proof. induction 1 as [rn gid rand sg Hn Hm|ev sg sg' _ IH Hs]; [by eapply makeSrvGrp_ok|by eapply grp_step_keeps]. Qed.

(** (The ends of a group).  In every group a test has made and started, stopped,
    connected and partitioned servers of, server [i] calls server [j] by an end of
    its own: it is registered with the network, leads to server [j], and is no other
    pair's. *)
Theorem group_ends n sg i j :
  grp_reachable n sg → 0 ≤ i < n → 0 ≤ j < n →
  ∃ e, end_of sg i j = Some e ∧ is_Some (ends (net sg) !! e) ∧
    connections (net sg) !! e = Some (Some (ServerName (gid sg) j)) ∧
    ∀ i' j', end_of sg i' j' = Some e → i' = i ∧ j' = j.
Proof.
  intros Hok%grp_reachable_ok Hi Hj. destruct (end_exists n sg i j Hok Hi Hj) as [e He]. exists e.
  destruct (gk_end _ _ Hok i j e He). split_and!; try done. intros i' j' He'. by apply (gk_inj _ _ Hok i' j' i j e).
Qed.

(** The server object to which the network hands a call from [i] to [j], as
    processReq decides it: [None] when the end is disabled or no server is
    registered. *)
Definition forwards sg (i j : Z) : option nat :=
  e ← end_of sg i j;
  match readEndnameInfo e (net sg) with
  | (true, Some _, server, _, _) => server
  | _ => None
  end.

(** The server object that runs as server [j], if one does. *)
Definition running sg (j : Z) : option nat := server_at (ServerName (gid sg) j) (net sg).

Lemma forwards_linked n sg i j :
  grp_ok n sg → 0 ≤ i < n → 0 ≤ j < n → forwards sg i j = if linked sg i j then running sg j else None.
Proof.
  intros Hok Hi Hj. destruct (end_exists n sg i j Hok Hi Hj) as [e He]. destruct (gk_end _ _ Hok i j e He) as [_ Hc].
  unfold forwards, linked, readEndnameInfo, Labrpc.connected. rewrite He. simpl. rewrite Hc. simpl. by destruct (is_enabled e (net sg)).
Qed.

(** Connecting and disconnecting leave the registered servers alone. *)
Lemma enable_servers i j b sg sg' : enable i j b sg = Some sg' → servers (net sg') = servers (net sg).
Proof. unfold enable. destruct (end_of sg i j); simpl; [|done]. by intros [= <-]. Qed.

Lemma each_servers {A} (f : A → ServerGrp → option ServerGrp) l sg sg' :
  (∀ x s s', f x s = Some s' → servers (net s') = servers (net s)) → for_each f l sg = Some sg' →
  servers (net sg') = servers (net sg).
Proof.
  intros Hf. apply (for_each_keeps (λ s, servers (net s) = servers (net sg))); [|done]. intros x s s' <- H. by eapply Hf.
Qed.

Lemma connect_servers i to sg sg' : connect i to sg = Some sg' → servers (net sg') = servers (net sg).
Proof.
  unfold connect, srv_connect. destruct (go_store _ _ _) as [con|]; simpl; [|done].
  destruct (for_each _ to (set_connected con sg)) as [sg1|] eqn:E; simpl; [|done]. intros E2.
  transitivity (servers (net sg1)); [eapply each_servers; [|exact E2]|eapply (each_servers _ _ (set_connected con sg)); [|exact E]];
    intros x s s'; cbv beta; (destruct (IsConnected x s) as [[]|]; simpl; [apply enable_servers|by intros [= <-]|done]).
Qed.

Lemma disconnect_servers i from sg sg' : disconnect i from sg = Some sg' → servers (net sg') = servers (net sg).
Proof.
  unfold disconnect, srv_disconnect. destruct (go_store _ _ _) as [con|]; simpl; [|done].
  destruct (for_each _ from (set_connected con sg)) as [sg1|] eqn:E; simpl; [|done]. intros E2.
  transitivity (servers (net sg1)); [eapply each_servers; [|exact E2]|eapply (each_servers _ _ (set_connected con sg)); [|exact E]];
    intros x s s'; apply enable_servers.
Qed.

Lemma Partition_servers p1 p2 sg sg' : Partition p1 p2 sg = Some sg' → servers (net sg') = servers (net sg).
Proof.
  assert (Hcut : ∀ p q s s', cut_off p q s = Some s' → servers (net s') = servers (net s)).
  { intros p q s s'. apply each_servers. intros x s1 s2. destruct (disconnect x q s1) as [s3|] eqn:E; simpl; [|done].
    intros ->%connect_servers. by eapply disconnect_servers. }
  unfold Partition. destruct (cut_off p1 p2 sg) as [sg1|] eqn:E; simpl; [|done]. intros ->%Hcut. by eapply Hcut.
Qed.

(** C27 (A partition cuts the group in two).  In a group of an odd number of servers,
    at least three, MakePartition and Partition put every server on one of two
    sides, the given leader with the minority.  Afterwards the network hands a call
    from one server to another exactly if they are on the same side, and then to the
    server object that runs as the callee, if one does; whatever was connected
    before.  The servers that run are those that ran before. *)
Theorem partition_isolates n sg l :
  grp_reachable n sg → Z.odd n = true → 3 ≤ n → 0 ≤ l < n →
  ∃ p1 p2 sg', MakePartition l sg = Some (p1, p2) ∧ Partition p1 p2 sg = Some sg' ∧
    p1 ++ p2 ≡ₚ seqZ 0 n ∧ go_len p1 = n / 2 + 1 ∧ l ∈ p2 ∧
    (∀ a c, 0 ≤ a < n → 0 ≤ c < n → linked sg' a c = true ↔ (a ∈ p1 ↔ c ∈ p1)) ∧
    (∀ a c, 0 ≤ a < n → 0 ≤ c < n →
       forwards sg' a c = if decide (a ∈ p1 ↔ c ∈ p1) then running sg c else None).
Proof.
  intros Hok%grp_reachable_ok Hodd Hn Hl.
  destruct (MakePartition_ok n sg l) as (p1 & p2 & E & Hp & L1 & L2 & Hin); [done..|].
  assert (Hall : ∀ a, a ∈ p1 ++ p2 ↔ 0 ≤ a < n) by (intros a; rewrite Hp, elem_of_seqZ; lia).
  destruct (Partition_ok n sg p1 p2) as (sg' & E' & Hok' & [_ Hg] & _ & Hlink); [done|rewrite Hp; apply NoDup_seqZ|by intros a ?%Hall|].
  assert (Hlk : ∀ a c, 0 ≤ a < n → 0 ≤ c < n → linked sg' a c = true ↔ (a ∈ p1 ↔ c ∈ p1)).
  { intros a c Ha Hc. apply Hlink; by apply Hall. }
  exists p1, p2, sg'. split_and!; try done. intros a c Ha Hc. rewrite (forwards_linked n) by done.
  replace (running sg' c) with (running sg c) by (unfold running, server_at; by rewrite Hg, (Partition_servers _ _ _ _ E')).
  specialize (Hlk a c Ha Hc). destruct (linked sg' a c); case_decide; try done; [tauto|]. destruct Hlk as [_ Hlk]. by specialize (Hlk ltac:(done)).
Qed.

(** (A server that is shut down is cut off).  No end leads from or to it any more,
    the network does not know it, its persister is kept, and the other servers are
    connected as before. *)
Theorem shutdown_isolates n sg i s :
  grp_reachable n sg → (srvs sg).[i] = Some s →
  ∃ sg', ShutdownServer i sg = Some sg' ∧ server_at (ServerName (gid sg') i) (net sg') = None ∧
    saved <$> (srvs sg').[i] = Some (saved s) ∧
    (∀ j, linked sg' i j = false ∧ linked sg' j i = false) ∧
    (∀ a c, a ≠ i → c ≠ i → linked sg' a c = linked sg a c).
Proof.
  intros Hok%grp_reachable_ok Hs. pose proof (go_index_Some_range _ _ _ Hs) as Hr. rewrite (gk_srvs _ _ Hok) in Hr.
  assert (Hall : in_group n (all sg)) by (intros j Hj; apply elem_of_seqZ in Hj; rewrite (gk_srvs _ _ Hok) in Hj; lia).
  destruct (disconnect_ok n sg i (all sg) Hok Hr Hall) as (sg1 & E & K1 & [S1 S1'] & _ & L1).
  unfold ShutdownServer. rewrite E. simpl. rewrite S1, Hs. simpl. eexists. split; [done|].
  assert (Hend : ∀ a c, end_of (set_srv i (mkSrv (saved s) (endNames s)) (set_net (DeleteServer (ServerName (gid sg1) i) (net sg1)) sg1)) a c = end_of sg1 a c).
  { intros a c. unfold end_of. simpl. rewrite S1, (go_index_insert _ _ _ s) by done. case_decide as Ea; [subst; by rewrite Hs|done]. }
  split_and!.
  - unfold server_at. simpl. by rewrite lookup_insert_eq.
  - simpl. by rewrite S1, (go_index_insert _ _ _ s), decide_True.
  - intros j. assert (Hb : ∀ a c, (a = i ∨ c = i) → linked sg1 a c = false).
    { intros a c Hac. destruct (end_of sg1 a c) as [e|] eqn:Ee; [|unfold linked; by rewrite Ee].
      destruct (end_range n sg1 a c e K1 Ee) as [Ha Hc]. apply L1. unfold between, all. rewrite (gk_srvs _ _ Hok), !elem_of_seqZ.
      destruct Hac as [-> | ->]; [left|right]; (split; [done|lia]). }
    unfold linked in *. rewrite !Hend. split; [apply (Hb i j)|apply (Hb j i)]; auto.
  - intros a c Ha Hc. unfold linked at 1. rewrite Hend. rewrite <- (proj2 (L1 a c)); [done|]. by intros [[]|[]].
Qed.

(** Connecting all servers. *)
Lemma ConnectAll_ok n sg :
  grp_ok n sg → ∃ sg', ConnectAll sg = Some sg' ∧ grp_ok n sg' ∧ same_servers sg sg' ∧
    ∀ a c, 0 ≤ a < n → 0 ≤ c < n → linked sg' a c = true.
Proof.
  intros Hok. assert (Hall : ∀ sg', same_servers sg sg' → all sg' = seqZ 0 n) by (intros sg' [E _]; unfold all; by rewrite E, (gk_srvs _ _ Hok)).
  assert (Hin : in_group n (seqZ 0 n)) by (intros j Hj%elem_of_seqZ; lia).
  pose (P := λ (l : list Z) sg', grp_ok n sg' ∧ same_servers sg sg' ∧ (∀ a, a ∈ l → is_conn sg' a) ∧
    ∀ a c, a ∈ l → c ∈ l → linked sg' a c = true).
  destruct (for_each_ind P ConnectOne (all sg) sg) as (sg' & E & H1 & H2 & _ & H4).
  - split_and!; [done|done|by intros a ?%elem_of_nil|by intros a c ?%elem_of_nil].
  - intros l1 x l2 sg1 El (H1 & H2 & H3 & H4). rewrite (Hall sg) in El by done.
    assert (Hx : 0 ≤ x < n) by (apply Hin; rewrite El; apply elem_of_app; right; by left).
    assert (Hl : ∀ a, a ∈ l1 → a ∈ seqZ 0 n) by (intros a Ha; rewrite El; apply elem_of_app; by left).
    unfold ConnectOne. rewrite (Hall sg1 H2). destruct (connect_ok n sg1 x (seqZ 0 n) H1 Hx Hin) as (sg2 & E2 & G1 & [G2 G2'] & G3 & G4).
    exists sg2. split; [done|]. destruct H2 as [H2 H2'].
    assert (Hc : ∀ a, a ∈ l1 ++ [x] → is_conn sg2 a).
    { intros a Ha. unfold is_conn. rewrite (conn_insert n sg1 x true sg2 a H1 Hx G3). case_decide as Exa; [done|].
      apply elem_of_app in Ha as [Ha|Ha%list_elem_of_singleton]; [by apply H3|congruence]. }
    unfold P. split_and!; [done|split; congruence|done|]. intros a c Ha Hc'. pose proof (Hc a Ha). pose proof (Hc c Hc').
    assert (Hr : ∀ y, y ∈ l1 ++ [x] → y = x ∨ (y ≠ x ∧ y ∈ l1)).
    { intros y [Hy|Hy%list_elem_of_singleton]%elem_of_app; [|by left]. destruct (decide (y = x)); [by left|by right]. }
    assert (Hs : ∀ y, y ∈ l1 ++ [x] → y ∈ seqZ 0 n).
    { intros y [->|[_ Hy]]%Hr; [apply elem_of_seqZ; lia|by apply Hl]. }
    destruct (Hr a Ha) as [->|[Hax Ha1]]; [apply G4; split; [left|]; auto|].
    destruct (Hr c Hc') as [->|[Hcx Hc1]]; [apply G4; split; [right|]; auto|].
    rewrite (proj2 (G4 a c)); [by apply H4|]. intros [[[? _]|[? _]] _]; done.
  - exists sg'. split_and!; try done; [apply H2..|]. intros a c Ha Hc. apply H4; rewrite (Hall sg) by done; apply elem_of_seqZ; lia.
Qed.

(** (A group that was started is connected).  After StartServers every server reaches
    every server, and so does the group after a ConnectAll that ends a partition. *)
Theorem StartServers_connects n rand labsrv sg sg' :
  grp_reachable n sg → StartServers rand labsrv sg = Some sg' ∨ ConnectAll sg = Some sg' →
  ∀ a c, 0 ≤ a < n → 0 ≤ c < n → linked sg' a c = true.
Proof.
  intros Hok%grp_reachable_ok Hs. assert (∃ sg1, grp_ok n sg1 ∧ ConnectAll sg1 = Some sg') as (sg1 & H1 & E).
  { destruct Hs as [Hs|Hs]; [|by exists sg]. unfold StartServers, start in Hs. destruct (for_each _ (all sg) sg) as [sg1|] eqn:E; simpl in Hs; [|done].
    exists sg1. split; [|done]. eapply for_each_keeps; [|exact Hok|exact E]. intros x s s'. apply StartServer_keeps. }
  destruct (ConnectAll_ok n sg1 H1) as (sg2 & E2 & _ & _ & Hl). rewrite E in E2. by injection E2 as <-.
Qed.

(** (The Partitioner cuts the group in two).  Whatever side it draws for each server,
    the sides are a partition of the group, and a call gets through exactly between
    servers that drew the same side; one side may be empty. *)
Theorem partitioner_isolates n rand sg :
  grp_reachable n sg →
  ∃ sg', Partitioner rand sg = Some sg' ∧ grp_ok n sg' ∧
    Partitioner_side rand 0 sg ++ Partitioner_side rand 1 sg ≡ₚ seqZ 0 n ∧
    ∀ a c, 0 ≤ a < n → 0 ≤ c < n → linked sg' a c = true ↔ rand a mod 2 = rand c mod 2.
Proof.
  intros Hok%grp_reachable_ok. assert (Hm : ∀ j, rand j mod 2 = 0 ∨ rand j mod 2 = 1) by (intros j; pose proof (Z.mod_pos_bound (rand j) 2); lia).
  assert (Hs : ∀ side a, a ∈ Partitioner_side rand side sg ↔ 0 ≤ a < n ∧ rand a mod 2 = side).
  { intros side a. unfold Partitioner_side, N. rewrite (gk_srvs _ _ Hok), list_elem_of_filter, elem_of_seqZ. intuition lia. }
  assert (Hall : ∀ a, a ∈ Partitioner_side rand 0 sg ++ Partitioner_side rand 1 sg ↔ 0 ≤ a < n).
  { intros a. rewrite elem_of_app, !Hs. specialize (Hm a). intuition lia. }
  assert (Hnd : NoDup (Partitioner_side rand 0 sg ++ Partitioner_side rand 1 sg)).
  { apply NoDup_app. split_and!; [apply NoDup_filter, NoDup_seqZ| |apply NoDup_filter, NoDup_seqZ].
    intros a [_ H0]%Hs [_ H1]%Hs. lia. }
  destruct (Partition_ok n sg _ _ Hok Hnd) as (sg' & E & H1 & _ & _ & Hl); [by intros a ?%Hall|].
  exists sg'. split_and!; [done|done| |].
  - apply NoDup_Permutation; [done|apply NoDup_seqZ|]. intros a. rewrite Hall, elem_of_seqZ. lia.
  - intros a c Ha Hc. rewrite Hl by (by apply Hall). rewrite !Hs. destruct (Hm a), (Hm c); intuition lia.
Qed.

(** ** Three servers *)

Definition end_name (i j : Z) : string := "end-" +:+ Itoa i +:+ "-" +:+ Itoa j.

Definition made : ServerGrp := default (mkServerGrp MakeNetwork [] 0 []) (makeSrvGrp MakeNetwork 0 3 end_name).
Definition three : ServerGrp := default made (ConnectAll made).

Lemma three_reachable : grp_reachable 3 three.
Proof.
  apply (grp_next 3 GConnectAll made); [|vm_compute; reflexivity].
  apply (grp_made 3 MakeNetwork 0 end_name); [lia|vm_compute; reflexivity].
Qed.

Lemma group_ends_witness : ∃ e, end_of three 2 0 = Some e ∧ connections (net three) !! e = Some (Some "server-0-0"%string).
Proof.
  destruct (group_ends 3 three 2 0 three_reachable) as (e & He & _ & Hc & _); [lia|lia|]. exists e. split; [exact He|].
  rewrite Hc. vm_compute. reflexivity.
Defined.

(** The same group with its servers started; object [10 + i] runs as server [i]. *)
Definition start_events : list GrpEvent :=
  (λ i, GStart i (λ j, "e" +:+ end_name i j) (Z.to_nat (10 + i))) <$> [0; 1; 2].
Definition three_up : ServerGrp := default three (for_each grp_step (start_events ++ [GConnectAll]) three).

Lemma three_up_reachable : grp_reachable 3 three_up.
Proof.
  apply (for_each_keeps (grp_reachable 3) grp_step (start_events ++ [GConnectAll]) three); [|exact three_reachable|vm_compute; reflexivity].
  intros ev s s' Hs. by apply grp_next.
Qed.

(** The leader 0 is cut off from the other two, which reach each other. *)
Lemma partition_isolates_witness :
  ∃ p1 p2 sg', MakePartition 0 three_up = Some (p1, p2) ∧ Partition p1 p2 three_up = Some sg' ∧ p1 = [1; 2] ∧
    forwards sg' 0 1 = None ∧ forwards sg' 1 2 = Some 12%nat.
Proof.
  destruct (partition_isolates 3 three_up 0 three_up_reachable) as (p1 & p2 & sg' & E & E' & _ & _ & _ & _ & Hf); [reflexivity|lia|lia|].
  exists p1, p2, sg'. assert (Hp : fst <$> MakePartition 0 three_up = Some [1; 2]) by (vm_compute; reflexivity).
  rewrite E in Hp. injection Hp as ->. split_and!; [exact E|exact E'|reflexivity|..].
  - rewrite (Hf 0 1) by lia. rewrite decide_False; [reflexivity|]. intros [_ H]. specialize (H ltac:(by left)).
    apply elem_of_cons in H as [H|H]; [lia|]. apply list_elem_of_singleton in H. lia.
  - rewrite (Hf 1 2) by lia. rewrite decide_True; [vm_compute; reflexivity|]. split; intros _; [right; left|left].
Defined.

(** In a group of one server MakePartition writes to [p2[-1]]. *)
Example MakePartition_one : (sg ← makeSrvGrp MakeNetwork 0 1 end_name; MakePartition 0 sg) = None.
Proof. vm_compute. reflexivity. Qed.
