(* ===== verification/Clnts.v ===== *)
(** * tester1/clnts.go: the clients of a test on the network

    Every clerk of a test has a [Clnt], which makes an end-point of the network of
    Labrpc.v for a server the first time the clerk calls it, and lets a test choose
    which servers the clerk may reach.  [Clnts] holds the objects ([objs], a heap, as
    clerks and test share them) and the set of those that have not been deleted.  The
    names of new ends are drawn at random; they are arguments here, and a name in
    use stops the test in [MakeEnd].  Servers, groups and calls change the network
    too: between two operations it may change in any way that leaves the ends of the
    clients alone ([respects]). *)

From S2P Require Import Prelude Labrpc.
Local Open Scope Z_scope.

Abbreviation Net := (Network (name := string)).

(** ** Clnt *)

(** [cl_ends] maps a server to the name of the end; [cl_srvs] is nil ([None]) when the
    client may connect to all servers. *)
Record Clnt := mkClnt { cl_ends : gmap string string; cl_srvs : option (list string) }.

Record Clnts := mkClnts { cs_net : Net; objs : gmap nat Clnt; clerks : option (gset nat) }.

Definition makeClntTo (srvs : option (list string)) : Clnt := mkClnt ∅ srvs.

Definition allowedL (server : string) (c : Clnt) : bool :=
  match cl_srvs c with
  | None => true
  | Some srvs => existsb (λ n, bool_decide (n = server)) srvs
  end.

(** The end by which client [p] calls [server]; [rand] is what Randstring draws. *)
Definition makeEnd (p : nat) (server rand : string) (st : Clnts) : option (Clnts * string) :=
  c ← objs st !! p;
  match cl_ends c !! server with
  | Some e => Some (st, e)
  | None =>
      '(rn, _) ← MakeEnd rand (cs_net st);
      let rn := Connect rand server rn in
      let rn := if allowedL server c then Enable rand true rn else Enable rand false rn in
      Some (mkClnts rn (<[p := mkClnt (<[server := rand]> (cl_ends c)) (cl_srvs c)]> (objs st)) (clerks st), rand)
  end.

(** A loop over the ends of a client that enables or disables those of the servers
    that [sel] selects. *)
Definition enable_ends (sel : string → bool) (b : bool) (c : Clnt) (rn : Net) : Net :=
  foldr (λ '(s, e) rn, if sel s then Enable e b rn else rn) rn (map_to_list (cl_ends c)).

Definition ConnectAll (p : nat) (st : Clnts) : option Clnts :=
  c ← objs st !! p;
  Some (mkClnts (enable_ends (λ _, true) true c (cs_net st)) (<[p := mkClnt (cl_ends c) None]> (objs st)) (clerks st)).

Definition ConnectTo (p : nat) (srvs : option (list string)) (st : Clnts) : option Clnts :=
  c ← objs st !! p;
  let c := mkClnt (cl_ends c) srvs in
  Some (mkClnts (enable_ends (λ s, allowedL s c) true c (cs_net st)) (<[p := c]> (objs st)) (clerks st)).

Definition Disconnect (p : nat) (srv : string) (st : Clnts) : option Clnts :=
  c ← objs st !! p;
  Some (mkClnts (enable_ends (λ s, bool_decide (s = srv)) false c (cs_net st)) (objs st) (clerks st)).

Definition DisconnectAll (p : nat) (st : Clnts) : option Clnts :=
  c ← objs st !! p;
  Some (mkClnts (enable_ends (λ _, true) false c (cs_net st)) (<[p := mkClnt (cl_ends c) (Some [])]> (objs st)) (clerks st)).

(** [None]: DeleteEnd stops the test. *)
Definition remove (p : nat) (st : Clnts) : option Clnts :=
  c ← objs st !! p;
  rn ← for_each (λ x rn, DeleteEnd x.2 rn) (map_to_list (cl_ends c)) (cs_net st);
  Some (mkClnts rn (objs st) (clerks st)).

(** ** Clnts *)

Definition makeClnts (rn : Net) : Clnts := mkClnts rn ∅ (Some ∅).

(** [p] is the pointer of the new object; a write to the nil map panics. *)
Definition MakeClientTo (p : nat) (srvs : option (list string)) (st : Clnts) : option Clnts :=
  match objs st !! p, clerks st with
  | None, Some ck => Some (mkClnts (cs_net st) (<[p := makeClntTo srvs]> (objs st)) (Some ({[p]} ∪ ck)))
  | _, _ => None
  end.
Definition MakeClient (p : nat) (st : Clnts) : option Clnts := MakeClientTo p None st.

Definition live (st : Clnts) : gset nat := default ∅ (clerks st).

Definition DeleteClient (p : nat) (st : Clnts) : option Clnts :=
  if decide (p ∈ live st) then
    st ← remove p st;
    Some (mkClnts (cs_net st) (objs st) ((λ ck, ck ∖ {[p]}) <$> clerks st))
  else Some st.

Definition cleanup (st : Clnts) : option Clnts :=
  st ← for_each remove (elements (live st)) st;
  Some (mkClnts (cs_net st) (objs st) None).

(** ** Runs *)

Inductive ClEvent :=
  | CMake (p : nat) (srvs : option (list string))
  | CEnd (p : nat) (server rand : string)      (* the first thing a Call does *)
  | CConnectAll (p : nat)
  | CConnectTo (p : nat) (srvs : option (list string))
  | CDisconnect (p : nat) (srv : string)
  | CDisconnectAll (p : nat)
  | CDelete (p : nat).

Definition clnts_do (ev : ClEvent) (st : Clnts) : option Clnts :=
  match ev with
  | CMake p srvs => MakeClientTo p srvs st
  | CEnd p server rand => fst <$> makeEnd p server rand st
  | CConnectAll p => ConnectAll p st
  | CConnectTo p srvs => ConnectTo p srvs st
  | CDisconnect p srv => Disconnect p srv st
  | CDisconnectAll p => DisconnectAll p st
  | CDelete p => DeleteClient p st
  end.

(** The client that an event uses; a client is not used any more once deleted. *)
Definition user (ev : ClEvent) : option nat :=
  match ev with
  | CMake _ _ => None
  | CEnd p _ _ | CConnectAll p | CConnectTo p _ | CDisconnect p _ | CDisconnectAll p | CDelete p => Some p
  end.

Definition end_used (st : Clnts) (p : nat) (s e : string) : Prop :=
  p ∈ live st ∧ ∃ c, objs st !! p = Some c ∧ cl_ends c !! s = Some e.

(** The network changed, but not for the ends of the clients. *)
Definition respects (st : Clnts) (rn : Net) : Prop :=
  ∀ p s e, end_used st p s e →
    ends rn !! e = ends (cs_net st) !! e ∧ connections rn !! e = connections (cs_net st) !! e ∧
    is_enabled e rn = is_enabled e (cs_net st).

Inductive clnts_step : option ClEvent → Clnts → Clnts → Prop :=
  | step_do ev st st' : (∀ p, user ev = Some p → p ∈ live st) → clnts_do ev st = Some st' → clnts_step (Some ev) st st'
  | step_net st rn : respects st rn → clnts_step None st (mkClnts rn (objs st) (clerks st)).

Inductive clnts_run (rn : Net) : list (option ClEvent) → Clnts → Prop :=
  | run_start : clnts_run rn [] (makeClnts rn)
  | run_next evs ev st st' : clnts_run rn evs st → clnts_step ev st st' → clnts_run rn (evs ++ [ev]) st'.

(** ** The ends of the clients *)

Record clnts_ok (st : Clnts) : Prop := {
  ck_objs p : p ∈ live st → is_Some (objs st !! p);
  ck_end p s e : end_used st p s e →
    is_Some (ends (cs_net st) !! e) ∧ connections (cs_net st) !! e = Some (Some s);
  ck_inj p s p' s' e : end_used st p s e → end_used st p' s' e → p = p' ∧ s = s'
}.

(** Whether the ends of client [p] are enabled as its list of servers says. *)
Definition obeys (st : Clnts) (p : nat) : Prop :=
  ∀ c s e, objs st !! p = Some c → end_used st p s e → is_enabled e (cs_net st) = allowedL s c.

(** What [enable_ends] does to the end [e] of a server [s] of the client, and to others. *)
Lemma enable_ends_spec sel b c rn :
  (∀ s s' e, cl_ends c !! s = Some e → cl_ends c !! s' = Some e → s = s') →
  ends (enable_ends sel b c rn) = ends rn ∧ connections (enable_ends sel b c rn) = connections rn ∧
  (∀ s e, cl_ends c !! s = Some e → is_enabled e (enable_ends sel b c rn) = if sel s then b else is_enabled e rn) ∧
  (∀ e, (∀ s, cl_ends c !! s ≠ Some e) → is_enabled e (enable_ends sel b c rn) = is_enabled e rn).
Proof.
  intros Hinj. unfold enable_ends.
  assert (Hl : ∀ s e, (s, e) ∈ map_to_list (cl_ends c) ↔ cl_ends c !! s = Some e) by (intros s e; apply elem_of_map_to_list).
  assert (H : ∀ l : list (string * string), (∀ s e s', (s, e) ∈ l → (s', e) ∈ l → s = s') → 
    let rn' := foldr (λ '(s, e) rn, if sel s then Enable e b rn else rn) rn l in
    ends rn' = ends rn ∧ connections rn' = connections rn ∧
    (∀ s e, (s, e) ∈ l → is_enabled e rn' = if sel s then b else is_enabled e rn) ∧
    (∀ e, (∀ s, (s, e) ∉ l) → is_enabled e rn' = is_enabled e rn)).
  { induction l as [|[s e] l IH]; intros Hu; simpl; [split_and!; [done|done|by intros s e ?%elem_of_nil|done]|].
    destruct IH as (I1 & I2 & I3 & I4). { intros s1 e1 s1' H1 H2. apply (Hu s1 e1); by right. }
    assert (He : ∀ e', is_enabled e' (if sel s then Enable e b (foldr (λ '(s, e) rn, if sel s then Enable e b rn else rn) rn l)
      else foldr (λ '(s, e) rn, if sel s then Enable e b rn else rn) rn l) =
      if sel s then (if decide (e = e') then b else is_enabled e' (foldr (λ '(s, e) rn, if sel s then Enable e b rn else rn) rn l))
      else is_enabled e' (foldr (λ '(s, e) rn, if sel s then Enable e b rn else rn) rn l)).
    { intros e'. destruct (sel s); [|done]. unfold is_enabled, Enable. simpl. case_decide as Ee; [subst; by rewrite lookup_insert_eq|by rewrite lookup_insert_ne]. }
    split_and!; [by destruct (sel s)|by destruct (sel s)| |].
    - intros s1 e1 Hin. rewrite He. destruct (decide (e = e1)) as [<-|Hne].
      + assert (s1 = s) as -> by (apply (Hu s1 e); [done|by left]). destruct (sel s) eqn:Es; [done|].
        destruct (decide ((s, e) ∈ l)) as [Hd|Hd]; [by rewrite (I3 s e Hd), Es|].
        apply I4. intros s2 H2. assert (s2 = s) as -> by (apply (Hu s2 e); [by right|by left]). done.
      + apply elem_of_cons in Hin as [[= -> ->]|Hin]; [done|]. rewrite (I3 s1 e1 Hin). by destruct (sel s).
    - intros e1 Hno. rewrite He. rewrite decide_False by (intros <-; apply (Hno s); by left).
      rewrite I4; [by destruct (sel s)|]. intros s1 H1. apply (Hno s1). by right. }
  destruct (H (map_to_list (cl_ends c))) as (H1 & H2 & H3 & H4).
  { intros s e s' Hs%Hl Hs'%Hl. by apply (Hinj s s' e). }
  split_and!; [done|done| |].
  - intros s e Hs. by apply H3, Hl.
  - intros e Hno. apply H4. intros s Hs%Hl. by apply (Hno s).
Qed.

(** A change that keeps the clients' ends, and where they lead. *)
Lemma clnts_ok_same st st' :
  clnts_ok st → (∀ p, p ∈ live st' → p ∈ live st ∧ is_Some (objs st' !! p)) →
  (∀ p s e, end_used st' p s e → end_used st p s e) →
  (∀ p s e, end_used st' p s e → ends (cs_net st') !! e = ends (cs_net st) !! e ∧
     connections (cs_net st') !! e = connections (cs_net st) !! e) →
  clnts_ok st'.
Proof.
  intros [H1 H2 H3] Hl Hu Hn. split.
  - intros p Hp. by apply Hl.
  - intros p s e He. destruct (Hn p s e He) as [-> ->]. by apply (H2 p), Hu.
  - intros p s p' s' e He He'. apply (H3 p s p' s' e); by apply Hu.
Qed.

Lemma rewire_ok st p c c' sel b :
  clnts_ok st → p ∈ live st → objs st !! p = Some c → cl_ends c' = cl_ends c →
  let st' := mkClnts (enable_ends sel b c (cs_net st)) (<[p := c']> (objs st)) (clerks st) in
  clnts_ok st' ∧ (∀ q s e, end_used st' q s e ↔ end_used st q s e) ∧
  (∀ s e, end_used st p s e → is_enabled e (cs_net st') = if sel s then b else is_enabled e (cs_net st)) ∧
  (∀ q s e, q ≠ p → end_used st q s e → is_enabled e (cs_net st') = is_enabled e (cs_net st)).
Proof.
  intros Hok Hp Hc Ee st'. destruct (enable_ends_spec sel b c (cs_net st)) as (E1 & E2 & E3 & E4).
  { intros s s' e Hs Hs'. apply (ck_inj _ Hok p s p s' e); (split; [done|]; eauto). }
  assert (Hu : ∀ q s e, end_used st' q s e ↔ end_used st q s e).
  { intros q s e. unfold end_used, st'. simpl. change (live (mkClnts _ _ (clerks st))) with (live st).
    destruct (decide (q = p)) as [->|Hqp]; [rewrite lookup_insert_eq|by rewrite lookup_insert_ne]. rewrite Hc.
    split; intros [? (x & [= <-] & Hx)]; (split; [done|]); eexists; (split; [done|]); congruence. }
  split_and!; [|done|..].
  - apply (clnts_ok_same st); [done| |by intros q s e ?%Hu|simpl; intros q s e _; by rewrite E1, E2].
    intros q Hq. split; [done|]. simpl. destruct (decide (q = p)) as [->|Hqp]; [rewrite lookup_insert_eq; eauto|].
    rewrite lookup_insert_ne by done. by apply (ck_objs _ Hok).
  - intros s e [_ (c0 & Hc0 & He)]. simplify_eq. by apply E3.
  - intros q s e Hqp Hq. apply E4. intros s' He. destruct (ck_inj _ Hok q s p s' e) as [-> _]; [done|split; eauto|done].
Qed.

(** It leaves alone what is no end of the client. *)
Lemma rewire_frame st p c sel b e :
  clnts_ok st → p ∈ live st → objs st !! p = Some c → (∀ s, ¬ end_used st p s e) →
  let rn := enable_ends sel b c (cs_net st) in
  ends rn !! e = ends (cs_net st) !! e ∧ connections rn !! e = connections (cs_net st) !! e ∧
  is_enabled e rn = is_enabled e (cs_net st).
Proof.
  intros Hok Hp Hc Hn rn. destruct (enable_ends_spec sel b c (cs_net st)) as (E1 & E2 & _ & E4).
  { intros s s' e' Hs Hs'. apply (ck_inj _ Hok p s p s' e'); (split; [done|]; eauto). }
  unfold rn. rewrite E1, E2, E4; [done|]. intros s Hs. apply (Hn s). split; eauto.
Qed.

Lemma delete_ends (l : list (string * string)) (rn : Net) :
  NoDup l.*2 → (∀ x, x ∈ l → is_Some (ends rn !! x.2)) →
  ∃ rn', for_each (λ x rn, DeleteEnd x.2 rn) l rn = Some rn' ∧ (∀ x, x ∈ l → ends rn' !! x.2 = None) ∧
    (∀ e, e ∉ l.*2 → ends rn' !! e = ends rn !! e ∧ connections rn' !! e = connections rn !! e ∧
       is_enabled e rn' = is_enabled e rn).
Proof.
  revert rn. induction l as [|[s e] l IH]; intros rn Hnd Hin; cbn [for_each].
  { exists rn. split; [done|]. split; [by intros x ?%elem_of_nil|done]. }
  rewrite fmap_cons in *. apply NoDup_cons in Hnd as [He Hnd]. cbn [snd] in He. destruct (Hin (s, e)) as [ce Hce]; [by left|]. cbn [snd] in *.
  assert (Ed : DeleteEnd e rn = Some (set_maps (delete e (ends rn)) (delete e (enabledEnds rn)) (servers rn) (delete e (connections rn)) rn))
    by (unfold DeleteEnd; by rewrite Hce).
  rewrite Ed. cbn [mbind option_bind].
  assert (Hne : ∀ x, x ∈ l → e ≠ x.2) by (intros x Hx ->; by apply He, list_elem_of_fmap_2).
  destruct (IH (set_maps (delete e (ends rn)) (delete e (enabledEnds rn)) (servers rn) (delete e (connections rn)) rn) Hnd)
    as (rn' & -> & H1 & H2).
  { intros x Hx. simpl. rewrite lookup_delete_ne by (by apply Hne). apply Hin. by right. }
  exists rn'. split; [done|]. split.
  - intros x [->|Hx]%elem_of_cons; [|by apply H1]. simpl. destruct (H2 e He) as [-> _]. simpl. apply lookup_delete_eq.
  - intros e' [Hee Hl]%not_elem_of_cons. destruct (H2 e' Hl) as (-> & -> & ->). unfold is_enabled. simpl.
    rewrite !lookup_delete_ne by done. done.
Qed.

(** Removing a client whose ends are there deletes these and nothing else. *)
Lemma remove_at st rn p :
  clnts_ok st → p ∈ live st → (∀ s e, end_used st p s e → is_Some (ends rn !! e)) →
  ∃ rn', remove p (mkClnts rn (objs st) (clerks st)) = Some (mkClnts rn' (objs st) (clerks st)) ∧
    (∀ s e, end_used st p s e → ends rn' !! e = None) ∧
    (∀ e, (∀ s, ¬ end_used st p s e) → ends rn' !! e = ends rn !! e ∧
       connections rn' !! e = connections rn !! e ∧ is_enabled e rn' = is_enabled e rn).
Proof.
  intros Hok Hp Hrn. destruct (ck_objs _ Hok p Hp) as [c Hc].
  assert (Hl : ∀ s e, (s, e) ∈ map_to_list (cl_ends c) ↔ end_used st p s e).
  { intros s e. rewrite elem_of_map_to_list. split; [intros He; split; eauto|]. by intros [_ (c' & ? & ?)]; simplify_eq. }
  destruct (delete_ends (map_to_list (cl_ends c)) rn) as (rn' & E & H1 & H2).
  { apply NoDup_fmap_2_strong; [|apply NoDup_map_to_list]. intros [s e] [s' e'] Hs%Hl Hs'%Hl Ee. simpl in Ee. subst e'.
    by destruct (ck_inj _ Hok p s p s' e) as [_ ->]. }
  { intros [s e] He%Hl. by apply (Hrn s e). }
  exists rn'. unfold remove. simpl. rewrite Hc. simpl. rewrite E. split; [done|]. split.
  - intros s e He%Hl. by apply (H1 (s, e)).
  - intros e He. apply H2. intros ([s' e'] & -> & Hin%Hl)%list_elem_of_fmap. by apply (He s').
Qed.

Lemma remove_ok st p :
  clnts_ok st → p ∈ live st →
  ∃ rn, remove p st = Some (mkClnts rn (objs st) (clerks st)) ∧
    (∀ s e, end_used st p s e → ends rn !! e = None) ∧
    (∀ q s e, q ≠ p → end_used st q s e → ends rn !! e = ends (cs_net st) !! e ∧
       connections rn !! e = connections (cs_net st) !! e ∧ is_enabled e rn = is_enabled e (cs_net st)).
Proof.
  intros Hok Hp. destruct (remove_at st (cs_net st) p Hok Hp) as (rn & E & H1 & H2).
  { intros s e He. by apply (ck_end _ Hok p s e). }
  exists rn. destruct st. split; [done|]. split; [done|]. intros q s e Hq He. apply H2. intros s' He'.
  by destruct (ck_inj _ Hok q s p s' e).
Qed.

Lemma MakeClientTo_used p srvs st st' q s e :
  MakeClientTo p srvs st = Some st' → end_used st' q s e → q ≠ p ∧ end_used st q s e ∧ objs st' !! q = objs st !! q.
Proof.
  unfold MakeClientTo. destruct (objs st !! p) eqn:Hp; [done|]. destruct (clerks st) as [ck|] eqn:Ek; [|done].
  intros [= <-] [Hq (c & Hc & He)]. simpl in *.
  apply lookup_insert_Some in Hc as [[<- <-]|[Hqp Hc]]; [unfold makeClntTo in He; simpl in He; by rewrite lookup_empty in He|].
  split; [done|]. split; [|by rewrite lookup_insert_ne]. split; [|by eauto]. unfold live in *. simpl in *. rewrite Ek.
  by apply elem_of_union in Hq as [?%elem_of_singleton|?].
Qed.

Lemma used_not_fresh st e0 : clnts_ok st → ends (cs_net st) !! e0 = None → ∀ p s e, end_used st p s e → e ≠ e0.
Proof. intros Hok Hno p s e [[x Hx] _]%(ck_end _ Hok) ->. congruence. Qed.

(** A new end is not in use; it leads to the server, and is enabled if that is allowed. *)
Lemma makeEnd_new p s rand st st' e c :
  clnts_ok st → objs st !! p = Some c → cl_ends c !! s = None → makeEnd p s rand st = Some (st', e) →
  e = rand ∧ live st' = live st ∧ ends (cs_net st) !! rand = None ∧
  objs st' = <[p := mkClnt (<[s := rand]> (cl_ends c)) (cl_srvs c)]> (objs st) ∧
  is_Some (ends (cs_net st') !! rand) ∧ connections (cs_net st') !! rand = Some (Some s) ∧
  is_enabled rand (cs_net st') = allowedL s c ∧
  (∀ e', e' ≠ rand → ends (cs_net st') !! e' = ends (cs_net st) !! e' ∧
     connections (cs_net st') !! e' = connections (cs_net st) !! e' ∧ is_enabled e' (cs_net st') = is_enabled e' (cs_net st)).
Proof.
  intros Hok Hc Hs. unfold makeEnd. rewrite Hc. simpl. rewrite Hs. unfold MakeEnd.
  destruct (ends (cs_net st) !! rand) eqn:Er; simpl; [done|]. intros [= <- <-].
  assert (En : (if allowedL s c then Enable rand true else Enable rand false) = Enable (name := string) rand (allowedL s c)) by (by destruct (allowedL s c)).
  split; [done|]. split; [done|]. split; [done|]. split; [done|].
  cbn [cs_net]. destruct (allowedL s c); simpl; unfold is_enabled; simpl; rewrite !lookup_insert_eq;
    (split; [by eexists|]; split; [done|]; split; [done|]); intros e' He'; by rewrite !lookup_insert_ne by done.
Qed.

Lemma makeEnd_used st st' p s rand c q s' e :
  live st' = live st → objs st' = <[p := mkClnt (<[s := rand]> (cl_ends c)) (cl_srvs c)]> (objs st) → objs st !! p = Some c →
  end_used st' q s' e → (q = p ∧ s' = s ∧ e = rand) ∨ end_used st q s' e.
Proof.
  intros El Eo Hc [Hq (c' & Hc' & He)]. rewrite El in Hq. rewrite Eo in Hc'.
  apply lookup_insert_Some in Hc' as [[<- <-]|[Hqp Hc']]; [|right; split; eauto].
  simpl in He. apply lookup_insert_Some in He as [[<- <-]|[Hne He]]; [by left|right; split; eauto].
Qed.

(** What the events do, for all clients but the one deleted. *)
Lemma clnts_step_ok ev st st' : clnts_ok st → clnts_step ev st st' → clnts_ok st'.
Proof.
  intros Hok Hstep. destruct Hstep as [ev st st' Hl Hdo|st rn Hr].
  2: { apply (clnts_ok_same st); try done; [intros p Hp; split; [done|by apply (ck_objs _ Hok)]|].
       intros p s e He. destruct (Hr p s e He) as (? & ? & _). done. }
  destruct ev as [p srvs|p s rand|p|p srvs|p srv|p|p]; simpl in *;
    try (pose proof (Hl p eq_refl) as Hp; destruct (ck_objs _ Hok p Hp) as [c Hc]).
  - split.
    + intros q Hq. unfold MakeClientTo in Hdo. destruct (objs st !! p); [done|]. destruct (clerks st) as [ck|] eqn:Ek; [|done].
      injection Hdo as <-. simpl. destruct (decide (q = p)) as [->|Hqp]; [rewrite lookup_insert_eq; eauto|].
      rewrite lookup_insert_ne by done. apply (ck_objs _ Hok). unfold live in *. simpl in Hq. rewrite Ek.
      by apply elem_of_union in Hq as [?%elem_of_singleton|?].
    + intros q s e (_ & He & _)%(MakeClientTo_used p srvs st); [|done]. replace (cs_net st') with (cs_net st); [by apply (ck_end _ Hok q)|].
      unfold MakeClientTo in Hdo. repeat case_match; simplify_eq/=; done.
    + intros q s q' s' e (_ & He & _)%(MakeClientTo_used p srvs st) (_ & He' & _)%(MakeClientTo_used p srvs st); [|done..].
      by apply (ck_inj _ Hok q s q' s' e).
  - destruct (makeEnd p s rand st) as [[st1 e0]|] eqn:Em; simpl in Hdo; [|done]. injection Hdo as <-.
    destruct (cl_ends c !! s) as [e1|] eqn:Es.
    { unfold makeEnd in Em. rewrite Hc in Em. simpl in Em. rewrite Es in Em. by injection Em as <- <-. }
    destruct (makeEnd_new p s rand st st1 e0 c Hok Hc Es Em) as (_ & El & Hno & Eo & H1 & H2 & _ & Hold).
    pose proof (used_not_fresh st rand Hok Hno) as Hfresh.
    split.
    + intros q Hq. rewrite Eo. destruct (decide (q = p)) as [->|Hqp]; [rewrite lookup_insert_eq; eauto|].
      rewrite lookup_insert_ne by done. apply (ck_objs _ Hok). by rewrite <- El.
    + intros q s' e [(-> & -> & ->)|He]%(makeEnd_used st st1 p s rand c); [done| |done..].
      destruct (Hold e (Hfresh q s' e He)) as (-> & -> & _). by apply (ck_end _ Hok q).
    + intros q s1 q' s2 e [(-> & -> & ->)|He]%(makeEnd_used st st1 p s rand c) [(-> & -> & E)|He']%(makeEnd_used st st1 p s rand c); try done.
      * by destruct (Hfresh q' s2 rand He').
      * subst. by destruct (Hfresh q s1 rand He).
      * by apply (ck_inj _ Hok q s1 q' s2 e).
  - unfold ConnectAll in Hdo. rewrite Hc in Hdo. injection Hdo as <-. by apply (rewire_ok st p c).
  - unfold ConnectTo in Hdo. rewrite Hc in Hdo. injection Hdo as <-. by apply (rewire_ok st p c (mkClnt (cl_ends c) srvs)).
  - unfold Disconnect in Hdo. rewrite Hc in Hdo. injection Hdo as <-.
    rewrite <- (insert_id (objs st) p c Hc). by apply (rewire_ok st p c).
  - unfold DisconnectAll in Hdo. rewrite Hc in Hdo. injection Hdo as <-. by apply (rewire_ok st p c).
  - unfold DeleteClient in Hdo. rewrite decide_True in Hdo by done. destruct (remove_ok st p Hok Hp) as (rn & E & H1 & H2).
    rewrite E in Hdo. simpl in Hdo. injection Hdo as <-.
    assert (Hlv : ∀ q, q ∈ live (mkClnts rn (objs st) ((λ ck, ck ∖ {[p]}) <$> clerks st)) → q ∈ live st ∧ q ≠ p).
    { intros q. unfold live. simpl. destruct (clerks st) as [ck|]; simpl; [|done]. intros [? Hq]%elem_of_difference.
      split; [done|]. intros ->. by apply Hq, elem_of_singleton. }
    apply (clnts_ok_same st); try done.
    + intros q [Hq _]%Hlv. split; [done|by apply (ck_objs _ Hok)].
    + intros q s e [[Hq _]%Hlv He]. by split.
    + intros q s e [[Hq Hqp]%Hlv He]. destruct (H2 q s e Hqp) as (? & ? & _); [by split|done].
Qed.

Lemma clnts_run_ok rn evs st : clnts_run rn evs st → clnts_ok st.
Proof.
  induction 1 as [|evs ev st st' _ IH Hstep]; [|by eapply clnts_step_ok].
  split; simpl; [by intros p ?|by intros p s e [? _]|by intros p s p' s' e [? _]].
Qed.

(** The tester's two operations that do not keep the client's ends and its list of
    servers together. *)
Definition plain (p : nat) (ev : option ClEvent) : bool :=
  match ev with
  | Some (CConnectTo q _) | Some (CDisconnect q _) => negb (bool_decide (p = q))
  | _ => true
  end.

Lemma clnts_step_obeys ev st st' p : clnts_ok st → clnts_step ev st st' → plain p ev = true → obeys st p → obeys st' p.
Proof.
  intros Hok Hstep Hpl Hob. destruct Hstep as [ev st st' Hl Hdo|st rn Hr].
  2: { intros c s e Hc He. destruct (Hr p s e He) as (_ & _ & Hen). simpl. rewrite Hen. by apply Hob. }
  assert (Hframe : (∀ s e, end_used st' p s e → end_used st p s e ∧ objs st' !! p = objs st !! p ∧
      is_enabled e (cs_net st') = is_enabled e (cs_net st)) → obeys st' p).
  { intros H c s e Hc He. destruct (H s e He) as (He' & Eo & ->). apply Hob; [by rewrite <- Eo|done]. }
  destruct ev as [q srvs|q s rand|q|q srvs|q srv|q|q]; simpl in *;
    try (pose proof (Hl q eq_refl) as Hq; destruct (ck_objs _ Hok q Hq) as [c0 Hc0]).
  - apply Hframe. intros s e (Hqp & He & Eo)%(MakeClientTo_used q srvs st); [|done]. split_and!; [done|done|].
    unfold MakeClientTo in Hdo. repeat case_match; simplify_eq/=; done.
  - destruct (makeEnd q s rand st) as [[st1 e0]|] eqn:Em; simpl in Hdo; [|done]. injection Hdo as <-.
    destruct (cl_ends c0 !! s) as [e1|] eqn:Es.
    { unfold makeEnd in Em. rewrite Hc0 in Em. simpl in Em. rewrite Es in Em. by injection Em as <- <-. }
    destruct (makeEnd_new q s rand st st1 e0 c0 Hok Hc0 Es Em) as (_ & El & Hno & Eo & _ & _ & Hen & Hold).
    pose proof (used_not_fresh st rand Hok Hno) as Hfresh.
    intros c s' e Hc [(-> & -> & ->)|He]%(makeEnd_used st st1 q s rand c0); [| |done..].
    + rewrite Hen. rewrite Eo, lookup_insert_eq in Hc. by injection Hc as <-.
    + destruct (Hold e (Hfresh p s' e He)) as (_ & _ & ->). rewrite Eo in Hc.
      apply lookup_insert_Some in Hc as [[<- <-]|[_ Hc]]; [exact (Hob c0 s' e Hc0 He)|by apply Hob].
  - unfold ConnectAll in Hdo. rewrite Hc0 in Hdo. injection Hdo as <-.
    destruct (rewire_ok st q c0 (mkClnt (cl_ends c0) None) (λ _, true) true Hok Hq Hc0 eq_refl) as (_ & Hu & H1 & H2).
    intros c s e Hc He%Hu. destruct (decide (p = q)) as [->|Hpq].
    + rewrite (H1 s e He). simpl in Hc. rewrite lookup_insert_eq in Hc. by injection Hc as <-.
    + rewrite (H2 p s e Hpq He). apply Hob; [|done]. simpl in Hc. by rewrite lookup_insert_ne in Hc by done.
  - unfold ConnectTo in Hdo. rewrite Hc0 in Hdo. injection Hdo as <-. case_bool_decide as Hpq; [done|].
    destruct (rewire_ok st q c0 (mkClnt (cl_ends c0) srvs) (λ s, allowedL s (mkClnt (cl_ends c0) srvs)) true Hok Hq Hc0 eq_refl) as (_ & Hu & _ & H2).
    apply Hframe. intros s e He%Hu. split_and!; [done|simpl; by rewrite lookup_insert_ne|by apply (H2 p s e)].
  - unfold Disconnect in Hdo. rewrite Hc0 in Hdo. injection Hdo as <-. case_bool_decide as Hpq; [done|].
    destruct (rewire_ok st q c0 c0 (λ s, bool_decide (s = srv)) false Hok Hq Hc0 eq_refl) as (_ & Hu & _ & H2).
    rewrite (insert_id (objs st) q c0 Hc0) in Hu, H2. apply Hframe. intros s e He%Hu. split_and!; [done|done|]. by apply (H2 p s e).
  - unfold DisconnectAll in Hdo. rewrite Hc0 in Hdo. injection Hdo as <-.
    destruct (rewire_ok st q c0 (mkClnt (cl_ends c0) (Some [])) (λ _, true) false Hok Hq Hc0 eq_refl) as (_ & Hu & H1 & H2).
    intros c s e Hc He%Hu. destruct (decide (p = q)) as [->|Hpq].
    + rewrite (H1 s e He). simpl in Hc. rewrite lookup_insert_eq in Hc. by injection Hc as <-.
    + rewrite (H2 p s e Hpq He). apply Hob; [|done]. simpl in Hc. by rewrite lookup_insert_ne in Hc by done.
  - unfold DeleteClient in Hdo. rewrite decide_True in Hdo by done. destruct (remove_ok st q Hok Hq) as (rn & E & H1 & H2).
    rewrite E in Hdo. simpl in Hdo. injection Hdo as <-. apply Hframe. intros s e [Hp He].
    assert (p ∈ live st ∧ p ≠ q) as [Hp' Hpq].
    { unfold live in *. simpl in Hp. destruct (clerks st) as [ck|]; simpl in *; [|done]. apply elem_of_difference in Hp as [? Hn].
      split; [done|]. intros ->. by apply Hn, elem_of_singleton. }
    split_and!; [by split|done|]. by destruct (H2 p s e Hpq) as (_ & _ & ?).
Qed.

Lemma clnts_run_obeys rn evs st p : clnts_run rn evs st → forallb (plain p) evs = true → obeys st p.
Proof.
  induction 1 as [|evs ev st st' Hrun IH Hstep]; [by intros _ c s e _ [? _]|].
  rewrite forallb_app. simpl. intros [Hevs [Hev _]%andb_true_iff]%andb_true_iff.
  apply (clnts_step_obeys ev st); [by eapply clnts_run_ok|done|done|auto].
Qed.

(** ** Properties *)

(** C29 (A client reaches the servers it may).  Whatever a test did with its clients,
    their ends and the rest of the network before: the end by which a client calls a
    server is registered, leads to that server and is no other client's and no other
    server's; and if the client was only ever connected and disconnected as a whole, a
    call gets through its end exactly if the server is on the client's list. *)
Theorem client_reaches_allowed rn evs st p c s rand st' e :
  clnts_run rn evs st → p ∈ live st → objs st !! p = Some c → makeEnd p s rand st = Some (st', e) →
  is_Some (ends (cs_net st') !! e) ∧ connected e (cs_net st') = Some s ∧
  (∀ p' s', end_used st' p' s' e → p' = p ∧ s' = s) ∧
  (forallb (plain p) evs = true → is_enabled e (cs_net st') = allowedL s c).
Proof.
  intros Hrun Hp Hc Hm.
  assert (Hrun' : clnts_run rn (evs ++ [Some (CEnd p s rand)]) st').
  { eapply run_next; [done|]. constructor; [by intros ? [= <-]|]. simpl. by rewrite Hm. }
  assert (Hu : end_used st' p s e ∧ cl_srvs <$> objs st' !! p = Some (cl_srvs c)).
  { unfold makeEnd in Hm. rewrite Hc in Hm. simpl in Hm. destruct (cl_ends c !! s) as [e0|] eqn:Es.
    - injection Hm as <- <-. split; [split; eauto|by rewrite Hc].
    - destruct (MakeEnd rand (cs_net st)) as [[rn1 ce]|]; simpl in Hm; [|done]. injection Hm as <- <-. split; [split; [done|]|].
      + simpl. rewrite lookup_insert_eq. eexists. split; [done|]. simpl. apply lookup_insert_eq.
      + simpl. by rewrite lookup_insert_eq. }
  destruct Hu as [Hu Hs]. pose proof (clnts_run_ok _ _ _ Hrun') as Hok. destruct (ck_end _ Hok p s e Hu) as [H1 H2].
  split_and!; [done|unfold connected; by rewrite H2| |].
  - intros p' s' Hu'. by apply (ck_inj _ Hok p' s' p s e).
  - intros Hpl. destruct (objs st' !! p) as [c'|] eqn:Hc'; simplify_eq/=.
    assert (Hob : obeys st' p) by (eapply clnts_run_obeys; [done|]; rewrite forallb_app, Hpl; done).
    rewrite (Hob c' s e Hc' Hu). unfold allowedL. by rewrite Hs.
Qed.

Lemma cleanup_ok st :
  clnts_ok st → ∃ st', cleanup st = Some st' ∧ clerks st' = None ∧ (∀ p s e, end_used st p s e → ends (cs_net st') !! e = None) ∧
    (∀ e, (∀ p s, ¬ end_used st p s e) → ends (cs_net st') !! e = ends (cs_net st) !! e).
Proof.
  intros Hok. pose (P := λ (l : list nat) st', ∃ rn', st' = mkClnts rn' (objs st) (clerks st) ∧
      (∀ p s e, p ∈ l → end_used st p s e → ends rn' !! e = None) ∧
      (∀ p s e, p ∉ l → end_used st p s e → ends rn' !! e = ends (cs_net st) !! e) ∧
      (∀ e, (∀ p s, ¬ end_used st p s e) → ends rn' !! e = ends (cs_net st) !! e)).
    destruct (for_each_ind P remove (elements (live st)) st) as (st' & E & rn' & -> & H1 & _ & H3).
  - exists (cs_net st). destruct st. split; [done|]. split; [by intros p s e ?%elem_of_nil|done].
  - intros l1 p l2 st1 El (rn1 & -> & H1 & H2 & H3). assert (Hnd : NoDup (l1 ++ p :: l2)) by (rewrite <- El; apply NoDup_elements).
      assert (Hp : p ∈ live st) by (apply elem_of_elements; rewrite El; apply elem_of_app; right; by left).
      assert (Hpl : p ∉ l1) by (apply NoDup_app in Hnd as (_ & H & _); intros Hx; apply (H p Hx); by left).
      destruct (remove_at st rn1 p Hok Hp) as (rn2 & E2 & G1 & G2).
      { intros s e He. rewrite (H2 p s e Hpl He). by apply (ck_end _ Hok p s e). }
      eexists. split; [done|]. exists rn2. split; [done|]. split_and!.
    + intros q s e Hq He. apply elem_of_app in Hq as [Hq|Hq%list_elem_of_singleton]; [|subst q; by apply (G1 s)].
        destruct (G2 e) as (-> & _); [|by apply (H1 q s)]. intros s' He'. destruct (ck_inj _ Hok q s p s' e He He') as [-> _]. done.
    + intros q s e Hq He. assert (q ≠ p) by (intros ->; apply Hq, elem_of_app; right; by left).
        destruct (G2 e) as (-> & _); [|apply (H2 q s); [|done]; intros Hx; apply Hq, elem_of_app; by left].
        intros s' He'. by destruct (ck_inj _ Hok q s p s' e He He').
    + intros e Hno. destruct (G2 e) as (-> & _); [by intros s'; apply Hno|by apply H3].
  - unfold cleanup. rewrite E. simpl. eexists. split; [done|]. split_and!; [done| |done]. simpl. intros p s e He. apply (H1 p s e); [|done].
      apply elem_of_elements. by destruct He.
Qed.

(** (Deleting clients).  DeleteClient and the clean-up at the end of a test never meet
    an end that is not there, and leave none of the clients' ends on the network. *)
Theorem clients_removed rn evs st :
  clnts_run rn evs st →
  (∀ p, p ∈ live st → ∃ st', DeleteClient p st = Some st' ∧ (p ∉ live st') ∧
     (∀ s e, end_used st p s e → ends (cs_net st') !! e = None)) ∧
  ∃ st', cleanup st = Some st' ∧ clerks st' = None ∧ (∀ p s e, end_used st p s e → ends (cs_net st') !! e = None).
Proof.
  intros Hok%clnts_run_ok. split.
  - intros p Hp. destruct (remove_ok st p Hok Hp) as (rn' & E & H1 & _). unfold DeleteClient. rewrite decide_True by done.
    rewrite E. simpl. eexists. split; [done|]. split; [|done]. unfold live. simpl.
    destruct (clerks st) as [ck|]; simpl; [|by intros ?%elem_of_empty]. intros [_ Hn]%elem_of_difference. by apply Hn, elem_of_singleton.
  - destruct (cleanup_ok st Hok) as (st' & E & H1 & H2 & _). eauto.
Qed.

(** ** Two ways not to be cut off *)

Definition two_clients : Clnts := default (makeClnts MakeNetwork)
  (st ← MakeClient 0 (makeClnts MakeNetwork); st ← fst <$> makeEnd 0 "a" "e0" st; MakeClientTo 1 (Some ["b"]) st).

Lemma two_clients_run : clnts_run MakeNetwork [Some (CMake 0 None); Some (CEnd 0 "a" "e0"); Some (CMake 1 (Some ["b"]))] two_clients.
Proof.
  apply (run_next _ [Some (CMake 0 None); Some (CEnd 0 "a" "e0")] _
    (default (makeClnts MakeNetwork) (st ← MakeClient 0 (makeClnts MakeNetwork); fst <$> makeEnd 0 "a" "e0" st)));
    [|by constructor; [|vm_compute; reflexivity]].
  apply (run_next _ [Some (CMake 0 None)] _ (default (makeClnts MakeNetwork) (MakeClient 0 (makeClnts MakeNetwork))));
    [|constructor; [intros ? [= <-]; vm_compute; reflexivity|vm_compute; reflexivity]].
  apply (run_next _ [] _ (makeClnts MakeNetwork)); [constructor|by constructor; [|vm_compute; reflexivity]].
Qed.

(** (ConnectTo does not disconnect).  ConnectTo is to allow connections to the given
    servers only, but an end to another server that is enabled stays enabled: the
    client goes on reaching it.  Disconnect disables an end that is there, and is
    forgotten when the client has not called the server yet. *)
Theorem client_not_cut_off :
  (∃ st c, ConnectTo 0 (Some ["b"]) two_clients = Some st ∧ objs st !! 0%nat = Some c ∧
     allowedL "a" c = false ∧ is_enabled "e0" (cs_net st) = true) ∧
  (∃ st st', Disconnect 0 "b" two_clients = Some st ∧ makeEnd 0 "b" "e1" st = Some (st', "e1") ∧
     is_enabled "e1" (cs_net st') = true).
Proof.
  split; [eexists _, _; split; [vm_compute; reflexivity|]; split; [vm_compute; reflexivity|]; split; vm_compute; reflexivity|].
  eexists _, _. split; [vm_compute; reflexivity|]. split; vm_compute; reflexivity.
Qed.

(** Client 1 may reach "b" only. *)
Lemma client_reaches_allowed_witness :
  ∃ st', makeEnd 1 "a" "e1" two_clients = Some (st', "e1") ∧ connected "e1" (cs_net st') = Some "a" ∧
    is_enabled "e1" (cs_net st') = false.
Proof.
  destruct (makeEnd 1 "a" "e1" two_clients) as [[st' e]|] eqn:E; [|vm_compute in E; discriminate E].
  assert (Ee : e = "e1") by (vm_compute in E; injection E as _ <-; reflexivity). subst e. exists st'. split; [reflexivity|].
  assert (Hp : 1%nat ∈ live two_clients) by (apply (bool_decide_eq_true_1 _); vm_compute; reflexivity).
  assert (Hc : objs two_clients !! 1%nat = Some (makeClntTo (Some ["b"]))) by (vm_compute; reflexivity).
  destruct (client_reaches_allowed _ _ _ 1 _ "a" "e1" st' "e1" two_clients_run Hp Hc E) as (_ & H2 & _ & H4).
  split; [exact H2|]. rewrite H4; vm_compute; reflexivity.
Defined.
