(* ===== verification/Config.v ===== *)
(** * tester1/config.go: groups and clients of a test on one network

    A test configuration is the network of Labrpc.v, the groups of servers of
    Group.v and the clients of Clnts.v on it, and the counters of the test.  The
    groups and the clients hold a pointer to the one network: an operation on a group
    runs on the network as the clients left it, and the other way around.  What each
    operation leaves alone ([grp_frame], [clnts_frame]) is what keeps groups and
    clients apart. *)

From S2P Require Import Prelude RaftUtil RaftNode Labrpc Group Clnts.
Local Open Scope Z_scope.
Local Open Scope go_scope.

Definition GRP0 : Z := 0.

Record Config := mkConfig {
  cfg_clnts : Clnts;                (* and the network *)
  grps : gmap Z ServerGrp;
  cfg_start : Z; t0 : Z; rpcs0 : Z; cfg_ops : Z
}.

Definition cfg_net (cfg : Config) : Net := cs_net (cfg_clnts cfg).

Definition set_cfg_net (rn : Net) (cfg : Config) : Config :=
  mkConfig (mkClnts rn (objs (cfg_clnts cfg)) (clerks (cfg_clnts cfg))) (grps cfg) (cfg_start cfg) (t0 cfg) (rpcs0 cfg) (cfg_ops cfg).
Definition set_clnts (st : Clnts) (cfg : Config) : Config :=
  mkConfig st (grps cfg) (cfg_start cfg) (t0 cfg) (rpcs0 cfg) (cfg_ops cfg).
Definition set_grps (gs : gmap Z ServerGrp) (cfg : Config) : Config :=
  mkConfig (cfg_clnts cfg) gs (cfg_start cfg) (t0 cfg) (rpcs0 cfg) (cfg_ops cfg).

(** ** Groups *)

(** The group [g] as it is, on the network as it is. *)
Definition lookupGroup (g : Z) (cfg : Config) : option ServerGrp := Group.set_net (cfg_net cfg) <$> grps cfg !! g.
Definition put_group (g : Z) (sg : ServerGrp) (cfg : Config) : Config :=
  set_cfg_net (Group.net sg) (set_grps (<[g := sg]> (grps cfg)) cfg).

Definition MakeGroup (g n : Z) (rand : Z → Z → string) (cfg : Config) : option Config :=
  sg ← makeSrvGrp (cfg_net cfg) g n rand; Some (put_group g sg cfg).

Definition on_group (g : Z) (f : ServerGrp → option ServerGrp) (cfg : Config) : option Config :=
  sg ← lookupGroup g cfg; sg ← f sg; Some (put_group g sg cfg).

Definition MakeGroupStart (g n : Z) (rand : Z → Z → string) (rand' : Z → Z → string) (labsrv : Z → nat) (cfg : Config)
    : option Config :=
  cfg ← MakeGroup g n rand cfg; on_group g (StartServers rand' labsrv) cfg.

Definition ExitGroup (g : Z) (cfg : Config) : option Config :=
  cfg ← on_group g Shutdown cfg; Some (set_grps (delete g (grps cfg)) cfg).

Definition MakeConfig (n : Z) (rel : bool) (rand rand' : Z → Z → string) (labsrv : Z → nat) (now : Z) : option Config :=
  let cfg := mkConfig (mkClnts MakeNetwork ∅ None) ∅ 0 0 0 0 in
  cfg ← MakeGroupStart GRP0 n rand rand' labsrv cfg;
  let cfg := mkConfig (makeClnts (cfg_net cfg)) (grps cfg) now (t0 cfg) (rpcs0 cfg) (cfg_ops cfg) in
  Some (set_cfg_net (Reliable rel (cfg_net cfg)) cfg).

Definition SetReliable (rel : bool) (cfg : Config) : Config := set_cfg_net (Reliable rel (cfg_net cfg)) cfg.
Definition SetLongReordering (longrel : bool) (cfg : Config) : Config := set_cfg_net (LongReordering longrel (cfg_net cfg)) cfg.
Definition SetLongDelays (longdel : bool) (cfg : Config) : Config := set_cfg_net (LongDelays longdel (cfg_net cfg)) cfg.

(** ** The counters of a test *)

Definition RpcTotal (cfg : Config) : Z := GetTotalCount (cfg_net cfg).

(** The line [Begin] prints, and the configuration. *)
Definition Begin (description : string) (now : Z) (cfg : Config) : string * Config :=
  let rel := if IsReliable (cfg_net cfg) then "reliable" else "unreliable" in
  (description +:+ " (" +:+ rel +:+ " network)...",
   mkConfig (cfg_clnts cfg) (grps cfg) (cfg_start cfg) now (RpcTotal cfg) 0).

(** A failed test is not failed again.  Times are in nanoseconds. *)
Definition CheckTimeout (now : Z) (failed : bool) (cfg : Config) : option string :=
  if negb failed && (120 * 1000000000 <? now - cfg_start cfg) then Some "test took longer than 120 seconds" else None.

(** The test fails with a message, or [End] reports the time, the peers, the RPCs and the
    operations since [Begin], if the test has not failed already. *)
Definition End (now : Z) (failed : bool) (cfg : Config) : option (string + option (Z * Z * Z * Z)) :=
  match CheckTimeout now failed cfg with
  | Some msg => Some (inl msg)
  | None =>
      if failed then Some (inr None)
      else sg ← lookupGroup GRP0 cfg; Some (inr (Some (now - t0 cfg, N sg, RpcTotal cfg - rpcs0 cfg, cfg_ops cfg)))
  end.

(** The services that are told to stop and the annotations are not part of the
    configuration; [None] is the panic of a second close of the network, or an end of a
    client that is not there. *)
Definition Cleanup (now : Z) (failed : bool) (cfg : Config) : option (Config * option string) :=
  st ← cleanup (cfg_clnts cfg);
  rn ← Labrpc.Cleanup (cs_net st);
  let cfg := set_cfg_net rn (set_clnts st cfg) in
  Some (cfg, CheckTimeout now failed cfg).

(** ** What an operation on a group leaves alone *)

Definition grp_frame (sg sg' : ServerGrp) : Prop :=
  ∀ e, is_Some (ends (Group.net sg) !! e) → (∀ i j, end_of sg i j ≠ Some e) →
    ends (Group.net sg') !! e = ends (Group.net sg) !! e ∧
    connections (Group.net sg') !! e = connections (Group.net sg) !! e ∧
    is_enabled e (Group.net sg') = is_enabled e (Group.net sg) ∧ (∀ i j, end_of sg' i j ≠ Some e).

Lemma grp_frame_refl sg : grp_frame sg sg.
Proof. intros e He Hn. done. Qed.

Lemma grp_frame_trans sg1 sg2 sg3 : grp_frame sg1 sg2 → grp_frame sg2 sg3 → grp_frame sg1 sg3.
Proof.
  intros H12 H23 e He Hn. destruct (H12 e He Hn) as (E1 & E2 & E3 & Hn2).
  destruct (H23 e) as (F1 & F2 & F3 & Hn3); [by rewrite E1|done|]. rewrite F1, F2, F3. done.
Qed.

Lemma frame_each {A} (f : A → ServerGrp → option ServerGrp) l sg sg' :
  (∀ x sg sg', f x sg = Some sg' → grp_frame sg sg') → for_each f l sg = Some sg' → grp_frame sg sg'.
Proof.
  intros Hf. apply (for_each_keeps (grp_frame sg)); [|apply grp_frame_refl].
  intros x s s' Hs E. by eapply grp_frame_trans, Hf.
Qed.

Lemma enable_frame i j b sg sg' : enable i j b sg = Some sg' → grp_frame sg sg'.
Proof.
  unfold enable. destruct (end_of sg i j) as [e0|] eqn:E0; simpl; [|done]. intros [= <-] e He Hn.
  assert (e0 ≠ e) by (intros ->; by apply (Hn i j)). split_and!; try done. unfold is_enabled. simpl. by rewrite lookup_insert_ne.
Qed.

Lemma wire_frame (i j : Z → Z) l sg sg' :
  for_each (λ x sg, c ← IsConnected x sg; if (c : bool) then enable (i x) (j x) true sg else Some sg) l sg = Some sg' →
  grp_frame sg sg'.
Proof.
  apply frame_each. intros x s s'. destruct (IsConnected x s) as [[|]|]; simpl; [apply enable_frame|intros [= <-]; apply grp_frame_refl|done].
Qed.

Lemma connect_frame i to sg sg' : connect i to sg = Some sg' → grp_frame sg sg'.
Proof.
  unfold connect. destruct (go_store _ i true) as [con|]; simpl; [|done].
  destruct (srv_connect i to _) as [sg1|] eqn:E1; simpl; [|done]. intros E2.
  apply (grp_frame_trans _ (set_connected con sg)); [done|]. eapply grp_frame_trans; [by apply (wire_frame (λ _, i) (λ j, j)) in E1|].
  by apply (wire_frame (λ j, j) (λ _, i)) in E2.
Qed.

Lemma disconnect_frame i from sg sg' : disconnect i from sg = Some sg' → grp_frame sg sg'.
Proof.
  unfold disconnect. destruct (go_store _ i false) as [con|]; simpl; [|done].
  destruct (srv_disconnect i from _) as [sg1|] eqn:E1; simpl; [|done]. intros E2.
  apply (grp_frame_trans _ (set_connected con sg)); [done|]. eapply grp_frame_trans; (eapply frame_each; [|eassumption]);
    intros x s s'; apply enable_frame.
Qed.

(** Making the ends of a server leaves those that are there alone. *)
Definition net_frame (rn rn' : Net) : Prop :=
  ∀ e, is_Some (ends rn !! e) → ends rn' !! e = ends rn !! e ∧ connections rn' !! e = connections rn !! e ∧
    is_enabled e rn' = is_enabled e rn.

Lemma net_frame_trans rn1 rn2 rn3 : net_frame rn1 rn2 → net_frame rn2 rn3 → net_frame rn1 rn3.
Proof. intros H12 H23 e He. destruct (H12 e He) as (E1 & E2 & E3). destruct (H23 e) as (-> & -> & ->); [by rewrite E1|done]. Qed.

Lemma makeServer_frame nsrv rand g rn rn' s : makeServer nsrv rand g rn = Some (rn', s) → net_frame rn rn'.
Proof.
  unfold makeServer. destruct (for_each _ (seqZ 0 nsrv) rn) as [rn1|] eqn:E; simpl; [|done]. intros [= <- _].
  eapply (for_each_keeps (net_frame rn)); [| |exact E]; [|by intros e He].
  intros j r r' Hr Hb. eapply net_frame_trans; [exact Hr|]. unfold MakeEnd in Hb.
  destruct (ends r !! rand j) eqn:Ej; simpl in Hb; [done|]. injection Hb as <-. intros e [x Hx].
  assert (rand j ≠ e) by congruence. unfold is_enabled. simpl. by rewrite !lookup_insert_ne.
Qed.

Lemma StartServer_frame i rand p sg sg' : StartServer i rand p sg = Some sg' → grp_frame sg sg'.
Proof.
  unfold StartServer, startServer. destruct ((srvs sg).[i]) as [s|] eqn:Hs; simpl; [|done].
  generalize (go_len (endNames s)). intros n.
  destruct (makeServer n rand (gid sg) (Group.net sg)) as [[rn srv]|] eqn:Em; simpl; [|done]. intros [= <-] e He Hn.
  destruct (makeServer_frame _ _ _ _ _ _ Em e He) as (E1 & E2 & E3). split_and!; try done.
  destruct (makeServer_spec _ _ _ _ _ _ Em) as (En & Hnew & _ & _).
  intros a c (x & Hx & Hc)%end_of_Some. simpl in Hx. rewrite (go_index_insert _ _ _ s) in Hx by done. case_decide as Ea.
  - injection Hx as <-. simpl in Hc. rewrite En in Hc. pose proof (go_index_Some_range _ _ _ Hc) as Hr.
    unfold go_len in Hr. rewrite length_fmap, length_seqZ in Hr. rewrite go_index_lookup, list_lookup_fmap, lookup_seqZ_lt in Hc by lia.
    simpl in Hc. injection Hc as <-. destruct (Hnew (0 + Z.of_nat (Z.to_nat c))) as [Hno _]; [lia|]. destruct He as [y Hy]. congruence.
  - apply (Hn a c). apply end_of_Some. eauto.
Qed.

Lemma ShutdownServer_frame i sg sg' : ShutdownServer i sg = Some sg' → grp_frame sg sg'.
Proof.
  unfold ShutdownServer. destruct (disconnect i (all sg) sg) as [sg1|] eqn:E; simpl; [|done].
  apply disconnect_frame in E. destruct ((srvs sg1).[i]) as [s|] eqn:Hs; simpl; [|done]. intros [= <-].
  eapply grp_frame_trans; [exact E|]. intros e He Hn. split_and!; try done.
  intros a c (x & Hx & Hc)%end_of_Some. simpl in Hx. rewrite (go_index_insert _ _ _ s) in Hx by done.
  apply (Hn a c), end_of_Some. case_decide; [injection Hx as <-; subst; eauto|eauto].
Qed.

Lemma Partition_frame p1 p2 sg sg' : Partition p1 p2 sg = Some sg' → grp_frame sg sg'.
Proof.
  assert (Hc : ∀ p q sg sg', cut_off p q sg = Some sg' → grp_frame sg sg').
  { intros p q s s'. apply frame_each. intros x u u'. destruct (disconnect x q u) as [u1|] eqn:E; simpl; [|done]. intros E'.
    eapply grp_frame_trans; [by eapply disconnect_frame|by eapply connect_frame]. }
  unfold Partition. destruct (cut_off p1 p2 sg) as [sg1|] eqn:E; simpl; [|done]. intros E'.
  eapply grp_frame_trans; by eapply Hc.
Qed.

Lemma grp_step_frame ev sg sg' : grp_step ev sg = Some sg' → grp_frame sg sg'.
Proof.
  destruct ev as [i to| |i from|i rand p|i|p1 p2]; simpl;
    [apply connect_frame|apply frame_each; intros x s s'; apply connect_frame|apply disconnect_frame|apply StartServer_frame|
     apply ShutdownServer_frame|apply Partition_frame].
Qed.

(** ** What an operation on a client leaves alone *)

Lemma clnts_frame ev st st' e :
  clnts_ok st → (∀ p, user ev = Some p → p ∈ live st) → clnts_do ev st = Some st' →
  is_Some (ends (cs_net st) !! e) → (∀ p s, ¬ end_used st p s e) →
  ends (cs_net st') !! e = ends (cs_net st) !! e ∧ connections (cs_net st') !! e = connections (cs_net st) !! e ∧
  is_enabled e (cs_net st') = is_enabled e (cs_net st) ∧ ∀ p s, ¬ end_used st' p s e.
Proof.
  intros Hok Hl Hdo He Hn. destruct ev as [p srvs|p s rand|p|p srvs|p srv|p|p]; simpl in *;
    try (pose proof (Hl p eq_refl) as Hp; destruct (ck_objs _ Hok p Hp) as [c Hc]).
  - assert (cs_net st' = cs_net st) as -> by (unfold MakeClientTo in Hdo; repeat case_match; simplify_eq/=; done).
    split_and!; try done. intros q s (_ & Hu & _)%(MakeClientTo_used p srvs st); [by apply (Hn q s)|done].
  - destruct (makeEnd p s rand st) as [[st1 e0]|] eqn:Em; simpl in Hdo; [|done]. injection Hdo as <-.
    destruct (cl_ends c !! s) as [e1|] eqn:Es.
    { unfold makeEnd in Em. rewrite Hc in Em. simpl in Em. rewrite Es in Em. by injection Em as <- <-. }
    destruct (makeEnd_new p s rand st st1 e0 c Hok Hc Es Em) as (_ & El & Hno & Eo & _ & _ & _ & Hold).
    assert (Hne : e ≠ rand) by (intros ->; destruct He; congruence). destruct (Hold e Hne) as (E1 & E2 & E3). split_and!; try done.
    intros q s' [(_ & _ & ->)|Hu]%(makeEnd_used st st1 p s rand c); [done|by apply (Hn q s')|done..].
  - unfold ConnectAll in Hdo. rewrite Hc in Hdo. injection Hdo as <-.
    destruct (rewire_ok st p c (mkClnt (cl_ends c) None) (λ _, true) true Hok Hp Hc eq_refl) as (_ & Hu & _).
    destruct (rewire_frame st p c (λ _, true) true e Hok Hp Hc (Hn p)) as (E1 & E2 & E3). split_and!; try done. by intros q s Hq%Hu%Hn.
  - unfold ConnectTo in Hdo. rewrite Hc in Hdo. injection Hdo as <-.
    destruct (rewire_ok st p c (mkClnt (cl_ends c) srvs) (λ s, allowedL s (mkClnt (cl_ends c) srvs)) true Hok Hp Hc eq_refl) as (_ & Hu & _).
    destruct (rewire_frame st p c (λ s, allowedL s (mkClnt (cl_ends c) srvs)) true e Hok Hp Hc (Hn p)) as (E1 & E2 & E3).
    split_and!; try done. by intros q s Hq%Hu%Hn.
  - unfold Disconnect in Hdo. rewrite Hc in Hdo. injection Hdo as <-.
    destruct (rewire_frame st p c (λ s, bool_decide (s = srv)) false e Hok Hp Hc (Hn p)) as (E1 & E2 & E3). by split_and!.
  - unfold DisconnectAll in Hdo. rewrite Hc in Hdo. injection Hdo as <-.
    destruct (rewire_ok st p c (mkClnt (cl_ends c) (Some [])) (λ _, true) false Hok Hp Hc eq_refl) as (_ & Hu & _).
    destruct (rewire_frame st p c (λ _, true) false e Hok Hp Hc (Hn p)) as (E1 & E2 & E3). split_and!; try done. by intros q s Hq%Hu%Hn.
  - unfold DeleteClient in Hdo. rewrite decide_True in Hdo by done.
    destruct (remove_at st (cs_net st) p Hok Hp) as (rn & E & _ & H2). { intros s e' He'. by apply (ck_end _ Hok p s e'). }
    replace (mkClnts (cs_net st) (objs st) (clerks st)) with st in E by (by destruct st). rewrite E in Hdo. simpl in Hdo. injection Hdo as <-.
    destruct (H2 e (Hn p)) as (E1 & E2 & E3). split_and!; try done. intros q s [Hq Hu]. apply (Hn q s). split; [|done].
    unfold live in *. simpl in Hq. destruct (clerks st); simpl in *; [|done]. by apply elem_of_difference in Hq as [? _].
Qed.

(** ** Runs of a configuration *)

Inductive CfgEvent :=
  | CfMake (g n : Z) (rand : Z → Z → string)
  | CfGroup (g : Z) (ev : GrpEvent)
  | CfExit (g : Z)
  | CfClient (ev : ClEvent)
  | CfReliable (rel : bool)
  | CfReordering (longrel : bool)
  | CfDelays (longdel : bool).

Definition cfg_do (ev : CfgEvent) (cfg : Config) : option Config :=
  match ev with
  | CfMake g n rand => if decide (0 ≤ n) then MakeGroup g n rand cfg else None
  | CfGroup g ev => on_group g (grp_step ev) cfg
  | CfExit g => ExitGroup g cfg
  | CfClient ev => st ← clnts_do ev (cfg_clnts cfg); Some (set_clnts st cfg)
  | CfReliable rel => Some (SetReliable rel cfg)
  | CfReordering longrel => Some (SetLongReordering longrel cfg)
  | CfDelays longdel => Some (SetLongDelays longdel cfg)
  end.

Definition same_ends (rn rn' : Net) : Prop :=
  ends rn' = ends rn ∧ connections rn' = connections rn ∧ enabledEnds rn' = enabledEnds rn.

(** The calls that go on count, and servers come and go; they leave the ends alone. *)
Inductive cfg_step : option CfgEvent → Config → Config → Prop :=
  | cfg_op ev cfg cfg' : (∀ cev p, ev = CfClient cev → user cev = Some p → p ∈ live (cfg_clnts cfg)) →
      cfg_do ev cfg = Some cfg' → cfg_step (Some ev) cfg cfg'
  | cfg_calls rn cfg : same_ends (cfg_net cfg) rn → cfg_step None cfg (set_cfg_net rn cfg).

(** A test before its first group and client; MakeConfig goes on from here. *)
Definition cfg_init (now : Z) : Config := mkConfig (makeClnts MakeNetwork) ∅ now 0 0 0.

Inductive cfg_reachable : Config → Prop :=
  | cfg_start_at now : cfg_reachable (cfg_init now)
  | cfg_next ev cfg cfg' : cfg_reachable cfg → cfg_step ev cfg cfg' → cfg_reachable cfg'.

Record config_ok (cfg : Config) : Prop := {
  co_clnts : clnts_ok (cfg_clnts cfg);
  co_group g sg : lookupGroup g cfg = Some sg → ∃ n, grp_ok n sg;
  co_apart g sg i j e p s : lookupGroup g cfg = Some sg → end_of sg i j = Some e → ¬ end_used (cfg_clnts cfg) p s e;
  co_groups g sg i j g' sg' i' j' e : lookupGroup g cfg = Some sg → end_of sg i j = Some e →
    lookupGroup g' cfg = Some sg' → end_of sg' i' j' = Some e → g = g'
}.

Lemma end_of_net rn sg i j : end_of (Group.set_net rn sg) i j = end_of sg i j.
Proof. done. Qed.

Lemma lookupGroup_Some g cfg sg :
  lookupGroup g cfg = Some sg ↔ ∃ sg0, grps cfg !! g = Some sg0 ∧ sg = Group.set_net (cfg_net cfg) sg0.
Proof. unfold lookupGroup. rewrite fmap_Some. done. Qed.

(** The network changes in a way that keeps all ends: clients and groups are as they were. *)
Lemma config_net cfg rn :
  config_ok cfg → (∀ e, (∃ p s, end_used (cfg_clnts cfg) p s e) ∨ (∃ g sg i j, lookupGroup g cfg = Some sg ∧ end_of sg i j = Some e) →
    ends rn !! e = ends (cfg_net cfg) !! e ∧ connections rn !! e = connections (cfg_net cfg) !! e) →
  config_ok (set_cfg_net rn cfg).
Proof.
  intros [H1 H2 H3 H4] Hrn.
  assert (Hl : ∀ g sg, lookupGroup g (set_cfg_net rn cfg) = Some sg → ∃ sg0, lookupGroup g cfg = Some sg0 ∧ sg = Group.set_net rn sg0).
  { intros g sg (sg0 & E & ->)%lookupGroup_Some. exists (Group.set_net (cfg_net cfg) sg0). split; [|done]. apply lookupGroup_Some. eauto. }
  split.
  - apply (clnts_ok_same (cfg_clnts cfg)); try done; [intros p Hp; split; [done|by apply (ck_objs _ H1)]|].
    intros p s e He. apply Hrn. left. by exists p, s.
  - intros g sg (sg0 & E & ->)%Hl. destruct (H2 g sg0 E) as (n & Hok). exists n.
    destruct Hok as [K1 K2 K3 K4 K5]. constructor; try done. intros i j e He. rewrite end_of_net in He. simpl.
    destruct (Hrn e) as [-> ->]; [right; by exists g, sg0, i, j|]. destruct (lookupGroup_Some g cfg sg0) as [(x & _ & Ex) _]; [done|].
    pose proof (K4 i j e He) as Hk. rewrite Ex in Hk. simpl in Hk. by rewrite Ex.
  - intros g sg i j e p s (sg0 & E & ->)%Hl He. apply (H3 g sg0 i j e p s E He).
  - intros g sg i j g' sg' i' j' e (sg0 & E & ->)%Hl He (sg0' & E' & ->)%Hl He'. by apply (H4 g sg0 i j g' sg0' i' j' e).
Qed.

(** The group [g] is put in place, having left the ends of the others alone. *)
Lemma config_put cfg g sg n :
  config_ok cfg → grp_ok n sg →
  (∀ e, (∃ p s, end_used (cfg_clnts cfg) p s e) ∨ (∃ g' sg' i j, g' ≠ g ∧ lookupGroup g' cfg = Some sg' ∧ end_of sg' i j = Some e) →
    ends (Group.net sg) !! e = ends (cfg_net cfg) !! e ∧ connections (Group.net sg) !! e = connections (cfg_net cfg) !! e ∧
    ∀ i j, end_of sg i j ≠ Some e) →
  config_ok (put_group g sg cfg).
Proof.
  intros [H1 H2 H3 H4] Hok Hf.
  assert (Hl : ∀ g' sg', lookupGroup g' (put_group g sg cfg) = Some sg' →
    (g' = g ∧ sg' = sg) ∨ (g' ≠ g ∧ ∃ sg0, lookupGroup g' cfg = Some sg0 ∧ sg' = Group.set_net (Group.net sg) sg0)).
  { intros g' sg' (sg0 & E & ->)%lookupGroup_Some. simpl in E. apply lookup_insert_Some in E as [[<- <-]|[Hne E]]; [left; by destruct sg|].
    right. split; [done|]. exists (Group.set_net (cfg_net cfg) sg0). split; [|done]. apply lookupGroup_Some. eauto. }
  split.
  - apply (clnts_ok_same (cfg_clnts cfg)); try done; [intros p Hp; split; [done|by apply (ck_objs _ H1)]|].
    intros p s e He. destruct (Hf e) as (? & ? & _); [left; by exists p, s|done].
  - intros g' sg' [[-> ->]|(Hne & sg0 & E & ->)]%Hl; [by exists n|]. destruct (H2 g' sg0 E) as (n' & [K1 K2 K3 K4 K5]). exists n'.
    constructor; try done. intros i j e He. rewrite end_of_net in He. simpl.
    destruct (Hf e) as (-> & -> & _); [right; by exists g', sg0, i, j|]. pose proof (K4 i j e He) as Hk.
    apply lookupGroup_Some in E as (x & _ & Ex). rewrite Ex in Hk. simpl in Hk. by rewrite Ex.
  - intros g' sg' i j e p s [[-> ->]|(Hne & sg0 & E & ->)]%Hl He Hu; [|by apply (H3 g' sg0 i j e p s E He)].
    destruct (Hf e) as (_ & _ & Hno); [left; by exists p, s|]. by apply (Hno i j).
  - intros g1 sg1 i j g2 sg2 i' j' e [[-> ->]|(Hne & sg0 & E & ->)]%Hl He [[-> ->]|(Hne' & sg0' & E' & ->)]%Hl He'; [done| | |].
    + destruct (Hf e) as (_ & _ & Hno); [right; by exists g2, sg0', i', j'|]. by destruct (Hno i j).
    + destruct (Hf e) as (_ & _ & Hno); [right; by exists g1, sg0, i, j|]. by destruct (Hno i' j').
    + by apply (H4 g1 sg0 i j g2 sg0' i' j' e).
Qed.

(** What is an end of a client or a group is on the network. *)
Lemma config_end cfg e : config_ok cfg →
  (∃ p s, end_used (cfg_clnts cfg) p s e) ∨ (∃ g sg i j, lookupGroup g cfg = Some sg ∧ end_of sg i j = Some e) →
  is_Some (ends (cfg_net cfg) !! e).
Proof.
  intros Hok [(p & s & He)|(g & sg & i & j & E & He)].
  - by apply (ck_end _ (co_clnts _ Hok) p s e).
  - destruct (co_group _ Hok g sg E) as [n Hg]. pose proof (proj1 (gk_end _ _ Hg i j e He)) as H.
    by apply lookupGroup_Some in E as (x & _ & ->).
Qed.

Lemma config_on_group cfg g f cfg' :
  config_ok cfg → (∀ n sg sg', grp_ok n sg → f sg = Some sg' → grp_ok n sg' ∧ grp_frame sg sg') →
  on_group g f cfg = Some cfg' →
  config_ok cfg' ∧ ∃ sg sg', lookupGroup g cfg = Some sg ∧ f sg = Some sg' ∧ cfg' = put_group g sg' cfg.
Proof.
  intros Hok Hf. unfold on_group. destruct (lookupGroup g cfg) as [sg|] eqn:E; simpl; [|done].
  destruct (f sg) as [sg'|] eqn:Ef; simpl; [|done]. intros [= <-]. split; [|by exists sg, sg'].
  destruct (co_group _ Hok g sg E) as [n Hg]. destruct (Hf n sg sg' Hg Ef) as [Hg' Hfr].
  apply (config_put cfg g sg' n Hok Hg'). intros e Hu.
  assert (En : Group.net sg = cfg_net cfg) by (by apply lookupGroup_Some in E as (x & _ & ->)).
  assert (He : is_Some (ends (Group.net sg) !! e)).
  { rewrite En. apply config_end; [done|]. destruct Hu as [Hu|(g' & sg1 & i & j & _ & E1 & He)]; [by left|right; by exists g', sg1, i, j]. }
  assert (Hno : ∀ i j, end_of sg i j ≠ Some e).
  { intros i j Hij. destruct Hu as [(p & s & Hu)|(g' & sg1 & i' & j' & Hne & E1 & He1)]; [by apply (co_apart _ Hok g sg i j e p s)|].
    apply Hne. by apply (co_groups _ Hok g' sg1 i' j' g sg i j e). }
  destruct (Hfr e He Hno) as (-> & -> & _ & Hno'). by rewrite En.
Qed.

(** A new group has new ends. *)
Lemma makeSrvGrp_frame rn g n rand sg :
  makeSrvGrp rn g n rand = Some sg → net_frame rn (Group.net sg) ∧ ∀ i j e, end_of sg i j = Some e → ends rn !! e = None.
Proof.
  unfold makeSrvGrp. set (body := λ (i : Z) (x : Net * list Srv), _).
  destruct (for_each body (seqZ 0 n) (rn, [])) as [[rn1 ss]|] eqn:E; simpl; [|done]. intros [= <-]. simpl.
  pose (P := λ x : Net * list Srv, net_frame rn x.1 ∧ ∀ s e, s ∈ x.2 → e ∈ endNames s → ends rn !! e = None).
  assert (HP : P (rn1, ss)).
  { eapply (for_each_keeps P); [| |exact E]; [|split; [by intros e He|by intros s e ?%elem_of_nil]].
    intros i [r l] [r' l'] [F1 F2] Hb. unfold body in Hb. destruct (makeServer n (rand i) g r) as [[r1 s1]|] eqn:Em; simpl in Hb; [|done].
    injection Hb as <- <-. split; [by eapply net_frame_trans, makeServer_frame|]. simpl in *.
    intros s e [Hs|Hs%list_elem_of_singleton]%elem_of_app He; [by apply (F2 s)|]. subst s.
    destruct (makeServer_spec _ _ _ _ _ _ Em) as (En & Hnew & _). rewrite En in He.
    apply list_elem_of_fmap in He as (j & -> & Hj%elem_of_seqZ). destruct (Hnew j) as [Hno _]; [lia|].
    destruct (ends rn !! rand i j) eqn:Er; [|done]. destruct (F1 (rand i j)) as [Heq _]; [by rewrite Er|]. congruence. }
  destruct HP as [F1 F2]. split; [done|]. intros i j e (s & Hs & He)%end_of_Some. simpl in Hs.
  pose proof (go_index_Some_range _ _ _ Hs). pose proof (go_index_Some_range _ _ _ He).
  rewrite go_index_lookup in Hs by lia. rewrite go_index_lookup in He by lia. apply (F2 s); by eapply list_elem_of_lookup_2.
Qed.

Lemma Shutdown_keeps n sg sg' : grp_ok n sg → Shutdown sg = Some sg' → grp_ok n sg' ∧ grp_frame sg sg'.
Proof.
  intros Hok Hs. split.
  - eapply for_each_keeps; [|exact Hok|exact Hs]. intros x s s'. apply ShutdownServer_keeps.
  - eapply frame_each; [|exact Hs]. intros x s s'. apply ShutdownServer_frame.
Qed.

Lemma config_step_ok ev cfg cfg' : config_ok cfg → cfg_step ev cfg cfg' → config_ok cfg'.
Proof.
  intros Hok Hstep. assert (Hsame : ∀ rn, same_ends (cfg_net cfg) rn → config_ok (set_cfg_net rn cfg)).
  { intros rn (E1 & E2 & _). apply config_net; [done|]. intros e _. by rewrite E1, E2. }
  destruct Hstep as [ev cfg cfg' Hl Hdo|rn cfg He]; [|by apply Hsame].
  destruct ev as [g n rand|g ev|g|ev|rel|rel|del]; simpl in Hdo; try (injection Hdo as <-; by apply Hsame).
  - case_decide as Hn; [|done]. unfold MakeGroup in Hdo. destruct (makeSrvGrp _ g n rand) as [sg|] eqn:Em; simpl in Hdo; [|done].
    injection Hdo as <-. destruct (makeSrvGrp_frame _ _ _ _ _ Em) as [F1 F2].
    apply (config_put cfg g sg n Hok); [by eapply makeSrvGrp_ok|]. intros e Hu.
    assert (He : is_Some (ends (cfg_net cfg) !! e)).
    { apply config_end; [done|]. destruct Hu as [Hu|(g' & sg1 & i & j & _ & E1 & He)]; [by left|right; by exists g', sg1, i, j]. }
    destruct (F1 e He) as (-> & -> & _). split_and!; try done. intros i j Hij%F2. destruct He. congruence.
  - eapply config_on_group in Hdo as [? _]; [done|done|]. intros n sg sg' Hg Hs. split; [by eapply grp_step_keeps|by eapply grp_step_frame].
  - unfold ExitGroup in Hdo. destruct (on_group g Shutdown cfg) as [cfg1|] eqn:E; simpl in Hdo; [|done]. injection Hdo as <-.
    eapply config_on_group in E as [[H1 H2 H3 H4] _]; [|done|apply Shutdown_keeps].
    assert (Hsub : ∀ g' sg', lookupGroup g' (set_grps (delete g (grps cfg1)) cfg1) = Some sg' → lookupGroup g' cfg1 = Some sg').
    { intros g' sg' (x & Ex & ->)%lookupGroup_Some. simpl in Ex. apply lookup_delete_Some in Ex as [_ Ex]. apply lookupGroup_Some. eauto. }
    split; [done|..].
    + intros g' sg' E%Hsub. by apply (H2 g').
    + intros g' sg' i j e p s E%Hsub. by apply (H3 g').
    + intros g1 sg1 i j g2 sg2 i' j' e E%Hsub He E'%Hsub. by apply (H4 g1 sg1 i j g2 sg2 i' j' e).
  - destruct (clnts_do ev (cfg_clnts cfg)) as [st|] eqn:Ed; simpl in Hdo; [|done]. injection Hdo as <-.
    assert (Hlive : ∀ p, user ev = Some p → p ∈ live (cfg_clnts cfg)) by (intros p; by apply Hl).
    pose proof (clnts_step_ok (Some ev) _ st (co_clnts _ Hok) (step_do ev _ st Hlive Ed)) as Hst.
    assert (Hfr : ∀ g sg i j e, lookupGroup g cfg = Some sg → end_of sg i j = Some e →
      ends (cs_net st) !! e = ends (cfg_net cfg) !! e ∧ connections (cs_net st) !! e = connections (cfg_net cfg) !! e ∧
      is_enabled e (cs_net st) = is_enabled e (cfg_net cfg) ∧ ∀ p s, ¬ end_used st p s e).
    { intros g sg i j e E He. apply (clnts_frame ev); [apply Hok|done|done|apply config_end; [done|right; by exists g, sg, i, j]|].
      intros p s. by apply (co_apart _ Hok g sg i j e p s). }
    assert (Hlk : ∀ g sg, lookupGroup g (set_clnts st cfg) = Some sg → ∃ sg0, lookupGroup g cfg = Some sg0 ∧ sg = Group.set_net (cs_net st) sg0).
    { intros g sg (x & Ex & ->)%lookupGroup_Some. exists (Group.set_net (cfg_net cfg) x). split; [|done]. apply lookupGroup_Some. eauto. }
    split; [done|..].
    + intros g sg (sg0 & E & ->)%Hlk. destruct (co_group _ Hok g sg0 E) as (n & [K1 K2 K3 K4 K5]). exists n.
      constructor; try done. intros i j e He. rewrite end_of_net in He. simpl. destruct (Hfr g sg0 i j e E He) as (-> & -> & _).
      pose proof (K4 i j e He) as Hk. apply lookupGroup_Some in E as (x & _ & Ex). rewrite Ex in Hk. simpl in Hk. by rewrite Ex.
    + intros g sg i j e p s (sg0 & E & ->)%Hlk He. by apply (Hfr g sg0 i j e E He).
    + intros g1 sg1 i j g2 sg2 i' j' e (sg0 & E & ->)%Hlk He (sg0' & E' & ->)%Hlk He'. by apply (co_groups _ Hok g1 sg0 i j g2 sg0' i' j' e).
Qed.

Lemma config_reachable_ok cfg : cfg_reachable cfg → config_ok cfg.
Proof.
  induction 1 as [now|ev cfg cfg' _ IH Hs]; [|by eapply config_step_ok].
  assert (Hno : ∀ g sg, lookupGroup g (cfg_init now) ≠ Some sg) by (by intros g sg (x & E & _)%lookupGroup_Some).
  split; [|by intros g sg ?%Hno|by intros g sg i j e p s ?%Hno|by intros g sg i j g' sg' i' j' e ?%Hno].
  eapply (clnts_run_ok MakeNetwork []). constructor.
Qed.

(** ** Properties *)

(** C28 (Who calls whom).  In every configuration a test can bring about, with any
    number of groups and clients made, started, connected, partitioned, stopped and
    deleted in any order: each server has an end to each server of its group, and each
    client one to each server it has called; every such end is registered with the
    network, leads where it should, and belongs to one caller and callee only. *)
Theorem config_wired cfg :
  cfg_reachable cfg →
  (∀ g sg i j, lookupGroup g cfg = Some sg → 0 ≤ i < N sg → 0 ≤ j < N sg →
     ∃ e, end_of sg i j = Some e ∧ is_Some (ends (cfg_net cfg) !! e) ∧
       connections (cfg_net cfg) !! e = Some (Some (ServerName (gid sg) j)) ∧
       (∀ g' sg' i' j', lookupGroup g' cfg = Some sg' → end_of sg' i' j' = Some e → g' = g ∧ i' = i ∧ j' = j) ∧
       (∀ p s, ¬ end_used (cfg_clnts cfg) p s e)) ∧
  (∀ p s e, end_used (cfg_clnts cfg) p s e →
     is_Some (ends (cfg_net cfg) !! e) ∧ connections (cfg_net cfg) !! e = Some (Some s) ∧
     (∀ p' s', end_used (cfg_clnts cfg) p' s' e → p' = p ∧ s' = s)).
Proof.
  intros Hok%config_reachable_ok. split.
  - intros g sg i j E Hi Hj. destruct (co_group _ Hok g sg E) as [n Hg]. unfold N in *. rewrite (gk_srvs _ _ Hg) in *.
    destruct (end_exists n sg i j Hg Hi Hj) as [e He]. exists e. destruct (gk_end _ _ Hg i j e He) as [H1 H2].
    assert (En : Group.net sg = cfg_net cfg) by (by apply lookupGroup_Some in E as (x & _ & ->)). rewrite En in *.
    split_and!; try done.
    + intros g' sg' i' j' E' He'. assert (g' = g) as -> by (by apply (co_groups _ Hok g' sg' i' j' g sg i j e)).
      rewrite E in E'. injection E' as <-. split; [done|]. by apply (gk_inj _ _ Hg i' j' i j e).
    + intros p s. by apply (co_apart _ Hok g sg i j e p s).
  - intros p s e He. destruct (ck_end _ (co_clnts _ Hok) p s e He). split_and!; try done.
    intros p' s' He'. by apply (ck_inj _ (co_clnts _ Hok) p' s' p s e).
Qed.

(** The group an event is about. *)
Definition group_of (ev : CfgEvent) : option Z :=
  match ev with CfMake g _ _ | CfGroup g _ | CfExit g => Some g | _ => None end.
Definition client_event (ev : CfgEvent) : bool := match ev with CfClient _ => true | _ => false end.

(** An operation on a group, and one on a client, as the other ends see it. *)
Definition undisturbed (g : option Z) (cfg cfg' : Config) : Prop :=
  (∀ p s e, end_used (cfg_clnts cfg) p s e → is_enabled e (cfg_net cfg') = is_enabled e (cfg_net cfg)) ∧
  (∀ g' sg i j e, lookupGroup g' cfg = Some sg → end_of sg i j = Some e → g ≠ Some g' →
     is_enabled e (cfg_net cfg') = is_enabled e (cfg_net cfg)).

Lemma on_group_undisturbed g f cfg cfg' :
  config_ok cfg → (∀ n sg sg', grp_ok n sg → f sg = Some sg' → grp_ok n sg' ∧ grp_frame sg sg') →
  on_group g f cfg = Some cfg' → undisturbed (Some g) cfg cfg'.
Proof.
  intros Hok Hf Hon. destruct (config_on_group cfg g f cfg' Hok Hf Hon) as (_ & sg & sg' & E & Ef & ->).
  destruct (co_group _ Hok g sg E) as [n Hg]. destruct (Hf n sg sg' Hg Ef) as [_ Hfr].
  assert (En : Group.net sg = cfg_net cfg) by (by apply lookupGroup_Some in E as (x & _ & ->)).
  assert (Hkeep : ∀ e, is_Some (ends (cfg_net cfg) !! e) → (∀ i j, end_of sg i j ≠ Some e) →
    is_enabled e (Group.net sg') = is_enabled e (cfg_net cfg)).
  { intros e He Hno. destruct (Hfr e) as (_ & _ & H & _); [by rewrite En|done|]. by rewrite H, En. }
  split.
  - intros p s e Hu. apply Hkeep; [apply config_end; [done|left; by exists p, s]|].
    intros i j He. by apply (co_apart _ Hok g sg i j e p s).
  - intros g' sg1 i j e E1 He1 Hne. apply Hkeep; [apply config_end; [done|right; by exists g', sg1, i, j]|].
    intros i' j' He'. apply Hne. f_equal. by apply (co_groups _ Hok g sg i' j' g' sg1 i j e).
Qed.

(** (Groups and clients do not disturb each other).  An operation on a group leaves all
    clients and all other groups connected as they were, and one on a client all
    groups. *)
Theorem config_separate cfg ev cfg' :
  cfg_reachable cfg → cfg_step (Some ev) cfg cfg' →
  if client_event ev
  then ∀ g sg i j e, lookupGroup g cfg = Some sg → end_of sg i j = Some e → is_enabled e (cfg_net cfg') = is_enabled e (cfg_net cfg)
  else undisturbed (group_of ev) cfg cfg'.
Proof.
  intros Hok%config_reachable_ok Hstep. inversion_clear Hstep as [? ? ? Hl Hdo|].
  destruct ev as [g n rand|g ev|g|ev|rel|rel|del]; simpl in *; try (injection Hdo as <-; by split).
  - case_decide as Hn; [|done]. unfold MakeGroup in Hdo. destruct (makeSrvGrp _ g n rand) as [sg|] eqn:Em; simpl in Hdo; [|done].
    injection Hdo as <-. destruct (makeSrvGrp_frame _ _ _ _ _ Em) as [F1 _]. split.
    + intros p s e Hu. apply F1, config_end; [done|left; by exists p, s].
    + intros g' sg' i j e E He _. apply F1, config_end; [done|right; by exists g', sg', i, j].
  - apply (on_group_undisturbed g (grp_step ev)); [done| |done].
    intros n sg sg' Hg Hs. split; [by eapply grp_step_keeps|by eapply grp_step_frame].
  - unfold ExitGroup in Hdo. destruct (on_group g Shutdown cfg) as [cfg1|] eqn:E1; simpl in Hdo; [|done]. injection Hdo as <-.
    exact (on_group_undisturbed g Shutdown cfg cfg1 Hok Shutdown_keeps E1).
  - destruct (clnts_do ev (cfg_clnts cfg)) as [st|] eqn:Ed; simpl in Hdo; [|done]. injection Hdo as <-.
    intros g sg i j e E He. eapply (clnts_frame ev (cfg_clnts cfg) st e); [apply Hok|intros p; by apply Hl|done| |].
    + apply config_end; [done|right; by exists g, sg, i, j].
    + intros p s. by apply (co_apart _ Hok g sg i j e p s).
Qed.

(** ** A configuration that is made *)

(** The names that are drawn for the ends of the servers, first in MakeGroup and again when
    the servers start; twenty random characters, taken to differ. *)
Definition names_differ (n : Z) (rand rand' : Z → Z → string) : Prop :=
  (∀ i j i' j', 0 ≤ i < n → 0 ≤ j < n → 0 ≤ i' < n → 0 ≤ j' < n →
     (rand i j = rand i' j' → i = i' ∧ j = j') ∧ (rand' i j = rand' i' j' → i = i' ∧ j = j') ∧ rand i j ≠ rand' i' j').

Definition is_free (rn : Net) (e : string) : Prop := ends rn !! e = None.

(** A loop over [0, n) at its index [i]. *)
Lemma seqZ_at n l1 i l2 : seqZ 0 n = l1 ++ i :: l2 → 0 ≤ i < n ∧ (i ∈ l1 ++ [i]) ∧ ∀ k, k ∈ l1 → 0 ≤ k < n ∧ k ≠ i ∧ k ∈ l1 ++ [i].
Proof.
  intros El. assert (Hr : ∀ k, k ∈ l1 ++ i :: l2 → 0 ≤ k < n) by (rewrite <- El; intros k Hk%elem_of_seqZ; lia).
  pose proof (NoDup_seqZ 0 n) as Hnd. rewrite El in Hnd. apply NoDup_app in Hnd as (_ & Hd & _).
  split_and!; [apply Hr, elem_of_app; right; by left..|apply elem_of_app; right; by left|]. intros k Hk.
  split_and!; [apply Hr, elem_of_app; by left..| |apply elem_of_app; by left]. intros ->. apply (Hd i Hk). by left.
Qed.

Lemma makeServer_total nsrv rand g rn :
  (∀ j, 0 ≤ j < nsrv → is_free rn (rand j)) → (∀ j j', 0 ≤ j < nsrv → 0 ≤ j' < nsrv → rand j = rand j' → j = j') →
  ∃ rn' s, makeServer nsrv rand g rn = Some (rn', s) ∧
    ∀ e, is_free rn e → (∀ j, 0 ≤ j < nsrv → rand j ≠ e) → is_free rn' e.
Proof.
  intros Hfree Hinj. unfold makeServer. set (body := λ (j : Z) (rn : Net), _).
  pose (P := λ (l : list Z) rn', ∀ e, is_free rn e → (∀ j, j ∈ l → rand j ≠ e) → is_free rn' e).
  destruct (for_each_ind P body (seqZ 0 nsrv) rn) as (rn' & -> & HP); [by intros e He| |].
  - intros l1 j l2 rn1 (Hj & Hin & Hl)%seqZ_at HP.
    assert (Hf : is_free rn1 (rand j)).
    { apply HP; [by apply Hfree|]. intros k (Hk & Hne & _)%Hl E. by apply Hne, Hinj. }
    unfold body, MakeEnd. unfold is_free in Hf. rewrite Hf. simpl. eexists. split; [done|].
    intros e He Hne. unfold is_free. simpl. rewrite lookup_insert_ne by (by apply Hne). apply HP; [done|]. intros k Hk. by apply Hne, Hl.
  - exists rn'. eexists. simpl. split; [done|]. intros e He Hne. apply HP; [done|]. intros j Hj%elem_of_seqZ. apply Hne. lia.
Qed.

Lemma makeSrvGrp_total rn g n rand :
  (∀ i j, 0 ≤ i < n → 0 ≤ j < n → is_free rn (rand i j)) →
  (∀ i j i' j', 0 ≤ i < n → 0 ≤ j < n → 0 ≤ i' < n → 0 ≤ j' < n → rand i j = rand i' j' → i = i' ∧ j = j') →
  ∃ sg, makeSrvGrp rn g n rand = Some sg ∧ gid sg = g ∧
    ∀ e, is_free rn e → (∀ i j, 0 ≤ i < n → 0 ≤ j < n → rand i j ≠ e) → is_free (Group.net sg) e.
Proof.
  intros Hfree Hinj. unfold makeSrvGrp. set (body := λ (i : Z) (x : Net * list Srv), _).
  pose (P := λ (l : list Z) (x : Net * list Srv), ∀ e, is_free rn e → (∀ i j, i ∈ l → 0 ≤ j < n → rand i j ≠ e) → is_free x.1 e).
  destruct (for_each_ind P body (seqZ 0 n) (rn, [])) as ([rn1 ss] & -> & HP); [by intros e He| |].
  - intros l1 i l2 [rn1 ss] (Hi & Hin & Hl)%seqZ_at HP. destruct (makeServer_total n (rand i) g rn1) as (rn2 & s & E & Hk).
    + intros j Hj. apply HP; [by apply Hfree|]. intros k j' (Hk & Hne & _)%Hl Hj' Ek. apply Hne. by apply (Hinj k j' i j).
    + intros j j' Hj Hj' Ej. by apply (Hinj i j i j').
    + exists (rn2, ss ++ [s]). unfold body. rewrite E. split; [done|]. intros e He Hne. apply Hk.
      * apply HP; [done|]. intros k j Hkl. by apply Hne, Hl.
      * intros j Hj. by apply Hne.
  - simpl. eexists. split; [done|]. split; [done|]. intros e He Hne. apply HP; [done|]. intros i j Hi%elem_of_seqZ. apply Hne. lia.
Qed.

Lemma start_total n rand labsrv sg :
  grp_ok n sg → (∀ i j, 0 ≤ i < n → 0 ≤ j < n → is_free (Group.net sg) (rand i j)) →
  (∀ i j i' j', 0 ≤ i < n → 0 ≤ j < n → 0 ≤ i' < n → 0 ≤ j' < n → rand i j = rand i' j' → i = i' ∧ j = j') →
  ∃ sg', start rand labsrv sg = Some sg' ∧ grp_ok n sg' ∧ gid sg' = gid sg.
Proof.
  intros Hok Hfree Hinj. unfold start, all. rewrite (gk_srvs _ _ Hok).
  pose (P := λ (l : list Z) sg', grp_ok n sg' ∧ gid sg' = gid sg ∧
    ∀ e, is_free (Group.net sg) e → (∀ i j, i ∈ l → 0 ≤ j < n → rand i j ≠ e) → is_free (Group.net sg') e).
  destruct (for_each_ind P (λ i sg, StartServer i (rand i) (labsrv i) sg) (seqZ 0 n) sg) as (sg' & -> & H1 & H2 & _); [by split_and!; [| |intros e He]| |by eauto].
  intros l1 i l2 sg1 (Hi & Hin & Hl)%seqZ_at (H1 & H2 & HP).
  destruct (makeServer_total n (rand i) (gid sg1) (Group.net sg1)) as (rn2 & s & E & Hk).
  - intros j Hj. apply HP; [by apply Hfree|]. intros k j' (Hk & Hne & _)%Hl Hj' Ek. apply Hne. by apply (Hinj k j' i j).
  - intros j j' Hj Hj' Ej. by apply (Hinj i j i j').
  - destruct ((srvs sg1).[i]) as [s0|] eqn:Hs.
    2:{ destruct (go_index_is_Some (srvs sg1) i) as [x Hx]; [rewrite (gk_srvs _ _ H1); lia|congruence]. }
    assert (Est : ∃ sg2, StartServer i (rand i) (labsrv i) sg1 = Some sg2 ∧ gid sg2 = gid sg1 ∧ ends (Group.net sg2) = ends rn2).
    { unfold StartServer, startServer. rewrite Hs. simpl. rewrite (gk_names _ _ H1 i s0 Hs), E. simpl. by eexists. }
    destruct Est as (sg2 & Est & Eg & Een). exists sg2. split; [done|]. unfold P. split_and!; [by eapply StartServer_keeps|congruence|].
    intros e He Hne. unfold is_free. rewrite Een. apply Hk.
    + apply HP; [done|]. intros k j Hkl. by apply Hne, Hl.
    + intros j Hj. by apply Hne.
Qed.

(** Operations on a group are steps of the configuration. *)
Lemma put_put g sg sg' cfg : put_group g sg' (put_group g sg cfg) = put_group g sg' cfg.
Proof. unfold put_group, set_cfg_net, set_grps. simpl. by rewrite insert_insert_eq. Qed.
Lemma lookup_put g sg cfg : lookupGroup g (put_group g sg cfg) = Some sg.
Proof. unfold lookupGroup, put_group. simpl. rewrite lookup_insert_eq. by destruct sg. Qed.

Lemma steps_reachable g evs sg sg' cfg :
  cfg_reachable (put_group g sg cfg) → for_each grp_step evs sg = Some sg' → cfg_reachable (put_group g sg' cfg).
Proof.
  revert sg. induction evs as [|ev evs IH]; intros sg Hr; simpl; [by intros [= <-]|].
  destruct (grp_step ev sg) as [sg1|] eqn:E; simpl; [|done]. apply IH. eapply (cfg_next (Some (CfGroup g ev))); [exact Hr|].
  constructor; [done|]. simpl. unfold on_group. rewrite lookup_put. simpl. rewrite E. simpl. by rewrite put_put.
Qed.

(** (A new test).  With names that differ, [MakeConfig] does not fail: it gives a reachable
    configuration with one group of [n] servers, each of which reaches each, no clients,
    and the network as reliable as asked for. *)
Theorem MakeConfig_ok n rel rand rand' labsrv now :
  0 ≤ n → names_differ n rand rand' →
  ∃ cfg sg, MakeConfig n rel rand rand' labsrv now = Some cfg ∧ cfg_reachable cfg ∧
    lookupGroup GRP0 cfg = Some sg ∧ N sg = n ∧ (∀ a c, 0 ≤ a < n → 0 ≤ c < n → linked sg a c = true) ∧
    live (cfg_clnts cfg) = ∅ ∧ IsReliable (cfg_net cfg) = rel ∧ cfg_start cfg = now.
Proof.
  intros Hn Hd. destruct (makeSrvGrp_total MakeNetwork GRP0 n rand) as (sg & E & Eg & Hfree).
  { done. } { intros i j i' j' Hi Hj Hi' Hj'. by apply Hd. }
  pose proof (makeSrvGrp_ok _ _ _ _ _ Hn E) as Hok. destruct (start_total n rand' labsrv sg Hok) as (sg1 & E1 & H1 & Eg1).
  { intros i j Hi Hj. apply Hfree; [done|]. intros i' j' Hi' Hj'. by apply Hd. }
  { intros i j i' j' Hi Hj Hi' Hj'. by apply Hd. }
  destruct (ConnectAll_ok n sg1 H1) as (sg2 & E2 & H2 & _ & Hl).
  assert (Hr : cfg_reachable (put_group GRP0 sg2 (cfg_init now))).
  { apply (steps_reachable GRP0 (((λ i, GStart i (rand' i) (labsrv i)) <$> all sg) ++ [GConnectAll]) sg).
    - eapply (cfg_next (Some (CfMake GRP0 n rand))); [apply (cfg_start_at now)|]. constructor; [done|]. simpl.
      rewrite decide_True by done. unfold MakeGroup. change (cfg_net (cfg_init now)) with (MakeNetwork : Net). by rewrite E.
    - rewrite for_each_app, for_each_fmap. unfold start in E1. transitivity (s' ← Some sg1; for_each grp_step [GConnectAll] s'); [by f_equal|]. simpl. by rewrite E2. }
  exists (SetReliable rel (put_group GRP0 sg2 (cfg_init now))), (Group.set_net (Reliable rel (Group.net sg2)) sg2). split_and!; try done.
  - unfold MakeConfig, MakeGroupStart. cbv zeta. set (cfg0 := mkConfig _ _ _ _ _ _).
    assert (MakeGroup GRP0 n rand cfg0 = Some (put_group GRP0 sg cfg0)) as ->.
    { unfold MakeGroup. change (cfg_net cfg0) with (MakeNetwork : Net). by rewrite E. }
    simpl. unfold on_group. rewrite lookup_put. simpl. unfold StartServers. rewrite E1. simpl. rewrite E2. simpl. by rewrite put_put.
  - eapply (cfg_next (Some (CfReliable rel))); [exact Hr|]. by constructor.
  - unfold N. simpl. apply H2.
Qed.

Lemma cleanup_closed st st' : cleanup st = Some st' → closed (cs_net st') = closed (cs_net st).
Proof.
  unfold cleanup. destruct (for_each remove _ st) as [st1|] eqn:E; simpl; [|done]. intros [= <-]. simpl.
  eapply (for_each_keeps (λ s, closed (cs_net s) = closed (cs_net st))); [| |exact E]; [|done].
  intros p s s' Hs Hr. unfold remove in Hr. destruct (objs s !! p) as [c|]; simpl in Hr; [|done].
  destruct (for_each _ (map_to_list (cl_ends c)) (cs_net s)) as [rn|] eqn:Er; simpl in Hr; [|done]. injection Hr as <-. simpl.
  eapply (for_each_keeps (λ r, closed r = closed (cs_net st))); [| |exact Er]; [|done].
  intros x r r' Hc Hd. unfold DeleteEnd in Hd. destruct (ends r !! x.2); [|done]. by injection Hd as <-.
Qed.

(** (The end of a test).  [Cleanup] works in every configuration a test can bring about,
    once: no end of a client is left on the network, the ends of the servers all are, and
    a second [Cleanup] panics. *)
Theorem Cleanup_ok cfg now failed :
  cfg_reachable cfg → closed (cfg_net cfg) = false →
  ∃ cfg', Cleanup now failed cfg = Some (cfg', CheckTimeout now failed cfg) ∧
    (∀ p s e, end_used (cfg_clnts cfg) p s e → ends (cfg_net cfg') !! e = None) ∧
    (∀ g sg i j e, lookupGroup g cfg = Some sg → end_of sg i j = Some e → is_Some (ends (cfg_net cfg') !! e)) ∧
    ∀ now' failed', Cleanup now' failed' cfg' = None.
Proof.
  intros Hok%config_reachable_ok Hcl. destruct (cleanup_ok _ (co_clnts _ Hok)) as (st & E & Hno & H1 & H2).
  pose proof (cleanup_closed _ _ E) as Ec. fold (cfg_net cfg) in Ec. unfold Cleanup. rewrite E. simpl.
  unfold Labrpc.Cleanup at 1. rewrite Ec, Hcl. simpl. eexists. split; [done|]. split_and!; [done| |].
  - intros g sg i j e Hg He. unfold cfg_net. simpl. rewrite H2.
    + apply config_end; [done|]. right. by exists g, sg, i, j.
    + intros p s. by apply (co_apart _ Hok g sg i j e p s).
  - intros now' failed'. unfold cleanup, live. simpl. by rewrite Hno.
Qed.

(** ** A test with two groups and two clients *)

Definition draw (pre : string) (i j : Z) : string := pre +:+ end_name i j.

Definition new_test : Config := default (cfg_init 0) (MakeConfig 3 true (draw "a") (draw "b") Z.to_nat 0).

Lemma new_test_reachable : cfg_reachable new_test.
Proof.
  destruct (MakeConfig_ok 3 true (draw "a") (draw "b") Z.to_nat 0) as (cfg & sg & E & Hr & _); [lia| |].
  - assert (Hd : Forall (λ x : Z * Z * (Z * Z), let '((i, j), (i', j')) := x in
      (draw "a" i j = draw "a" i' j' → i = i' ∧ j = j') ∧ (draw "b" i j = draw "b" i' j' → i = i' ∧ j = j') ∧ draw "a" i j ≠ draw "b" i' j')
      (let l := [0; 1; 2] in p ← (l ≫= λ i, (λ j, (i, j)) <$> l); (λ q, (p, q)) <$> (l ≫= λ i, (λ j, (i, j)) <$> l))).
    { apply (bool_decide_unpack _). vm_compute. exact I. }
    rewrite Forall_forall in Hd. intros i j i' j' Hi Hj Hi' Hj'. apply (Hd ((i, j), (i', j'))).
    assert (Hl : ∀ k, 0 ≤ k < 3 → k ∈ [0; 1; 2]) by (intros k Hk; rewrite !elem_of_cons; lia).
    apply list_elem_of_bind. exists (i, j). split; [apply list_elem_of_fmap_2|]; apply list_elem_of_bind; eexists;
      (split; [apply list_elem_of_fmap_2|]; by apply Hl).
  - unfold new_test. by rewrite E.
Qed.

(** An operation of a run, as a function: clients are used while they live. *)
Definition cfg_try (ev : CfgEvent) (cfg : Config) : option Config :=
  match ev with
  | CfClient cev => match user cev with
                    | Some p => if decide (p ∈ live (cfg_clnts cfg)) then cfg_do ev cfg else None
                    | None => cfg_do ev cfg
                    end
  | _ => cfg_do ev cfg
  end.

Lemma try_reachable evs cfg cfg' : cfg_reachable cfg → for_each cfg_try evs cfg = Some cfg' → cfg_reachable cfg'.
Proof.
  apply (for_each_keeps cfg_reachable). intros ev c c' Hr Ht. apply (cfg_next (Some ev) c c' Hr).
  unfold cfg_try in Ht. constructor.
  - intros cev p -> Hu. rewrite Hu in Ht. by case_decide.
  - destruct ev as [| | |cev| | |]; try done. destruct (user cev); [|done]. by case_decide.
Qed.

(** A second group was made and a third one stopped; a client has called the first, and the
    leader of the first is cut off. *)
Definition busy_events : list CfgEvent :=
  [CfMake 1 2 (draw "c"); CfMake 2 1 (draw "d"); CfExit 2; CfClient (CMake 0 None);
   CfClient (CEnd 0 "server-0-1" "x"); CfGroup 0 (GDisconnect 0 [0; 1; 2])].
Definition busy_test : Config := default (cfg_init 0) (for_each cfg_try busy_events new_test).

Lemma busy_reachable : cfg_reachable busy_test.
Proof.
  unfold busy_test. destruct (for_each cfg_try busy_events new_test) as [cfg|] eqn:E.
  - by eapply try_reachable; [exact new_test_reachable|].
  - assert (Hs : match for_each cfg_try busy_events new_test with Some _ => true | None => false end = true) by (vm_compute; reflexivity).
    by rewrite E in Hs.
Qed.

Lemma config_wired_witness :
  ∃ sg e, lookupGroup 1 busy_test = Some sg ∧ end_of sg 1 0 = Some e ∧
    connections (cfg_net busy_test) !! e = Some (Some "server-1-0"%string) ∧ ¬ end_used (cfg_clnts busy_test) 0 "server-0-1" e.
Proof.
  destruct (config_wired busy_test busy_reachable) as [H _].
  assert (En : (N <$> lookupGroup 1 busy_test) = Some 2 ∧ (gid <$> lookupGroup 1 busy_test) = Some 1) by (vm_compute; split; reflexivity).
  destruct (lookupGroup 1 busy_test) as [sg|] eqn:E; [|destruct En as [En _]; discriminate En]. destruct En as [[= En] [= Eg]].
  destruct (H 1 sg 1 0 E) as (e & He & _ & Hc & _ & Hno); [lia|lia|]. exists sg, e.
  split_and!; [reflexivity|exact He| |apply Hno]. rewrite Hc, Eg. vm_compute. reflexivity.
Defined.
