(* ===== verification/Annotation.v ===== *)
(** * tester1/annotation.go: what a visualization of a test shows

    The tests annotate a timeline: points, intervals, and continuous annotations that last
    until the next one of their tag; the faults of the servers are a continuous annotation.
    A test that fails writes the timeline to a file.  The global variables are a record;
    [now] is the timestamp an operation reads, and [None] is a panic (a nil finfo, an index
    out of range). *)

From S2P Require Import Prelude.
Local Open Scope Z_scope.
Local Open Scope go_scope.

(** porcupine.Annotation, the fields that are set. *)
Record PAnnotation := mkPAnnotation {
  Tag : string; Start : Z; End : Z; Description : string; Details : string; BackgroundColor : string
}.

Record Continuous := mkContinuous { c_start : Z; c_desp : string; c_details : string; c_bgcolor : string }.

Record Annotation := mkAnnotation_ {
  annotations : list PAnnotation;
  continuous : gmap string Continuous;
  finalized : bool
}.

Record CheckerBegin := mkCheckerBegin { ck_ts : Z; ck_details : string }.

Record FrameworkInfo := mkFrameworkInfo_ {
  nservers : Z; fi_connected : list bool; fi_crashed : list bool; ckbegin : CheckerBegin
}.

(** The variables [annotation] and [finfo]. *)
Record Globals := mkGlobals { annotation : Annotation; finfo : option FrameworkInfo }.

Definition COLOR_INFO : string := "#FAFAFA".
Definition COLOR_NEUTRAL : string := "#FFECB3".
Definition COLOR_SUCCESS : string := "#C8E6C9".
Definition COLOR_FAILURE : string := "#FFCDD2".
Definition COLOR_FAULT : string := "#B3E5FC".
Definition COLOR_USER : string := "#FFF176".

Definition TAG_CHECKER : string := "$ Checker".
Definition TAG_PARTITION : string := "$ Failure".
Definition TAG_INFO : string := "$ Test Info".

(** ** Annotation *)

Definition mkAnnotation : Annotation := mkAnnotation_ [] ∅ false.

Definition add (a : PAnnotation) (an : Annotation) : Annotation :=
  mkAnnotation_ (annotations an ++ [a]) (continuous an) (finalized an).

Definition annotatePointColor (now : Z) (tag desp details bgcolor : string) (an : Annotation) : Annotation :=
  add (mkPAnnotation tag now 0 desp details bgcolor) an.

Definition annotateIntervalColor (now : Z) (tag : string) (start : Z) (desp details bgcolor : string) (an : Annotation) : Annotation :=
  add (mkPAnnotation tag start now desp details bgcolor) an.

(** The annotation [cont] until [t]. *)
Definition concretize (tag : string) (cont : Continuous) (t : Z) : PAnnotation :=
  mkPAnnotation tag (c_start cont) t (c_desp cont) (c_details cont) (c_bgcolor cont).

Definition annotateContinuousColor (now : Z) (tag desp details bgcolor : string) (an : Annotation) : Annotation :=
  match continuous an !! tag with
  | None => mkAnnotation_ (annotations an) (<[tag := mkContinuous now desp details bgcolor]> (continuous an)) (finalized an)
  | Some cont =>
      mkAnnotation_ (annotations an ++ [concretize tag cont now])
        (<[tag := mkContinuous now desp details bgcolor]> (continuous an)) (finalized an)
  end.

(** The branch for a tag that is not there is empty, and goes on with the zero value. *)
Definition annotateContinuousEnd (now : Z) (tag : string) (an : Annotation) : Annotation :=
  let cont := default (mkContinuous 0 "" "" "") (continuous an !! tag) in
  mkAnnotation_ (annotations an ++ [concretize tag cont now]) (delete tag (continuous an)) (finalized an).

Definition clear (an : Annotation) : Annotation := mkAnnotation_ [] ∅ false.

Section finalize.
(** The order in which [range] goes over a map. *)
Variable range : gmap string Continuous → list (string * Continuous).

(** What is returned is not stored. *)
Definition finalize (now : Z) (an : Annotation) : Annotation * list PAnnotation :=
  (mkAnnotation_ (annotations an) (continuous an) true,
   annotations an ++ ((λ '(tag, cont), concretize tag cont now) <$> range (continuous an))).

Definition end_annotation (now : Z) (desp : string) : PAnnotation := mkPAnnotation TAG_INFO now 0 desp desp COLOR_INFO.

(** The timestamp is read twice. *)
Definition FinalizeAnnotations (now now' : Z) (desp : string) (an : Annotation) : Annotation * list PAnnotation :=
  let '(an, x) := finalize now an in (an, x ++ [end_annotation now' desp]).

(** [enabled] is VIS_ENABLE, [opened] whether the file could be opened; what is written to
    the file is returned. *)
Definition cleanup (enabled : string) (opened : bool) (now now' : Z) (failed : bool) (desp : string) (an : Annotation)
    : Annotation * option (list PAnnotation) :=
  if bool_decide (enabled = "never") || (negb failed && negb (bool_decide (enabled = "always"))) || finalized an
  then (clear an, None)
  else
    let '(an, x) := finalize now an in
    if decide (x = []) then (an, None)
    else (an, if opened then Some (x ++ [end_annotation now' desp]) else None).
End finalize.

(** ** The interface *)

Definition mkFrameworkInfo (n : Z) : FrameworkInfo :=
  mkFrameworkInfo_ n (replicate (Z.to_nat n) true) (replicate (Z.to_nat n) false) (mkCheckerBegin 0 "").

Definition on_annotation (f : Annotation → Annotation) (g : Globals) : Globals := mkGlobals (f (annotation g)) (finfo g).

Definition AnnotatePointColor (now : Z) (tag desp details bgcolor : string) : Globals → Globals :=
  on_annotation (annotatePointColor now tag desp details bgcolor).
Definition AnnotateIntervalColor (now : Z) (tag : string) (start : Z) (desp details bgcolor : string) : Globals → Globals :=
  on_annotation (annotateIntervalColor now tag start desp details bgcolor).
Definition AnnotateContinuousColor (now : Z) (tag desp details bgcolor : string) : Globals → Globals :=
  on_annotation (annotateContinuousColor now tag desp details bgcolor).
Definition AnnotateContinuousEnd (now : Z) (tag : string) : Globals → Globals := on_annotation (annotateContinuousEnd now tag).

Definition Annotate (now : Z) (tag desp details : string) : Globals → Globals := AnnotatePointColor now tag desp details COLOR_USER.
Definition AnnotateInterval (now : Z) (tag : string) (start : Z) (desp details : string) : Globals → Globals :=
  AnnotateIntervalColor now tag start desp details COLOR_USER.
Definition AnnotateContinuous (now : Z) (tag desp details : string) : Globals → Globals :=
  AnnotateContinuousColor now tag desp details COLOR_USER.
Definition AnnotateInfo (now : Z) (desp details : string) : Globals → Globals := AnnotatePointColor now TAG_INFO desp details COLOR_INFO.
Definition AnnotateInfoInterval (now start : Z) (desp details : string) : Globals → Globals :=
  AnnotateIntervalColor now TAG_INFO start desp details COLOR_INFO.

Definition AnnotateTest (now : Z) (desp : string) (n : Z) (g : Globals) : Globals :=
  let details := desp +:+ " (" +:+ Itoa n +:+ " servers)" in
  AnnotateInfo now details details (mkGlobals (clear (annotation g)) (Some (mkFrameworkInfo n))).

Definition AnnotateCheckerBegin (now : Z) (details : string) (g : Globals) : option Globals :=
  fi ← finfo g;
  Some (mkGlobals (annotation g)
    (Some (mkFrameworkInfo_ (nservers fi) (fi_connected fi) (fi_crashed fi) (mkCheckerBegin now details)))).

(** The assignment at the end is to the local copy of [ckbegin]. *)
Definition AnnotateCheckerEnd (now : Z) (desp details color : string) (g : Globals) : option Globals :=
  fi ← finfo g;
  let ckbegin := ckbegin fi in
  if ck_ts ckbegin =? 0 then Some (AnnotatePointColor now TAG_CHECKER desp details color g)
  else Some (AnnotateIntervalColor now TAG_CHECKER (ck_ts ckbegin) desp (ck_details ckbegin +:+ ": " +:+ details) color g).

Definition AnnotateCheckerSuccess (now : Z) (desp details : string) : Globals → option Globals := AnnotateCheckerEnd now desp details COLOR_SUCCESS.
Definition AnnotateCheckerFailure (now : Z) (desp details : string) : Globals → option Globals := AnnotateCheckerEnd now desp details COLOR_FAILURE.
Definition AnnotateCheckerNeutral (now : Z) (desp details : string) : Globals → option Globals := AnnotateCheckerEnd now desp details COLOR_NEUTRAL.

Definition SetAnnotationFinalized (g : Globals) : Globals :=
  on_annotation (λ an, mkAnnotation_ (annotations an) (continuous an) true) g.
Definition GetAnnotationFinalized (g : Globals) : bool := finalized (annotation g).

(** Used before log.Fatalf; what is written to the file is returned. *)
Definition AnnotateCheckerFailureBeforeExit (range : gmap string Continuous → list (string * Continuous)) (enabled : string) (opened : bool)
    (now now1 now2 : Z) (desp details : string) (g : Globals) : option (Globals * option (list PAnnotation)) :=
  g ← AnnotateCheckerFailure now desp details g;
  let '(an, out) := cleanup range enabled opened now1 now2 true "test failed" (annotation g) in
  Some (mkGlobals an (finfo g), out).

(** ** Faults *)

(** [%v] of a slice of int. *)
Definition Sprint_ints (l : list Z) : string := "[" +:+ String.concat " " (Itoa <$> l) +:+ "]".

(** The two slices and the text of the loop of [annotateFault]; [None]: crashed is shorter. *)
Definition annotateFault_body (fi : FrameworkInfo) (id : Z) (st : list Z * list Z * string) : option (list Z * list Z * string) :=
  let '(conn, crashes, text) := st in
  c ← (fi_crashed fi).[id];
  k ← (fi_connected fi).[id];
  Some (if (c : bool) then (conn, crashes ++ [id], text)
        else if (k : bool) then (conn ++ [id], crashes, text)
        else (conn, crashes, text +:+ "[" +:+ Itoa id +:+ "] ")).

Definition fault_text (fi : FrameworkInfo) : option string :=
  '(conn, crashes, text) ← for_each (annotateFault_body fi) (seqZ 0 (go_len (fi_connected fi))) ([], [], "partition = ");
  let text := if 0 <? go_len conn then text +:+ Sprint_ints conn else text in
  Some (if 0 <? go_len crashes then text +:+ " / crash = " +:+ Sprint_ints crashes else text).

Definition no_fault (fi : FrameworkInfo) : bool :=
  bool_decide (replicate (Z.to_nat (nservers fi)) true = fi_connected fi) &&
  bool_decide (replicate (Z.to_nat (nservers fi)) false = fi_crashed fi).

Definition annotateFault (now : Z) (g : Globals) : option Globals :=
  fi ← finfo g;
  if no_fault fi then Some (AnnotateContinuousEnd now TAG_PARTITION g)
  else text ← fault_text fi; Some (AnnotateContinuousColor now TAG_PARTITION text text COLOR_FAULT g).

Definition set_finfo (fi : FrameworkInfo) (g : Globals) : Globals := mkGlobals (annotation g) (Some fi).
Definition set_connected_ (l : list bool) (fi : FrameworkInfo) : FrameworkInfo := mkFrameworkInfo_ (nservers fi) l (fi_crashed fi) (ckbegin fi).
Definition set_crashed (l : list bool) (fi : FrameworkInfo) : FrameworkInfo := mkFrameworkInfo_ (nservers fi) (fi_connected fi) l (ckbegin fi).

(** The built-in copy. *)
Definition go_copy {A} (dst src : list A) : list A := take (length dst) src ++ drop (length src) dst.

Definition AnnotateConnection (now : Z) (connection : list bool) (g : Globals) : option Globals :=
  fi ← finfo g;
  if decide (fi_connected fi = connection) then Some g
  else annotateFault now (set_finfo (set_connected_ (go_copy (fi_connected fi) connection) fi) g).

Definition AnnotateTwoPartitions (now : Z) (p1 p2 : list Z) (g : Globals) : Globals :=
  let text := "partition = " +:+ Sprint_ints p1 +:+ " " +:+ Sprint_ints p2 in
  AnnotateContinuousColor now TAG_PARTITION text text COLOR_FAULT g.

Definition AnnotateClearFailure (now : Z) (g : Globals) : option Globals :=
  fi ← finfo g;
  Some (AnnotateContinuousEnd now TAG_PARTITION
    (set_finfo (set_connected_ (replicate (length (fi_connected fi)) true) (set_crashed (replicate (length (fi_crashed fi)) false) fi)) g)).

(** The loop of [AnnotateShutdown] ([b] true) and of [AnnotateRestart]: whether something
    changed. *)
Definition mark_crashed (b : bool) (servers : list Z) (crashed : list bool) : option (bool * list bool) :=
  for_each (λ id '(changed, crashed),
    x ← crashed.[id];
    crashed' ← go_store crashed id b;
    Some (changed || negb (Bool.eqb x b), crashed')) servers (false, crashed).

Definition AnnotateCrash (b : bool) (now : Z) (servers : list Z) (g : Globals) : option Globals :=
  fi ← finfo g;
  '(changed, crashed) ← mark_crashed b servers (fi_crashed fi);
  let g := set_finfo (set_crashed crashed fi) g in
  if (changed : bool) then annotateFault now g else Some g.
Definition AnnotateShutdown : Z → list Z → Globals → option Globals := AnnotateCrash true.
Definition AnnotateRestart : Z → list Z → Globals → option Globals := AnnotateCrash false.

Definition AnnotateShutdownAll (now : Z) (g : Globals) : option Globals := fi ← finfo g; AnnotateShutdown now (seqZ 0 (nservers fi)) g.
Definition AnnotateRestartAll (now : Z) (g : Globals) : option Globals := fi ← finfo g; AnnotateRestart now (seqZ 0 (nservers fi)) g.

(** ** Runs of a test *)

Inductive AnnEvent :=
  | EPoint (tag desp details color : string)
  | EInterval (tag : string) (start : Z) (desp details color : string)
  | EContinuous (tag desp details color : string)
  | EContinuousEnd (tag : string)
  | ECheckerBegin (details : string)
  | ECheckerEnd (desp details color : string)
  | EConnection (connection : list bool)
  | EClearFailure
  | EShutdown (servers : list Z)
  | ERestart (servers : list Z)
  | EFinalized.

Definition ann_step (now : Z) (ev : AnnEvent) (g : Globals) : option Globals :=
  match ev with
  | EPoint tag desp details color => Some (AnnotatePointColor now tag desp details color g)
  | EInterval tag start desp details color => Some (AnnotateIntervalColor now tag start desp details color g)
  | EContinuous tag desp details color => Some (AnnotateContinuousColor now tag desp details color g)
  | EContinuousEnd tag => Some (AnnotateContinuousEnd now tag g)
  | ECheckerBegin details => AnnotateCheckerBegin now details g
  | ECheckerEnd desp details color => AnnotateCheckerEnd now desp details color g
  | EConnection connection => AnnotateConnection now connection g
  | EClearFailure => AnnotateClearFailure now g
  | EShutdown servers => AnnotateShutdown now servers g
  | ERestart servers => AnnotateRestart now servers g
  | EFinalized => Some (SetAnnotationFinalized g)
  end.

(** Who annotates has a tag of their own. *)
Definition own_tag (ev : AnnEvent) : Prop :=
  match ev with
  | EPoint tag _ _ _ | EInterval tag _ _ _ _ | EContinuous tag _ _ _ | EContinuousEnd tag => tag ≠ TAG_PARTITION
  | _ => True
  end.

(** The faults there are, in words. *)
Definition fault (g : Globals) : option string := fi ← finfo g; if no_fault fi then None else fault_text fi.

(** A test, and what the faults were since when, the latest first. *)
Inductive test_run_of : Z → list (Z * option string) → Globals → Prop :=
  | run_begins g now desp n : 0 ≤ n → test_run_of now [(now, None)] (AnnotateTest now desp n g)
  | run_goes_on t hist g now ev g' : test_run_of t hist g → t ≤ now → own_tag ev → ann_step now ev g = Some g' →
      test_run_of now ((now, fault g') :: hist) g'.

(** What they were at a time. *)
Fixpoint fault_at (hist : list (Z * option string)) (tm : Z) : option string :=
  match hist with
  | [] => None
  | (t, f) :: hist => if t <=? tm then f else fault_at hist tm
  end.

(** What the timeline shows for a time. *)
Definition shown (an : Annotation) (tm : Z) (d : string) : Prop :=
  (∃ a, a ∈ annotations an ∧ Tag a = TAG_PARTITION ∧ Description a = d ∧ Start a ≤ tm < End a) ∨
  (∃ c, continuous an !! TAG_PARTITION = Some c ∧ c_desp c = d ∧ c_start c ≤ tm).

(** ** The faults on the timeline *)

Lemma app_nonempty (a b : string) : a ≠ "" → a +:+ b ≠ "".
Proof. by destruct a. Qed.

Lemma fault_text_nonempty fi text : fault_text fi = Some text → text ≠ "".
Proof.
  unfold fault_text. destruct (for_each _ _ _) as [[[conn crashes] tx]|] eqn:E; simpl; [|done]. intros [= <-].
  assert (Ht : tx ≠ "").
  { change ((conn, crashes, tx).2 ≠ ""). eapply (for_each_keeps (λ st : list Z * list Z * string, st.2 ≠ "")); [| |exact E]; [|done]. intros id [[a b] t] [[a' b'] t'] Hs Hb. unfold annotateFault_body in Hb.
    destruct ((fi_crashed fi).[id]) as [c|]; simpl in Hb; [|done]. destruct ((fi_connected fi).[id]) as [k|]; simpl in Hb; [|done].
    destruct c; [by injection Hb as <- <- <-|]. destruct k; [by injection Hb as <- <- <-|]. injection Hb as <- <- <-. by apply app_nonempty. }
  repeat case_match; repeat apply app_nonempty; done.
Qed.

(** The slices are as long as there are servers. *)
Definition finfo_ok (g : Globals) : Prop :=
  ∃ fi, finfo g = Some fi ∧ length (fi_connected fi) = Z.to_nat (nservers fi) ∧ length (fi_crashed fi) = Z.to_nat (nservers fi).

(** The timeline of the faults is as it was. *)
Definition kept (an an' : Annotation) : Prop :=
  (∀ a, Tag a = TAG_PARTITION → a ∈ annotations an' ↔ a ∈ annotations an) ∧
  continuous an' !! TAG_PARTITION = continuous an !! TAG_PARTITION.

(** What a step does to it. *)
Definition moves (now : Z) (g g' : Globals) : Prop :=
  (kept (annotation g) (annotation g') ∧ fault g' = fault g) ∨
  (∃ d, d ≠ "" ∧ annotation g' = annotateContinuousColor now TAG_PARTITION d d COLOR_FAULT (annotation g) ∧ fault g' = Some d) ∨
  (annotation g' = annotateContinuousEnd now TAG_PARTITION (annotation g) ∧ fault g' = None).

Lemma kept_add a an : Tag a ≠ TAG_PARTITION → kept an (add a an).
Proof.
  intros Ha. split; [|done]. intros b Hb. simpl. rewrite elem_of_app, list_elem_of_singleton. split; [|by left].
  intros [?| ->]; done.
Qed.

Lemma kept_color now tag desp details color an : tag ≠ TAG_PARTITION → kept an (annotateContinuousColor now tag desp details color an).
Proof.
  intros Ht. unfold annotateContinuousColor. destruct (continuous an !! tag) as [c|]; split; simpl; rewrite ?lookup_insert_ne by done; try done.
  intros b Hb. rewrite elem_of_app, list_elem_of_singleton. split; [|by left]. intros [?| ->]; done.
Qed.

Lemma kept_end now tag an : tag ≠ TAG_PARTITION → kept an (annotateContinuousEnd now tag an).
Proof.
  intros Ht. split; simpl; [|by rewrite lookup_delete_ne]. intros b Hb. rewrite elem_of_app, list_elem_of_singleton. split; [|by left].
  intros [?| ->]; done.
Qed.

Lemma annotateFault_moves now g fi g' :
  length (fi_connected fi) = Z.to_nat (nservers fi) → length (fi_crashed fi) = Z.to_nat (nservers fi) →
  annotateFault now (set_finfo fi g) = Some g' → finfo_ok g' ∧ moves now g g'.
Proof.
  intros H1 H2. unfold annotateFault. simpl. destruct (no_fault fi) eqn:En.
  - intros [= <-]. split; [by exists fi|]. right; right. split; [done|]. unfold fault. simpl. by rewrite En.
  - destruct (fault_text fi) as [text|] eqn:Et; simpl; [|done]. intros [= <-]. split; [by exists fi|]. right; left. exists text.
    split; [by apply (fault_text_nonempty fi)|]. split; [done|]. unfold fault. simpl. by rewrite En.
Qed.

Lemma mark_crashed_spec b servers crashed changed crashed' :
  mark_crashed b servers crashed = Some (changed, crashed') →
  length crashed' = length crashed ∧ (changed = false → crashed' = crashed).
Proof.
  intros E. change ((λ st : bool * list bool, length st.2 = length crashed ∧ (st.1 = false → st.2 = crashed)) (changed, crashed')).
  eapply for_each_keeps; [| |exact E]; [|done]. intros id [ch l] [ch' l'] [Hlen Hsame] Hb. simpl in *.
  destruct (l.[id]) as [x|] eqn:Ex; simpl in Hb; [|done]. destruct (go_store l id b) as [l1|] eqn:Es; simpl in Hb; [|done].
  injection Hb as <- <-. pose proof (go_index_Some_range _ _ _ Ex) as Hr. rewrite go_index_lookup in Ex by lia.
  assert (l1 = <[Z.to_nat id := b]> l) as -> by (rewrite go_store_Some in Es by done; by injection Es as <-).
  split; [by rewrite length_insert|]. intros [-> Hx]%orb_false_iff. rewrite <- Hsame by done. apply list_insert_id.
  rewrite Ex. f_equal. by destruct x, b.
Qed.

Lemma crash_moves b now servers g g' : finfo_ok g → AnnotateCrash b now servers g = Some g' → finfo_ok g' ∧ moves now g g'.
Proof.
  intros (fi & Ef & L1 & L2) Hs. unfold AnnotateCrash in Hs. rewrite Ef in Hs. simpl in Hs.
  destruct (mark_crashed b servers (fi_crashed fi)) as [[ch cr]|] eqn:Em; simpl in Hs; [|done].
  destruct (mark_crashed_spec _ _ _ _ _ Em) as [M1 M2]. destruct ch; [eapply annotateFault_moves in Hs; [done|done|simpl; lia]|].
  injection Hs as <-. rewrite (M2 eq_refl). split; [by eexists|]. left. split; [done|]. unfold fault. simpl. by rewrite Ef.
Qed.

Lemma step_moves now ev g g' :
  finfo_ok g → own_tag ev → ann_step now ev g = Some g' → finfo_ok g' ∧ moves now g g'.
Proof.
  intros Hok Hev Hs. pose proof Hok as (fi & Ef & L1 & L2).
  assert (Hk : ∀ f, kept (annotation g) (f (annotation g)) → g' = on_annotation f g → finfo_ok g' ∧ moves now g g').
  { intros f Hf ->. split; [done|]. by left. }
  destruct ev as [tag desp details color|tag start desp details color|tag desp details color|tag|details|desp details color|con| |l|l|]; simpl in *.
  - injection Hs as <-. eapply Hk; [|done]. by apply kept_add.
  - injection Hs as <-. eapply Hk; [|done]. by apply kept_add.
  - injection Hs as <-. eapply Hk; [|done]. by apply kept_color.
  - injection Hs as <-. eapply Hk; [|done]. by apply kept_end.
  - unfold AnnotateCheckerBegin in Hs. rewrite Ef in Hs. injection Hs as <-. split; [by eexists|]. left. split; [done|].
    unfold fault. simpl. by rewrite Ef.
  - unfold AnnotateCheckerEnd in Hs. rewrite Ef in Hs. simpl in Hs. destruct (_ =? _); injection Hs as <-; (eapply Hk; [|done]; by apply kept_add).
  - unfold AnnotateConnection in Hs. rewrite Ef in Hs. simpl in Hs. case_decide; [injection Hs as <-; split; [done|by left]|].
    eapply annotateFault_moves in Hs; [done| |done]. simpl. unfold go_copy. rewrite length_app, length_take, length_drop. lia.
  - unfold AnnotateClearFailure in Hs. rewrite Ef in Hs. injection Hs as <-. split.
    { eexists. split; [done|]. simpl. by rewrite !length_replicate. }
    right; right. split; [done|]. unfold fault. simpl. unfold no_fault. simpl. rewrite L1, L2, !bool_decide_true by done. done.
  - by apply (crash_moves true now l).
  - by apply (crash_moves false now l).
  - injection Hs as <-. eapply Hk; [|done]. done.
Qed.

(** During a run: what the timeline shows is what the faults were, and what is over was
    over by now. *)
Record timeline_ok (t : Z) (hist : list (Z * option string)) (g : Globals) : Prop := {
  tl_info : finfo_ok g;
  tl_now : ∃ hist', hist = (t, fault g) :: hist';
  tl_past a : a ∈ annotations (annotation g) → Tag a = TAG_PARTITION → End a ≤ t;
  tl_cont : c_desp <$> continuous (annotation g) !! TAG_PARTITION = fault g;
  tl_start c : continuous (annotation g) !! TAG_PARTITION = Some c → c_start c ≤ t;
  tl_shown tm d : d ≠ "" → shown (annotation g) tm d ↔ fault_at hist tm = Some d
}.

Lemma fault_at_now t f hist tm : t ≤ tm → fault_at ((t, f) :: hist) tm = f.
Proof. intros H. simpl. by destruct (Z.leb_spec t tm); [|lia]. Qed.

Lemma fault_at_before t f hist tm : tm < t → fault_at ((t, f) :: hist) tm = fault_at hist tm.
Proof. intros H. simpl. by destruct (Z.leb_spec t tm); [lia|]. Qed.

(** The continuous annotation is over at [now]: nothing before changes, and what comes
    behind is up to the new one. *)
Lemma timeline_until t hist g now g' :
  timeline_ok t hist g → t ≤ now → finfo_ok g' →
  (∀ a, a ∈ annotations (annotation g) → a ∈ annotations (annotation g')) →
  (∀ a, Tag a = TAG_PARTITION → a ∈ annotations (annotation g') → a ∈ annotations (annotation g) ∨
     End a = now ∧ (Description a = "" ∨ ∃ c, continuous (annotation g) !! TAG_PARTITION = Some c ∧ a = concretize TAG_PARTITION c now)) →
  (∀ c, continuous (annotation g) !! TAG_PARTITION = Some c → concretize TAG_PARTITION c now ∈ annotations (annotation g')) →
  c_desp <$> continuous (annotation g') !! TAG_PARTITION = fault g' →
  (∀ c, continuous (annotation g') !! TAG_PARTITION = Some c → c_start c = now) →
  timeline_ok now ((now, fault g') :: hist) g'.
Proof.
  intros [_ _ Hpast _ Hst Hsh] Hle Hfi H1 H2 H3 Hc Hs. split; try done; [by eexists| |intros c ->%Hs; done|].
  - intros a Ha Ht. destruct (H2 a Ht Ha) as [Ho|[-> _]]; [|done]. specialize (Hpast a Ho Ht). lia.
  - intros tm d Hd. destruct (Z_le_gt_dec now tm) as [Hn|Hn].
    + rewrite fault_at_now by done. rewrite <- Hc. split.
      * intros [(a & Ha & Ht & _ & Hi)|(c & -> & <- & _)]; [|done]. exfalso.
        destruct (H2 a Ht Ha) as [Ho|[He _]]; [specialize (Hpast a Ho Ht)|]; lia.
      * destruct (continuous (annotation g') !! TAG_PARTITION) as [c|] eqn:E; simpl; [|done]. intros [= <-]. right. exists c.
        split_and!; [done|done|]. by rewrite (Hs c eq_refl).
    + rewrite fault_at_before by lia. rewrite <- (Hsh tm d Hd). split.
      * intros [(a & Ha & Ht & Hde & Hi)|(c & Hcc & _ & Hsc)]; [|rewrite (Hs c Hcc) in Hsc; lia].
        destruct (H2 a Ht Ha) as [Ho|[_ [He|(c & Hcc & ->)]]]; [left; by exists a|congruence|]. right. exists c. by split_and!; [..|apply Hi].
      * intros [(a & Ha & Hr)|(c & Hcc & <- & Hsc)]; [left; exists a; split; [by apply H1|done]|].
        left. exists (concretize TAG_PARTITION c now). split_and!; [by apply H3|done|done|done|simpl; lia].
Qed.

Lemma timeline_kept t hist g now g' :
  timeline_ok t hist g → t ≤ now → finfo_ok g' → kept (annotation g) (annotation g') → fault g' = fault g →
  timeline_ok now ((now, fault g') :: hist) g'.
Proof.
  intros [_ (hist' & Eh) Hpast Hc Hst Hsh] Hle Hfi [K1 K2] Ef. split; [done|by eexists| |by rewrite K2, Ef| |].
  - intros a Ha Ht. specialize (Hpast a (proj1 (K1 a Ht) Ha) Ht). lia.
  - intros c Hcc. rewrite K2 in Hcc. specialize (Hst c Hcc). lia.
  - intros tm d Hd. assert (Hs : shown (annotation g') tm d ↔ shown (annotation g) tm d).
    { unfold shown. rewrite K2. split; (intros [(a & Ha & Ht & Hr)|Hr]; [left; exists a; split; [by apply K1|done]|by right]). }
    rewrite Hs, Hsh by done. destruct (Z_le_gt_dec now tm) as [Hn|Hn]; [|by rewrite fault_at_before by lia].
    rewrite fault_at_now by done. rewrite Eh, fault_at_now by lia. by rewrite Ef.
Qed.

Lemma run_timeline t hist g : test_run_of t hist g → timeline_ok t hist g.
Proof.
  induction 1 as [g now desp n Hn|t hist g now ev g' _ IH Hle Hev Hs].
  - assert (Hf : fault (AnnotateTest now desp n g) = None).
    { unfold fault, no_fault. simpl. by rewrite !bool_decide_true by done. }
    split; rewrite ?Hf; try done; [eexists; split; [done|]; simpl; by rewrite !length_replicate|by eexists| |].
    + by intros a ->%list_elem_of_singleton.
    + intros tm d Hd. simpl. split; [|by case_match]. intros [(a & Ha & Ht & _)|(c & Hc & _)]; [|done].
      by apply list_elem_of_singleton in Ha as ->.
  - destruct (step_moves now ev g g' (tl_info _ _ _ IH) Hev Hs) as [Hfi [[Hk Hf]|[(d & Hd & Ea & Hf)|[Ea Hf]]]]; [by eapply timeline_kept|..].
    + apply (timeline_until t hist g); try done; rewrite Ea; unfold annotateContinuousColor;
        destruct (continuous (annotation g) !! TAG_PARTITION) as [c|] eqn:Ec; simpl; rewrite ?lookup_insert_eq; try done; try (by rewrite Hf);
        try (intros a Ha; apply elem_of_app; by left); try (by intros ? [= <-]); try (by left).
      * intros a Ht [Ha| ->%list_elem_of_singleton]%elem_of_app; [by left|right]. split; [done|]. right. by exists c.
      * intros c' [= <-]. apply elem_of_app. right. by apply list_elem_of_singleton.
    + apply (timeline_until t hist g); try done; rewrite Ea; unfold annotateContinuousEnd; simpl; rewrite ?lookup_delete_eq; try done.
      * intros a Ha. apply elem_of_app. by left.
      * intros a Ht [Ha| ->%list_elem_of_singleton]%elem_of_app; [by left|right]. split; [done|].
        destruct (continuous (annotation g) !! TAG_PARTITION) as [c|]; [right; by exists c|by left].
      * intros c ->. apply elem_of_app. right. by apply list_elem_of_singleton.
Qed.

(** ** Properties *)

(** (The timeline shows the faults).  In every run of a test, whatever is annotated
    besides, the timeline shows at each time exactly the disconnected and the crashed
    servers that there were at that time; at the end, finalize keeps this and gives every
    annotation that lasts an end.  (Partitions made by [AnnotateTwoPartitions] are not in
    finfo.) *)
Theorem timeline_shows_faults range t hist g now :
  (∀ m, range m ≡ₚ map_to_list m) → test_run_of t hist g → t ≤ now →
  (∀ tm d, d ≠ "" → shown (annotation g) tm d ↔ fault_at hist tm = Some d) ∧
  (∀ tm d, d ≠ "" → tm < now →
     (∃ a, a ∈ (finalize range now (annotation g)).2 ∧ Tag a = TAG_PARTITION ∧ Description a = d ∧ Start a ≤ tm < End a) ↔
     fault_at hist tm = Some d).
Proof.
  intros Hr Hrun Hle. apply run_timeline in Hrun. split; [apply Hrun|]. intros tm d Hd Htm. rewrite <- (tl_shown _ _ _ Hrun tm d Hd).
  unfold shown, finalize. simpl. split.
  - intros (a & Ha & Ht & Hde & Hi). apply elem_of_app in Ha as [Ha|Ha]; [left; by exists a|right].
    apply list_elem_of_fmap in Ha as ([tag c] & -> & Hc). rewrite Hr, elem_of_map_to_list in Hc. simpl in *. subst tag. exists c. by split_and!; [..|apply Hi].
  - intros [(a & Ha & Hx)|(c & Hc & <- & Hs)]; [exists a; split; [apply elem_of_app; by left|done]|].
    exists (concretize TAG_PARTITION c now). split_and!; [|done|done|done|simpl; lia]. apply elem_of_app. right.
    apply list_elem_of_fmap. exists (TAG_PARTITION, c). split; [done|]. by rewrite Hr, elem_of_map_to_list.
Qed.

(** (One file per failure).  When [cleanup] has written the timeline, the next one writes
    nothing and forgets it. *)
Theorem cleanup_once range enabled opened opened' now now1 now2 now3 failed failed' desp desp' an an' x :
  cleanup range enabled opened now now1 failed desp an = (an', Some x) →
  cleanup range enabled opened' now2 now3 failed' desp' an' = (mkAnnotation, None) ∧ x ≠ [] ∧ (failed = true ∨ enabled = "always").
Proof.
  unfold cleanup. destruct (bool_decide (enabled = "never")) eqn:E1; simpl; [done|].
  destruct (negb failed && negb (bool_decide (enabled = "always"))) eqn:E2; simpl; [done|]. destruct (finalized an); [done|].
  destruct (decide (_ = [])); [done|]. destruct opened; [|done]. intros [= <- <-]. simpl. rewrite orb_true_r. split_and!; [done|by destruct (annotations an ++ _)|].
  apply andb_false_iff in E2 as [Hf|Ha]; [left; by destruct failed|right]. by apply negb_false_iff, bool_decide_eq_true in Ha.
Qed.

(** (Two slips).  [AnnotateCheckerEnd] means to forget when the checker began and resets a
    copy: a later one without a begin is drawn from there.  [annotateContinuousEnd] means
    to do nothing for a tag that has nothing going on, and adds an annotation without a
    text from the beginning of time. *)
Theorem checker_begin_kept now now1 now2 details desp details' color desp1 details1 color1 g fi :
  now ≠ 0 → finfo g = Some fi →
  ∃ g1 g2 g3, AnnotateCheckerBegin now details g = Some g1 ∧ AnnotateCheckerEnd now1 desp details' color g1 = Some g2 ∧
    AnnotateCheckerEnd now2 desp1 details1 color1 g2 = Some g3 ∧
    annotations (annotation g3) = annotations (annotation g2) ++
      [mkPAnnotation TAG_CHECKER now now2 desp1 (details +:+ ": " +:+ details1) color1].
Proof.
  intros Hn%Z.eqb_neq Ef. unfold AnnotateCheckerBegin, AnnotateCheckerEnd. rewrite Ef. simpl. do 3 eexists. split; [done|].
  simpl. rewrite Hn. split; [done|]. simpl. rewrite Hn. done.
Qed.

Theorem clear_failure_adds now g fi :
  finfo g = Some fi → continuous (annotation g) !! TAG_PARTITION = None →
  ∃ g', AnnotateClearFailure now g = Some g' ∧
    annotations (annotation g') = annotations (annotation g) ++ [mkPAnnotation TAG_PARTITION 0 now "" "" ""].
Proof.
  intros Ef Ec. unfold AnnotateClearFailure. rewrite Ef. simpl. eexists. split; [done|]. simpl. unfold annotateContinuousEnd. by rewrite Ec.
Qed.

(** ** A test of three servers *)

Definition three_servers : Globals := AnnotateTest 10 "basic" 3 (mkGlobals mkAnnotation None).
Definition three_events : list (Z * AnnEvent) :=
  [(20, EConnection [true; false; true]); (25, EPoint "user" "x" "x" COLOR_USER); (30, EShutdown [0]); (40, EConnection [true; true; true]);
   (50, ERestart [0])].

#[local] Instance own_tag_dec ev : Decision (own_tag ev).
Proof. destruct ev; simpl; apply _. Defined.

Definition ann_next (x : Z * AnnEvent) (w : Z * list (Z * option string) * Globals) : option (Z * list (Z * option string) * Globals) :=
  let '(now, ev) := x in
  let '(t, hist, g) := w in
  if decide (t ≤ now ∧ own_tag ev) then g ← ann_step now ev g; Some (now, (now, fault g) :: hist, g) else None.

Definition three_end : option (Z * list (Z * option string) * Globals) := for_each ann_next three_events (10, [(10, None)], three_servers).

Example three_servers_timeline :
  ∃ t hist g, three_end = Some (t, hist, g) ∧ test_run_of t hist g ∧
    hist = [(50, None); (40, Some "partition = [1 2] / crash = [0]"); (30, Some "partition = [1] [2] / crash = [0]");
            (25, Some "partition = [1] [0 2]"); (20, Some "partition = [1] [0 2]"); (10, None)] ∧
    ((λ a, (Start a, End a, Description a)) <$> filter (λ a, Tag a = TAG_PARTITION) (annotations (annotation g))) =
      [(20, 30, "partition = [1] [0 2]"); (30, 40, "partition = [1] [2] / crash = [0]"); (40, 50, "partition = [1 2] / crash = [0]")].
Proof.
  assert (Hall : ∀ t hist g, three_end = Some (t, hist, g) → test_run_of t hist g).
  { intros t hist g E. change ((λ w : Z * list (Z * option string) * Globals, test_run_of w.1.1 w.1.2 w.2) (t, hist, g)).
    eapply for_each_keeps; [| |exact E]; [|by apply run_begins].
    intros [now ev] [[t1 h1] g1] [[t2 h2] g2] Hw. simpl. case_decide as Hd; [|done]. destruct (ann_step now ev g1) as [g3|] eqn:Es; simpl; [|done].
    intros [= <- <- <-]. destruct Hd. by eapply run_goes_on. }
  destruct three_end as [[[t hist] g]|] eqn:E; [|vm_compute in E; discriminate E]. exists t, hist, g. split; [done|]. split; [by apply Hall|].
  vm_compute in E. injection E as _ <- <-. split; vm_compute; reflexivity.
Qed.
