(* ===== verification/KVNet.v ===== *)
(** * kvsrv1 over labrpc

    The single key/value server of KVSrv.v as a server object of the network of
    Labrpc.v: its methods Get and Put behind the service that MakeService finds by
    reflection, and any number of clients that call them.  What KVSrv.v takes a run
    of the server to be, a list of requests executed one after the other, is what
    the network gives.  The runs at the end also show the properties of Labrpc.v at
    work. *)

From S2P Require Import Prelude KVSrv Cluster Labrpc.
Local Open Scope Z_scope.
Local Open Scope go_scope.

(** ** The service *)

Definition KvReply : Type := GetReply + PutReply.

(** The network carries the arguments with their type; [reflect] passes them on to
    the method, which is only called with arguments of its own type. *)
Definition kv_Get (a : Req) (kv : KVServer) : KVServer * KvReply :=
  match a with
  | RGet g => ((Get g kv).1, inl (Get g kv).2)
  | RPut _ => (kv, inl (mkGetReply "" 0 ErrNone))
  end.

Definition kv_Put (a : Req) (kv : KVServer) : KVServer * KvReply :=
  match a with
  | RPut p => ((Put p kv).1, inr (Put p kv).2)
  | RGet _ => (kv, inr (mkPutReply ErrNone))
  end.

(** The methods of *KVServer: Get and Put take a receiver, arguments and a pointer
    to the reply; Kill takes nothing. *)
Definition kv_methods : list (Method (St := KVServer) (A := Req) (R := KvReply)) :=
  [mkMethod "Get" "" 3 true 0 kv_Get; mkMethod "Put" "" 3 true 0 kv_Put;
   mkMethod "Kill" "" 1 false 0 (λ _ kv, (kv, inr (mkPutReply ErrNone)))].

Definition kv_service : Service := MakeService "KVServer" kv_methods.

Lemma kv_service_methods : methods kv_service = <["Put" := kv_Put]> (<["Get" := kv_Get]> ∅).
Proof. reflexivity. Qed.

(** What a request is answered in state [kv]. *)
Definition kv_reply (a : Req) (kv : KVServer) : KvReply :=
  match a with RGet g => inl (Get g kv).2 | RPut p => inr (Put p kv).2 end.

(** The zero value of the arguments. *)
#[export] Instance Req_inhabited : Inhabited Req := populate (RGet (mkGetArgs "" 0 0)).

Section kvnet.
Context {name : Type} `{!EqDecision name} `{!Countable name}.
Context `{!Gob Req} `{!Gob KvReply}.

Abbreviation World := (NetWorld (St := KVServer) (A := Req) (R := KvReply) (name := name)).
Abbreviation KvEvent := (NetEvent (St := KVServer) (A := Req) (R := KvReply) (name := name)).

(** The method that a request goes to. *)
Definition method_of (a : Req) : string := match a with RGet _ => "KVServer.Get" | RPut _ => "KVServer.Put" end.

(** Servers are made by MakeKVServer and registered with their service, and clerks
    call the method for their arguments. *)
Definition kv_event (ev : KvEvent) : Prop :=
  match ev with
  | ECall _ _ m args => m = method_of args
  | EMakeServer _ st => st = MakeKVServer
  | EAddService _ svc => svc = kv_service
  | _ => True
  end.

Inductive kv_reachable : World → Prop :=
  | kv_init : kv_reachable net_start
  | kv_next ev w w' : kv_reachable w → kv_event ev → net_step ev w = Next w' → kv_reachable w'.

Lemma kv_reachable_net w : kv_reachable w → net_reachable w.
Proof. induction 1 as [|ev w w' _ IH _ Hs]; [constructor|]. by eapply net_next. Qed.

(** A handler that ran is the method for its arguments. *)
Definition typed (h : Handled (St := KVServer) (A := Req) (R := KvReply)) : Prop :=
  h_func h = match h_args h with RGet _ => kv_Get | RPut _ => kv_Put end.

Record kv_inv (w : World) : Prop := {
  kn_services p rs x svc : heap w !! p = Some rs → services rs !! x = Some svc → svc = kv_service;
  kn_run t c p svc m : calls w !! t = Some c → c_disp c = Some (DRun p svc m) → svc = kv_service;
  kn_created p st : created w !! p = Some st → st = MakeKVServer;
  kn_call t c : calls w !! t = Some c → svcMeth (c_req c) = method_of (c_args c);
  kn_handled h : h ∈ handled w → typed h
}.

(** The service finds for a request the method of its arguments. *)
Lemma kv_method a f :
  methods kv_service !! methodName (method_of a) = Some f → f = match a with RGet _ => kv_Get | RPut _ => kv_Put end.
Proof.
  rewrite kv_service_methods. destruct a; simpl.
  - change (methodName "KVServer.Get") with "Get". rewrite lookup_insert_ne, lookup_insert_eq by done. congruence.
  - change (methodName "KVServer.Put") with "Put". rewrite lookup_insert_eq. congruence.
Qed.

Lemma kv_call_inv (w w' : World) t c c' : net_inv w → kv_inv w → call_post t w w' c c' → kv_inv w'.
Proof.
  intros Hn [K1 K2 K3 K4 K5] [P1 P2 [P3 P3'] _ _ P4 P5 P6 P7]. constructor.
  - intros p rs x svc (rs0 & Hp & ->)%P5. by apply (K1 p).
  - intros u x p svc m. rewrite P2, lookup_insert_Some. intros [[<- <-]|[_ Hu]]; [|by apply (K2 u x p svc m)].
    intros [Hd|(rs & Hp & Hs & _)]%P6; [by apply (K2 t c p svc m)|exact (K1 p rs _ svc Hp Hs)].
  - intros p st. rewrite P4. apply K3.
  - intros u x. rewrite P2, lookup_insert_Some. intros [[<- <-]|[_ Hu]]; [|by apply (K4 u)]. rewrite P3, P3'. by apply (K4 t).
  - intros h. destruct P7 as [->|(h' & p & svc & m & -> & Hd & Hm & Ha & _)]; [apply K5|].
    intros [->|Hh]%elem_of_cons; [|by apply K5]. unfold typed.
    pose proof (ni_call w Hn t c P1) as [C1 C2 _]. unfold disp_ok in C2. rewrite Hd in C2. destruct C2 as (_ & _ & ->).
    rewrite (K2 t c p svc _ P1 Hd), (K4 t c P1) in Hm. apply kv_method in Hm. rewrite Ha. unfold dispatch_args.
    by rewrite C1, gob_decode_encode.
Qed.

Lemma kv_step_inv ev (w w' : World) : net_inv w → kv_inv w → kv_event ev → net_step ev w = Next w' → kv_inv w'.
Proof.
  intros Hn HK Hev Hs.
  destruct ev as [t e m args|t|t|t|t|t|t|t|t|t|t drop|t|t| |b|b|b| |e|e|p st|p svc|s p|s|e s|e b]; cbn [net_step] in Hs.
  2-13: apply call_step_post in Hs as (c & c' & Hp); by eapply kv_call_inv.
  all: destruct HK as [K1 K2 K3 K4 K5]; unfold Cleanup, MakeEnd, DeleteEnd, outcome_bind, run_go, enabled in Hs;
    repeat case_match; simplify_eq; try (by constructor); constructor; try done; simpl.
  - intros u c p svc m'. rewrite lookup_insert_Some. intros [[<- <-]|[_ Hu]]; [done|by apply (K2 u)].
  - intros u c. rewrite lookup_insert_Some. intros [[<- <-]|[_ Hu]]; [done|by apply (K4 u)].
  - intros q rs x svc. rewrite lookup_insert_Some. intros [[<- <-]|[_ Hq]]; [done|by apply (K1 q)].
  - intros q st'. rewrite lookup_insert_Some. intros [[<- <-]|[_ Hq]]; [done|by apply (K3 q)].
  - intros q rs x svc'. rewrite lookup_insert_Some. intros [[<- <-]|[_ Hq]]; [|by apply (K1 q)]. simpl.
    rewrite lookup_insert_Some. intros [[_ <-]|[_ Hx]]; [done|by eapply K1].
Qed.

Lemma kv_reachable_inv w : kv_reachable w → net_inv w ∧ kv_inv w.
Proof.
  intros Hr. split; [by apply net_reachable_inv, kv_reachable_net|].
  induction Hr as [|ev w w' Hr IH Hev Hs]; [constructor; try done; by intros h ?%elem_of_nil|].
  eapply kv_step_inv; try done. by apply net_reachable_inv, kv_reachable_net.
Qed.

(** ** The run of a server *)

Lemma executed_serve st hs st' :
  Forall typed hs → executed st hs st' →
  st' = serve_all (h_args <$> hs) st ∧
  ∀ before h after, hs = before ++ h :: after → h_reply h = kv_reply (h_args h) (serve_all (h_args <$> before) st).
Proof.
  intros Ht. revert st. induction Ht as [|h hs Hh Ht IH]; intros st; simpl.
  { intros ->. split; [done|]. by intros []. }
  intros [Hr He]. assert (Ef : h_func h (h_args h) st = (serve (h_args h) st, kv_reply (h_args h) st)).
  { rewrite Hh. by destruct (h_args h). }
  rewrite Ef in Hr, He. destruct (IH _ He) as [-> Hrep]. split; [done|].
  intros [|b before] x after; simpl; intros [= -> E]; [done|]. by apply (Hrep before x after).
Qed.

(** C24 (kvsrv1 over labrpc is a sequential server).  However the network loses,
    delays and reorders messages and whatever the tests do to it, the state of a
    server object is that of KVSrv.v after a sequence of requests, each the request
    of one call and of no other; and a call that returns true returns the reply of
    that server to its request at its place in the sequence. *)
Theorem kvsrv_over_labrpc w :
  kv_reachable w →
  (∀ p rs, heap w !! p = Some rs →
     rcvr rs = serve_all (h_args <$> server_log p w) MakeKVServer ∧ NoDup (h_call <$> server_log p w)) ∧
  (∀ t c r, calls w !! t = Some c → c_phase c = Returned (Some r) →
     ∃ p before h after, server_log p w = before ++ h :: after ∧ h_call h = t ∧ h_args h = c_args c ∧
       r = kv_reply (c_args c) (serve_all (h_args <$> before) MakeKVServer)).
Proof.
  intros [Hn HK]%kv_reachable_inv.
  assert (Ht : ∀ p, Forall typed (server_log p w)).
  { intros p. apply Forall_forall. intros h [_ Hh]%list_elem_of_filter. apply (kn_handled w HK). by rewrite elem_of_reverse in Hh. }
  assert (He : ∀ p rs, heap w !! p = Some rs → executed MakeKVServer (server_log p w) (rcvr rs)).
  { intros p rs Hp. destruct (ni_exec w Hn p rs Hp) as (st0 & Hc & He). by rewrite (kn_created w HK p st0 Hc) in He. }
  split.
  - intros p rs Hp. split; [by apply executed_serve, He|by apply server_log_NoDup].
  - intros t c r Hc Ep. pose proof (ni_call w Hn t c Hc) as Hok. pose proof (co_phase _ _ _ Hok) as P.
    unfold phase_ok in P. rewrite Ep in P. destruct P as (h & Hh & <-). destruct (handled_for_ok _ _ _ Hok) as [_ Hs].
    rewrite Hh in Hs. apply Forall_cons_1 in Hs as [[Ea _] _]. assert (Hin : h ∈ handled_for t w) by (rewrite Hh; by left).
    apply list_elem_of_filter in Hin as [Et Hin]. destruct (ni_heap w Hn h Hin) as [rs Hrs].
    assert (Hlog : h ∈ server_log (h_server h) w) by (apply list_elem_of_filter; by rewrite elem_of_reverse).
    apply list_elem_of_split in Hlog as (before & after & E). exists (h_server h), before, h, after. split_and!; try done.
    rewrite <- Ea. eapply executed_serve; [apply Ht|by apply He|done].
Qed.
End kvnet.

(** ** Runs *)

#[export] Instance Req_countable : Countable Req.
Proof.
  refine (inj_countable' (λ r, match r with
    | RGet g => inl (ga_Key g, ga_ClientId g, ga_SeqNum g)
    | RPut a => inr (pa_Key a, pa_Value a, pa_Version a, pa_ClientId a, pa_SeqNum a) end)
    (λ x, match x with inl (k, c, s) => RGet (mkGetArgs k c s) | inr (k, v, n, c, s) => RPut (mkPutArgs k v n c s) end) _).
  by intros [[]|[]].
Defined.

#[export] Instance GetReply_countable : Countable GetReply.
Proof. refine (inj_countable' (λ r, (gr_Value r, gr_Version r, gr_Err r)) (λ '(v, n, e), mkGetReply v n e) _). by intros []. Defined.
#[export] Instance PutReply_countable : Countable PutReply.
Proof. refine (inj_countable' pr_Err mkPutReply _). by intros []. Defined.

#[export] Instance Req_codec : Gob Req := countable_gob Req.
#[export] Instance KvReply_codec : Gob KvReply := countable_gob KvReply.

Definition KvNet : Type := NetWorld (St := KVServer) (A := Req) (R := KvReply) (name := string).

(** One server, one end connected to it. *)
Definition setup_events : list (NetEvent (St := KVServer) (A := Req) (R := KvReply) (name := string)) :=
  [EMakeServer 1 MakeKVServer; EAddService 1 kv_service; EAddServer "s" 1; EMakeEnd "c"; EConnect "c" "s"; EEnable "c" true].

(** Call [t] runs up to the moment its reply is on its way. *)
Definition call_events (t : nat) (a : Req) : list (NetEvent (St := KVServer) (A := Req) (R := KvReply) (name := string)) :=
  [ECall t (mkClientEnd "c") (method_of a) a; EAccept t; EInfo t; EForward t; ELookup t; EHandle t; EEch t; ECheck t false].

Definition put_req : Req := RPut (mkPutArgs "k" "v" 0 1 1).
Definition get_req : Req := RGet (mkGetArgs "k" 1 2).

Definition net_from evs (w : KvNet) : KvNet := match net_run evs w with Next w => w | _ => net_start end.

Definition runs evs (w : KvNet) : bool := match net_run evs w with Next _ => true | _ => false end.

Lemma net_from_run evs w : runs evs w = true → net_run evs w = Next (net_from evs w).
Proof. unfold runs, net_from. by destruct (net_run evs w). Qed.

Lemma net_run_kv evs (w w' : KvNet) : Forall kv_event evs → kv_reachable w → net_run evs w = Next w' → kv_reachable w'.
Proof.
  intros Hev. revert w. induction Hev as [|ev evs He _ IH]; intros w Hr; cbn [net_run]; [by intros [= <-]|].
  destruct (net_step ev w) as [w1| |] eqn:Es; cbn [outcome_bind]; try done. apply IH. by eapply kv_next.
Qed.

Definition net_ready : KvNet := net_from setup_events net_start.
Definition net_put : KvNet := net_from (call_events 7 put_req) net_ready.
Definition net_end : KvNet := net_from (EReply 7 :: call_events 8 get_req ++ [EReply 8]) net_put.

Lemma net_ready_reachable : kv_reachable net_ready.
Proof.
  apply (net_run_kv setup_events net_start); [by repeat constructor|constructor|apply net_from_run; vm_compute; reflexivity].
Qed.

Lemma net_put_reachable : kv_reachable net_put.
Proof.
  apply (net_run_kv (call_events 7 put_req) net_ready); [by repeat constructor|exact net_ready_reachable|].
  apply net_from_run. vm_compute. reflexivity.
Qed.

Lemma net_end_reachable : kv_reachable net_end.
Proof.
  apply (net_run_kv (EReply 7 :: call_events 8 get_req ++ [EReply 8]) net_put); [by repeat constructor|exact net_put_reachable|].
  apply net_from_run. vm_compute. reflexivity.
Qed.

Lemma net_end_calls :
  c_phase <$> calls net_end !! 7%nat = Some (Returned (Some (inr (mkPutReply OK)))) ∧
  c_phase <$> calls net_end !! 8%nat = Some (Returned (Some (inl (mkGetReply "v" 1 OK)))) ∧
  c_args <$> calls net_end !! 8%nat = Some get_req.
Proof. split_and!; vm_compute; reflexivity. Qed.

(** The Get reads what the Put before it wrote. *)
Lemma kvsrv_over_labrpc_witness :
  ∃ p before h after, server_log p net_end = before ++ h :: after ∧ h_call h = 8%nat ∧
    inl (mkGetReply "v" 1 OK) = kv_reply get_req (serve_all (h_args <$> before) MakeKVServer).
Proof.
  pose proof net_end_calls as (_ & Hp & Ha). destruct (calls net_end !! 8%nat) as [c|] eqn:Hc; [|discriminate Hp].
  injection Hp as Hp. injection Ha as Ha.
  destruct (proj2 (kvsrv_over_labrpc net_end net_end_reachable) 8%nat c _ Hc Hp) as (p & before & h & after & E & Et & _ & Er).
  rewrite Ha in Er. exists p, before, h, after. split; [exact E|]. split; [exact Et|exact Er].
Defined.

Lemma labrpc_contract_witness :
  ∃ h c, handled_for 8 net_end = [h] ∧ h_reply h = inl (mkGetReply "v" 1 OK) ∧ calls net_end !! 8%nat = Some c ∧ serves_on net_end c h.
Proof.
  pose proof net_end_calls as (_ & Hp & _). destruct (calls net_end !! 8%nat) as [c|] eqn:Hc; [|discriminate Hp].
  injection Hp as Hp.
  destruct (labrpc_contract net_end 8 c (kv_reachable_net _ net_end_reachable) Hc) as (_ & H2 & H3). destruct (H3 _ Hp) as (h & Hh & Hr).
  exists h, c. split; [exact Hh|]. split; [exact Hr|]. split; [reflexivity|]. apply H2. rewrite Hh. left.
Defined.

(** The server is deleted while the reply of the Put is on its way. *)
Definition net_deleted : KvNet := net_from [EDeleteServer "s"] net_put.
Definition net_late : KvNet := net_from [EReply 7] net_deleted.

Lemma net_deleted_reachable : net_reachable net_deleted.
Proof.
  apply (kv_reachable_net net_deleted), (net_run_kv [EDeleteServer "s"] net_put); [by repeat constructor|exact net_put_reachable|].
  apply net_from_run. vm_compute. reflexivity.
Qed.

Lemma deleted_server_silent_witness : ∃ c0, calls net_deleted !! 7%nat = Some c0 ∧ positive c0.
Proof.
  assert (Hh : h_server <$> handled_for 7 net_late = [1%nat]) by (vm_compute; reflexivity).
  assert (Hp : c_phase <$> calls net_late !! 7%nat = Some (Returned (Some (inr (mkPutReply OK))))) by (vm_compute; reflexivity).
  assert (Hs : servers (net net_deleted) = {["s" := None]}) by (vm_compute; reflexivity).
  destruct (calls net_late !! 7%nat) as [c|] eqn:Hc; [|discriminate Hp]. injection Hp as Hp.
  destruct (handled_for 7 net_late) as [|h [|]] eqn:Eh; [discriminate Hh| |discriminate Hh]. injection Hh as Hh.
  refine (proj2 (deleted_server_silent net_deleted [EReply 7] net_late 1 7 c h _ net_deleted_reachable _ _ _ Hc Hp _ Hh)).
  - intros s. rewrite Hs. intros H. apply lookup_singleton_Some in H as [_ H]. discriminate H.
  - apply net_from_run. vm_compute. reflexivity.
  - intros s H. apply list_elem_of_singleton in H. discriminate H.
  - rewrite Eh. left.
Defined.

(** The Put over a reliable network. *)
Lemma reliable_call_succeeds_witness :
  direct "c" "s" 1 (net net_ready) ∧
  ∃ c, calls net_put !! 7%nat = Some c ∧ c_phase c ≠ Returned None.
Proof.
  assert (Hd : direct "c" "s" 1 (net net_ready)) by (vm_compute; repeat split).
  split; [exact Hd|]. assert (He : (λ c, endname (c_req c)) <$> calls net_put !! 7%nat = Some "c") by (vm_compute; reflexivity).
  destruct (calls net_put !! 7%nat) as [c|] eqn:Hc; [|discriminate He]. injection He as He. exists c. split; [reflexivity|].
  refine (reliable_call_succeeds net_ready (call_events 7 put_req) net_put "c" "s" 1 7 c
    (kv_reachable_net _ net_ready_reachable) Hd _ _ _ Hc He).
  - vm_compute. reflexivity.
  - repeat constructor.
  - apply net_from_run. vm_compute. reflexivity.
Defined.




(** ** A handler that outlives its call *)

(** processReq gives up on a handler when the end is disabled, and Call returns
    false; the handler runs all the same, and it may run after the retransmission
    of the clerk has been answered. *)
Definition abandoned_put : Req := RPut (mkPutArgs "k" "x" 1 1 1).
Definition other_put : Req := RPut (mkPutArgs "k" "y" 0 2 1).

Definition late_events : list (NetEvent (St := KVServer) (A := Req) (R := KvReply) (name := string)) :=
  setup_events ++
  [ECall 7 (mkClientEnd "c") "KVServer.Put" abandoned_put; EAccept 7; EInfo 7; EForward 7;
   EEnable "c" false; EPoll 7; ECheck 7 false; EReply 7; EEnable "c" true] ++
  call_events 8 abandoned_put ++ [EReply 8] ++ call_events 9 other_put ++ [EReply 9; ELookup 7; EHandle 7].

(** A Put that was refused is performed later: the first attempt is abandoned, the
    second is told that the key does not exist, which is what Clerk.Put returns;
    when another clerk has created the key, the handler of the first attempt
    overwrites it. *)
Theorem refused_put_performed_later :
  ∃ w : KvNet, net_run late_events net_start = Next w ∧
    c_phase <$> calls w !! 7%nat = Some (Returned None) ∧
    c_phase <$> calls w !! 8%nat = Some (Returned (Some (inr (mkPutReply ErrNoKey)))) ∧
    put_err false ErrNoKey = ErrNoKey ∧
    (rs ← heap w !! 1%nat; cache (rcvr rs) !! "k") = Some (mkKVPair "x" 2).
Proof.
  exists (net_from late_events net_start). split_and!; [apply net_from_run|..]; vm_compute; reflexivity.
Qed.
