(* ===== verification/ShardCfg.v ===== *)
(** * shardkv1/shardcfg: the assignment of shards to replica groups

    shardcfg.go of src/src/shardkv1/shardcfg.  [Shards] is an array of twelve group
    ids, [Groups] a map; the random iteration order of a Go map is the order of a
    list argument.  log.Fatalf is [None].  [Rebalance] loops until the assignment
    is balanced; its fuel is NShards * NShards + 1, and it always stops before:
    the sum of the squares of the groups' shard counts, at most 144 at the start,
    drops with every move.  Shard and group numbers are unbounded [Z]. *)

From S2P Require Import Prelude.
Local Open Scope Z_scope.
Local Open Scope go_scope.

Definition NShards : Z := 12.
Definition NumFirst : Z := 1.
Definition Gid1 : Z := 1.

(** ** Keys *)

Definition Key2Shard (key : string) : Z := fnv32a key mod NShards.

(** ** Configurations *)

Record ShardConfig := mkShardConfig {
  Num : Z;
  Shards : list Z;
  Groups : gmap Z (list string)
}.

Definition MakeShardConfig : ShardConfig := mkShardConfig 0 (replicate (Z.to_nat NShards) 0) ∅.

Definition Copy (cfg : ShardConfig) : ShardConfig :=
  let c := MakeShardConfig in
  mkShardConfig (Num cfg) (Shards cfg)
    (map_fold (λ k srvs g, <[k := srvs]> g) (Groups c) (Groups cfg)).

Definition set_Shards (v : list Z) (c : ShardConfig) : ShardConfig := mkShardConfig (Num c) v (Groups c).

(** [counts[g] += 1] for every shard. *)
Definition counts (shards : list Z) : gmap Z Z :=
  foldl (λ m g, <[g := default 0 (m !! g) + 1]> m) ∅ shards.

(** The group ids in ascending order. *)
Definition groups_sorted (c : ShardConfig) : list Z := merge_sort Z.le (elements (dom (Groups c))).

Definition analyze_step (cs : gmap Z Z) (st : Z * Z * Z * Z) (g : Z) : Z * Z * Z * Z :=
  let '(mg, mn, lg, ln) := st in
  let n := default 0 (cs !! g) in
  let '(lg, ln) := if n <? ln then (g, n) else (lg, ln) in
  let '(mg, mn) := if mn <? n then (g, n) else (mg, mn) in
  (mg, mn, lg, ln).

Definition analyze (c : ShardConfig) : Z * Z * Z * Z :=
  foldl (analyze_step (counts (Shards c))) (-1, -1, -1, 257) (groups_sorted c).

Definition least (c : ShardConfig) : Z := (analyze c).1.2.

(** The loop that moves one shard from [mg] to [lg]. *)
Fixpoint move_one (mg lg : Z) (shards : list Z) : list Z :=
  match shards with
  | [] => []
  | g :: shards => if g =? mg then lg :: shards else g :: move_one mg lg shards
  end.

(** The body of the loop over unassigned shards. *)
Definition assign_shard (s : Z) (c : ShardConfig) : option ShardConfig :=
  g ← (Shards c).[s];
  if decide (is_Some (Groups c !! g)) then Some c
  else shards ← go_store (Shards c) s (least c); Some (set_Shards shards c).

Fixpoint balance_loop (fuel : nat) (c : ShardConfig) : option ShardConfig :=
  match fuel with
  | O => None
  | S fuel =>
      let '(mg, mn, lg, ln) := analyze c in
      if mn <? ln + 2 then Some c
      else balance_loop fuel (set_Shards (move_one mg lg (Shards c)) c)
  end.

Definition Rebalance (c : ShardConfig) : option ShardConfig :=
  if decide (Groups c = ∅) then Some (set_Shards ((λ _, 0) <$> Shards c) c)
  else
    c ← for_range NShards assign_shard c;
    balance_loop (Z.to_nat (NShards * NShards + 1)) c.

(** Some server of [servers] is in a group already. *)
Definition shares_server (servers : list string) (groups : gmap Z (list string)) : bool :=
  existsb (λ '(_, xservers), existsb (λ s1, existsb (λ s2, bool_decide (s1 = s2)) servers) xservers) (map_to_list groups).

Fixpoint Join_loop (servers : list (Z * list string)) (changed : bool) (cfg : ShardConfig) : option (ShardConfig * bool) :=
  match servers with
  | [] => if changed then Some (mkShardConfig (Num cfg + 1) (Shards cfg) (Groups cfg), true) else None
  | (gid, srvs) :: servers =>
      match Groups cfg !! gid with
      | Some _ => Some (cfg, false)
      | None =>
          if shares_server srvs (Groups cfg) then None
          else Join_loop servers true (mkShardConfig (Num cfg) (Shards cfg) (<[gid := srvs]> (Groups cfg)))
      end
  end.

Definition Join (servers : list (Z * list string)) (cfg : ShardConfig) : option (ShardConfig * bool) :=
  Join_loop servers false cfg.

Fixpoint Leave_loop (gids : list Z) (changed : bool) (cfg : ShardConfig) : option (ShardConfig * bool) :=
  match gids with
  | [] => if changed then Some (mkShardConfig (Num cfg + 1) (Shards cfg) (Groups cfg), true) else None
  | gid :: gids =>
      match Groups cfg !! gid with
      | None => Some (cfg, false)
      | Some _ => Leave_loop gids true (mkShardConfig (Num cfg) (Shards cfg) (delete gid (Groups cfg)))
      end
  end.

Definition Leave (gids : list Z) (cfg : ShardConfig) : option (ShardConfig * bool) := Leave_loop gids false cfg.

Definition JoinBalance (servers : list (Z * list string)) (cfg : ShardConfig) : option (ShardConfig * bool) :=
  '(cfg, ok) ← Join servers cfg;
  if (ok : bool) then cfg ← Rebalance cfg; Some (cfg, true) else Some (cfg, false).

Definition LeaveBalance (gids : list Z) (cfg : ShardConfig) : option (ShardConfig * bool) :=
  '(cfg, ok) ← Leave gids cfg;
  if (ok : bool) then cfg ← Rebalance cfg; Some (cfg, true) else Some (cfg, false).

Definition GidServers (sh : Z) (cfg : ShardConfig) : option (Z * list string * bool) :=
  gid ← (Shards cfg).[sh];
  Some (match Groups cfg !! gid with Some srvs => (gid, srvs, true) | None => (gid, [], false) end).

Definition IsMember (gid : Z) (cfg : ShardConfig) : bool := existsb (λ g, g =? gid) (Shards cfg).

(** [true] when none of the checks is fatal. *)
Definition CheckConfig (groups : list Z) (cfg : ShardConfig) : bool :=
  let cs := counts (Shards cfg) in
  let '(mx, mn) := foldl (λ '(mx, mn) g,
      let n := default 0 (cs !! g) in
      (if mx <? n then n else mx, if n <? mn then n else mn)) (0, 257) (elements (dom (Groups cfg))) in
  (Z.of_nat (size (Groups cfg)) =? go_len groups) &&
  forallb (λ g, bool_decide (is_Some (Groups cfg !! g))) groups &&
  ((go_len groups <=? 0) || forallb (λ g, bool_decide (is_Some (Groups cfg !! g))) (Shards cfg)) &&
  negb (mn + 1 <? mx).

(** ** Counting *)

(** How often [g] occurs. *)
Definition occ (g : Z) (l : list Z) : Z := go_len (filter (λ x, x = g) l).

Lemma occ_cons g x l : occ g (x :: l) = occ g l + (if decide (x = g) then 1 else 0).
Proof. unfold occ, go_len. rewrite filter_cons. case_decide; simpl; lia. Qed.

Lemma occ_app g l1 l2 : occ g (l1 ++ l2) = occ g l1 + occ g l2.
Proof. unfold occ, go_len. rewrite filter_app, length_app. lia. Qed.

Lemma occ_bounds g l : 0 ≤ occ g l ≤ go_len l.
Proof. unfold occ, go_len. pose proof (length_filter (λ x, x = g) l). lia. Qed.

Lemma counts_occ g l : default 0 (counts l !! g) = occ g l.
Proof.
  unfold counts. assert (H : ∀ m, default 0 (foldl (λ m g, <[g := default 0 (m !! g) + 1]> m) m l !! g) = default 0 ((m : gmap Z Z) !! g) + occ g l).
  { induction l as [|x l IH]; intros m; cbn [foldl]; [unfold occ, go_len; simpl; lia|].
    rewrite IH, occ_cons. case_decide as E; [subst x; rewrite lookup_insert_eq; simpl; lia|].
    rewrite lookup_insert_ne by done. lia. }
  rewrite H, lookup_empty. simpl. lia.
Qed.

Lemma occ_move_one mg lg l x :
  0 < occ mg l → mg ≠ lg →
  occ x (move_one mg lg l) = occ x l + (if decide (x = lg) then 1 else 0) - (if decide (x = mg) then 1 else 0).
Proof.
  intros Hpos Hne. induction l as [|g l IH]; cbn [move_one].
  - unfold occ, go_len in Hpos. simpl in Hpos. lia.
  - destruct (Z.eqb_spec g mg) as [->|Hg].
    + rewrite !occ_cons. repeat case_decide; subst; lia || congruence.
    + rewrite !occ_cons in *. rewrite decide_False in Hpos by done. rewrite IH by lia. repeat case_decide; subst; lia.
Qed.

Lemma length_move_one mg lg l : length (move_one mg lg l) = length l.
Proof. induction l as [|g l IH]; simpl; [done|]. case_match; simpl; lia. Qed.

Lemma move_one_Forall (P : Z → Prop) mg lg l : P lg → Forall P l → Forall P (move_one mg lg l).
Proof. intros Hl. induction 1 as [|g l Hg Hl' IH]; simpl; [done|]. case_match; by constructor. Qed.

(** ** What analyze finds *)

Lemma elem_of_groups_sorted g c : g ∈ groups_sorted c ↔ is_Some (Groups c !! g).
Proof. unfold groups_sorted. by rewrite merge_sort_Permutation, elem_of_elements, elem_of_dom. Qed.

Lemma NoDup_groups_sorted c : NoDup (groups_sorted c).
Proof. unfold groups_sorted. rewrite merge_sort_Permutation. apply NoDup_elements. Qed.

Definition is_most (l : list Z) (gs : list Z) (mg mn : Z) : Prop :=
  mg ∈ gs ∧ mn = occ mg l ∧ ∀ g, g ∈ gs → occ g l ≤ mn.
Definition is_least (l : list Z) (gs : list Z) (lg ln : Z) : Prop :=
  lg ∈ gs ∧ ln = occ lg l ∧ ∀ g, g ∈ gs → ln ≤ occ g l.

Lemma analyze_step_spec l gs g mg mn lg ln :
  (gs = [] ∧ mn = -1 ∧ ln = 257) ∨ (is_most l gs mg mn ∧ is_least l gs lg ln) → occ g l < 257 →
  ∃ mg' mn' lg' ln', analyze_step (counts l) (mg, mn, lg, ln) g = (mg', mn', lg', ln') ∧
    is_most l (gs ++ [g]) mg' mn' ∧ is_least l (gs ++ [g]) lg' ln'.
Proof.
  intros H Hlt. unfold analyze_step. rewrite counts_occ. pose proof (occ_bounds g l) as Hb.
  assert (Hin : ∀ x, x ∈ gs ++ [g] ↔ x ∈ gs ∨ x = g) by (intros x; by rewrite elem_of_app, list_elem_of_singleton).
  destruct H as [(-> & -> & ->)|[(M1 & M2 & M3) (L1 & L2 & L3)]].
  - destruct (Z.ltb_spec (occ g l) 257); [|lia]. destruct (Z.ltb_spec (-1) (occ g l)); [|lia].
    eexists _, _, _, _. split; [done|]. split; (split; [by left|]; split; [done|]);
      intros x ->%list_elem_of_singleton; lia.
  - destruct (Z.ltb_spec (occ g l) ln), (Z.ltb_spec mn (occ g l)); eexists _, _, _, _; (split; [done|]);
      (split; (split; [rewrite Hin; auto|]; split; [done|]));
      (intros x [Hx| ->]%Hin; [specialize (M3 x Hx); specialize (L3 x Hx); lia|lia]).
Qed.

Lemma analyze_fold l gs gs' st :
  (∀ g, g ∈ gs' → occ g l < 257) →
  (gs = [] ∧ st.1.1.2 = -1 ∧ st.2 = 257) ∨ (is_most l gs st.1.1.1 st.1.1.2 ∧ is_least l gs st.1.2 st.2) →
  gs ++ gs' ≠ [] →
  let '(mg, mn, lg, ln) := foldl (analyze_step (counts l)) st gs' in
  is_most l (gs ++ gs') mg mn ∧ is_least l (gs ++ gs') lg ln.
Proof.
  revert gs st. induction gs' as [|g gs' IH]; intros gs [[[mg mn] lg] ln] Hlt H Hne; cbn [foldl].
  - rewrite app_nil_r in *. destruct H as [(-> & _)|H]; [done|]. done.
  - destruct (analyze_step_spec l gs g mg mn lg ln H) as (mg' & mn' & lg' & ln' & E & H1 & H2); [apply Hlt; by left|].
    rewrite E. specialize (IH (gs ++ [g]) (mg', mn', lg', ln')). rewrite <- app_assoc in IH. apply IH; auto.
    intros x Hx. apply Hlt. by right.
Qed.

Lemma analyze_spec c :
  Groups c ≠ ∅ → go_len (Shards c) = NShards →
  ∃ mg mn lg ln, analyze c = (mg, mn, lg, ln) ∧
    is_most (Shards c) (groups_sorted c) mg mn ∧ is_least (Shards c) (groups_sorted c) lg ln.
Proof.
  intros Hne Hlen. pose proof (analyze_fold (Shards c) [] (groups_sorted c) (-1, -1, -1, 257)) as H. simpl in H.
  unfold analyze. destruct (foldl _ _ _) as [[[mg mn] lg] ln]. exists mg, mn, lg, ln. split; [done|]. apply H; auto.
  - intros g _. pose proof (occ_bounds g (Shards c)). unfold NShards in Hlen. lia.
  - destruct (map_choose (Groups c) Hne) as (g & srvs & Hg). intros E.
    assert (Hin : g ∈ groups_sorted c) by (apply elem_of_groups_sorted; eauto). rewrite E in Hin. by apply elem_of_nil in Hin.
Qed.

Lemma least_member c : Groups c ≠ ∅ → go_len (Shards c) = NShards → is_Some (Groups c !! least c).
Proof.
  intros Hne Hlen. destruct (analyze_spec c Hne Hlen) as (mg & mn & lg & ln & E & _ & (Hl & _)).
  unfold least. rewrite E. by apply elem_of_groups_sorted.
Qed.

(** ** Termination: the sum of squares drops *)

Definition sumZ (f : Z → Z) (l : list Z) : Z := foldr (λ g a, f g + a) 0 l.

Lemma sumZ_ext f f' l : (∀ g, g ∈ l → f' g = f g) → sumZ f' l = sumZ f l.
Proof.
  induction l as [|g l IH]; simpl; [done|]. intros H. rewrite (H g) by (by left). rewrite IH; [done|]. intros x Hx. apply H. by right.
Qed.

Lemma sumZ_update f f' l g :
  NoDup l → g ∈ l → (∀ x, x ≠ g → f' x = f x) → sumZ f' l = sumZ f l + f' g - f g.
Proof.
  induction 1 as [|x l Hx Hnd IH]; [by intros ?%elem_of_nil|]. simpl. intros [<-|Hin]%elem_of_cons Hf.
  - rewrite (sumZ_ext f f' l); [lia|]. intros y Hy. apply Hf. intros ->. done.
  - rewrite IH by done. rewrite (Hf x); [lia|]. intros ->. done.
Qed.

Lemma sumZ_le f g l : (∀ x, x ∈ l → f x ≤ g x) → sumZ f l ≤ sumZ g l.
Proof.
  induction l as [|x l IH]; simpl; [lia|]. intros H. assert (f x ≤ g x) by (apply H; by left).
  assert (sumZ f l ≤ sumZ g l) by (apply IH; intros y Hy; apply H; by right). lia.
Qed.

Lemma sumZ_mul k f l : sumZ (λ x, k * f x) l = k * sumZ f l.
Proof. induction l as [|x l IH]; simpl; lia. Qed.

Lemma sumZ_occ gs l : NoDup gs → sumZ (λ g, occ g l) gs ≤ go_len l.
Proof.
  intros Hnd. induction l as [|x l IH].
  - rewrite (sumZ_ext (λ _, 0)); [|done]. clear. unfold go_len. induction gs; simpl in *; lia.
  - destruct (decide (x ∈ gs)) as [Hin|Hout].
    + rewrite (sumZ_update (λ g, occ g l) _ gs x) by (done || (intros y Hy; rewrite occ_cons, decide_False by done; lia)).
      rewrite occ_cons, decide_True by done. unfold go_len in *. simpl. lia.
    + rewrite (sumZ_ext (λ g, occ g l)); [unfold go_len in *; simpl; lia|].
      intros y Hy. rewrite occ_cons, decide_False; [lia|]. intros ->. done.
Qed.

(** The potential of a configuration. *)
Definition potential (c : ShardConfig) : Z := sumZ (λ g, occ g (Shards c) * occ g (Shards c)) (groups_sorted c).

Lemma potential_bound c : go_len (Shards c) = NShards → 0 ≤ potential c ≤ NShards * NShards.
Proof.
  intros Hlen. pose proof (sumZ_occ (groups_sorted c) (Shards c) (NoDup_groups_sorted c)) as Hs. unfold potential. split.
  - clear. induction (groups_sorted c) as [|g l IH]; simpl; [lia|]. nia.
  - etransitivity; [apply (sumZ_le _ (λ g, NShards * occ g (Shards c)))|].
    + intros g _. pose proof (occ_bounds g (Shards c)). nia.
    + rewrite sumZ_mul. unfold NShards in *. lia.
Qed.

Lemma groups_sorted_set v c : groups_sorted (set_Shards v c) = groups_sorted c.
Proof. done. Qed.

Lemma potential_move c mg lg :
  mg ∈ groups_sorted c → lg ∈ groups_sorted c → occ lg (Shards c) + 2 ≤ occ mg (Shards c) →
  potential (set_Shards (move_one mg lg (Shards c)) c) < potential c.
Proof.
  intros Hm Hl Hgap. assert (Hne : mg ≠ lg) by (intros ->; lia).
  assert (Hpos : 0 < occ mg (Shards c)) by (pose proof (occ_bounds lg (Shards c)); lia).
  unfold potential. rewrite groups_sorted_set. cbn [Shards set_Shards].
  set (f := λ g, occ g (Shards c) * occ g (Shards c)).
  set (f' := λ g, occ g (move_one mg lg (Shards c)) * occ g (move_one mg lg (Shards c))).
  set (h := λ g, if decide (g = mg) then f' mg else f g).
  pose proof (NoDup_groups_sorted c) as Hnd.
  rewrite (sumZ_update h f' (groups_sorted c) lg Hnd Hl).
  2: { intros x Hx. unfold h. destruct (decide (x = mg)) as [->|Hxm]; [done|]. unfold f', f.
       rewrite occ_move_one by done. rewrite !decide_False by done. f_equal; lia. }
  rewrite (sumZ_update f h (groups_sorted c) mg Hnd Hm) by (intros x Hx; unfold h; by rewrite decide_False).
  unfold h. rewrite decide_True by done. rewrite decide_False by done. unfold f', f. rewrite !occ_move_one by done.
  rewrite (decide_True (P := mg = mg)), (decide_True (P := lg = lg)), (decide_False (P := mg = lg)),
    (decide_False (P := lg = mg)) by done. nia.
Qed.

Lemma balance_loop_spec fuel c :
  Groups c ≠ ∅ → go_len (Shards c) = NShards → potential c < Z.of_nat fuel →
  Forall (λ g, is_Some (Groups c !! g)) (Shards c) →
  ∃ shards, balance_loop fuel c = Some (set_Shards shards c) ∧ go_len shards = NShards ∧
    Forall (λ g, is_Some (Groups c !! g)) shards ∧
    ∀ g g', is_Some (Groups c !! g) → is_Some (Groups c !! g') → occ g shards ≤ occ g' shards + 1.
Proof.
  revert c. induction fuel as [|fuel IH]; intros c Hne Hlen Hpot Hall; [pose proof (potential_bound c Hlen); lia|].
  cbn [balance_loop]. destruct (analyze_spec c Hne Hlen) as (mg & mn & lg & ln & -> & (M1 & M2 & M3) & (L1 & L2 & L3)).
  destruct (Z.ltb_spec mn (ln + 2)) as [Hb|Hb].
  - exists (Shards c). split; [by destruct c|]. split_and!; try done. intros g g' Hg%elem_of_groups_sorted Hg'%elem_of_groups_sorted.
    specialize (M3 g Hg). specialize (L3 g' Hg'). lia.
  - destruct (IH (set_Shards (move_one mg lg (Shards c)) c)) as (shards & -> & H1 & H2 & H3); try done.
    + unfold go_len in *. simpl. by rewrite length_move_one.
    + pose proof (potential_move c mg lg M1 L1). lia.
    + simpl. apply move_one_Forall; [by apply elem_of_groups_sorted|done].
    + by exists shards.
Qed.

(** The loop that gives every shard a group. *)
Lemma assign_all_spec c :
  Groups c ≠ ∅ → go_len (Shards c) = NShards →
  ∃ shards, for_range NShards assign_shard c = Some (set_Shards shards c) ∧ go_len shards = NShards ∧
    Forall (λ g, is_Some (Groups c !! g)) shards ∧
    (∀ s g, (Shards c).[s] = Some g → is_Some (Groups c !! g) → shards.[s] = Some g).
Proof.
  intros Hne Hlen.
  destruct (for_range_ind (λ k c', ∃ shards, c' = set_Shards shards c ∧ go_len shards = NShards ∧
      (∀ s g, s < k → shards.[s] = Some g → is_Some (Groups c !! g)) ∧
      (∀ s, k ≤ s → shards.[s] = (Shards c).[s]) ∧
      (∀ s g, (Shards c).[s] = Some g → is_Some (Groups c !! g) → shards.[s] = Some g))
    assign_shard NShards c) as (c' & E & shards & -> & H1 & H2 & H3 & H4).
  - unfold NShards. lia.
  - exists (Shards c). split_and!; try done; [by destruct c|].
    intros s g Hs ?%go_index_Some_range. lia.
  - intros k c' Hk (shards & -> & H1 & H2 & H3 & H4). unfold assign_shard. cbn [Shards set_Shards Groups].
    go_read shards k g Hg.
    destruct (decide (is_Some (Groups c !! g))) as [Hs|Hs].
    + eexists. split; [done|]. exists shards. split_and!; try done; [|intros s Hs'; apply H3; lia].
      intros s x Hlt Hx. destruct (decide (s = k)) as [->|]; [congruence|]. apply (H2 s); [lia|done].
    + rewrite go_store_Some by lia. bind_simpl. eexists. split; [done|].
      assert (El : go_store shards k (least (set_Shards shards c)) = Some (<[Z.to_nat k := least (set_Shards shards c)]> shards))
        by (apply go_store_Some; lia).
      exists (<[Z.to_nat k := least (set_Shards shards c)]> shards). split_and!.
      * done.
      * by rewrite (go_len_store _ _ _ _ El).
      * intros s x Hlt. rewrite (go_index_store _ _ s _ _ El). case_decide as Es; [|apply H2; lia].
        intros [= <-]. by apply (least_member (set_Shards shards c)).
      * intros s Hs'. rewrite (go_index_store _ _ s _ _ El), decide_False by lia. apply H3. lia.
      * intros s x Hx Hsome. rewrite (go_index_store _ _ s _ _ El). case_decide as Es; [|by apply H4].
        subst s. rewrite H3 in Hg by lia. congruence.
  - exists shards. split_and!; try done. apply Forall_lookup. intros i g Hi. apply (H2 (Z.of_nat i)).
    + apply lookup_lt_Some in Hi. unfold go_len in H1. lia.
    + by rewrite go_index_nat.
Qed.

(** A configuration in which every shard has a group and the counts differ by at
    most one. *)
Definition valid_config (c : ShardConfig) : Prop :=
  go_len (Shards c) = NShards ∧ Forall (λ g, is_Some (Groups c !! g)) (Shards c) ∧
  ∀ g g', is_Some (Groups c !! g) → is_Some (Groups c !! g') → occ g (Shards c) ≤ occ g' (Shards c) + 1.

Lemma Rebalance_valid c :
  Groups c ≠ ∅ → go_len (Shards c) = NShards →
  ∃ shards, Rebalance c = Some (set_Shards shards c) ∧ valid_config (set_Shards shards c).
Proof.
  intros Hne Hlen. unfold Rebalance. rewrite decide_False by done.
  destruct (assign_all_spec c Hne Hlen) as (s1 & -> & H1 & H2 & _). bind_simpl.
  destruct (balance_loop_spec (Z.to_nat (NShards * NShards + 1)) (set_Shards s1 c)) as (s2 & -> & H3 & H4 & H5); try done.
  - pose proof (potential_bound (set_Shards s1 c) H1). lia.
  - exists s2. split; [done|]. done.
Qed.

Lemma check_fold cs gs mx mn :
  let '(mx', mn') := foldl (λ '(mx, mn) g, let n := default 0 ((cs : gmap Z Z) !! g) in
      (if mx <? n then n else mx, if n <? mn then n else mn)) (mx, mn) gs in
  (mx' = mx ∨ ∃ g, g ∈ gs ∧ mx' = default 0 (cs !! g)) ∧ (mn' = mn ∨ ∃ g, g ∈ gs ∧ mn' = default 0 (cs !! g)) ∧
  mn' ≤ mn ∧ (∀ g, g ∈ gs → mn' ≤ default 0 (cs !! g)).
Proof.
  revert mx mn. induction gs as [|g gs IH]; intros mx mn; cbn [foldl]; [split_and!; auto; [lia|by intros g ?%elem_of_nil]|].
  set (mx1 := if mx <? _ then _ else _). set (mn1 := if _ <? mn then _ else _). specialize (IH mx1 mn1).
  destruct (foldl _ _ _) as [mx' mn']. destruct IH as (H1 & H2 & H3 & H4).
  assert (Hmx : mx1 = mx ∨ mx1 = default 0 (cs !! g)) by (unfold mx1; case_match; auto).
  assert (Hmn : (mn1 = mn ∨ mn1 = default 0 (cs !! g)) ∧ mn1 ≤ mn ∧ mn1 ≤ default 0 (cs !! g)).
  { unfold mn1. destruct (Z.ltb_spec (default 0 (cs !! g)) mn); split_and!; auto; lia. }
  destruct Hmn as (Hmn & Hle & Hle'). split_and!.
  - destruct H1 as [->|(x & Hx & ->)]; [|right; exists x; split; [by right|done]].
    destruct Hmx as [->| ->]; [by left|right; exists g; split; [by left|done]].
  - destruct H2 as [->|(x & Hx & ->)]; [|right; exists x; split; [by right|done]].
    destruct Hmn as [->| ->]; [by left|right; exists g; split; [by left|done]].
  - lia.
  - intros x [->|Hx]%elem_of_cons; [lia|by apply H4].
Qed.

Lemma valid_config_check c : valid_config c → Groups c ≠ ∅ → CheckConfig (groups_sorted c) c = true.
Proof.
  intros (Hlen & Hall & Hbal) Hne. unfold CheckConfig.
  pose proof (check_fold (counts (Shards c)) (elements (dom (Groups c))) 0 257) as Hf.
  destruct (foldl _ _ _) as [mx mn]. destruct Hf as (H1 & H2 & _ & H4).
  assert (Hmem : ∀ g, g ∈ elements (dom (Groups c)) ↔ is_Some (Groups c !! g)) by (intros g; by rewrite elem_of_elements, elem_of_dom).
  rewrite !andb_true_iff. split_and!.
  - apply Z.eqb_eq. unfold go_len, groups_sorted. rewrite merge_sort_Permutation. by rewrite <- size_dom.
  - apply forallb_forall. intros g Hg%list_elem_of_In. apply bool_decide_eq_true. by apply elem_of_groups_sorted.
  - apply orb_true_iff. right. apply forallb_forall. intros g Hg%list_elem_of_In. apply bool_decide_eq_true.
    rewrite Forall_forall in Hall. by apply Hall.
  - apply negb_true_iff, Z.ltb_ge. destruct (map_choose (Groups c) Hne) as (g0 & srvs & Hg0).
    assert (Hg0' : g0 ∈ elements (dom (Groups c))) by (apply Hmem; eauto). pose proof (H4 g0 Hg0') as Hm0.
    assert (Hmn : 0 ≤ mn).
    { destruct H2 as [->|(g & _ & ->)]; [lia|]. rewrite counts_occ. apply occ_bounds. }
    destruct H1 as [->|(g & Hg & ->)]; [lia|]. rewrite counts_occ.
    destruct H2 as [->|(g' & Hg' & ->)]; rewrite ?counts_occ.
    + rewrite counts_occ in Hm0. pose proof (occ_bounds g0 (Shards c)). unfold NShards in Hlen. lia.
    + apply Hbal; by apply Hmem.
Qed.

(** C33 (Rebalance balances).  From any assignment of the twelve shards, with at
    least one group, Rebalance terminates; every shard then belongs to an existing
    group and no group has two shards more than another, which is what CheckConfig
    checks; the number and the groups are untouched. *)
Theorem Rebalance_balances c :
  Groups c ≠ ∅ → go_len (Shards c) = NShards →
  ∃ c', Rebalance c = Some c' ∧ Num c' = Num c ∧ Groups c' = Groups c ∧
    CheckConfig (groups_sorted c) c' = true ∧
    Forall (λ g, is_Some (Groups c !! g)) (Shards c') ∧
    ∀ g g', is_Some (Groups c !! g) → is_Some (Groups c !! g') → occ g (Shards c') ≤ occ g' (Shards c') + 1.
Proof.
  intros Hne Hlen. destruct (Rebalance_valid c Hne Hlen) as (shards & E & Hv).
  exists (set_Shards shards c). split_and!; try done; [|apply Hv|apply Hv]. by apply (valid_config_check (set_Shards shards c)).
Qed.

Lemma balance_loop_stable fuel c :
  Groups c ≠ ∅ → valid_config c → balance_loop (S fuel) c = Some c.
Proof.
  intros Hne (Hlen & _ & Hbal). cbn [balance_loop].
  destruct (analyze_spec c Hne Hlen) as (mg & mn & lg & ln & -> & (M1 & M2 & _) & (L1 & L2 & _)).
  destruct (Z.ltb_spec mn (ln + 2)) as [|Hb]; [done|].
  specialize (Hbal mg lg (proj1 (elem_of_groups_sorted _ _) M1) (proj1 (elem_of_groups_sorted _ _) L1)). lia.
Qed.

(** (Rebalance moves nothing without need).  A balanced assignment is left as
    it is; and whatever the assignment, the first loop of Rebalance changes only
    shards whose group does not exist. *)
Theorem Rebalance_stable c :
  Groups c ≠ ∅ → valid_config c →
  Rebalance c = Some c ∧ for_range NShards assign_shard c = Some c.
Proof.
  intros Hne Hv. pose proof Hv as (Hlen & Hall & _).
  destruct (assign_all_spec c Hne Hlen) as (s1 & E & H1 & _ & H3).
  assert (s1 = Shards c) as ->.
  { apply list_eq. intros i. destruct (Shards c !! i) as [g|] eqn:Eg.
    - rewrite <- go_index_nat. apply H3; [by rewrite go_index_nat|]. by apply (proj1 (Forall_lookup _ _) Hall i).
    - apply lookup_ge_None. apply lookup_ge_None in Eg. unfold go_len in *. lia. }
  assert (Ec : set_Shards (Shards c) c = c) by (by destruct c). rewrite Ec in E. split; [|done].
  unfold Rebalance. rewrite decide_False by done. rewrite E. bind_simpl.
  replace (Z.to_nat (NShards * NShards + 1)) with (S (Z.to_nat (NShards * NShards))) by (unfold NShards; lia).
  by apply balance_loop_stable.
Qed.

(** ** Join and Leave *)

Lemma Join_loop_true servers changed cfg cfg' :
  Join_loop servers changed cfg = Some (cfg', true) →
  Num cfg' = Num cfg + 1 ∧ Shards cfg' = Shards cfg ∧ (changed = true ∨ servers ≠ []) ∧
  (∀ gid, gid ∈ servers.*1 → Groups cfg !! gid = None) ∧
  ∀ gid srvs, Groups cfg' !! gid = Some srvs ↔ Groups cfg !! gid = Some srvs ∨ (gid, srvs) ∈ servers.
Proof.
  revert changed cfg. induction servers as [|[gid srvs] servers IH]; intros changed cfg; cbn [Join_loop].
  - destruct changed; [|done]. intros [= <-]. split_and!; auto; [by intros gid ?%elem_of_nil|].
    intros gid srvs. simpl. split; [auto|]. by intros [|?%elem_of_nil].
  - destruct (Groups cfg !! gid) as [x|] eqn:Eg; [done|]. destruct (shares_server _ _); [done|].
    intros (H1 & H2 & _ & H4 & H5)%IH. cbn [Num Shards Groups] in *. split_and!; auto.
    + intros g [->|Hin]%elem_of_cons; [done|]. specialize (H4 g Hin). by apply lookup_insert_None in H4 as [? _].
    + intros g s. rewrite H5, lookup_insert_Some, elem_of_cons. split.
      * intros [[[-> ->]|[_ ?]]|?]; auto.
      * intros [Hg|[[= -> ->]|Hin]]; auto. left. right. split; [|done]. intros ->. congruence.
Qed.

Lemma Leave_loop_true gids changed cfg cfg' :
  Leave_loop gids changed cfg = Some (cfg', true) →
  Num cfg' = Num cfg + 1 ∧ Shards cfg' = Shards cfg ∧ (changed = true ∨ gids ≠ []) ∧
  (∀ gid, gid ∈ gids → is_Some (Groups cfg !! gid)) ∧
  ∀ gid, Groups cfg' !! gid = if decide (gid ∈ gids) then None else Groups cfg !! gid.
Proof.
  revert changed cfg. induction gids as [|gid gids IH]; intros changed cfg; cbn [Leave_loop].
  - destruct changed; [|done]. intros [= <-]. split_and!; try done; [by left|by intros gid ?%elem_of_nil].
  - destruct (Groups cfg !! gid) as [x|] eqn:Eg; [|done]. intros (H1 & H2 & _ & H4 & H5)%IH. cbn [Num Shards Groups] in *.
    split_and!; auto.
    + intros g [->|Hin]%elem_of_cons; [by eexists|]. destruct (H4 g Hin) as [y Hy]. apply lookup_delete_Some in Hy as [_ Hy]. by eexists.
    + intros g. rewrite H5. destruct (decide (g = gid)) as [->|Hne].
      * rewrite lookup_delete_eq, (decide_True (P := gid ∈ gid :: gids)) by (by left). by case_decide.
      * rewrite lookup_delete_ne by done. apply decide_ext. rewrite elem_of_cons. tauto.
Qed.

Lemma JoinBalance_true servers cfg cfg' :
  go_len (Shards cfg) = NShards → JoinBalance servers cfg = Some (cfg', true) →
  Num cfg' = Num cfg + 1 ∧ valid_config cfg' ∧ Groups cfg' ≠ ∅ ∧
  ∀ gid srvs, Groups cfg' !! gid = Some srvs ↔ Groups cfg !! gid = Some srvs ∨ (gid, srvs) ∈ servers.
Proof.
  intros Hlen. unfold JoinBalance, Join. destruct (Join_loop servers false cfg) as [[c ok]|] eqn:E; [|done]. bind_simpl.
  destruct ok; [|done]. destruct (Join_loop_true _ _ _ _ E) as (H1 & H2 & [?|H3] & _ & H5); [done|].
  assert (Hne : Groups c ≠ ∅).
  { destruct servers as [|[g s] servers]; [done|]. intros E0.
    assert (Hs : Groups c !! g = Some s) by (apply H5; right; by left). by rewrite E0, lookup_empty in Hs. }
  destruct (Rebalance_valid c Hne) as (shards & -> & Hv); [by rewrite H2|]. simpl. intros [= <-]. done.
Qed.

Lemma LeaveBalance_true gids cfg cfg' :
  go_len (Shards cfg) = NShards → LeaveBalance gids cfg = Some (cfg', true) →
  Num cfg' = Num cfg + 1 ∧
  (if decide (Groups cfg' = ∅) then Forall (λ g, g = 0) (Shards cfg') else valid_config cfg') ∧
  ∀ gid, Groups cfg' !! gid = if decide (gid ∈ gids) then None else Groups cfg !! gid.
Proof.
  intros Hlen. unfold LeaveBalance, Leave. destruct (Leave_loop gids false cfg) as [[c ok]|] eqn:E; [|done]. bind_simpl.
  destruct ok; [|done]. destruct (Leave_loop_true _ _ _ _ E) as (H1 & H2 & _ & _ & H5).
  destruct (decide (Groups c = ∅)) as [E0|Hne].
  - unfold Rebalance. rewrite decide_True by done. simpl. intros [= <-]. simpl. split_and!; try done.
    rewrite decide_True by done. by apply Forall_fmap, Forall_true.
  - destruct (Rebalance_valid c Hne) as (shards & -> & Hv); [by rewrite H2|]. simpl. intros [= <-]. simpl. split_and!; try done.
    by rewrite decide_False.
Qed.

(** (JoinBalance and LeaveBalance).  When they report success the new
    configuration has the next number, exactly the old groups plus those that
    joined, or minus those that left, and, if there is a group at all, a balanced
    assignment of every shard to one of them that CheckConfig accepts. *)
Theorem JoinBalance_LeaveBalance_spec cfg cfg' servers gids :
  go_len (Shards cfg) = NShards →
  (JoinBalance servers cfg = Some (cfg', true) →
     Num cfg' = Num cfg + 1 ∧ valid_config cfg' ∧ CheckConfig (groups_sorted cfg') cfg' = true ∧
     ∀ gid srvs, Groups cfg' !! gid = Some srvs ↔ Groups cfg !! gid = Some srvs ∨ (gid, srvs) ∈ servers) ∧
  (LeaveBalance gids cfg = Some (cfg', true) →
     Num cfg' = Num cfg + 1 ∧
     (if decide (Groups cfg' = ∅) then Forall (λ g, g = 0) (Shards cfg')
      else valid_config cfg' ∧ CheckConfig (groups_sorted cfg') cfg' = true) ∧
     ∀ gid, Groups cfg' !! gid = if decide (gid ∈ gids) then None else Groups cfg !! gid).
Proof.
  intros Hlen. split.
  - intros E. destruct (JoinBalance_true _ _ _ Hlen E) as (H1 & H2 & H3 & H4). split_and!; try done. by apply valid_config_check.
  - intros E. destruct (LeaveBalance_true _ _ _ Hlen E) as (H1 & H2 & H3). split_and!; try done.
    case_decide; [done|]. split; [done|]. by apply valid_config_check.
Qed.

(** ** Failed calls *)

Definition three_groups : ShardConfig :=
  default MakeShardConfig (fst <$> JoinBalance [(1, ["a"]); (2, ["b"]); (3, ["c"])] MakeShardConfig).

(** (A refused Leave has already removed groups).  LeaveBalance of a group that
    exists and one that does not returns false, and the first group is gone: the
    number is the old one, nothing was rebalanced, and shards are assigned to a
    group that does not exist any more.  The same happens to a refused Join. *)
Theorem refused_leave_changes_config :
  ∃ cfg, LeaveBalance [2; 7] three_groups = Some (cfg, false) ∧ Num cfg = Num three_groups ∧
    Groups cfg !! 2 = None ∧ is_Some (Groups three_groups !! 2) ∧ IsMember 2 cfg = true ∧
    CheckConfig [1; 3] cfg = false ∧
    Groups <$> (fst <$> Join [(4, ["d"]); (1, ["a"])] three_groups) = Some (<[4 := ["d"]]> (Groups three_groups)) ∧
    (snd <$> Join [(4, ["d"]); (1, ["a"])] three_groups) = Some false.
Proof.
  eexists. split; [vm_compute; reflexivity|]. split_and!; try (vm_compute; reflexivity). vm_compute. by eexists.
Qed.

(** (Keys are spread over existing shards).  Every key belongs to one of the
    twelve shards, so in a valid configuration to an existing group. *)
Theorem key_has_group key cfg :
  valid_config cfg → ∃ gid srvs, GidServers (Key2Shard key) cfg = Some (gid, srvs, true) ∧ Groups cfg !! gid = Some srvs.
Proof.
  intros (Hlen & Hall & _). unfold GidServers, Key2Shard.
  destruct (go_index_is_Some (Shards cfg) (fnv32a key mod NShards)) as [g Hg]; [rewrite Hlen; apply Z.mod_pos_bound; unfold NShards; lia|].
  rewrite Hg. bind_simpl. assert (Hin : g ∈ Shards cfg).
  { rewrite go_index_lookup in Hg by (apply Z.mod_pos_bound; unfold NShards; lia). by eapply list_elem_of_lookup_2. }
  rewrite Forall_forall in Hall. destruct (Hall g Hin) as [srvs Hs]. exists g, srvs. by rewrite Hs.
Qed.

(** ** Witnesses *)

Definition skewed : ShardConfig :=
  mkShardConfig 3 [1; 1; 1; 1; 1; 1; 1; 9; 9; 9; 1; 1] (<[1 := ["a"]]> (<[2 := ["b"]]> {[3 := ["c"]]})).

Lemma Rebalance_balances_witness :
  ∃ c', Rebalance skewed = Some c' ∧ CheckConfig (groups_sorted skewed) c' = true.
Proof.
  destruct (Rebalance_balances skewed) as (c' & H1 & _ & _ & H2 & _); [done|done|]. exists c'. split; [exact H1|exact H2].
Defined.

Lemma three_groups_valid : valid_config three_groups.
Proof.
  refine (proj1 (proj2 (JoinBalance_true [(1, ["a"]); (2, ["b"]); (3, ["c"])] MakeShardConfig three_groups eq_refl _))).
  vm_compute. reflexivity.
Qed.

Lemma JoinBalance_LeaveBalance_spec_witness :
  valid_config three_groups ∧ Num three_groups = Num MakeShardConfig + 1.
Proof.
  destruct (proj1 (JoinBalance_LeaveBalance_spec MakeShardConfig three_groups [(1, ["a"]); (2, ["b"]); (3, ["c"])] [] eq_refl)
    ltac:(vm_compute; reflexivity)) as (H1 & H2 & _). split; [exact H2|exact H1].
Defined.

Lemma Rebalance_stable_witness : Rebalance three_groups = Some three_groups.
Proof. refine (proj1 (Rebalance_stable three_groups _ three_groups_valid)). vm_compute. done. Defined.

Lemma key_has_group_witness :
  ∃ gid srvs, GidServers (Key2Shard "hello") three_groups = Some (gid, srvs, true) ∧ Groups three_groups !! gid = Some srvs.
Proof. exact (key_has_group "hello" three_groups three_groups_valid). Defined.
