(* ===== verification/Utf8.v ===== *)
(** * Runes of Go strings

    Decoding UTF-8 as [for _, r := range s] and utf8.DecodeRuneInString do, and what
    package unicode tells of a rune. *)

From Stdlib Require Import Ascii.
From S2P Require Import Prelude.
Local Open Scope Z_scope.

(** ** UTF-8 *)

Definition in_range (lo hi : nat) (c : ascii) : bool :=
  (lo <=? nat_of_ascii c)%nat && (nat_of_ascii c <=? hi)%nat.

(** The second byte that the first byte of a longer rune allows. *)
Definition second_byte (c0 c1 : ascii) : bool :=
  match Z.of_nat (nat_of_ascii c0) with
  | 224 (* 0xE0 *) => in_range 160 191 c1
  | 237 (* 0xED *) => in_range 128 159 c1
  | 240 (* 0xF0 *) => in_range 144 191 c1
  | 244 (* 0xF4 *) => in_range 128 143 c1
  | _ => in_range 128 191 c1
  end.

(** A step of [for _, r := range s]: the rune and the bytes it was decoded from. *)
Record Rune := mkRune { code : Z; bytes : string }.

Definition RuneError : Z := 65533.

Definition byte_of (c : ascii) : Z := Z.of_nat (nat_of_ascii c).
(** The six bits of a byte behind the first. *)
Definition tail_bits (c : ascii) : Z := Z.land (byte_of c) 63.

Definition rune2 (c0 c1 : ascii) : Rune :=
  mkRune (Z.lor (Z.shiftl (Z.land (byte_of c0) 31) 6) (tail_bits c1)) (String c0 (String c1 EmptyString)).
Definition rune3 (c0 c1 c2 : ascii) : Rune :=
  mkRune (Z.lor (Z.shiftl (Z.land (byte_of c0) 15) 12) (Z.lor (Z.shiftl (tail_bits c1) 6) (tail_bits c2)))
    (String c0 (String c1 (String c2 EmptyString))).
Definition rune4 (c0 c1 c2 c3 : ascii) : Rune :=
  mkRune (Z.lor (Z.shiftl (Z.land (byte_of c0) 7) 18) (Z.lor (Z.shiftl (tail_bits c1) 12) (Z.lor (Z.shiftl (tail_bits c2) 6) (tail_bits c3))))
    (String c0 (String c1 (String c2 (String c3 EmptyString)))).

Definition bad_byte (c0 : ascii) : Rune := mkRune RuneError (String c0 EmptyString).

Fixpoint runes (s : string) : list Rune :=
  match s with
  | EmptyString => []
  | String c0 s1 =>
      if in_range 0 127 c0 then mkRune (byte_of c0) (String c0 EmptyString) :: runes s1
      else
        match s1 with
        | EmptyString => [bad_byte c0]
        | String c1 s2 =>
            if in_range 194 223 c0 && second_byte c0 c1 then rune2 c0 c1 :: runes s2
            else
              match s2 with
              | EmptyString => bad_byte c0 :: runes s1
              | String c2 s3 =>
                  if in_range 224 239 c0 && second_byte c0 c1 && in_range 128 191 c2 then rune3 c0 c1 c2 :: runes s3
                  else
                    match s3 with
                    | EmptyString => bad_byte c0 :: runes s1
                    | String c3 s4 =>
                        if in_range 240 244 c0 && second_byte c0 c1 && in_range 128 191 c2 && in_range 128 191 c3
                        then rune4 c0 c1 c2 c3 :: runes s4
                        else bad_byte c0 :: runes s1
                    end
              end
        end
  end.

(** utf8.DecodeRuneInString *)
Definition DecodeRuneInString (s : string) : Z := match runes s with [] => RuneError | r :: _ => code r end.

(** ** unicode *)

(** What the program asks unicode about a rune; the tables matter only for the ASCII
    letters and the replacement character. *)
Class Unicode := {
  IsLetter : Z → bool;
  IsUpper : Z → bool;
  IsLetter_ascii r : 0 ≤ r < 128 → IsLetter r = (65 <=? r) && (r <=? 90) || (97 <=? r) && (r <=? 122);
  IsUpper_ascii r : 0 ≤ r < 128 → IsUpper r = (65 <=? r) && (r <=? 90);
  IsLetter_error : IsLetter RuneError = false;
  IsUpper_error : IsUpper RuneError = false
}.

(** ASCII letters only. *)
Definition ascii_upper (r : Z) : bool := (65 <=? r) && (r <=? 90).
Definition ascii_letter (r : Z) : bool := ascii_upper r || (97 <=? r) && (r <=? 122).
Definition ascii_unicode : Unicode := {|
  IsLetter := ascii_letter; IsUpper := ascii_upper; IsLetter_ascii _ _ := eq_refl; IsUpper_ascii _ _ := eq_refl;
  IsLetter_error := eq_refl; IsUpper_error := eq_refl
|}.
