(* ===== verification/Labgob.v ===== *)
(** * labgob: checks around encoding/gob

    labgob.go: checkType, which walks over the types of what is encoded or decoded and
    complains about lower-case fields, and checkDefault1, which complains about values
    that are not zero in what is decoded into.  Types are places of a table, as
    reflect.Type identifies them, so they may be recursive; what gob itself does is a
    parameter.  The walk is given as the recursion of the code and as the atomic steps of
    the goroutines that run it at the same time. *)

From Stdlib Require Import SpecFloat.
From S2P Require Import Prelude Utf8.
Local Open Scope Z_scope.
Local Open Scope go_scope.

(** ** reflect *)

(** A place of the table. *)
Abbreviation Ty := nat.

Record StructField := mkField { f_Name : string; f_Type : Ty; Anonymous : bool }.

(** A type by its kind.  [Basic]: bool, the integers, the floats, string; [OtherKind]:
    interfaces, channels, functions, complex numbers. *)
Inductive TypeDesc :=
  | Struct (name : string) (fields : list StructField)
  | Slice (elem : Ty)
  | Array (elem : Ty)
  | Ptr (elem : Ty)
  | MapOf (key elem : Ty)
  | Basic (name : string)
  | OtherKind (name : string).

Inductive BasicValue := BBool (b : bool) | BInt (z : Z) | BFloat (f : spec_float) | BString (s : string).

(** reflect.Value without its type; pointers lead into a heap, as they may be cyclic.
    What a slice, a map or an interface holds is not looked at. *)
Inductive Value :=
  | VStruct (fields : list Value)
  | VPtr (p : option nat)
  | VBasic (b : BasicValue)
  | VOther.

(** What is in an interface: [None] is nil. *)
Record Iface := mkIface { i_type : Ty; i_value : Value }.
Abbreviation any := (option Iface).

(** ** The state of the package *)

Inductive Message :=
  | LowerCase (field type : string)     (* labgob error *)
  | NonDefault (what : string).         (* labgob warning *)

Record Labgob := mkLabgob { errorCount : Z; checked : gset Ty; printed : list Message }.

Definition Printf (m : Message) (g : Labgob) : Labgob := mkLabgob (errorCount g) (checked g) (printed g ++ [m]).
Definition count_error (g : Labgob) : Labgob := mkLabgob (wrap_i64 (errorCount g + 1)) (checked g) (printed g).
Definition mark (t : Ty) (g : Labgob) : Labgob := mkLabgob (errorCount g) ({[t]} ∪ checked g) (printed g).

Section labgob.
Context {uni : Unicode} (types : list TypeDesc).
Implicit Types (t u v : Ty) (g : Labgob).

Definition upper (f : StructField) : bool := IsUpper (DecodeRuneInString (f_Name f)).

(** ** checkType *)

(** [None]: no such type, or too little fuel. *)
Fixpoint checkType (fuel : nat) (t : Ty) (g : Labgob) : option Labgob :=
  match fuel with
  | O => None
  | S fuel =>
      d ← types !! t;
      if decide (t ∈ checked g) then Some g
      else
        let g := mark t g in
        match d with
        | Struct name fields =>
            for_each (λ f g,
              let g := if upper f then g else count_error (Printf (LowerCase (f_Name f) name) g) in
              checkType fuel (f_Type f) g) fields g
        | Slice elem | Array elem | Ptr elem => checkType fuel elem g
        | MapOf key elem => g ← checkType fuel elem g; checkType fuel key g
        | Basic _ | OtherKind _ => Some g
        end
  end.

(** [Kind] of the type of nil panics. *)
Definition checkValue (value : any) (g : Labgob) : option Labgob :=
  e ← value; checkType (S (length types)) (i_type e) g.

(** ** checkDefault *)

(** Whether reflect got the value through fields that are not exported: for good, or
    only by an embedded one. *)
Record RO := mkRO { sticky : bool; embed : bool }.
Definition read_only (ro : RO) : bool := sticky ro || embed ro.

(** Value.Field *)
Definition field_ro (f : StructField) (ro : RO) : RO :=
  mkRO (sticky ro || negb (upper f) && negb (Anonymous f)) (negb (upper f) && Anonymous f).

(** DeepEqual with the zero value. *)
Definition is_zero (b : BasicValue) : bool :=
  match b with
  | BBool b => negb b
  | BInt z => z =? 0
  | BFloat (S754_zero _) => true
  | BFloat _ => false
  | BString s => bool_decide (s = "")
  end.

Definition warn (name tname : string) (g : Labgob) : Labgob :=
  count_error (if errorCount g <? 1 then Printf (NonDefault (if decide (name = "") then tname else name)) g else g).

(** [None]: [Interface] of a value behind a field that is not exported panics.  The
    recursion is at most [fuel] deep; the code goes three levels down. *)
Fixpoint checkDefault1 (heap : gmap nat Value) (fuel : nat) (t : Ty) (value : Value) (ro : RO) (depth : Z) (name : string)
    (g : Labgob) : option Labgob :=
  match fuel with
  | O => Some g
  | S fuel =>
      if 3 <? depth then Some g
      else
        match types !! t, value with
        | Some (Struct _ fields), VStruct vs =>
            for_each (λ '(f, vv) g,
              let name1 := if decide (name = "") then f_Name f else name +:+ "." +:+ f_Name f in
              checkDefault1 heap fuel (f_Type f) vv (field_ro f ro) (depth + 1) name1 g) (zip fields vs) g
        | Some (Ptr elem), VPtr p =>
            match p with
            | None => Some g
            | Some l => vv ← heap !! l; checkDefault1 heap fuel elem vv ro (depth + 1) name g
            end
        | Some (Basic tname), VBasic b =>
            if read_only ro then None else if is_zero b then Some g else Some (warn name tname g)
        | Some (Slice _ | Array _ | MapOf _ _ | OtherKind _), _ => Some g
        | _, _ => None
        end
  end.

Definition checkDefault (heap : gmap nat Value) (value : any) (g : Labgob) : option Labgob :=
  match value with
  | None => Some g
  | Some e => checkDefault1 heap 4 (i_type e) (i_value e) (mkRO false false) 1 "" g
  end.

(** ** The package's own encoders and decoders *)

(** encoding/gob: its streams, and what it does with a value; a Decode stores into
    memory. *)
Context {GobEncoder GobDecoder Registry Error : Type}
  (gob_Encode : any → GobEncoder → GobEncoder * option Error)
  (gob_Decode : any → gmap nat Value → GobDecoder → GobDecoder * gmap nat Value * option Error)
  (gob_RegisterName : option string → any → Registry → Registry).

Record LabEncoder := NewEncoder { enc_gob : GobEncoder }.
Record LabDecoder := NewDecoder { dec_gob : GobDecoder }.

(** EncodeValue is the same, on what the reflect.Value holds. *)
Definition Encode (e : any) (enc : LabEncoder) (g : Labgob) : option (Labgob * LabEncoder * option Error) :=
  g ← checkValue e g;
  let '(s, err) := gob_Encode e (enc_gob enc) in
  Some (g, NewEncoder s, err).

Definition Decode (e : any) (heap : gmap nat Value) (dec : LabDecoder) (g : Labgob)
    : option (Labgob * gmap nat Value * LabDecoder * option Error) :=
  g ← checkValue e g;
  g ← checkDefault heap e g;
  let '(s, heap, err) := gob_Decode e heap (dec_gob dec) in
  Some (g, heap, NewDecoder s, err).

(** With a name, and without one: Register. *)
Definition RegisterName (name : option string) (value : any) (reg : Registry) (g : Labgob) : option (Labgob * Registry) :=
  g ← checkValue value g;
  Some (g, gob_RegisterName name value reg).
End labgob.

Section walk.
Context {uni : Unicode} (types : list TypeDesc).
Implicit Types (t u v : Ty) (g : Labgob).

(** ** Goroutines at the same time *)

(** What a goroutine has left to do in its calls of checkType: the calls that it has not
    begun, and of a complaint the output and the locked increment. *)
Inductive Work := WCheck (t : Ty) | WPrint (m : Message) | WCount.

Definition field_work (name : string) (f : StructField) : list Work :=
  (if upper f then [] else [WPrint (LowerCase (f_Name f) name); WCount]) ++ [WCheck (f_Type f)].

Definition work_of (d : TypeDesc) : list Work :=
  match d with
  | Struct name fields => fields ≫= field_work name
  | Slice elem | Array elem | Ptr elem => [WCheck elem]
  | MapOf key elem => [WCheck elem; WCheck key]
  | Basic _ | OtherKind _ => []
  end.

(** One section of the code that no other goroutine interrupts; the lookup in [checked]
    and the marking are under one lock. *)
Definition work_step (w : Work) (g : Labgob) : option (list Work * Labgob) :=
  match w with
  | WCheck t => d ← types !! t; Some (if decide (t ∈ checked g) then ([], g) else (work_of d, mark t g))
  | WPrint m => Some ([], Printf m g)
  | WCount => Some ([], count_error g)
  end.

Definition Walk : Type := list (list Work) * Labgob.

Definition walk_step (i : nat) (s : Walk) : option Walk :=
  ws ← s.1 !! i;
  match ws with
  | [] => None
  | w :: rest => '(new, g) ← work_step w s.2; Some (<[i := new ++ rest]> s.1, g)
  end.

(** A goroutine for each of the types [roots]. *)
Definition walk_start (roots : list Ty) (g : Labgob) : Walk := ((λ t, [WCheck t]) <$> roots, g).

(** ** What is to be found *)

Definition succs (d : TypeDesc) : list Ty :=
  match d with
  | Struct _ fields => f_Type <$> fields
  | Slice elem | Array elem | Ptr elem => [elem]
  | MapOf key elem => [elem; key]
  | Basic _ | OtherKind _ => []
  end.

(** A value of type [t] may hold one of type [u]. *)
Definition part_of (t u : Ty) : Prop := ∃ d, types !! t = Some d ∧ u ∈ succs d.

(** The lower-case fields of a type. *)
Definition complaints (t : Ty) : list Message :=
  match types !! t with
  | Some (Struct name fields) => (λ f, LowerCase (f_Name f) name) <$> filter (λ f, upper f = false) fields
  | _ => []
  end.

(** The table holds what its types refer to. *)
Definition types_closed : Prop := ∀ t u, part_of t u → (u < length types)%nat.

(** Between two calls: what is checked is so with all its parts. *)
Record labgob_ok (g : Labgob) : Prop := {
  lo_closed t u : t ∈ checked g → part_of t u → u ∈ checked g;
  lo_count : - 2 ^ 63 ≤ errorCount g < 2 ^ 63
}.

Lemma labgob_init_ok : labgob_ok (mkLabgob 0 ∅ []).
Proof. split; simpl; [set_solver|lia]. Qed.

Definition prints (ws : list Work) : list Message := omap (λ w, match w with WPrint m => Some m | _ => None end) ws.
Definition counts (ws : list Work) : Z := Z.of_nat (length (omap (λ w, match w with WCount => Some () | _ => None end) ws)).

Lemma prints_app a b : prints (a ++ b) = prints a ++ prints b.
Proof. apply omap_app. Qed.
Lemma counts_app a b : counts (a ++ b) = counts a + counts b.
Proof. unfold counts. rewrite omap_app, length_app. lia. Qed.

#[local] Instance prints_perm : Proper ((≡ₚ) ==> (≡ₚ)) prints.
Proof. intros a b Hp. unfold prints. by rewrite Hp. Qed.
#[local] Instance counts_perm : Proper ((≡ₚ) ==> eq) counts.
Proof. intros a b Hp. unfold counts. by rewrite Hp. Qed.

(** The work of a type: its parts are checked and its lower-case fields complained of. *)
Lemma work_of_spec t d : types !! t = Some d →
  (∀ u, WCheck u ∈ work_of d ↔ u ∈ succs d) ∧ prints (work_of d) = complaints t ∧ counts (work_of d) = go_len (complaints t).
Proof.
  intros Ht. unfold complaints, go_len. rewrite Ht. destruct d as [name fields|e|e|e|k e|n|n]; simpl; try (split_and!; [intros u; rewrite ?elem_of_cons, !elem_of_nil; naive_solver|done|done]).
  clear Ht. induction fields as [|f fields (IH1 & IH2 & IH3)]; [split_and!; [intros u; simpl; by rewrite !elem_of_nil|done|done]|].
  rewrite bind_cons. split_and!.
  - intros u. rewrite elem_of_app, IH1. unfold field_work. destruct (upper f); rewrite fmap_cons, ?elem_of_app, ?elem_of_cons, ?elem_of_nil; intuition congruence.
  - rewrite prints_app, IH2, filter_cons. unfold field_work. by destruct (upper f).
  - rewrite counts_app, IH3, filter_cons. unfold field_work. destruct (upper f); [done|]. rewrite decide_True by done. rewrite fmap_cons. cbn [length]. unfold counts. simpl. lia.
Qed.

(** All that the goroutines have left to do. *)
Definition pool (s : Walk) : list Work := mjoin s.1.

Lemma walk_step_pool i s s' : walk_step i s = Some s' →
  ∃ w new others, work_step w s.2 = Some (new, s'.2) ∧ pool s ≡ₚ w :: others ∧ pool s' ≡ₚ new ++ others.
Proof.
  destruct s as [l g]. unfold walk_step, pool. simpl. destruct (l !! i) as [[|w rest]|] eqn:Hi; simpl; try done.
  destruct (work_step w g) as [[new g']|] eqn:Ew; simpl; [|done]. intros [= <-]. simpl.
  exists w, new, (rest ++ mjoin (take i l) ++ mjoin (drop (S i) l)). split; [done|].
  pose proof (lookup_lt_Some _ _ _ Hi). rewrite insert_take_drop by done. rewrite <- (take_drop_middle l i (w :: rest) Hi) at 1.
  rewrite !join_app. simpl. split; solve_Permutation.
Qed.

(** ** The invariant of the walk *)

Definition reaches (roots : list Ty) (u : Ty) : Prop := ∃ r, r ∈ roots ∧ rtc part_of r u.

(** The types that were checked since [g0], and what there is to say of them. *)
Definition new_complaints (g0 g : Labgob) : list Message := elements (checked g ∖ checked g0) ≫= complaints.

Record walk_inv (roots : list Ty) (g0 : Labgob) (ws : list Work) (g : Labgob) : Prop := {
  wi_grows : checked g0 ⊆ checked g;
  wi_parts t u : t ∈ checked g → part_of t u → u ∈ checked g ∨ WCheck u ∈ ws;
  wi_roots r : r ∈ roots → r ∈ checked g ∨ WCheck r ∈ ws;
  wi_checked t : t ∈ checked g → t ∈ checked g0 ∨ reaches roots t;
  wi_work t : WCheck t ∈ ws → reaches roots t;
  wi_printed : printed g ++ prints ws ≡ₚ printed g0 ++ new_complaints g0 g;
  wi_range : - 2 ^ 63 ≤ errorCount g < 2 ^ 63;
  wi_count : wrap_i64 (errorCount g + counts ws) = wrap_i64 (errorCount g0 + go_len (new_complaints g0 g))
}.

Lemma walk_inv_perm roots g0 ws ws' g : ws ≡ₚ ws' → walk_inv roots g0 ws g → walk_inv roots g0 ws' g.
Proof. intros Hp [H1 H2 H3 H4 H5 H6 H7 H8]. split; try done; intros *; rewrite <- Hp; eauto. Qed.

Lemma walk_start_inv roots g0 : labgob_ok g0 → walk_inv roots g0 (pool (walk_start roots g0)) g0.
Proof.
  intros [Hc Hr].
  assert (Hp : pool (walk_start roots g0) = WCheck <$> roots).
  { unfold pool, walk_start. simpl. induction roots as [|r roots IH]; [done|]. exact (f_equal (cons (WCheck r)) IH). }
  assert (Hz : prints (WCheck <$> roots) = [] ∧ counts (WCheck <$> roots) = 0) by (clear; induction roots; done).
  destruct Hz as [Hz1 Hz2]. assert (Hn : new_complaints g0 g0 = []).
  { unfold new_complaints. by rewrite difference_diag_L, elements_empty. }
  rewrite Hp. split; rewrite ?Hz1, ?Hz2, ?Hn; try done.
  - intros t u Ht Hu. left. by apply (Hc t).
  - intros r Hin. right. by apply list_elem_of_fmap_2.
  - intros t Ht. by left.
  - intros t (r & [= <-] & Hin)%list_elem_of_fmap. by exists t.
Qed.

Lemma new_complaints_mark g0 g t : t ∉ checked g → checked g0 ⊆ checked g →
  new_complaints g0 (mark t g) ≡ₚ complaints t ++ new_complaints g0 g.
Proof.
  intros Ht Hg. unfold new_complaints. simpl.
  assert (({[t]} ∪ checked g) ∖ checked g0 = {[t]} ∪ checked g ∖ checked g0) as -> by set_solver.
  rewrite elements_union_singleton by set_solver. done.
Qed.

Lemma check_again_inv roots g0 t others g :
  walk_inv roots g0 (WCheck t :: others) g → t ∈ checked g → walk_inv roots g0 others g.
Proof.
  intros [H1 H2 H3 H4 H5 H6 H7 H8] Hin. split; try done.
  - intros u v Hu Hv. destruct (H2 u v Hu Hv) as [?|[[= ->]|?]%elem_of_cons]; auto.
  - intros r Hr. destruct (H3 r Hr) as [?|[[= ->]|?]%elem_of_cons]; auto.
  - intros u Hu. apply H5. by right.
Qed.

Lemma check_new_inv roots g0 t d others g :
  walk_inv roots g0 (WCheck t :: others) g → types !! t = Some d → t ∉ checked g →
  walk_inv roots g0 (work_of d ++ others) (mark t g).
Proof.
  intros [H1 H2 H3 H4 H5 H6 H7 H8] Ht Hin. destruct (work_of_spec t d Ht) as (Hw & Hp & Hc).
  assert (Hreach : reaches roots t) by (apply H5; by left). pose proof (new_complaints_mark g0 g t Hin H1) as Hnew.
  split; rewrite ?Hnew; simpl.
  - set_solver.
  - intros u v. rewrite !elem_of_union, !elem_of_singleton, elem_of_app. intros [->|Hu] Hv.
    + destruct Hv as (d' & Hd & Hv). simplify_eq. right. left. by apply Hw.
    + destruct (H2 u v Hu Hv) as [?|[[= ->]|?]%elem_of_cons]; auto.
  - intros r Hr. rewrite elem_of_union, elem_of_singleton, elem_of_app. destruct (H3 r Hr) as [?|[[= ->]|?]%elem_of_cons]; auto.
  - intros u [->%elem_of_singleton|Hu]%elem_of_union; auto.
  - intros u [Hu|Hu]%elem_of_app; [|apply H5; by right]. destruct Hreach as (r & Hr & Hrt). exists r. split; [done|].
    eapply rtc_r; [done|]. exists d. split; [done|]. by apply Hw.
  - rewrite prints_app, Hp. change (prints (WCheck t :: others)) with (prints others) in H6.
    rewrite (Permutation_app_swap_app (printed g)), H6. solve_Permutation.
  - done.
  - change (counts (WCheck t :: others)) with (counts others) in H8. unfold go_len in *. rewrite counts_app, Hc, Hnew, length_app.
    unfold go_len. set (c := Z.of_nat (length (complaints t))). replace (errorCount g + (c + counts others)) with (errorCount g + counts others + c) by lia.
    rewrite <- wrap_i64_add, H8, wrap_i64_add. f_equal. unfold c. lia.
Qed.

Lemma work_step_inv roots g0 w others g new g' :
  walk_inv roots g0 (w :: others) g → work_step w g = Some (new, g') → walk_inv roots g0 (new ++ others) g'.
Proof.
  intros Hinv Hs. destruct w as [t|m|]; simpl in Hs.
  - destruct (types !! t) as [d|] eqn:Ht; simpl in Hs; [|done]. destruct (decide (t ∈ checked g)) as [Hin|Hin]; simplify_eq.
    + by apply (check_again_inv roots g0 t).
    + by apply check_new_inv.
  - destruct Hinv as [H1 H2 H3 H4 H5 H6 H7 H8]. injection Hs as <- <-. split; try done; simpl.
    + intros u v Hu Hv. destruct (H2 u v Hu Hv) as [?|[?|?]%elem_of_cons]; auto; done.
    + intros r Hr. destruct (H3 r Hr) as [?|[?|?]%elem_of_cons]; auto; done.
    + intros u Hu. apply H5. by right.
    + by rewrite <- app_assoc.
  - destruct Hinv as [H1 H2 H3 H4 H5 H6 H7 H8]. injection Hs as <- <-. split; try done; simpl.
    + intros u v Hu Hv. destruct (H2 u v Hu Hv) as [?|[?|?]%elem_of_cons]; auto; done.
    + intros r Hr. destruct (H3 r Hr) as [?|[?|?]%elem_of_cons]; auto; done.
    + intros u Hu. apply H5. by right.
    + apply wrap_i64_range.
    + change (new_complaints g0 (count_error g)) with (new_complaints g0 g). change (WCount :: others) with ([WCount] ++ others) in H8. rewrite counts_app in H8. change (counts [WCount]) with 1 in H8.
      rewrite <- H8, wrap_i64_add. f_equal. lia.
Qed.

Lemma walk_run_inv roots g0 sched : ∀ s s',
  walk_inv roots g0 (pool s) s.2 → for_each walk_step sched s = Some s' → walk_inv roots g0 (pool s') s'.2.
Proof.
  intros s s'. apply (for_each_keeps (λ s, walk_inv roots g0 (pool s) s.2)). intros i s1 s2 Hinv Hs.
  destruct (walk_step_pool i s1 s2 Hs) as (w & new & others & Hw & E1 & E2).
  apply (walk_inv_perm _ _ (new ++ others)); [done|]. apply (work_step_inv _ _ w others s1.2); [|done].
  by apply (walk_inv_perm _ _ (pool s1)).
Qed.

(** Nothing is left to do: what was found is what there is. *)
Lemma walk_inv_end roots g0 g : walk_inv roots g0 [] g →
  (∀ t, t ∈ checked g ↔ t ∈ checked g0 ∨ reaches roots t) ∧
  printed g ≡ₚ printed g0 ++ new_complaints g0 g ∧
  errorCount g = wrap_i64 (errorCount g0 + go_len (new_complaints g0 g)) ∧ labgob_ok g.
Proof.
  intros [H1 H2 H3 H4 H5 H6 H7 H8].
  assert (Hc : ∀ t u, t ∈ checked g → part_of t u → u ∈ checked g).
  { intros t u Ht Hu. by destruct (H2 t u Ht Hu) as [?|?%elem_of_nil]. }
  split_and!; [|by rewrite app_nil_r in H6| |done].
  - intros t. split; [apply H4|]. intros [Ht|(r & Hr & Hrt)]; [by apply H1|].
    assert (Hin : r ∈ checked g) by (by destruct (H3 r Hr) as [?|?%elem_of_nil]). clear Hr. induction Hrt; eauto.
  - rewrite <- H8. change (counts []) with 0. by rewrite Z.add_0_r, wrap_i64_small.
Qed.

(** ** Termination *)

(** What there is to do for a type that is not checked yet, and altogether. *)
Definition type_work (g : Labgob) (t : Ty) : nat :=
  if decide (t ∈ checked g) then 0%nat else match types !! t with Some d => length (work_of d) | None => 0%nat end.
Definition walk_left (s : Walk) : nat := (length (pool s) + sum_list_with (type_work s.2) (seq 0 (length types)))%nat.

Lemma type_work_mark g t d l : types !! t = Some d → t ∉ checked g → NoDup l → t ∈ l →
  sum_list_with (type_work g) l = (length (work_of d) + sum_list_with (type_work (mark t g)) l)%nat.
Proof.
  intros Ht Hg. induction l as [|u l IH]; intros Hnd Hin; [by apply elem_of_nil in Hin|]. apply NoDup_cons in Hnd as [Hu Hnd]. simpl.
  destruct (decide (t = u)) as [<-|Hne].
  - assert (E : sum_list_with (type_work g) l = sum_list_with (type_work (mark t g)) l).
    { clear IH Hnd Hin. induction l as [|v l IH]; [done|]. apply not_elem_of_cons in Hu as [Hv Hl]. simpl. rewrite IH by done. f_equal.
      unfold type_work. simpl. by rewrite (decide_ext (v ∈ {[t]} ∪ checked g) (v ∈ checked g)) by set_solver. }
    rewrite E. unfold type_work at 1 3. simpl. rewrite decide_False, Ht, decide_True by set_solver. lia.
  - apply elem_of_cons in Hin as [?|Hin]; [done|]. rewrite IH by done.
    assert (type_work g u = type_work (mark t g) u) as ->; [|lia].
    unfold type_work. simpl. by rewrite (decide_ext (u ∈ {[t]} ∪ checked g) (u ∈ checked g)) by set_solver.
Qed.

(** Every step takes one off. *)
Lemma walk_step_left i s s' : walk_step i s = Some s' → walk_left s = S (walk_left s').
Proof.
  intros (w & new & others & Hw & E1 & E2)%walk_step_pool. unfold walk_left. rewrite E1, E2, length_app. destruct s' as [l' g']. simpl in *.
  destruct w as [t|m|]; simpl in Hw; [|injection Hw as <- <-; simpl; unfold type_work; done..].
  destruct (types !! t) as [d|] eqn:Ht; simpl in Hw; [|done]. destruct (decide (t ∈ checked s.2)) as [Hin|Hin]; simplify_eq; [done|].
  rewrite (type_work_mark s.2 t d _ Ht Hin (NoDup_seq _ _)); [simpl; lia|]. apply elem_of_seq. apply lookup_lt_Some in Ht. lia.
Qed.

Lemma walk_run_left sched : ∀ s s', for_each walk_step sched s = Some s' → walk_left s = (length sched + walk_left s')%nat.
Proof.
  induction sched as [|i sched IH]; intros s s'; simpl; [by intros [= <-]|].
  destruct (walk_step i s) as [s1|] eqn:E; simpl; [|done]. intros Hl%IH. apply walk_step_left in E. lia.
Qed.

(** Types stay within the table, so a goroutine with work can always go on. *)
Lemma walk_progress roots g0 s i ws : types_closed → Forall (λ r, (r < length types)%nat) roots →
  walk_inv roots g0 (pool s) s.2 → s.1 !! i = Some ws → ws ≠ [] → is_Some (walk_step i s).
Proof.
  intros Hcl Hr Hinv Hi Hne. unfold walk_step. rewrite Hi. simpl. destruct ws as [|w rest]; [done|].
  assert (Hin : w ∈ pool s) by (apply list_elem_of_join; exists (w :: rest); split; [by left|by eapply list_elem_of_lookup_2]).
  destruct w as [t|m|]; simpl; [|by eexists..]. destruct (wi_work _ _ _ _ Hinv t Hin) as (r & Hroot & Hrt).
  assert (Ht : (t < length types)%nat).
  { rewrite Forall_forall in Hr. specialize (Hr r Hroot). clear -Hcl Hr Hrt. induction Hrt as [|x y z Hxy _ IH]; [done|]. apply IH. by apply (Hcl x). }
  apply lookup_lt_is_Some_2 in Ht as [d ->]. simpl. by case_decide; eexists.
Qed.

Lemma walk_pool_empty s : Forall (λ ws, ws = []) s.1 → pool s = [].
Proof. unfold pool. induction 1 as [|ws l -> _ IH]; [done|]. by simpl. Qed.

(** C25 (labgob complains once of each lower-case field).  Goroutines that encode, decode
    or register values at the same time walk over the types of these values, recursive
    ones too.  In whatever order their steps come: a goroutine that is not through can go
    on, and all are through after as many steps as there is work, no more and no less.
    Then exactly the types that are part of a value's type are checked, and for those
    that were not before, each lower-case field is reported and counted once. *)
Theorem labgob_complains_once roots g0 sched s :
  types_closed → Forall (λ r, (r < length types)%nat) roots → labgob_ok g0 →
  for_each walk_step sched (walk_start roots g0) = Some s →
  (∀ i ws, s.1 !! i = Some ws → ws ≠ [] → is_Some (walk_step i s)) ∧
  walk_left (walk_start roots g0) = (length sched + walk_left s)%nat ∧
  (Forall (λ ws, ws = []) s.1 →
    (∀ t, t ∈ checked s.2 ↔ t ∈ checked g0 ∨ ∃ r, r ∈ roots ∧ rtc part_of r t) ∧
    printed s.2 ≡ₚ printed g0 ++ (elements (checked s.2 ∖ checked g0) ≫= complaints) ∧
    errorCount s.2 = wrap_i64 (errorCount g0 + go_len (elements (checked s.2 ∖ checked g0) ≫= complaints)) ∧
    labgob_ok s.2).
Proof.
  intros Hcl Hr Hok Hrun. pose proof (walk_run_inv roots g0 sched _ s (walk_start_inv roots g0 Hok) Hrun) as Hinv. split_and!.
  - intros i ws. by apply (walk_progress roots g0).
  - by apply walk_run_left.
  - intros Hend%walk_pool_empty. apply walk_inv_end. by rewrite Hend in Hinv.
Qed.

(** ** The recursion is one of these walks *)

Definition alone (n : nat) (ws : list Work) (g : Labgob) : option Walk := for_each walk_step (replicate n 0%nat) ([ws], g).

Lemma alone_trans n m ws g ws1 g1 : alone n ws g = Some ([ws1], g1) → alone (n + m) ws g = alone m ws1 g1.
Proof. unfold alone. intros Hn. by rewrite replicate_add, for_each_app, Hn. Qed.

Lemma checkType_alone fuel : ∀ t g g' rest, checkType types fuel t g = Some g' → ∃ n, alone n (WCheck t :: rest) g = Some ([rest], g').
Proof.
  induction fuel as [|fuel IH]; intros t g g' rest; simpl; [done|]. destruct (types !! t) as [d|] eqn:Ht; simpl; [|done].
  assert (Hfirst : ∀ n x, alone n ((if decide (t ∈ checked g) then [] else work_of d) ++ rest) (if decide (t ∈ checked g) then g else mark t g) = Some x →
    alone (S n) (WCheck t :: rest) g = Some x).
  { intros n x Hx. unfold alone in *. simpl. unfold walk_step at 2. simpl. rewrite Ht. simpl. by destruct (decide (t ∈ checked g)). }
  destruct (decide (t ∈ checked g)) as [Hin|Hin].
  { intros [= <-]. exists 1%nat. by apply Hfirst. }
  intros Hrun. cut (∃ n, alone n (work_of d ++ rest) (mark t g) = Some ([rest], g')); [intros [n Hn]; exists (S n); by apply Hfirst|].
  clear Hfirst Ht. generalize dependent (mark t g). clear Hin. intros g1.
  destruct d as [name fields|e|e|e|k e|n|n]; simpl; try (apply IH); try (intros [= <-]; by exists 0%nat).
  - revert g1. induction fields as [|f fields IHf]; intros g1; simpl; [intros [= <-]; by exists 0%nat|].
    destruct (checkType types fuel (f_Type f) _) as [g2|] eqn:E; simpl; [|done]. intros (m & Hm)%IHf.
    unfold field_work at 1. rewrite <- !app_assoc. simpl.
    destruct (IH _ _ _ (((fields ≫= field_work name) ++ rest)) E) as (n & Hn). destruct (upper f); simpl.
    + exists (n + m)%nat. exact (eq_trans (alone_trans n m _ _ _ _ Hn) Hm).
    + exists (2 + (n + m))%nat. etransitivity; [by apply alone_trans|]. exact (eq_trans (alone_trans n m _ _ _ _ Hn) Hm).
  - destruct (checkType types fuel e g1) as [g2|] eqn:E; simpl; [|done]. intros E2. destruct (IH _ _ _ (WCheck k :: rest) E) as (n & Hn).
    destruct (IH _ _ _ rest E2) as (m & Hm). exists (n + m)%nat. exact (eq_trans (alone_trans n m _ _ _ _ Hn) Hm).
Qed.

Definition all_types : gset Ty := list_to_set (seq 0 (length types)).
Definition unchecked (g : Labgob) : nat := size (all_types ∖ checked g).

Lemma unchecked_mono g g' : checked g ⊆ checked g' → (unchecked g' ≤ unchecked g)%nat.
Proof. intros Hs. unfold unchecked. apply subseteq_size. set_solver. Qed.

Lemma unchecked_mark g t : (t < length types)%nat → t ∉ checked g → (unchecked (mark t g) < unchecked g)%nat.
Proof.
  intros Ht Hg. unfold unchecked. apply subset_size. assert (t ∈ all_types) by (apply elem_of_list_to_set, elem_of_seq; lia). simpl. split; [set_solver|].
  intros Hs. assert (t ∈ all_types ∖ checked g) as Hin by set_solver. apply Hs in Hin. set_solver.
Qed.

(** Each call marks a type or returns, so as much fuel as there are types is enough. *)
Lemma checkType_total fuel : types_closed → ∀ t g, (t < length types)%nat → (unchecked g < fuel)%nat →
  ∃ g', checkType types fuel t g = Some g' ∧ checked g ⊆ checked g'.
Proof.
  intros Hcl. induction fuel as [|fuel IH]; intros t g Ht Hf; [lia|]. simpl.
  destruct (lookup_lt_is_Some_2 types t Ht) as [d Hd]. rewrite Hd. simpl.
  destruct (decide (t ∈ checked g)) as [Hin|Hin]; [by exists g|]. pose proof (unchecked_mark g t Ht Hin).
  assert (Hu : (unchecked (mark t g) < fuel)%nat) by lia. assert (Hs : checked g ⊆ checked (mark t g)) by set_solver.
  assert (Hone : ∀ u g1, u ∈ succs d → checked (mark t g) ⊆ checked g1 →
    ∃ g', checkType types fuel u g1 = Some g' ∧ checked (mark t g) ⊆ checked g').
  { intros u g1 Hu1 Hg1. destruct (IH u g1) as (g' & E & Hg').
    - apply (Hcl t). by exists d.
    - apply unchecked_mono in Hg1. lia.
    - exists g'. split; [done|by etransitivity]. }
  cut (∃ g', match d with
    | Struct name fields => for_each (λ f g, checkType types fuel (f_Type f)
        (if upper f then g else count_error (Printf (LowerCase (f_Name f) name) g))) fields (mark t g)
    | Slice e | Array e | Ptr e => checkType types fuel e (mark t g)
    | MapOf k e => g ← checkType types fuel e (mark t g); checkType types fuel k g
    | Basic _ | OtherKind _ => Some (mark t g)
    end = Some g' ∧ checked (mark t g) ⊆ checked g').
  { intros (g' & E & Hg'). exists g'. split; [exact E|by etransitivity]. }
  destruct d as [name fields|e|e|e|k e|n|n]; try (apply Hone; [by left|done]); try (by eexists).
  - apply (for_each_ind (λ _ g1, checked (mark t g) ⊆ checked g1)); [done|]. intros l1 f l2 g1 -> Hg1. apply Hone.
    + simpl. apply list_elem_of_fmap_2. apply elem_of_app. right. by left.
    + by destruct (upper f).
  - destruct (Hone e (mark t g)) as (g1 & -> & Hg1); [by left|done|]. apply Hone; [right; by left|done].
Qed.

(** A value that is not nil is checked: all the types it may hold, and each lower-case
    field is reported once. *)
Theorem checkValue_complains e g : types_closed → (i_type e < length types)%nat → labgob_ok g →
  ∃ g', checkValue types (Some e) g = Some g' ∧
    (∀ t, t ∈ checked g' ↔ t ∈ checked g ∨ rtc part_of (i_type e) t) ∧
    printed g' ≡ₚ printed g ++ (elements (checked g' ∖ checked g) ≫= complaints) ∧
    errorCount g' = wrap_i64 (errorCount g + go_len (elements (checked g' ∖ checked g) ≫= complaints)) ∧ labgob_ok g'.
Proof.
  intros Hcl Ht Hok. destruct (checkType_total (S (length types)) Hcl (i_type e) g Ht) as (g' & E & _).
  { unfold unchecked. assert (size (all_types ∖ checked g) ≤ size all_types)%nat by (apply subseteq_size; set_solver).
    assert (size all_types ≤ length types)%nat; [|lia]. unfold all_types. rewrite size_list_to_set by apply NoDup_seq. by rewrite length_seq. }
  exists g'. split; [exact E|]. destruct (checkType_alone _ _ _ _ [] E) as (n & Hn).
  pose proof (walk_run_inv [i_type e] g _ _ _ (walk_start_inv [i_type e] g Hok) Hn) as Hinv.
  destruct (walk_inv_end _ _ _ Hinv) as (Hchk & Hrest). split; [|done]. intros t. rewrite (Hchk t). unfold reaches. simpl.
  split; (intros [?|Hr]; [by left|right]); [by destruct Hr as (r & ->%list_elem_of_singleton & Hr)|]. exists (i_type e). split; [by left|done].
Qed.
End walk.

(** ** What checkDefault looks at *)

Section defaults.
Context {uni : Unicode} (types : list TypeDesc) (heap : gmap nat Value) (heap_types : gmap nat Ty).
Implicit Types (t u : Ty) (g : Labgob) (ro : RO).

(** The value has the type. *)
Inductive has_type : Ty → Value → Prop :=
  | ht_struct t name fields vs : types !! t = Some (Struct name fields) →
      length vs = length fields → (∀ i f vv, fields !! i = Some f → vs !! i = Some vv → has_type (f_Type f) vv) →
      has_type t (VStruct vs)
  | ht_ptr t elem p : types !! t = Some (Ptr elem) → (∀ l, p = Some l → heap_types !! l = Some elem) → has_type t (VPtr p)
  | ht_basic t name b : types !! t = Some (Basic name) → has_type t (VBasic b)
  | ht_slice t elem : types !! t = Some (Slice elem) → has_type t VOther
  | ht_array t elem : types !! t = Some (Array elem) → has_type t VOther
  | ht_map t key elem : types !! t = Some (MapOf key elem) → has_type t VOther
  | ht_other t name : types !! t = Some (OtherKind name) → has_type t VOther.

Definition heap_ok : Prop := ∀ l t, heap_types !! l = Some t → ∃ vv, heap !! l = Some vv ∧ has_type t vv.

(** A bool, number or string that is found [k] fields and pointers down, and how reflect
    got there. *)
Inductive leaf : Ty → Value → RO → nat → BasicValue → RO → Prop :=
  | leaf_here t name b ro : types !! t = Some (Basic name) → leaf t (VBasic b) ro 0 b ro
  | leaf_field t name fields vs i f vv ro k b ro' : types !! t = Some (Struct name fields) →
      fields !! i = Some f → vs !! i = Some vv → leaf (f_Type f) vv (field_ro f ro) k b ro' → leaf t (VStruct vs) ro (S k) b ro'
  | leaf_ptr t elem l vv ro k b ro' : types !! t = Some (Ptr elem) → heap !! l = Some vv →
      leaf elem vv ro k b ro' → leaf t (VPtr (Some l)) ro (S k) b ro'.

(** Those within [m] levels. *)
Definition leaves_below (m : Z) t value ro (P : BasicValue → RO → Prop) : Prop :=
  ∀ k b ro', leaf t value ro k b ro' → Z.of_nat k < m → P b ro'.

(** The outcome of a check: it panics at a leaf behind a field that is not exported, or it
    counts those that are not zero. *)
Definition default_checked (m : Z) t value ro g (o : option Labgob) : Prop :=
  match o with
  | None => ∃ k b ro', leaf t value ro k b ro' ∧ Z.of_nat k < m ∧ read_only ro' = true
  | Some g' =>
      leaves_below m t value ro (λ _ ro', read_only ro' = false) ∧ checked g' = checked g ∧
      (g' = g ∧ leaves_below m t value ro (λ b _, is_zero b = true) ∨
       (∃ n, 0 < n ∧ errorCount g' = wrap_i64 (errorCount g + n)) ∧
       ∃ k b ro', leaf t value ro k b ro' ∧ Z.of_nat k < m ∧ is_zero b = false)
  end.

(** The loop over the fields that are left. *)
Definition fields_checked (m : Z) (fs : list (StructField * Value)) ro g (o : option Labgob) : Prop :=
  match o with
  | None => ∃ f vv k b ro', (f, vv) ∈ fs ∧ leaf (f_Type f) vv (field_ro f ro) k b ro' ∧ Z.of_nat k < m ∧ read_only ro' = true
  | Some g' =>
      (∀ f vv, (f, vv) ∈ fs → leaves_below m (f_Type f) vv (field_ro f ro) (λ _ ro', read_only ro' = false)) ∧ checked g' = checked g ∧
      (g' = g ∧ (∀ f vv, (f, vv) ∈ fs → leaves_below m (f_Type f) vv (field_ro f ro) (λ b _, is_zero b = true)) ∨
       (∃ n, 0 < n ∧ errorCount g' = wrap_i64 (errorCount g + n)) ∧
       ∃ f vv k b ro', (f, vv) ∈ fs ∧ leaf (f_Type f) vv (field_ro f ro) k b ro' ∧ Z.of_nat k < m ∧ is_zero b = false)
  end.

Lemma fields_loop_checked m ro (body : StructField * Value → Labgob → option Labgob) fs : ∀ g,
  (∀ f vv g, (f, vv) ∈ fs → default_checked m (f_Type f) vv (field_ro f ro) g (body (f, vv) g)) →
  fields_checked m fs ro g (for_each body fs g).
Proof.
  induction fs as [|[f vv] fs IH]; intros g Hb; simpl.
  { split_and!; [by intros f vv ?%elem_of_nil|done|]. left. split; [done|]. by intros f vv ?%elem_of_nil. }
  assert (Hh : default_checked m (f_Type f) vv (field_ro f ro) g (body (f, vv) g)) by (apply Hb; by left).
  assert (Ht : ∀ g, fields_checked m fs ro g (for_each body fs g)) by (intros g1; apply IH; intros f' vv' g2 Hin; apply Hb; by right).
  destruct (body (f, vv) g) as [g1|]; simpl.
  2: { destruct Hh as (k & b & ro' & Hl & Hk & Hr). exists f, vv, k, b, ro'. split_and!; try done. by left. }
  specialize (Ht g1). destruct Hh as (Hro & Hc & Hres). destruct (for_each body fs g1) as [g2|]; simpl in *.
  2: { destruct Ht as (f' & vv' & k & b & ro' & Hin & Hl & Hk & Hr). exists f', vv', k, b, ro'. split_and!; try done. by right. }
  destruct Ht as (Htro & Htc & Htres). split_and!; [|congruence|].
  { intros f' vv' [[= -> ->]|Hin]%elem_of_cons; [done|by apply Htro]. }
  destruct Hres as [[-> Hz]|[(n & Hn & En) (k & b & ro' & Hl & Hk & Hz)]].
  - destruct Htres as [[-> Hz']|[Hcnt (f' & vv' & k & b & ro' & Hin & Hl & Hk & Hz')]]; [left|right].
    + split; [done|]. intros f' vv' [[= -> ->]|Hin]%elem_of_cons; [done|by apply Hz'].
    + split; [done|]. exists f', vv', k, b, ro'. split_and!; try done. by right.
  - right. split; [|exists f, vv, k, b, ro'; split_and!; try done; by left].
    destruct Htres as [[-> _]|[(n' & Hn' & En') _]]; [by exists n|]. exists (n + n'). split; [lia|]. rewrite En', En, wrap_i64_add. f_equal. lia.
Qed.

(** Nothing to look at. *)
Lemma no_leaves_checked m t value ro g : (∀ k b ro', leaf t value ro k b ro' → ¬ Z.of_nat k < m) → default_checked m t value ro g (Some g).
Proof. intros Hn. split_and!; [|done|left; split; [done|]]; intros k b ro' Hl Hk; by destruct (Hn k b ro' Hl). Qed.

Lemma leaf_struct_inv t name fields vs ro k b ro' : types !! t = Some (Struct name fields) → leaf t (VStruct vs) ro k b ro' →
  ∃ f vv k', k = S k' ∧ (f, vv) ∈ zip fields vs ∧ leaf (f_Type f) vv (field_ro f ro) k' b ro'.
Proof.
  intros Ht Hl. inversion Hl as [|? ? ? ? i f vv ? k' ? ? Ht' Hf Hv Hl'|]; simplify_eq. exists f, vv, k'. split_and!; try done.
  apply list_elem_of_lookup. exists i. by rewrite lookup_zip_with, Hf, Hv.
Qed.

Lemma leaf_struct t name fields vs ro f vv k b ro' : types !! t = Some (Struct name fields) → (f, vv) ∈ zip fields vs →
  leaf (f_Type f) vv (field_ro f ro) k b ro' → leaf t (VStruct vs) ro (S k) b ro'.
Proof.
  intros Ht [i Hi]%list_elem_of_lookup Hl. rewrite lookup_zip_with in Hi. destruct (fields !! i) as [f'|] eqn:Ef; simpl in Hi; [|done].
  destruct (vs !! i) as [v'|] eqn:Ev; simplify_eq/=. by eapply leaf_field.
Qed.

Lemma struct_checked m t name fields vs ro g o : types !! t = Some (Struct name fields) →
  fields_checked (m - 1) (zip fields vs) ro g o → default_checked m t (VStruct vs) ro g o.
Proof.
  intros Ht. destruct o as [g'|]; simpl.
  - intros (Hro & Hc & Hres). split_and!; [|done|].
    + intros k b ro' Hl Hk. destruct (leaf_struct_inv _ _ _ _ _ _ _ _ Ht Hl) as (f & vv & k' & -> & Hin & Hl'). apply (Hro f vv Hin k' b); [done|lia].
    + destruct Hres as [[-> Hz]|[Hcnt (f & vv & k & b & ro' & Hin & Hl & Hk & Hz)]]; [left|right]; (split; [done|]).
      * intros k b ro' Hl Hk. destruct (leaf_struct_inv _ _ _ _ _ _ _ _ Ht Hl) as (f & vv & k' & -> & Hin & Hl'). apply (Hz f vv Hin k' b ro'); [done|lia].
      * exists (S k), b, ro'. split_and!; [by eapply leaf_struct|lia|done].
  - intros (f & vv & k & b & ro' & Hin & Hl & Hk & Hr). exists (S k), b, ro'. split_and!; [by eapply leaf_struct|lia|done].
Qed.

Lemma leaf_ptr_inv t elem l vv ro k b ro' : types !! t = Some (Ptr elem) → heap !! l = Some vv → leaf t (VPtr (Some l)) ro k b ro' →
  ∃ k', k = S k' ∧ leaf elem vv ro k' b ro'.
Proof. intros Ht Hh Hl. inversion Hl; simplify_eq. eauto. Qed.

Lemma ptr_checked m t elem l vv ro g o : types !! t = Some (Ptr elem) → heap !! l = Some vv →
  default_checked (m - 1) elem vv ro g o → default_checked m t (VPtr (Some l)) ro g o.
Proof.
  intros Ht Hh. destruct o as [g'|]; simpl.
  - intros (Hro & Hc & Hres). split_and!; [|done|].
    + intros k b ro' Hl Hk. destruct (leaf_ptr_inv _ _ _ _ _ _ _ _ Ht Hh Hl) as (k' & -> & Hl'). apply (Hro k' b); [done|lia].
    + destruct Hres as [[-> Hz]|[Hcnt (k & b & ro' & Hl & Hk & Hz)]]; [left|right]; (split; [done|]).
      * intros k b ro' Hl Hk. destruct (leaf_ptr_inv _ _ _ _ _ _ _ _ Ht Hh Hl) as (k' & -> & Hl'). apply (Hz k' b ro'); [done|lia].
      * exists (S k), b, ro'. split_and!; [by eapply leaf_ptr|lia|done].
  - intros (k & b & ro' & Hl & Hk & Hr). exists (S k), b, ro'. split_and!; [by eapply leaf_ptr|lia|done].
Qed.

Lemma warn_counts name tname g : checked (warn name tname g) = checked g ∧ errorCount (warn name tname g) = wrap_i64 (errorCount g + 1).
Proof. unfold warn. by destruct (errorCount g <? 1). Qed.

Lemma checkDefault1_checked fuel : heap_ok → ∀ t value ro depth name g, has_type t value → 4 ≤ depth + Z.of_nat fuel →
  default_checked (4 - depth) t value ro g (checkDefault1 types heap fuel t value ro depth name g).
Proof.
  intros Hheap. induction fuel as [|fuel IH]; intros t value ro depth name g Hty Hf; simpl; [apply no_leaves_checked; lia|].
  destruct (Z.ltb_spec 3 depth); [apply no_leaves_checked; lia|].
  inversion Hty as [? tn fields vs Ht Hlen Hfs|? elem p Ht Hp|? tn b Ht|? ? Ht|? ? Ht|? ? ? Ht|? ? Ht]; subst; rewrite Ht;
    try (apply no_leaves_checked; intros k b ro' Hl; inversion Hl; simplify_eq).
  - apply (struct_checked _ _ tn fields); [done|]. apply fields_loop_checked. intros f vv g1 Hin. replace (4 - depth - 1) with (4 - (depth + 1)) by lia.
    apply list_elem_of_lookup in Hin as [i Hi]. rewrite lookup_zip_with in Hi. destruct (fields !! i) as [f'|] eqn:Ef; simpl in Hi; [|done].
    destruct (vs !! i) as [v'|] eqn:Ev; simplify_eq/=. apply IH; [by apply (Hfs i)|lia].
  - destruct p as [l|]; [|apply no_leaves_checked; intros k b ro' Hl; inversion Hl].
    destruct (Hheap l elem (Hp l eq_refl)) as (vv & Hl & Hvv). rewrite Hl. simpl. apply (ptr_checked _ _ elem l vv); [done|done|].
    replace (4 - depth - 1) with (4 - (depth + 1)) by lia. apply IH; [done|lia].
  - assert (Hhere : leaf t (VBasic b) ro 0 b ro) by (by eapply leaf_here).
    assert (Honly : ∀ k b' ro', leaf t (VBasic b) ro k b' ro' → b' = b ∧ ro' = ro) by (intros k b' ro' Hl; by inversion Hl).
    destruct (read_only ro) eqn:Er; [exists 0%nat, b, ro; split_and!; [done|lia|done]|]. destruct (is_zero b) eqn:Ez.
    + split_and!; [|done|left; split; [done|]]; intros k b' ro' Hl _; by destruct (Honly k b' ro' Hl) as [-> ->].
    + destruct (warn_counts name tn g) as [Hw1 Hw2]. split_and!; [|done|right; split; [by exists 1|]].
      * intros k b' ro' Hl _. by destruct (Honly k b' ro' Hl) as [_ ->].
      * exists 0%nat, b, ro. split_and!; [done|lia|done].
Qed.
End defaults.

(** ** Decode *)

Section decode.
Context {uni : Unicode} (types : list TypeDesc).
Context {GobDecoder Error : Type}
  (gob_Decode : any → gmap nat Value → GobDecoder → GobDecoder * gmap nat Value * option Error).

(** The check of nil in checkDefault comes too late. *)
Theorem Decode_nil_panics heap dec g : Decode types gob_Decode None heap dec g = None.
Proof. done. Qed.

(** Decode panics exactly if, within three levels of what it decodes into, there is a
    bool, number or string behind a field that is not exported.  Otherwise it does what
    gob does; and it leaves the count of errors as it was if all these are zero and none
    of the types that it has not seen before has a lower-case field, and else adds to it. *)
Theorem Decode_checks heap heap_types e dec g :
  types_closed types → heap_ok types heap heap_types → labgob_ok types g →
  (i_type e < length types)%nat → has_type types heap_types (i_type e) (i_value e) →
  match Decode types gob_Decode (Some e) heap dec g with
  | None => ∃ k b ro, leaf types heap (i_type e) (i_value e) (mkRO false false) k b ro ∧ Z.of_nat k < 3 ∧ read_only ro = true
  | Some (g', heap', dec', err) =>
      gob_Decode (Some e) heap (dec_gob dec) = (dec_gob dec', heap', err) ∧
      leaves_below types heap 3 (i_type e) (i_value e) (mkRO false false) (λ _ ro, read_only ro = false) ∧
      (∀ t, t ∈ checked g' ↔ t ∈ checked g ∨ rtc (part_of types) (i_type e) t) ∧
      ∃ n, errorCount g' = wrap_i64 (errorCount g + n) ∧ 0 ≤ n ∧
        (n = 0 ↔ (elements (checked g' ∖ checked g) ≫= complaints types) = [] ∧
          leaves_below types heap 3 (i_type e) (i_value e) (mkRO false false) (λ b _, is_zero b = true))
  end.
Proof.
  intros Hcl Hheap Hok Ht Hty. destruct (checkValue_complains types e g Hcl Ht Hok) as (g1 & E1 & Hchk & _ & Hcnt & _).
  pose proof (checkDefault1_checked types heap heap_types 4 Hheap _ _ (mkRO false false) 1 "" g1 Hty ltac:(lia)) as Hd.
  replace (4 - 1) with 3 in Hd by lia. unfold Decode. rewrite E1. cbn [mbind option_bind]. unfold checkDefault.
  destruct (checkDefault1 _ _ _ _ _ _ _ _ _) as [g2|]; [|exact Hd]. simpl.
  destruct (gob_Decode (Some e) heap (dec_gob dec)) as [[s heap'] err] eqn:Eg. simpl. destruct Hd as (Hro & Hc & Hres).
  set (cs := elements (checked g2 ∖ checked g) ≫= complaints types). rewrite <- Hc in Hcnt. fold cs in Hcnt.
  split_and!; [done|done|by rewrite Hc|]. assert (Hlen : 0 ≤ go_len cs) by (unfold go_len; lia).
  assert (Hnil : go_len cs = 0 ↔ cs = []) by (unfold go_len; destruct cs; simpl; split; intros; [done|done|lia|done]).
  destruct Hres as [[-> Hz]|[(n & Hn & En) (k & b & ro' & Hl & Hk & Hz)]].
  - exists (go_len cs). split_and!; [done|done|]. rewrite Hnil. naive_solver.
  - exists (go_len cs + n). split_and!; [|lia|]; [rewrite En, Hcnt, wrap_i64_add; f_equal; lia|].
    split; [lia|]. intros [_ Hall]. specialize (Hall k b ro' Hl Hk). congruence.
Qed.
End decode.

(** ** The types of this program *)

Lemma types_closed_forallb types :
  forallb (λ d, forallb (λ u, (u <? length types)%nat) (succs d)) types = true → types_closed types.
Proof.
  intros Hb t u (d & Hd & Hu). rewrite forallb_forall in Hb. specialize (Hb d). rewrite <- list_elem_of_In, forallb_forall in Hb.
  specialize (Hb (list_elem_of_lookup_2 _ _ _ Hd) u). rewrite <- list_elem_of_In in Hb. by apply Nat.ltb_lt, Hb.
Qed.

Section program.
Context {uni : Unicode}.

Definition plain (name : string) (t : Ty) : StructField := mkField name t false.

(** What goes through labgob in raft1, rsm and kvraft1: the messages of the RPCs, the
    persistent state and the snapshots, and what is registered. *)
Definition program_types : list TypeDesc :=
  [ (* 0 *) Basic "int"; Basic "int64"; Basic "bool"; Basic "string"; Basic "uint8"; OtherKind "any"; Basic "Tversion"; Basic "Err";
    (* 8 *) Slice 4;
    (* 9 *) Struct "LogEntry" [plain "Command" 5; plain "Term" 0; plain "Index" 0]; Slice 9;
    (* 11 *) Struct "RequestVoteArgs" [plain "Term" 0; plain "CandidateId" 0; plain "LastLogIndex" 0; plain "LastLogTerm" 0];
    Struct "RequestVoteReply" [plain "Term" 0; plain "VoteGranted" 2];
    Struct "AppendEntryArgs" [plain "Term" 0; plain "LeaderId" 0; plain "PrevLogIndex" 0; plain "PrevLogTerm" 0; plain "Entries" 10; plain "LeaderCommit" 0];
    Struct "AppendEntryReply" [plain "Term" 0; plain "Success" 2; plain "ConflictIndex" 0; plain "ConflictTerm" 0];
    Struct "InstallSnapShotArgs" [plain "Term" 0; plain "LeaderId" 0; plain "LastIncludedIndex" 0; plain "LastIncludedTerm" 0; plain "Data" 8];
    Struct "InstallSnapShotReply" [plain "Term" 0];
    (* 17 *) Struct "PutArgs" [plain "Key" 3; plain "Value" 3; plain "Version" 6; plain "ClientId" 1; plain "SeqNum" 1];
    Struct "PutReply" [plain "Err" 7];
    Struct "GetArgs" [plain "Key" 3; plain "ClientId" 1; plain "SeqNum" 1];
    Struct "GetReply" [plain "Value" 3; plain "Version" 6; plain "Err" 7];
    (* 21 *) Struct "Op" [plain "Me" 0; plain "Id" 1; plain "Req" 5];
    Struct "RaftReqMsg" [plain "Command" 3; plain "Key" 3; plain "Value" 3; plain "SeqNum" 1; plain "ClientId" 1; plain "Version" 6];
    Struct "RaftReplyMsg" [plain "Command" 3; plain "Value" 3; plain "Version" 6; plain "Err" 7];
    (* 24 *) Struct "KVPair" [plain "Value" 3; plain "Version" 6]; Ptr 24; MapOf 3 25;
    (* 27 *) MapOf 1 23; Struct "dupTab" [plain "Replies" 27; plain "MaxSeqNum" 1]; Ptr 28; MapOf 1 29;
    (* 31 *) Struct "Inc" []; Struct "IncRep" [plain "N" 0]; Struct "Null" []; Struct "NullRep" []; Struct "Dec" [];
    (* 36 *) Ptr 11; Ptr 12; Ptr 13; Ptr 14; Ptr 15; Ptr 16; Ptr 17; Ptr 18; Ptr 19; Ptr 20;
    (* 46 *) Ptr 36; Ptr 38; Ptr 40; Ptr 42; Ptr 44;
    (* 51 *) Ptr 0; Ptr 1; Ptr 8; Ptr 10; Ptr 26; Ptr 30 ].

Lemma upper_ascii f c : DecodeRuneInString (f_Name f) = c → 0 ≤ c < 128 → (65 <=? c) && (c <=? 90) = true → upper f = true.
Proof. intros Hc Hb Hu. unfold upper. by rewrite Hc, IsUpper_ascii. Qed.

Lemma program_types_upper : Forall (λ d, match d with Struct _ fields => Forall (λ f, upper f = true) fields | _ => True end) program_types.
Proof. repeat constructor; by eapply upper_ascii. Qed.

Lemma no_complaints t : complaints program_types t = [].
Proof.
  unfold complaints. destruct (program_types !! t) as [d|] eqn:E; [|done]. pose proof program_types_upper as Hall. rewrite Forall_forall in Hall.
  specialize (Hall d (list_elem_of_lookup_2 _ _ _ E)). destruct d as [name fields| | | | | |]; try done.
  assert (filter (λ f, upper f = false) fields = []) as ->; [|done]. clear E. induction Hall as [|x l Hx _ IH]; [done|].
  rewrite filter_cons_False; [done|]. by rewrite Hx.
Qed.

(** None of the program's types makes labgob complain, in whatever order and at whatever
    time the peers and servers of the program encode, decode and register. *)
Theorem program_never_complains roots sched s :
  for_each (walk_step program_types) sched (walk_start roots (mkLabgob 0 ∅ [])) = Some s → Forall (λ ws, ws = []) s.1 →
  errorCount s.2 = 0 ∧ printed s.2 = [].
Proof.
  intros Hrun Hend%walk_pool_empty. pose proof (walk_run_inv program_types roots _ sched _ s (walk_start_inv _ roots _ (labgob_init_ok _)) Hrun) as Hinv.
  rewrite Hend in Hinv. destruct (walk_inv_end _ _ _ _ Hinv) as (_ & Hpr & Hc & _).
  assert (Hn : ∀ l, l ≫= complaints program_types = []) by (induction l as [|t l IH]; [done|]; simpl; by rewrite no_complaints).
  unfold new_complaints in *. rewrite Hn in *. split; [exact Hc|]. by apply Permutation_nil_r in Hpr.
Qed.
End program.

(** ** The tests of the package *)

(** T4 has the fields Yes and no. *)
Definition capital_types : list TypeDesc :=
  [ (* 0 *) Basic "int"; Struct "T4" [plain "Yes" 0; plain "no" 0]; Ptr 1; MapOf 2 0; Slice 3;
    (* 5 *) MapOf 1 0; Slice 5; Ptr 6; Ptr 2;
    (* 9 *) Struct "DD" [plain "X" 0]; Ptr 9 ].

(** A gob that does nothing. *)
Definition no_Encode (e : any) (s : ()) : () * option () := (s, None).
Definition no_Decode (e : any) (heap : gmap nat Value) (s : ()) : () * gmap nat Value * option () := (s, heap, None).

Definition encode_decode (x y : Iface) (heap : gmap nat Value) : option Z :=
  '(g, _, _) ← @Encode ascii_unicode capital_types _ _ no_Encode (Some x) (NewEncoder ()) (mkLabgob 0 ∅ []);
  '(g, _, _, _) ← @Decode ascii_unicode capital_types _ _ no_Decode (Some y) heap (NewDecoder ()) g;
  Some (errorCount g).

(** One warning, for what is encoded and decoded together. *)
Example TestCapital : encode_decode (mkIface 4 VOther) (mkIface 7 (VPtr (Some 0%nat))) {[ 0%nat := VOther ]} = Some 1.
Proof. vm_compute. reflexivity. Qed.

(** Decoding into a field that holds 99. *)
Example TestDefault :
  encode_decode (mkIface 9 (VStruct [VBasic (BInt 0)])) (mkIface 10 (VPtr (Some 0%nat))) {[ 0%nat := VStruct [VBasic (BInt 99)] ]} = Some 1.
Proof. vm_compute. reflexivity. Qed.

(** The warning about lower-case fields that the package is for does not help a decoder:
    it panics on a T4, where gob leaves the field alone. *)
Theorem decode_lower_case_panics :
  encode_decode (mkIface 1 (VStruct [VBasic (BInt 0); VBasic (BInt 0)])) (mkIface 2 (VPtr (Some 0%nat)))
    {[ 0%nat := VStruct [VBasic (BInt 0); VBasic (BInt 0)] ]} = None ∧
  is_Some (@Encode ascii_unicode capital_types _ _ no_Encode (Some (mkIface 1 (VStruct [VBasic (BInt 0); VBasic (BInt 0)]))) (NewEncoder ())
    (mkLabgob 0 ∅ [])).
Proof. split; [vm_compute; reflexivity|]. eexists. vm_compute. reflexivity. Qed.

(** ** Witness: two goroutines, one encodes and one decodes *)

Definition capital_sched : list nat := [0; 1; 0; 1; 0; 1; 0; 1; 0; 1; 0; 0; 0; 0]%nat.
Definition capital_end : Walk :=
  default ([], mkLabgob 0 ∅ []) (for_each (@walk_step ascii_unicode capital_types) capital_sched (walk_start [4; 7]%nat (mkLabgob 0 ∅ []))).

Lemma capital_run :
  for_each (@walk_step ascii_unicode capital_types) capital_sched (walk_start [4; 7]%nat (mkLabgob 0 ∅ [])) = Some capital_end ∧
  forallb (λ ws, match ws with [] => true | _ => false end) capital_end.1 = true ∧
  elements (checked capital_end.2 ∖ ∅) ≫= @complaints ascii_unicode capital_types = [LowerCase "no" "T4"].
Proof. split_and!; vm_compute; reflexivity. Qed.

Lemma labgob_complains_once_witness :
  (∀ t, t ∈ checked capital_end.2 ↔ t ∈ (∅ : gset Ty) ∨ ∃ r, r ∈ [4; 7]%nat ∧ rtc (part_of capital_types) r t) ∧
  printed capital_end.2 ≡ₚ [LowerCase "no" "T4"] ∧ errorCount capital_end.2 = 1.
Proof.
  destruct capital_run as (Hrun & Hend & Hc).
  destruct (@labgob_complains_once ascii_unicode capital_types [4; 7]%nat (mkLabgob 0 ∅ []) capital_sched capital_end) as (_ & _ & H).
  - apply types_closed_forallb. reflexivity.
  - repeat constructor.
  - apply labgob_init_ok.
  - exact Hrun.
  - destruct H as (H1 & H2 & H3 & _).
    + apply Forall_forall. intros ws Hin%list_elem_of_In. rewrite forallb_forall in Hend. specialize (Hend ws Hin). by destruct ws.
    + cbn [checked] in H2, H3. rewrite Hc in H2, H3. split; [exact H1|]. split; [exact H2|exact H3].
Defined.
