(* ===== verification/Coordinator.v ===== *)
(** * mr: the MapReduce coordinator

    coordinator.go, common.go and rpc.go of src/src/mr.  The coordinator's maps and
    channels hold pointers to the same [WorkerDetail]: the maps are the store, and
    a channel is the queue of the ids of the tasks in it, with its capacity.  A
    send on a full channel, which would block for ever with the lock held, is
    [None].  Every GetTask that hands out a task starts a CheckFinished goroutine;
    [mapChecks] and [reduceChecks] are the ids of those that have not woken yet.
    Workers may crash, be late and report a task more than once. *)

From S2P Require Import Prelude Cluster.
Local Open Scope Z_scope.
Local Open Scope go_scope.

(** ** strconv and strings *)

Definition digit_value (a : Ascii.ascii) : option Z :=
  let d := Z.of_nat (Ascii.nat_of_ascii a) - 48 in
  if (0 <=? d) && (d <=? 9) then Some d else None.

Fixpoint atoi_loop (s : string) (acc : Z) : option Z :=
  match s with
  | EmptyString => Some acc
  | String a s => d ← digit_value a; atoi_loop s (10 * acc + d)
  end.

(** [n, _ := strconv.Atoi(s)] on unsigned decimals: 0 when the syntax is wrong. *)
Definition Atoi (s : string) : Z :=
  match s with EmptyString => 0 | _ => default 0 (atoi_loop s 0) end.

Definition dash : Ascii.ascii := Ascii.ascii_of_nat 45.

(** [strings.Split(s, "-")] *)
Fixpoint Split (s : string) : list string :=
  match s with
  | EmptyString => [""]
  | String a s =>
      if decide (a = dash) then "" :: Split s
      else match Split s with
           | [] => [String a ""]
           | x :: xs => String a x :: xs
           end
  end.

(** The name of the file in which map task [id] leaves what goes to reduce task
    [i]. *)
Definition inter_name (id i : Z) : string := "mr-" +:+ Itoa id +:+ "-" +:+ Itoa i.

(** The names MapWork returns for a task. *)
Definition MapWork_filenames (id nReduce : Z) : list string := inter_name id <$> seqZ 0 nReduce.

(** ** common.go and rpc.go *)

Inductive WorkerStatus := Idle | InProcess | Completed | Error.
Inductive WorkerType := TypeNone | Map | Reduce.

#[export] Instance WorkerStatus_eq_dec : EqDecision WorkerStatus.
Proof. solve_decision. Defined.
#[export] Instance WorkerType_eq_dec : EqDecision WorkerType.
Proof. solve_decision. Defined.

Record WorkerDetail := mkWorkerDetail {
  wd_Id : Z; Status : WorkerStatus; wd_Type : WorkerType;
  FileName : string; FileNames : list string; NReduce : Z
}.

Definition IsCompleted (wd : WorkerDetail) : bool := bool_decide (Status wd = Completed).
Definition IsIdle (wd : WorkerDetail) : bool := bool_decide (Status wd = Idle).
Definition IsInProcess (wd : WorkerDetail) : bool := bool_decide (Status wd = InProcess).
Definition set_status (s : WorkerStatus) (wd : WorkerDetail) : WorkerDetail :=
  mkWorkerDetail (wd_Id wd) s (wd_Type wd) (FileName wd) (FileNames wd) (NReduce wd).
Definition set_files (fs : list string) (wd : WorkerDetail) : WorkerDetail :=
  mkWorkerDetail (wd_Id wd) (Status wd) (wd_Type wd) (FileName wd) fs (NReduce wd).
Definition ChangeStatusToCompleted : WorkerDetail → WorkerDetail := set_status Completed.
Definition ChangeStatusToIdle : WorkerDetail → WorkerDetail := set_status Idle.
Definition ChangeStatusToInProcess : WorkerDetail → WorkerDetail := set_status InProcess.
Definition IsMapWorker (wd : WorkerDetail) : bool := bool_decide (wd_Type wd = Map).
Definition IsReduceWorker (wd : WorkerDetail) : bool := bool_decide (wd_Type wd = Reduce).

Record Args := mkArgs { a_Task : WorkerDetail; IntermidiateFiles : list string; OutPutFileName : string }.
Record Reply := mkReply { r_Task : WorkerDetail; IsFinished : bool }.

(** ** coordinator.go *)

Record Coordinator := mkCoordinator {
  mapsTaskList : gmap Z WorkerDetail;
  reduceTaskList : gmap Z WorkerDetail;
  reduceChan : list Z;
  mapChan : list Z;
  reduceCap : Z;
  isAllMapWorkerFinished : bool;
  interFiles : gmap Z (list string)
}.

Definition mapCap : Z := 10000.

(** [ch <- x]; [None] when the channel is full. *)
Definition chan_send (cap : Z) (x : Z) (ch : list Z) : option (list Z) :=
  if go_len ch <? cap then Some (ch ++ [x]) else None.

Definition all_completed (tasks : gmap Z WorkerDetail) : bool :=
  forallb (λ '(_, t), IsCompleted t) (map_to_list tasks).

Definition allTasksDone (c : Coordinator) : bool :=
  all_completed (mapsTaskList c) && all_completed (reduceTaskList c).

Definition noTask : WorkerDetail := mkWorkerDetail 0 Idle TypeNone "" [] 0.

(** The id for which CheckFinished is started, if any; [None] is a nil
    dereference. *)
Definition GetTask (c : Coordinator) : option (Coordinator * Reply * option (Z * WorkerType)) :=
  if allTasksDone c then Some (c, mkReply noTask true, None)
  else if negb (isAllMapWorkerFinished c) then
    match mapChan c with
    | [] => Some (c, mkReply noTask false, None)
    | id :: chan =>
        task ← mapsTaskList c !! id;
        let task := ChangeStatusToInProcess task in
        Some (mkCoordinator (<[id := task]> (mapsTaskList c)) (reduceTaskList c) (reduceChan c) chan (reduceCap c)
                (isAllMapWorkerFinished c) (interFiles c), mkReply task false, Some (wd_Id task, wd_Type task))
    end
  else
    match reduceChan c with
    | [] => Some (c, mkReply noTask false, None)
    | id :: chan =>
        task ← reduceTaskList c !! id;
        let task := ChangeStatusToInProcess task in
        let task := set_files (default [] (interFiles c !! wd_Id task)) task in
        Some (mkCoordinator (mapsTaskList c) (<[id := task]> (reduceTaskList c)) chan (mapChan c) (reduceCap c)
                (isAllMapWorkerFinished c) (interFiles c), mkReply task false, Some (wd_Id task, wd_Type task))
    end.

(** The loop over the names a map task reports. *)
Fixpoint record_files (filenames : list string) (inter : gmap Z (list string)) : option (gmap Z (list string)) :=
  match filenames with
  | [] => Some inter
  | filename :: filenames =>
      part ← (Split filename).[2];
      let reduceId := Atoi part in
      record_files filenames (<[reduceId := default [] (inter !! reduceId) ++ [filename]]> inter)
  end.

Definition FinishedTask (args : Args) (c : Coordinator) : option Coordinator :=
  let taskArg := a_Task args in
  if decide (wd_Type taskArg = Map) then
    task ← mapsTaskList c !! wd_Id taskArg;
    if IsInProcess task then
      let task := ChangeStatusToCompleted task in
      inter ← (if decide (wd_Type task = Map) then record_files (IntermidiateFiles args) (interFiles c) else Some (interFiles c));
      Some (mkCoordinator (<[wd_Id taskArg := task]> (mapsTaskList c)) (reduceTaskList c) (reduceChan c) (mapChan c)
              (reduceCap c) (isAllMapWorkerFinished c) inter)
    else Some c
  else
    task ← reduceTaskList c !! wd_Id taskArg;
    if IsInProcess task then
      let task := ChangeStatusToCompleted task in
      inter ← (if decide (wd_Type task = Map) then record_files (IntermidiateFiles args) (interFiles c) else Some (interFiles c));
      Some (mkCoordinator (mapsTaskList c) (<[wd_Id taskArg := task]> (reduceTaskList c)) (reduceChan c) (mapChan c)
              (reduceCap c) (isAllMapWorkerFinished c) inter)
    else Some c.

(** CheckFinished after its ten seconds. *)
Definition CheckFinished (taskId : Z) (taskType : WorkerType) (c : Coordinator) : option Coordinator :=
  if decide (taskType = Map) then
    t ← mapsTaskList c !! taskId;
    if IsCompleted t then Some c
    else
      let t := ChangeStatusToIdle t in
      chan ← chan_send mapCap (wd_Id t) (mapChan c);
      Some (mkCoordinator (<[taskId := t]> (mapsTaskList c)) (reduceTaskList c) (reduceChan c) chan (reduceCap c)
              (isAllMapWorkerFinished c) (interFiles c))
  else
    t ← reduceTaskList c !! taskId;
    if IsCompleted t then Some c
    else
      let t := ChangeStatusToIdle t in
      chan ← chan_send (reduceCap c) (wd_Id t) (reduceChan c);
      Some (mkCoordinator (mapsTaskList c) (<[taskId := t]> (reduceTaskList c)) chan (mapChan c) (reduceCap c)
              (isAllMapWorkerFinished c) (interFiles c)).

Definition Done (c : Coordinator) : Coordinator * bool :=
  let mapAllFinished := all_completed (mapsTaskList c) in
  let c := mkCoordinator (mapsTaskList c) (reduceTaskList c) (reduceChan c) (mapChan c) (reduceCap c)
             mapAllFinished (interFiles c) in
  if negb mapAllFinished then (c, false) else (c, all_completed (reduceTaskList c)).

(** [None] when a channel is full before the coordinator serves anybody. *)
Definition MakeCoordinator (files : list string) (nReduce : Z) : option Coordinator :=
  let c := mkCoordinator ∅ ∅ [] [] nReduce false ∅ in
  c ← for_range (go_len files) (λ i c,
        file ← files.[i];
        let t := mkWorkerDetail i Idle Map file [] nReduce in
        chan ← chan_send mapCap (wd_Id t) (mapChan c);
        Some (mkCoordinator (<[i := t]> (mapsTaskList c)) (reduceTaskList c) (reduceChan c) chan (reduceCap c)
                (isAllMapWorkerFinished c) (interFiles c))) c;
  for_range nReduce (λ i c,
        let t := mkWorkerDetail i Idle Reduce "" [] nReduce in
        chan ← chan_send (reduceCap c) (wd_Id t) (reduceChan c);
        Some (mkCoordinator (mapsTaskList c) (<[i := t]> (reduceTaskList c)) chan (mapChan c) (reduceCap c)
                (isAllMapWorkerFinished c) (interFiles c))) c.

(** ** The names of intermediate files *)

Lemma digit_spec d : 0 ≤ d ≤ 9 → digit_value (digit d) = Some d ∧ digit d ≠ dash.
Proof.
  intros Hd. assert (H : d ∈ seqZ 0 10) by (apply elem_of_seqZ; lia). vm_compute in H.
  repeat (apply elem_of_cons in H as [->|H]; [split; [reflexivity|intros E; vm_compute in E; discriminate E]|]).
  by apply elem_of_nil in H.
Qed.

Lemma atoi_itoa_loop fuel n acc :
  0 ≤ n < 2 ^ Z.of_nat fuel → atoi_loop (itoa_loop fuel n acc) 0 = atoi_loop acc n.
Proof.
  revert n acc. induction fuel as [|fuel IH]; intros n acc Hn; cbn [itoa_loop].
  - change (2 ^ Z.of_nat 0) with 1 in Hn. by replace n with 0 by lia.
  - destruct (digit_spec (n mod 10)) as [Hd _]; [Z.to_euclidean_division_equations; lia|].
    destruct (Z.ltb_spec n 10) as [Hlt|Hge].
    + cbn [atoi_loop]. rewrite Hd. bind_simpl. f_equal. rewrite Z.mod_small by lia. lia.
    + rewrite IH.
      * cbn [atoi_loop]. rewrite Hd. bind_simpl. f_equal. Z.to_euclidean_division_equations; lia.
      * rewrite Nat2Z.inj_succ, Z.pow_succ_r in Hn by lia. Z.to_euclidean_division_equations; lia.
Qed.

Lemma Atoi_Itoa n : 0 ≤ n → Atoi (Itoa n) = n.
Proof.
  intros Hn. assert (Hb : 0 ≤ n < 2 ^ Z.of_nat (S (Z.to_nat (Z.log2 n)))).
  { split; [done|]. pose proof (Z.log2_nonneg n). rewrite Nat2Z.inj_succ, Z2Nat.id by done.
    destruct (decide (n = 0)) as [->|]; [done|]. apply Z.log2_spec. lia. }
  pose proof (atoi_itoa_loop _ n "" Hb) as H. unfold Atoi. fold (Itoa n) in H.
  destruct (Itoa n) as [|a s] eqn:E; [|by rewrite H].
  simpl in H. by injection H.
Qed.

Fixpoint no_dash (s : string) : Prop :=
  match s with EmptyString => True | String a s => a ≠ dash ∧ no_dash s end.

Lemma itoa_loop_no_dash fuel n acc : 0 ≤ n → no_dash acc → no_dash (itoa_loop fuel n acc).
Proof.
  revert n acc. induction fuel as [|fuel IH]; intros n acc Hn Ha; cbn [itoa_loop]; [done|].
  assert (Hd : no_dash (String (digit (n mod 10)) acc)).
  { split; [|done]. apply digit_spec. Z.to_euclidean_division_equations; lia. }
  destruct (n <? 10); [done|]. apply IH; [Z.to_euclidean_division_equations; lia|done].
Qed.

Lemma Split_no_dash s : no_dash s → Split s = [s].
Proof. induction s as [|a s IH]; simpl; [done|]. intros [Ha Hs]. by rewrite decide_False, IH. Qed.

Lemma Split_app s t : no_dash s → Split (s +:+ String dash t) = s :: Split t.
Proof. induction s as [|a s IH]; simpl; [done|]. intros [Ha Hs]. by rewrite decide_False, IH. Qed.

Lemma Split_inter_name id i : 0 ≤ id → 0 ≤ i → Split (inter_name id i) = ["mr"; Itoa id; Itoa i].
Proof.
  intros Hid Hi. change (inter_name id i) with ("mr" +:+ String dash (Itoa id +:+ String dash (Itoa i))).
  rewrite (Split_app "mr") by done. f_equal.
  rewrite Split_app by (by apply itoa_loop_no_dash). f_equal. apply Split_no_dash. by apply itoa_loop_no_dash.
Qed.

Lemma record_files_names id l inter :
  0 ≤ id → Forall (λ i, 0 ≤ i) l → NoDup l →
  ∃ inter', record_files (inter_name id <$> l) inter = Some inter' ∧
    ∀ r, default [] (inter' !! r) = default [] (inter !! r) ++ (if decide (r ∈ l) then [inter_name id r] else []).
Proof.
  intros Hid Hl Hnd. revert inter. induction l as [|i l IH]; intros inter; cbn [fmap list_fmap record_files].
  - exists inter. split; [done|]. intros r. rewrite decide_False by apply not_elem_of_nil. by rewrite app_nil_r.
  - apply Forall_cons in Hl as [Hi Hl]. apply NoDup_cons in Hnd as [Hni Hnd].
    rewrite Split_inter_name by done. change (["mr"; Itoa id; Itoa i].[2]) with (Some (Itoa i)). bind_simpl. rewrite Atoi_Itoa by done.
    destruct (IH Hl Hnd (<[i := default [] (inter !! i) ++ [inter_name id i]]> inter)) as (inter' & -> & H).
    exists inter'. split; [done|]. intros r. rewrite H. destruct (decide (r = i)) as [->|Hne].
    + rewrite lookup_insert_eq, (decide_False (P := i ∈ l)), (decide_True (P := i ∈ i :: l)) by (done || by left). simpl. by rewrite app_nil_r.
    + rewrite lookup_insert_ne by done. f_equal. apply decide_ext. rewrite elem_of_cons. tauto.
Qed.

(** ** The world of the coordinator *)

(** [issued] are the tasks handed to workers so far; [mapsDone] the map tasks in
    the order they were completed. *)
Record MRWorld := mkMRWorld {
  coord : Coordinator;
  mapChecks : list Z;
  reduceChecks : list Z;
  issued : list WorkerDetail;
  mapsDone : list Z
}.

Inductive MREvent :=
  | EGetTask
  | EFinished (task : WorkerDetail)     (* a worker reports a task it was given *)
  | ECheck (ty : WorkerType) (id : Z)   (* a CheckFinished goroutine wakes up *)
  | EDone.

(** What a worker sends with FinishedTask. *)
Definition finish_args (task : WorkerDetail) : Args :=
  if decide (wd_Type task = Map)
  then mkArgs task (MapWork_filenames (wd_Id task) (NReduce task)) ""
  else mkArgs task [] ("mr-out-" +:+ Itoa (wd_Id task)).

(** The map task that a report completes, if it does. *)
Definition completes (task : WorkerDetail) (c : Coordinator) : list Z :=
  if decide (wd_Type task = Map) then
    match mapsTaskList c !! wd_Id task with
    | Some t => if IsInProcess t then [wd_Id task] else []
    | None => []
    end
  else [].

Definition mr_step (ev : MREvent) (w : MRWorld) : outcome MRWorld :=
  match ev with
  | EGetTask =>
      x <~ run_go (GetTask (coord w)) ;;
      let '(c, reply, check) := (x : Coordinator * Reply * option (Z * WorkerType)) in
      match check with
      | None => Next (mkMRWorld c (mapChecks w) (reduceChecks w) (issued w) (mapsDone w))
      | Some (id, ty) =>
          Next (if decide (ty = Map)
                then mkMRWorld c (id :: mapChecks w) (reduceChecks w) (r_Task reply :: issued w) (mapsDone w)
                else mkMRWorld c (mapChecks w) (id :: reduceChecks w) (r_Task reply :: issued w) (mapsDone w))
      end
  | EFinished task =>
      if bool_decide (Exists (λ t, wd_Id t = wd_Id task ∧ wd_Type t = wd_Type task ∧ NReduce t = NReduce task) (issued w)) then
        c <~ run_go (FinishedTask (finish_args task) (coord w)) ;;
        Next (mkMRWorld c (mapChecks w) (reduceChecks w) (issued w) (mapsDone w ++ completes task (coord w)))
      else Disabled
  | ECheck ty id =>
      if decide (ty = Map) then
        if bool_decide (id ∈ mapChecks w) then
          c <~ run_go (CheckFinished id Map (coord w)) ;;
          Next (mkMRWorld c (filter (λ x, x ≠ id) (mapChecks w)) (reduceChecks w) (issued w) (mapsDone w))
        else Disabled
      else if bool_decide (id ∈ reduceChecks w) then
        c <~ run_go (CheckFinished id Reduce (coord w)) ;;
        Next (mkMRWorld c (mapChecks w) (filter (λ x, x ≠ id) (reduceChecks w)) (issued w) (mapsDone w))
      else Disabled
  | EDone => Next (mkMRWorld (Done (coord w)).1 (mapChecks w) (reduceChecks w) (issued w) (mapsDone w))
  end.

(** ** One kind of tasks *)

(** The tasks of type [ty], the channel they wait in and the pending timeouts. *)
Record pool_ok (ty : WorkerType) (n : Z) (nr : Z) (tasks : gmap Z WorkerDetail) (chan checks : list Z) : Prop := {
  po_task id t : tasks !! id = Some t → wd_Id t = id ∧ wd_Type t = ty ∧ NReduce t = nr ∧ Status t ≠ Error;
  po_dom id : is_Some (tasks !! id) ↔ 0 ≤ id < n;
  po_chan id : id ∈ chan ↔ ∃ t, tasks !! id = Some t ∧ Status t = Idle;
  po_nodup : NoDup chan;
  po_checks_nodup : NoDup checks;
  po_check id : id ∈ checks → ∃ t, tasks !! id = Some t ∧ Status t ≠ Idle;
  po_running id t : tasks !! id = Some t → Status t = InProcess → id ∈ checks
}.

Lemma pool_dom_set ty n nr tasks chan checks :
  pool_ok ty n nr tasks chan checks → 0 ≤ n → go_len chan ≤ n.
Proof.
  intros Hp Hn. assert (Hsub : chan ⊆ seqZ 0 n).
  { intros id Hid. apply elem_of_seqZ. destruct (proj1 (po_chan _ _ _ _ _ _ Hp id) Hid) as (t & Ht & _).
    rewrite Z.add_0_l. apply (po_dom _ _ _ _ _ _ Hp). by eexists. }
  pose proof (submseteq_length _ _ (NoDup_submseteq _ _ (po_nodup _ _ _ _ _ _ Hp) (λ x, Hsub x))) as H.
  rewrite length_seqZ in H. unfold go_len. lia.
Qed.

(** Updating the status of one task. *)
Lemma pool_update ty n nr tasks chan checks chan' checks' id t t' :
  pool_ok ty n nr tasks chan checks → tasks !! id = Some t →
  wd_Id t' = wd_Id t → wd_Type t' = wd_Type t → NReduce t' = NReduce t → Status t' ≠ Error →
  (∀ x, x ≠ id → (x ∈ chan' ↔ x ∈ chan)) → (id ∈ chan' ↔ Status t' = Idle) → NoDup chan' →
  (∀ x, x ≠ id → (x ∈ checks' ↔ x ∈ checks)) → (id ∈ checks' → Status t' ≠ Idle) →
  (Status t' = InProcess → id ∈ checks') → NoDup checks' →
  pool_ok ty n nr (<[id := t']> tasks) chan' checks'.
Proof.
  intros Hp Ht E1 E2 E3 E4 Hc Hc' Hnd Hk Hk' Hr Hknd. constructor.
  - intros x u. rewrite lookup_insert_Some. intros [[<- <-]|[_ Hu]]; [|by apply Hp].
    destruct (po_task _ _ _ _ _ _ Hp id t Ht) as (H1 & H2 & H3 & _). split_and!; congruence.
  - intros x. rewrite lookup_insert_is_Some. rewrite <- (po_dom _ _ _ _ _ _ Hp x). split; [intros [<-|[_ ?]]; [by eexists|done]|].
    intros Hx. destruct (decide (id = x)); auto.
  - intros x. destruct (decide (x = id)) as [->|Hne].
    + rewrite Hc', lookup_insert_eq. split; [by exists t'|]. by intros (u & [= <-] & ?).
    + rewrite Hc by done. rewrite lookup_insert_ne by done. apply Hp.
  - done.
  - done.
  - intros x Hx. destruct (decide (x = id)) as [->|Hne].
    + exists t'. rewrite lookup_insert_eq. auto.
    + rewrite lookup_insert_ne by done. apply (po_check _ _ _ _ _ _ Hp). by apply Hk.
  - intros x u. rewrite lookup_insert_Some. intros [[<- <-]|[Hne Hu]] Hs; [by apply Hr|].
    apply Hk; [done|]. by apply (po_running _ _ _ _ _ _ Hp x u).
Qed.

(** A task is handed out. *)
Lemma pool_take ty n nr tasks chan checks id t t' :
  pool_ok ty n nr tasks (id :: chan) checks → tasks !! id = Some t →
  wd_Id t' = wd_Id t → wd_Type t' = wd_Type t → NReduce t' = NReduce t → Status t' = InProcess →
  pool_ok ty n nr (<[id := t']> tasks) chan (id :: checks).
Proof.
  intros Hp Ht E1 E2 E3 E4. pose proof (po_nodup _ _ _ _ _ _ Hp) as [Hni Hnd]%NoDup_cons.
  assert (Hidle : Status t = Idle).
  { destruct (proj1 (po_chan _ _ _ _ _ _ Hp id)) as (u & Hu & Hs); [by left|]. congruence. }
  assert (Hnc : id ∉ checks).
  { intros Hin. destruct (po_check _ _ _ _ _ _ Hp id Hin) as (u & Hu & Hs). congruence. }
  apply (pool_update ty n nr tasks (id :: chan) checks chan (id :: checks) id t); try done.
  - by rewrite E4.
  - intros x Hx. rewrite elem_of_cons. tauto.
  - rewrite E4. split; [|done]. intros Hin. by destruct Hni.
  - intros x Hx. rewrite elem_of_cons. tauto.
  - by rewrite E4.
  - intros _. by left.
  - apply NoDup_cons. split; [done|apply Hp].
Qed.

(** A running task is completed. *)
Lemma pool_complete ty n nr tasks chan checks id t :
  pool_ok ty n nr tasks chan checks → tasks !! id = Some t → Status t = InProcess →
  pool_ok ty n nr (<[id := ChangeStatusToCompleted t]> tasks) chan checks.
Proof.
  intros Hp Ht Hs. apply (pool_update ty n nr tasks chan checks chan checks id t); try done; try apply Hp.
  split; [|done]. intros (u & Hu & Hi)%(po_chan _ _ _ _ _ _ Hp). congruence.
Qed.

(** A timeout that finds its task completed, or puts it back. *)
Lemma pool_forget ty n nr tasks chan checks id t :
  pool_ok ty n nr tasks chan checks → tasks !! id = Some t → Status t = Completed →
  pool_ok ty n nr tasks chan (filter (λ x, x ≠ id) checks).
Proof.
  intros Hp Ht Hs. rewrite <- (insert_id tasks id t Ht). apply (pool_update ty n nr tasks chan checks chan _ id t); try done; try apply Hp.
  - congruence.
  - rewrite (po_chan _ _ _ _ _ _ Hp id). split; [intros (u & Hu & Hi)|]; congruence.
  - intros x Hx. rewrite list_elem_of_filter. tauto.
  - rewrite list_elem_of_filter. tauto.
  - congruence.
  - apply NoDup_filter. apply Hp.
Qed.

Lemma pool_requeue ty n nr tasks chan checks id t :
  pool_ok ty n nr tasks chan checks → tasks !! id = Some t → id ∈ checks → Status t ≠ Completed →
  pool_ok ty n nr (<[id := ChangeStatusToIdle t]> tasks) (chan ++ [id]) (filter (λ x, x ≠ id) checks).
Proof.
  intros Hp Ht Hin Hs. assert (Hni : id ∉ chan).
  { intros (u & Hu & Hi)%(po_chan _ _ _ _ _ _ Hp). destruct (po_check _ _ _ _ _ _ Hp id Hin) as (v & Hv & Hn). congruence. }
  apply (pool_update ty n nr tasks chan checks _ _ id t); try done.
  - intros x Hx. rewrite elem_of_app, list_elem_of_singleton. tauto.
  - split; [done|]. intros _. apply elem_of_app. right. by left.
  - apply NoDup_app. split_and!; [apply Hp| |apply NoDup_singleton]. intros x Hx ->%list_elem_of_singleton. done.
  - intros x Hx. rewrite list_elem_of_filter. tauto.
  - rewrite list_elem_of_filter. tauto.
  - apply NoDup_filter. apply Hp.
Qed.

(** ** The invariant *)

Lemma all_completed_spec tasks :
  all_completed tasks = true ↔ ∀ id t, tasks !! id = Some t → Status t = Completed.
Proof.
  unfold all_completed. rewrite forallb_forall. split.
  - intros H id t Ht. apply elem_of_map_to_list, list_elem_of_In in Ht. specialize (H _ Ht). by apply bool_decide_eq_true in H.
  - intros H [id t] Hin%list_elem_of_In%elem_of_map_to_list. by apply bool_decide_eq_true, (H id).
Qed.

Record mr_inv (m nr : Z) (w : MRWorld) : Prop := {
  mi_maps : pool_ok Map m nr (mapsTaskList (coord w)) (mapChan (coord w)) (mapChecks w);
  mi_reds : pool_ok Reduce nr nr (reduceTaskList (coord w)) (reduceChan (coord w)) (reduceChecks w);
  mi_sizes : 0 ≤ m ≤ mapCap ∧ 0 ≤ nr ∧ reduceCap (coord w) = nr;
  mi_flag : isAllMapWorkerFinished (coord w) = true → all_completed (mapsTaskList (coord w)) = true;
  mi_done_nodup : NoDup (mapsDone w);
  mi_done id : id ∈ mapsDone w ↔ ∃ t, mapsTaskList (coord w) !! id = Some t ∧ Status t = Completed;
  mi_files r : default [] (interFiles (coord w) !! r) =
    if decide (0 ≤ r < nr) then (λ id, inter_name id r) <$> mapsDone w else [];
  mi_issued t : t ∈ issued w → NReduce t = nr ∧
    ((wd_Type t = Map ∧ 0 ≤ wd_Id t < m) ∨
     (wd_Type t = Reduce ∧ 0 ≤ wd_Id t < nr ∧
      ∃ ids, ids ≡ₚ seqZ 0 m ∧ FileNames t = (λ id, inter_name id (wd_Id t)) <$> ids))
}.

(** When every map task is completed the list of completed ones has them all. *)
Lemma all_maps_done m nr w :
  mr_inv m nr w → all_completed (mapsTaskList (coord w)) = true → mapsDone w ≡ₚ seqZ 0 m.
Proof.
  intros Hi Hall. rewrite all_completed_spec in Hall. apply NoDup_Permutation; [apply Hi|apply NoDup_seqZ|].
  intros id. rewrite (mi_done _ _ _ Hi), elem_of_seqZ, Z.add_0_l, <- (po_dom _ _ _ _ _ _ (mi_maps _ _ _ Hi) id).
  split; [intros (t & Ht & _); by eexists|]. intros [t Ht]. exists t. split; [done|by apply (Hall id)].
Qed.

(** A map task that changes its status without being completed, or being so. *)
Lemma done_update (maps : gmap Z WorkerDetail) (done : list Z) id t t' :
  maps !! id = Some t → Status t ≠ Completed → Status t' ≠ Completed →
  (∀ x, x ∈ done ↔ ∃ u, maps !! x = Some u ∧ Status u = Completed) →
  ∀ x, x ∈ done ↔ ∃ u, <[id := t']> maps !! x = Some u ∧ Status u = Completed.
Proof.
  intros Ht Hs Hs' H x. rewrite H. destruct (decide (x = id)) as [->|Hne].
  - rewrite lookup_insert_eq, Ht. split; intros (u & [= <-] & ?); congruence.
  - by rewrite lookup_insert_ne.
Qed.

Lemma flag_false m nr w id t :
  mr_inv m nr w → mapsTaskList (coord w) !! id = Some t → Status t ≠ Completed →
  isAllMapWorkerFinished (coord w) = false.
Proof.
  intros Hi Ht Hs. destruct (isAllMapWorkerFinished (coord w)) eqn:E; [|done].
  apply (mi_flag _ _ _ Hi) in E. rewrite all_completed_spec in E. by specialize (E id t Ht).
Qed.

Lemma GetTask_ok m nr w : mr_inv m nr w → mr_step EGetTask w ≠ Panic ∧ ∀ w', mr_step EGetTask w = Next w' → mr_inv m nr w'.
Proof.
  intros Hi. pose proof Hi as [Hm Hr Hs Hf Hdn Hd Hfl His]. simpl. unfold GetTask.
  assert (Hsame : mr_inv m nr (mkMRWorld (coord w) (mapChecks w) (reduceChecks w) (issued w) (mapsDone w))) by (by destruct w).
  destruct (allTasksDone (coord w)); [split; [done|by intros w' [= <-]]|].
  destruct (isAllMapWorkerFinished (coord w)) eqn:Eflag; simpl.
  - destruct (reduceChan (coord w)) as [|id chan] eqn:Ec; [split; [done|by intros w' [= <-]]|].
    destruct (proj1 (po_chan _ _ _ _ _ _ Hr id)) as (t & Ht & Hidle); [by left|]. rewrite Ht. simpl.
    destruct (po_task _ _ _ _ _ _ Hr id t Ht) as (Eid & Ety & Enr & _). rewrite Eid, Ety. simpl. split; [done|]. intros w' [= <-].
    constructor; simpl; try done.
    + by apply (pool_take _ _ _ _ _ _ _ t).
    + intros x [->|Hx]%elem_of_cons; [|by apply His]. split; [done|]. right. simpl. rewrite Eid.
      assert (Hr0 : 0 ≤ id < nr) by (apply (po_dom _ _ _ _ _ _ Hr); by eexists). split_and!; try lia; [done|].
      exists (mapsDone w). split; [apply (all_maps_done m nr w Hi); by apply Hf|]. by rewrite Hfl, decide_True.
  - destruct (mapChan (coord w)) as [|id chan] eqn:Ec; [split; [done|by intros w' [= <-]]|].
    destruct (proj1 (po_chan _ _ _ _ _ _ Hm id)) as (t & Ht & Hidle); [by left|]. rewrite Ht. simpl.
    destruct (po_task _ _ _ _ _ _ Hm id t Ht) as (Eid & Ety & Enr & _). rewrite Eid, Ety. simpl. split; [done|]. intros w' [= <-].
    constructor; simpl; try done.
    + by apply (pool_take _ _ _ _ _ _ _ t).
    + apply (done_update _ _ _ t); try done. congruence.
    + intros x [->|Hx]%elem_of_cons; [|by apply His]. split; [done|]. left. simpl. rewrite Eid. split; [done|].
      apply (po_dom _ _ _ _ _ _ Hm). by eexists.
Qed.

Lemma CheckFinished_ok m nr ty id w :
  mr_inv m nr w → mr_step (ECheck ty id) w ≠ Panic ∧ ∀ w', mr_step (ECheck ty id) w = Next w' → mr_inv m nr w'.
Proof.
  intros Hi. pose proof Hi as [Hm Hr Hs Hf Hdn Hd Hfl His]. simpl. destruct (decide (ty = Map)); case_bool_decide as Hin; try done.
  - unfold CheckFinished. simpl. destruct (po_check _ _ _ _ _ _ Hm id Hin) as (t & Ht & Hni). rewrite Ht. bind_simpl.
    unfold IsCompleted. case_bool_decide as Hc.
    + split; [done|]. intros w' [= <-]. constructor; try done. simpl. by apply (pool_forget _ _ _ _ _ _ _ t).
    + destruct (po_task _ _ _ _ _ _ Hm id t Ht) as (Eid & Ety & Enr & _). cbn [wd_Id ChangeStatusToIdle set_status]. rewrite Eid.
      pose proof (pool_requeue _ _ _ _ _ _ id t Hm Ht Hin Hc) as Hp'.
      pose proof (pool_dom_set _ _ _ _ _ _ Hp' (proj1 (proj1 Hs))) as Hlen. unfold chan_send.
      destruct (Z.ltb_spec (go_len (mapChan (coord w))) mapCap) as [Hlt|Hge].
      2: { unfold go_len in *. rewrite length_app in Hlen. simpl in Hlen. lia. }
      simpl. split; [done|]. intros w' [= <-]. constructor; simpl; try done.
      * intros E. by rewrite (flag_false m nr w id t Hi Ht Hc) in E.
      * apply (done_update _ _ _ t); done.
  - unfold CheckFinished. simpl. destruct (po_check _ _ _ _ _ _ Hr id Hin) as (t & Ht & Hni). rewrite Ht. bind_simpl.
    unfold IsCompleted. case_bool_decide as Hc.
    + split; [done|]. intros w' [= <-]. constructor; try done. simpl. by apply (pool_forget _ _ _ _ _ _ _ t).
    + destruct (po_task _ _ _ _ _ _ Hr id t Ht) as (Eid & Ety & Enr & _). cbn [wd_Id ChangeStatusToIdle set_status]. rewrite Eid.
      pose proof (pool_requeue _ _ _ _ _ _ id t Hr Ht Hin Hc) as Hp'.
      pose proof (pool_dom_set _ _ _ _ _ _ Hp' (proj1 (proj2 Hs))) as Hlen. unfold chan_send. rewrite (proj2 (proj2 Hs)).
      destruct (Z.ltb_spec (go_len (reduceChan (coord w))) nr) as [Hlt|Hge].
      2: { unfold go_len in *. rewrite length_app in Hlen. simpl in Hlen. lia. }
      simpl. split; [done|]. intros w' [= <-]. constructor; simpl; try done. by destruct Hs as (? & ? & _).
Qed.

Lemma FinishedTask_ok m nr task w :
  mr_inv m nr w → mr_step (EFinished task) w ≠ Panic ∧ ∀ w', mr_step (EFinished task) w = Next w' → mr_inv m nr w'.
Proof.
  intros Hi. pose proof Hi as [Hm Hr Hs Hf Hdn Hd Hfl His]. simpl. case_bool_decide as Hex; [|done].
  apply Exists_exists in Hex as (u & Hu & E1 & E2 & E3). destruct (His u Hu) as [En Hcase]. rewrite E1, E2 in Hcase.
  rewrite E3 in En. unfold FinishedTask, finish_args, completes. destruct Hcase as [[Ety Hid]|(Ety & Hid & _)].
  - rewrite !(decide_True (P := wd_Type task = Map)) by done. cbn [a_Task IntermidiateFiles].
    destruct (proj2 (po_dom _ _ _ _ _ _ Hm (wd_Id task)) Hid) as [t Ht]. rewrite Ht. bind_simpl.
    destruct (po_task _ _ _ _ _ _ Hm _ t Ht) as (Eid & Ety' & _). unfold IsInProcess. case_bool_decide as Hp.
    2: { split; [done|]. intros w' [= <-]. rewrite app_nil_r. by destruct w. }
    cbn [wd_Type ChangeStatusToCompleted set_status]. rewrite decide_True by done. rewrite En.
    destruct (record_files_names (wd_Id task) (seqZ 0 nr) (interFiles (coord w))) as (inter & Einter & Hinter);
      [lia|apply Forall_forall; intros x ?%elem_of_seqZ; lia|apply NoDup_seqZ|].
    unfold MapWork_filenames. rewrite Einter. simpl. split; [done|]. intros w' [= <-]. constructor; simpl; try done.
    + by apply pool_complete.
    + intros E. rewrite (flag_false m nr w (wd_Id task) t Hi Ht) in E by congruence. done.
    + apply NoDup_app. split_and!; [done| |apply NoDup_singleton]. intros x Hx ->%list_elem_of_singleton.
      apply Hd in Hx as (v & Hv & ?). congruence.
    + intros x. rewrite elem_of_app, list_elem_of_singleton, Hd. destruct (decide (x = wd_Id task)) as [->|Hne].
      * rewrite lookup_insert_eq. split; [intros _; by eexists|auto].
      * rewrite lookup_insert_ne by done. split; [by intros [?|?]|auto].
    + intros r. rewrite Hinter, Hfl, fmap_app. simpl.
      destruct (decide (0 ≤ r < nr)) as [Hlt|Hge].
      * rewrite decide_True by (apply elem_of_seqZ; lia). done.
      * rewrite decide_False by (rewrite elem_of_seqZ; lia). done.
  - assert (Hnm : wd_Type task ≠ Map) by congruence. rewrite !(decide_False (P := wd_Type task = Map)) by done.
    cbn [a_Task].
    destruct (proj2 (po_dom _ _ _ _ _ _ Hr (wd_Id task)) Hid) as [t Ht]. rewrite Ht. bind_simpl.
    destruct (po_task _ _ _ _ _ _ Hr _ t Ht) as (Eid & Ety' & _). unfold IsInProcess. rewrite app_nil_r. case_bool_decide as Hp.
    2: { split; [done|]. intros w' [= <-]. by destruct w. }
    cbn [wd_Type ChangeStatusToCompleted set_status]. rewrite decide_False by congruence. simpl.
    split; [done|]. intros w' [= <-]. constructor; simpl; try done. by apply pool_complete.
Qed.

Lemma mr_step_inv m nr ev w :
  mr_inv m nr w → mr_step ev w ≠ Panic ∧ ∀ w', mr_step ev w = Next w' → mr_inv m nr w'.
Proof.
  intros Hi. destruct ev as [|task|ty id|];
    [by apply GetTask_ok|by apply FinishedTask_ok|by apply CheckFinished_ok|].
  split; [done|]. intros w' [= <-]. destruct Hi as [Hm Hr Hs Hf Hdn Hd Hfl His].
  constructor; simpl; unfold Done; by destruct (all_completed (mapsTaskList (coord w))) eqn:E.
Qed.

(** ** MakeCoordinator *)

Lemma pool_add ty k nr tasks chan t :
  0 ≤ k → pool_ok ty k nr tasks chan [] →
  wd_Id t = k → wd_Type t = ty → NReduce t = nr → Status t = Idle →
  pool_ok ty (k + 1) nr (<[k := t]> tasks) (chan ++ [k]) [].
Proof.
  intros Hk Hp E1 E2 E3 E4. assert (Hnone : tasks !! k = None).
  { destruct (tasks !! k) as [x|] eqn:E; [|done]. assert (0 ≤ k < k); [|lia]. apply (po_dom _ _ _ _ _ _ Hp). by eexists. }
  assert (Hni : k ∉ chan) by (intros (x & Hx & _)%(po_chan _ _ _ _ _ _ Hp); congruence).
  constructor.
  - intros id x. rewrite lookup_insert_Some. intros [[<- <-]|[_ Hx]]; [|by apply Hp]. split_and!; congruence.
  - intros id. rewrite lookup_insert_is_Some, (po_dom _ _ _ _ _ _ Hp). lia.
  - intros id. rewrite elem_of_app, list_elem_of_singleton, (po_chan _ _ _ _ _ _ Hp). destruct (decide (id = k)) as [->|Hne].
    + rewrite lookup_insert_eq. split; [intros _; by exists t|auto].
    + rewrite lookup_insert_ne by done. tauto.
  - apply NoDup_app. split_and!; [apply Hp| |apply NoDup_singleton]. by intros x Hx ->%list_elem_of_singleton.
  - constructor.
  - by intros id ?%elem_of_nil.
  - intros id x. rewrite lookup_insert_Some. intros [[<- <-]|[_ Hx]] Hs; [congruence|]. by apply (po_running _ _ _ _ _ _ Hp id x).
Qed.

Lemma pool_empty ty nr : pool_ok ty 0 nr ∅ [] [].
Proof.
  assert (Hno : ∀ id (t : WorkerDetail), (∅ : gmap Z WorkerDetail) !! id ≠ Some t) by (intros id t; by rewrite lookup_empty).
  constructor.
  - by intros id t ?%Hno.
  - intros id. split; [by intros [t ?%Hno]|lia].
  - intros id. split; [by intros ?%elem_of_nil|by intros (t & ?%Hno & _)].
  - constructor.
  - constructor.
  - by intros id ?%elem_of_nil.
  - by intros id t ?%Hno.
Qed.

Definition add_map_task (files : list string) (nReduce : Z) (i : Z) (c : Coordinator) : option Coordinator :=
  file ← files.[i];
  let t := mkWorkerDetail i Idle Map file [] nReduce in
  chan ← chan_send mapCap (wd_Id t) (mapChan c);
  Some (mkCoordinator (<[i := t]> (mapsTaskList c)) (reduceTaskList c) (reduceChan c) chan (reduceCap c)
          (isAllMapWorkerFinished c) (interFiles c)).

(** The coordinator while its map tasks are created. *)
Definition maps_made (files : list string) (nr k : Z) (c : Coordinator) : Prop :=
  pool_ok Map k nr (mapsTaskList c) (mapChan c) [] ∧ go_len (mapChan c) = k ∧
  (∀ id t, mapsTaskList c !! id = Some t → Status t = Idle) ∧
  (∀ id t, mapsTaskList c !! id = Some t → files.[id] = Some (FileName t)) ∧
  c = mkCoordinator (mapsTaskList c) ∅ [] (mapChan c) nr false ∅.

Lemma add_map_task_ok files nr k c :
  0 ≤ k < go_len files → k < mapCap → maps_made files nr k c →
  ∃ c', add_map_task files nr k c = Some c' ∧ maps_made files nr (k + 1) c'.
Proof.
  intros Hk Hcap (Hp & Hlen & Hidle & Hfile & Ec). unfold add_map_task. go_read files k f Ef.
  unfold chan_send. rewrite Hlen. destruct (Z.ltb_spec k mapCap); [|lia]. bind_simpl. eexists. split; [done|].
  split_and!; simpl.
  - apply pool_add; try done. lia.
  - unfold go_len in *. rewrite length_app. simpl. lia.
  - intros id t. rewrite lookup_insert_Some. intros [[_ <-]|[_ Ht]]; [done|by eapply Hidle].
  - intros id t. rewrite lookup_insert_Some. intros [[<- <-]|[_ Ht]]; [done|by apply Hfile].
  - by rewrite Ec.
Qed.

Lemma maps_made_init files nr : maps_made files nr 0 (mkCoordinator ∅ ∅ [] [] nr false ∅).
Proof. split; [apply pool_empty|]. split; [done|]. split_and!; [..|done]; intros id t; simpl; by rewrite lookup_empty. Qed.

Definition mr_start (c : Coordinator) : MRWorld := mkMRWorld c [] [] [] [].

Lemma MakeCoordinator_ok files nr :
  go_len files ≤ mapCap → 0 ≤ nr →
  ∃ c, MakeCoordinator files nr = Some c ∧ mr_inv (go_len files) nr (mr_start c) ∧
    (∀ id t, mapsTaskList c !! id = Some t → files.[id] = Some (FileName t)) ∧
    ∀ id t, reduceTaskList c !! id = Some t → Status t = Idle.
Proof.
  intros Hcap Hnr. unfold MakeCoordinator. fold (add_map_task files nr). pose proof (go_len_nonneg files) as Hn.
  destruct (for_range_ind (maps_made files nr) (add_map_task files nr) (go_len files) (mkCoordinator ∅ ∅ [] [] nr false ∅))
    as (c & E & Hp & Hlen & Hidle & Hfile & Ec); [done|apply maps_made_init| |].
  { intros k s Hk. apply add_map_task_ok; [done|lia]. }
  rewrite E. bind_simpl.
  destruct (for_range_ind (λ k c', pool_ok Reduce k nr (reduceTaskList c') (reduceChan c') [] ∧ go_len (reduceChan c') = k ∧
      (∀ id t, reduceTaskList c' !! id = Some t → Status t = Idle) ∧
      c' = mkCoordinator (mapsTaskList c) (reduceTaskList c') (reduceChan c') (mapChan c) nr false ∅)
    (λ i c, chan ← chan_send (reduceCap c) (wd_Id (mkWorkerDetail i Idle Reduce "" [] nr)) (reduceChan c);
        Some (mkCoordinator (mapsTaskList c) (<[i := mkWorkerDetail i Idle Reduce "" [] nr]> (reduceTaskList c)) chan (mapChan c) (reduceCap c)
                (isAllMapWorkerFinished c) (interFiles c))) nr c) as (c' & E' & Hp' & Hlen' & Hidle' & Ec'); [done| | |].
  - rewrite Ec at 1 2 3. simpl. split_and!; [apply pool_empty|done|by rewrite Ec|]. rewrite Ec at 1. rewrite Ec at 4 5. done.
  - intros k s Hk (H1 & H2 & H4 & H3). assert (Hcap' : reduceCap s = nr) by (by rewrite H3).
    unfold chan_send. rewrite Hcap'. simpl. rewrite H2. destruct (Z.ltb_spec k nr); [|lia]. simpl. eexists. split; [done|]. simpl. split_and!.
    + apply pool_add; try done. lia.
    + unfold go_len in *. rewrite length_app. simpl. lia.
    + intros id t. rewrite lookup_insert_Some. intros [[_ <-]|[_ Ht]]; [done|by eapply H4].
    + by rewrite H3.
  - exists c'. split; [exact E'|]. split; [|split; [rewrite Ec'; exact Hfile|exact Hidle']]. rewrite Ec'. constructor; simpl; try done.
    + constructor.
    + intros id. split; [by intros ?%elem_of_nil|]. intros (t & Ht & Hs). apply Hidle in Ht. congruence.
    + intros r. rewrite lookup_empty. by case_decide.
    + by intros t ?%elem_of_nil.
Qed.

(** ** Properties *)

Inductive mr_reachable (files : list string) (nr : Z) : MRWorld → Prop :=
  | mr_init c : MakeCoordinator files nr = Some c → mr_reachable files nr (mr_start c)
  | mr_next ev w w' : mr_reachable files nr w → mr_step ev w = Next w' → mr_reachable files nr w'.

Lemma mr_reachable_inv files nr w :
  go_len files ≤ mapCap → 0 ≤ nr → mr_reachable files nr w → mr_inv (go_len files) nr w.
Proof.
  intros Hcap Hnr. induction 1 as [c Hc|ev w w' _ IH Hstep].
  - destruct (MakeCoordinator_ok files nr Hcap Hnr) as (c' & E & Hi & _). congruence.
  - by apply (mr_step_inv (go_len files) nr ev w IH).
Qed.

(** (A reduce task gets every map output, once).  Whatever workers crash, are
    late or report twice, a reduce task is handed out only when all map tasks are
    completed, and then with exactly one intermediate file of every map task: the
    one that holds its partition. *)
Theorem reduce_gets_all_map_outputs files nr w c reply id :
  go_len files ≤ mapCap → 0 ≤ nr → mr_reachable files nr w →
  GetTask (coord w) = Some (c, reply, Some (id, Reduce)) →
  all_completed (mapsTaskList (coord w)) = true ∧ 0 ≤ id < nr ∧ wd_Id (r_Task reply) = id ∧
  ∃ ids, ids ≡ₚ seqZ 0 (go_len files) ∧ FileNames (r_Task reply) = (λ k, inter_name k id) <$> ids.
Proof.
  intros Hcap Hnr Hreach Hget. pose proof (mr_reachable_inv files nr w Hcap Hnr Hreach) as Hi.
  assert (Hi' := proj2 (GetTask_ok _ _ w Hi)). simpl in Hi'. rewrite Hget in Hi'. simpl in Hi'. specialize (Hi' _ eq_refl).
  destruct (mi_issued _ _ _ Hi' (r_Task reply)) as [_ [[Ety Hid]|(Ety & Hid & Hids)]]; [by left| |].
  - exfalso. unfold GetTask in Hget. destruct (allTasksDone (coord w)); [done|].
    destruct (isAllMapWorkerFinished (coord w)); simpl in Hget.
    + destruct (reduceChan (coord w)) as [|x chan]; [done|].
      destruct (reduceTaskList (coord w) !! x) as [t|] eqn:Et; simpl in Hget; [|done]. simplify_eq/=. congruence.
    + destruct (mapChan (coord w)) as [|x chan]; [done|].
      destruct (mapsTaskList (coord w) !! x) as [t|] eqn:Et; simpl in Hget; [|done]. simplify_eq/=. congruence.
  - assert (Hflag : isAllMapWorkerFinished (coord w) = true ∧ wd_Id (r_Task reply) = id).
    { unfold GetTask in Hget. destruct (allTasksDone (coord w)); [done|].
      destruct (isAllMapWorkerFinished (coord w)); simpl in Hget.
      - destruct (reduceChan (coord w)) as [|x chan]; [done|].
        destruct (reduceTaskList (coord w) !! x) as [t|] eqn:Et; simpl in Hget; [|done]. simplify_eq/=. done.
      - destruct (mapChan (coord w)) as [|x chan]; [done|].
        destruct (mapsTaskList (coord w) !! x) as [t|] eqn:Et; simpl in Hget; [|done]. simplify_eq/=.
        destruct (po_task _ _ _ _ _ _ (mi_maps _ _ _ Hi) x t Et) as (_ & ? & _). congruence. }
    destruct Hflag as [Hflag Eid]. rewrite Eid in *. split_and!; try done; try lia. by apply (mi_flag _ _ _ Hi).
Qed.

(** C32 (The coordinator neither blocks nor loses a task).  In every reachable
    state no handler or goroutine dereferences nil, indexes out of range or blocks
    on a full channel; a task that is not completed waits in its channel or has a
    pending timeout that will put it back, and never both. *)
Theorem coordinator_loses_no_task files nr w id :
  go_len files ≤ mapCap → 0 ≤ nr → mr_reachable files nr w →
  (∀ ev, mr_step ev w ≠ Panic) ∧
  (∀ t, mapsTaskList (coord w) !! id = Some t → Status t ≠ Completed →
     (id ∈ mapChan (coord w) ∧ (id ∉ mapChecks w) ∧ Status t = Idle) ∨
     ((id ∉ mapChan (coord w)) ∧ id ∈ mapChecks w ∧ Status t = InProcess)) ∧
  (∀ t, reduceTaskList (coord w) !! id = Some t → Status t ≠ Completed →
     (id ∈ reduceChan (coord w) ∧ (id ∉ reduceChecks w) ∧ Status t = Idle) ∨
     ((id ∉ reduceChan (coord w)) ∧ id ∈ reduceChecks w ∧ Status t = InProcess)).
Proof.
  intros Hcap Hnr Hreach. pose proof (mr_reachable_inv files nr w Hcap Hnr Hreach) as Hi.
  split; [intros ev; apply (mr_step_inv _ _ ev w Hi)|].
  assert (Hpool : ∀ ty n tasks chan checks, pool_ok ty n nr tasks chan checks →
    ∀ t, tasks !! id = Some t → Status t ≠ Completed →
    (id ∈ chan ∧ (id ∉ checks) ∧ Status t = Idle) ∨ ((id ∉ chan) ∧ id ∈ checks ∧ Status t = InProcess)).
  { intros ty n tasks chan checks Hp t Ht Hs. destruct (po_task _ _ _ _ _ _ Hp id t Ht) as (_ & _ & _ & Hne).
    destruct (Status t) eqn:Es; try done; [left|right]; split_and!; try done.
    - apply (po_chan _ _ _ _ _ _ Hp). eauto.
    - intros (u & Hu & Hn)%(po_check _ _ _ _ _ _ Hp). congruence.
    - intros (u & Hu & Hn)%(po_chan _ _ _ _ _ _ Hp). congruence.
    - by apply (po_running _ _ _ _ _ _ Hp id t). }
  split; eapply Hpool; apply Hi.
Qed.

(** (Done and the end of the job).  Done answers true exactly when all tasks
    are completed; GetTask then tells every worker to stop; and no later step takes
    a completed task back, so Done stays true. *)
Theorem Done_spec files nr w :
  go_len files ≤ mapCap → 0 ≤ nr → mr_reachable files nr w →
  ((Done (coord w)).2 = true ↔ allTasksDone (coord w) = true) ∧
  (allTasksDone (coord w) = true →
     GetTask (coord w) = Some (coord w, mkReply noTask true, None) ∧
     ∀ ev w', mr_step ev w = Next w' → allTasksDone (coord w') = true).
Proof.
  intros Hcap Hnr Hreach. pose proof (mr_reachable_inv files nr w Hcap Hnr Hreach) as Hi. split.
  - unfold Done, allTasksDone. by destruct (all_completed (mapsTaskList (coord w))).
  - intros Hall. split; [unfold GetTask; by rewrite Hall|].
    pose proof Hall as [Hm Hr]%andb_true_iff. pose proof Hm as Hm'. pose proof Hr as Hr'. rewrite all_completed_spec in Hm', Hr'.
    intros ev w'. destruct ev as [|task|ty id|]; simpl.
    + unfold GetTask. rewrite Hall. simpl. by intros [= <-].
    + case_bool_decide as Hex; [|done].
      unfold FinishedTask. destruct (decide (wd_Type (a_Task (finish_args task)) = Map)).
      * destruct (mapsTaskList (coord w) !! wd_Id (a_Task (finish_args task))) as [t|] eqn:Et; simpl; [|done].
        unfold IsInProcess. rewrite (Hm' _ _ Et). simpl. by intros [= <-].
      * destruct (reduceTaskList (coord w) !! wd_Id (a_Task (finish_args task))) as [t|] eqn:Et; simpl; [|done].
        unfold IsInProcess. rewrite (Hr' _ _ Et). simpl. by intros [= <-].
    + destruct (decide (ty = Map)); case_bool_decide as Hin; try done; unfold CheckFinished; simpl.
      * destruct (mapsTaskList (coord w) !! id) as [t|] eqn:Et; simpl; [|done].
        unfold IsCompleted. rewrite (Hm' _ _ Et). simpl. by intros [= <-].
      * destruct (reduceTaskList (coord w) !! id) as [t|] eqn:Et; simpl; [|done].
        unfold IsCompleted. rewrite (Hr' _ _ Et). simpl. by intros [= <-].
    + intros [= <-]. unfold Done. rewrite Hm. simpl. unfold allTasksDone. simpl. by rewrite Hm, Hr.
Qed.

Lemma for_range_from_split {S} (f : Z → S → option S) a b i s :
  for_range_from i (a + b) f s = (s' ← for_range_from i a f s; for_range_from (i + Z.of_nat a) b f s').
Proof.
  revert i s. induction a as [|a IH]; intros i s; cbn [Nat.add for_range_from].
  - simpl. by rewrite Z.add_0_r.
  - destruct (f i s) as [s'|]; simpl; [|done]. rewrite IH. by replace (i + 1 + Z.of_nat a) with (i + Z.of_nat (Datatypes.S a)) by lia.
Qed.

(** (More than ten thousand files).  With more input files than the capacity of
    mapChan, MakeCoordinator blocks on the channel before it serves any worker,
    so the job never starts. *)
Theorem too_many_files_block files nr :
  mapCap < go_len files → MakeCoordinator files nr = None.
Proof.
  intros Hcap. unfold MakeCoordinator. fold (add_map_task files nr).
  destruct (for_range_ind (maps_made files nr) (add_map_task files nr) mapCap (mkCoordinator ∅ ∅ [] [] nr false ∅))
    as (c & E & _ & Hlen & _); [unfold mapCap; lia|apply maps_made_init| |].
  { intros k s Hk. apply add_map_task_ok; lia. }
  unfold for_range in *.
  replace (Z.to_nat (go_len files)) with (Z.to_nat mapCap + Datatypes.S (Z.to_nat (go_len files - mapCap - 1)))%nat
    by (unfold mapCap in *; lia).
  rewrite for_range_from_split, E. bind_simpl. cbn [for_range_from].
  assert (add_map_task files nr (0 + Z.of_nat (Z.to_nat mapCap)) c = None) as ->; [|done]. unfold add_map_task.
  destruct (go_index_is_Some files (0 + Z.of_nat (Z.to_nat mapCap))) as [f ->]; [unfold mapCap in *; lia|]. bind_simpl.
  unfold chan_send. by rewrite Hlen, Z.ltb_irrefl.
Qed.

(** (File names).  The name under which map task [id] stores its partition [i]
    is read back as [i] by FinishedTask, for all task numbers. *)
Theorem intermediate_name_roundtrip id i :
  0 ≤ id → 0 ≤ i → ∃ part, (Split (inter_name id i)).[2] = Some part ∧ Atoi part = i.
Proof. intros Hid Hi. rewrite Split_inter_name by done. exists (Itoa i). split; [done|by apply Atoi_Itoa]. Qed.

(** ** Witnesses: two files, two reduce tasks, a slow worker *)

Definition demo_files : list string := ["a"; "b"].

Definition demo_start : MRWorld := mr_start (default (mkCoordinator ∅ ∅ [] [] 2 false ∅) (MakeCoordinator demo_files 2)).

Definition task_of (ty : WorkerType) (id : Z) : WorkerDetail := mkWorkerDetail id InProcess ty "" [] 2.

(** Map task 0 times out, is given to another worker, and both report it. *)
Definition demo_events : list MREvent :=
  [EGetTask; ECheck Map 0; EGetTask; EGetTask; EFinished (task_of Map 0); EFinished (task_of Map 1);
   EFinished (task_of Map 0); EDone].

Fixpoint mr_run (evs : list MREvent) (w : MRWorld) : outcome MRWorld :=
  match evs with [] => Next w | ev :: evs => w <~ mr_step ev w ;; mr_run evs w end.

Definition demo_world : MRWorld := match mr_run demo_events demo_start with Next w => w | _ => demo_start end.

Lemma mr_run_reachable files nr evs w w' :
  mr_reachable files nr w → mr_run evs w = Next w' → mr_reachable files nr w'.
Proof.
  revert w. induction evs as [|ev evs IH]; intros w Hr; simpl; [by intros [= <-]|].
  destruct (mr_step ev w) as [w1| |] eqn:E; simpl; try done. intros H. apply (IH w1); [|done]. by apply (mr_next _ _ ev w).
Qed.

Lemma demo_world_reachable : mr_reachable demo_files 2 demo_world.
Proof.
  apply (mr_run_reachable demo_files 2 demo_events demo_start); [apply mr_init; vm_compute; reflexivity|vm_compute; reflexivity].
Qed.

Lemma reduce_gets_all_map_outputs_witness :
  ∃ c reply, GetTask (coord demo_world) = Some (c, reply, Some (0, Reduce)) ∧
    ∃ ids, ids ≡ₚ seqZ 0 (go_len demo_files) ∧ FileNames (r_Task reply) = (λ k, inter_name k 0) <$> ids.
Proof.
  destruct (GetTask (coord demo_world)) as [[[c reply] check]|] eqn:E; [|by vm_compute in E].
  assert (check = Some (0, Reduce)) as -> by (vm_compute in E; by injection E).
  exists c, reply. split; [done|].
  exact (proj2 (proj2 (proj2 (reduce_gets_all_map_outputs demo_files 2 demo_world c reply 0
    ltac:(vm_compute; congruence) ltac:(lia) demo_world_reachable E)))).
Defined.

Lemma coordinator_loses_no_task_witness : mr_step EGetTask demo_world ≠ Panic.
Proof.
  exact (proj1 (coordinator_loses_no_task demo_files 2 demo_world 0 ltac:(vm_compute; congruence) ltac:(lia) demo_world_reachable) EGetTask).
Defined.

Lemma Done_spec_witness : (Done (coord demo_world)).2 = true ↔ allTasksDone (coord demo_world) = true.
Proof. exact (proj1 (Done_spec demo_files 2 demo_world ltac:(vm_compute; congruence) ltac:(lia) demo_world_reachable)). Defined.

Lemma too_many_files_block_witness : MakeCoordinator (replicate (Z.to_nat 10001) "f") 3 = None.
Proof. apply too_many_files_block. unfold go_len. rewrite length_replicate. unfold mapCap. lia. Defined.

Lemma intermediate_name_roundtrip_witness :
  inter_name 17 205 = "mr-17-205" ∧ ∃ part, (Split (inter_name 17 205)).[2] = Some part ∧ Atoi part = 205.
Proof. split; [vm_compute; reflexivity|]. apply (intermediate_name_roundtrip 17 205); lia. Defined.
