(* ===== verification/MRWorker.v ===== *)
(** * mr: the MapReduce worker

    worker.go of src/src/mr and the sequential reference of main/mrsequential.go.
    A file system maps names to the key/value pairs that reading the file gives back:
    encoding/json restores a string except that every byte that is not part of valid
    UTF-8 comes back as the replacement character.  sort.Slice and sort.Sort are not
    stable, so sorting is any function that orders by key.  The map and reduce
    functions of the application are arguments. *)

From Stdlib Require Import Ascii.
From S2P Require Import Prelude Utf8 Cluster Coordinator.
Local Open Scope Z_scope.
Local Open Scope go_scope.

Record KeyValue := mkKeyValue { Key : string; Value : string }.

#[export] Instance KeyValue_eq_dec : EqDecision KeyValue.
Proof. solve_decision. Defined.

Definition ihash (key : string) : Z := Z.land (fnv32a key) 2147483647.

Definition key_le (a b : KeyValue) : Prop := String.le (Key a) (Key b).

(** [sort.Slice(kvs, func(i, j int) bool { return kvs[i].Key < kvs[j].Key })] *)
Class SortByKey := {
  sort_kvs : list KeyValue → list KeyValue;
  sort_kvs_perm l : sort_kvs l ≡ₚ l;
  sort_kvs_sorted l : StronglySorted key_le (sort_kvs l)
}.

(** ** encoding/json on strings *)

(** U+FFFD *)
Definition replacement (s : string) : string :=
  String (ascii_of_nat 239) (String (ascii_of_nat 191) (String (ascii_of_nat 189) s)).

(** What decoding gives for the encoding of [s]. *)
Fixpoint json_string (s : string) : string :=
  match s with
  | EmptyString => EmptyString
  | String c0 s1 =>
      if in_range 0 127 c0 then String c0 (json_string s1)
      else
        match s1 with
        | EmptyString => replacement EmptyString
        | String c1 s2 =>
            if in_range 194 223 c0 && second_byte c0 c1 then String c0 (String c1 (json_string s2))
            else
              match s2 with
              | EmptyString => replacement (json_string s1)
              | String c2 s3 =>
                  if in_range 224 239 c0 && second_byte c0 c1 && in_range 128 191 c2
                  then String c0 (String c1 (String c2 (json_string s3)))
                  else
                    match s3 with
                    | EmptyString => replacement (json_string s1)
                    | String c3 s4 =>
                        if in_range 240 244 c0 && second_byte c0 c1 && in_range 128 191 c2 && in_range 128 191 c3
                        then String c0 (String c1 (String c2 (String c3 (json_string s4))))
                        else replacement (json_string s1)
                    end
              end
        end
  end.

Definition json_kv (kv : KeyValue) : KeyValue := mkKeyValue (json_string (Key kv)) (json_string (Value kv)).

Section worker.
Context `{!SortByKey}.
Variable mapf : string → string → list KeyValue.
Variable reducef : string → list string → string.

(** ** MapWork *)

(** One bucket per reduce task, each pair into the bucket of its key; [None] is a
    division by zero. *)
Definition partition_kvs (kva : list KeyValue) (nReduce : Z) : option (gmap Z (list KeyValue)) :=
  let encoders : gmap Z (list KeyValue) := list_to_map ((λ i, (i, [])) <$> seqZ 0 nReduce) in
  foldl (λ acc kv,
      encoders ← acc;
      if nReduce =? 0 then None
      else
        let i := ihash (Key kv) mod nReduce in
        bucket ← encoders !! i;
        Some (<[i := bucket ++ [json_kv kv]]> encoders)) (Some encoders) kva.

(** The files the task leaves and the names it reports; [content] is what its
    input file holds. *)
Definition MapWork (task : WorkerDetail) (content : string) (fs : gmap string (list KeyValue)) : option (gmap string (list KeyValue) * list string) :=
  let kva := mapf (FileName task) content in
  encoders ← partition_kvs kva (NReduce task);
  let names := MapWork_filenames (wd_Id task) (NReduce task) in
  Some (foldl (λ fs i, <[inter_name (wd_Id task) i := default [] (encoders !! i)]> fs) fs (seqZ 0 (NReduce task)), names).

(** ** ReduceWork *)

(** How many pairs of [l] follow with key [k]. *)
Fixpoint run_length (k : string) (l : list KeyValue) : nat :=
  match l with
  | [] => 0
  | kv :: l => if decide (Key kv = k) then S (run_length k l) else 0
  end.

(** The loop over runs of equal keys, here and in mrsequential.go: [l] is
    [intermediates[i:]], and a line is a key with its output. *)
Fixpoint reduce_loop (fuel : nat) (l : list KeyValue) : list (string * string) :=
  match fuel, l with
  | S fuel, kv :: rest =>
      let j := run_length (Key kv) rest in
      let values := Value kv :: (Value <$> take j rest) in
      (Key kv, reducef (Key kv) values) :: reduce_loop fuel (drop j rest)
  | _, _ => []
  end.

(** Every round takes a pair at least. *)
Definition reduce_all (l : list KeyValue) : list (string * string) := reduce_loop (length l) l.

(** [None]: a file that does not exist. *)
Fixpoint read_files (fs : gmap string (list KeyValue)) (names : list string) : option (list KeyValue) :=
  match names with
  | [] => Some []
  | name :: names =>
      kvs ← fs !! name;
      rest ← read_files fs names;
      Some (kvs ++ rest)
  end.

(** The output file and its lines. *)
Definition ReduceWork (task : WorkerDetail) (fs : gmap string (list KeyValue)) : option (string * list (string * string)) :=
  intermediates ← read_files fs (FileNames task);
  Some ("mr-out-" +:+ Itoa (wd_Id task), reduce_all (sort_kvs intermediates)).

(** ** main/mrsequential.go *)

(** [inputs] are the names of the input files and their contents. *)
Definition mrsequential (inputs : list (string * string)) : list (string * string) :=
  let intermediate := foldl (λ acc '(filename, content), acc ++ mapf filename content) [] inputs in
  reduce_all (sort_kvs intermediate).

(** ** The reduce loop *)

Definition values_of (k : string) (l : list KeyValue) : list string := Value <$> filter (λ kv, Key kv = k) l.

Lemma run_length_take k l : Forall (λ kv, Key kv = k) (take (run_length k l) l).
Proof. induction l as [|kv l IH]; simpl; [done|]. case_decide; simpl; by constructor. Qed.

(** Behind a run of a sorted list the key does not occur again. *)
Lemma run_length_drop k l :
  StronglySorted key_le l → Forall (λ kv, String.le k (Key kv)) l →
  Forall (λ kv, Key kv ≠ k) (drop (run_length k l) l).
Proof.
  induction 1 as [|kv l Hs IH Hall]; intros Hle; simpl; [done|]. apply Forall_cons in Hle as [Hk Hle]. case_decide as E; simpl; [by apply IH|].
  constructor; [done|]. eapply Forall_impl; [exact Hall|]. intros x Hx Ek. apply E. unfold key_le in Hx. rewrite Ek in Hx.
  by apply (anti_symm String.le).
Qed.

Lemma filter_all k l : Forall (λ kv, Key kv = k) l → filter (λ kv, Key kv = k) l = l.
Proof. apply filter_Forall_id. Qed.

Lemma filter_none k l : Forall (λ kv, Key kv ≠ k) l → filter (λ kv, Key kv = k) l = [].
Proof. induction 1 as [|kv l Hkv _ IH]; [done|]. by rewrite filter_cons_False. Qed.

Lemma values_of_run k l rest :
  Forall (λ kv, Key kv = k) l → Forall (λ kv, Key kv ≠ k) rest → values_of k (l ++ rest) = Value <$> l.
Proof. intros H1 H2. unfold values_of. by rewrite filter_app, filter_all, filter_none, app_nil_r. Qed.

Lemma values_of_skip k x l rest :
  Forall (λ kv, Key kv = k) l → x ≠ k → values_of x (l ++ rest) = values_of x rest.
Proof.
  intros Hl Hne. unfold values_of. rewrite filter_app, (filter_none x l); [done|].
  eapply Forall_impl; [exact Hl|]. simpl. congruence.
Qed.

(** On a sorted list the loop prints one line per key, with all its values. *)
Lemma reduce_loop_spec fuel l :
  (length l ≤ fuel)%nat → StronglySorted key_le l →
  NoDup (reduce_loop fuel l).*1 ∧
  ∀ k out, (k, out) ∈ reduce_loop fuel l ↔ k ∈ Key <$> l ∧ out = reducef k (values_of k l).
Proof.
  revert l. induction fuel as [|fuel IH]; intros l Hlen Hs.
  - destruct l; [|simpl in Hlen; lia]. split; [constructor|]. intros k out. simpl. split; [by intros ?%elem_of_nil|by intros [?%elem_of_nil _]].
  - destruct l as [|kv rest]; [split; [constructor|]; intros k out; simpl; split; [by intros ?%elem_of_nil|by intros [?%elem_of_nil _]]|].
    cbn [reduce_loop]. set (k0 := Key kv). set (j := run_length k0 rest).
    apply StronglySorted_cons in Hs as [Hall Hs].
    assert (Hrun : Forall (λ x, Key x = k0) (kv :: take j rest)) by (constructor; [done|apply run_length_take]).
    assert (Hrest : Forall (λ x, Key x ≠ k0) (drop j rest)) by (by apply run_length_drop).
    assert (Esplit : kv :: rest = (kv :: take j rest) ++ drop j rest) by (by rewrite <- app_comm_cons, take_drop).
    destruct (IH (drop j rest)) as [IHnd IHin].
    { rewrite length_drop. simpl in Hlen. lia. }
    { by apply (StronglySorted_app_1_r _ (take j rest)); rewrite take_drop. }
    assert (Hkeys : ∀ x, x ∈ Key <$> drop j rest → x ≠ k0).
    { intros x (y & -> & Hy)%list_elem_of_fmap. rewrite Forall_forall in Hrest. by apply Hrest. }
    assert (Hval : values_of k0 (kv :: rest) = Value kv :: (Value <$> take j rest)) by (by rewrite Esplit, values_of_run).
    assert (Hval' : ∀ x, x ≠ k0 → values_of x (kv :: rest) = values_of x (drop j rest)).
    { intros x Hx. by rewrite Esplit, (values_of_skip k0). }
    assert (Hkey : ∀ x, x ∈ Key <$> kv :: rest ↔ x = k0 ∨ x ∈ Key <$> drop j rest).
    { intros x. rewrite Esplit, fmap_app, elem_of_app. split; [|intros [->|?]; [left; by left|by right]].
      intros [(y & -> & Hy)%list_elem_of_fmap|?]; [left|by right]. rewrite Forall_forall in Hrun. by apply Hrun. }
    split.
    + cbn [fmap list_fmap fst]. constructor; [|exact IHnd]. intros ([x out] & E & Hin)%list_elem_of_fmap. simpl in E. subst x.
      apply IHin in Hin as [Hin _]. by apply (Hkeys k0).
    + intros x out. rewrite elem_of_cons, IHin, Hkey. split.
      * intros [[= -> ->]|[Hx ->]]; [split; [by left|by rewrite Hval]|]. split; [by right|]. by rewrite Hval' by (by apply Hkeys).
      * intros [[->|Hx] ->]; [left; by rewrite Hval|right]. split; [done|]. by rewrite Hval' by (by apply Hkeys).
Qed.

Lemma reduce_sorted_spec l :
  NoDup (reduce_all (sort_kvs l)).*1 ∧
  ∀ k out, (k, out) ∈ reduce_all (sort_kvs l) ↔ k ∈ Key <$> l ∧ out = reducef k (values_of k (sort_kvs l)).
Proof.
  destruct (reduce_loop_spec (length (sort_kvs l)) (sort_kvs l)) as [H1 H2]; [done|apply sort_kvs_sorted|].
  split; [exact H1|]. intros k out. unfold reduce_all. rewrite H2. by rewrite (sort_kvs_perm l) at 1.
Qed.

(** ** The map phase *)

(** The pairs of [kva] that go to reduce task [i]. *)
Definition bucket (n i : Z) (kva : list KeyValue) : list KeyValue := filter (λ kv, ihash (Key kv) mod n = i) kva.

Lemma bucket_app n i l1 l2 : bucket n i (l1 ++ l2) = bucket n i l1 ++ bucket n i l2.
Proof. apply filter_app. Qed.

Lemma partition_kvs_spec kva n :
  0 < n → ∃ enc, partition_kvs kva n = Some enc ∧ ∀ i, 0 ≤ i < n → enc !! i = Some (json_kv <$> bucket n i kva).
Proof.
  intros Hn. unfold partition_kvs. set (step := λ acc kv, _).
  assert (Hloop : ∀ kva acc enc, acc = Some enc → ∀ pre, (∀ i, 0 ≤ i < n → enc !! i = Some (json_kv <$> bucket n i pre)) →
    ∃ enc', foldl step acc kva = Some enc' ∧ ∀ i, 0 ≤ i < n → enc' !! i = Some (json_kv <$> bucket n i (pre ++ kva))).
  { clear kva. induction kva as [|kv kva IH]; intros acc enc -> pre Hpre; cbn [foldl].
    - exists enc. split; [done|]. by rewrite app_nil_r.
    - pose proof (Z.mod_pos_bound (ihash (Key kv)) n Hn) as Hb.
      assert (E : step (Some enc) kv = Some (<[ihash (Key kv) mod n 
        := (json_kv <$> bucket n (ihash (Key kv) mod n) pre) ++ [json_kv kv]]> enc)).
      { unfold step. simpl. destruct (Z.eqb_spec n 0); [lia|]. by rewrite Hpre by done. }
      destruct (IH _ _ E (pre ++ [kv])) as (enc' & E' & H').
      + intros i Hi. rewrite bucket_app, fmap_app. destruct (decide (ihash (Key kv) mod n = i)) as [<-|Hne].
        * rewrite lookup_insert_eq. do 2 f_equal. unfold bucket. by rewrite filter_cons_True.
        * rewrite lookup_insert_ne, Hpre by done. f_equal.
          assert (bucket n i [kv] = []) as -> by (unfold bucket; by rewrite filter_cons_False). by rewrite app_nil_r.
      + exists enc'. split; [done|]. by rewrite <- app_assoc in H'. }
  destruct (Hloop kva _ (list_to_map ((λ i, (i, [])) <$> seqZ 0 n)) eq_refl []) as (enc & E & H').
  - intros i Hi. apply elem_of_list_to_map_1.
    + rewrite <- list_fmap_compose. apply NoDup_fmap_2; [by intros ??|apply NoDup_seqZ].
    + apply list_elem_of_fmap. exists i. split; [done|]. apply elem_of_seqZ. lia.
  - by exists enc.
Qed.

Lemma inter_name_inj id i id' i' :
  0 ≤ id → 0 ≤ i → 0 ≤ id' → 0 ≤ i' → inter_name id i = inter_name id' i' → id = id' ∧ i = i'.
Proof.
  intros H1 H2 H3 H4 E. apply (f_equal Split) in E. rewrite !Split_inter_name in E by done. injection E as E1 E2.
  apply (f_equal Atoi) in E1, E2. by rewrite !Atoi_Itoa in E1, E2.
Qed.

Lemma write_files_lookup id (f : Z → list KeyValue) l fs :
  0 ≤ id → Forall (λ i, 0 ≤ i) l →
  (∀ i, i ∈ l → foldl (λ fs i, <[inter_name id i := f i]> fs) fs l !! inter_name id i = Some (f i)) ∧
  (∀ id' i', 0 ≤ id' → 0 ≤ i' → id' ≠ id →
     foldl (λ fs i, <[inter_name id i := f i]> fs) fs l !! inter_name id' i' = (fs : gmap string (list KeyValue)) !! inter_name id' i').
Proof.
  intros Hid. revert fs. induction l as [|i l IH] using rev_ind; intros fs Hl; [split; [by intros i ?%elem_of_nil|done]|].
  apply Forall_app in Hl as [Hl Hi]. rewrite Forall_singleton in Hi. destruct (IH fs Hl) as [H1 H2]. rewrite !foldl_app. simpl. split.
  - intros x [Hx|Hx%list_elem_of_singleton]%elem_of_app; [|subst; apply lookup_insert_eq].
    rewrite Forall_forall in Hl. destruct (decide (x = i)) as [->|Hne]; [apply lookup_insert_eq|].
    rewrite lookup_insert_ne; [by apply H1|]. intros E. apply inter_name_inj in E as [_ ?]; auto.
  - intros id' i' Hid' Hi' Hne. rewrite lookup_insert_ne; [by apply H2|]. intros E. apply inter_name_inj in E as [? _]; auto.
Qed.

(** Map task [id] of a job. *)
Definition map_task (inputs : list (string * string)) (n id : Z) : WorkerDetail :=
  mkWorkerDetail id InProcess Map (default "" (fst <$> inputs.[id])) [] n.

(** The executions of map tasks, in any order and any number of times. *)
Fixpoint run_maps (inputs : list (string * string)) (n : Z) (ids : list Z) (fs : gmap string (list KeyValue)) : option (gmap string (list KeyValue)) :=
  match ids with
  | [] => Some fs
  | id :: ids =>
      '(_, content) ← inputs.[id];
      '(fs, _) ← MapWork (map_task inputs n id) content fs;
      run_maps inputs n ids fs
  end.

(** What task [id] leaves for reduce task [i]. *)
Definition map_output (inputs : list (string * string)) (n i id : Z) : list KeyValue :=
  match inputs.[id] with Some (name, content) => json_kv <$> bucket n i (mapf name content) | None => [] end.

Lemma MapWork_spec inputs n id name content fs :
  0 < n → inputs.[id] = Some (name, content) →
  ∃ fs', MapWork (map_task inputs n id) content fs = Some (fs', MapWork_filenames id n) ∧
    (∀ i, 0 ≤ i < n → fs' !! inter_name id i = Some (map_output inputs n i id)) ∧
    (∀ id' i', 0 ≤ id' → 0 ≤ i' → id' ≠ id → fs' !! inter_name id' i' = fs !! inter_name id' i').
Proof.
  intros Hn Hin. pose proof (go_index_Some_range _ _ _ Hin) as Hr. unfold MapWork.
  assert (FileName (map_task inputs n id) = name) as -> by (unfold map_task; by rewrite Hin). cbn [NReduce wd_Id map_task].
  destruct (partition_kvs_spec (mapf name content) n Hn) as (enc & -> & Henc). bind_simpl. eexists. split; [done|].
  destruct (write_files_lookup id (λ i, default [] (enc !! i)) (seqZ 0 n) fs) as [H1 H2];
    [lia|apply Forall_forall; intros x ?%elem_of_seqZ; lia|].
  split; [|exact H2]. intros i Hi. rewrite H1 by (apply elem_of_seqZ; lia). f_equal. rewrite Henc by done. simpl.
  unfold map_output. by rewrite Hin.
Qed.

Lemma run_maps_spec inputs n ids fs :
  0 < n → Forall (λ id, 0 ≤ id < go_len inputs) ids →
  ∃ fs', run_maps inputs n ids fs = Some fs' ∧
    (∀ id i, id ∈ ids → 0 ≤ i < n → fs' !! inter_name id i = Some (map_output inputs n i id)) ∧
    (∀ id i, 0 ≤ id → 0 ≤ i < n → fs !! inter_name id i = Some (map_output inputs n i id) →
       fs' !! inter_name id i = Some (map_output inputs n i id)).
Proof.
  intros Hn Hids. revert fs. induction Hids as [|id ids Hid _ IH]; intros fs; cbn [run_maps].
  - exists fs. split; [done|]. split; [by intros id i ?%elem_of_nil|auto].
  - destruct (go_index_is_Some inputs id Hid) as [[name content] Hin]. rewrite Hin. bind_simpl.
    destruct (MapWork_spec inputs n id name content fs Hn Hin) as (fs1 & -> & H1 & H2). bind_simpl.
    destruct (IH fs1) as (fs2 & -> & H3 & H4). exists fs2. split; [done|]. split.
    + intros x i [->|Hx]%elem_of_cons Hi; [|by apply H3]. apply H4; [lia|done|by apply H1].
    + intros x i Hx Hi Hfs. destruct (decide (x = id)) as [->|Hne]; [apply H4; [lia|done|by apply H1]|].
      apply H4; [done|done|]. rewrite H2 by (done || lia). done.
Qed.

(** ** The reduce phase, and the job *)

(** Reduce task [i], with the files of the map tasks in the order [ids]. *)
Definition reduce_task (n i : Z) (ids : list Z) : WorkerDetail :=
  mkWorkerDetail i InProcess Reduce "" ((λ id, inter_name id i) <$> ids) n.

Lemma read_files_spec (fs : gmap string (list KeyValue)) (f : Z → list KeyValue) i ids :
  (∀ id, id ∈ ids → fs !! inter_name id i = Some (f id)) →
  read_files fs ((λ id, inter_name id i) <$> ids) = Some (mjoin (f <$> ids)).
Proof.
  induction ids as [|id ids IH]; intros Hf; [done|]. rewrite !fmap_cons. cbn [read_files].
  rewrite (Hf id) by (by left). bind_simpl. rewrite IH; [done|]. intros x Hx. apply Hf. by right.
Qed.

(** All the pairs of the job. *)
Definition all_pairs (inputs : list (string * string)) : list KeyValue :=
  foldl (λ acc '(filename, content), acc ++ mapf filename content) [] inputs.

Lemma all_pairs_app inputs name content :
  all_pairs (inputs ++ [(name, content)]) = all_pairs inputs ++ mapf name content.
Proof. unfold all_pairs. by rewrite foldl_app. Qed.

Lemma map_output_prefix inputs x n i id :
  0 ≤ id < go_len inputs → map_output (inputs ++ [x]) n i id = map_output inputs n i id.
Proof.
  intros Hid. unfold map_output. rewrite !go_index_lookup by lia. rewrite lookup_app_l; [done|]. unfold go_len in Hid. lia.
Qed.

(** The map function emits valid UTF-8 for the inputs. *)
Definition emits_utf8 (inputs : list (string * string)) : Prop :=
  Forall (λ '(name, content), Forall (λ kv, json_kv kv = kv) (mapf name content)) inputs.

Lemma json_bucket n i l : Forall (λ kv, json_kv kv = kv) l → json_kv <$> bucket n i l = bucket n i l.
Proof.
  unfold bucket. induction 1 as [|kv l Hkv _ IH]; [done|]. rewrite filter_cons. case_decide; [|done].
  by rewrite fmap_cons, Hkv, IH.
Qed.

(** The outputs of the map tasks for one reduce task are its share of all pairs. *)
Lemma map_outputs_bucket inputs n i :
  emits_utf8 inputs →
  mjoin (map_output inputs n i <$> seqZ 0 (go_len inputs)) = bucket n i (all_pairs inputs).
Proof.
  induction inputs as [|[name content] inputs IH] using rev_ind; [done|].
  intros [Hu Hu1]%Forall_app. rewrite Forall_singleton in Hu1.
  assert (El : go_len (inputs ++ [(name, content)]) = go_len inputs + 1) by (unfold go_len; rewrite length_app; simpl; lia).
  rewrite El, seqZ_app, fmap_app, join_app by (unfold go_len; lia). rewrite all_pairs_app, bucket_app, <- IH by done. f_equal.
  - f_equal. apply list_fmap_ext. intros k id Hk%list_elem_of_lookup_2. apply elem_of_seqZ in Hk. apply map_output_prefix. lia.
  - rewrite Z.add_0_l. change (seqZ (go_len inputs) 1) with [go_len inputs]. simpl. rewrite app_nil_r. unfold map_output, go_len.
    rewrite go_index_nat, lookup_app_r, Nat.sub_diag by lia. by apply json_bucket.
Qed.

Lemma values_of_perm k l l' : l ≡ₚ l' → values_of k l ≡ₚ values_of k l'.
Proof. intros E. unfold values_of. by rewrite E. Qed.

Lemma values_of_bucket n k l : values_of k (bucket n (ihash k mod n) l) = values_of k l.
Proof.
  unfold values_of, bucket. f_equal. rewrite list_filter_filter. apply list_filter_iff. intros kv. split; [by intros []|].
  intros <-. done.
Qed.

Lemma key_in_bucket n i k l : k ∈ Key <$> bucket n i l ↔ ihash k mod n = i ∧ k ∈ Key <$> l.
Proof.
  unfold bucket. split.
  - intros (kv & -> & [Hi Hl]%list_elem_of_filter)%list_elem_of_fmap. split; [done|]. by apply list_elem_of_fmap_2.
  - intros [Hi (kv & -> & Hl)%list_elem_of_fmap]. apply list_elem_of_fmap. exists kv. split; [done|]. by apply list_elem_of_filter.
Qed.

Hypothesis reducef_perm : ∀ k l l', l ≡ₚ l' → reducef k l = reducef k l'.

(** The lines that reduce task [i] prints. *)
Lemma reduce_bucket_spec n i l0 l :
  l0 ≡ₚ bucket n i l →
  NoDup (reduce_all (sort_kvs l0)).*1 ∧
  ∀ k out, (k, out) ∈ reduce_all (sort_kvs l0) ↔ ihash k mod n = i ∧ k ∈ Key <$> l ∧ out = reducef k (values_of k l).
Proof.
  intros Hp. destruct (reduce_sorted_spec l0) as [H1 H2]. split; [done|]. intros k out.
  assert (Hkey : k ∈ Key <$> l0 ↔ ihash k mod n = i ∧ k ∈ Key <$> l) by (by rewrite Hp, key_in_bucket).
  rewrite H2, Hkey.
  assert (Hv : ihash k mod n = i → reducef k (values_of k (sort_kvs l0)) = reducef k (values_of k l)).
  { intros <-. apply reducef_perm. rewrite <- (values_of_bucket n k l). apply values_of_perm.
    etransitivity; [apply sort_kvs_perm|exact Hp]. }
  split; [intros [[Hi Hk] ->]|intros (Hi & Hk & ->)]; split_and!; try done; [by apply Hv|symmetry; by apply Hv].
Qed.

Lemma NoDup_join_keys (outs : list (list (string * string))) :
  Forall (λ out, NoDup out.*1) outs →
  (∀ i j out out' k, outs !! i = Some out → outs !! j = Some out' → k ∈ out.*1 → k ∈ out'.*1 → i = j) →
  NoDup (mjoin outs).*1.
Proof.
  induction 1 as [|out outs Hout _ IH]; intros Hdis; [constructor|]. change (mjoin (out :: outs)) with (out ++ mjoin outs).
  rewrite fmap_app. apply NoDup_app. split_and!; [done| |].
  - intros k Hk (x & -> & (out' & Hx & (j & Hj)%list_elem_of_lookup)%list_elem_of_join)%list_elem_of_fmap.
    assert (O = S j) by (apply (Hdis O (S j) out out' x.1); try done; by apply list_elem_of_fmap_2). done.
  - apply IH. intros i j o o' k Hi Hj H1 H2. assert (S i = S j) by (by apply (Hdis (S i) (S j) o o' k)). congruence.
Qed.

(** What reduce task [i] prints when it reads the outputs of all map tasks, in
    some order. *)
Definition reduce_output (inputs : list (string * string)) (n i : Z) (out : list (string * string)) : Prop :=
  ∃ ids, ids ≡ₚ seqZ 0 (go_len inputs) ∧ out = reduce_all (sort_kvs (mjoin (map_output inputs n i <$> ids))).

Lemma reduce_output_spec inputs n i out :
  emits_utf8 inputs → reduce_output inputs n i out →
  NoDup out.*1 ∧ ∀ k o, (k, o) ∈ out ↔
    ihash k mod n = i ∧ k ∈ Key <$> all_pairs inputs ∧ o = reducef k (values_of k (all_pairs inputs)).
Proof.
  intros Hu (ids & Hids & ->). apply reduce_bucket_spec. rewrite <- map_outputs_bucket by done. by rewrite Hids.
Qed.

Lemma mrsequential_spec inputs :
  NoDup (mrsequential inputs).*1 ∧ ∀ k o, (k, o) ∈ mrsequential inputs ↔
    k ∈ Key <$> all_pairs inputs ∧ o = reducef k (values_of k (all_pairs inputs)).
Proof.
  unfold mrsequential. fold (all_pairs inputs). destruct (reduce_sorted_spec (all_pairs inputs)) as [H1 H2].
  split; [exact H1|]. intros k o. rewrite H2.
  rewrite (reducef_perm k (values_of k (sort_kvs (all_pairs inputs))) (values_of k (all_pairs inputs))); [done|].
  apply values_of_perm, sort_kvs_perm.
Qed.

(** The outputs of all reduce tasks are the lines of mrsequential. *)
Lemma reduce_outputs_sequential inputs n outs :
  0 < n → emits_utf8 inputs → Forall2 (reduce_output inputs n) (seqZ 0 n) outs →
  mjoin outs ≡ₚ mrsequential inputs.
Proof.
  intros Hn Hu Houts. destruct (mrsequential_spec inputs) as [Hs1 Hs2].
  assert (Hout : ∀ j out, outs !! j = Some out → NoDup out.*1 ∧ ∀ k o, (k, o) ∈ out ↔
    ihash k mod n = Z.of_nat j ∧ k ∈ Key <$> all_pairs inputs ∧ o = reducef k (values_of k (all_pairs inputs))).
  { intros j out Hj. destruct (Forall2_lookup_r _ _ _ _ _ Houts Hj) as (i & Hi & Hro).
    apply lookup_seqZ in Hi as [-> _]. rewrite Z.add_0_l in Hro. by apply reduce_output_spec. }
  apply NoDup_Permutation.
  - apply (NoDup_fmap_1 fst), NoDup_join_keys; [apply Forall_lookup; intros j out Hj; by apply (Hout j)|].
    intros i j o o' k Hi Hj Hk Hk'.
    apply list_elem_of_fmap in Hk as ([k1 o1] & E1 & Hk), Hk' as ([k2 o2] & E2 & Hk'). simpl in *. subst k1. subst k2.
    apply (Hout i o Hi) in Hk as [Ei _]. apply (Hout j o' Hj) in Hk' as [Ej _]. lia.
  - by apply (NoDup_fmap_1 fst).
  - intros [k o]. rewrite Hs2, list_elem_of_join. split.
    + intros (l & Hl & Hin). destruct (proj1 (list_elem_of_lookup _ _) Hin) as [j Hj]. exact (proj2 (proj1 (proj2 (Hout j l Hj) k o) Hl)).
    + intros Hko. pose proof (Z.mod_pos_bound (ihash k) n Hn) as Hb.
      destruct (lookup_lt_is_Some_2 outs (Z.to_nat (ihash k mod n))) as [out Ho].
      { rewrite <- (Forall2_length _ _ _ Houts), length_seqZ. lia. }
      exists out. split; [|by apply list_elem_of_lookup_2 in Ho]. apply (Hout _ _ Ho). split; [lia|done].
Qed.

(** (MapReduce computes what the sequential program computes).  For a reduce
    function that does not depend on the order of its values and a map function that
    emits valid UTF-8: after every map task
    has been executed at least once, in any order and with any repetitions, the
    reduce tasks, each given the files of all map tasks in any order, print
    together exactly the lines of mrsequential, each once. *)
Theorem mapreduce_equals_sequential inputs n schedule orders fs0 :
  0 < n → emits_utf8 inputs → Forall (λ id, 0 ≤ id < go_len inputs) schedule → (∀ id, 0 ≤ id < go_len inputs → id ∈ schedule) →
  (∀ i, orders i ≡ₚ seqZ 0 (go_len inputs)) →
  ∃ fs outs, run_maps inputs n schedule fs0 = Some fs ∧
    mapM (λ i, snd <$> ReduceWork (reduce_task n i (orders i)) fs) (seqZ 0 n) = Some outs ∧
    mjoin outs ≡ₚ mrsequential inputs.
Proof.
  intros Hn Hu Hsch Hall Hord. destruct (run_maps_spec inputs n schedule fs0 Hn Hsch) as (fs & E & Hfs & _).
  set (out := λ i, reduce_all (sort_kvs (mjoin (map_output inputs n i <$> orders i)))).
  exists fs, (out <$> seqZ 0 n). split; [done|]. split.
  - apply mapM_Some_2. apply Forall2_fmap_r, Forall_Forall2_diag, Forall_forall. intros i Hi%elem_of_seqZ.
    unfold ReduceWork, reduce_task. cbn [FileNames wd_Id]. rewrite (read_files_spec fs (map_output inputs n i)); [done|].
    intros id Hid. rewrite (Hord i) in Hid. apply elem_of_seqZ in Hid. apply Hfs; [apply Hall|]; lia.
  - apply (reduce_outputs_sequential inputs n); [done|done|].
    apply Forall2_fmap_r, Forall_Forall2_diag, Forall_forall. intros i _. by exists (orders i).
Qed.
End worker.

(** ** A word count *)

#[local] Instance key_le_dec : RelDecision key_le.
Proof. intros a b. unfold key_le. apply _. Defined.

#[local] Instance key_le_trans : Transitive key_le.
Proof. intros a b c. unfold key_le. apply transitivity. Qed.

#[local] Instance key_le_total : Total key_le.
Proof. intros a b. unfold key_le. apply (total String.le). Qed.

Definition merge_sort_by_key : SortByKey := {|
  sort_kvs := merge_sort key_le;
  sort_kvs_perm := merge_sort_Permutation key_le;
  sort_kvs_sorted := StronglySorted_merge_sort key_le
|}.

(** Every character of the input is a word. *)
Fixpoint wc_map (name content : string) : list KeyValue :=
  match content with
  | EmptyString => []
  | String c rest => mkKeyValue (String c EmptyString) "1" :: wc_map name rest
  end.

Definition wc_reduce (key : string) (values : list string) : string := Itoa (go_len values).

Lemma wc_reduce_perm k l l' : l ≡ₚ l' → wc_reduce k l = wc_reduce k l'.
Proof. intros E. unfold wc_reduce, go_len. by rewrite E. Qed.

Lemma mapreduce_equals_sequential_witness :
  ∃ fs outs, run_maps wc_map [("x", "abca"); ("y", "cb")] 2 [1; 0; 1] ∅ = Some fs ∧
    mapM (λ i, snd <$> @ReduceWork merge_sort_by_key wc_reduce (reduce_task 2 i [0; 1]) fs) (seqZ 0 2) = Some outs ∧
    mjoin outs ≡ₚ [("a", "2"); ("b", "2"); ("c", "2")].
Proof.
  assert (E : @mrsequential merge_sort_by_key wc_map wc_reduce [("x", "abca"); ("y", "cb")] = [("a", "2"); ("b", "2"); ("c", "2")])
    by (vm_compute; reflexivity).
  rewrite <- E.
  apply (@mapreduce_equals_sequential merge_sort_by_key wc_map wc_reduce wc_reduce_perm [("x", "abca"); ("y", "cb")] 2 [1; 0; 1] (λ _, [0; 1]) ∅).
  - lia.
  - repeat constructor; vm_compute; reflexivity.
  - repeat constructor; vm_compute; congruence.
  - intros id Hid. unfold go_len in Hid. simpl in Hid. assert (id = 0 ∨ id = 1) as [E0|E0] by lia; subst id; rewrite !elem_of_cons; tauto.
  - done.
Defined.
