(* ===== verification/MRJob.v ===== *)
(** * mr: a whole job, from the workers' loop to the output files

    [Worker] of worker.go runs here against the coordinator of Coordinator.v and a
    shared file system: any number of workers, which may crash anywhere, interleave
    file by file and pair by pair.  os.Create truncates a file that exists; every
    Encode is one write at the descriptor's own offset, so two executions of the
    same map task write the same pairs at the same places, and a write behind the
    end of a file leaves a hole at which decoding stops.  A worker whose call to
    the coordinator fails returns; that is a crash here. *)

From S2P Require Import Prelude Cluster Coordinator MRWorker.
Local Open Scope Z_scope.
Local Open Scope go_scope.

(** ** Files *)

(** The pairs of a file by position; [None] is a hole. *)
Definition file : Type := list (option KeyValue).

Definition write_at (off : nat) (kv : KeyValue) (f : file) : file :=
  if (off <? length f)%nat then <[off := Some kv]> f
  else f ++ replicate (off - length f) None ++ [Some kv].

(** The loop [for { if decoder.Decode(&kv) != nil { break } ... }] *)
Fixpoint decode_all (f : file) : list KeyValue :=
  match f with
  | Some kv :: f => kv :: decode_all f
  | _ => []
  end.

(** ** What a step of the coordinator can change *)

Lemma finish_args_task task : a_Task (finish_args task) = task.
Proof. unfold finish_args. by case_decide. Qed.

(** Only a report completes a task, and only that task. *)
Lemma mr_step_effect ev w w' :
  mr_step ev w = Next w' →
  (∀ id, id ∈ mapsDone w' → id ∈ mapsDone w ∨ ∃ t, ev = EFinished t ∧ wd_Type t = Map ∧ wd_Id t = id) ∧
  (∀ id, id ∈ mapsDone w → id ∈ mapsDone w') ∧
  (∀ id t', reduceTaskList (coord w') !! id = Some t' → Status t' = Completed →
     (∃ t, reduceTaskList (coord w) !! id = Some t ∧ Status t = Completed) ∨
     ∃ t, ev = EFinished t ∧ wd_Type t ≠ Map ∧ wd_Id t = id) ∧
  (∀ id t', mapsTaskList (coord w') !! id = Some t' → ∃ t, mapsTaskList (coord w) !! id = Some t ∧ FileName t = FileName t') ∧
  (∀ t, t ∈ issued w → t ∈ issued w').
Proof.
  assert (Hm : ∀ (m : gmap Z WorkerDetail) x t0 t1, m !! x = Some t0 → FileName t1 = FileName t0 →
    ∀ id t', <[x := t1]> m !! id = Some t' → ∃ t, m !! id = Some t ∧ FileName t = FileName t').
  { intros m x t0 t1 Ht E id t'. rewrite lookup_insert_Some. intros [[<- <-]|[_ H]]; eauto. }
  assert (Hr : ∀ (m : gmap Z WorkerDetail) x t1 (P : Z → Prop), (Status t1 = Completed → P x) →
    ∀ id t', <[x := t1]> m !! id = Some t' → Status t' = Completed →
      (∃ t, m !! id = Some t ∧ Status t = Completed) ∨ P id).
  { intros m x t1 P HP id t'. rewrite lookup_insert_Some. intros [[<- <-]|[_ H]]; eauto. }
  destruct ev as [|task|ty id|]; simpl.
  - unfold GetTask. destruct (allTasksDone (coord w)); [intros [= <-]; simpl; split_and!; eauto|].
    destruct (isAllMapWorkerFinished (coord w)); simpl.
    + destruct (reduceChan (coord w)) as [|id chan]; [intros [= <-]; simpl; split_and!; eauto|].
      destruct (reduceTaskList (coord w) !! id) as [t|] eqn:Et; simpl; [|done].
      destruct (decide (wd_Type t = Map)); intros [= <-]; simpl; split_and!; eauto; try (intros; by right); by apply Hr.
    + destruct (mapChan (coord w)) as [|id chan]; [intros [= <-]; simpl; split_and!; eauto|].
      destruct (mapsTaskList (coord w) !! id) as [t|] eqn:Et; simpl; [|done].
      destruct (decide (wd_Type t = Map)); intros [= <-]; simpl; split_and!; eauto; try (intros; by right); by eapply Hm.
  - case_bool_decide; [|done]. unfold FinishedTask, completes. rewrite finish_args_task.
    destruct (decide (wd_Type task = Map)) as [Ety|Ety].
    + destruct (mapsTaskList (coord w) !! wd_Id task) as [t|] eqn:Et; simpl; [|done].
      destruct (IsInProcess t); simpl; [|intros [= <-]; simpl; rewrite app_nil_r; split_and!; eauto].
      destruct (if decide (wd_Type t = Map) then _ else _) as [inter|]; simpl; [|done]. intros [= <-]. simpl.
      split_and!; eauto; [|intros; apply elem_of_app; by left|by eapply Hm].
      intros id [Hid| ->%list_elem_of_singleton]%elem_of_app; eauto 10.
    + destruct (reduceTaskList (coord w) !! wd_Id task) as [t|] eqn:Et; simpl; [|done]. rewrite app_nil_r.
      destruct (IsInProcess t); simpl; [|intros [= <-]; simpl; split_and!; eauto].
      destruct (if decide (wd_Type t = Map) then _ else _) as [inter|]; simpl; [|done]. intros [= <-]. simpl.
      split_and!; eauto. apply Hr. eauto.
  - destruct (decide (ty = Map)); (case_bool_decide; [|done]); unfold CheckFinished; simpl.
    + destruct (mapsTaskList (coord w) !! id) as [t|] eqn:Et; simpl; [|done].
      destruct (IsCompleted t); simpl; [intros [= <-]; simpl; split_and!; eauto|].
      destruct (chan_send _ _ _); simpl; [|done]. intros [= <-]. simpl. split_and!; eauto. by eapply Hm.
    + destruct (reduceTaskList (coord w) !! id) as [t|] eqn:Et; simpl; [|done].
      destruct (IsCompleted t); simpl; [intros [= <-]; simpl; split_and!; eauto|].
      destruct (chan_send _ _ _); simpl; [|done]. intros [= <-]. simpl. split_and!; eauto. by apply Hr.
  - intros [= <-]. simpl. unfold Done. destruct (all_completed (mapsTaskList (coord w))); simpl; split_and!; eauto.
Qed.


Section job.
Context `{!SortByKey}.
Variable mapf : string → string → list KeyValue.
Variable reducef : string → list string → string.
(** The input files. *)
Variable input_fs : string → option string.

(** ** The loop of a worker *)

Inductive WorkerPc :=
  | WAsk                                                     (* about to call GetTask *)
  | WCreate (task : WorkerDetail) (next : Z)                 (* MapWork, creating file [next] *)
  | WWrite (task : WorkerDetail) (done rest : list KeyValue) (* MapWork, encoding [rest] *)
  | WRead (task : WorkerDetail) (todo : list string) (intermediates : list KeyValue)
  | WReport (task : WorkerDetail)                            (* about to call FinishedTask *)
  | WExit.

(** What a worker does with the reply of GetTask; a task of no type makes it
    sleep. *)
Definition after_ask (reply : Reply) : WorkerPc :=
  if IsFinished reply then WExit
  else if decide (wd_Type (r_Task reply) = Map) then WCreate (r_Task reply) 0
  else if decide (wd_Type (r_Task reply) = Reduce) then WRead (r_Task reply) (FileNames (r_Task reply)) []
  else WAsk.

Record JobWorld := mkJobWorld {
  mr : MRWorld;
  workers : gmap nat WorkerPc;
  files : gmap string file;
  outs : gmap string (list (string * string))
}.

Definition set_pc (n : nat) (pc : WorkerPc) (w : JobWorld) : JobWorld :=
  mkJobWorld (mr w) (<[n := pc]> (workers w)) (files w) (outs w).

Definition out_name (id : Z) : string := "mr-out-" +:+ Itoa id.

(** One step of a worker. *)
Definition worker_step (n : nat) (pc : WorkerPc) (w : JobWorld) : outcome JobWorld :=
  match pc with
  | WAsk =>
      x <~ run_go (GetTask (coord (mr w))) ;;
      mr' <~ mr_step EGetTask (mr w) ;;
      Next (mkJobWorld mr' (<[n := after_ask x.1.2]> (workers w)) (files w) (outs w))
  | WCreate task next =>
      match input_fs (FileName task) with
      | None => Next (set_pc n WExit w)
      | Some content =>
          if next <? NReduce task
          then Next (mkJobWorld (mr w) (<[n := WCreate task (next + 1)]> (workers w))
                       (<[inter_name (wd_Id task) next := []]> (files w)) (outs w))
          else Next (set_pc n (WWrite task [] (mapf (FileName task) content)) w)
      end
  | WWrite task done (kv :: rest) =>
      if NReduce task =? 0 then Panic
      else
        let i := ihash (Key kv) mod NReduce task in
        let name := inter_name (wd_Id task) i in
        let off := length (bucket (NReduce task) i done) in
        Next (mkJobWorld (mr w) (<[n := WWrite task (done ++ [kv]) rest]> (workers w))
                (<[name := write_at off (json_kv kv) (default [] (files w !! name))]> (files w)) (outs w))
  | WWrite task done [] => Next (set_pc n (WReport task) w)
  | WRead task (name :: todo) intermediates =>
      match files w !! name with
      | None => Next (set_pc n WExit w)
      | Some f => Next (set_pc n (WRead task todo (intermediates ++ decode_all f)) w)
      end
  | WRead task [] intermediates =>
      Next (mkJobWorld (mr w) (<[n := WReport task]> (workers w)) (files w)
              (<[out_name (wd_Id task) := reduce_all reducef (sort_kvs intermediates)]> (outs w)))
  | WReport task =>
      mr' <~ mr_step (EFinished task) (mr w) ;;
      Next (mkJobWorld mr' (<[n := WAsk]> (workers w)) (files w) (outs w))
  | WExit => Disabled
  end.

Inductive JobEvent :=
  | JSpawn (n : nat)                   (* a new worker process *)
  | JStep (n : nat)
  | JCrash (n : nat)
  | JCheck (ty : WorkerType) (id : Z)  (* a timeout of the coordinator *)
  | JDone.                             (* the main program calls Done *)

Definition job_step (ev : JobEvent) (w : JobWorld) : outcome JobWorld :=
  match ev with
  | JSpawn n =>
      match workers w !! n with
      | None => Next (set_pc n WAsk w)
      | Some _ => Disabled
      end
  | JStep n => pc <~ enabled (workers w !! n) ;; worker_step n pc w
  | JCrash n => Next (mkJobWorld (mr w) (delete n (workers w)) (files w) (outs w))
  | JCheck ty id =>
      mr' <~ mr_step (ECheck ty id) (mr w) ;;
      Next (mkJobWorld mr' (workers w) (files w) (outs w))
  | JDone =>
      mr' <~ mr_step EDone (mr w) ;;
      Next (mkJobWorld mr' (workers w) (files w) (outs w))
  end.

Fixpoint job_run (evs : list JobEvent) (w : JobWorld) : outcome JobWorld :=
  match evs with [] => Next w | ev :: evs => w <~ job_step ev w ;; job_run evs w end.

Definition job_start (c : Coordinator) : JobWorld := mkJobWorld (mr_start c) ∅ ∅ ∅.

(** ** The job *)

(** The input files with their contents, as mrsequential reads them. *)
Variable inputs : list (string * string).
Variable nr : Z.

(** An execution of map task [id] that has created a file and is not over. *)
Definition begun (id : Z) (pc : WorkerPc) : Prop :=
  match pc with
  | WCreate t k => wd_Id t = id ∧ 0 < k
  | WWrite t _ _ => wd_Id t = id
  | WReport t => wd_Type t = Map ∧ wd_Id t = id
  | _ => False
  end.

#[export] Instance begun_dec id pc : Decision (begun id pc).
Proof. destruct pc; simpl; apply _. Defined.

(** No execution of a map task starts to create its files when the task is
    completed or while another execution has begun and is not over.  Nothing in
    worker.go enforces this: os.Create truncates the files of an earlier execution,
    and [late_map_loses_output] below is a run that loses output by it. *)
Definition exclusive (w : JobWorld) (ev : JobEvent) : Prop :=
  match ev with
  | JStep n =>
      match workers w !! n with
      | Some (WCreate t 0) =>
          (wd_Id t ∉ mapsDone (mr w)) ∧ map_Forall (λ n' pc, n' ≠ n → ¬ begun (wd_Id t) pc) (workers w)
      | _ => True
      end
  | _ => True
  end.

#[export] Instance exclusive_dec w ev : Decision (exclusive w ev).
Proof.
  destruct ev as [n|n|n|ty id|]; simpl; try apply _.
  destruct (workers w !! n) as [[|t [| |]|t d rest|t todo acc|t|]|]; apply _.
Defined.

(** The worlds of the runs that keep to [exclusive]: what is proved of jobs here
    and in MRApps.v is conditional on it. *)
Inductive job_reachable : JobWorld → Prop :=
  | job_init c : MakeCoordinator inputs.*1 nr = Some c → job_reachable (job_start c)
  | job_next ev w w' : job_reachable w → exclusive w ev → job_step ev w = Next w' → job_reachable w'.

(** The pairs that map task [id] emits. *)
Definition pairs (id : Z) : list KeyValue :=
  match inputs.[id] with Some (name, content) => mapf name content | None => [] end.

Definition map_files (fs : gmap string file) (id : Z) (done : list KeyValue) : Prop :=
  ∀ i, 0 ≤ i < nr → fs !! inter_name id i = Some (Some <$> (json_kv <$> bucket nr i done)).

Definition map_task_ok (t : WorkerDetail) : Prop :=
  wd_Type t = Map ∧ 0 ≤ wd_Id t < go_len inputs ∧ NReduce t = nr ∧
  fst <$> inputs.[wd_Id t] = Some (FileName t).

Definition out_ok (w : JobWorld) (id : Z) : Prop :=
  0 ≤ id ∧ ∃ out, outs w !! out_name id = Some out ∧ reduce_output mapf reducef inputs nr id out.

Definition pc_ok (w : JobWorld) (pc : WorkerPc) : Prop :=
  match pc with
  | WAsk | WExit => True
  | WCreate t k => map_task_ok t ∧ 0 ≤ k ≤ nr ∧ ∀ i, 0 ≤ i < k → files w !! inter_name (wd_Id t) i = Some []
  | WWrite t done rest => map_task_ok t ∧ done ++ rest = pairs (wd_Id t) ∧ map_files (files w) (wd_Id t) done
  | WRead t todo acc =>
      wd_Type t = Reduce ∧ 0 ≤ wd_Id t < nr ∧ (∀ id, 0 ≤ id < go_len inputs → id ∈ mapsDone (mr w)) ∧
      ∃ ids1 ids2, ids1 ++ ids2 ≡ₚ seqZ 0 (go_len inputs) ∧ todo = (λ k, inter_name k (wd_Id t)) <$> ids2 ∧
        acc = mjoin (map_output mapf inputs nr (wd_Id t) <$> ids1)
  | WReport t =>
      (wd_Type t = Map ∧ 0 ≤ wd_Id t ∧ map_files (files w) (wd_Id t) (pairs (wd_Id t))) ∨
      (wd_Type t = Reduce ∧ out_ok w (wd_Id t))
  end.

Record job_inv (w : JobWorld) : Prop := {
  ji_mr : mr_inv (go_len inputs) nr (mr w);
  ji_maps id t : mapsTaskList (coord (mr w)) !! id = Some t → fst <$> inputs.[id] = Some (FileName t);
  ji_pc n pc : workers w !! n = Some pc → pc_ok w pc;
  ji_unique n n' pc pc' id : workers w !! n = Some pc → workers w !! n' = Some pc' → begun id pc → begun id pc' → n = n';
  ji_done id : id ∈ mapsDone (mr w) →
    map_files (files w) id (pairs id) ∧ ∀ n pc, workers w !! n = Some pc → ¬ begun id pc;
  ji_outs id t : reduceTaskList (coord (mr w)) !! id = Some t → Status t = Completed → out_ok w id
}.

Lemma map_output_pairs i id : map_output mapf inputs nr i id = json_kv <$> bucket nr i (pairs id).
Proof. unfold map_output, pairs. by destruct (inputs.[id]) as [[name content]|]. Qed.

(** What a worker knows survives a step of somebody else. *)
Lemma pc_ok_frame w w' pc :
  (∀ id, id ∈ mapsDone (mr w) → id ∈ mapsDone (mr w')) →
  (∀ id i, 0 ≤ id → 0 ≤ i < nr → begun id pc → files w' !! inter_name id i = files w !! inter_name id i) →
  (∀ id, out_ok w id → out_ok w' id) →
  pc_ok w pc → pc_ok w' pc.
Proof.
  intros Hd Hf Ho. destruct pc as [|t k|t d rest|t todo acc|t|]; simpl in *; [done| | | | |done].
  - intros (Ht & Hk & Hfs). split_and!; try done; try lia. intros i Hi. destruct Ht as (_ & Hid & _).
    rewrite Hf; [by apply Hfs|lia|lia|]. split; [done|lia].
  - intros (Ht & Hp & Hfs). split_and!; try done. intros i Hi. destruct Ht as (_ & Hid & _).
    rewrite Hf; [by apply Hfs|lia|done|done].
  - intros (Ht & Hid & Hall & Hids). split_and!; try done; [lia|lia|]. intros id Hi. apply Hd, Hall, Hi.
  - intros [(Ht & Hid & Hfs)|(Ht & Hout)]; [left|right; auto]. split_and!; try done. intros i Hi. rewrite Hf by done. by apply Hfs.
Qed.

Lemma out_name_inj id id' : 0 ≤ id → 0 ≤ id' → out_name id = out_name id' → id = id'.
Proof.
  intros H1 H2 E. apply (inj (String.append "mr-out-")) in E. apply (f_equal Atoi) in E. by rewrite !Atoi_Itoa in E.
Qed.

Lemma out_ok_same w w' : outs w' = outs w → ∀ id, out_ok w id → out_ok w' id.
Proof. intros E id. unfold out_ok. by rewrite E. Qed.

(** Worker [n] moves on to a point that is not inside a map execution, or
    vanishes. *)
Lemma job_inv_leave w n (ws : gmap nat WorkerPc) os :
  job_inv w → (∀ n' pc, ws !! n' = Some pc → workers w !! n' = Some pc ∨ (n' = n ∧ pc_ok (mkJobWorld (mr w) ws (files w) os) pc ∧ ∀ id, ¬ begun id pc)) →
  (∀ id, out_ok w id → out_ok (mkJobWorld (mr w) ws (files w) os) id) →
  job_inv (mkJobWorld (mr w) ws (files w) os).
Proof.
  intros [Hmr Hmaps Hpc Huniq Hdone Houts] Hws Hos. constructor; simpl; try done.
  - intros n' pc [Hn'|(-> & Hok & _)]%Hws; [|done]. apply (pc_ok_frame w); eauto.
  - intros n1 n2 pc1 pc2 id [H1|(_ & _ & Hb1)]%Hws [H2|(_ & _ & Hb2)]%Hws B1 B2; [by eapply Huniq|by destruct (Hb2 id)|by destruct (Hb1 id)..].
  - intros id Hid. destruct (Hdone id Hid) as [Hf Hb]. split; [done|].
    intros n' pc [Hn'|(_ & _ & Hno)]%Hws; [by eapply Hb|apply Hno].
  - intros id t Ht Hs. eapply Hos, Houts; eauto.
Qed.

(** Worker [n] takes a step inside an execution of map task [id] that is the only
    one of a task that is not completed. *)
Lemma job_inv_map w n id pc fs :
  job_inv w → 0 ≤ id → id ∉ mapsDone (mr w) →
  (∀ n' pc', n' ≠ n → workers w !! n' = Some pc' → ¬ begun id pc') →
  (∀ id' i, 0 ≤ id' → 0 ≤ i → id' ≠ id → fs !! inter_name id' i = files w !! inter_name id' i) →
  (∀ id', begun id' pc → id' = id) →
  pc_ok (mkJobWorld (mr w) (<[n := pc]> (workers w)) fs (outs w)) pc →
  job_inv (mkJobWorld (mr w) (<[n := pc]> (workers w)) fs (outs w)).
Proof.
  intros [Hmr Hmaps Hpc Huniq Hdone Houts] Hid Hnd Hother Hfs Hb Hok. constructor; simpl; try done.
  - intros n' pc'. rewrite lookup_insert_Some. intros [[<- <-]|[Hne Hn']]; [done|].
    apply (pc_ok_frame w); simpl; eauto. intros id' i Hid' Hi Hb'. apply Hfs; [done|lia|]. intros ->. by destruct (Hother n' pc').
  - intros n1 n2 pc1 pc2 id'. rewrite !lookup_insert_Some.
    intros [[<- <-]|[Hne1 H1]] [[<- <-]|[Hne2 H2]] B1 B2; [done| | |by eapply Huniq].
    + apply Hb in B1 as ->. by destruct (Hother n2 pc2).
    + apply Hb in B2 as ->. by destruct (Hother n1 pc1).
  - intros id' Hid'. assert (Hne : id' ≠ id) by (by intros ->). destruct (Hdone id' Hid') as [Hf Hb'].
    assert (H0 : 0 ≤ id').
    { apply (mi_done _ _ _ Hmr) in Hid' as (t & Ht & _). apply (po_dom _ _ _ _ _ _ (mi_maps _ _ _ Hmr) id'). by eexists. }
    split; [intros i Hi; rewrite Hfs by (done || lia); by apply Hf|].
    intros n' pc'. rewrite lookup_insert_Some. intros [[_ <-]|[_ Hn']]; [by intros ?%Hb|by eapply Hb'].
Qed.

(** Only the coordinator moves, and completes no task. *)
Lemma job_inv_coord w ev mr' :
  job_inv w → mr_step ev (mr w) = Next mr' → (∀ t, ev ≠ EFinished t) →
  job_inv (mkJobWorld mr' (workers w) (files w) (outs w)).
Proof.
  intros [Hmr Hmaps Hpc Huniq Hdone Houts] Hstep Hev.
  destruct (mr_step_effect ev (mr w) mr' Hstep) as (E1 & E2 & E3 & E4 & _).
  constructor; simpl; try done.
  - by apply (mr_step_inv _ _ ev (mr w) Hmr).
  - intros id t (t0 & Ht0 & <-)%E4. by apply Hmaps.
  - intros n pc Hn. apply (pc_ok_frame w); simpl; eauto.
  - intros id [Hid|(t & -> & _)]%E1; [by apply Hdone|by destruct (Hev t)].
  - intros id t Ht Hs. destruct (E3 id t Ht Hs) as [(t0 & Ht0 & Hs0)|(t0 & -> & _)]; [by apply (Houts id t0)|by destruct (Hev t0)].
Qed.

Hypothesis nr_pos : 0 < nr.
Hypothesis inputs_fit : go_len inputs ≤ mapCap.
Hypothesis inputs_there : Forall (λ '(name, content), input_fs name = Some content) inputs.

Lemma task_content t : map_task_ok t → ∃ content, input_fs (FileName t) = Some content ∧ pairs (wd_Id t) = mapf (FileName t) content.
Proof.
  intros (_ & Hid & _ & Hname). unfold pairs. destruct (inputs.[wd_Id t]) as [[name content]|] eqn:E; [|done].
  injection Hname as <-. exists content. split; [|done]. rewrite go_index_lookup in E by lia.
  by apply (Forall_lookup_1 _ _ _ _ inputs_there E).
Qed.

(** The execution at hand is the only one that has begun. *)
Lemma owner w n pc t :
  job_inv w → exclusive w (JStep n) → workers w !! n = Some pc →
  (∃ k, pc = WCreate t k) ∨ (∃ d rest, pc = WWrite t d rest) →
  (wd_Id t ∉ mapsDone (mr w)) ∧ ∀ n' pc', n' ≠ n → workers w !! n' = Some pc' → ¬ begun (wd_Id t) pc'.
Proof.
  intros Hi He Hn Hpc. assert (Hb : begun (wd_Id t) pc → (wd_Id t ∉ mapsDone (mr w)) ∧
    ∀ n' pc', n' ≠ n → workers w !! n' = Some pc' → ¬ begun (wd_Id t) pc').
  { intros Hb. split.
    - intros Hd. by destruct (proj2 (ji_done _ Hi _ Hd) n pc Hn).
    - intros n' pc' Hne Hn' Hb'. by destruct (Hne (ji_unique _ Hi n' n pc' pc _ Hn' Hn Hb' Hb)). }
  destruct Hpc as [[k ->]|(d & rest & ->)]; [|by apply Hb].
  pose proof (ji_pc _ Hi n _ Hn) as (_ & Hk & _). destruct (decide (k = 0)) as [->|Hne].
  - simpl in He. rewrite Hn in He. destruct He as [Hnd Hother]. split; [done|]. intros n' pc' Hne Hn'. by apply (Hother n' pc' Hn').
  - apply Hb. simpl. split; [done|lia].
Qed.

Lemma write_at_end l kv : write_at (length l) kv (Some <$> l) = Some <$> (l ++ [kv]).
Proof.
  unfold write_at. rewrite length_fmap, Nat.ltb_irrefl, Nat.sub_diag. simpl. by rewrite fmap_app.
Qed.

Lemma decode_all_Some l : decode_all (Some <$> l) = l.
Proof. induction l as [|kv l IH]; [done|]. simpl. by f_equal. Qed.

Lemma step_create w n t k w' :
  job_inv w → exclusive w (JStep n) → workers w !! n = Some (WCreate t k) →
  worker_step n (WCreate t k) w = Next w' → job_inv w'.
Proof.
  intros Hi He Hn. pose proof (ji_pc _ Hi n _ Hn) as (Ht & Hk & Hfs).
  destruct (owner w n _ t Hi He Hn) as [Hnd Hother]; [eauto|].
  destruct (task_content t Ht) as (content & Hc & Hp). pose proof Ht as (_ & Hid & Enr & _). simpl. rewrite Hc, Enr.
  destruct (Z.ltb_spec k nr) as [Hlt|Hge]; intros [= <-].
  - apply (job_inv_map w n (wd_Id t)); try done; simpl; [lia| | |].
    + intros id' i Hid' Hi' Hne. apply lookup_insert_ne. intros E. apply inter_name_inj in E as [? _]; lia.
    + by intros id' [? _].
    + split_and!; try done; try lia. intros i Hi'. destruct (decide (i = k)) as [->|Hne]; [apply lookup_insert_eq|].
      rewrite lookup_insert_ne; [apply Hfs; lia|]. intros E. apply inter_name_inj in E as [_ ?]; lia.
  - apply (job_inv_map w n (wd_Id t)); try done; simpl; [lia|].
    split_and!; try done. intros i Hi'. rewrite Hfs by lia. done.
Qed.

Lemma step_write w n t d rest w' :
  job_inv w → exclusive w (JStep n) → workers w !! n = Some (WWrite t d rest) →
  worker_step n (WWrite t d rest) w = Next w' → job_inv w'.
Proof.
  intros Hi He Hn. pose proof (ji_pc _ Hi n _ Hn) as (Ht & Hp & Hfs). pose proof Ht as (Ety & Hid & Enr & _).
  destruct (owner w n _ t Hi He Hn) as [Hnd Hother]; [eauto|]. destruct rest as [|kv rest]; simpl.
  - intros [= <-]. rewrite app_nil_r in Hp. subst d. apply (job_inv_map w n (wd_Id t)); try done; simpl; [lia| |].
    + by intros id' [_ ?].
    + left. split_and!; [done|lia|done].
  - rewrite Enr. destruct (Z.eqb_spec nr 0) as [|_]; [lia|]. intros [= <-].
    pose proof (Z.mod_pos_bound (ihash (Key kv)) nr nr_pos) as Hb. set (x := ihash (Key kv) mod nr) in *.
    apply (job_inv_map w n (wd_Id t)); try done; simpl; [lia| |].
    + intros id' i Hid' Hi' Hne. apply lookup_insert_ne. intros E. apply inter_name_inj in E as [? _]; lia.
    + split_and!; try done; [by rewrite <- app_assoc|]. intros i Hi'. rewrite bucket_app. destruct (decide (i = x)) as [->|Hne].
      * rewrite lookup_insert_eq, Hfs by lia. simpl. f_equal.
        rewrite <- (length_fmap json_kv (bucket nr x d)), write_at_end. f_equal. rewrite fmap_app. f_equal.
        unfold bucket. by rewrite filter_cons_True.
      * rewrite lookup_insert_ne by (intros E; apply inter_name_inj in E as [_ ?]; lia). rewrite Hfs by done.
        assert (bucket nr i [kv] = []) as -> by (unfold bucket; by rewrite filter_cons_False). by rewrite app_nil_r.
Qed.

Lemma step_read w n t todo acc w' :
  job_inv w → workers w !! n = Some (WRead t todo acc) →
  worker_step n (WRead t todo acc) w = Next w' → job_inv w'.
Proof.
  intros Hi Hn. pose proof (ji_pc _ Hi n _ Hn) as (Ety & Hid & Hall & ids1 & ids2 & Hids & -> & ->).
  assert (Hin : ∀ n' pc pc', <[n := pc]> (workers w) !! n' = Some pc' → workers w !! n' = Some pc' ∨ (n' = n ∧ pc' = pc)).
  { intros n' pc pc'. rewrite lookup_insert_Some. intros [[<- <-]|[_ ?]]; auto. }
  destruct ids2 as [|k ids2]; simpl.
  - intros [= <-]. assert (Hout : out_ok (mkJobWorld (mr w) (<[n := WReport t]> (workers w)) (files w)
      (<[out_name (wd_Id t) := reduce_all reducef (sort_kvs (mjoin (map_output mapf inputs nr (wd_Id t) <$> ids1)))]> (outs w))) (wd_Id t)).
    { split; [lia|]. eexists. split; [apply lookup_insert_eq|]. exists ids1. split; [by rewrite app_nil_r in Hids|done]. }
    apply (job_inv_leave w n); [done| |].
    + intros n' pc [?|[-> ->]]%Hin; [by left|right]. split_and!; [done|by right|]. intros id [? _]. congruence.
    + intros id (H0 & out & Ho & Hr). destruct (decide (id = wd_Id t)) as [->|Hne]; [done|].
      split; [done|]. exists out. split; [|done]. simpl. rewrite lookup_insert_ne; [done|].
      intros E. apply out_name_inj in E; [congruence|lia|done].
  - assert (Hk : k ∈ seqZ 0 (go_len inputs)) by (rewrite <- Hids; apply elem_of_app; right; by left).
    apply elem_of_seqZ in Hk. destruct (ji_done _ Hi k) as [Hf _]; [apply Hall; lia|]. rewrite Hf by done.
    intros [= <-]. apply (job_inv_leave w n); [done| |by apply out_ok_same].
    intros n' pc [?|[-> ->]]%Hin; [by left|right]. split_and!; [done| |by intros id []].
    simpl. split_and!; try done; try lia. exists (ids1 ++ [k]), ids2. split_and!; [by rewrite <- app_assoc|done|].
    rewrite fmap_app, join_app, decode_all_Some. simpl. by rewrite app_nil_r, map_output_pairs.
Qed.

(** What GetTask hands out. *)
Lemma GetTask_hands w mr' c reply check :
  job_inv w → GetTask (coord (mr w)) = Some (c, reply, check) → mr_step EGetTask (mr w) = Next mr' →
  r_Task reply = noTask ∨
  (r_Task reply ∈ issued mr' ∧
   (wd_Type (r_Task reply) = Map → (fst <$> inputs.[wd_Id (r_Task reply)]) = Some (FileName (r_Task reply))) ∧
   (wd_Type (r_Task reply) = Reduce → all_completed (mapsTaskList (coord (mr w))) = true)).
Proof.
  intros Hi Hget. simpl. rewrite Hget. simpl. unfold GetTask in Hget. pose proof (ji_mr _ Hi) as Hmr.
  destruct (allTasksDone (coord (mr w))); [injection Hget as <- <- <-; by left|].
  destruct (isAllMapWorkerFinished (coord (mr w))) eqn:Ef; simpl in Hget.
  - destruct (reduceChan (coord (mr w))) as [|id chan]; [injection Hget as <- <- <-; by left|].
    destruct (reduceTaskList (coord (mr w)) !! id) as [t|] eqn:Et; simpl in Hget; [|done]. injection Hget as <- <- <-.
    destruct (po_task _ _ _ _ _ _ (mi_reds _ _ _ Hmr) id t Et) as (_ & Ety & _). rewrite Ety.
    intros [= <-]. right. simpl. split_and!; [by left|congruence|]. intros _. by apply (mi_flag _ _ _ Hmr).
  - destruct (mapChan (coord (mr w))) as [|id chan]; [injection Hget as <- <- <-; by left|].
    destruct (mapsTaskList (coord (mr w)) !! id) as [t|] eqn:Et; simpl in Hget; [|done]. injection Hget as <- <- <-.
    destruct (po_task _ _ _ _ _ _ (mi_maps _ _ _ Hmr) id t Et) as (Eid & Ety & _). rewrite Ety.
    intros [= <-]. right. simpl. split_and!; [by left| |congruence]. intros _. rewrite Eid. by apply (ji_maps _ Hi).
Qed.

Lemma step_ask w n w' :
  job_inv w → workers w !! n = Some WAsk → worker_step n WAsk w = Next w' → job_inv w'.
Proof.
  intros Hi Hn. unfold worker_step. destruct (GetTask (coord (mr w))) as [[[c reply] check]|] eqn:Hget; [|done].
  cbn [run_go outcome_bind fst snd]. destruct (mr_step EGetTask (mr w)) as [mr'| |] eqn:Hstep; [|done|done].
  cbn [outcome_bind]. intros [= <-]. pose proof (job_inv_coord w EGetTask mr' Hi Hstep ltac:(done)) as Hi'.
  apply (job_inv_leave (mkJobWorld mr' (workers w) (files w) (outs w)) n); [done| |by apply out_ok_same].
  intros n' pc. rewrite lookup_insert_Some. intros [[<- <-]|[_ Hn']]; [right; split; [done|]|by left].
  destruct (GetTask_hands w mr' c reply check Hi Hget Hstep) as [E|(Hiss & Hmap & Hred)].
  { unfold after_ask. rewrite E. destruct (IsFinished reply); simpl; (split; [done|by intros id []]). }
  destruct (mi_issued _ _ _ (ji_mr _ Hi') _ Hiss) as [Enr Hcase]. unfold after_ask. destruct (IsFinished reply); [split; [done|by intros id []]|].
  destruct Hcase as [[Ety Hid]|(Ety & Hid & ids & Hids & Efs)]; rewrite Ety; simpl.
  - split; [|intros id [_ ?]; lia]. unfold map_task_ok. split_and!; try done; try lia; auto.
  - split; [|by intros id []]. split_and!; try done; try lia.
    + intros id Hid'. destruct (mr_step_effect _ _ _ Hstep) as (_ & E2 & _). apply E2.
      rewrite (all_maps_done _ _ _ (ji_mr _ Hi) (Hred Ety)). apply elem_of_seqZ. lia.
    + exists [], ids. by split_and!.
Qed.

Lemma step_report w n t w' :
  job_inv w → workers w !! n = Some (WReport t) → worker_step n (WReport t) w = Next w' → job_inv w'.
Proof.
  intros Hi Hn. pose proof (ji_pc _ Hi n _ Hn) as Hok. unfold worker_step.
  destruct (mr_step (EFinished t) (mr w)) as [mr'| |] eqn:Hstep; [|done|done]. cbn [outcome_bind]. intros [= <-].
  destruct (mr_step_effect _ _ _ Hstep) as (E1 & E2 & E3 & E4 & _).
  pose proof Hi as [Hmr Hmaps Hpc Huniq Hdone Houts]. constructor; simpl.
  - exact (proj2 (mr_step_inv _ _ _ _ Hmr) _ Hstep).
  - intros id u (u0 & Hu & <-)%E4. by apply Hmaps.
  - intros n' pc. rewrite lookup_insert_Some. intros [[_ <-]|[_ Hn']]; [done|]. apply (pc_ok_frame w); simpl; eauto.
  - intros n1 n2 pc1 pc2 id. rewrite !lookup_insert_Some.
    intros [[_ <-]|[Hne1 H1]] [[_ <-]|[Hne2 H2]] B1 B2; try done. by eapply Huniq.
  - intros id Hid. assert (Hnew : map_files (files w) id (pairs id) ∧
      ∀ n' pc, n' ≠ n → workers w !! n' = Some pc → ¬ begun id pc).
    { destruct (E1 id Hid) as [Hold|(u & [= <-] & Ety & <-)].
      - destruct (Hdone id Hold) as [Hf Hb]. split; [done|]. intros n' pc _. apply Hb.
      - destruct Hok as [(_ & _ & Hf)|(Ety' & _)]; [|congruence]. split; [done|].
        intros n' pc Hne Hn' Hb. by destruct (Hne (Huniq n' n pc _ _ Hn' Hn Hb (conj Ety eq_refl))). }
    destruct Hnew as [Hf Hb]. split; [done|]. intros n' pc. rewrite lookup_insert_Some. intros [[_ <-]|[Hne Hn']]; [by intros []|].
    by apply (Hb n' pc).
  - intros id u Hu Hs. apply (out_ok_same w); [done|].
    destruct (E3 id u Hu Hs) as [(u0 & Hu0 & Hs0)|(u0 & [= <-] & Ety & <-)]; [by apply (Houts id u0)|].
    by destruct Hok as [(? & _)|(_ & Hout)].
Qed.

Lemma job_step_inv ev w w' : job_inv w → exclusive w ev → job_step ev w = Next w' → job_inv w'.
Proof.
  intros Hi He. destruct ev as [n|n|n|ty id|]; simpl.
  - destruct (workers w !! n) eqn:En; [done|]. intros [= <-]. apply (job_inv_leave w n); [done| |by apply out_ok_same].
    intros n' pc. rewrite lookup_insert_Some. intros [[<- <-]|[_ ?]]; [right|by left]. split_and!; [done|done|by intros id []].
  - destruct (workers w !! n) as [pc|] eqn:En; [|done]. cbn [enabled outcome_bind].
    destruct pc as [|t k|t d rest|t todo acc|t|]; [by apply step_ask|by apply step_create|by apply step_write| |by apply step_report|done].
    by apply step_read.
  - intros [= <-]. apply (job_inv_leave w n); [done| |by apply out_ok_same].
    intros n' pc [_ ?]%lookup_delete_Some. by left.
  - destruct (if decide (ty = Map) then _ else _) as [mr'| |] eqn:E; [|done|done]. intros [= <-].
    by apply (job_inv_coord w (ECheck ty id)).
  - intros [= <-]. by apply (job_inv_coord w EDone).
Qed.

Lemma job_reachable_inv w : job_reachable w → job_inv w.
Proof.
  induction 1 as [c Hc|ev w w' _ IH He Hstep]; [|by apply (job_step_inv ev w)].
  assert (El : go_len inputs.*1 = go_len inputs) by (unfold go_len; by rewrite length_fmap).
  destruct (MakeCoordinator_ok inputs.*1 nr) as (c' & E & Hi & Hfile & Hidle); [by rewrite El|lia|]. rewrite El in Hi.
  assert (c' = c) as -> by congruence. constructor; simpl; try done.
  - intros id t Ht. rewrite <- (Hfile id t Ht). unfold go_index. destruct (0 <=? id); [|done]. by rewrite list_lookup_fmap.
  - by intros id ?%elem_of_nil.
  - intros id t Ht Hs. rewrite (Hidle id t Ht) in Hs. done.
Qed.

Hypothesis reducef_perm : ∀ k l l', l ≡ₚ l' → reducef k l = reducef k l'.

Lemma job_output w :
  emits_utf8 mapf inputs → job_reachable w → (Done (coord (mr w))).2 = true →
  ∃ out, mapM (λ i, outs w !! out_name i) (seqZ 0 nr) = Some out ∧
    mjoin out ≡ₚ mrsequential mapf reducef inputs.
Proof.
  intros Hu Hr Hd. pose proof (job_reachable_inv w Hr) as Hi. pose proof (ji_mr _ Hi) as Hmr.
  assert (Hall : ∀ i, 0 ≤ i < nr → out_ok w i).
  { intros i Hrange. destruct (proj2 (po_dom _ _ _ _ _ _ (mi_reds _ _ _ Hmr) i) Hrange) as [t Ht].
    apply (ji_outs _ Hi i t Ht). unfold Done in Hd. destruct (all_completed (mapsTaskList (coord (mr w)))); simpl in Hd; [|done].
    rewrite all_completed_spec in Hd. by apply (Hd i). }
  destruct (proj1 (Forall_exists_Forall2_l (λ i o, outs w !! out_name i = Some o ∧ reduce_output mapf reducef inputs nr i o)
    (seqZ 0 nr))) as [out Hout].
  { apply Forall_forall. intros i Hi'%elem_of_seqZ. destruct (Hall i) as [_ Ho]; [lia|done]. }
  exists out. split.
  - apply mapM_Some_2. eapply Forall2_impl; [exact Hout|]. by intros i o [? _].
  - apply (reduce_outputs_sequential mapf reducef reducef_perm inputs nr); [done|done|].
    eapply Forall2_impl; [exact Hout|]. by intros i o [_ ?].
Qed.

(** C30 (A job computes what the sequential program computes).  The workers run
    against the coordinator and the shared files, crash anywhere, are late and
    repeat tasks, under one condition on the schedule ([exclusive]): no execution of
    a map task starts to create its files when the task is completed or while
    another execution of it has begun and is not over.  The application has a reduce
    function that does not depend on the order of the values ([reducef_perm]) and a
    map function that emits strings which JSON keeps ([emits_utf8]); there are at
    most 10000 input files, all readable, and at least one reduce task.  When Done
    answers true, every output file is there, and together they hold exactly the
    lines of mrsequential. *)
Theorem job_output_sequential w :
  emits_utf8 mapf inputs → job_reachable w → (Done (coord (mr w))).2 = true →
  ∃ out, mapM (λ i, outs w !! out_name i) (seqZ 0 nr) = Some out ∧
    mjoin out ≡ₚ mrsequential mapf reducef inputs.
Proof. apply job_output. Qed.
End job.

(** ** Two runs *)

(** A run that keeps to [exclusive]. *)
Fixpoint job_run_exclusive `{!SortByKey} (mapf : string → string → list KeyValue) (reducef : string → list string → string)
    (input_fs : string → option string) (evs : list JobEvent) (w : JobWorld) : outcome JobWorld :=
  match evs with
  | [] => Next w
  | ev :: evs =>
      if decide (exclusive w ev)
      then w <~ job_step mapf reducef input_fs ev w ;; job_run_exclusive mapf reducef input_fs evs w
      else Disabled
  end.

Lemma job_run_exclusive_reachable `{!SortByKey} mapf reducef input_fs inputs nr evs w w' :
  job_reachable mapf reducef input_fs inputs nr w → job_run_exclusive mapf reducef input_fs evs w = Next w' →
  job_reachable mapf reducef input_fs inputs nr w'.
Proof.
  revert w. induction evs as [|ev evs IH]; intros w Hr; simpl; [by intros [= <-]|]. case_decide as He; [|done].
  destruct (job_step mapf reducef input_fs ev w) as [w1| |] eqn:E; try done. simpl. apply IH. by eapply job_next.
Qed.

Definition wc_inputs : list (string * string) := [("x", "abca"); ("y", "cb")].
Definition wc_fs (name : string) : option string :=
  snd <$> find (λ '(n, _), bool_decide (n = name)) wc_inputs.

Definition wc_start : JobWorld :=
  job_start (default (mkCoordinator ∅ ∅ [] [] 2 false ∅) (MakeCoordinator wc_inputs.*1 2)).

(** Worker 1 crashes in the middle of map task 0, which times out; worker 2 does
    everything. *)
Definition wc_events : list JobEvent :=
  [JSpawn 1; JStep 1; JStep 1; JStep 1; JStep 1; JStep 1; JStep 1; JCrash 1; JCheck Map 0; JSpawn 2] ++
  replicate 8 (JStep 2) ++ replicate 10 (JStep 2) ++ [JDone] ++ replicate 10 (JStep 2) ++ [JDone].

Definition wc_end : JobWorld :=
  match @job_run_exclusive merge_sort_by_key wc_map wc_reduce wc_fs wc_events wc_start with
  | Next w => w
  | _ => wc_start
  end.

Lemma wc_end_reachable : @job_reachable merge_sort_by_key wc_map wc_reduce wc_fs wc_inputs 2 wc_end.
Proof.
  apply (@job_run_exclusive_reachable merge_sort_by_key wc_map wc_reduce wc_fs wc_inputs 2 wc_events wc_start).
  - apply job_init. vm_compute. reflexivity.
  - vm_compute. reflexivity.
Qed.

Lemma job_output_sequential_witness :
  ∃ out, mapM (λ i, outs wc_end !! out_name i) (seqZ 0 2) = Some out ∧
    mjoin out ≡ₚ [("a", "2"); ("b", "2"); ("c", "2")].
Proof.
  assert (E : @mrsequential merge_sort_by_key wc_map wc_reduce wc_inputs = [("a", "2"); ("b", "2"); ("c", "2")])
    by (vm_compute; reflexivity).
  rewrite <- E.
  apply (@job_output_sequential merge_sort_by_key wc_map wc_reduce wc_fs wc_inputs 2).
  - lia.
  - vm_compute. congruence.
  - repeat constructor.
  - exact wc_reduce_perm.
  - repeat constructor; vm_compute; reflexivity.
  - exact wc_end_reachable.
  - vm_compute. reflexivity.
Defined.

(** Map task 0 times out while worker 1 is slow, worker 2 is given it too, worker 1
    finishes it, and worker 2 creates the file anew and crashes. *)
Definition late_inputs : list (string * string) := [("x", "ab")].
Definition late_fs (name : string) : option string := if decide (name = "x") then Some "ab" else None.
Definition late_start : JobWorld :=
  job_start (default (mkCoordinator ∅ ∅ [] [] 1 false ∅) (MakeCoordinator late_inputs.*1 1)).
Definition late_events : list JobEvent :=
  [JSpawn 1; JStep 1; JCheck Map 0; JSpawn 2; JStep 2] ++ replicate 6 (JStep 1) ++ [JStep 2; JCrash 2; JDone] ++
  replicate 4 (JStep 1) ++ [JDone].

(** (A late map task destroys finished output).  Without that condition the job
    can go wrong: MapWork truncates the files of a map task that is completed, its
    worker crashes, the reduce task reads an empty file, and Done answers true with
    an empty output although mrsequential prints two lines. *)
Theorem late_map_loses_output :
  ∃ w, @job_run merge_sort_by_key wc_map wc_reduce late_fs late_events late_start = Next w ∧
    (Done (coord (mr w))).2 = true ∧ outs w !! out_name 0 = Some [] ∧
    @mrsequential merge_sort_by_key wc_map wc_reduce late_inputs = [("a", "1"); ("b", "1")].
Proof. eexists. split; [vm_compute; reflexivity|]. split_and!; vm_compute; reflexivity. Qed.
