(* ===== verification/MRApps.v ===== *)
(** * mrapps: applications of MapReduce

    The map and reduce functions of wc.go, indexer.go, crash.go, nocrash.go and
    early_exit.go of src/src/mrapps, with what they use of strings, unicode/utf8 and
    sort, and what a job prints that runs them.  The other applications measure processes and the clock. *)

From Stdlib Require Import Ascii.
From S2P Require Import Prelude Utf8 Cluster Coordinator MRWorker MRJob.
Local Open Scope Z_scope.
Local Open Scope go_scope.

(** ** Runes *)

(** The bytes of one rune in valid UTF-8. *)
Definition utf8_bytes (b : string) : Prop := ∀ s, json_string (b +:+ s) = b +:+ json_string s.

(** The first rune of a text: its bytes are there, and valid UTF-8 unless it is RuneError. *)
Definition rune_ok (r : Rune) : Prop := bytes r ≠ "" ∧ (code r = RuneError ∨ utf8_bytes (bytes r)).

Lemma runes_step c0 s1 :
  ∃ r rest, runes (String c0 s1) = r :: runes rest ∧ String c0 s1 = bytes r +:+ rest ∧
    (String.length rest ≤ String.length s1)%nat ∧ rune_ok r.
Proof.
  assert (Hbad : ∃ r rest, bad_byte c0 :: runes s1 = r :: runes rest ∧ String c0 s1 = bytes r +:+ rest ∧
    (String.length rest ≤ String.length s1)%nat ∧ rune_ok r) by (exists (bad_byte c0), s1; split_and!; [done..|split; [done|by left]]).
  assert (Hok : ∀ r rest, String c0 s1 = bytes r +:+ rest → (String.length rest ≤ String.length s1)%nat → bytes r ≠ "" →
    utf8_bytes (bytes r) → ∃ r' rest', r :: runes rest = r' :: runes rest' ∧ String c0 s1 = bytes r' +:+ rest' ∧
    (String.length rest' ≤ String.length s1)%nat ∧ rune_ok r') by (intros r rest; exists r, rest; split_and!; [done..|split; [done|by right]]).
  cbn [runes]. destruct (in_range 0 127 c0) eqn:E0; [apply Hok; try done; intros s; simpl; by rewrite E0|].
  destruct s1 as [|c1 s2]; [done|]. destruct (in_range 194 223 c0 && second_byte c0 c1) eqn:E1.
  { apply Hok; [done|simpl; lia|done|intros s; simpl; by rewrite E0, E1]. }
  destruct s2 as [|c2 s3]; [done|]. destruct (in_range 224 239 c0 && second_byte c0 c1 && in_range 128 191 c2) eqn:E2.
  { apply Hok; [done|simpl; lia|done|intros s; simpl; by rewrite E0, E1, E2]. }
  destruct s3 as [|c3 s4]; [done|].
  destruct (in_range 240 244 c0 && second_byte c0 c1 && in_range 128 191 c2 && in_range 128 191 c3) eqn:E3; [|done].
  apply Hok; [done|simpl; lia|done|intros s; simpl; by rewrite E0, E1, E2, E3].
Qed.

Definition text (rs : list Rune) : string := foldr (λ r s, bytes r +:+ s) "" rs.

Lemma string_app_assoc (a b c : string) : (a +:+ b) +:+ c = a +:+ (b +:+ c).
Proof. induction a as [|x a IH]; [done|]. exact (f_equal (String x) IH). Qed.

Lemma text_app a b : text (a ++ b) = text a +:+ text b.
Proof. induction a as [|r a IH]; [done|]. simpl. by rewrite IH, string_app_assoc. Qed.

Lemma text_utf8 rs : Forall (λ r, utf8_bytes (bytes r)) rs → json_string (text rs) = text rs.
Proof. induction 1 as [|r rs Hr _ IH]; [done|]. simpl. by rewrite (Hr (text rs)), IH. Qed.

(** Decoding loses nothing, and its runes are all right. *)
Lemma runes_spec s : text (runes s) = s ∧ Forall rune_ok (runes s).
Proof.
  induction s as [[|c0 s1] IH] using (well_founded_induction (well_founded_ltof _ String.length)); [by split; [|constructor]|].
  destruct (runes_step c0 s1) as (r & rest & -> & E & Hl & Hr). destruct (IH rest) as [H1 H2]; [unfold ltof; simpl; lia|].
  split; [|by constructor]. rewrite E. simpl. by rewrite H1.
Qed.

(** ** strings *)

(** strings.FieldsFunc: the loop has seen the runes [cur] of a word that is not over. *)
Fixpoint fields_loop (f : Z → bool) (cur : list Rune) (rs : list Rune) : list (list Rune) :=
  match rs with
  | [] => if decide (cur = []) then [] else [cur]
  | r :: rs =>
      if f (code r) then (if decide (cur = []) then fields_loop f [] rs else cur :: fields_loop f [] rs)
      else fields_loop f (cur ++ [r]) rs
  end.
Definition FieldsFunc (s : string) (f : Z → bool) : list string := text <$> fields_loop f [] (runes s).

(** strings.Join *)
Definition Join (elems : list string) (sep : string) : string := String.concat sep elems.

(** sort.Strings; which algorithm makes no difference. *)
Definition Strings (l : list string) : list string := merge_sort String.le l.

(** ** The words of a text *)

(** What FieldsFunc promises: the words are the longest runs of runes that do not
    separate. *)
Inductive fields (f : Z → bool) : list Rune → list (list Rune) → Prop :=
  | fields_none seps : Forall (λ r, f (code r) = true) seps → fields f seps []
  | fields_last seps w : Forall (λ r, f (code r) = true) seps → w ≠ [] → Forall (λ r, f (code r) = false) w →
      fields f (seps ++ w) [w]
  | fields_next seps w r rest ws : Forall (λ r, f (code r) = true) seps → w ≠ [] → Forall (λ r, f (code r) = false) w →
      f (code r) = true → fields f rest ws → fields f (seps ++ w ++ r :: rest) (w :: ws).

Lemma fields_sep f r rs ws : f (code r) = true → fields f rs ws → fields f (r :: rs) ws.
Proof.
  intros Hr H. destruct H as [seps Hs|seps w Hs Hne Hw|seps w r' rest ws Hs Hne Hw Hr' H]; rewrite ?app_comm_cons; constructor; try done;
    by constructor.
Qed.

Lemma fields_loop_spec f rs : ∀ cur, Forall (λ r, f (code r) = false) cur → fields f (cur ++ rs) (fields_loop f cur rs).
Proof.
  induction rs as [|r rs IH]; intros cur Hc; simpl.
  - rewrite app_nil_r. case_decide as E; [subst; by apply fields_none|]. by apply (fields_last f [] cur).
  - destruct (f (code r)) eqn:Hr.
    + specialize (IH [] (List.Forall_nil _)). case_decide as E; [subst; by apply fields_sep|]. by apply (fields_next f [] cur r rs).
    + replace (cur ++ r :: rs) with ((cur ++ [r]) ++ rs) by (by rewrite <- app_assoc). apply IH.
      apply Forall_app. split; [done|]. by constructor.
Qed.

Lemma fields_runes f rs ws : fields f rs ws → Forall (λ w, w ≠ [] ∧ Forall (λ r, f (code r) = false ∧ r ∈ rs) w) ws.
Proof.
  assert (Hin : ∀ (w a b : list Rune), Forall (λ r, f (code r) = false) w → Forall (λ r, f (code r) = false ∧ r ∈ a ++ w ++ b) w).
  { intros w a b Hw. apply Forall_forall. intros r Hr. rewrite Forall_forall in Hw. split; [by apply Hw|].
    apply elem_of_app. right. apply elem_of_app. by left. }
  induction 1 as [seps Hs|seps w Hs Hne Hw|seps w r rest ws Hs Hne Hw Hr _ IH]; [constructor| |].
  - constructor; [|constructor]. split; [done|]. specialize (Hin w seps [] Hw). by rewrite app_nil_r in Hin.
  - constructor; [split; [done|by apply Hin]|]. eapply Forall_impl; [exact IH|]. intros x [Hx Hall]. split; [done|].
    eapply Forall_impl; [exact Hall|]. intros y [Hy Hyr]. split; [done|]. apply elem_of_app. right. apply elem_of_app. right. by right.
Qed.

(** ** What a job prints *)

Section lines.
Context `{!SortByKey}.
Variable mapf : string → string → list KeyValue.
Variable reducef : string → list string → string.
Variable input_fs : string → option string.
Variable inputs : list (string * string).
Variable nr : Z.
Hypothesis nr_pos : 0 < nr.
Hypothesis inputs_fit : go_len inputs ≤ mapCap.
Hypothesis inputs_there : Forall (λ '(name, content), input_fs name = Some content) inputs.
Hypothesis reducef_perm : ∀ k l l', l ≡ₚ l' → reducef k l = reducef k l'.

(** The output files of a job that is done: one line per key. *)
Definition job_prints (w : JobWorld) (P : string → string → Prop) : Prop :=
  ∃ out, mapM (λ i, outs w !! out_name i) (seqZ 0 nr) = Some out ∧ NoDup (mjoin out).*1 ∧ ∀ k v, (k, v) ∈ mjoin out ↔ P k v.

Lemma job_lines w :
  emits_utf8 mapf inputs → job_reachable mapf reducef input_fs inputs nr w → (Done (coord (mr w))).2 = true →
  job_prints w (λ k v, k ∈ Key <$> all_pairs mapf inputs ∧ v = reducef k (values_of k (all_pairs mapf inputs))).
Proof.
  intros Hu Hr Hd. destruct (job_output mapf reducef input_fs inputs nr nr_pos inputs_fit inputs_there reducef_perm w Hu Hr Hd) as (out & E & Hp).
  destruct (mrsequential_spec mapf reducef reducef_perm inputs) as [H1 H2]. exists out. split; [done|]. split; [by rewrite Hp|].
  intros k v. by rewrite Hp, H2.
Qed.
End lines.

Lemma job_prints_iff nr w (P Q : string → string → Prop) : (∀ k v, P k v ↔ Q k v) → job_prints nr w P → job_prints nr w Q.
Proof. intros HPQ (out & E & Hnd & H). exists out. split_and!; [done|done|]. intros k v. by rewrite H, HPQ. Qed.

(** ** wc.go *)

Module Wc.
Section wc.
Context `{!Unicode}.

Definition words (contents : string) : list string := FieldsFunc contents (λ r, negb (IsLetter r)).

Definition Map (filename contents : string) : list KeyValue := (λ w, mkKeyValue w "1") <$> words contents.

Definition Reduce (key : string) (values : list string) : string := Itoa (go_len values).

(** A word is valid UTF-8 whatever the file holds: a byte that is not decodes to
    RuneError, which separates words. *)
Lemma words_utf8 contents : Forall (λ w, json_string w = w ∧ w ≠ "") (words contents).
Proof.
  unfold words, FieldsFunc. apply Forall_fmap.
  pose proof (fields_runes _ _ _ (fields_loop_spec (λ r, negb (IsLetter r)) (runes contents) [] (List.Forall_nil _))) as Hf.
  eapply Forall_impl; [exact Hf|]. simpl. intros w [Hne Hw]. pose proof (proj2 (runes_spec contents)) as Hu. rewrite Forall_forall in Hu, Hw.
  split.
  - apply text_utf8, Forall_forall. intros r Hr. destruct (Hw r Hr) as [Hl Hin]. destruct (Hu r Hin) as [_ [E|?]]; [|done].
    by rewrite E, IsLetter_error in Hl.
  - destruct w as [|r w]; [done|]. destruct (Hu r) as [Hb _]; [apply Hw; by left|]. simpl. by destruct (bytes r).
Qed.

Lemma count_perm k l l' : l ≡ₚ l' → Reduce k l = Reduce k l'.
Proof. intros E. unfold Reduce, go_len. by rewrite E. Qed.

Lemma Map_utf8 inputs : emits_utf8 Map inputs.
Proof.
  unfold emits_utf8. apply Forall_forall. intros [name content] _. unfold Map. apply Forall_fmap.
  eapply Forall_impl; [apply words_utf8|]. simpl. intros w [Hw _]. unfold json_kv. simpl. by rewrite Hw.
Qed.

(** How often a word occurs in the files of a job. *)
Definition all_words (inputs : list (string * string)) : list string := mjoin ((λ '(_, contents), words contents) <$> inputs).
Definition occurrences (inputs : list (string * string)) (w : string) : Z := go_len (filter (λ x, x = w) (all_words inputs)).

Lemma all_pairs_words inputs : all_pairs Map inputs = (λ w, mkKeyValue w "1") <$> all_words inputs.
Proof.
  induction inputs as [|[name contents] inputs IH] using rev_ind; [done|]. rewrite all_pairs_app, IH. unfold all_words.
  rewrite fmap_app, join_app, fmap_app. simpl. by rewrite app_nil_r.
Qed.

Lemma word_values ws k : go_len (values_of k ((λ w, mkKeyValue w "1") <$> ws)) = go_len (filter (λ x, x = k) ws).
Proof.
  unfold values_of, go_len. rewrite length_fmap. induction ws as [|w ws IH]; [done|]. rewrite fmap_cons, !filter_cons. simpl.
  case_decide; simpl; lia.
Qed.

Lemma occurs_pos ws (k : string) : k ∈ ws ↔ 0 < go_len (filter (λ x, x = k) ws).
Proof.
  unfold go_len. split.
  - intros Hk. assert (Hf : k ∈ filter (λ x, x = k) ws) by (by apply list_elem_of_filter). destruct (filter _ ws); [by apply elem_of_nil in Hf|]. simpl. lia.
  - intros Hl. destruct (filter (λ x, x = k) ws) as [|x l] eqn:E; simpl in Hl; [lia|].
    assert (Hx : x ∈ filter (λ x, x = k) ws) by (rewrite E; by left). apply list_elem_of_filter in Hx as [-> ?]. done.
Qed.

(** (The words of a file) are its longest runs of letters, in order. *)
Theorem words_spec contents :
  ∃ ws, words contents = text <$> ws ∧ fields (λ r, negb (IsLetter r)) (runes contents) ws ∧ text (runes contents) = contents.
Proof.
  eexists. split; [done|]. split; [|apply runes_spec]. by apply (fields_loop_spec _ (runes contents) []).
Qed.

(** C31 (A word count counts words).  A job that runs wc.go on at most 10000 readable
    files, whatever they hold, with at least one reduce task and workers that crash
    anywhere and repeat tasks, in a run in which no execution of a map task starts to
    create its files when the task is completed or while another execution of it has
    begun and is not over (the runs of [job_reachable]): when Done answers true, the
    output files hold exactly one line for each word that occurs in the files, with
    the number of its occurrences in all of them. *)
Theorem wc_counts_words `{!SortByKey} input_fs inputs nr w :
  0 < nr → go_len inputs ≤ mapCap → Forall (λ '(name, content), input_fs name = Some content) inputs →
  job_reachable Map Reduce input_fs inputs nr w → (Done (coord (mr w))).2 = true →
  job_prints nr w (λ k v, 0 < occurrences inputs k ∧ v = Itoa (occurrences inputs k)).
Proof.
  intros Hn Hfit Hin Hr Hd. eapply job_prints_iff; [|apply (job_lines Map Reduce input_fs inputs nr Hn Hfit Hin count_perm w (Map_utf8 inputs) Hr Hd)].
  intros k v. unfold Reduce, occurrences. rewrite all_pairs_words, word_values, <- occurs_pos, <- list_fmap_compose.
  replace (Key ∘ (λ w0, mkKeyValue w0 "1")) with (@id string) by done. by rewrite list_fmap_id.
Qed.
End wc.
End Wc.

(** ** indexer.go *)

Module Indexer.
Section indexer.
Context `{!Unicode}.
(** The order in which [range] goes over a map. *)
Variable range : gset string → list string.

Definition Map (document value : string) : list KeyValue :=
  let words := FieldsFunc value (λ x, negb (IsLetter x)) in
  let m : gset string := foldl (λ m w, {[w]} ∪ m) ∅ words in
  (λ w, mkKeyValue w document) <$> range m.

Definition Reduce (key : string) (values : list string) : string :=
  Itoa (go_len values) +:+ " " +:+ Join (Strings values) ",".

Lemma Strings_perm l l' : l ≡ₚ l' → Strings l = Strings l'.
Proof.
  intros E. apply (StronglySorted_unique String.le); [apply (StronglySorted_merge_sort String.le)..|].
  unfold Strings. by rewrite !(merge_sort_Permutation String.le).
Qed.

Lemma index_perm k l l' : l ≡ₚ l' → Reduce k l = Reduce k l'.
Proof. intros E. unfold Reduce, go_len. by rewrite (Strings_perm l l' E), E. Qed.

Hypothesis range_elements : ∀ m, range m ≡ₚ elements m.

Lemma distinct_words words k : k ∈ foldl (λ (m : gset string) w, {[w]} ∪ m) ∅ words ↔ k ∈ words.
Proof.
  induction words as [|w words IH] using rev_ind; simpl; [rewrite elem_of_empty, elem_of_nil; done|].
  rewrite foldl_app. simpl. rewrite elem_of_union, elem_of_singleton, IH, elem_of_app, list_elem_of_singleton. tauto.
Qed.

Lemma Map_values document value k :
  values_of k (Map document value) = if decide (k ∈ Wc.words value) then [document] else [].
Proof.
  unfold Map, values_of. fold (Wc.words value). set (m := foldl _ ∅ (Wc.words value)).
  assert (Hm : ∀ x, x ∈ range m ↔ x ∈ Wc.words value) by (intros x; rewrite range_elements, elem_of_elements; apply distinct_words).
  assert (Hnd : NoDup (range m)) by (rewrite range_elements; apply NoDup_elements). rewrite <- (decide_ext _ _ _ _ (Hm k)).
  clear Hm. induction Hnd as [|w l Hw _ IH]; [done|]. rewrite fmap_cons, filter_cons. simpl.
  destruct (decide (w = k)) as [->|Hne].
  - rewrite (decide_True _ _ (P := k ∈ k :: l)) by (by left). rewrite (decide_False _ _ Hw) in IH. by rewrite fmap_cons, IH.
  - rewrite IH. apply decide_ext. rewrite elem_of_cons. split; [by right|by intros [->|?]].
Qed.

(** The documents a word occurs in. *)
Definition documents (inputs : list (string * string)) (k : string) : list string :=
  fst <$> filter (λ '(_, value), k ∈ Wc.words value) inputs.

Lemma all_values inputs k : values_of k (all_pairs Map inputs) = documents inputs k.
Proof.
  unfold documents. induction inputs as [|[d c] inputs IH] using rev_ind; [done|].
  rewrite all_pairs_app, filter_app, fmap_app, <- IH. unfold values_of at 1. rewrite filter_app, fmap_app.
  fold (values_of k (Map d c)). rewrite Map_values, filter_cons. by destruct (decide (k ∈ Wc.words c)).
Qed.

Lemma all_keys inputs k : k ∈ Key <$> all_pairs Map inputs ↔ documents inputs k ≠ [].
Proof.
  rewrite <- all_values. unfold values_of. rewrite list_elem_of_fmap. split.
  - intros (kv & -> & Hkv) E. apply fmap_nil_inv in E. assert (Hin : kv ∈ filter (λ kv0, Key kv0 = Key kv) (all_pairs Map inputs)) by (by apply list_elem_of_filter).
    rewrite E in Hin. by apply elem_of_nil in Hin.
  - intros Hne. destruct (filter (λ kv, Key kv = k) (all_pairs Map inputs)) as [|kv l] eqn:E; [done|].
    assert (Hkv : kv ∈ filter (λ kv, Key kv = k) (all_pairs Map inputs)) by (rewrite E; by left).
    apply list_elem_of_filter in Hkv as [? ?]. by exists kv.
Qed.

(** (An index lists documents).  The index of a job, when Done answers true, has one line
    for each word that occurs in a document: the number of the documents it occurs in, and
    their names in order.  The names are to be valid UTF-8, which the words are anyway;
    and two runs over the map of a document are taken to go in the same order. *)
Theorem index_lists_documents `{!SortByKey} input_fs inputs nr w :
  0 < nr → go_len inputs ≤ mapCap → Forall (λ '(name, content), input_fs name = Some content) inputs →
  Forall (λ '(name, _), json_string name = name) inputs →
  job_reachable Map Reduce input_fs inputs nr w → (Done (coord (mr w))).2 = true →
  job_prints nr w (λ k v, documents inputs k ≠ [] ∧
    v = Itoa (go_len (documents inputs k)) +:+ " " +:+ Join (Strings (documents inputs k)) ",").
Proof.
  intros Hn Hfit Hin Hname Hr Hd. assert (Hu : emits_utf8 Map inputs).
  { unfold emits_utf8. eapply Forall_impl; [exact Hname|]. intros [d c] Hj. unfold Map. apply Forall_fmap, Forall_forall. intros x Hx.
    rewrite range_elements, elem_of_elements, distinct_words in Hx. pose proof (Wc.words_utf8 c) as Hw. rewrite Forall_forall in Hw.
    unfold json_kv. simpl. destruct (Hw x Hx) as [-> _]. by rewrite Hj. }
  eapply job_prints_iff; [|apply (job_lines Map Reduce input_fs inputs nr Hn Hfit Hin index_perm w Hu Hr Hd)].
  intros k v. cbv beta. by rewrite all_keys, all_values.
Qed.
End indexer.
End Indexer.

(** ** crash.go and nocrash.go *)

Module Nocrash.
(** [false && rr.Int64() < 500] *)
Definition maybeCrash (rr : Z) : option unit := if false && (rr <? 500) then None else Some tt.

Definition Map (filename contents : string) : list KeyValue :=
  [mkKeyValue "a" filename; mkKeyValue "b" (Itoa (Z.of_nat (String.length filename)));
   mkKeyValue "c" (Itoa (Z.of_nat (String.length contents))); mkKeyValue "d" "xyzzy"].

Definition Reduce (key : string) (values : list string) : string := Join (Strings values) " ".
End Nocrash.

Module Crash.
(** [rr] is the number that is drawn; [None] is os.Exit. *)
Definition maybeCrash (rr : Z) : option unit := if rr <? 330 then None else Some tt.

Definition Map (rr : Z) (filename contents : string) : option (list KeyValue) :=
  _ ← maybeCrash rr;
  Some [mkKeyValue "a" filename; mkKeyValue "b" (Itoa (Z.of_nat (String.length filename)));
        mkKeyValue "c" (Itoa (Z.of_nat (String.length contents))); mkKeyValue "d" "xyzzy"].

Definition Reduce (rr : Z) (key : string) (values : list string) : option string :=
  _ ← maybeCrash rr; Some (Join (Strings values) " ").
End Crash.

(** (crash.go is nocrash.go with crashes): what test-mr.sh compares them by.  A call that
    does not kill the worker gives what nocrash.go gives, and a crash is a [JCrash]. *)
Theorem crash_as_nocrash rr rr' filename contents key values :
  Nocrash.maybeCrash rr = Some tt ∧
  (Crash.Map rr' filename contents = None ∧ Crash.Reduce rr' key values = None ∧ rr' < 330 ∨
   Crash.Map rr' filename contents = Some (Nocrash.Map filename contents) ∧
   Crash.Reduce rr' key values = Some (Nocrash.Reduce key values) ∧ 330 ≤ rr').
Proof.
  split; [done|]. unfold Crash.Map, Crash.Reduce, Crash.maybeCrash. destruct (Z.ltb_spec rr' 330); [by left|by right].
Qed.

(** ** early_exit.go *)

Module EarlyExit.
Definition Map (filename contents : string) : list KeyValue := [mkKeyValue filename "1"].
(** Some keys make it sleep. *)
Definition Reduce (key : string) (values : list string) : string := Itoa (go_len values).
End EarlyExit.

(** (early_exit.go counts files): a job over files with different names prints a 1 for
    each. *)
Theorem early_exit_counts `{!SortByKey} input_fs inputs nr w :
  0 < nr → go_len inputs ≤ mapCap → Forall (λ '(name, content), input_fs name = Some content) inputs →
  Forall (λ '(name, _), json_string name = name) inputs → NoDup inputs.*1 →
  job_reachable EarlyExit.Map EarlyExit.Reduce input_fs inputs nr w → (Done (coord (mr w))).2 = true →
  job_prints nr w (λ k v, k ∈ inputs.*1 ∧ v = "1").
Proof.
  intros Hn Hfit Hin Hname Hnd Hr Hd. assert (Hu : emits_utf8 EarlyExit.Map inputs).
  { eapply Forall_impl; [exact Hname|]. intros [d c] Hj. repeat constructor. unfold json_kv. simpl. by rewrite Hj. }
  assert (Hp : all_pairs EarlyExit.Map inputs = (λ n, mkKeyValue n "1") <$> inputs.*1).
  { clear. induction inputs as [|[d c] inputs IH] using rev_ind; [done|]. by rewrite all_pairs_app, !fmap_app, IH. }
  eapply job_prints_iff; [|apply (job_lines EarlyExit.Map EarlyExit.Reduce input_fs inputs nr Hn Hfit Hin Wc.count_perm w Hu Hr Hd)].
  intros k v. cbv beta. unfold EarlyExit.Reduce. rewrite Hp, Wc.word_values, <- list_fmap_compose.
  change (Key ∘ (λ n, mkKeyValue n "1")) with (@id string). rewrite list_fmap_id.
  assert (H1 : k ∈ inputs.*1 → filter (λ x, x = k) inputs.*1 = [k]).
  { clear -Hnd. induction Hnd as [|x l Hx Hnd IH]; [by intros ?%elem_of_nil|]. intros [->|Hk]%elem_of_cons.
    - rewrite filter_cons_True by done. f_equal. destruct (filter (λ y, y = x) l) as [|y l'] eqn:E; [done|].
      assert (Hy : y ∈ filter (λ y, y = x) l) by (rewrite E; by left). by apply list_elem_of_filter in Hy as [-> ?].
    - rewrite filter_cons_False by (by intros ->). by apply IH. }
  split; intros [Hk ->]; (split; [done|]); rewrite H1 by done; vm_compute; reflexivity.
Qed.

(** ** A count *)

Definition poem : list (string * string) := [("x", "to be, or not to be"); ("y", "be-quick")].

Definition poem_fs (name : string) : option string := snd <$> find (λ '(n, _), bool_decide (n = name)) poem.
Definition poem_start : JobWorld :=
  job_start (default (mkCoordinator ∅ ∅ [] [] 2 false ∅) (MakeCoordinator poem.*1 2)).

(** Worker 1 crashes in its first map task, worker 2 does everything. *)
Definition poem_events : list JobEvent :=
  [JSpawn 1; JStep 1; JStep 1; JStep 1; JStep 1; JCrash 1; JCheck Map 0; JSpawn 2] ++
  mjoin (replicate 6 (replicate 5 (JStep 2) ++ [JDone])) ++ [JStep 2; JDone].
Definition poem_end : JobWorld :=
  match @job_run_exclusive merge_sort_by_key (@Wc.Map ascii_unicode) Wc.Reduce poem_fs poem_events poem_start with
  | Next w => w
  | _ => poem_start
  end.

Lemma poem_end_reachable : @job_reachable merge_sort_by_key (@Wc.Map ascii_unicode) Wc.Reduce poem_fs poem 2 poem_end.
Proof.
  apply (@job_run_exclusive_reachable merge_sort_by_key (@Wc.Map ascii_unicode) Wc.Reduce poem_fs poem 2 poem_events poem_start).
  - apply job_init. vm_compute. reflexivity.
  - vm_compute. reflexivity.
Qed.

Lemma wc_counts_words_witness :
  ∃ out : list (list (string * string)), mapM (λ i, outs poem_end !! out_name i) (seqZ 0 2) = Some out ∧ ("be", "3") ∈ mjoin out.
Proof.
  destruct (@Wc.wc_counts_words ascii_unicode merge_sort_by_key poem_fs poem 2 poem_end) as (out & E & _ & H).
  - lia.
  - vm_compute. congruence.
  - repeat constructor.
  - exact poem_end_reachable.
  - vm_compute. reflexivity.
  - exists out. split; [exact E|]. apply H. vm_compute. split; reflexivity.
Defined.
